(* ===== verification/_CoqProject ===== *)
-Q . S2P
Prelude.v
Grp.v
GrpHold.v
EpochGen.v
PaxosTypes.v
Combinations.v
MultiAcceptor.v
MultiProposer.v
MultiLearner.v
MultiPaxos.v
ReplicatedLog.v
Liveness.v
Network.v
RingReplacer.v
LiveReplacement.v
ARec.v
ARecRuns.v
Reconfig.v
Kvs.v
BatchPaxos.v
BatchLeader.v
BatchRuns.v
Server.v
Replica.v
KvsState.v
Bcast.v
GoStrings.v
Keys.v
Config.v
NodeInit.v
Modules.v
AuthBC.v
AuthRuns.v
AuthSafety.v
AuthSystem.v
RelBC.v
RelRuns.v
ParallelLearner.v
ParallelAcceptor.v
ParallelProposer.v
ClientHandler.v
ClientIO.v
ClientDial.v
ClientConn.v
ConnManager.v
