(* ===== verification/Prelude.v ===== *)
(** * A verification library for goxos

    goxos is a Go framework for replicated state machines: a group of replicas
    agrees on a sequence of client requests with one of several protocols and
    executes them on an application. This library translates its core into
    Rocq definitions and proves what makes it correct. File and function names
    below are those under src/; the definitions keep the source's names.

    ** The parts and how they interact

    A replica is configured by an INI file (config/, kvs/common/), put together
    and started by server/, and connected to the others by net/. Clients send
    requests, with the client library, to a replica's client handler (client/),
    which passes them to the server (server/). The server batches them into
    values and hands the values to the proposer. The three MultiPaxos actors of every replica
    (multipaxos/) exchange prepares, promises, accepts and learns until the
    learner delivers the value of each slot, in slot order, to the server,
    which executes it on the application (app/, kvs/kvsd/) and returns the
    responses. The failure detector turns heartbeats into suspicions and the
    leader detector (liveness/) turns those into the leader the proposer
    trusts. All actors read the node map and quorum sizes from the group
    manager (grp/). Batch Paxos (batchpaxos/), parallel Paxos (parallelpaxos/),
    authenticated broadcast (authenticatedbc/) and reliable broadcast
    (reliablebc/) are alternatives to the MultiPaxos actors.

    The group can change while the system runs. The ring replacer
    (ringreplacer/) watches the next replica of the ring; when the failure
    detector suspects it, it obtains new machines, has them initialised with
    the application's state and hands a [ReconfMsg] to one of the protocols
    that replace a member: live replacement (lr/), in which the other replicas
    send the new one an epoch promise each and exchange it in their node maps,
    with the other actors held by the group manager; reconfiguration by a decided
    command (reconfig/, server/), after which the members continue with the new
    node map; or asynchronous reconfiguration (arec/), in which the old
    configuration is stopped and its acceptors' state, in promises, starts the
    new one. A new replica waits as a standby (nodeinit/, goxos_standby.go) until
    a running one sends it the configuration and the application's state.

    ** Files

    - Prelude.v (this file): record update, results of code that can panic,
      integers at their width, slices, and lemmas on lists and counting.
    - Grp.v: grp/node.go (identifiers, [NodeMap] with its memoised lists),
      grp/grpmgr_imp.go ([GrpMgr]), and [GroupManager], the class through which
      the actors see the group, with its laws.
    - GrpHold.v: the other part of grp/grpmgr_imp.go, and grp/sub.go - the
      barrier by which a module holds the others ([hold_step]).
    - EpochGen.v: lr/epochgen.go, ringreplacer/epochgen.go, arec/epochgen.go -
      the generators of the epochs of new replicas.
    - PaxosTypes.v: paxos/ - rounds ([ProposerRound], [Compare]), values, the
      slot maps of acceptor, proposer and learner, [Adu], messages - and the
      request of client/.
    - Combinations.v: lr/comb_iterator.go and multipaxos/vq.go - the search for
      a quorum without epoch conflicts - generic in the message type, for
      which the source has two copies.
    - MultiAcceptor.v, MultiProposer.v, MultiLearner.v: multipaxos/acceptor.go,
      proposer.go, learner.go. A record is the actor's state, a definition per
      handler, and [acceptor_step], [proposer_step], [learner_step] are the
      bodies of the event loops: an event in, a state and outputs out.
    - MultiPaxos.v: the system of all replicas' actors over an asynchronous
      network ([step]); its invariant ([Inv]).
    - ReplicatedLog.v: the abstract log ([Log], [log_step]) that the system
      implements, agreement, order and validity, and a run of three replicas.
    - Liveness.v: liveness/fd.go ([Fd], [timeoutProcedure]), mon_ld.go
      ([MonarchicalLD]) and hbem.go.
    - Network.v: net/ - the connections of a replica ([GxConnection]), the sender
      with its redials, the demultiplexer, and their goroutines ([net_step]).
    - RingReplacer.v: ringreplacer/ - the watch and the construction of new
      configurations ([rr_handleFdMsg], [getNewConfigs]).
    - LiveReplacement.v: lr/lr.go, ep_handle.go, pe_handle.go, vq.go - the
      replacement handler ([lr_step]) over the node map, the quorum search and
      the acceptor.
    - ARec.v: arec/ - the reconfiguration handler ([ar_step]) with the goroutines
      it starts and the acceptor it stops; ARecRuns.v, the theorems on its runs.
    - Reconfig.v: reconfig/ - the handler that has reconfigurations proposed one
      after another ([rh_step]), with the server's calls that share its mutex.
    - Kvs.v: kvs/common/reqresp_marsh.go (the wire format) and kvs/kvsd/handler.go,
      state.go ([Execute], [writeStateHash]).
    - BatchPaxos.v, BatchLeader.v, BatchRuns.v: batchpaxos/ - the request log
      ([Batcher]), the replica ([batch_step]), the leader's reports and batch
      points, and the theorems on runs.
    - Server.v: server/run.go, server.go, standby_server.go, handle_reconfig.go -
      the event loop ([sv_step], [sv_run]) over an [AppHandler]; a replica that
      waits inside a reconfiguration is in another [Mode].
    - Replica.v: the server composed with the MultiPaxos system and with the
      key-value store. KvsState.v: the state of the key-value store on its way to
      a new replica (kvs/kvsd/state.go), and the application of bftpubsub/.
    - GoStrings.v: functions of package strings and strconv that configuration
      and keys use. Keys.v: authenticatedbc/keymanager.go - the file of keys.
      Config.v: config/ and kvs/common/ini_parser.go ([parseFile],
      [GetNodeMap], [TransferWrapper]).
    - NodeInit.v: nodeinit/ - the listener and the goroutine of a standby replica
      ([init_step]), the side that initialises it, and the providers of machines.
    - Modules.v: server/init.go, start.go, stop.go, standby_server.go and goxos.go -
      which modules a configuration gives a replica, the order in which they are
      created, started and stopped, and the calls of an application ([calls]).
    - ClientHandler.v: client/srv_clienthandler_tcp.go and srv_clientconn.go -
      the handshake, redirects and the memory of replies ([ch_step]), composed
      with the server.
    - ClientIO.v, ClientDial.v, ClientConn.v: the rest of client/ - the frames on
      a connection and the clients' identifiers; how a client finds a replica
      ([handshake]); the goroutines that send its requests and receive the
      responses ([mc_step], and [bc_step] for batch Paxos). ConnManager.v: the
      connection manager and how messages are printed.
    - Bcast.v: what authenticatedbc/ and reliablebc/ both contain - message
      authentication codes ([generateMAC], with SHA-1 and HMAC written out) and
      the sliding window of rounds ([Storage]).
    - AuthBC.v: authenticatedbc/ - acceptor, learner, publisher and their event
      loops ([aa_step], [al_step], [ap_step]); AuthRuns.v, the invariant of a
      learner and the order of its deliveries; AuthSafety.v, agreement;
      AuthSystem.v, the publisher's runs and the system of all replicas.
    - RelBC.v: reliablebc/ - the acceptor with its two rounds of votes
      ([ra_step]); learner and publisher are those of AuthBC.v. RelRuns.v, the
      theorems on its runs.
    - ParallelLearner.v, ParallelAcceptor.v, ParallelProposer.v: parallelpaxos/ -
      the three actors, each with several goroutines; a step ([pl_step],
      [pa_step], [pr_step]) is what one goroutine does between two accesses to
      what it shares with others, so that runs contain every interleaving.

    ** Conventions

    A Go call is a function into [res]: it returns, panics, or does not
    return. Unsigned integers are [Z] with [u64], [u32] applied where the code
    can wrap; indexing is [slice_get]/[slice_set], which panic out of range.
    Maps are [gmap]; where the code ranges over a map, the order is a class
    ([RangeOrder]) that may give any permutation, so that theorems hold for
    every order. A channel operation is an event or an output of a step;
    blocking on a full channel is not modelled. Logging is left out.

    ** Theorems

    - Consensus (ReplicatedLog.v): in every reachable state of the MultiPaxos
      system at most one value is chosen per slot, learners deliver chosen
      values in slot order without gaps, the logs are prefixes of one another,
      and the system refines the abstract log. Replica.v carries this to the
      responses of the servers, and to the reads of the key-value store.
    - The actors: quorum counting in [handleProm] and [handleLrn], the value
      taken from promises, the alpha window, delivery, votes that respect
      promises, and the totality of the loops.
    - Liveness.v: timeouts, what subscribers are told, who is elected.
    - Replacement: epochs are unique while they do not wrap; the ring replacer
      replaces exactly the suspected stretch of the ring; a replacer is
      activated exactly when a valid quorum of epoch promises has arrived;
      epochs in node maps only grow; and a decided value can be lost, because
      the promises' votes are not installed. With asynchronous reconfiguration a
      replica's acceptor runs exactly while its configuration is valid, and a new
      one is activated by a quorum of promises; decisions are lost for the same
      reason, and a replica can wait for ever. Holds work only once.
    - Kvs.v: round trips of the wire format, reads return the last write,
      determinism, and how errors reach the client.
    - Batch Paxos: replicas with the same commits execute the same sequence,
      the leader commits a batch once, no handler panics, and a request can be
      executed twice.
    - Server.v: no request is lost or proposed twice by batching, and what a
      reconfiguration waits for.
    - KvsState.v: a replica that joins from another's state answers as that one
      does ([joined_replica_agrees]).
    - Network.v: a connection writes what is queued for it in order and at most
      once, a replica has one connection per peer, and a replica whose failure
      detector does not take its heartbeats stops receiving.
    - Keys and configuration: the nodes of a group get the same key for each
      pair, and a server gets the nodes of its file; what bad files give.
    - Starting: a standby replica is initialised at most once, by one connection
      at a time ([one_initialisation]); a new replica enters Paxos only when its
      handler lets it ([standby_starts]); a replica's calls depend on two flags
      ([replica_calls]). But every [Stop] times out ([every_stop_times_out]),
      the broadcast protocols do not start ([broadcast_panics]), and a standby
      can wait for ever ([aborted_stays]).
    - ClientHandler.v: a connection is only sent what concerns its client, and a
      request that is repeated before its answer is executed again.
    - The client library: frames are read as they were written, identifiers pass
      the replicas' test, redirects are followed, and an application receives
      for every request an error or a response with its number
      ([requests_answered]). But a redirect can be taken for an answer, a
      redirect to an unknown node panics, so does a replica that reads a negative
      size, and a client of batch Paxos gets stuck.
    - Reconfig.v: no reconfiguration message is lost; but the handler and the
      server can wait for one another, and two reconfigurations can be in
      progress.
    - Authenticated broadcast: agreement on the hash with Byzantine acceptors,
      order of publication and delivery, what can be delivered; and that values
      can differ, and that a sender without a key can decide a round.
    - Reliable broadcast: agreement on the hash, one commit per round and
      acceptor; and a faulty acceptor can have a hash decided that nobody
      published ([unpublished_hash]).
    - Parallel Paxos: slots are delivered one after the other and as voted for;
      an acceptor that handles one message at a time is that of MultiPaxos; a
      proposer proposes every request once, in a slot of its own. But a new
      leader overwrites decisions ([new_leader_overwrites]), interleaved accepts
      can split the learners ([torn_learn]), and learners deliver in different
      orders ([parallel_orders_differ]).
    - Where the code does not do what it means to do, a theorem states what it
      does: with live replacement a repeated promise is counted twice
      ([handlePromLr_counts_duplicates]), a reconfiguration with alpha = 1
      hangs ([reconfig_alpha_one_hangs]), learners of a fault-free broadcast
      deliver different values ([learners_disagree]), and others.

    ** Assumptions, bounds and fuel

    The system theorems are for the regular mode, without live replacement,
    and a fixed group ([FixedGroup]: a majority quorum, one Paxos identifier
    per acceptor), which [nodemap_fixed_group] shows a well-formed node map to
    be. A message handed to an actor was sent before; it may be lost,
    repeated and reordered. Steps are limited to states in which a 64-bit
    counter does not wrap ([prop_nowrap]).
    Agreement of authenticated broadcast assumes links that deliver what a
    correct acceptor sent in order and members' identifiers only
    ([learner_run]); round numbers are below 2^61.
    Loops over 64-bit counters run on fuel that a theorem shows to be enough:
    [deliver_fuel] is the number of learner slots and one more, [send_accept_fuel]
    the rest of the alpha window, [advance_loop] gets the number of known
    batches and one more, [decided_loop] the length of the window and two more,
    [extractVq] the number of combinations and one more, [put_uvarint] the ten
    bytes of a 64-bit varint, [watch_loop] the number of members and one more.
    The loops of the epoch generators end after at most 2^64 rounds
    ([loop_pos]) or not at all, since their counter then repeats. The loops of
    batchpaxos over uint32 ranges do not end when a range ends at the largest
    uint32; [for_u32] returns [Diverge] there, and [batch_never_panics] assumes
    smaller numbers. [handshake] gets one more than the dials that its
    environment answers, and the sender's redials one more than the attempts it
    allows. In Modules.v a goroutine that runs takes its stop signal, and the
    constructors and sockets succeed.

    ** Not modelled

    The launcher, the load generators and the experiment tools are command line
    programs around the protocols; logging and the event log are read by no
    protocol; Godeps/ is third-party code and
    client/msg.pb.go generated. The timing of handlers' goroutines in lr/ is
    left out: a message is an output when the code hands it to the network.
    Connections (lr/, arec/) are arguments of the steps that need them. Of
    parallel Paxos, stopping and the data races are not modelled: an access to a
    shared variable is a step of its own, and takes effect at once. Of the
    client library the lock of its handshake and the readers of fast Paxos, whose
    clients panic when they write, are left out. gob's encoding of the key-value map,
    encoding/json and time.ParseDuration are parameters; so are the answers of
    sockets. The races on the map of connections in net/ are not modelled: an
    access takes effect at once. *)
From stdpp Require Export prelude gmap strings list list_numbers sorting pretty.
From Stdlib Require Export ZArith Lia.

#[export] Set Default Goal Selector "!".

(** * Record update *)

(** [Eta R] names the projections of the record [R] in constructor order;
    [Update f] is the function that maps the field [f]. *)
Class Eta (R : Type) := eta : R → R.
Class Update {R E : Type} (f : R → E) := update : (E → E) → R → R.
Arguments update {R E} f {_} _ _ /.

Ltac solve_update R f :=
  let e := eval cbv beta delta [eta] in (eta : R → R) in
  let e := lazymatch e with
           | ?i => let i' := eval red in i in i'
           end in
  lazymatch eval pattern f in e with
  | ?g _ =>
      let h := eval cbv beta in (fun upd => g (fun r => upd (f r))) in
      exact h
  end.

#[export] Hint Extern 1 (@Update ?R _ ?f) => solve_update R f : typeclass_instances.

Declare Scope go_scope.
Delimit Scope go_scope with go.
Notation "r <| f := v |>" := (update f (λ _, v) r)
  (at level 1, left associativity, f constr at level 9) : go_scope.
Notation "r <| f ::= g |>" := (update f g r)
  (at level 1, left associativity, f constr at level 9) : go_scope.
#[export] Set Warnings "-notation-overridden,-clear-no-such-hyp".
Open Scope Z_scope.
Open Scope go_scope.

Create HintDb go discriminated.
Create Rewrite HintDb go.

(** * Results of Go code *)

(** A Go call returns, panics (an index out of range, a nil dereference, an
    explicit [panic]), or does not return (a loop that exhausts the fuel that
    is enough for every terminating run). *)
Inductive res (A : Type) :=
| Ok (a : A)
| Panic
| Diverge.
Arguments Ok {_} _.
Arguments Panic {_}.
Arguments Diverge {_}.

#[export] Instance res_ret : MRet res := λ A a, Ok a.
#[export] Instance res_bind : MBind res := λ A B f m,
  match m with Ok a => f a | Panic => Panic | Diverge => Diverge end.
#[export] Instance res_fmap : FMap res := λ A B f m,
  match m with Ok a => Ok (f a) | Panic => Panic | Diverge => Diverge end.

#[export] Instance res_eq_dec {A} `{EqDecision A} : EqDecision (res A).
Proof. solve_decision. Defined.

Definition is_ok {A} (r : res A) : bool :=
  match r with Ok _ => true | _ => false end.

Lemma bind_Ok {A B} (m : res A) (f : A → res B) b :
  (m ≫= f) = Ok b ↔ ∃ a, m = Ok a ∧ f a = Ok b.
Proof.
  split.
  - destruct m; simpl; [eauto|discriminate..].
  - intros (a & -> & H). exact H.
Qed.

Lemma Ok_inj {A} (a b : A) : Ok a = Ok b → a = b.
Proof. by intros [=]. Qed.

Lemma fmap_Ok {A B} (f : A → B) (m : res A) b :
  f <$> m = Ok b ↔ ∃ a, m = Ok a ∧ f a = b.
Proof.
  split.
  - destruct m; simpl; [intros [= <-]; eauto|discriminate..].
  - intros (a & -> & <-). done.
Qed.

(** [res_inv] destructs the successful runs in the context. *)
Ltac res_inv :=
  repeat match goal with
  | H : (_ ≫= _) = Ok _ |- _ => apply bind_Ok in H; destruct H as (? & ? & H)
  | H : _ <$> _ = Ok _ |- _ => apply fmap_Ok in H; destruct H as (? & ? & H)
  | H : mret _ = Ok _ |- _ => injection H as H
  | H : Ok _ = Ok _ |- _ => injection H as H
  | H : Panic = Ok _ |- _ => discriminate H
  | H : Diverge = Ok _ |- _ => discriminate H
  end.

(** A loop over a list whose body may panic. *)
Fixpoint foldM {A S} (f : S → A → res S) (s : S) (l : list A) : res S :=
  match l with
  | [] => Ok s
  | a :: l => s' ← f s a; foldM f s' l
  end.

Lemma foldM_app {A S} (f : S → A → res S) s l1 l2 :
  foldM f s (l1 ++ l2) = (s' ← foldM f s l1; foldM f s' l2).
Proof.
  revert s. induction l1 as [|a l1 IH]; intros s; [done|].
  simpl. destruct (f s a); simpl; [apply IH|done..].
Qed.

(** A loop whose body never panics. *)
Lemma foldM_returns {A S} (f : S → A → res S) l :
  (∀ s a, ∃ s', f s a = Ok s') → ∀ s, ∃ s', foldM f s l = Ok s'.
Proof.
  intros Hf. induction l as [|a l IH]; intros s; cbn; [eauto|]. destruct (Hf s a) as [s1 ->]. apply IH.
Qed.

(** The loop rule: an invariant indexed by the prefix that has been handled. *)
Lemma foldM_inv {A S} (P : list A → S → Prop) (f : S → A → res S) l :
  (∀ pre a post s s', l = pre ++ a :: post → P pre s → f s a = Ok s' → P (pre ++ [a]) s') →
  ∀ s s', P [] s → foldM f s l = Ok s' → P l s'.
Proof.
  intros Hstep s s' H0 Hrun.
  cut (∀ pre post s, l = pre ++ post → P pre s → foldM f s post = Ok s' → P l s').
  { intros Hc. eapply (Hc [] l); eauto. }
  clear s H0 Hrun. intros pre post. revert pre.
  induction post as [|a post IH]; intros pre s El Hp Hrun; simpl in Hrun; res_inv.
  - subst. by rewrite app_nil_r.
  - eapply (IH (pre ++ [a])); [by rewrite <- app_assoc| |done]. by eapply Hstep.
Qed.

(** A loop whose body relates its state to the next by a preorder. *)
Lemma foldM_rel {A S} (R : S → S → Prop) `{!PreOrder R} (f : S → A → res S) l :
  (∀ s a s', f s a = Ok s' → R s s') → ∀ s s', foldM f s l = Ok s' → R s s'.
Proof.
  intros Hf. induction l as [|a l IH]; intros s s' H; simpl in H; res_inv; [by subst|].
  etransitivity; eauto.
Qed.

(** The same rule for a loop that cannot fail. *)
Lemma foldl_inv {A S} (P : list A → S → Prop) (f : S → A → S) l :
  (∀ pre a post s, l = pre ++ a :: post → P pre s → P (pre ++ [a]) (f s a)) →
  ∀ s, P [] s → P l (foldl f s l).
Proof.
  intros Hstep s H0.
  cut (∀ pre post s, l = pre ++ post → P pre s → P l (foldl f s post)).
  { intros Hc. by apply (Hc [] l). }
  clear s H0. intros pre post. revert pre.
  induction post as [|a post IH]; intros pre s El Hp; simpl.
  - subst. by rewrite app_nil_r.
  - apply (IH (pre ++ [a])); [by rewrite <- app_assoc|]. by eapply Hstep.
Qed.

(** A loop that ends when its body returns a result, bounded by a binary number
    so that large bounds can be evaluated. *)
Section loop.
Context {S R : Type} (f : S → S + R).

Fixpoint loop_pos (p : positive) (s : S) : S + R :=
  match p with
  | xH => f s
  | xO p => match loop_pos p s with inl s => loop_pos p s | r => r end
  | xI p => match f s with
            | inl s => match loop_pos p s with inl s => loop_pos p s | r => r end
            | r => r
            end
  end.

Fixpoint loop_nat (n : nat) (s : S) : S + R :=
  match n with
  | O => inl s
  | Datatypes.S n => match f s with inl s => loop_nat n s | r => r end
  end.

Lemma loop_nat_add n m s :
  loop_nat (n + m) s = match loop_nat n s with inl s => loop_nat m s | r => r end.
Proof. revert s. induction n as [|n IH]; intros s; [done|]. cbn. by destruct (f s). Qed.

Lemma loop_pos_nat p : ∀ s, loop_pos p s = loop_nat (Pos.to_nat p) s.
Proof.
  induction p as [p IH|p IH|]; intros s.
  - rewrite Pos2Nat.inj_xI. cbn [loop_pos loop_nat]. destruct (f s) as [s'|]; [|done].
    replace (2 * Pos.to_nat p)%nat with (Pos.to_nat p + Pos.to_nat p)%nat by lia.
    rewrite loop_nat_add, <- !IH. by destruct (loop_pos p s').
  - rewrite Pos2Nat.inj_xO. cbn [loop_pos]. replace (2 * Pos.to_nat p)%nat with (Pos.to_nat p + Pos.to_nat p)%nat by lia.
    rewrite loop_nat_add, <- !IH. by destruct (loop_pos p s).
  - change (Pos.to_nat 1) with 1%nat. cbn [loop_pos loop_nat]. by destruct (f s).
Qed.
End loop.

(** * Machine integers *)

(** Go's [uint] and [uint64] (both 64 bits wide on the platforms the program
    is built for), [uint32], [uint8], and the signed [int8] and [int64]. *)
Definition u64 (z : Z) : Z := z `mod` 2 ^ 64.
Definition u32 (z : Z) : Z := z `mod` 2 ^ 32.
Definition u8 (z : Z) : Z := z `mod` 2 ^ 8.
Definition i8 (z : Z) : Z := (z + 2 ^ 7) `mod` 2 ^ 8 - 2 ^ 7.
Definition i64 (z : Z) : Z := (z + 2 ^ 63) `mod` 2 ^ 64 - 2 ^ 63.

Lemma u64_small z : 0 ≤ z < 2 ^ 64 → u64 z = z.
Proof. apply Z.mod_small. Qed.
Lemma u32_small z : 0 ≤ z < 2 ^ 32 → u32 z = z.
Proof. apply Z.mod_small. Qed.
Lemma u8_small z : 0 ≤ z < 2 ^ 8 → u8 z = z.
Proof. apply Z.mod_small. Qed.
Lemma i8_small z : - 2 ^ 7 ≤ z < 2 ^ 7 → i8 z = z.
Proof. intros H. unfold i8. rewrite Z.mod_small; lia. Qed.
Lemma i64_small z : - 2 ^ 63 ≤ z < 2 ^ 63 → i64 z = z.
Proof. intros H. unfold i64. rewrite Z.mod_small; lia. Qed.
Lemma u64_range z : 0 ≤ u64 z < 2 ^ 64.
Proof. apply Z.mod_pos_bound. lia. Qed.
Lemma u32_range z : 0 ≤ u32 z < 2 ^ 32.
Proof. apply Z.mod_pos_bound. lia. Qed.
Lemma u8_range z : 0 ≤ u8 z < 2 ^ 8.
Proof. apply Z.mod_pos_bound. lia. Qed.
Lemma i8_range z : - 2 ^ 7 ≤ i8 z < 2 ^ 7.
Proof. unfold i8. pose proof (Z.mod_pos_bound (z + 2 ^ 7) (2 ^ 8)). lia. Qed.

(** [nowrap] removes the conversions whose argument is in range. *)
Ltac nowrap :=
  repeat match goal with
  | |- context [u64 ?z] => rewrite (u64_small z) by lia
  | |- context [u32 ?z] => rewrite (u32_small z) by lia
  | |- context [u8 ?z] => rewrite (u8_small z) by lia
  | |- context [i8 ?z] => rewrite (i8_small z) by lia
  | |- context [i64 ?z] => rewrite (i64_small z) by lia
  end.
Ltac nowrap_in H :=
  repeat match type of H with
  | context [u64 ?z] => rewrite (u64_small z) in H by lia
  | context [u32 ?z] => rewrite (u32_small z) in H by lia
  | context [u8 ?z] => rewrite (u8_small z) in H by lia
  | context [i8 ?z] => rewrite (i8_small z) in H by lia
  | context [i64 ?z] => rewrite (i64_small z) in H by lia
  end.

#[export] Hint Resolve u64_range u32_range u8_range i8_range : go.

(** The interval [lo, lo+1, ..., hi-1], which a counting loop visits. *)
Definition range (lo hi : Z) : list Z := seqZ lo (hi - lo).

Lemma elem_of_range lo hi x : x ∈ range lo hi ↔ lo ≤ x < hi.
Proof. unfold range. rewrite elem_of_seqZ. lia. Qed.
Lemma range_nil lo hi : hi ≤ lo → range lo hi = [].
Proof. intros. apply seqZ_nil. lia. Qed.
Lemma range_cons lo hi : lo < hi → range lo hi = lo :: range (lo + 1) hi.
Proof. intros. unfold range. rewrite seqZ_cons by lia. do 2 f_equal; lia. Qed.
Lemma range_snoc lo hi : lo ≤ hi → range lo (hi + 1) = range lo hi ++ [hi].
Proof.
  intros. unfold range. replace (hi + 1 - lo) with ((hi - lo) + 1) by lia.
  rewrite seqZ_app by lia. f_equal. rewrite seqZ_cons by lia.
  rewrite seqZ_nil by lia. f_equal. lia.
Qed.
Lemma seqZ_snoc lo n : 0 ≤ n → seqZ lo (n + 1) = seqZ lo n ++ [lo + n].
Proof.
  intros. rewrite seqZ_app by lia. f_equal.
Qed.
Lemma range_split lo mid hi : lo ≤ mid ≤ hi → range lo mid ++ range mid hi = range lo hi.
Proof.
  intros. unfold range. replace (hi - lo) with ((mid - lo) + (hi - mid)) by lia.
  rewrite seqZ_app by lia. do 2 f_equal; lia.
Qed.
Lemma length_range lo hi : lo ≤ hi → Z.of_nat (length (range lo hi)) = hi - lo.
Proof. intros. unfold range. rewrite length_seqZ. lia. Qed.
Lemma NoDup_range lo hi : NoDup (range lo hi).
Proof. apply NoDup_seqZ. Qed.
#[export] Hint Rewrite elem_of_range : go.

(** Where a counting loop stands when it reaches [i]. *)
Lemma range_app_cons lo hi pre i post :
  range lo hi = pre ++ i :: post → pre = range lo i ∧ lo ≤ i < hi ∧ post = range (i + 1) hi.
Proof.
  revert lo. induction pre as [|j pre IH]; intros lo E;
    (destruct (decide (lo < hi)); [|rewrite range_nil in E by lia; done]);
    rewrite (range_cons lo hi) in E by done; injection E as -> E.
  - rewrite range_nil by lia. split_and!; [done|lia..|done].
  - destruct (IH _ E) as (-> & ? & ?). split_and!; [|lia..|done].
    by rewrite (range_cons j i) by lia.
Qed.

(** * Slices *)

(** [len(s)], and [s[i]] and [s[i] = v] with Go's bounds check on a signed index. *)
Abbreviation len s := (Z.of_nat (length s)).

Definition slice_get {A} (s : list A) (i : Z) : res A :=
  if decide (0 ≤ i) then
    match s !! Z.to_nat i with Some a => Ok a | None => Panic end
  else Panic.

Definition slice_set {A} (s : list A) (i : Z) (a : A) : res (list A) :=
  if decide (0 ≤ i < len s) then Ok (<[Z.to_nat i := a]> s) else Panic.

Lemma slice_get_Ok {A} (s : list A) i a :
  slice_get s i = Ok a ↔ 0 ≤ i ∧ s !! Z.to_nat i = Some a.
Proof.
  unfold slice_get. case_decide; [|split; [done|intros [? _]; done]].
  destruct (s !! Z.to_nat i); naive_solver.
Qed.

Lemma slice_get_total {A} (s : list A) i :
  0 ≤ i < len s → ∃ a, slice_get s i = Ok a.
Proof.
  intros H. destruct (lookup_lt_is_Some_2 s (Z.to_nat i)) as [a Ha]; [lia|].
  exists a. apply slice_get_Ok. split; [lia|done].
Qed.

Lemma slice_set_Ok {A} (s s' : list A) i a :
  slice_set s i a = Ok s' ↔ 0 ≤ i < len s ∧ s' = <[Z.to_nat i := a]> s.
Proof. unfold slice_set. case_decide; naive_solver. Qed.

Lemma slice_set_total {A} (s : list A) i a :
  0 ≤ i < len s → ∃ s', slice_set s i a = Ok s'.
Proof. intros. unfold slice_set. rewrite decide_True by done. eauto. Qed.

Lemma slice_set_length {A} (s s' : list A) i a :
  slice_set s i a = Ok s' → length s' = length s.
Proof. intros [_ ->]%slice_set_Ok. apply length_insert. Qed.

Lemma slice_set_lookup_eq {A} (s s' : list A) i a :
  slice_set s i a = Ok s' → s' !! Z.to_nat i = Some a.
Proof. intros [? ->]%slice_set_Ok. apply list_lookup_insert_eq. lia. Qed.

(** [make([]*T, n)]: a slice of nil pointers. *)
Definition nils {A} (n : Z) : list (option A) := replicate (Z.to_nat n) None.

Lemma nils_lookup {A} n i (o : option A) : nils n !! i = Some o → o = None.
Proof. intros [-> _]%lookup_replicate. done. Qed.

(** The number of entries of a slice of pointers that are not nil. *)
Fixpoint count_some {A} (s : list (option A)) : nat :=
  match s with
  | [] => 0
  | Some _ :: s => S (count_some s)
  | None :: s => count_some s
  end.

Lemma count_some_nils {A} n : count_some (nils (A:=A) n) = 0%nat.
Proof. unfold nils. induction (Z.to_nat n); simpl; auto. Qed.

Lemma count_some_insert_None {A} (s : list (option A)) i a :
  s !! i = Some None → count_some (<[i := Some a]> s) = S (count_some s).
Proof.
  revert i. induction s as [|o s IH]; intros [|i] H; simplify_eq/=; [done|].
  destruct o; simpl; rewrite (IH i); done.
Qed.

Lemma count_some_insert_Some {A} (s : list (option A)) i a b :
  s !! i = Some (Some b) → count_some (<[i := Some a]> s) = count_some s.
Proof.
  revert i. induction s as [|o s IH]; intros [|i] H; simplify_eq/=; [done|].
  destruct o; simpl; rewrite (IH i); done.
Qed.

Lemma count_some_le {A} (s : list (option A)) : (count_some s ≤ length s)%nat.
Proof. induction s as [|[]]; simpl; lia. Qed.

(** The indices of the entries that are not nil. *)
Fixpoint somes_from {A} (k : nat) (s : list (option A)) : list nat :=
  match s with
  | [] => []
  | Some _ :: s => k :: somes_from (S k) s
  | None :: s => somes_from (S k) s
  end.
Definition somes {A} (s : list (option A)) : list nat := somes_from 0 s.

Lemma elem_of_somes_from {A} (s : list (option A)) k i :
  i ∈ somes_from k s ↔ (k ≤ i)%nat ∧ ∃ a, s !! (i - k)%nat = Some (Some a).
Proof.
  revert k. induction s as [|o s IH]; intros k; simpl.
  { rewrite elem_of_nil. naive_solver. }
  destruct (decide (i = k)) as [->|Hn].
  - rewrite Nat.sub_diag. destruct o as [a|].
    + split; [intros _; split; [lia|by exists a]|intros _; constructor].
    + rewrite IH. split; [lia|]. by intros (_ & a & [=]).
  - assert (i ∈ somes_from (S k) s ↔ (k ≤ i)%nat ∧ ∃ a, (o :: s) !! (i - k)%nat = Some (Some a)) as Hi.
    { rewrite IH. split; intros (H & a & Ha); (split; [lia|]); exists a.
      - by replace (i - k)%nat with (S (i - S k)) by lia.
      - by replace (i - k)%nat with (S (i - S k)) in Ha by lia. }
    destruct o; [|done]. rewrite elem_of_cons. naive_solver.
Qed.

Lemma elem_of_somes {A} (s : list (option A)) i :
  i ∈ somes s ↔ ∃ a, s !! i = Some (Some a).
Proof.
  unfold somes. rewrite elem_of_somes_from, Nat.sub_0_r. naive_solver lia.
Qed.

Lemma NoDup_somes {A} (s : list (option A)) : NoDup (somes s).
Proof.
  unfold somes. generalize 0%nat.
  induction s as [|[] s IH]; intros k; simpl; [constructor| |apply IH].
  constructor; [|apply IH]. rewrite elem_of_somes_from. lia.
Qed.

Lemma length_somes {A} (s : list (option A)) : length (somes s) = count_some s.
Proof.
  unfold somes. generalize 0%nat.
  induction s as [|[] s IH]; intros k; simpl; [done|by rewrite IH|apply IH].
Qed.

(** * Quorums *)

(** Two duplicate-free lists drawn from a third share an element when their
    lengths sum to more than the third's. *)
Lemma quorum_overlap {A} `{EqDecision A} (U Q1 Q2 : list A) :
  NoDup Q1 → NoDup Q2 → Q1 ⊆ U → Q2 ⊆ U →
  (length U < length Q1 + length Q2)%nat → ∃ a, a ∈ Q1 ∧ a ∈ Q2.
Proof.
  intros N1 N2 S1 S2 Hlen.
  destruct (decide (Exists (.∈ Q2) Q1)) as [He|Hn].
  { apply Exists_exists in He as (a & ? & ?). eauto. }
  exfalso. rewrite <- length_app in Hlen.
  assert (NoDup (Q1 ++ Q2)) as Nd.
  { apply NoDup_app. split_and!; [done| |done].
    intros a H1 H2. apply Hn, Exists_exists. eauto. }
  assert (Q1 ++ Q2 ⊆+ U) as Hs%submseteq_length by
    (apply NoDup_submseteq; [done|]; intros a [|]%elem_of_app; auto).
  lia.
Qed.

(** * Iteration over maps *)

(** Go leaves the order in which [range] visits a map unspecified: an
    instance of [RangeOrder] fixes one order per loop (numbered by its
    occurrence in the operation), and every theorem holds for all of them. *)
Class RangeOrder :=
  range_order : ∀ {K A} `{Countable K}, nat → gmap K A → list (K * A).
Class RangeOrderLaws (RO : RangeOrder) :=
  range_order_perm : ∀ {K A} `{Countable K} n (m : gmap K A),
    range_order n m ≡ₚ map_to_list m.

(** The order in which stdpp lists a map is one such order. *)
#[export] Instance map_order : RangeOrder := λ K A _ _ _ m, map_to_list m.
#[export] Instance map_order_laws : RangeOrderLaws map_order.
Proof. intros K A ? ? n m. reflexivity. Qed.

Section range_order.
Context {RO : RangeOrder} {RL : RangeOrderLaws RO} {K A : Type} `{Countable K}.
Implicit Types m : gmap K A.

Lemma elem_of_range_order n m k a : (k, a) ∈ range_order n m ↔ m !! k = Some a.
  Proof. by rewrite range_order_perm, elem_of_map_to_list. Qed.
Lemma NoDup_fst_range_order n m : NoDup (range_order n m).*1.
  Proof. rewrite range_order_perm. apply NoDup_fst_map_to_list. Qed.
Lemma NoDup_range_order n m : NoDup (range_order n m).
  Proof. rewrite range_order_perm. apply NoDup_map_to_list. Qed.
Lemma length_range_order n m : length (range_order n m) = size m.
  Proof. by rewrite range_order_perm, length_map_to_list. Qed.
End range_order.

(** * Lists *)

Lemma filter_ext_elem {A} (P Q : A → Prop) `{∀ x, Decision (P x), ∀ x, Decision (Q x)}
    (l : list A) :
  (∀ x, x ∈ l → P x ↔ Q x) → filter P l = filter Q l.
Proof.
  induction l as [|x l IH]; intros Hl; [done|]. rewrite !filter_cons, IH
    by (intros; apply Hl; by constructor).
  specialize (Hl x ltac:(constructor)). repeat case_decide; naive_solver.
Qed.

Lemma bind_ext_elem {A B} (f g : A → list B) (l : list A) :
  (∀ x, x ∈ l → f x = g x) → l ≫= f = l ≫= g.
Proof.
  induction l as [|x l IH]; intros H; [done|]. cbn.
  rewrite H by constructor. f_equal. apply IH. intros y Hy. apply H. by constructor.
Qed.

(** Lists that agree wherever both are defined are prefixes of one another. *)
Lemma agree_prefix {A} (l1 l2 : list A) :
  (∀ k x y, l1 !! k = Some x → l2 !! k = Some y → x = y) →
  l1 `prefix_of` l2 ∨ l2 `prefix_of` l1.
Proof.
  revert l2. induction l1 as [|x l1 IH]; intros l2 Heq; [left; apply prefix_nil|].
  destruct l2 as [|y l2]; [right; apply prefix_nil|].
  rewrite (Heq 0%nat x y) by done.
  destruct (IH l2) as [?|?]; [|left; by apply prefix_cons|right; by apply prefix_cons].
  intros k. apply (Heq (S k)).
Qed.

(** * Byte strings *)

Definition str_bytes (s : string) : list Z :=
  (λ a, Z.of_nat (Ascii.nat_of_ascii a)) <$> String.list_ascii_of_string s.

(** Go's order on strings. *)
Fixpoint bytes_leb (a b : list Z) : bool :=
  match a, b with
  | [], _ => true
  | _ :: _, [] => false
  | x :: a, y :: b => bool_decide (x < y) || (bool_decide (x = y) && bytes_leb a b)
  end.
Definition bytes_le (a b : list Z) : Prop := bytes_leb a b = true.
#[export] Instance bytes_le_dec : RelDecision bytes_le.
Proof. intros a b. unfold bytes_le. apply _. Defined.

Lemma bytes_le_refl a : bytes_le a a.
Proof.
  unfold bytes_le. induction a as [|x a IH]; [done|]. cbn.
  by rewrite (bool_decide_eq_true_2 (x = x)), IH, orb_true_r.
Qed.
Lemma bytes_le_cons x a y b : bytes_le (x :: a) (y :: b) ↔ x < y ∨ (x = y ∧ bytes_le a b).
Proof.
  unfold bytes_le. cbn. by rewrite orb_true_iff, andb_true_iff, !bool_decide_eq_true.
Qed.
#[export] Instance bytes_le_total : Total bytes_le.
Proof.
  intros a. induction a as [|x a IH]; intros [|y b]; [by left|by left|by right|].
  rewrite !bytes_le_cons. destruct (Z.lt_trichotomy x y) as [?|[->|?]]; auto.
  destruct (IH b); auto.
Qed.
#[export] Instance bytes_le_trans : Transitive bytes_le.
Proof.
  intros a. induction a as [|x a IH]; intros [|y b] [|z c]; try done.
  rewrite !bytes_le_cons. intros [?|[-> H1]] [?|[-> H2]]; [left; lia|by left|by left|right].
  split; [done|by eapply IH].
Qed.
#[export] Instance bytes_le_antisymm : AntiSymm (=) bytes_le.
Proof.
  intros a. induction a as [|x a IH]; intros [|y b]; try done.
  rewrite !bytes_le_cons. intros [?|[-> H1]] [?|[E H2]]; try lia. f_equal. by apply IH.
Qed.

(** Strings are ordered by their bytes ([sort.Strings]). *)
Definition str_le (a b : string) : Prop := bytes_le (str_bytes a) (str_bytes b).
#[export] Instance str_le_dec : RelDecision str_le.
Proof. intros a b. unfold str_le. apply _. Defined.
#[export] Instance str_le_total : Total str_le.
Proof. intros a b. apply bytes_le_total. Qed.
#[export] Instance str_le_trans : Transitive str_le.
Proof. intros a b c. unfold str_le. apply bytes_le_trans. Qed.

Lemma str_bytes_inj a b : str_bytes a = str_bytes b → a = b.
Proof.
  unfold str_bytes. intros H.
  rewrite <- (String.string_of_list_ascii_of_string a), <- (String.string_of_list_ascii_of_string b).
  f_equal. eapply list_fmap_eq_inj; [|exact H]. intros x y E%Nat2Z.inj.
  by rewrite <- (Ascii.ascii_nat_embedding x), E, Ascii.ascii_nat_embedding.
Qed.
#[export] Instance str_le_antisymm : AntiSymm (=) str_le.
Proof. intros a b H1 H2. apply str_bytes_inj. by apply (anti_symm bytes_le). Qed.

(** * Loops that build a map from a map *)

(** [for k, a := range m { if b, ok := g(k, a); ok { acc[k] = b } }] *)
Definition range_collect {RO : RangeOrder} {K A B} `{Countable K} (n : nat)
    (g : K → A → option B) (m : gmap K A) (acc : gmap K B) : gmap K B :=
  foldl (λ acc '(k, a), match g k a with Some b => <[k := b]> acc | None => acc end)
    acc (range_order n m).

Lemma lookup_range_collect {RO : RangeOrder} {RL : RangeOrderLaws RO} {K A B} `{Countable K}
    n (g : K → A → option B) m acc k :
  range_collect n g m acc !! k =
    match m !! k ≫= g k with Some b => Some b | None => acc !! k end.
Proof.
  unfold range_collect.
  set (f := λ (acc : gmap K B) '(k, a), match g k a with Some b => <[k := b]> acc | None => acc end).
  assert (∀ (l : list (K * A)) acc, NoDup l.*1 → foldl f acc l !! k =
    match (list_to_map l : gmap K A) !! k ≫= g k with Some b => Some b | None => acc !! k end) as Hl.
  { induction l as [|[j a] l IH]; intros acc0 Nd; [done|].
    cbn in Nd. apply NoDup_cons in Nd as [Hj Nd].
    cbn [foldl list_to_map foldr curry fst snd]. rewrite (IH _ Nd). destruct (decide (k = j)) as [->|Hk].
    - rewrite lookup_insert_eq, not_elem_of_list_to_map_1 by done. cbn.
      destruct (g j a); [by rewrite lookup_insert_eq|done].
    - rewrite lookup_insert_ne by done. destruct ((list_to_map l : gmap K A) !! k ≫= g k); [done|].
      cbn. destruct (g j a); [by rewrite lookup_insert_ne|done]. }
  rewrite Hl by apply NoDup_fst_range_order.
  cut ((list_to_map (range_order n m) : gmap K A) !! k = m !! k); [by intros ->|].
  destruct (m !! k) as [a|] eqn:E.
  - apply elem_of_list_to_map_1; [apply NoDup_fst_range_order|by apply elem_of_range_order].
  - apply not_elem_of_list_to_map_1. intros ([j b] & -> & Hb)%list_elem_of_fmap.
    apply elem_of_range_order in Hb. cbn in E. congruence.
Qed.

(** * Runs of an event loop *)

(** The event loop of an actor as a step function: an event in, the new state
    and the outputs out. A run relates a start state and the events handled to
    the state reached and everything sent. *)
Section run.
Context {S E O : Type} (step : S → E → res (S * list O)).

Inductive run (s0 : S) : list E → S → list O → Prop :=
| run_nil : run s0 [] s0 []
| run_snoc evs s outs ev s' o :
    run s0 evs s outs → step s ev = Ok (s', o) → run s0 (evs ++ [ev]) s' (outs ++ o).

Fixpoint run_exec (s : S) (evs : list E) : option (S * list O) :=
  match evs with
  | [] => Some (s, [])
  | ev :: evs =>
      match step s ev with
      | Ok (s1, o1) => (λ p, (p.1, o1 ++ p.2)) <$> run_exec s1 evs
      | _ => None
      end
  end.

Lemma run_trans s0 evs1 s1 o1 evs2 s2 o2 :
  run s0 evs1 s1 o1 → run s1 evs2 s2 o2 → run s0 (evs1 ++ evs2) s2 (o1 ++ o2).
Proof.
  intros H1. induction 1 as [|evs s outs ev s' o _ IH Hs]; [by rewrite !app_nil_r|].
  rewrite !(assoc_L (++)). by econstructor.
Qed.
Lemma run_one s ev s' o : step s ev = Ok (s', o) → run s [ev] s' o.
Proof. intros. apply (run_snoc s [] s [] ev s' o); [constructor|done]. Qed.

Lemma run_exec_run s evs s' outs : run_exec s evs = Some (s', outs) → run s evs s' outs.
Proof.
  revert s outs. induction evs as [|ev evs IH]; intros s outs; cbn; [intros [= <- <-]; constructor|].
  destruct (step s ev) as [[s1 o1]| |] eqn:Hs; [|done..].
  intros ([s2 o2] & Hx & E')%fmap_Some. cbn in E'. injection E' as -> ->.
  apply (run_trans s [ev] s1 o1); [by apply run_one|by apply IH].
Qed.

Lemma run_run_exec s evs s' outs : run s evs s' outs → run_exec s evs = Some (s', outs).
Proof.
  induction 1 as [|evs s1 outs ev s2 o _ IH Hs]; [done|]. revert s outs IH.
  induction evs as [|e evs IH]; intros s outs Hx; cbn in *.
  - injection Hx as <- <-. by rewrite Hs, app_nil_r.
  - destruct (step s e) as [[s3 o3]| |]; [|done..]. apply fmap_Some in Hx as ([s4 o4] & Hx & [= -> ->]).
    rewrite (IH _ _ Hx). cbn. by rewrite (assoc_L (++)).
Qed.

(** An invariant of the events handled, the state and the outputs. *)
Lemma run_inv (P : list E → S → list O → Prop) s0 :
  P [] s0 [] →
  (∀ evs s outs ev s' o, run s0 evs s outs → P evs s outs → step s ev = Ok (s', o) → P (evs ++ [ev]) s' (outs ++ o)) →
  ∀ evs s outs, run s0 evs s outs → P evs s outs.
Proof. intros H0 Hs evs s outs. induction 1; eauto. Qed.
End run.
