(* ===== verification/Grp.v ===== *)
(** Package grp (src/grp): node identifiers, the node map with its memoised
    identifier lists, and the group manager the Paxos actors read their
    quorum sizes from. *)
From S2P Require Import Prelude.

(** * Identifiers (node.go) *)

(** [type PaxosID int8], [type Epoch uint64]. *)
Abbreviation PaxosID := Z (only parsing).
Abbreviation Epoch := Z (only parsing).

Record ID := mkID { PxID : PaxosID; IDEpoch : Epoch }.
#[export] Instance eta_ID : Eta ID := λ r, mkID (PxID r) (IDEpoch r).

#[export] Instance ID_eq_dec : EqDecision ID.
Proof. solve_decision. Defined.
#[export] Instance ID_countable : Countable ID.
Proof.
  by refine (inj_countable' (λ i, (PxID i, IDEpoch i)) (λ p, mkID p.1 p.2) _); intros [].
Defined.
#[export] Instance ID_inhabited : Inhabited ID := populate (mkID 0 0).

Definition MinPaxosID : PaxosID := -1.
Definition MaxPaxosID : PaxosID := 127.
Definition MinEpoch : Epoch := 0.
Definition MaxEpoch : Epoch := 2 ^ 64 - 1.

Definition NewID (id : PaxosID) (epoch : Epoch) : ID := mkID id epoch.
Definition NewIDFromInt (paxosID epoch : Z) : ID := mkID paxosID epoch.
Definition NewPxIDFromInt (paxosID : Z) : ID := mkID paxosID 0.

Definition minID : ID := mkID MinPaxosID MinEpoch.
Definition maxID : ID := mkID MaxPaxosID MinEpoch.
Definition undefinedID : ID := NewIDFromInt (-1) 0.
Definition MinID : ID := minID.
Definition MaxID : ID := maxID.
Definition UndefinedID : ID := undefinedID.

Definition CompareTo (id otherID : ID) : Z :=
  if bool_decide (PxID id > PxID otherID) then 1
  else if bool_decide (PxID id < PxID otherID) then -1
  else if bool_decide (IDEpoch id > IDEpoch otherID) then 1
  else if bool_decide (IDEpoch id < IDEpoch otherID) then -1
  else 0.

Definition PxInt (id : ID) : Z := PxID id.

Definition ID_String (id : ID) : string :=
  pretty (PxID id) +:+ "-" +:+ pretty (i64 (IDEpoch id)).

(** * Nodes (node.go) *)

Record Node := mkNode {
  IP : string;
  PaxosPort : string;
  ClientPort : string;
  Proposer : bool;
  Acceptor : bool;
  Learner : bool;
}.
#[export] Instance eta_Node : Eta Node := λ r,
  mkNode (IP r) (PaxosPort r) (ClientPort r) (Proposer r) (Acceptor r) (Learner r).
#[export] Instance Node_eq_dec : EqDecision Node.
Proof. solve_decision. Defined.

Definition NewNode (ip pp cp : string) (prop acc lrn : bool) : Node :=
  mkNode ip pp cp prop acc lrn.
Definition zero_Node : Node := mkNode "" "" "" false false false.

Definition PaxosAddr (n : Node) : string := IP n +:+ ":" +:+ PaxosPort n.
Definition ClientAddr (n : Node) : string := IP n +:+ ":" +:+ ClientPort n.

Definition ActorString (n : Node) : string :=
  let actors := [] in
  let actors := if Proposer n then actors ++ ["P"] else actors in
  let actors := if Acceptor n then actors ++ ["A"] else actors in
  let actors := if Learner n then actors ++ ["L"] else actors in
  String.concat ":" actors.

Definition Node_String (n : Node) : string :=
  "node (" +:+ ActorString n +:+ ") with address: " +:+ IP n +:+ ":" +:+
  PaxosPort n +:+ "/" +:+ ClientPort n.

Definition IsSame (n m : Node) : bool :=
  bool_decide (IP m = IP n) && bool_decide (PaxosPort m = PaxosPort n).

(** * The node map (node.go) *)

Record NodeMap := mkNodeMap {
  nodes : gmap ID Node;
  epochs : list Epoch;
  nrOfNodes : Z;
  nrOfAcceptors : Z;
  quorum : Z;
  idsMemoized : list ID;
  proposerIdsMemoized : list ID;
  acceptorIdsMemoized : list ID;
  learnerIdsMemoized : list ID;
}.
#[export] Instance eta_NodeMap : Eta NodeMap := λ r,
  mkNodeMap (nodes r) (epochs r) (nrOfNodes r) (nrOfAcceptors r) (quorum r)
    (idsMemoized r) (proposerIdsMemoized r) (acceptorIdsMemoized r) (learnerIdsMemoized r).

(** The errors of [Add] and [Replace]. *)
Inductive NodeErr :=
| ErrNodeAlreadyPresent
| ErrOldNodeNotFound
| ErrEqualPaxosIDAlreadyPresent
| ErrNodeIDOutOfBounds.
#[export] Instance NodeErr_eq_dec : EqDecision NodeErr.
Proof. solve_decision. Defined.

Section node_map.
Context {RO : RangeOrder}.

(** The loop [for id := range nodes { nm.epochs[id.PaxosID] = id.Epoch }]. *)
Definition fill_epochs (es : list Epoch) (ns : gmap ID Node) : res (list Epoch) :=
  foldM (λ es '(id, _), slice_set es (PxID id) (IDEpoch id)) es (range_order 1 ns).

Definition memoizeIDs (nm : NodeMap) : NodeMap :=
  nm <| idsMemoized := (range_order 2 (nodes nm)).*1 |>.

Definition memoizeActorIDs (nm : NodeMap) : NodeMap :=
  let '(pids, aids, lids) :=
    foldl (λ '(pids, aids, lids) '(id, n),
        (if Proposer n then pids ++ [id] else pids,
         if Acceptor n then aids ++ [id] else aids,
         if Learner n then lids ++ [id] else lids))
      ([], [], []) (range_order 3 (nodes nm)) in
  nm <| proposerIdsMemoized := pids |>
     <| acceptorIdsMemoized := aids |>
     <| learnerIdsMemoized := lids |>.

Definition memoize (nm : NodeMap) : NodeMap := memoizeActorIDs (memoizeIDs nm).

Definition NewNodeMapWithCount (ns : gmap ID Node) (nrN nrA : Z) : res NodeMap :=
  es ← fill_epochs (replicate (Z.to_nat nrN) 0) ns;
  mret (memoize (mkNodeMap ns es nrN nrA (u64 (nrA / 2 + 1)) [] [] [] [])).

(** The counting loop of [NewNodeMap]. *)
Definition count_nodes (ns : gmap ID Node) : Z * Z :=
  foldl (λ '(n, a) '(_, node),
      (u64 (n + 1), if Acceptor node then u64 (a + 1) else a))
    (0, 0) (range_order 0 ns).

Definition NewNodeMap (ns : gmap ID Node) : res NodeMap :=
  let '(nrN, nrAcc) := count_nodes ns in
  es ← fill_epochs (replicate (Z.to_nat nrN) 0) ns;
  mret (memoize (mkNodeMap ns es nrN nrAcc (u64 (nrAcc / 2 + 1)) [] [] [] [])).

Definition NewNodeMapFromSingleNode (id : ID) (node : Node) (nrN nrA : Z) : res NodeMap :=
  NewNodeMapWithCount {[ id := node ]} nrN nrA.

Definition CloneMap (nm : NodeMap) : gmap ID Node :=
  foldl (λ m '(id, node), <[id := node]> m) ∅ (range_order 0 (nodes nm)).

Definition IDs (nm : NodeMap) : list ID := idsMemoized nm.
Definition ProposerIDs (nm : NodeMap) : list ID := proposerIdsMemoized nm.
Definition AcceptorIDs (nm : NodeMap) : list ID := acceptorIdsMemoized nm.
Definition LearnerIDs (nm : NodeMap) : list ID := learnerIdsMemoized nm.
Definition NrOfNodes (nm : NodeMap) : Z := nrOfNodes nm.
Definition NrOfAcceptors (nm : NodeMap) : Z := nrOfAcceptors nm.
Definition Quorum (nm : NodeMap) : Z := quorum nm.

Definition LookupNode (nm : NodeMap) (id : ID) : Node * bool :=
  match nodes nm !! id with Some n => (n, true) | None => (zero_Node, false) end.

Definition LookupNodeWithPaxosID (nm : NodeMap) (pxID : PaxosID) : ID * Node * bool :=
  match list_find (λ '(id, _), PxID id = pxID) (range_order 0 (nodes nm)) with
  | Some (_, (id, node)) => (id, node, true)
  | None => (mkID 0 0, zero_Node, false)
  end.

Definition IsNew (nm : NodeMap) (id : ID) (n : Node) : bool :=
  let '(oldid, on, found) := LookupNodeWithPaxosID nm (PxID id) in
  if negb found then true
  else if bool_decide (CompareTo id oldid < 1) then false
  else negb (IsSame on n).

Definition Len (nm : NodeMap) : Z := u64 (Z.of_nat (size (nodes nm))).

Definition Add (nm : NodeMap) (id : ID) (node : Node) : res (option NodeErr * NodeMap) :=
  if bool_decide (PxID id < 0) || bool_decide (PxID id > i64 (u64 (nrOfNodes nm - 1))) then
    mret (Some ErrNodeIDOutOfBounds, nm)
  else if (LookupNode nm id).2 then mret (Some ErrNodeAlreadyPresent, nm)
  else if (LookupNodeWithPaxosID nm (PxID id)).2 then
    mret (Some ErrEqualPaxosIDAlreadyPresent, nm)
  else
    let nm := nm <| nodes ::= <[id := node]> |> in
    es ← slice_set (epochs nm) (PxID id) (IDEpoch id);
    mret (None, memoize (nm <| epochs := es |>)).

Definition Replace (nm : NodeMap) (newID : ID) (newNode : Node)
    : res (option NodeErr * NodeMap) :=
  let '(oldID, _, found) := LookupNodeWithPaxosID nm (PxID newID) in
  if negb found then mret (Some ErrOldNodeNotFound, nm)
  else
    let nm := nm <| nodes ::= delete oldID |> in
    let nm := nm <| nodes ::= <[newID := newNode]> |> in
    es ← slice_set (epochs nm) (PxID newID) (IDEpoch newID);
    mret (None, memoize (nm <| epochs := es |>)).

Definition Epochs (nm : NodeMap) : list Epoch := epochs nm.
Definition Nodes (nm : NodeMap) : list Node := (range_order 0 (nodes nm)).*2.

Definition GetNext (nm : NodeMap) (id : ID) : res ID :=
  let intid := u64 (PxID id) in
  let intid := u64 (intid + 1) in
  if decide (nrOfNodes nm = 0) then Panic
  else
    let intid := intid `mod` nrOfNodes nm in
    e ← slice_get (epochs nm) intid;
    mret (NewID (i8 intid) e).

End node_map.

Fixpoint epochs_eqb_from (a b : list Epoch) : bool :=
  match a, b with
  | x :: a, y :: b => if bool_decide (x ≠ y) then false else epochs_eqb_from a b
  | _, _ => true
  end.
Definition EpochSlicesEqual (a b : list Epoch) : bool :=
  if bool_decide (length a ≠ length b) then false else epochs_eqb_from a b.

(** * The group manager (grpmgr.go, grpmgr_imp.go) *)

(** What the actors read of the [GroupManager] interface. *)
Class GroupManager (G : Type) := {
  gm_NrOfNodes : G → Z;
  gm_NrOfAcceptors : G → Z;
  gm_Quorum : G → Z;
  gm_Epochs : G → list Epoch;
  gm_LrEnabled : G → bool;
  gm_ArEnabled : G → bool;
  gm_GetID : G → ID;
  gm_NodeMap : G → NodeMap;
}.

(** What a group manager promises to the actors: any two quorums of
    acceptors intersect, and a quorum can be formed. *)
Class GroupManagerLaws (G : Type) `{GroupManager G} (gm : G) := {
  gm_acceptors_nonneg : 0 ≤ gm_NrOfAcceptors gm;
  gm_nodes_small : 0 ≤ gm_NrOfNodes gm < 2 ^ 63;
  gm_quorum_majority : gm_NrOfAcceptors gm < 2 * gm_Quorum gm;
  gm_quorum_reachable : gm_NrOfAcceptors gm ≠ 0 → gm_Quorum gm ≤ gm_NrOfAcceptors gm;
  gm_epochs_length : length (gm_Epochs gm) = Z.to_nat (gm_NrOfNodes gm);
}.

(** The group manager's state; the hold channels belong to the goroutines
    that wait on them and are not part of it. *)
Record GrpMgr := mkGrpMgr {
  gid : ID;
  nodeMap : NodeMap;
  arEnabled : bool;
  lrEnabled : bool;
  subscribers : gset string;
}.
#[export] Instance eta_GrpMgr : Eta GrpMgr := λ r,
  mkGrpMgr (gid r) (nodeMap r) (arEnabled r) (lrEnabled r) (subscribers r).

Definition NewGrpMgr (id : ID) (nm : NodeMap) (lr ar : bool) : GrpMgr :=
  mkGrpMgr id nm ar lr ∅.
Definition SubscribeToHold (g : GrpMgr) (name : string) : GrpMgr :=
  g <| subscribers ::= ({[ name ]} ∪.) |>.
Definition SetNewNodeMap {RO : RangeOrder} (g : GrpMgr) (nm : gmap ID Node) : res GrpMgr :=
  nm' ← NewNodeMap nm; mret (g <| nodeMap := nm' |>).
Definition SetID (g : GrpMgr) (newID : ID) : bool * GrpMgr :=
  if bool_decide (PxID newID = PxID (gid g)) && bool_decide (IDEpoch newID > IDEpoch (gid g))
  then (true, g <| gid := newID |>) else (false, g).

#[export] Instance GrpMgr_GroupManager : GroupManager GrpMgr := {|
  gm_NrOfNodes g := NrOfNodes (nodeMap g);
  gm_NrOfAcceptors g := NrOfAcceptors (nodeMap g);
  gm_Quorum g := Quorum (nodeMap g);
  gm_Epochs g := Epochs (nodeMap g);
  gm_LrEnabled g := lrEnabled g;
  gm_ArEnabled g := arEnabled g;
  gm_GetID g := gid g;
  gm_NodeMap g := nodeMap g;
|}.

(** * Identifiers are totally ordered *)

Lemma CompareTo_cases a b :
  (CompareTo a b = 1 ∧ (PxID a > PxID b ∨ PxID a = PxID b ∧ IDEpoch a > IDEpoch b)) ∨
  (CompareTo a b = -1 ∧ (PxID a < PxID b ∨ PxID a = PxID b ∧ IDEpoch a < IDEpoch b)) ∨
  (CompareTo a b = 0 ∧ a = b).
Proof.
  unfold CompareTo. repeat case_bool_decide; try lia.
  right. right. split; [done|]. destruct a, b; simpl in *. f_equal; lia.
Qed.

Lemma CompareTo_eq a b : CompareTo a b = 0 ↔ a = b.
Proof. destruct (CompareTo_cases a b) as [[? ?]|[[? ?]|[? ?]]]; naive_solver lia. Qed.
Lemma CompareTo_refl a : CompareTo a a = 0.
Proof. by apply CompareTo_eq. Qed.
Lemma CompareTo_antisym a b : CompareTo b a = - CompareTo a b.
Proof.
  destruct (CompareTo_cases a b) as [[-> ?]|[[-> ?]|[-> ?]]],
    (CompareTo_cases b a) as [[-> ?]|[[-> ?]|[-> ?]]]; subst; try lia.
Qed.
Lemma CompareTo_range a b : -1 ≤ CompareTo a b ≤ 1.
Proof. destruct (CompareTo_cases a b) as [[-> ?]|[[-> ?]|[-> ?]]]; lia. Qed.
Lemma CompareTo_trans a b c : CompareTo a b < 0 → CompareTo b c < 0 → CompareTo a c < 0.
Proof.
  destruct (CompareTo_cases a b) as [[-> ?]|[[-> ?]|[-> ?]]],
    (CompareTo_cases b c) as [[-> ?]|[[-> ?]|[-> ?]]],
    (CompareTo_cases a c) as [[-> ?]|[[-> ?]|[-> ?]]]; subst; lia.
Qed.

(** * Well-formed node maps *)

(** The identifiers of the nodes that play a role. *)
Definition role_ids (role : Node → bool) (ns : gmap ID Node) : list ID :=
  (filter (λ kv : ID * Node, role kv.2 = true) (map_to_list ns)).*1.

(** What every construction establishes and every update preserves: Paxos
    identifiers are unique and index the epoch vector, the epoch vector holds
    each node's epoch, the memoised lists list what they name, and the quorum
    is a majority of the acceptors. *)
Record nodemap_wf (nm : NodeMap) : Prop := {
  wf_bound : 0 ≤ nrOfNodes nm ≤ 127;
  wf_px : ∀ id n, nodes nm !! id = Some n → 0 ≤ PxID id < nrOfNodes nm;
  wf_uniq : ∀ id1 id2 n1 n2, nodes nm !! id1 = Some n1 → nodes nm !! id2 = Some n2 →
    PxID id1 = PxID id2 → id1 = id2;
  wf_len : len (epochs nm) = nrOfNodes nm;
  wf_epoch : ∀ id n, nodes nm !! id = Some n →
    epochs nm !! Z.to_nat (PxID id) = Some (IDEpoch id);
  wf_ids : idsMemoized nm ≡ₚ (map_to_list (nodes nm)).*1;
  wf_pids : proposerIdsMemoized nm ≡ₚ role_ids Proposer (nodes nm);
  wf_aids : acceptorIdsMemoized nm ≡ₚ role_ids Acceptor (nodes nm);
  wf_lids : learnerIdsMemoized nm ≡ₚ role_ids Learner (nodes nm);
  wf_acc : 0 ≤ nrOfAcceptors nm < 2 ^ 64;
  wf_quorum : quorum nm = nrOfAcceptors nm / 2 + 1;
}.

(** The Paxos identifiers of a map from which a node map of [n] nodes can be
    built: unique and below [n]. *)
Definition px_ok (n : Z) (ns : gmap ID Node) : Prop :=
  (∀ id nd, ns !! id = Some nd → 0 ≤ PxID id < n) ∧
  (∀ id1 id2 n1 n2, ns !! id1 = Some n1 → ns !! id2 = Some n2 →
     PxID id1 = PxID id2 → id1 = id2).

Section node_map_laws.
Context {RO : RangeOrder} {RL : RangeOrderLaws RO}.

Lemma fill_epochs_Ok (es : list Epoch) ns :
  px_ok (len es) ns →
  ∃ es', fill_epochs es ns = Ok es' ∧ length es' = length es ∧
    ∀ id n, ns !! id = Some n → es' !! Z.to_nat (PxID id) = Some (IDEpoch id).
Proof.
  intros [Hpx Huniq]. unfold fill_epochs.
  assert (∀ id n, (id, n) ∈ range_order 1 ns → ns !! id = Some n) as Hin
    by (intros ??; by rewrite elem_of_range_order).
  assert (∀ id n, ns !! id = Some n → (id, n) ∈ range_order 1 ns) as Hin'
    by (intros ??; by rewrite elem_of_range_order).
  pose proof (NoDup_fst_range_order 1 ns) as Hnd.
  assert (∃ es', foldM (λ es '(id, _), slice_set es (PxID id) (IDEpoch id)) es (range_order 1 ns) = Ok es' ∧
    length es' = length es ∧
    ∀ id n, (id, n) ∈ range_order 1 ns → es' !! Z.to_nat (PxID id) = Some (IDEpoch id)) as (es' & ? & ? & ?);
    [|exists es'; naive_solver].
  clear Hin'. revert Hpx Hin Hnd. generalize (range_order 1 ns) as l. intros l Hpx Hin Hnd.
  induction l as [|[id n] l IH] using rev_ind; simpl.
  { exists es. split_and!; [done..|]. intros ?? []%elem_of_nil. }
  rewrite fmap_app in Hnd. apply NoDup_app in Hnd as (Hnd & Hdis & _).
  destruct IH as (es' & Hrun & Hlen & Hes'); [set_solver|done|].
  rewrite foldM_app, Hrun. simpl.
  assert (ns !! id = Some n) as Hid by (apply Hin; set_solver).
  specialize (Hpx _ _ Hid) as Hb. unfold slice_set. rewrite decide_True by (rewrite Hlen; lia).
  simpl. eexists. split; [done|]. rewrite length_insert. split; [done|].
  intros id' n' [Hl|Hl]%elem_of_app.
  - rewrite list_lookup_insert_ne; [by eapply Hes'|].
    assert (ns !! id' = Some n') as Hid' by (apply Hin; set_solver).
    specialize (Hpx _ _ Hid'). intros Heq.
    assert (id = id') as -> by (eapply Huniq; eauto; lia).
    apply (Hdis id'); [|simpl; set_solver]. apply list_elem_of_fmap. by exists (id', n').
  - apply list_elem_of_singleton in Hl as [= -> ->].
    apply list_lookup_insert_eq. lia.
Qed.

Definition roles_of (l : list (ID * Node)) (role : Node → bool) : list ID :=
  (filter (λ kv : ID * Node, role kv.2 = true) l).*1.

Lemma memoize_loop l :
  foldl (λ '(pids, aids, lids) '(id, n),
        (if Proposer n then pids ++ [id] else pids,
         if Acceptor n then aids ++ [id] else aids,
         if Learner n then lids ++ [id] else lids)) ([], [], []) l
  = (roles_of l Proposer, roles_of l Acceptor, roles_of l Learner).
Proof.
  assert (∀ (f : Node → bool) l id n, roles_of (l ++ [(id, n)]) f
    = if f n then roles_of l f ++ [id] else roles_of l f) as Hf.
  { intros f l' id n. unfold roles_of. rewrite filter_app, fmap_app, filter_cons, filter_nil.
    simpl. destruct (f n); simpl; [done|by rewrite app_nil_r]. }
  induction l as [|[id n] l IH] using rev_ind; [done|].
  rewrite foldl_app, IH. simpl. by rewrite !Hf.
Qed.

Lemma roles_of_perm f ns k : roles_of (range_order k ns) f ≡ₚ role_ids f ns.
Proof. unfold roles_of, role_ids. by rewrite range_order_perm. Qed.

Lemma memoize_wf ns es n a ids pids aids lids q :
  0 ≤ n ≤ 127 → 0 ≤ a < 2 ^ 64 → px_ok n ns → len es = n →
  (∀ id nd, ns !! id = Some nd → es !! Z.to_nat (PxID id) = Some (IDEpoch id)) →
  q = a / 2 + 1 →
  nodemap_wf (memoize (mkNodeMap ns es n a q ids pids aids lids)).
Proof.
  intros ?? [Hpx Huniq] ?? ->. unfold memoize, memoizeActorIDs, memoizeIDs.
  cbn [nodes update]. rewrite memoize_loop.
  split; cbn; try done.
  - by rewrite range_order_perm.
  - apply roles_of_perm.
  - apply roles_of_perm.
  - apply roles_of_perm.
Qed.

Lemma count_nodes_spec ns :
  Z.of_nat (size ns) < 2 ^ 64 →
  count_nodes ns = (Z.of_nat (size ns), len (role_ids Acceptor ns)).
Proof.
  intros Hs. unfold count_nodes.
  rewrite <- (roles_of_perm Acceptor ns 0), <- (length_range_order 0 ns).
  rewrite <- (length_range_order 0 ns) in Hs. revert Hs.
  generalize (range_order 0 ns) as l. intros l.
  induction l as [|[id n] l IH] using rev_ind; intros Hs; [done|].
  rewrite length_app in Hs. simpl in Hs.
  rewrite foldl_app, IH by lia. simpl. unfold roles_of.
  rewrite length_app, filter_app, filter_cons, filter_nil. simpl.
  assert (length (filter (λ kv : ID * Node, Acceptor kv.2 = true) l) ≤ length l)%nat
    by apply length_filter.
  rewrite fmap_app, length_app, length_fmap.
  destruct (Acceptor n); simpl; nowrap; f_equal; lia.
Qed.

Lemma px_ok_mono n n' ns : n ≤ n' → px_ok n ns → px_ok n' ns.
Proof.
  intros ? [H1 H2]. split; [|done].
  intros id nd Hid. specialize (H1 id nd Hid). lia.
Qed.

Lemma NewNodeMapWithCount_Ok ns n a :
  0 ≤ n ≤ 127 → 0 ≤ a < 2 ^ 64 → px_ok n ns →
  ∃ nm, NewNodeMapWithCount ns n a = Ok nm ∧ nodemap_wf nm ∧
    nodes nm = ns ∧ nrOfNodes nm = n ∧ nrOfAcceptors nm = a.
Proof.
  intros Hn Ha Hpx. unfold NewNodeMapWithCount.
  assert (len (replicate (Z.to_nat n) 0) = n) as Hl by (rewrite length_replicate; lia).
  destruct (fill_epochs_Ok (replicate (Z.to_nat n) 0) ns) as (es & -> & Hlen & Hes);
    [by rewrite Hl|].
  simpl. eexists. split; [done|]. split.
  - apply memoize_wf; try done; [congruence|]. rewrite u64_small; [done|].
    split; [apply Z.add_nonneg_nonneg; [apply Z.div_pos|]; lia|].
    assert (a / 2 < 2 ^ 63) by (apply Z.div_lt_upper_bound; lia). lia.
  - unfold memoize, memoizeActorIDs, memoizeIDs. cbn [nodes update].
    by rewrite memoize_loop.
Qed.

Lemma NewNodeMap_Ok ns :
  Z.of_nat (size ns) ≤ 127 → px_ok (Z.of_nat (size ns)) ns →
  ∃ nm, NewNodeMap ns = Ok nm ∧ nodemap_wf nm ∧ nodes nm = ns ∧
    nrOfNodes nm = Z.of_nat (size ns) ∧ nrOfAcceptors nm = len (role_ids Acceptor ns).
Proof.
  intros Hs Hpx. unfold NewNodeMap. rewrite count_nodes_spec by lia.
  apply NewNodeMapWithCount_Ok; [lia| |done].
  unfold role_ids. rewrite length_fmap, <- length_map_to_list in *.
  pose proof (length_filter (λ kv : ID * Node, Acceptor kv.2 = true) (map_to_list ns)). lia.
Qed.

(** C40: Building a node map from nodes whose Paxos identifiers are 0, 1, ... is
    total and establishes the invariant with the counts of the nodes; any two
    quorums of its acceptors intersect. *)
Theorem NewNodeMap_wf (ns : gmap ID Node) :
  Z.of_nat (size ns) ≤ 127 → px_ok (Z.of_nat (size ns)) ns →
  ∃ nm, NewNodeMap ns = Ok nm ∧ nodemap_wf nm ∧ nodes nm = ns ∧
    nrOfNodes nm = Z.of_nat (size ns) ∧
    nrOfAcceptors nm = len (AcceptorIDs nm) ∧
    (∀ id n, LookupNode nm id = (n, true) ↔ ns !! id = Some n) ∧
    ∀ Q1 Q2, NoDup Q1 → NoDup Q2 → Q1 ⊆ AcceptorIDs nm → Q2 ⊆ AcceptorIDs nm →
      Quorum nm ≤ len Q1 → Quorum nm ≤ len Q2 → ∃ a, a ∈ Q1 ∧ a ∈ Q2.
Proof.
  intros Hs Hpx. destruct (NewNodeMap_Ok ns Hs Hpx) as (nm & Hrun & Hwf & Hn & Hc & Ha).
  assert (nrOfAcceptors nm = len (AcceptorIDs nm)) as Hids.
  { rewrite Ha. unfold AcceptorIDs. by rewrite (wf_aids _ Hwf), Hn. }
  exists nm. split; [exact Hrun|]. split_and!; try done.
  - intros id n. unfold LookupNode. rewrite Hn. destruct (ns !! id); naive_solver.
  - intros Q1 Q2 N1 N2 S1 S2 L1 L2. apply (quorum_overlap (AcceptorIDs nm)); [done..|].
    unfold Quorum in *. rewrite (wf_quorum _ Hwf) in *.
    pose proof (Z.div_mod (nrOfAcceptors nm) 2).
    pose proof (Z.mod_pos_bound (nrOfAcceptors nm) 2). lia.
Qed.

Lemma LookupNodeWithPaxosID_found nm px id n :
  LookupNodeWithPaxosID nm px = (id, n, true) → nodes nm !! id = Some n ∧ PxID id = px.
Proof.
  unfold LookupNodeWithPaxosID. destruct list_find as [[i [id' n']]|] eqn:E; [|done].
  intros [= -> ->]. apply list_find_Some in E as (E & ? & _).
  apply list_elem_of_lookup_2 in E. by rewrite elem_of_range_order in E.
Qed.

Lemma LookupNodeWithPaxosID_none nm px :
  (LookupNodeWithPaxosID nm px).2 = false → ∀ id n, nodes nm !! id = Some n → PxID id ≠ px.
Proof.
  unfold LookupNodeWithPaxosID. destruct list_find as [[i [id' n']]|] eqn:E; [done|].
  intros _ id n Hid. apply list_find_None in E. rewrite Forall_forall in E.
  apply (E (id, n)). by rewrite elem_of_range_order.
Qed.

Lemma set_node_wf nm ns id node es :
  nodemap_wf nm → 0 ≤ PxID id < nrOfNodes nm →
  (∀ id' n', ns !! id' = Some n' → nodes nm !! id' = Some n' ∧ PxID id' ≠ PxID id) →
  slice_set (epochs nm) (PxID id) (IDEpoch id) = Ok es →
  nodemap_wf (memoize (nm <| nodes := <[id := node]> ns |> <| epochs := es |>)).
Proof.
  intros Hwf Hpx Hns Hset. apply memoize_wf; cbn.
  - apply Hwf.
  - apply Hwf.
  - split.
    + intros id' n'. rewrite lookup_insert_Some. intros [[<- _]|[_ H]]; [done|].
      destruct (Hns _ _ H) as [H' _]. by eapply wf_px.
    + intros id1 id2 n1 n2. rewrite !lookup_insert_Some.
      intros [[<- _]|[_ H1]] [[<- _]|[_ H2]] Heq; try done.
      * by destruct (Hns _ _ H2) as [_ []].
      * by destruct (Hns _ _ H1) as [_ []].
      * destruct (Hns _ _ H1), (Hns _ _ H2). by eapply wf_uniq.
  - rewrite (slice_set_length _ _ _ _ Hset). apply Hwf.
  - intros id' n'. rewrite lookup_insert_Some. intros [[<- _]|[_ H]].
    + by eapply slice_set_lookup_eq.
    + destruct (Hns _ _ H) as [H' Hne]. apply slice_set_Ok in Hset as [_ ->].
      rewrite list_lookup_insert_ne; [by eapply wf_epoch|].
      pose proof (wf_px _ Hwf _ _ H'). lia.
  - apply Hwf.
Qed.

(** [Add] never panics on a well-formed map and preserves the invariant; it
    adds the node exactly when the Paxos identifier is in bounds and free, and
    otherwise reports the first of its three errors that applies, leaving the
    map unchanged. *)
Theorem Add_spec (nm : NodeMap) (id : ID) (node : Node) :
  nodemap_wf nm →
  ∃ e nm', Add nm id node = Ok (e, nm') ∧ nodemap_wf nm' ∧
    match e with
    | None => 0 ≤ PxID id < nrOfNodes nm ∧ nodes nm' = <[id := node]> (nodes nm) ∧
        (∀ id' n, nodes nm !! id' = Some n → PxID id' ≠ PxID id)
    | Some ErrNodeIDOutOfBounds => nm' = nm ∧ (PxID id < 0 ∨ nrOfNodes nm ≤ PxID id)
    | Some ErrNodeAlreadyPresent => nm' = nm ∧ is_Some (nodes nm !! id)
    | Some ErrEqualPaxosIDAlreadyPresent => nm' = nm ∧
        ∃ id' n, id' ≠ id ∧ nodes nm !! id' = Some n ∧ PxID id' = PxID id
    | Some ErrOldNodeNotFound => False
    end.
Proof.
  intros Hwf. pose proof (wf_bound _ Hwf) as Hb. unfold Add.
  assert (i64 (u64 (nrOfNodes nm - 1)) = nrOfNodes nm - 1) as ->.
  { unfold i64, u64. destruct (decide (nrOfNodes nm = 0)) as [->|]; [done|].
    rewrite (Z.mod_small (_ - 1)), Z.mod_small; lia. }
  destruct (bool_decide _ || bool_decide _) eqn:E1.
  { exists (Some ErrNodeIDOutOfBounds), nm. split_and!; try done.
    apply orb_true_iff in E1. rewrite !bool_decide_eq_true in E1. lia. }
  apply orb_false_iff in E1. rewrite !bool_decide_eq_false in E1.
  unfold LookupNode. destruct (nodes nm !! id) as [n|] eqn:E2; simpl.
  { exists (Some ErrNodeAlreadyPresent), nm. by split_and!. }
  destruct (LookupNodeWithPaxosID nm (PxID id)) as [[id' n'] []] eqn:E3; simpl.
  { exists (Some ErrEqualPaxosIDAlreadyPresent), nm. split_and!; try done.
    apply LookupNodeWithPaxosID_found in E3 as [??]. exists id', n'. naive_solver. }
  destruct (slice_set_total (epochs nm) (PxID id) (IDEpoch id)) as [es Hes];
    [rewrite (wf_len _ Hwf); lia|].
  rewrite Hes. simpl. exists None. eexists. split; [done|].
  assert (∀ id' n, nodes nm !! id' = Some n → PxID id' ≠ PxID id) as Hfree
    by (apply LookupNodeWithPaxosID_none; by rewrite E3).
  split.
  - apply set_node_wf; eauto; lia.
  - split_and!; [lia..| |done]. unfold memoize, memoizeActorIDs. cbn. by rewrite memoize_loop.
Qed.

(** [Replace] preserves the invariant: it fails exactly when no node has the
    Paxos identifier, and otherwise the new node takes the place of the unique
    node that had it, with its epoch. *)
Theorem Replace_spec (nm : NodeMap) (newID : ID) (newNode : Node) :
  nodemap_wf nm →
  ∃ e nm', Replace nm newID newNode = Ok (e, nm') ∧ nodemap_wf nm' ∧
    match e with
    | None => ∃ oldID oldNode, nodes nm !! oldID = Some oldNode ∧ PxID oldID = PxID newID ∧
        nodes nm' = <[newID := newNode]> (delete oldID (nodes nm)) ∧
        Epochs nm' = <[Z.to_nat (PxID newID) := IDEpoch newID]> (Epochs nm)
    | Some ErrOldNodeNotFound => nm' = nm ∧
        ∀ id' n, nodes nm !! id' = Some n → PxID id' ≠ PxID newID
    | Some _ => False
    end.
Proof.
  intros Hwf. unfold Replace.
  destruct (LookupNodeWithPaxosID nm (PxID newID)) as [[old n] []] eqn:E; simpl.
  - apply LookupNodeWithPaxosID_found in E as [Hold Hpx].
    pose proof (wf_px _ Hwf _ _ Hold) as Hb.
    destruct (slice_set_total (epochs nm) (PxID newID) (IDEpoch newID)) as [es Hes];
      [rewrite (wf_len _ Hwf); lia|].
    rewrite Hes. simpl. exists None. eexists. split; [done|]. split.
    + apply (set_node_wf nm (delete old (nodes nm)) newID newNode es); [done|lia| |done].
      intros id' n'. rewrite lookup_delete_Some. intros [Hne H]. split; [done|].
      intros Heq. destruct Hne. eapply wf_uniq; eauto; congruence.
    + exists old, n. unfold memoize, memoizeActorIDs. cbn. rewrite memoize_loop. cbn.
      apply slice_set_Ok in Hes as [_ ->]. done.
  - exists (Some ErrOldNodeNotFound), nm. split_and!; try done.
    apply LookupNodeWithPaxosID_none. by rewrite E.
Qed.

(** [GetNext] walks the ring of Paxos identifiers: from the node at position
    [p] of a well-formed map it returns the node at [p + 1] modulo the number
    of nodes, with that node's epoch. *)
Theorem GetNext_spec (nm : NodeMap) (id : ID) (n : Node) :
  nodemap_wf nm → nodes nm !! id = Some n →
  ∃ id', GetNext nm id = Ok id' ∧ PxID id' = (PxID id + 1) `mod` nrOfNodes nm ∧
    (∀ id'' n'', nodes nm !! id'' = Some n'' → PxID id'' = PxID id' → id'' = id').
Proof.
  intros Hwf Hid. pose proof (wf_bound _ Hwf) as Hb. pose proof (wf_px _ Hwf _ _ Hid) as Hpx.
  unfold GetNext. rewrite decide_False by lia.
  nowrap. pose proof (Z.mod_pos_bound (PxID id + 1) (nrOfNodes nm)) as Hm.
  destruct (slice_get_total (epochs nm) ((PxID id + 1) `mod` nrOfNodes nm)) as [e He];
    [rewrite (wf_len _ Hwf); lia|].
  rewrite He. simpl. eexists. split; [done|]. cbn [PxID NewID]. nowrap. split; [done|].
  intros id2 n2 H2 Heq. apply slice_get_Ok in He as [_ He].
  pose proof (wf_epoch _ Hwf _ _ H2) as He2. rewrite Heq, He in He2.
  destruct id2; simpl in *. unfold NewID. congruence.
Qed.

End node_map_laws.

Lemma EpochSlicesEqual_spec a b : EpochSlicesEqual a b = true ↔ a = b.
Proof.
  unfold EpochSlicesEqual. case_bool_decide as Hl; [split; [done|by intros ->]|].
  revert b Hl.
  induction a as [|x a IH]; intros [|y b] [=]; simpl; [done|].
  case_bool_decide as Hx; [naive_solver|]. subst y.
  rewrite IH by done. naive_solver.
Qed.

(** The group manager over a well-formed node map discharges the interface's
    laws. *)
#[export] Instance GrpMgr_laws (g : GrpMgr) :
  nodemap_wf (nodeMap g) → GroupManagerLaws GrpMgr g.
Proof.
  intros Hwf. pose proof (wf_acc _ Hwf). pose proof (wf_quorum _ Hwf) as Hq.
  pose proof (Z.div_mod (nrOfAcceptors (nodeMap g)) 2).
  pose proof (Z.mod_pos_bound (nrOfAcceptors (nodeMap g)) 2).
  split; cbn; unfold NrOfAcceptors, Quorum, NrOfNodes, Epochs; rewrite ?Hq; try lia.
  - pose proof (wf_bound _ Hwf). lia.
  - pose proof (wf_len _ Hwf). lia.
Qed.

(** [SetID] only moves a replica to a later epoch of its own Paxos
    identifier. *)
Lemma SetID_spec g newID :
  let '(ok, g') := SetID g newID in
  (ok = true ↔ PxID newID = PxID (gid g) ∧ IDEpoch (gid g) < IDEpoch newID) ∧
  gid g' = (if ok then newID else gid g) ∧ nodeMap g' = nodeMap g.
Proof.
  unfold SetID. destruct (bool_decide _ && bool_decide _) eqn:E; cbn.
  - apply andb_true_iff in E. rewrite !bool_decide_eq_true in E. naive_solver lia.
  - apply andb_false_iff in E. rewrite !bool_decide_eq_false in E. naive_solver lia.
Qed.

(** * A group of three replicas, for the witnesses *)

Definition ex_id (i : Z) : ID := mkID i 0.
Definition ex_node : Node := NewNode "10.0.0.1" "8080" "8081" true true true.
Definition ex_nodes : gmap ID Node :=
  {[ ex_id 0 := ex_node; ex_id 1 := ex_node; ex_id 2 := ex_node ]}.
Definition ex_nodemap : NodeMap :=
  match NewNodeMap ex_nodes with
  | Ok nm => nm
  | _ => mkNodeMap ∅ [] 0 0 0 [] [] [] []
  end.
Definition ex_gm (i : Z) : GrpMgr := NewGrpMgr (ex_id i) ex_nodemap false false.

Lemma ex_nodes_px : px_ok 3 ex_nodes.
Proof.
  assert (∀ id nd, ex_nodes !! id = Some nd → id = ex_id 0 ∨ id = ex_id 1 ∨ id = ex_id 2) as Hid.
  { intros id nd. unfold ex_nodes. rewrite !lookup_insert_Some, lookup_singleton_Some. naive_solver. }
  split.
  - intros id nd [->|[->| ->]]%Hid; cbn; lia.
  - intros id1 id2 n1 n2 [->|[->| ->]]%Hid [->|[->| ->]]%Hid Heq; done.
Qed.

Lemma ex_nodemap_wf : nodemap_wf ex_nodemap.
Proof.
  destruct (NewNodeMap_Ok ex_nodes) as (nm & Hrun & Hwf & _).
  { by vm_compute. }
  { apply ex_nodes_px. }
  unfold ex_nodemap. by rewrite Hrun.
Qed.

Lemma NewNodeMap_wf_witness :
  ∃ nm, NewNodeMap ex_nodes = Ok nm ∧ nodemap_wf nm ∧ nrOfNodes nm = 3 ∧ Quorum nm = 2.
Proof.
  destruct (NewNodeMap_wf ex_nodes) as (nm & Hrun & Hwf & _ & Hn & _).
  - by vm_compute.
  - apply ex_nodes_px.
  - exists nm. split; [exact Hrun|]. split; [exact Hwf|]. split; [exact Hn|].
    vm_compute in Hrun. injection Hrun as <-. reflexivity.
Defined.

(** The two kinds of answers of [Add]: no room, and an identifier in use. *)
Lemma Add_spec_witness :
  Add ex_nodemap (ex_id 3) ex_node = Ok (Some ErrNodeIDOutOfBounds, ex_nodemap) ∧
  ∃ e nm', Add ex_nodemap (mkID 1 1) ex_node = Ok (e, nm') ∧ nodemap_wf nm' ∧
    e = Some ErrEqualPaxosIDAlreadyPresent.
Proof.
  split; [vm_compute; reflexivity|].
  destruct (Add_spec ex_nodemap (mkID 1 1) ex_node ex_nodemap_wf) as (e & nm' & Hrun & Hwf & _).
  exists e, nm'. split; [exact Hrun|]. split; [exact Hwf|].
  vm_compute in Hrun. by injection Hrun as <- _.
Defined.

Lemma Replace_spec_witness :
  ∃ nm', Replace ex_nodemap (mkID 1 1) ex_node = Ok (None, nm') ∧ nodemap_wf nm' ∧
    Epochs nm' = [0; 1; 0].
Proof.
  destruct (Replace_spec ex_nodemap (mkID 1 1) ex_node ex_nodemap_wf) as (e & nm' & Hrun & Hwf & _).
  exists nm'. assert (e = None ∧ Epochs nm' = [0; 1; 0]) as [-> He].
  { vm_compute in Hrun. injection Hrun as <- <-. split; reflexivity. }
  by split_and!.
Defined.

Lemma GetNext_spec_witness :
  ∃ id', GetNext ex_nodemap (ex_id 2) = Ok id' ∧ PxID id' = 0.
Proof.
  destruct (GetNext_spec ex_nodemap (ex_id 2) ex_node ex_nodemap_wf) as (id' & Hrun & Hpx & _).
  - vm_compute. reflexivity.
  - exists id'. split; [exact Hrun|]. rewrite Hpx. vm_compute. reflexivity.
Defined.
