(* ===== verification/GrpHold.v ===== *)
(** The hold of the group manager (src/grp/grpmgr_imp.go, sub.go): before the
    group is changed, every module that subscribed is asked to stop until the
    change is done.

    The channels are those of the source: a subscriber has a prepare channel
    for one message, and a copy of the release channel that was the manager's
    when it subscribed. Release channels are numbered in the order in which
    they are made; the manager closes one to release and makes the next. *)
From S2P Require Import Prelude Grp.

Record HoldSub := mkHoldSub { hs_prepare : option nat; hs_release : nat; hs_held : bool }.
#[export] Instance eta_HoldSub : Eta HoldSub := λ r, mkHoldSub (hs_prepare r) (hs_release r) (hs_held r).

(** Where [handleHoldReq] is. *)
Inductive HoldPhase := HIdle | HSending (names : list string) | HWaiting | HAccess | HRelease.
#[export] Instance HoldPhase_eq_dec : EqDecision HoldPhase.
Proof. solve_decision. Defined.

(** [h_groups] are the counters of the wait groups, one per request. *)
Record Hold := mkHold {
  h_subs : gmap string HoldSub; h_phase : HoldPhase; h_count : nat; h_groups : gmap nat Z; h_release : nat; h_closed : gset nat }.
#[export] Instance eta_Hold : Eta Hold := λ r,
  mkHold (h_subs r) (h_phase r) (h_count r) (h_groups r) (h_release r) (h_closed r).
Definition NewHold : Hold := mkHold ∅ HIdle 0 ∅ 0 ∅.

Inductive HoldEvent :=
| HSubscribe (name : string)     (* SubscribeToHold *)
| HRequest                       (* a request is taken from execHoldReqChan *)
| HSend                          (* the next prepare is sent *)
| HReady                         (* every subscriber has signalled *)
| HTimeout                       (* groupReadyTimeout has passed *)
| HGrant                         (* the requester's first release message *)
| HFinish                        (* its second one, or it closed the channel *)
| HTake (name : string)          (* handleGrpHold of a module, up to <-ReleaseChan() *)
| HResume (name : string).       (* its receive from the release channel returns *)
#[export] Instance HoldEvent_eq_dec : EqDecision HoldEvent.
Proof. solve_decision. Defined.

Section hold.
Context {RO : RangeOrder}.
Implicit Types s : Hold.

(** A step of the manager or of a subscriber; [None] when it has to wait. *)
Definition hold_step s (ev : HoldEvent) : option Hold :=
  match ev with
  | HSubscribe name => Some (s <| h_subs ::= <[name := mkHoldSub None (h_release s) false]> |>)
  | HRequest =>
      match h_phase s with
      | HIdle =>
          let nrOfSubs := Z.of_nat (size (h_subs s)) in
          Some (s <| h_count ::= S |> <| h_groups ::= <[S (h_count s) := nrOfSubs]> |>
                  <| h_phase := HSending (range_order 0 (h_subs s)).*1 |>)
      | _ => None
      end
  | HSend =>
      match h_phase s with
      | HSending (name :: names) =>
          sub ← h_subs s !! name;
          match hs_prepare sub with
          | None => Some (s <| h_subs ::= <[name := sub <| hs_prepare := Some (h_count s) |>]> |> <| h_phase := HSending names |>)
          | Some _ => None
          end
      | HSending [] => Some (s <| h_phase := HWaiting |>)
      | _ => None
      end
  | HReady => if bool_decide (h_phase s = HWaiting) && bool_decide (h_groups s !! h_count s = Some 0) then Some (s <| h_phase := HAccess |>) else None
  | HTimeout => if bool_decide (h_phase s = HWaiting) then Some (s <| h_phase := HAccess |>) else None
  | HGrant => if bool_decide (h_phase s = HAccess) then Some (s <| h_phase := HRelease |>) else None
  | HFinish =>
      if bool_decide (h_phase s = HRelease)
      then Some (s <| h_closed ::= λ c, {[ h_release s ]} ∪ c |> <| h_release ::= S |> <| h_phase := HIdle |>) else None
  | HTake name =>
      sub ← h_subs s !! name;
      match hs_prepare sub with
      | Some k =>
          if hs_held sub then None
          else Some (s <| h_subs ::= <[name := sub <| hs_prepare := None |> <| hs_held := true |>]> |>
                       <| h_groups ::= alter (λ n, n - 1) k |>)
      | None => None
      end
  | HResume name =>
      sub ← h_subs s !! name;
      if hs_held sub && bool_decide (hs_release sub ∈ h_closed s)
      then Some (s <| h_subs ::= <[name := sub <| hs_held := false |>]> |>) else None
  end.

Fixpoint hold_run s (evs : list HoldEvent) : option Hold :=
  match evs with
  | [] => Some s
  | ev :: evs => s' ← hold_step s ev; hold_run s' evs
  end.

Lemma hold_run_app s e1 e2 : hold_run s (e1 ++ e2) = s' ← hold_run s e1; hold_run s' e2.
Proof. revert s. induction e1 as [|ev e1 IH]; intros s; [done|]. cbn. destruct (hold_step s ev); cbn; [apply IH|done]. Qed.

(** The closed channels are those before the current one, and no subscriber has
    a later one. *)
Definition hold_inv s : Prop := ∀ k, k ∈ h_closed s ↔ (k < h_release s)%nat.

Lemma hold_step_inv s ev s' : hold_inv s → hold_step s ev = Some s' →
  hold_inv s' ∧ h_release s' = match ev with HFinish => S (h_release s) | _ => h_release s end.
Proof.
  intros Hi Hs. destruct ev; cbn [hold_step] in Hs.
  - by injection Hs as <-.
  - destruct (h_phase s); try done. by injection Hs as <-.
  - destruct (h_phase s) as [|[|name names]| | |]; try done; [by injection Hs as <-|].
    destruct (h_subs s !! name) as [sub|]; cbn in Hs; [|done]. destruct (hs_prepare sub); [done|]. by injection Hs as <-.
  - destruct (_ && _); [|done]. by injection Hs as <-.
  - destruct (bool_decide _); [|done]. by injection Hs as <-.
  - destruct (bool_decide _); [|done]. by injection Hs as <-.
  - destruct (bool_decide _); [|done]. injection Hs as <-. split; [|done]. intros k. cbn. rewrite elem_of_union, elem_of_singleton, (Hi k). lia.
  - destruct (h_subs s !! name) as [sub|]; cbn in Hs; [|done]. destruct (hs_prepare sub); [|done]. destruct (hs_held sub); [done|]. by injection Hs as <-.
  - destruct (h_subs s !! name) as [sub|]; cbn in Hs; [|done]. destruct (_ && _); [|done]. by injection Hs as <-.
Qed.

Lemma hold_step_release s ev s' name sub : hold_step s ev = Some s' → ev ≠ HSubscribe name →
  h_subs s !! name = Some sub → ∃ sub', h_subs s' !! name = Some sub' ∧ hs_release sub' = hs_release sub.
Proof.
  intros Hs Hne Hsub.
  assert (∀ n sub0 sub1, h_subs s !! n = Some sub0 → hs_release sub1 = hs_release sub0 →
    ∃ sub', <[n := sub1]> (h_subs s) !! name = Some sub' ∧ hs_release sub' = hs_release sub) as Hins.
  { intros n sub0 sub1 H0 E. destruct (decide (n = name)) as [->|].
    - rewrite lookup_insert_eq. exists sub1. split; [done|]. congruence.
    - rewrite lookup_insert_ne by done. by exists sub. }
  destruct ev; cbn [hold_step] in Hs.
  - injection Hs as <-. cbn. rewrite lookup_insert_ne by congruence. by exists sub.
  - destruct (h_phase s); try done. injection Hs as <-. by exists sub.
  - destruct (h_phase s) as [|[|n names]| | |]; try done; [injection Hs as <-; by exists sub|].
    destruct (h_subs s !! n) as [sub0|] eqn:E; cbn in Hs; [|done]. destruct (hs_prepare sub0); [done|]. injection Hs as <-. cbn. by eapply Hins.
  - destruct (_ && _); [|done]. injection Hs as <-. by exists sub.
  - destruct (bool_decide _); [|done]. injection Hs as <-. by exists sub.
  - destruct (bool_decide _); [|done]. injection Hs as <-. by exists sub.
  - destruct (bool_decide _); [|done]. injection Hs as <-. by exists sub.
  - destruct (h_subs s !! name0) as [sub0|] eqn:E; cbn in Hs; [|done]. destruct (hs_prepare sub0); [|done]. destruct (hs_held sub0); [done|].
    injection Hs as <-. cbn. by eapply Hins.
  - destruct (h_subs s !! name0) as [sub0|] eqn:E; cbn in Hs; [|done]. destruct (_ && _); [|done]. injection Hs as <-. cbn. by eapply Hins.
Qed.

Lemma hold_run_inv evs : ∀ s s', hold_inv s → hold_run s evs = Some s' →
  hold_inv s' ∧ (h_release s ≤ h_release s')%nat ∧ (HFinish ∈ evs ↔ (h_release s < h_release s')%nat) ∧
  ∀ name sub, HSubscribe name ∉ evs → h_subs s !! name = Some sub → ∃ sub', h_subs s' !! name = Some sub' ∧ hs_release sub' = hs_release sub.
Proof.
  induction evs as [|ev evs IH]; intros s s' Hi Hr; cbn in Hr.
  { injection Hr as <-. split_and!; [done|lia| |by eauto]. rewrite elem_of_nil. lia. }
  destruct (hold_step s ev) as [s1|] eqn:E; cbn in Hr; [|done]. pose proof (hold_step_inv _ _ _ Hi E) as [Hi1 Hrel].
  destruct (IH s1 s' Hi1 Hr) as (Hi' & Hle & Hfin & Hsub). split_and!; [done|destruct ev; lia| |].
  - rewrite elem_of_cons, Hfin. destruct ev; rewrite Hrel in *; split; try lia; try (intros [?|?]; [done|lia]); intros; try (by right); by left.
  - intros name sub [Hne Hni]%not_elem_of_cons Hs. destruct (hold_step_release s ev s1 name sub) as (sub1 & Hs1 & E1); [done|congruence|done|].
    destruct (Hsub name sub1 Hni Hs1) as (sub2 & Hs2 & E2). exists sub2. split; [done|congruence].
Qed.
End hold.

(** A module that subscribed is stopped by a hold until it is released, but
    only by the first one: as soon as one release happened since it subscribed,
    the release channel it has is closed for good, and it goes on immediately
    whenever it is asked to hold. *)
Theorem hold_works_once (RO : RangeOrder) (evs1 evs2 : list HoldEvent) (name : string) (s1 s2 : Hold) (sub : HoldSub) :
  hold_run NewHold (evs1 ++ [HSubscribe name]) = Some s1 → hold_run s1 evs2 = Some s2 → HSubscribe name ∉ evs2 →
  h_subs s2 !! name = Some sub → hs_held sub = true →
  (is_Some (hold_step s2 (HResume name)) ↔ HFinish ∈ evs2).
Proof.
  intros H1 H2 Hns Hsub Hheld. rewrite hold_run_app in H1. destruct (hold_run NewHold evs1) as [s0|] eqn:E0; cbn in H1; [|done]. injection H1 as <-.
  assert (hold_inv NewHold) as HiN by (intros k; cbn; set_solver by lia).
  destruct (hold_run_inv evs1 NewHold s0 HiN E0) as (Hi0 & _).
  apply hold_run_inv in H2 as (Hi2 & _ & Hfin & Hrel); [|exact Hi0].
  destruct (Hrel name (mkHoldSub None (h_release s0) false) Hns) as (sub' & Hsub' & Er); [apply lookup_insert_eq|].
  rewrite Hsub in Hsub'. injection Hsub' as <-. cbn in Er, Hfin. rewrite Hfin, <- Er, <- (Hi2 (hs_release sub)).
  cbn [hold_step]. rewrite Hsub. cbn. rewrite Hheld. cbn [andb]. case_bool_decide; [naive_solver|]. split; [by intros []|done].
Qed.

(** One whole hold, and the beginning of a second one. *)
Definition ex_hold1 : list HoldEvent := [HRequest; HSend; HSend; HTake "proposer"; HReady; HGrant].
Definition ex_hold2 : list HoldEvent := ex_hold1 ++ [HFinish; HResume "proposer"; HRequest; HSend; HSend; HTake "proposer"].

Lemma hold_works_once_witness :
  (∃ s1 s2, hold_run NewHold [HSubscribe "proposer"] = Some s1 ∧ hold_run s1 ex_hold1 = Some s2 ∧ ¬ is_Some (hold_step s2 (HResume "proposer"))) ∧
  ∃ s1 s2, hold_run NewHold [HSubscribe "proposer"] = Some s1 ∧ hold_run s1 ex_hold2 = Some s2 ∧ is_Some (hold_step s2 (HResume "proposer")).
Proof.
  split.
  - destruct (hold_run NewHold [HSubscribe "proposer"]) as [s1|] eqn:E1; [|discriminate].
    destruct (hold_run s1 ex_hold1) as [s2|] eqn:E2; [|exfalso; revert E2; injection E1 as <-; vm_compute; discriminate].
    exists s1, s2. split; [reflexivity|]. split; [exact E2|].
    destruct (h_subs s2 !! "proposer") as [sub|] eqn:Es; [|exfalso; revert E2 Es; injection E1 as <-; vm_compute; intros [= <-]; discriminate].
    assert (hs_held sub = true) as Hh by (revert E2 Es; injection E1 as <-; vm_compute; intros [= <-]; by intros [= <-]).
    intros Hres. apply (hold_works_once map_order [] ex_hold1 "proposer" s1 s2 sub E1 E2) in Hres; [|by apply (bool_decide_unpack _); vm_compute|exact Es|exact Hh].
    revert Hres. by apply (bool_decide_unpack _); vm_compute.
  - destruct (hold_run NewHold [HSubscribe "proposer"]) as [s1|] eqn:E1; [|discriminate].
    destruct (hold_run s1 ex_hold2) as [s2|] eqn:E2; [|exfalso; revert E2; injection E1 as <-; vm_compute; discriminate].
    exists s1, s2. split; [reflexivity|]. split; [exact E2|].
    destruct (h_subs s2 !! "proposer") as [sub|] eqn:Es; [|exfalso; revert E2 Es; injection E1 as <-; vm_compute; intros [= <-]; discriminate].
    assert (hs_held sub = true) as Hh by (revert E2 Es; injection E1 as <-; vm_compute; intros [= <-]; by intros [= <-]).
    apply (hold_works_once map_order [] ex_hold2 "proposer" s1 s2 sub E1 E2); [|exact Es|exact Hh|]; apply (bool_decide_unpack _); vm_compute; exact I.
Defined.
