(* ===== verification/EpochGen.v ===== *)
(** The epoch generators of a replacement: lr/epochgen.go and
    ringreplacer/epochgen.go, which are the same code, and arec/epochgen.go.
    A replica that replaces others draws their epochs from its own generator,
    so that no two replicas ever choose the same one. *)
From S2P Require Import Prelude Grp.

(** * The generators *)

(** Every operation is one of uint64. *)
Definition cantorPairing (k1 k2 : Z) : Z :=
  u64 (u64 (u64 (k1 + k2) * u64 (u64 (k1 + k2) + 1)) / 2 + k2).

(** What the closure returned by [epochGenerator] captures. *)
Record EpochGen := mkEG { eg_base : Z; eg_n : Z }.
#[export] Instance eta_EpochGen : Eta EpochGen := λ r, mkEG (eg_base r) (eg_n r).

Definition epochGenerator (id : ID) : EpochGen := mkEG (cantorPairing (u64 (PxID id)) (IDEpoch id)) 0.

(** One round of the loop: a number that is not above the old epoch is dropped. *)
Definition eg_round (oldEpoch : Epoch) (g : EpochGen) : EpochGen + (Epoch * EpochGen) :=
  let replacerEpoch := cantorPairing (eg_base g) (eg_n g) in
  let g := g <| eg_n ::= λ n, u64 (n + 1) |> in
  if bool_decide (replacerEpoch <= oldEpoch) then inl g else inr (replacerEpoch, g).

(** The loop starts from zero, which is not above any epoch. After 2^64 rounds
    the counter is where it was, so more rounds than that change nothing. *)
Definition newEpoch (g : EpochGen) (oldEpoch : Epoch) : res (Epoch * EpochGen) :=
  match loop_pos (eg_round oldEpoch) (2 ^ 64)%positive g with
  | inr r => Ok r
  | inl _ => Diverge
  end.

(** arec/epochgen.go. *)
Definition getNewEpoch (id : ID) : Epoch := u64 (u64 (PxID id) + u64 (u64 (IDEpoch id / 10 + 1) * 10)).

(** * Without wrap-around *)

(** Cantor's enumeration of the pairs. *)
Definition tri (n : Z) : Z := n * (n + 1) / 2.
Definition cantor (k1 k2 : Z) : Z := tri (k1 + k2) + k2.

Lemma tri_succ n : tri (n + 1) = tri n + n + 1.
Proof. unfold tri. replace ((n + 1) * (n + 1 + 1)) with (n * (n + 1) + (n + 1) * 2) by lia. rewrite Z.div_add by done. lia. Qed.

Lemma tri_mono n m : 0 ≤ n ≤ m → tri n ≤ tri m.
Proof. intros H. unfold tri. apply Z.div_le_mono; nia. Qed.

Lemma tri_ge n : 0 ≤ n → n ≤ tri n.
Proof. intros H. apply Z.div_le_lower_bound; [done|]. nia. Qed.

(** The pair is determined by its number. *)
Lemma cantor_inj k1 k2 l1 l2 :
  0 ≤ k1 → 0 ≤ k2 → 0 ≤ l1 → 0 ≤ l2 → cantor k1 k2 = cantor l1 l2 → k1 = l1 ∧ k2 = l2.
Proof.
  intros. unfold cantor in *.
  assert (∀ a b a' b', 0 ≤ a → 0 ≤ b → 0 ≤ a' → 0 ≤ b' → a + b < a' + b' → tri (a + b) + b < tri (a' + b') + b') as Hlt.
  { intros a b a' b' ????. pose proof (tri_succ (a + b)). pose proof (tri_mono (a + b + 1) (a' + b')). lia. }
  destruct (Z.lt_trichotomy (k1 + k2) (l1 + l2)) as [H'|[E|H']].
  - specialize (Hlt k1 k2 l1 l2). lia.
  - rewrite E in *. lia.
  - specialize (Hlt l1 l2 k1 k2). lia.
Qed.

Lemma cantor_lt k m n : 0 ≤ k → 0 ≤ m < n → cantor k m < cantor k n.
Proof. intros. unfold cantor. pose proof (tri_mono (k + m) (k + n)). lia. Qed.

Lemma cantor_ge k n : 0 ≤ k → 0 ≤ n → n ≤ cantor k n.
Proof. intros. unfold cantor. pose proof (tri_ge (k + n)). lia. Qed.

(** The sum of two numbers whose pairing does not wrap around is at most this. *)
Definition max_sum : Z := 2 ^ 32 - 2.

Lemma cantorPairing_small k1 k2 : 0 ≤ k1 → 0 ≤ k2 → k1 + k2 ≤ max_sum → cantorPairing k1 k2 = cantor k1 k2.
Proof.
  intros. unfold max_sum in *. unfold cantorPairing, cantor, tri. rewrite !(u64_small (k1 + k2)), (u64_small (k1 + k2 + 1)) by lia.
  rewrite (u64_small (_ * _)) by nia. apply u64_small.
  assert (0 ≤ (k1 + k2) * (k1 + k2 + 1) / 2 < 2 ^ 63) by (split; [apply Z.div_pos; nia|apply Z.div_lt_upper_bound; nia]). lia.
Qed.

(** * What the generator promises *)

(** The loop ends with the first number above the old epoch. *)
Lemma newEpoch_spec base n old :
  0 ≤ base → 0 ≤ n → 0 ≤ old → base + Z.max n (old + 1) ≤ max_sum →
  ∃ m, newEpoch (mkEG base n) old = Ok (cantor base m, mkEG base (m + 1)) ∧
    n ≤ m ∧ m ≤ Z.max n (old + 1) ∧ old < cantor base m ∧ ∀ i, n ≤ i < m → cantor base i ≤ old.
Proof.
  intros Hb Hn Ho Hs.
  assert (∀ k i, (Z.to_nat (Z.max n (old + 1) - i) < k)%nat → n ≤ i ≤ Z.max n (old + 1) → (∀ j, n ≤ j < i → cantor base j ≤ old) →
    ∃ m, loop_nat (eg_round old) k (mkEG base i) = inr (cantor base m, mkEG base (m + 1)) ∧ n ≤ m ∧ m ≤ Z.max n (old + 1) ∧
      old < cantor base m ∧ ∀ j, n ≤ j < m → cantor base j ≤ old) as Hloop.
  { induction k as [|k IH]; intros i Hk Hi Hj; [lia|]. cbn [loop_nat]. unfold eg_round. cbn [eg_base eg_n update].
    rewrite cantorPairing_small by lia. unfold max_sum in Hs. nowrap. case_bool_decide as Hc.
    - pose proof (cantor_ge base i). apply IH; [lia..|]. intros j ?. destruct (decide (j = i)) as [->|]; [lia|]. apply Hj. lia.
    - exists i. split_and!; [done|lia..|done]. }
  unfold newEpoch. rewrite loop_pos_nat. unfold max_sum in Hs.
  destruct (Hloop (Pos.to_nat (2 ^ 64)%positive) n) as (m & -> & Hm); [lia|lia|lia|]. by exists m.
Qed.

(** Epochs drawn one after the other, each above an old one. *)
Fixpoint newEpochs (g : EpochGen) (olds : list Epoch) : res (list Epoch) :=
  match olds with
  | [] => Ok []
  | old :: olds => '(e, g) ← newEpoch g old; es ← newEpochs g olds; mret (e :: es)
  end.

Lemma newEpochs_spec base B olds : ∀ n, 0 ≤ base → 0 ≤ n → Forall (λ old, 0 ≤ old < B) olds →
  base + Z.max n B + len olds ≤ max_sum →
  ∃ ms, newEpochs (mkEG base n) olds = Ok (cantor base <$> ms) ∧ Forall (λ m, n ≤ m) ms ∧ StronglySorted Z.lt ms ∧
    Forall2 (λ old m, old < cantor base m) olds ms.
Proof.
  induction olds as [|old olds IH]; intros n Hb Hn Hf Hs; [exists []; cbn; split_and!; constructor|].
  apply Forall_cons in Hf as [Ho Hf]. cbn [length] in Hs.
  destruct (newEpoch_spec base n old) as (m & Hm & Hnm & Hmo & Hlt & _); [lia..|].
  destruct (IH (m + 1)) as (ms & Hms & Hg & Hst & H2); [done|lia|done|lia|].
  exists (m :: ms). cbn. rewrite Hm. cbn. rewrite Hms. split_and!; [done| | |].
  - constructor; [done|]. eapply Forall_impl; [done|]. cbn. lia.
  - constructor; [done|]. eapply Forall_impl; [done|]. cbn. lia.
  - by constructor.
Qed.

(** The identifiers whose generators stay below the largest uint64 while they
    draw [k] epochs above epochs below [B]. *)
Definition id_small (id : ID) (B : Epoch) (k : Z) : Prop :=
  0 ≤ PxID id < 128 ∧ 0 ≤ IDEpoch id ∧ PxID id + IDEpoch id ≤ max_sum ∧ cantor (PxID id) (IDEpoch id) + B + k ≤ max_sum.

Lemma generated id B olds :
  Forall (λ old, 0 ≤ old < B) olds → 0 ≤ B → id_small id B (len olds) →
  ∃ ms, newEpochs (epochGenerator id) olds = Ok (cantor (cantor (PxID id) (IDEpoch id)) <$> ms) ∧ Forall (λ m, 0 ≤ m) ms ∧
    StronglySorted Z.lt ms ∧ Forall2 (λ old m, old < cantor (cantor (PxID id) (IDEpoch id)) m) olds ms ∧
    0 ≤ cantor (PxID id) (IDEpoch id).
Proof.
  intros Hf HB (Hp & He & Hs & Hc). pose proof (cantor_ge (PxID id) (IDEpoch id)).
  unfold epochGenerator. rewrite (u64_small (PxID id)), cantorPairing_small by lia.
  destruct (newEpochs_spec (cantor (PxID id) (IDEpoch id)) B olds 0) as (ms & ? & ? & ? & ?); [lia|lia|done|lia|].
  exists ms. split_and!; [done..|lia].
Qed.

(** As long as no number wraps around, every replica's generator ends, each
    epoch it draws is above the old epoch it is drawn for, its epochs are
    increasing, and two different replicas never draw the same epoch. *)
Theorem epochs_unique (id1 id2 : ID) (B : Epoch) (olds1 olds2 : list Epoch) :
  id1 ≠ id2 → 0 ≤ B → Forall (λ old, 0 ≤ old < B) olds1 → Forall (λ old, 0 ≤ old < B) olds2 →
  id_small id1 B (len olds1) → id_small id2 B (len olds2) →
  ∃ es1 es2, newEpochs (epochGenerator id1) olds1 = Ok es1 ∧ newEpochs (epochGenerator id2) olds2 = Ok es2 ∧
    Forall2 Z.lt olds1 es1 ∧ StronglySorted Z.lt es1 ∧ es1 ## es2.
Proof.
  intros Hne HB Hf1 Hf2 Hi1 Hi2.
  destruct (generated id1 B olds1) as (ms1 & E1 & P1 & S1 & L1 & N1); [done..|].
  destruct (generated id2 B olds2) as (ms2 & E2 & P2 & _ & _ & N2); [done..|].
  exists (cantor (cantor (PxID id1) (IDEpoch id1)) <$> ms1), (cantor (cantor (PxID id2) (IDEpoch id2)) <$> ms2).
  split_and!; [done..| | |].
  - by apply Forall2_fmap_r.
  - clear -S1 P1 N1. induction S1 as [|m ms S1 IH Hm]; cbn; constructor; apply Forall_cons in P1 as [? P1]; [by apply IH|].
    apply Forall_fmap. rewrite Forall_forall in *. intros i Hi. cbn. apply cantor_lt; [done|]. by specialize (Hm i Hi).
  - rewrite Forall_forall in P1, P2. intros e (m1 & -> & H1)%list_elem_of_fmap (m2 & Heq & H2)%list_elem_of_fmap.
    apply cantor_inj in Heq as [Heq _]; [|done|by apply P1|done|by apply P2].
    destruct Hi1 as ((? & _) & ? & _), Hi2 as ((? & _) & ? & _).
    apply cantor_inj in Heq as [? ?]; [|done..]. apply Hne. destruct id1, id2; cbn in *; congruence.
Qed.

Lemma epochs_unique_witness :
  newEpochs (epochGenerator (mkID 0 0)) [0; 3; 3] = Ok [2; 5; 9] ∧ newEpochs (epochGenerator (mkID 1 0)) [0; 3; 3] = Ok [1; 4; 8] ∧
  ([2; 5; 9] : list Epoch) ## [1; 4; 8].
Proof.
  destruct (epochs_unique (mkID 0 0) (mkID 1 0) 4 [0; 3; 3] [0; 3; 3]) as (es1 & es2 & E1 & E2 & _ & _ & Hd);
    [done|lia|by repeat constructor|by repeat constructor|by vm_compute|by vm_compute|].
  split; [vm_compute; reflexivity|]. split; [vm_compute; reflexivity|].
  assert (es1 = [2; 5; 9] ∧ es2 = [1; 4; 8]) as [<- <-]; [|exact Hd].
  revert E1 E2. vm_compute. intros [= <-] [= <-]. split; reflexivity.
Defined.

(** The numbers wrap around soon: four replicas that replace one another in
    turn, starting from epoch zero. *)
Definition replaced_by (id : ID) (px : PaxosID) (old : Epoch) : res ID :=
  '(e, _) ← newEpoch (epochGenerator id) old; mret (mkID px e).
Lemma fourth_generation_wraps :
  ∃ a b c d, replaced_by (mkID 0 0) 1 0 = Ok a ∧ replaced_by a 2 0 = Ok b ∧ replaced_by b 0 0 = Ok c ∧ replaced_by c 1 (IDEpoch a) = Ok d ∧
    IDEpoch d ≠ cantor (cantor (PxID c) (IDEpoch c)) 0.
Proof. do 4 eexists. split_and!; [vm_compute; reflexivity..|]. vm_compute. discriminate. Qed.

(** * Asynchronous reconfiguration *)

Lemma getNewEpoch_small id : 0 ≤ PxID id < 10 → 0 ≤ IDEpoch id < 2 ^ 63 → getNewEpoch id = PxID id + (IDEpoch id / 10 + 1) * 10.
Proof.
  intros Hp He. unfold getNewEpoch. pose proof (Z.div_mod (IDEpoch id) 10). pose proof (Z.mod_pos_bound (IDEpoch id) 10).
  assert (0 ≤ IDEpoch id / 10) by (apply Z.div_pos; lia).
  rewrite (u64_small (PxID id)), (u64_small (IDEpoch id / 10 + 1)), (u64_small ((IDEpoch id / 10 + 1) * 10)), u64_small; lia.
Qed.

(** With at most ten identifiers the last digit of a new epoch names the replica
    that chose it, and the epoch is above the replica's own. *)
Theorem getNewEpoch_unique id1 id2 :
  0 ≤ PxID id1 < 10 → 0 ≤ PxID id2 < 10 → 0 ≤ IDEpoch id1 < 2 ^ 63 → 0 ≤ IDEpoch id2 < 2 ^ 63 →
  IDEpoch id1 < getNewEpoch id1 ∧ (getNewEpoch id1 = getNewEpoch id2 → PxID id1 = PxID id2).
Proof.
  intros H1 H2 H3 H4. rewrite !getNewEpoch_small by done. pose proof (Z.div_mod (IDEpoch id1) 10). pose proof (Z.mod_pos_bound (IDEpoch id1) 10). split; lia.
Qed.

(** The eleventh one chooses the epochs that the first also does. *)
Lemma getNewEpoch_collides : getNewEpoch (mkID 10 0) = getNewEpoch (mkID 0 10).
Proof. reflexivity. Qed.
