(* ===== verification/PaxosTypes.v ===== *)
(** Package paxos (src/paxos) and the client request of package client:
    proposer rounds, values, the slot maps of the three actors, and the
    messages they exchange. *)
From S2P Require Import Prelude Grp.

(** * Client requests (client/msg.pb.go, client/msgutils.go) *)

(** A byte is a [Z] in [0 .. 255]. *)
Abbreviation bytes := (list Z) (only parsing).

Record Request := mkRequest {
  rq_Type : option Z;
  rq_Id : option string;
  rq_Seq : option Z;
  rq_Val : bytes;
}.
#[export] Instance Request_eq_dec : EqDecision Request.
Proof. solve_decision. Defined.

Definition Request_HELLO : Z := 1.
Definition Request_EXEC : Z := 2.

Definition GetType (r : Request) : Z := default 0 (rq_Type r).
Definition GetId (r : Request) : string := default "" (rq_Id r).
Definition GetSeq (r : Request) : Z := default 0 (rq_Seq r).
Definition GetVal (r : Request) : bytes := rq_Val r.

Definition Request_Equal (r other : Request) : bool :=
  bool_decide (GetType r = GetType other) && bool_decide (GetId r = GetId other) &&
  bool_decide (GetSeq r = GetSeq other) && bool_decide (GetVal r = GetVal other).

(** [hash/fnv] New32a: the state, [Write] and [Sum32]. *)
Definition fnv_offset32 : Z := 2166136261.
Definition fnv_prime32 : Z := 16777619.
Definition fnv_Write (h : Z) (p : bytes) : Z :=
  foldl (λ h b, u32 (Z.lxor h b * fnv_prime32)) h p.

Definition Request_Hash (r : Request) : Z := fnv_Write fnv_offset32 (GetVal r).

Definition validIDLength : Z := 28.
Definition IsIDInvalid (r : Request) : bool :=
  bool_decide (GetId r = "") ||
  negb (bool_decide (Z.of_nat (String.length (GetId r)) = validIDLength)).

(** * Proposer rounds (proprnd.go) *)

Record ProposerRound := mkRound { RndNo : Z; RndID : ID }.
#[export] Instance eta_ProposerRound : Eta ProposerRound := λ r, mkRound (RndNo r) (RndID r).
#[export] Instance ProposerRound_eq_dec : EqDecision ProposerRound.
Proof. solve_decision. Defined.
#[export] Instance ProposerRound_countable : Countable ProposerRound.
Proof.
  by refine (inj_countable' (λ i, (RndNo i, RndID i)) (λ p, mkRound p.1 p.2) _); intros [].
Defined.

Definition ZeroRound : ProposerRound := mkRound 0 (NewIDFromInt 0 0).
Definition NewProposerRound (id : ID) : ProposerRound := mkRound 1 id.
Definition Compare (pr opr : ProposerRound) : Z :=
  if bool_decide (RndNo pr = RndNo opr) then CompareTo (RndID pr) (RndID opr)
  else if bool_decide (RndNo pr < RndNo opr) then -1
  else 1.
Definition Next (pr : ProposerRound) : ProposerRound := pr <| RndNo ::= λ n, u64 (n + 1) |>.
Definition SetOwner (pr : ProposerRound) (id : ID) : ProposerRound := pr <| RndID := id |>.

(** * Values (value.go, reconfig.go) *)

Abbreviation SlotID := Z (only parsing).

Inductive ValueType := Noop | App | Reconfig.
#[export] Instance ValueType_eq_dec : EqDecision ValueType.
Proof. solve_decision. Defined.

Record ReconfigCmd := mkReconfigCmd { rc_Nodes : gmap ID Node; rc_New : ID }.
#[export] Instance ReconfigCmd_eq_dec : EqDecision ReconfigCmd.
Proof. solve_decision. Defined.

Record Value := mkValue { Vt : ValueType; Cr : list Request; Rc : option ReconfigCmd }.
#[export] Instance eta_Value : Eta Value := λ r, mkValue (Vt r) (Cr r) (Rc r).
#[export] Instance Value_eq_dec : EqDecision Value.
Proof. solve_decision. Defined.

(** [Value{}]. *)
Definition zero_Value : Value := mkValue Noop [] None.
#[export] Instance Value_inhabited : Inhabited Value := populate zero_Value.

Definition valueTypes : list string :=
  ["No-op command"; "Application command"; "Reconfiguration command"].
Definition ValueType_String (vt : ValueType) : string :=
  match vt with
  | Noop => nth 0 valueTypes "" | App => nth 1 valueTypes "" | Reconfig => nth 2 valueTypes ""
  end.

Fixpoint requests_Equal (a b : list Request) : bool :=
  match a, b with
  | x :: a, y :: b => if negb (Request_Equal x y) then false else requests_Equal a b
  | _, _ => true
  end.

Definition Value_Equal (v o : Value) : bool :=
  if bool_decide (Vt v ≠ Vt o) then false
  else match Vt v with
  | Noop => true
  | App =>
      if bool_decide (length (Cr v) ≠ length (Cr o)) then false
      else requests_Equal (Cr v) (Cr o)
  | Reconfig => false
  end.

Definition Value_Hash (v : Value) : res Z :=
  if bool_decide (Vt v ≠ App) then Panic
  else Ok (foldl (λ h r, fnv_Write h (GetVal r)) fnv_offset32 (Cr v)).

(** * All-decided-up-to counter (adu.go) *)

Definition NewAdu (sid : SlotID) : SlotID := sid.
Definition Adu_Increment (val : SlotID) : SlotID := u64 (val + 1).
Definition Adu_Value (val : SlotID) : SlotID := val.

(** * Messages (msg.go, aslots.go) *)

Record AcceptorSlot := mkAcceptorSlot {
  as_ID : SlotID; as_VRnd : ProposerRound; as_VVal : Value }.
#[export] Instance eta_AcceptorSlot : Eta AcceptorSlot := λ r,
  mkAcceptorSlot (as_ID r) (as_VRnd r) (as_VVal r).
#[export] Instance AcceptorSlot_eq_dec : EqDecision AcceptorSlot.
Proof. solve_decision. Defined.

(** [AcceptorSlot{}], the element of a slice made with [make], and the slot
    [GetSlot] creates. *)
Definition new_aslot (id : SlotID) : AcceptorSlot := mkAcceptorSlot id ZeroRound zero_Value.
Definition zero_aslot : AcceptorSlot := new_aslot 0.

Record Prepare := mkPrepare { prep_ID : ID; prep_CRnd : ProposerRound; prep_Slot : SlotID }.
Record Promise := mkPromise {
  prom_ID : ID; prom_Rnd : ProposerRound; prom_AccSlots : list AcceptorSlot;
  prom_EpochVector : list Epoch }.
Record Accept := mkAccept {
  acc_ID : ID; acc_Slot : SlotID; acc_Rnd : ProposerRound; acc_Val : Value }.
Record Learn := mkLearn {
  lrn_ID : ID; lrn_Slot : SlotID; lrn_Rnd : ProposerRound; lrn_Val : Value;
  lrn_EpochVector : list Epoch }.
Record RangeTuple := mkRangeTuple { rt_From : SlotID; rt_To : SlotID }.
Record ResponseTuple := mkResponseTuple { rt_Slot : SlotID; rt_Val : Value }.
Record CatchUpRequest := mkCatchUpRequest { cureq_ID : ID; cureq_Ranges : list RangeTuple }.
Record CatchUpResponse := mkCatchUpResponse { curesp_ID : ID; curesp_Vals : list ResponseTuple }.
#[export] Instance Prepare_eq_dec : EqDecision Prepare.
Proof. solve_decision. Defined.
#[export] Instance Promise_eq_dec : EqDecision Promise.
Proof. solve_decision. Defined.
#[export] Instance Accept_eq_dec : EqDecision Accept.
Proof. solve_decision. Defined.
#[export] Instance Learn_eq_dec : EqDecision Learn.
Proof. solve_decision. Defined.
#[export] Instance RangeTuple_eq_dec : EqDecision RangeTuple.
Proof. solve_decision. Defined.
#[export] Instance ResponseTuple_eq_dec : EqDecision ResponseTuple.
Proof. solve_decision. Defined.
#[export] Instance CatchUpRequest_eq_dec : EqDecision CatchUpRequest.
Proof. solve_decision. Defined.
#[export] Instance CatchUpResponse_eq_dec : EqDecision CatchUpResponse.
Proof. solve_decision. Defined.
#[export] Instance eta_Accept : Eta Accept := λ r,
  mkAccept (acc_ID r) (acc_Slot r) (acc_Rnd r) (acc_Val r).

(** What an actor hands to the network goroutines. *)
Inductive Msg :=
| MPrepare (m : Prepare)
| MPromise (m : Promise)
| MAccept (m : Accept)
| MLearn (m : Learn)
| MCatchUpRequest (m : CatchUpRequest)
| MCatchUpResponse (m : CatchUpResponse).
#[export] Instance Msg_eq_dec : EqDecision Msg.
Proof. solve_decision. Defined.

(** The effects of a handler: [bcast <- m], [bcast <- &m] (a pointer, which
    the demultiplexer of the sending node dispatches on another type than the
    value), [ucast <- Packet{id, m}], and the value handed to the server. *)
Inductive Out :=
| OBcast (m : Msg)
| OBcastPtr (m : Msg)
| OUcast (dst : ID) (m : Msg)
| ODecided (s : SlotID) (v : Value)
| ODcdSlot (s : SlotID).
#[export] Instance Out_eq_dec : EqDecision Out.
Proof. solve_decision. Defined.

(** * Acceptor slots (aslots.go, utils.go) *)

Record AcceptorSlotMap := mkAcceptorSlotMap {
  asm_Slots : gmap SlotID AcceptorSlot; asm_Rnd : ProposerRound; asm_MaxSeen : SlotID }.
#[export] Instance eta_AcceptorSlotMap : Eta AcceptorSlotMap := λ r,
  mkAcceptorSlotMap (asm_Slots r) (asm_Rnd r) (asm_MaxSeen r).
#[export] Instance AcceptorSlotMap_eq_dec : EqDecision AcceptorSlotMap.
Proof. solve_decision. Defined.

Definition NewAcceptorSlotMap : AcceptorSlotMap := mkAcceptorSlotMap ∅ ZeroRound 0.

(** The slot the map holds at [id], or the one [GetSlot] would create. *)
Definition aslot (sm : AcceptorSlotMap) (id : SlotID) : AcceptorSlot :=
  default (new_aslot id) (asm_Slots sm !! id).

Definition AcceptorSlotMap_GetSlot (sm : AcceptorSlotMap) (id : SlotID)
    : AcceptorSlot * AcceptorSlotMap :=
  let sm := match asm_Slots sm !! id with
            | Some _ => sm
            | None => sm <| asm_Slots ::= <[id := new_aslot id]> |>
            end in
  let sm := if bool_decide (id > asm_MaxSeen sm) then sm <| asm_MaxSeen := id |> else sm in
  (aslot sm id, sm).

(** [*slot = s] for the pointer [slot] that [GetSlot(id)] returned. *)
Definition put_aslot (id : SlotID) (s : AcceptorSlot) (sm : AcceptorSlotMap) : AcceptorSlotMap :=
  sm <| asm_Slots ::= <[id := s]> |>.

(** The indices of [for i := lo; i <= hi; i++] over [uint]: when [hi] is the
    largest [uint] the condition never fails. *)
Definition upto (lo hi : Z) : res (list Z) :=
  if bool_decide (hi < lo) then Ok []
  else if bool_decide (hi = 2 ^ 64 - 1) then Diverge
  else Ok (range lo (hi + 1)).

Definition CopyAccSlotMapRange (afterSlotID : SlotID) (source : option AcceptorSlotMap)
    : res AcceptorSlotMap :=
  match source with
  | None => Ok NewAcceptorSlotMap
  | Some src =>
      idx ← upto (u64 (afterSlotID + 1)) (asm_MaxSeen src);
      mret (foldl (λ sm i,
          match asm_Slots src !! i with
          | Some slot => sm <| asm_Slots ::= <[i := slot]> |> <| asm_MaxSeen := i |>
          | None => sm
          end)
        (NewAcceptorSlotMap <| asm_Rnd := asm_Rnd src |>) idx)
  end.

(** * Proposer slots (pslots.go) *)

Record ProposerSlot := mkProposerSlot {
  ps_ID : SlotID; ps_Proposal : option Accept; ps_SentCount : Z }.
#[export] Instance eta_ProposerSlot : Eta ProposerSlot := λ r,
  mkProposerSlot (ps_ID r) (ps_Proposal r) (ps_SentCount r).
Record ProposerSlotMap := mkProposerSlotMap {
  psm_Slots : gmap SlotID ProposerSlot; psm_MaxSeen : SlotID }.
#[export] Instance eta_ProposerSlotMap : Eta ProposerSlotMap := λ r,
  mkProposerSlotMap (psm_Slots r) (psm_MaxSeen r).

Definition NewProposerSlotMap : ProposerSlotMap := mkProposerSlotMap ∅ 0.
Definition new_pslot (id : SlotID) : ProposerSlot := mkProposerSlot id None 0.
Definition pslot (sm : ProposerSlotMap) (id : SlotID) : ProposerSlot :=
  default (new_pslot id) (psm_Slots sm !! id).

Definition ProposerSlotMap_GetSlot (sm : ProposerSlotMap) (id : SlotID)
    : ProposerSlot * ProposerSlotMap :=
  let sm := match psm_Slots sm !! id with
            | Some _ => sm
            | None => sm <| psm_Slots ::= <[id := new_pslot id]> |>
            end in
  let sm := if bool_decide (id > psm_MaxSeen sm) then sm <| psm_MaxSeen := id |> else sm in
  (pslot sm id, sm).

Definition put_pslot (id : SlotID) (s : ProposerSlot) (sm : ProposerSlotMap) : ProposerSlotMap :=
  sm <| psm_Slots ::= <[id := s]> |>.

(** * Learner slots (lslots.go) *)

Record LearnerSlot := mkLearnerSlot {
  ls_ID : SlotID;
  ls_Learned : bool;
  ls_Rnd : ProposerRound;
  ls_Learns : list (option Learn);
  ls_Votes : Z;
  ls_LearnedVal : Value;
  ls_Decided : bool;
}.
#[export] Instance eta_LearnerSlot : Eta LearnerSlot := λ r,
  mkLearnerSlot (ls_ID r) (ls_Learned r) (ls_Rnd r) (ls_Learns r) (ls_Votes r)
    (ls_LearnedVal r) (ls_Decided r).
Record LearnerSlotMap := mkLearnerSlotMap {
  lsm_Slots : gmap SlotID LearnerSlot; lsm_MaxSeen : SlotID }.
#[export] Instance eta_LearnerSlotMap : Eta LearnerSlotMap := λ r,
  mkLearnerSlotMap (lsm_Slots r) (lsm_MaxSeen r).

Definition NewLearnerSlotMap : LearnerSlotMap := mkLearnerSlotMap ∅ 0.
Definition new_lslot (id : SlotID) : LearnerSlot :=
  mkLearnerSlot id false ZeroRound [] 0 zero_Value false.
Definition lslot (sm : LearnerSlotMap) (id : SlotID) : LearnerSlot :=
  default (new_lslot id) (lsm_Slots sm !! id).

Definition LearnerSlotMap_GetSlot (sm : LearnerSlotMap) (id : SlotID)
    : LearnerSlot * LearnerSlotMap :=
  let sm := match lsm_Slots sm !! id with
            | Some _ => sm
            | None => sm <| lsm_Slots ::= <[id := new_lslot id]> |>
            end in
  let sm := if bool_decide (id > lsm_MaxSeen sm) then sm <| lsm_MaxSeen := id |> else sm in
  (lslot sm id, sm).

Definition put_lslot (id : SlotID) (s : LearnerSlot) (sm : LearnerSlotMap) : LearnerSlotMap :=
  sm <| lsm_Slots ::= <[id := s]> |>.

(** The learner slots under live replacement: the set of replicas that voted
    replaces the slice index, and the votes keep their order of arrival. *)
Record LearnerLrSlot := mkLearnerLrSlot {
  lls_ID : SlotID;
  lls_Learned : bool;
  lls_Rnd : ProposerRound;
  lls_Learns : list Learn;
  lls_Votes : Z;
  lls_Voted : gset ID;
  lls_LearnedVal : Value;
  lls_Decided : bool;
  lls_CheckVQ : bool;
}.
#[export] Instance eta_LearnerLrSlot : Eta LearnerLrSlot := λ r,
  mkLearnerLrSlot (lls_ID r) (lls_Learned r) (lls_Rnd r) (lls_Learns r) (lls_Votes r)
    (lls_Voted r) (lls_LearnedVal r) (lls_Decided r) (lls_CheckVQ r).
Record LearnerLrSlotMap := mkLearnerLrSlotMap {
  llsm_Slots : gmap SlotID LearnerLrSlot; llsm_MaxSeen : SlotID }.
#[export] Instance eta_LearnerLrSlotMap : Eta LearnerLrSlotMap := λ r,
  mkLearnerLrSlotMap (llsm_Slots r) (llsm_MaxSeen r).

Definition NewLearnerLrSlotMap : LearnerLrSlotMap := mkLearnerLrSlotMap ∅ 0.
Definition new_llslot (id : SlotID) : LearnerLrSlot :=
  mkLearnerLrSlot id false ZeroRound [] 0 ∅ zero_Value false false.
Definition llslot (sm : LearnerLrSlotMap) (id : SlotID) : LearnerLrSlot :=
  default (new_llslot id) (llsm_Slots sm !! id).

Definition LearnerLrSlotMap_GetSlot (sm : LearnerLrSlotMap) (id : SlotID)
    : LearnerLrSlot * LearnerLrSlotMap :=
  let sm := match llsm_Slots sm !! id with
            | Some _ => sm
            | None => sm <| llsm_Slots ::= <[id := new_llslot id]> |>
            end in
  let sm := if bool_decide (id > llsm_MaxSeen sm) then sm <| llsm_MaxSeen := id |> else sm in
  (llslot sm id, sm).

Definition put_llslot (id : SlotID) (s : LearnerLrSlot) (sm : LearnerLrSlotMap)
    : LearnerLrSlotMap :=
  sm <| llsm_Slots ::= <[id := s]> |>.

(** * Rounds are totally ordered *)

Definition rlt (a b : ProposerRound) : Prop :=
  RndNo a < RndNo b ∨ RndNo a = RndNo b ∧
    (PxID (RndID a) < PxID (RndID b) ∨
     PxID (RndID a) = PxID (RndID b) ∧ IDEpoch (RndID a) < IDEpoch (RndID b)).
Definition rle (a b : ProposerRound) : Prop := a = b ∨ rlt a b.

Declare Scope round_scope.
Delimit Scope round_scope with round.
Infix "≺" := rlt (at level 70, no associativity) : round_scope.
Infix "≼" := rle (at level 70, no associativity) : round_scope.
Open Scope round_scope.

Lemma rlt_irrefl a : ¬ a ≺ a.
Proof. unfold rlt. lia. Qed.
Lemma rlt_trans a b c : a ≺ b → b ≺ c → a ≺ c.
Proof. unfold rlt. lia. Qed.
Lemma rlt_total a b : a ≺ b ∨ a = b ∨ b ≺ a.
Proof.
  destruct a as [n [p e]], b as [m [q f]]. unfold rlt. simpl.
  destruct (Z.lt_total n m) as [?|[?|?]]; [lia| |lia].
  destruct (Z.lt_total p q) as [?|[?|?]]; [lia| |lia].
  destruct (Z.lt_total e f) as [?|[?|?]]; [lia| |lia]. subst. auto.
Qed.
Lemma rle_refl a : a ≼ a.
Proof. by left. Qed.
Lemma rle_trans a b c : a ≼ b → b ≼ c → a ≼ c.
Proof. intros [->|?] [->|?]; [by left|by right..|]. right. by eapply rlt_trans. Qed.
Lemma rlt_rle_trans a b c : a ≺ b → b ≼ c → a ≺ c.
Proof. intros ? [->|?]; [done|]. by eapply rlt_trans. Qed.
Lemma rle_rlt_trans a b c : a ≼ b → b ≺ c → a ≺ c.
Proof. intros [->|?] ?; [done|]. by eapply rlt_trans. Qed.
Lemma rlt_not_rle a b : a ≺ b ↔ ¬ b ≼ a.
Proof.
  split.
  - intros H [->|H']; [by eapply rlt_irrefl|]. by eapply rlt_irrefl, rlt_trans.
  - intros H. destruct (rlt_total a b) as [?|[->|?]]; [done|..].
    + destruct H. by left.
    + destruct H. by right.
Qed.
Lemma rle_not_rlt a b : a ≼ b ↔ ¬ b ≺ a.
Proof.
  split.
  - intros H1 H2. by apply rlt_not_rle in H2.
  - intros H. destruct (rlt_total a b) as [?|[->|?]]; [by right|by left|done].
Qed.
Lemma rle_antisym a b : a ≼ b → b ≼ a → a = b.
Proof. intros [->|H1] H2; [done|]. by apply rlt_not_rle in H1. Qed.
#[export] Hint Resolve rle_refl : go.

Lemma Compare_cases a b :
  (Compare a b = 1 ∧ b ≺ a) ∨ (Compare a b = -1 ∧ a ≺ b) ∨ (Compare a b = 0 ∧ a = b).
Proof.
  unfold Compare, rlt. repeat case_bool_decide; [|lia|lia].
  destruct (CompareTo_cases (RndID a) (RndID b)) as [[-> ?]|[[-> ?]|[-> ?]]]; [lia|lia|].
  right. right. split; [done|]. destruct a, b; simpl in *. congruence.
Qed.
Lemma Compare_lt a b : Compare a b = -1 ↔ a ≺ b.
Proof.
  destruct (Compare_cases a b) as [[-> H]|[[-> H]|[-> H]]]; split; try done.
  - intros H'. exfalso. by eapply rlt_irrefl, rlt_trans.
  - subst. intros []%rlt_irrefl.
Qed.
Lemma Compare_gt a b : Compare a b = 1 ↔ b ≺ a.
Proof.
  destruct (Compare_cases a b) as [[-> H]|[[-> H]|[-> H]]]; split; try done.
  - intros H'. exfalso. by eapply rlt_irrefl, rlt_trans.
  - subst. intros []%rlt_irrefl.
Qed.
Lemma Compare_eq a b : Compare a b = 0 ↔ a = b.
Proof.
  destruct (Compare_cases a b) as [[-> H]|[[-> H]|[-> H]]]; split; try done;
    intros ->; by apply rlt_irrefl in H.
Qed.
Lemma Compare_ge a b : Compare a b >= 0 ↔ b ≼ a.
Proof.
  destruct (Compare_cases a b) as [[-> H]|[[-> H]|[-> H]]]; split; try done.
  - by right.
  - intros H'. by apply rlt_not_rle in H.
  - by left.
Qed.
Lemma Compare_gt0 a b : Compare a b > 0 ↔ b ≺ a.
Proof. rewrite <- Compare_gt. destruct (Compare_cases a b) as [[-> ?]|[[-> ?]|[-> ?]]]; lia. Qed.

Lemma Next_spec r : RndNo r < 2 ^ 64 - 1 → 0 ≤ RndNo r → r ≺ Next r ∧ RndID (Next r) = RndID r.
Proof. intros. unfold Next, rlt. cbn. nowrap. split; [lia|done]. Qed.

(** * Requests and values *)

Lemma Request_Equal_spec r o :
  Request_Equal r o = true ↔
  GetType r = GetType o ∧ GetId r = GetId o ∧ GetSeq r = GetSeq o ∧ GetVal r = GetVal o.
Proof.
  unfold Request_Equal. rewrite !andb_true_iff, !bool_decide_eq_true. naive_solver.
Qed.

Lemma requests_Equal_spec a b :
  length a = length b →
  requests_Equal a b = true ↔ Forall2 (λ x y, Request_Equal x y = true) a b.
Proof.
  revert b. induction a as [|x a IH]; intros [|y b] Hl; simplify_eq/=; [by split; [constructor|]|].
  destruct (Request_Equal x y) eqn:E; simpl.
  - rewrite IH by done. split; [by constructor|]. intros H. by inversion H.
  - split; [done|]. intros H. inversion H. congruence.
Qed.

(** Value equality is equality of the decided content: two values are equal
    exactly when both are no-ops, or both carry pairwise equal requests in the
    same order. A reconfiguration command is equal to nothing, not even itself. *)
Lemma Value_Equal_spec v o :
  Value_Equal v o = true ↔
  (Vt v = Noop ∧ Vt o = Noop) ∨
  (Vt v = App ∧ Vt o = App ∧ Forall2 (λ x y, Request_Equal x y = true) (Cr v) (Cr o)).
Proof.
  unfold Value_Equal. case_bool_decide as Ht.
  { split; [done|]. intros [[??]|(? & ? & _)]; congruence. }
  destruct (Vt v), (Vt o); simplify_eq; try by split; [auto|intros [[??]|(? & ? & _)]].
  case_bool_decide as Hl.
  - split; [done|]. intros [[??]|(_ & _ & H)]; [done|]. by apply Forall2_length in H.
  - rewrite requests_Equal_spec by done. naive_solver.
Qed.

Lemma fnv_Write_app h p q : fnv_Write h (p ++ q) = fnv_Write (fnv_Write h p) q.
Proof. apply foldl_app. Qed.

(** Hashing the requests one after the other hashes the concatenation of their
    payloads; only application values have a hash. *)
Lemma Value_Hash_spec v :
  Value_Hash v =
  match Vt v with
  | App => Ok (fnv_Write fnv_offset32 (mjoin (GetVal <$> Cr v)))
  | _ => Panic
  end.
Proof.
  unfold Value_Hash. destruct (Vt v); try done. simpl. f_equal.
  generalize fnv_offset32. induction (Cr v) as [|r rs IH]; intros h; simpl; [done|].
  by rewrite IH, fnv_Write_app.
Qed.

Lemma fnv_Write_range h p : 0 ≤ h < 2 ^ 32 → 0 ≤ fnv_Write h p < 2 ^ 32.
Proof.
  revert h. induction p as [|b p IH]; intros h Hh; simpl; [done|]. apply IH, u32_range.
Qed.

(** * Slot maps *)

Lemma lookup_insert_default {A} (m : gmap Z A) id j s d :
  default d (<[id := s]> m !! j) = if decide (j = id) then s else default d (m !! j).
Proof.
  destruct (decide (j = id)) as [->|]; [by rewrite lookup_insert_eq|by rewrite lookup_insert_ne].
Qed.

(** [GetSlot] only adds the slot that the view already assumes at [id], whose
    lookup is [o]. *)
Ltac slot_view o :=
  let E := fresh "E" in
  destruct o eqn:E; destruct (bool_decide _); cbn; try done;
  rewrite lookup_insert_default; case_decide; subst; by rewrite ?E.

Lemma aslot_GetSlot sm id j : aslot (AcceptorSlotMap_GetSlot sm id).2 j = aslot sm j.
Proof.
  unfold AcceptorSlotMap_GetSlot, aslot. slot_view (asm_Slots sm !! id).
Qed.
Lemma AcceptorSlotMap_GetSlot_eq sm id :
  AcceptorSlotMap_GetSlot sm id = (aslot sm id, (AcceptorSlotMap_GetSlot sm id).2).
Proof.
  rewrite <- (aslot_GetSlot sm id id). done.
Qed.
Lemma asm_Rnd_GetSlot sm id : asm_Rnd (AcceptorSlotMap_GetSlot sm id).2 = asm_Rnd sm.
Proof.
  unfold AcceptorSlotMap_GetSlot. destruct (asm_Slots sm !! id); by destruct (bool_decide _).
Qed.
Lemma asm_MaxSeen_GetSlot sm id :
  asm_MaxSeen (AcceptorSlotMap_GetSlot sm id).2 = Z.max (asm_MaxSeen sm) id.
Proof.
  unfold AcceptorSlotMap_GetSlot.
  destruct (asm_Slots sm !! id); case_bool_decide; cbn in *; lia.
Qed.
Lemma aslot_put sm id s j :
  aslot (put_aslot id s sm) j = if decide (j = id) then s else aslot sm j.
Proof.
  unfold aslot, put_aslot. cbn. by rewrite lookup_insert_default.
Qed.
Lemma asm_Rnd_put id s sm : asm_Rnd (put_aslot id s sm) = asm_Rnd sm.
Proof. done. Qed.
Lemma asm_MaxSeen_put id s sm : asm_MaxSeen (put_aslot id s sm) = asm_MaxSeen sm.
Proof. done. Qed.
#[export] Hint Rewrite aslot_GetSlot asm_Rnd_GetSlot asm_MaxSeen_GetSlot aslot_put
  asm_Rnd_put asm_MaxSeen_put : go.

Lemma pslot_GetSlot sm id j : pslot (ProposerSlotMap_GetSlot sm id).2 j = pslot sm j.
Proof.
  unfold ProposerSlotMap_GetSlot, pslot. slot_view (psm_Slots sm !! id).
Qed.
Lemma ProposerSlotMap_GetSlot_eq sm id :
  ProposerSlotMap_GetSlot sm id = (pslot sm id, (ProposerSlotMap_GetSlot sm id).2).
Proof.
  rewrite <- (pslot_GetSlot sm id id). done.
Qed.
Lemma pslot_put sm id s j :
  pslot (put_pslot id s sm) j = if decide (j = id) then s else pslot sm j.
Proof.
  unfold pslot, put_pslot. cbn. by rewrite lookup_insert_default.
Qed.
#[export] Hint Rewrite pslot_GetSlot pslot_put : go.

Lemma lslot_GetSlot sm id j : lslot (LearnerSlotMap_GetSlot sm id).2 j = lslot sm j.
Proof.
  unfold LearnerSlotMap_GetSlot, lslot. slot_view (lsm_Slots sm !! id).
Qed.
Lemma LearnerSlotMap_GetSlot_eq sm id :
  LearnerSlotMap_GetSlot sm id = (lslot sm id, (LearnerSlotMap_GetSlot sm id).2).
Proof.
  rewrite <- (lslot_GetSlot sm id id). done.
Qed.
Lemma lslot_put sm id s j :
  lslot (put_lslot id s sm) j = if decide (j = id) then s else lslot sm j.
Proof.
  unfold lslot, put_lslot. cbn. by rewrite lookup_insert_default.
Qed.
#[export] Hint Rewrite lslot_GetSlot lslot_put : go.

Lemma llslot_GetSlot sm id j : llslot (LearnerLrSlotMap_GetSlot sm id).2 j = llslot sm j.
Proof.
  unfold LearnerLrSlotMap_GetSlot, llslot. slot_view (llsm_Slots sm !! id).
Qed.
Lemma LearnerLrSlotMap_GetSlot_eq sm id :
  LearnerLrSlotMap_GetSlot sm id = (llslot sm id, (LearnerLrSlotMap_GetSlot sm id).2).
Proof.
  rewrite <- (llslot_GetSlot sm id id). done.
Qed.
Lemma llslot_put sm id s j :
  llslot (put_llslot id s sm) j = if decide (j = id) then s else llslot sm j.
Proof.
  unfold llslot, put_llslot. cbn. by rewrite lookup_insert_default.
Qed.
#[export] Hint Rewrite llslot_GetSlot llslot_put : go.

(** Two acceptor slot maps are equivalent when they agree on every slot, round
    and highest slot seen, whether or not [GetSlot] has already allocated the
    empty slots. *)
#[export] Instance asm_equiv : Equiv AcceptorSlotMap := λ s1 s2,
  (∀ i, aslot s1 i = aslot s2 i) ∧ asm_Rnd s1 = asm_Rnd s2 ∧ asm_MaxSeen s1 = asm_MaxSeen s2.
#[export] Instance asm_equivalence : Equivalence (≡@{AcceptorSlotMap}).
Proof.
  split.
  - done.
  - intros s1 s2 (H1 & H2 & H3). done.
  - intros s1 s2 s3 (H1 & H2 & H3) (H4 & H5 & H6).
    split_and!; [intros i; by rewrite H1|congruence..].
Qed.
#[export] Instance aslot_proper : Proper ((≡) ==> (=) ==> (=)) aslot.
Proof. intros s1 s2 (H1 & _ & _) i ? <-. apply H1. Qed.
#[export] Instance asm_Rnd_proper : Proper ((≡) ==> (=)) asm_Rnd.
Proof. by intros s1 s2 (_ & H & _). Qed.
#[export] Instance asm_MaxSeen_proper : Proper ((≡) ==> (=)) asm_MaxSeen.
Proof. by intros s1 s2 (_ & _ & H). Qed.
#[export] Instance put_aslot_proper : Proper ((=) ==> (=) ==> (≡) ==> (≡)) put_aslot.
Proof.
  intros i ? <- s ? <- s1 s2 (H1 & H2 & H3). split_and!; [|done..].
  intros j. rewrite !aslot_put. by case_decide.
Qed.
Lemma GetSlot_seen_equiv sm i :
  i ≤ asm_MaxSeen sm → (AcceptorSlotMap_GetSlot sm i).2 ≡ sm.
Proof.
  intros Hi. split_and!; [by intros j; rewrite aslot_GetSlot|apply asm_Rnd_GetSlot|].
  rewrite asm_MaxSeen_GetSlot. lia.
Qed.

Arguments AcceptorSlotMap_GetSlot : simpl never.
Arguments ProposerSlotMap_GetSlot : simpl never.
Arguments LearnerSlotMap_GetSlot : simpl never.
Arguments LearnerLrSlotMap_GetSlot : simpl never.
Arguments put_aslot : simpl never.
Arguments put_pslot : simpl never.
Arguments put_lslot : simpl never.
Arguments put_llslot : simpl never.

(** [get_slot] rewrites a [GetSlot] call into the slot it returns and the map
    it leaves, whose view is unchanged. *)
Ltac get_slot :=
  first [ rewrite AcceptorSlotMap_GetSlot_eq | rewrite ProposerSlotMap_GetSlot_eq
        | rewrite LearnerSlotMap_GetSlot_eq | rewrite LearnerLrSlotMap_GetSlot_eq ];
  cbn beta iota zeta.

(** * Loops over unsigned ranges *)

Lemma upto_Ok lo hi : hi < 2 ^ 64 - 1 → upto lo hi = Ok (range lo (hi + 1)).
Proof.
  intros. unfold upto. case_bool_decide.
  - rewrite range_nil by lia. done.
  - by rewrite bool_decide_eq_false_2 by lia.
Qed.
Lemma upto_inv lo hi l : upto lo hi = Ok l → l = range lo (hi + 1).
Proof.
  unfold upto. repeat case_bool_decide; intros [= <-]; [|done]. by rewrite range_nil by lia.
Qed.

(** [CopyAccSlotMapRange] returns exactly the slots above the given one and at
    most the highest seen, with the same round; it terminates unless the
    highest slot seen is the largest [uint]. *)
Theorem CopyAccSlotMapRange_spec (after : SlotID) (src : AcceptorSlotMap) :
  0 ≤ after < 2 ^ 64 - 1 → asm_MaxSeen src < 2 ^ 64 - 1 →
  ∃ sm, CopyAccSlotMapRange after (Some src) = Ok sm ∧
    asm_Rnd sm = asm_Rnd src ∧
    (∀ i, asm_Slots sm !! i =
      if decide (after < i ≤ asm_MaxSeen src) then asm_Slots src !! i else None) ∧
    (∀ i, is_Some (asm_Slots sm !! i) → i ≤ asm_MaxSeen sm) ∧
    asm_MaxSeen sm ≤ Z.max 0 (asm_MaxSeen src).
Proof.
  intros Ha Hm. unfold CopyAccSlotMapRange. rewrite upto_Ok by done. nowrap. cbn [mbind res_bind].
  eexists. split; [done|].
  pose (P (l : list Z) sm := asm_Rnd sm = asm_Rnd src ∧
    (∀ i, i ∈ l → asm_Slots sm !! i = asm_Slots src !! i) ∧
    (∀ i, i ∉ l → asm_Slots sm !! i = None) ∧
    (∀ i, is_Some (asm_Slots sm !! i) → i ≤ asm_MaxSeen sm) ∧
    (asm_MaxSeen sm = 0 ∨ asm_MaxSeen sm ∈ l)).
  match goal with |- context [foldl ?f ?s0 ?l] => assert (P l (foldl f s0 l)) as HP end.
  { apply (foldl_inv P).
    - intros pre i post sm (-> & Hi & ->)%range_app_cons (H1 & H2 & H2' & H3 & H4).
      rewrite <- range_snoc by lia. unfold P. setoid_rewrite elem_of_range.
      setoid_rewrite elem_of_range in H2. setoid_rewrite elem_of_range in H2'.
      rewrite elem_of_range in H4.
      destruct (asm_Slots src !! i) as [slot|] eqn:E; cbn.
      + split_and!; [done|..|lia]; intros j; (destruct (decide (j = i)) as [->|];
          [rewrite ?lookup_insert_eq|rewrite ?lookup_insert_ne by done]); try (done || lia).
        * intros ?. apply H2. lia.
        * intros ?. apply H2'. lia.
        * destruct (decide (after + 1 ≤ j < i)); [lia|]. rewrite H2' by lia. by intros [].
      + split_and!; [done|..|done|lia]; intros j Hj; destruct (decide (j = i)) as [->|];
          try lia; [|by apply H2; lia|by apply H2'; lia].
        rewrite H2'; [done|lia].
    - split_and!; cbn; [done|by intros ? []%elem_of_nil|done|by intros ? []|by left]. }
  destruct HP as (H1 & H2 & H2' & H3 & H4). split_and!; [done| |done|].
  - intros i. case_decide; [apply H2|apply H2']; rewrite elem_of_range; lia.
  - rewrite elem_of_range in H4. lia.
Qed.

Lemma CopyAccSlotMapRange_spec_witness :
  ∃ sm, CopyAccSlotMapRange 1 (Some (mkAcceptorSlotMap
      {[ 1 := new_aslot 1; 2 := new_aslot 2 ]} (mkRound 3 (mkID 0 0)) 2)) = Ok sm ∧
    asm_Slots sm !! 2 = Some (new_aslot 2) ∧ asm_Slots sm !! 1 = None.
Proof.
  destruct (CopyAccSlotMapRange_spec 1 (mkAcceptorSlotMap
      {[ 1 := new_aslot 1; 2 := new_aslot 2 ]} (mkRound 3 (mkID 0 0)) 2))
    as (sm & H & _ & Hs & _); [lia|cbn; lia|].
  exists sm. rewrite !Hs. split; [exact H|]. split; reflexivity.
Defined.

(** * Values and rounds for the witnesses *)

Definition ex_val (n : Z) : Value := mkValue App [mkRequest (Some 2) None (Some n) [n]] None.
Definition ex_rnd (n i : Z) : ProposerRound := mkRound n (ex_id i).
