(* ===== verification/Combinations.v ===== *)
(** Valid quorums under live replacement: the combination iterator
    (src/lr/comb_iterator.go) and the extraction of a conflict-free quorum
    from the messages received (src/lr/vq.go, src/multipaxos/vq.go). *)
From S2P Require Import Prelude Grp PaxosTypes.

(** * The combination iterator (comb_iterator.go) *)

(** [Binomial] of math/big, by Pascal's rule. *)
Fixpoint binomial (n k : nat) : Z :=
  match k, n with
  | O, _ => 1
  | S k', O => 0
  | S k', S n' => binomial n' k' + binomial n' k
  end.

(** The indices are at most [n], the length of a slice, so [int] does not
    overflow; the count of combinations is converted to [int]. *)
Record CombinationIterator := mkCI { ci_r : Z; ci_n : Z; ci_i : Z; ci_c : Z; ci_s : list Z }.
#[export] Instance eta_CI : Eta CombinationIterator := λ r,
  mkCI (ci_r r) (ci_n r) (ci_i r) (ci_c r) (ci_s r).

Definition NewCombinationIterator (n r : Z) : res CombinationIterator :=
  if decide (r < 0) then Panic
  else
    let s := seqZ 0 r in
    let c := i64 (binomial (Z.to_nat n) (Z.to_nat r)) in
    Ok {| ci_r := r; ci_n := n; ci_i := 0; ci_c := c; ci_s := s |}.

Definition HasNext (ci : CombinationIterator) : bool := bool_decide (ci_i ci < ci_c ci).

Definition incr_at (s : list Z) (i : Z) : res (list Z) :=
  x ← slice_get s i; slice_set s i (x + 1).

(** [for (i > 0) && (ci.s[i] >= ci.n-ci.r+1+i) { i--; ci.s[i]++ }]. *)
Fixpoint carry (n r : Z) (i : nat) (s : list Z) : res (nat * list Z) :=
  match i with
  | O => Ok (O, s)
  | S i' =>
      x ← slice_get s (Z.of_nat i);
      if bool_decide (x >= n - r + 1 + Z.of_nat i)
      then s ← incr_at s (Z.of_nat i'); carry n r i' s
      else Ok (i, s)
  end.

(** [for i = i + 1; i < ci.r; i++ { ci.s[i] = ci.s[i-1] + 1 }]. *)
Definition refill (r i : Z) (s : list Z) : res (list Z) :=
  foldM (λ s i, x ← slice_get s (i - 1); slice_set s i (x + 1)) s (range (i + 1) r).

Definition updateS (ci : CombinationIterator) : res CombinationIterator :=
  let ci := ci <| ci_i ::= λ i, i + 1 |> in
  let i := ci_r ci - 1 in
  s ← incr_at (ci_s ci) i;
  '(i, s) ← carry (ci_n ci) (ci_r ci) (Z.to_nat i) s;
  s ← refill (ci_r ci) (Z.of_nat i) s;
  mret (ci <| ci_s := s |>).

Definition ci_Next (ci : CombinationIterator) : res CombinationIterator :=
  if HasNext ci then updateS ci else Ok ci.

(** * Extracting a valid quorum (vq.go) *)

(** The messages a quorum is formed from: learns, promises and epoch promises
    carry a sender and the sender's vector of epochs. *)
Class EpochMsg (M : Type) := { em_ID : M → ID; em_EpochVector : M → list Epoch }.
#[export] Instance Learn_EpochMsg : EpochMsg Learn :=
  {| em_ID := lrn_ID; em_EpochVector := lrn_EpochVector |}.
#[export] Instance Promise_EpochMsg : EpochMsg Promise :=
  {| em_ID := prom_ID; em_EpochVector := prom_EpochVector |}.

Section vq.
Context {M : Type} `{EpochMsg M}.

(** [lrnConflict], [promiseConflict] and [epConflict]. *)
Definition conflict (a b : M) : res bool :=
  if bool_decide (PxID (em_ID a) = PxID (em_ID b)) then Ok true
  else
    x ← slice_get (em_EpochVector b) (PxID (em_ID a));
    if bool_decide (IDEpoch (em_ID a) < x) then Ok true
    else
      y ← slice_get (em_EpochVector a) (PxID (em_ID b));
      mret (bool_decide (IDEpoch (em_ID b) < y)).

(** The inner loop of [checkCombination]: message [i] against the later ones. *)
Fixpoint check_row (msgs : list M) (i : Z) (js : list Z) : res bool :=
  match js with
  | [] => Ok true
  | j :: js =>
      a ← slice_get msgs i; b ← slice_get msgs j; c ← conflict a b;
      if (c : bool) then Ok false else check_row msgs i js
  end.
Fixpoint checkCombination (indices : list Z) (msgs : list M) : res bool :=
  match indices with
  | [] => Ok true
  | i :: js =>
      ok ← check_row msgs i js;
      if (ok : bool) then checkCombination js msgs else Ok false
  end.

Fixpoint extract_loop (fuel : nat) (msgs : list M) (ci : CombinationIterator)
    : res (bool * list Z) :=
  match fuel with
  | O => Diverge
  | S fuel =>
      if HasNext ci then
        ok ← checkCombination (ci_s ci) msgs;
        if (ok : bool) then Ok (true, ci_s ci)
        else ci ← ci_Next ci; extract_loop fuel msgs ci
      else Ok (false, [])
  end.

(** The iterator makes [ci_c] steps, so one more than that is fuel enough. *)
Definition extractVq (msgs : list M) (quorumSize : Z) : res (bool * list Z) :=
  if decide (len msgs = 0) then Ok (false, [])
  else if decide (u64 (len msgs) < quorumSize) then Ok (false, [])
  else
    ci ← NewCombinationIterator (len msgs) (i64 quorumSize);
    extract_loop (S (Z.to_nat (ci_c ci))) msgs ci.

End vq.

(** The source has one copy per message type. *)
Definition lrnConflict (a b : Learn) : res bool := conflict a b.
Definition checkCombinationLrn (indices : list Z) (msgs : list Learn) := checkCombination indices msgs.
Definition extractVqLearns (msgs : list Learn) (q : Z) := extractVq msgs q.
Definition promiseConflict (a b : Promise) : res bool := conflict a b.
Definition checkCombinationPromises (indices : list Z) (msgs : list Promise) :=
  checkCombination indices msgs.
Definition extractVqPromises (msgs : list Promise) (q : Z) := extractVq msgs q.

(** * The combinations in lexicographic order *)

(** All increasing sequences of [r] numbers out of [lo .. lo + w - 1]. *)
Fixpoint combs (w r : nat) (lo : Z) : list (list Z) :=
  match r with
  | O => [[]]
  | S r' =>
      match w with
      | O => []
      | S w' => (cons lo <$> combs w' r' (lo + 1)) ++ combs w' r (lo + 1)
      end
  end.

Lemma length_combs w r lo : Z.of_nat (length (combs w r lo)) = binomial w r.
Proof.
  revert r lo. induction w as [|w IH]; intros [|r] lo; simpl; try done.
  rewrite length_app, length_fmap, Nat2Z.inj_add, !IH. done.
Qed.

Lemma elem_of_combs w r lo s :
  s ∈ combs w r lo ↔
  length s = r ∧ StronglySorted Z.lt s ∧ Forall (λ x, lo ≤ x < lo + Z.of_nat w) s.
Proof.
  revert r lo s. induction w as [|w IH]; intros [|r] lo s.
  1, 3: simpl; rewrite list_elem_of_singleton; split;
    [by intros ->; repeat constructor|by intros (?%nil_length_inv & _)].
  - simpl. rewrite elem_of_nil. split; [done|]. intros (Hl & _ & Hf).
    destruct s as [|x s]; [done|]. apply Forall_cons in Hf as [? _]. lia.
  - simpl. rewrite elem_of_app, list_elem_of_fmap, IH. setoid_rewrite IH. split.
    + intros [(t & -> & Hl & Hs & Hf)|(Hl & Hs & Hf)].
      * rewrite Forall_forall in Hf. split_and!; [simpl; lia| |].
        -- constructor; [done|]. rewrite Forall_forall. intros x Hx%Hf. lia.
        -- constructor; [lia|]. rewrite Forall_forall. intros x Hx%Hf. lia.
      * split_and!; [done..|]. eapply Forall_impl; [done|]. cbn. intros x ?. lia.
    + intros (Hl & Hs & Hf). destruct s as [|x s]; [done|].
      apply Forall_cons in Hf as [Hx Hf]. apply StronglySorted_inv in Hs as [Hs Hlt].
      rewrite Forall_forall in Hf, Hlt.
      destruct (decide (x = lo)) as [->|Hne].
      * left. exists s. split_and!; [done|simpl in Hl; lia|done|].
        rewrite Forall_forall. intros y Hy. specialize (Hf _ Hy). specialize (Hlt _ Hy). lia.
      * right. split_and!; [done|constructor; [done|by rewrite Forall_forall]|].
        constructor; [lia|]. rewrite Forall_forall. intros y Hy.
        specialize (Hf _ Hy). specialize (Hlt _ Hy). lia.
Qed.

Lemma combs_nil w r lo : (w < r)%nat → combs w r lo = [].
Proof.
  revert r lo. induction w as [|w IH]; intros [|r] lo ?; simpl; [lia|done|lia|].
  by rewrite !IH by lia.
Qed.

Lemma combs_head w r lo :
  (r ≤ w)%nat → ∃ l, combs w r lo = seqZ lo (Z.of_nat r) :: l.
Proof.
  revert r lo. induction w as [|w IH]; intros [|r] lo ?; simpl; eauto; try lia.
  destruct (IH r (lo + 1)) as [l ->]; [lia|]. simpl.
  rewrite (seqZ_cons lo) by lia. eexists. do 3 f_equal; lia.
Qed.

Lemma combs_last w r lo :
  (r ≤ w)%nat → ∃ l, combs w r lo = l ++ [seqZ (lo + Z.of_nat w - Z.of_nat r) (Z.of_nat r)].
Proof.
  revert r lo. induction w as [|w IH]; intros [|r] lo ?; simpl; [by exists []|lia|by exists []|].
  destruct (decide (S r ≤ w)%nat) as [Hr|Hr].
  - destruct (IH (S r) (lo + 1)) as [l ->]; [lia|].
    eexists (_ ++ l). rewrite app_assoc. do 3 f_equal. lia.
  - rewrite (combs_nil w (S r)) by lia. rewrite app_nil_r.
    destruct (IH r (lo + 1)) as [l ->]; [lia|].
    exists (cons lo <$> l). rewrite fmap_app. simpl.
    do 2 f_equal. symmetry. rewrite seqZ_cons by lia. f_equal; [lia|]. f_equal; lia.
Qed.

(** A combination and the next one differ as an odometer does: some position
    [x] below its maximum is advanced and the positions after it, all at their
    maximum, restart right above it. *)
Definition next_comb (n : Z) (s s' : list Z) : Prop :=
  ∃ pre x k, s = pre ++ x :: seqZ (n - Z.of_nat k) (Z.of_nat k) ∧
    x < n - Z.of_nat k - 1 ∧ s' = pre ++ seqZ (x + 1) (Z.of_nat (S k)).

Lemma combs_next w r lo i s s' :
  combs w r lo !! i = Some s → combs w r lo !! S i = Some s' →
  next_comb (lo + Z.of_nat w) s s'.
Proof.
  revert r lo i s s'. induction w as [|w IH]; intros [|r] lo i s s' Hs Hs'; try done.
  simpl in Hs, Hs'.
  replace (lo + Z.of_nat (S w)) with (lo + 1 + Z.of_nat w) by lia.
  apply lookup_app_Some in Hs' as [Hs'|[Hi' Hs']].
  - rewrite lookup_app_l in Hs by (apply lookup_lt_Some in Hs'; lia).
    rewrite list_lookup_fmap in Hs, Hs'.
    apply fmap_Some in Hs as (t & Ht & ->), Hs' as (t' & Ht' & ->).
    destruct (IH _ _ _ _ _ Ht Ht') as (pre & x & k & -> & Hx & ->).
    by exists (lo :: pre), x, k.
  - apply lookup_app_Some in Hs as [Hs|[Hi Hs]].
    + (* the last of the first part and the first of the second *)
      assert (S i = length (cons lo <$> combs w r (lo + 1))) as Hlen
        by (apply lookup_lt_Some in Hs; lia).
      rewrite <- Hlen, Nat.sub_diag in Hs'.
      destruct (decide (S r ≤ w)%nat) as [Hr|Hr]; [|rewrite (combs_nil w (S r)) in Hs' by lia; done].
      destruct (combs_head w (S r) (lo + 1) Hr) as [l Hl]. rewrite Hl in Hs'. injection Hs' as <-.
      destruct (combs_last w r (lo + 1) ltac:(lia)) as [l' Hl'].
      rewrite Hl', fmap_app, length_app, Nat.add_1_r in Hlen. injection Hlen as ->.
      rewrite Hl', fmap_app, lookup_app_r, Nat.sub_diag in Hs by done. injection Hs as <-.
      exists [], lo, r. split_and!; [done|lia|done].
    + replace (S i - length (cons lo <$> combs w r (lo + 1)))%nat
        with (S (i - length (cons lo <$> combs w r (lo + 1)))) in Hs' by lia.
      by eapply IH.
Qed.

(** * [updateS] computes the next combination *)

Lemma slice_get_mid {A} (l1 l2 : list A) x i :
  i = Z.of_nat (length l1) → slice_get (l1 ++ x :: l2) i = Ok x.
Proof.
  intros ->. apply slice_get_Ok. split; [lia|]. rewrite Nat2Z.id. by apply list_lookup_middle.
Qed.
Lemma slice_set_mid {A} (l1 l2 : list A) x y i :
  i = Z.of_nat (length l1) → slice_set (l1 ++ x :: l2) i y = Ok (l1 ++ y :: l2).
Proof.
  intros ->. apply slice_set_Ok. split; [rewrite length_app; simpl; lia|].
  rewrite Nat2Z.id. by rewrite insert_app_r_alt, Nat.sub_diag by done.
Qed.
Lemma incr_at_mid l1 l2 x i :
  i = Z.of_nat (length l1) → incr_at (l1 ++ x :: l2) i = Ok (l1 ++ (x + 1) :: l2).
Proof.
  intros Hi. unfold incr_at. rewrite slice_get_mid by done. cbn. by apply slice_set_mid.
Qed.

(** The positions [|pre| .. |pre| + m] when the carry has reached the last of
    them: the ones before it still hold their maximum. *)
Definition carried (nk x : Z) (m : nat) : list Z :=
  match m with
  | O => [x + 1]
  | S m => x :: seqZ nk (Z.of_nat m) ++ [nk + Z.of_nat m + 1]
  end.

Lemma incr_at_carried pre nk x m tail i :
  i = Z.of_nat (length pre + m) →
  incr_at (pre ++ carried nk x (S m) ++ tail) i =
    Ok (pre ++ carried nk x m ++ (nk + Z.of_nat m + 1) :: tail).
Proof.
  intros ->. destruct m as [|m].
  - apply incr_at_mid. lia.
  - replace (pre ++ carried nk x (S (S m)) ++ tail)
      with ((pre ++ x :: seqZ nk (Z.of_nat m)) ++ (nk + Z.of_nat m) :: (nk + Z.of_nat (S m) + 1) :: tail).
    + rewrite incr_at_mid; [|rewrite length_app; cbn; rewrite length_seqZ; lia].
      cbn [carried]. rewrite <- !app_assoc. cbn. by rewrite <- !app_assoc.
    + cbn [carried]. rewrite (Nat2Z.inj_succ m), <- Z.add_1_r, seqZ_snoc by lia.
      rewrite <- !app_assoc. cbn. by rewrite <- !app_assoc.
Qed.

Lemma carry_spec n r pre x k m tail :
  r = Z.of_nat (length pre + 1 + k) → pre = [] ∨ x + 1 < n - Z.of_nat k →
  ∃ tail', length tail' = (m + length tail)%nat ∧
    carry n r (length pre + m) (pre ++ carried (n - Z.of_nat k) x m ++ tail) =
      Ok (length pre, pre ++ (x + 1) :: tail').
Proof.
  intros Hr Hx. revert tail. induction m as [|m IH]; intros tail.
  - exists tail. split; [done|]. rewrite Nat.add_0_r. cbn [carried app].
    destruct pre as [|y pre]; [done|]. cbn [length carry].
    rewrite slice_get_mid by done. cbn [mbind res_bind].
    rewrite bool_decide_eq_false_2; [done|]. destruct Hx as [|Hx]; [done|].
    cbn [length] in Hr. lia.
  - replace (length pre + S m)%nat with (S (length pre + m)) by lia. cbn [carry].
    assert (slice_get (pre ++ carried (n - Z.of_nat k) x (S m) ++ tail) (Z.of_nat (S (length pre + m)))
      = Ok (n - Z.of_nat k + Z.of_nat m + 1)) as ->.
    { cbn [carried]. rewrite app_comm_cons, <- app_assoc, app_assoc. apply slice_get_mid.
      rewrite length_app. cbn. rewrite length_seqZ. lia. }
    cbn [mbind res_bind]. rewrite bool_decide_eq_true_2 by lia.
    rewrite incr_at_carried by done. cbn [mbind res_bind].
    destruct (IH ((n - Z.of_nat k + Z.of_nat m + 1) :: tail)) as (tail' & Hl & Hc).
    exists tail'. split; [|done]. rewrite Hl. cbn. lia.
Qed.

Lemma refill_spec pre x tail :
  refill (Z.of_nat (length pre + 1 + length tail)) (Z.of_nat (length pre)) (pre ++ x :: tail)
  = Ok (pre ++ seqZ x (Z.of_nat (S (length tail)))).
Proof.
  unfold refill. revert pre x. induction tail as [|y tail IH]; intros pre x.
  - rewrite range_nil by (simpl; lia). cbn. done.
  - rewrite range_cons by (simpl; lia). cbn [foldM].
    rewrite slice_get_mid by lia. cbn [mbind res_bind].
    change (pre ++ x :: y :: tail) with (pre ++ [x] ++ y :: tail). rewrite app_assoc.
    rewrite slice_set_mid by (rewrite length_app; simpl; lia).
    cbn [mbind res_bind]. specialize (IH (pre ++ [x]) (x + 1)). rewrite length_app in IH.
    cbn [length] in *.
    replace (Z.of_nat (length pre + 1 + S (length tail)))
      with (Z.of_nat (length pre + 1 + 1 + length tail)) by lia.
    replace (Z.of_nat (length pre) + 1) with (Z.of_nat (length pre + 1)) by lia.
    rewrite IH. rewrite <- app_assoc. do 2 f_equal. symmetry.
    rewrite seqZ_cons by lia. cbn. do 2 f_equal; lia.
Qed.

Lemma updateS_odometer ci pre x k :
  ci_s ci = pre ++ x :: seqZ (ci_n ci - Z.of_nat k) (Z.of_nat k) →
  ci_r ci = Z.of_nat (length pre + 1 + k) → pre = [] ∨ x + 1 < ci_n ci - Z.of_nat k →
  updateS ci = Ok (ci <| ci_i ::= λ i, i + 1 |>
                      <| ci_s := pre ++ seqZ (x + 1) (Z.of_nat (S k)) |>).
Proof.
  intros Hs Hr Hx. unfold updateS. cbn [ci_r ci_s ci_n ci_i update].
  assert (incr_at (ci_s ci) (ci_r ci - 1) = Ok (pre ++ carried (ci_n ci - Z.of_nat k) x k ++ [])) as ->.
  { rewrite Hs, Hr. destruct k as [|k]; cbn [carried].
    - apply incr_at_mid. lia.
    - rewrite (Nat2Z.inj_succ k), <- Z.add_1_r, seqZ_snoc, app_nil_r by lia.
      rewrite !app_comm_cons, !app_assoc.
      rewrite incr_at_mid; [do 4 f_equal; lia|]. rewrite length_app. cbn. rewrite length_seqZ. lia. }
  cbn [mbind res_bind]. replace (Z.to_nat (ci_r ci - 1)) with (length pre + k)%nat by lia.
  destruct (carry_spec (ci_n ci) (ci_r ci) pre x k k [] Hr Hx) as (tail' & Hl & ->).
  cbn [mbind res_bind].
  replace (ci_r ci) with (Z.of_nat (length pre + 1 + length tail')) at 1 by (simpl in Hl; lia).
  rewrite refill_spec. cbn. simpl in Hl. do 4 f_equal. lia.
Qed.

Section extract.
Context {M : Type} `{EpochMsg M}.

(** Messages [i] and [j] can be in one quorum: their senders are different
    replicas and neither sender's epoch is older than the other knows. *)
Definition compatible (msgs : list M) (i j : Z) : Prop :=
  ∃ a b, slice_get msgs i = Ok a ∧ slice_get msgs j = Ok b ∧ conflict a b = Ok false.

(** A valid quorum: [q] distinct messages, listed in increasing order, that
    are pairwise compatible. *)
Definition valid_quorum (msgs : list M) (q : Z) (idx : list Z) : Prop :=
  len idx = q ∧ StronglySorted Z.lt idx ∧ Forall (λ i, 0 ≤ i < len msgs) idx ∧
  StronglySorted (compatible msgs) idx.

(** Every sender is a position of every epoch vector. *)
Definition epochs_cover (msgs : list M) : Prop :=
  ∀ a b, a ∈ msgs → b ∈ msgs → 0 ≤ PxID (em_ID a) < len (em_EpochVector b).

Lemma conflict_total msgs a b :
  epochs_cover msgs → a ∈ msgs → b ∈ msgs → ∃ c, conflict a b = Ok c.
Proof.
  intros Hc Ha Hb. unfold conflict. case_bool_decide; [eauto|].
  destruct (slice_get_total (em_EpochVector b) (PxID (em_ID a))) as [x ->]; [by apply Hc|].
  cbn. case_bool_decide; [eauto|].
  destruct (slice_get_total (em_EpochVector a) (PxID (em_ID b))) as [y ->]; [by apply Hc|].
  cbn. eauto.
Qed.

Lemma slice_get_elem_of {A} (l : list A) i a : slice_get l i = Ok a → a ∈ l.
Proof. intros [_ Hl]%slice_get_Ok. by eapply list_elem_of_lookup_2. Qed.

Lemma check_row_spec msgs i js :
  epochs_cover msgs → 0 ≤ i < len msgs → Forall (λ i, 0 ≤ i < len msgs) js →
  ∃ ok, check_row msgs i js = Ok ok ∧ (ok = true ↔ Forall (compatible msgs i) js).
Proof.
  intros Hc Hi. induction 1 as [|j js Hj Hjs IH]; cbn [check_row].
  { exists true. by split; [|split; [constructor|]]. }
  destruct (slice_get_total msgs i Hi) as [a Ha], (slice_get_total msgs j Hj) as [b Hb].
  rewrite Ha, Hb. cbn.
  destruct (conflict_total msgs a b Hc) as [c Hab]; [by eapply slice_get_elem_of..|].
  rewrite Hab. cbn. destruct c.
  - exists false. split; [done|]. split; [done|].
    intros [(a' & b' & Ha' & Hb' & Hab') _]%Forall_cons. congruence.
  - destruct IH as (ok & -> & IH). exists ok. split; [done|]. rewrite Forall_cons, IH.
    unfold compatible at 2. naive_solver.
Qed.

Lemma checkCombination_spec msgs idx :
  epochs_cover msgs → Forall (λ i, 0 ≤ i < len msgs) idx →
  ∃ ok, checkCombination idx msgs = Ok ok ∧ (ok = true ↔ StronglySorted (compatible msgs) idx).
Proof.
  intros Hc. induction 1 as [|i js Hi Hjs IH]; cbn [checkCombination].
  { exists true. by split; [|split; [constructor|]]. }
  destruct (check_row_spec msgs i js Hc Hi Hjs) as (ok & -> & Hok). cbn. destruct ok.
  - destruct IH as (ok & -> & IH). exists ok. split; [done|]. rewrite IH. split.
    + intros. constructor; [done|]. by apply Hok.
    + by intros [? _]%StronglySorted_inv.
  - exists false. split; [done|]. split; [done|]. intros [_ Hf]%StronglySorted_inv.
    by apply Hok.
Qed.

(** The iterator stands at position [i] of the combinations of [r] out of [n]. *)
Definition iter_at (n r i : nat) (ci : CombinationIterator) : Prop :=
  ci_n ci = Z.of_nat n ∧ ci_r ci = Z.of_nat r ∧ ci_i ci = Z.of_nat i ∧ ci_c ci = binomial n r ∧
  ∀ s, combs n r 0 !! i = Some s → ci_s ci = s.

Lemma ci_Next_iter_at n r i ci :
  (0 < r ≤ n)%nat → iter_at n r i ci → (i < length (combs n r 0))%nat →
  ∃ ci', ci_Next ci = Ok ci' ∧ iter_at n r (S i) ci'.
Proof.
  intros Hr (Hn & Hcr & Hi & Hcc & Hs) Hlt.
  destruct (lookup_lt_is_Some_2 (combs n r 0) i Hlt) as [s Hsi]. specialize (Hs _ Hsi).
  assert (length s = r) as Hlen by (apply list_elem_of_lookup_2, elem_of_combs in Hsi; tauto).
  unfold ci_Next, HasNext. rewrite bool_decide_eq_true_2 by (rewrite Hi, Hcc, <- (length_combs n r 0); lia).
  destruct (combs n r 0 !! S i) as [s'|] eqn:Hsi'.
  - destruct (combs_next n r 0 i s s' Hsi Hsi') as (pre & x & k & Heq & Hx & Heq').
    rewrite (updateS_odometer ci pre x k).
    + eexists. split; [done|]. split_and!; cbn; try done; try lia. intros s0 Hs0. congruence.
    + rewrite Hs, Heq, Hn. done.
    + rewrite Hcr. f_equal. rewrite <- Hlen, Heq, length_app. cbn. rewrite length_seqZ. lia.
    + right. lia.
  - destruct (combs_last n r 0 ltac:(lia)) as [l Hl]. apply lookup_ge_None in Hsi'.
    assert (i = length l) as ->.
    { rewrite Hl, length_app in *. simpl in *. lia. }
    rewrite Hl, list_lookup_middle in Hsi by done. injection Hsi as <-.
    rewrite (updateS_odometer ci [] (Z.of_nat n - Z.of_nat r) (r - 1)).
    + eexists. split; [done|]. split_and!; cbn; try done; try lia.
      intros s Hs'%lookup_lt_Some. rewrite Hl, length_app in Hs'. simpl in Hs'. lia.
    + rewrite Hs, Hn. cbn. rewrite seqZ_cons by lia. f_equal. f_equal; lia.
    + rewrite Hcr. cbn. lia.
    + by left.
Qed.

Lemma extract_loop_spec msgs r fuel : ∀ i ci,
  epochs_cover msgs → (0 < r ≤ length msgs)%nat → iter_at (length msgs) r i ci →
  (i ≤ length (combs (length msgs) r 0) < fuel + i)%nat →
  ∃ ok idx, extract_loop fuel msgs ci = Ok (ok, idx) ∧
    if ok : bool then idx ∈ combs (length msgs) r 0 ∧ checkCombination idx msgs = Ok true
    else idx = [] ∧ ∀ j s, (i ≤ j)%nat → combs (length msgs) r 0 !! j = Some s →
      checkCombination s msgs = Ok false.
Proof.
  induction fuel as [|fuel IH]; intros i ci Hc Hr Hat Hfuel; [lia|]. cbn [extract_loop].
  pose proof Hat as (Hn & Hcr & Hi & Hcc & Hs).
  unfold HasNext. rewrite Hi, Hcc, <- (length_combs (length msgs) r 0).
  case_bool_decide as Hlt.
  - destruct (lookup_lt_is_Some_2 (combs (length msgs) r 0) i) as [s Hsi]; [lia|].
    rewrite (Hs _ Hsi). pose proof Hsi as Hin%list_elem_of_lookup_2.
    pose proof Hin as (_ & _ & Hf)%elem_of_combs.
    destruct (checkCombination_spec msgs s Hc) as ([] & Hck & _); [done|..]; rewrite Hck; cbn.
    + exists true, s. done.
    + destruct (ci_Next_iter_at (length msgs) r i ci Hr Hat) as (ci' & -> & Hat'); [lia|]. cbn.
      destruct (IH (S i) ci' Hc Hr Hat') as (ok & idx & Hrun & Hres); [lia|].
      exists ok, idx. split; [done|]. destruct ok; [done|]. destruct Hres as [-> Hres].
      split; [done|]. intros j t Hj Ht. destruct (decide (j = i)) as [->|]; [congruence|].
      apply (Hres j t); [lia|done].
  - exists false, []. split; [done|]. split; [done|].
    intros j s Hj Hs'%lookup_lt_Some. lia.
Qed.

(** Extracting a valid quorum is total (it terminates within the number of
    combinations and never indexes out of range) when every epoch vector
    covers every sender, and it is sound and complete: it returns [q] pairwise
    compatible messages, or reports failure when no [q] of the messages are. *)
Theorem extractVq_spec (msgs : list M) (q : Z) :
  epochs_cover msgs → 1 ≤ q < 2 ^ 63 → len msgs < 2 ^ 63 →
  binomial (length msgs) (Z.to_nat q) < 2 ^ 63 →
  ∃ ok idx, extractVq msgs q = Ok (ok, idx) ∧
    if ok : bool then valid_quorum msgs q idx
    else idx = [] ∧ ∀ idx', ¬ valid_quorum msgs q idx'.
Proof.
  intros Hc Hq Hm Hb. unfold extractVq.
  assert (∀ idx, len msgs < q → ¬ valid_quorum msgs q idx) as Hfew.
  { intros idx Hlt (Hl & Hs & Hf & _).
    assert (idx ∈ combs (length msgs) (length idx) 0) as Hin.
    { apply elem_of_combs. split_and!; [done..|]. eapply Forall_impl; [done|]. cbn. lia. }
    rewrite combs_nil in Hin by lia. by apply elem_of_nil in Hin. }
  case_decide as H0; [exists false, []; split_and!; [done..|]; intros; apply Hfew; lia|].
  nowrap. case_decide as H1; [exists false, []; split_and!; [done..|]; intros; apply Hfew; lia|].
  unfold NewCombinationIterator. nowrap. rewrite decide_False by lia. cbn [mbind res_bind].
  rewrite Nat2Z.id. nowrap.
  assert (0 <= binomial (length msgs) (Z.to_nat q)) by (rewrite <- (length_combs _ _ 0); lia).
  rewrite i64_small by lia. cbn [ci_c].
  destruct (extract_loop_spec msgs (Z.to_nat q)
    (S (Z.to_nat (binomial (length msgs) (Z.to_nat q)))) 0
    {| ci_r := q; ci_n := len msgs; ci_i := 0;
       ci_c := binomial (length msgs) (Z.to_nat q); ci_s := seqZ 0 q |})
    as (ok & idx & Hrun & Hres); [done|lia| | |].
  - split_and!; cbn; [done|lia|done..|].
    destruct (combs_head (length msgs) (Z.to_nat q) 0) as [l ->]; [lia|].
    intros s [= <-]. f_equal. lia.
  - rewrite <- (length_combs _ _ 0). lia.
  - exists ok, idx. split; [done|]. destruct ok.
    + destruct Hres as [(Hl & Hs & Hf)%elem_of_combs Hck].
      assert (Forall (λ i, 0 ≤ i < len msgs) idx) as Hf' by (eapply Forall_impl; [done|]; cbn; lia).
      destruct (checkCombination_spec msgs idx Hc Hf') as (ok & Hck' & Hok).
      split_and!; [lia|done..|]. apply Hok. congruence.
    + destruct Hres as [-> Hres]. split; [done|]. intros idx' (Hl & Hs & Hf & Hcomp).
      assert (idx' ∈ combs (length msgs) (Z.to_nat q) 0) as [j Hj]%list_elem_of_lookup_1.
      { apply elem_of_combs. split_and!; [lia|done|]. eapply Forall_impl; [done|]. cbn. lia. }
      destruct (checkCombination_spec msgs idx' Hc Hf) as (ok & Hck' & Hok).
      rewrite (Hres j idx') in Hck' by (done || lia). injection Hck' as <-.
      by apply Hok in Hcomp.
Qed.

End extract.

(** The senders of a valid quorum are different replicas. *)
Lemma compatible_ne {M} `{EpochMsg M} (msgs : list M) i j a b :
  compatible msgs i j → slice_get msgs i = Ok a → slice_get msgs j = Ok b →
  PxID (em_ID a) ≠ PxID (em_ID b).
Proof.
  intros (a' & b' & Ha & Hb & Hc) Ha' Hb'. rewrite Ha in Ha'. rewrite Hb in Hb'.
  injection Ha' as <-. injection Hb' as <-. unfold conflict in Hc. by case_bool_decide.
Qed.

(** Three replicas, one of which was replaced: the votes of the old and the
    new replica 1 are incompatible, so the quorum is formed with replica 0. *)
Definition ex_vq_msgs : list Promise :=
  [mkPromise (mkID 1 0) ZeroRound [] [0; 0; 0];
   mkPromise (mkID 1 1) ZeroRound [] [0; 1; 0];
   mkPromise (mkID 0 0) ZeroRound [] [0; 1; 0]].

Lemma extractVq_spec_witness :
  extractVqPromises ex_vq_msgs 2 = Ok (true, [1; 2]) ∧ valid_quorum ex_vq_msgs 2 [1; 2].
Proof.
  assert (epochs_cover ex_vq_msgs) as Hc.
  { intros a b Ha Hb. unfold ex_vq_msgs in *.
    rewrite !elem_of_cons, elem_of_nil in Ha, Hb. naive_solver (cbn; lia). }
  destruct (extractVq_spec ex_vq_msgs 2 Hc) as (ok & idx & Hrun & Hres); [lia|cbn; lia|by vm_compute|].
  assert (extractVq ex_vq_msgs 2 = Ok (true, [1; 2])) as E by (vm_compute; reflexivity).
  split; [exact E|]. rewrite E in Hrun. injection Hrun as <- <-. exact Hres.
Defined.
