(* ===== verification/MultiAcceptor.v ===== *)
(** The MultiPaxos acceptor (src/multipaxos/acceptor.go): its state, its
    handlers in the three modes of the constructor (regular, asynchronous
    reconfiguration, live replacement), and the body of its event loop. *)
From S2P Require Import Prelude Grp PaxosTypes.

(** * State *)

(** Which pair of handlers [NewMultiAcceptor] installs. *)
Inductive AccMode := AccRegular | AccAr | AccLr.

Record MultiAcceptor := mkMultiAcceptor {
  a_id : ID;
  a_startable : bool;
  a_started : bool;
  a_processing : bool;
  a_leader : ID;
  a_lowSlot : SlotID;
  a_slots : AcceptorSlotMap;
  a_mode : AccMode;
}.
#[export] Instance eta_MultiAcceptor : Eta MultiAcceptor := λ r,
  mkMultiAcceptor (a_id r) (a_startable r) (a_started r) (a_processing r) (a_leader r)
    (a_lowSlot r) (a_slots r) (a_mode r).

(** The events of the [select] in [Start]. A state request is answered and
    then blocks the acceptor until its release channel is closed, so the
    answer and the new identifier form one step. *)
Inductive AccEvent :=
| AccPrepare (m : Prepare)
| AccAccept (m : Accept)
| AccTrust (trustID : ID)
| AccStateReq (afterSlot : SlotID)
| AccSlotReq
| AccStop.

(** What a step hands out: a network effect or a slot map for the caller of
    [GetState] or [GetMaxSlot]. *)
Inductive AccOut :=
| AccSend (o : Out)
| AccState (sm : AcceptorSlotMap).

Section multi_acceptor.
Context {G : Type} `{GroupManager G}.

Definition NewMultiAcceptor (gm : G) (id : ID) (runAcc : bool) (leader : ID)
    (nextExpectedDcd : SlotID) : MultiAcceptor :=
  let ma := {| a_id := id; a_startable := runAcc; a_started := false; a_processing := false;
               a_leader := leader; a_lowSlot := nextExpectedDcd;
               a_slots := NewAcceptorSlotMap; a_mode := AccRegular |} in
  let ma := ma <| a_slots ::= λ sm, sm <| asm_MaxSeen := a_lowSlot ma |> |> in
  if gm_LrEnabled gm then ma <| a_mode := AccLr |>
  else if gm_ArEnabled gm then ma <| a_mode := AccAr |>
  else ma <| a_mode := AccRegular |>.

(** * Phase 1 *)

(** The reported slots: the zero slots of [make] when [msg.Slot] is above the
    highest slot seen, then every slot of [msg.Slot .. max] with a vote. *)
Definition promise_prefix (slot max : SlotID) : list AcceptorSlot :=
  if bool_decide (i64 (u64 (slot - max)) >= 0)
  then replicate (Z.to_nat (u64 (slot - max))) zero_aslot
  else [].

Definition promise_loop (idx : list SlotID) (sm : AcceptorSlotMap) (accslots : list AcceptorSlot)
    : list AcceptorSlot * AcceptorSlotMap :=
  foldl (λ '(accslots, sm) i,
      let '(slot, sm) := AcceptorSlotMap_GetSlot sm i in
      if bool_decide (Compare (as_VRnd slot) ZeroRound > 0)
      then (accslots ++ [slot], sm) else (accslots, sm))
    (accslots, sm) idx.

(** The part the three prepare handlers share, from the round check on. *)
Definition handle_prep_body (ev : list Epoch) (a : MultiAcceptor) (msg : Prepare)
    : res (MultiAcceptor * option (Promise * ID)) :=
  if bool_decide (Compare (asm_Rnd (a_slots a)) (prep_CRnd msg) >= 0) then Ok (a, None)
  else
    let a := a <| a_slots ::= λ sm, sm <| asm_Rnd := prep_CRnd msg |> |> in
    let max := asm_MaxSeen (a_slots a) in
    let accslots := promise_prefix (prep_Slot msg) max in
    idx ← upto (prep_Slot msg) max;
    let '(accslots, sm) := promise_loop idx (a_slots a) accslots in
    mret (a <| a_slots := sm |>,
      Some ({| prom_ID := a_id a; prom_Rnd := asm_Rnd sm; prom_AccSlots := accslots;
               prom_EpochVector := ev |}, prep_ID msg)).

Definition handlePrep (a : MultiAcceptor) (msg : Prepare) := handle_prep_body [] a msg.

Definition handlePrepAr (a : MultiAcceptor) (msg : Prepare) :=
  if bool_decide (IDEpoch (prep_ID msg) ≠ IDEpoch (a_id a)) then Ok (a, None)
  else handle_prep_body [] a msg.

Definition handlePrepLr (gm : G) (a : MultiAcceptor) (msg : Prepare) :=
  handle_prep_body (gm_Epochs gm) a msg.

(** * Phase 2 *)

(** From [slot := a.slots.GetSlot(msg.Slot)] on. *)
Definition handle_acc_body (ev : list Epoch) (a : MultiAcceptor) (msg : Accept)
    : MultiAcceptor * option Learn :=
  let '(slot, sm) := AcceptorSlotMap_GetSlot (a_slots a) (acc_Slot msg) in
  let a := a <| a_slots := sm |> in
  if bool_decide (Compare (asm_Rnd (a_slots a)) (acc_Rnd msg) = 1) ||
     bool_decide (Compare (acc_Rnd msg) (as_VRnd slot) = 0) then (a, None)
  else
    let a := if bool_decide (Compare (asm_Rnd (a_slots a)) (acc_Rnd msg) = -1)
             then a <| a_slots ::= λ sm, sm <| asm_Rnd := acc_Rnd msg |> |> else a in
    let slot := slot <| as_VRnd := acc_Rnd msg |> <| as_VVal := acc_Val msg |> in
    let a := a <| a_slots ::= put_aslot (acc_Slot msg) slot |> in
    (a, Some {| lrn_Slot := as_ID slot; lrn_ID := a_id a; lrn_Rnd := asm_Rnd (a_slots a);
                lrn_Val := as_VVal slot; lrn_EpochVector := ev |}).

Definition mark_processing (a : MultiAcceptor) : MultiAcceptor :=
  if negb (a_processing a) then a <| a_processing := true |> else a.

Definition handleAcc (a : MultiAcceptor) (msg : Accept) : MultiAcceptor * option Learn :=
  let a := mark_processing a in
  if bool_decide (acc_Slot msg < a_lowSlot a) then (a, None)
  else handle_acc_body [] a msg.

Definition handleAccAr (a : MultiAcceptor) (msg : Accept) : MultiAcceptor * option Learn :=
  let a := mark_processing a in
  if bool_decide (acc_Slot msg < a_lowSlot a) then (a, None)
  else if bool_decide (IDEpoch (acc_ID msg) ≠ IDEpoch (a_id a)) then (a, None)
  else handle_acc_body [] a msg.

Definition handleAccLr (gm : G) (a : MultiAcceptor) (msg : Accept) : MultiAcceptor * option Learn :=
  let a := mark_processing a in
  if bool_decide (acc_Slot msg < a_lowSlot a) then (a, None)
  else handle_acc_body (gm_Epochs gm) a msg.

Definition handlePrepare (gm : G) (a : MultiAcceptor) (msg : Prepare) :=
  match a_mode a with
  | AccLr => handlePrepLr gm a msg
  | AccAr => handlePrepAr a msg
  | AccRegular => handlePrep a msg
  end.

Definition handleAccept (gm : G) (a : MultiAcceptor) (msg : Accept) :=
  match a_mode a with
  | AccLr => handleAccLr gm a msg
  | AccAr => handleAccAr a msg
  | AccRegular => handleAcc a msg
  end.

(** * Acceptor state *)

Definition SetState (a : MultiAcceptor) (sm : AcceptorSlotMap) : MultiAcceptor :=
  a <| a_slots := sm |>.
Definition SetLowSlot (a : MultiAcceptor) (slot : SlotID) : MultiAcceptor :=
  a <| a_lowSlot := slot |>.

Definition handleStateRequest (gm : G) (a : MultiAcceptor) (afterSlot : SlotID)
    : res (MultiAcceptor * AcceptorSlotMap) :=
  slotMap ← CopyAccSlotMapRange afterSlot (Some (a_slots a));
  mret (a <| a_id := gm_GetID gm |>, slotMap).

Definition handleSlotRequest (a : MultiAcceptor) : AcceptorSlotMap :=
  NewAcceptorSlotMap <| asm_MaxSeen := asm_MaxSeen (a_slots a) |>
                     <| asm_Rnd := asm_Rnd (a_slots a) |>.

(** * The event loop *)

Definition acceptor_start (a : MultiAcceptor) : MultiAcceptor :=
  if negb (a_startable a) || a_started a then a else a <| a_started := true |>.

Definition acceptor_step (gm : G) (a : MultiAcceptor) (ev : AccEvent)
    : res (MultiAcceptor * list AccOut) :=
  match ev with
  | AccPrepare prepare =>
      '(a, promise) ← handlePrepare gm a prepare;
      mret (a, match promise with
               | Some (p, dest) => [AccSend (OUcast dest (MPromise p))]
               | None => []
               end)
  | AccAccept accept =>
      let '(a, learn) := handleAccept gm a accept in
      mret (a, match learn with
               | Some l => [AccSend (OBcast (MLearn l))]
               | None => []
               end)
  | AccTrust trustID => mret (a <| a_leader := trustID |>, [])
  | AccStateReq after =>
      '(a, sm) ← handleStateRequest gm a after; mret (a, [AccState sm])
  | AccSlotReq => mret (a, [AccState (handleSlotRequest a)])
  | AccStop => mret (a <| a_started := false |>, [])
  end.

(** * The handlers on every branch *)

(** The votes an acceptor reports for the slots [lo .. hi]. *)
Definition voted (s : AcceptorSlot) : Prop := ZeroRound ≺ as_VRnd s.
#[local] Instance voted_dec s : Decision (voted s).
Proof.
  destruct (decide (Compare (as_VRnd s) ZeroRound > 0)) as [Hc|Hc];
    rewrite Compare_gt0 in Hc; [by left|by right].
Defined.
Definition votes_between (sm : AcceptorSlotMap) (lo hi : SlotID) : list AcceptorSlot :=
  filter voted (aslot sm <$> range lo (hi + 1)).

Lemma elem_of_votes_between sm lo hi s :
  s ∈ votes_between sm lo hi ↔ ∃ i, lo ≤ i ≤ hi ∧ s = aslot sm i ∧ voted s.
Proof.
  unfold votes_between. rewrite list_elem_of_filter, list_elem_of_fmap.
  setoid_rewrite elem_of_range. split.
  - intros (Hv & i & -> & ?). exists i. split; [lia|done].
  - intros (i & ? & -> & Hv). split; [done|]. exists i. split; [done|lia].
Qed.

Lemma promise_loop_spec idx sm accs :
  (∀ i, i ∈ idx → i ≤ asm_MaxSeen sm) →
  ∃ sm', promise_loop idx sm accs = (accs ++ filter voted (aslot sm <$> idx), sm') ∧ sm' ≡ sm.
Proof.
  revert sm accs. induction idx as [|i idx IH]; intros sm accs Hidx.
  { exists sm. simpl. by rewrite app_nil_r. }
  unfold promise_loop in *. cbn [foldl]. get_slot. change (aslot sm <$> i :: idx) with (aslot sm i :: (aslot sm <$> idx)).
  pose proof (GetSlot_seen_equiv sm i ltac:(apply Hidx; constructor)) as Heq.
  assert (aslot (AcceptorSlotMap_GetSlot sm i).2 <$> idx = aslot sm <$> idx) as Hmap
    by (apply list_fmap_ext; intros; apply aslot_GetSlot).
  assert (∀ j, j ∈ idx → j ≤ asm_MaxSeen (AcceptorSlotMap_GetSlot sm i).2) as Hidx'
    by (intros; rewrite Heq; apply Hidx; by constructor).
  rewrite filter_cons.
  case_bool_decide as Hv; destruct (IH _ (if bool_decide (Compare (as_VRnd (aslot sm i)) ZeroRound > 0)
     then accs ++ [aslot sm i] else accs) Hidx') as (sm' & Hr & Hs).
  - rewrite bool_decide_eq_true_2 in Hr by done. rewrite Hr, Hmap.
    rewrite decide_True by (unfold voted; by rewrite <- Compare_gt0).
    exists sm'. split; [by rewrite <- app_assoc|]. by rewrite Hs.
  - rewrite bool_decide_eq_false_2 in Hr by done. rewrite Hr, Hmap.
    rewrite decide_False by (unfold voted; by rewrite <- Compare_gt0).
    exists sm'. split; [done|]. by rewrite Hs.
Qed.

(** The promise an acceptor answers [msg] with. *)
Definition promise_for (ev : list Epoch) (a : MultiAcceptor) (msg : Prepare) : Promise :=
  {| prom_ID := a_id a; prom_Rnd := prep_CRnd msg;
     prom_AccSlots := promise_prefix (prep_Slot msg) (asm_MaxSeen (a_slots a)) ++
       votes_between (a_slots a) (prep_Slot msg) (asm_MaxSeen (a_slots a));
     prom_EpochVector := ev |}.

Lemma handle_prep_body_Ok ev a msg a' o :
  handle_prep_body ev a msg = Ok (a', o) →
  (prep_CRnd msg ≼ asm_Rnd (a_slots a) ∧ a' = a ∧ o = None) ∨
  (asm_Rnd (a_slots a) ≺ prep_CRnd msg ∧ o = Some (promise_for ev a msg, prep_ID msg) ∧
   ∃ sm, a' = a <| a_slots := sm |> ∧ sm ≡ (a_slots a) <| asm_Rnd := prep_CRnd msg |>).
Proof.
  unfold handle_prep_body. case_bool_decide as Hc.
  { intros [= <- <-]. left. by apply Compare_ge in Hc. }
  rewrite Compare_ge, <- rlt_not_rle in Hc. cbn [a_slots update eta]. intros Hrun. right.
  apply bind_Ok in Hrun as (idx & ->%upto_inv & Hrun).
  edestruct promise_loop_spec as (sm & Hl & Hsm); [|rewrite Hl in Hrun].
  { intros i. rewrite elem_of_range. cbn. lia. }
  cbn in Hrun. injection Hrun as <- <-. split_and!; [done| |by exists sm].
  unfold promise_for. rewrite Hsm. done.
Qed.

Lemma handle_prep_body_total ev a msg :
  asm_MaxSeen (a_slots a) < 2 ^ 64 - 1 → is_ok (handle_prep_body ev a msg) = true.
Proof.
  intros. unfold handle_prep_body. case_bool_decide; [done|]. cbn.
  rewrite upto_Ok by done. cbn. by destruct (promise_loop _ _ _).
Qed.

Lemma handle_acc_body_cases ev a msg :
  let '(a', o) := handle_acc_body ev a msg in
  let i := acc_Slot msg in
  let s := aslot (a_slots a) i in
  ((acc_Rnd msg ≺ asm_Rnd (a_slots a) ∨ acc_Rnd msg = as_VRnd s) ∧ o = None ∧
    a' = a <| a_slots := (AcceptorSlotMap_GetSlot (a_slots a) i).2 |>) ∨
  (asm_Rnd (a_slots a) ≼ acc_Rnd msg ∧ acc_Rnd msg ≠ as_VRnd s ∧
    o = Some (mkLearn (a_id a) (as_ID s) (acc_Rnd msg) (acc_Val msg) ev) ∧
    ∃ sm, a' = a <| a_slots := sm |> ∧ asm_Rnd sm = acc_Rnd msg ∧
      asm_MaxSeen sm = Z.max (asm_MaxSeen (a_slots a)) i ∧
      ∀ j, aslot sm j = if decide (j = i) then mkAcceptorSlot (as_ID s) (acc_Rnd msg) (acc_Val msg)
                        else aslot (a_slots a) j).
Proof.
  unfold handle_acc_body. get_slot. cbn. rewrite asm_Rnd_GetSlot.
  destruct (bool_decide (Compare (asm_Rnd _) _ = 1) || _) eqn:E.
  { left. split; [|done]. apply orb_true_iff in E. rewrite !bool_decide_eq_true in E.
    by rewrite Compare_gt, Compare_eq in E. }
  right. apply orb_false_iff in E. rewrite !bool_decide_eq_false in E.
  rewrite Compare_gt, Compare_eq, <- rle_not_rlt in E. destruct E as [Hle Hne].
  assert (asm_Rnd (a_slots a) = acc_Rnd msg ∨ asm_Rnd (a_slots a) ≺ acc_Rnd msg) as Hr
    by (destruct Hle; auto).
  case_bool_decide as Hlt; cbn.
  - split_and!; [done..|]. eexists. split; [done|]. cbn. split; [done|].
    split; [apply asm_MaxSeen_GetSlot|]. intros j. rewrite aslot_put.
    case_decide; [done|]. apply aslot_GetSlot.
  - rewrite Compare_lt in Hlt. destruct Hr as [Hr|]; [|done].
    rewrite ?asm_Rnd_put, ?asm_Rnd_GetSlot, Hr. split; [apply rle_refl|]. split; [done|].
    split; [by rewrite ?asm_Rnd_put, ?asm_Rnd_GetSlot, ?Hr|]. eexists. split; [done|]. cbn.
    rewrite ?asm_Rnd_put, ?asm_Rnd_GetSlot. split; [by rewrite ?Hr|].
    split; [apply asm_MaxSeen_GetSlot|]. intros j. rewrite aslot_put.
    case_decide; [done|]. apply aslot_GetSlot.
Qed.

Lemma elem_of_promise_prefix slot max s : s ∈ promise_prefix slot max → s = zero_aslot.
Proof.
  unfold promise_prefix. case_bool_decide; [by intros [-> _]%elem_of_replicate|].
  by intros []%elem_of_nil.
Qed.

(** * Invariant and safety of the event loop *)

Record acceptor_wf (a : MultiAcceptor) : Prop := {
  awf_id : ∀ i, as_ID (aslot (a_slots a) i) = i;
  awf_rnd : ∀ i, as_VRnd (aslot (a_slots a) i) ≼ asm_Rnd (a_slots a);
  awf_seen : ∀ i, voted (aslot (a_slots a) i) → i ≤ asm_MaxSeen (a_slots a);
}.

(** What one step does to the promised round and to the votes, and what it
    sends. *)
Definition acceptor_progress (a a' : MultiAcceptor) (outs : list AccOut) : Prop :=
  asm_Rnd (a_slots a) ≼ asm_Rnd (a_slots a') ∧
  (∀ i, as_VRnd (aslot (a_slots a) i) ≼ as_VRnd (aslot (a_slots a') i)) ∧
  (outs = [] ∨ (∃ sm, outs = [AccState sm]) ∨
   (∃ p d, outs = [AccSend (OUcast d (MPromise p))] ∧
      asm_Rnd (a_slots a) ≺ prom_Rnd p ∧ asm_Rnd (a_slots a') = prom_Rnd p) ∨
   (∃ l, outs = [AccSend (OBcast (MLearn l))] ∧
      asm_Rnd (a_slots a) ≼ lrn_Rnd l ∧
      as_VRnd (aslot (a_slots a) (lrn_Slot l)) ≺ lrn_Rnd l ∧
      aslot (a_slots a') (lrn_Slot l) = mkAcceptorSlot (lrn_Slot l) (lrn_Rnd l) (lrn_Val l))).

Lemma acceptor_wf_slots a a' :
  a_slots a' ≡ a_slots a → acceptor_wf a → acceptor_wf a'.
Proof. intros (H1 & H2 & H3) [W1 W2 W3]. split; intros i; rewrite ?H1, ?H2, ?H3; auto. Qed.

Lemma acceptor_progress_slots a a' outs :
  a_slots a' ≡ a_slots a → (outs = [] ∨ ∃ sm, outs = [AccState sm]) →
  acceptor_progress a a' outs.
Proof.
  intros (H1 & H2 & H3) Ho. split_and!; [rewrite H2; apply rle_refl| |naive_solver].
  intros i. rewrite H1. apply rle_refl.
Qed.

Lemma prep_body_step ev a msg a' o :
  acceptor_wf a → handle_prep_body ev a msg = Ok (a', o) →
  acceptor_wf a' ∧ acceptor_progress a a'
    match o with Some (p, dest) => [AccSend (OUcast dest (MPromise p))] | None => [] end.
Proof.
  intros Hwf [(Hle & -> & ->)|(Hlt & -> & sm & -> & Hsm)]%handle_prep_body_Ok.
  { split; [done|]. apply acceptor_progress_slots; auto. }
  destruct Hsm as (H1 & H2 & H3), Hwf as [W1 W2 W3]. cbn in *. split.
  - split; cbn; intros i; rewrite H1, ?H2, ?H3; try apply W1; try apply W3.
    eapply rle_trans; [apply W2|by right].
  - split_and!; cbn; [rewrite H2; by right| |].
    + intros i. rewrite H1. apply rle_refl.
    + right. right. left. eexists _, _. rewrite H2. done.
Qed.

Lemma acc_body_step ev a msg :
  acceptor_wf a →
  let '(a', o) := handle_acc_body ev a msg in
  acceptor_wf a' ∧ acceptor_progress a a'
    match o with Some l => [AccSend (OBcast (MLearn l))] | None => [] end.
Proof.
  intros [W1 W2 W3]. pose proof (handle_acc_body_cases ev a msg) as Hc.
  destruct (handle_acc_body ev a msg) as [a' o].
  destruct Hc as [(_ & -> & ->)|(Hle & Hne & -> & sm & -> & Hr & Hm & Hs)].
  - split.
    + split; intros i; cbn; rewrite aslot_GetSlot, ?asm_Rnd_GetSlot, ?asm_MaxSeen_GetSlot; auto.
      intros Hv. apply W3 in Hv. lia.
    + split_and!; cbn; [rewrite asm_Rnd_GetSlot; apply rle_refl| |auto].
      intros i. rewrite aslot_GetSlot. apply rle_refl.
  - assert (as_VRnd (aslot (a_slots a) (acc_Slot msg)) ≼ acc_Rnd msg) as Hvle
      by (eapply rle_trans; [apply W2|done]).
    split.
    + split; intros i; cbn; rewrite Hs, ?Hr, ?Hm; case_decide; subst; cbn; auto.
      * apply rle_refl.
      * eapply rle_trans; [apply W2|done].
      * lia.
      * intros Hv. apply W3 in Hv. lia.
    + split_and!; cbn; [by rewrite Hr| |].
      * intros i. rewrite Hs. case_decide; subst; [done|apply rle_refl].
      * right. right. right. eexists. split; [done|]. cbn. rewrite W1, Hs, decide_True by done.
        rewrite W1. split_and!; [done| |done]. destruct Hvle; congruence.
Qed.

Lemma mark_processing_slots a : a_slots (mark_processing a) = a_slots a.
Proof. unfold mark_processing. by destruct (negb _). Qed.

Lemma acceptor_step_progress gm a ev a' outs :
  acceptor_wf a → acceptor_step gm a ev = Ok (a', outs) →
  acceptor_wf a' ∧ acceptor_progress a a' outs.
Proof.
  assert (∀ a outs, acceptor_wf a → (outs = [] ∨ ∃ sm, outs = [AccState sm]) →
    acceptor_wf (mark_processing a) ∧ acceptor_progress a (mark_processing a) outs) as Hmark.
  { intros b os Hb Ho. split.
    - eapply acceptor_wf_slots; [|done]. by rewrite mark_processing_slots.
    - apply acceptor_progress_slots; [|done]. by rewrite mark_processing_slots. }
  intros Hwf. destruct ev as [m|m|t|s| |]; cbn [acceptor_step].
  - intros Hrun. apply bind_Ok in Hrun as ([a1 o] & Hh & Hrun). injection Hrun as <- <-.
    unfold handlePrepare, handlePrep, handlePrepAr, handlePrepLr in Hh.
    destruct (a_mode a); [eapply prep_body_step, Hh; done| |eapply prep_body_step, Hh; done].
    case_bool_decide; [|eapply prep_body_step, Hh; done].
    injection Hh as <- <-. split; [done|]. apply acceptor_progress_slots; auto.
  - destruct (handleAccept gm a m) as [a1 o] eqn:Hh. intros Hrun. injection Hrun as <- <-.
    destruct (Hmark a [] Hwf (or_introl eq_refl)) as [Hwf' _].
    assert (∀ ev, let '(a', o) := handle_acc_body ev (mark_processing a) m in
      acceptor_wf a' ∧ acceptor_progress a a'
        match o with Some l => [AccSend (OBcast (MLearn l))] | None => [] end) as Hbody.
    { intros ev. pose proof (acc_body_step ev _ m Hwf') as Hb.
      destruct (handle_acc_body _ _ _). unfold acceptor_progress in *.
      by rewrite mark_processing_slots in Hb. }
    unfold handleAccept, handleAcc, handleAccAr, handleAccLr in Hh.
    destruct (a_mode a); repeat case_bool_decide; simplify_eq; try (by apply Hmark; auto);
      specialize (Hbody ltac:(match type of Hh with handle_acc_body ?e _ _ = _ => exact e end));
      by rewrite Hh in Hbody.
  - intros [= <- <-]. split; [by apply (acceptor_wf_slots a)|]. apply acceptor_progress_slots; auto.
  - intros Hrun. apply bind_Ok in Hrun as ([a1 sm] & Hh & Hrun). injection Hrun as <- <-.
    apply bind_Ok in Hh as (? & _ & Hh). injection Hh as <- <-.
    split; [by apply (acceptor_wf_slots a)|]. apply acceptor_progress_slots; eauto.
  - intros [= <- <-]. split; [done|]. apply acceptor_progress_slots; eauto.
  - intros [= <- <-]. split; [by apply (acceptor_wf_slots a)|]. apply acceptor_progress_slots; auto.
Qed.

(** A run of the acceptor: the group manager it reads may change between two
    events. *)
Definition acceptor_run (a : MultiAcceptor) (evs : list (G * AccEvent))
    : res (MultiAcceptor * list AccOut) :=
  foldM (λ '(a, outs) '(gm, ev), '(a, o) ← acceptor_step gm a ev; mret (a, outs ++ o))
    (a, []) evs.

(** The promises and votes of a run respect the order of rounds. *)
Definition outs_ordered (outs : list AccOut) : Prop :=
  ∀ n1 n2 l, (n1 < n2)%nat → outs !! n2 = Some (AccSend (OBcast (MLearn l))) →
    (∀ d p, outs !! n1 = Some (AccSend (OUcast d (MPromise p))) → prom_Rnd p ≼ lrn_Rnd l) ∧
    (∀ l', outs !! n1 = Some (AccSend (OBcast (MLearn l'))) →
       lrn_Slot l' = lrn_Slot l → lrn_Rnd l' ≺ lrn_Rnd l).

(** The run invariant: what was sent bounds the acceptor's state. *)
Definition run_inv (a : MultiAcceptor) (outs : list AccOut) : Prop :=
  acceptor_wf a ∧ outs_ordered outs ∧
  (∀ d p, AccSend (OUcast d (MPromise p)) ∈ outs → prom_Rnd p ≼ asm_Rnd (a_slots a)) ∧
  (∀ l, AccSend (OBcast (MLearn l)) ∈ outs →
     lrn_Rnd l ≼ as_VRnd (aslot (a_slots a) (lrn_Slot l))).

Lemma run_inv_step a a' outs o :
  run_inv a outs → acceptor_wf a' → acceptor_progress a a' o → run_inv a' (outs ++ o).
Proof.
  intros (Hwf & Hord & Hp & Hl) Hwf' (Hr & Hv & Ho). split; [done|].
  assert (o = [] ∨ ∃ x, o = [x]) as Hone by naive_solver.
  split_and!.
  - intros n1 n2 l Hn H2. destruct Hone as [->|[x ->]]; [rewrite app_nil_r in *; by apply (Hord n1 n2)|].
    assert (n1 < length outs)%nat as Hn1.
    { apply lookup_lt_Some in H2. rewrite length_app in H2. simpl in H2. lia. }
    rewrite lookup_app_l by done. apply lookup_snoc_Some in H2 as [[Hlt H2]|[-> ->]].
    { by apply (Hord n1 n2). }
    destruct Ho as [?|[[? ?]|[(?&?&?&_)|(l2 & Ho & Hle & Hlt & _)]]]; simplify_eq. split.
    + intros d p Hd%list_elem_of_lookup_2. eapply rle_trans; [by eapply Hp|done].
    + intros l' Hl'%list_elem_of_lookup_2 Heq. apply Hl in Hl'. rewrite Heq in Hl'.
      by eapply rle_rlt_trans.
  - intros d p [Hin|Hin]%elem_of_app; [eapply rle_trans; [by eapply Hp|done]|].
    destruct Ho as [->|[[? ->]|[(?&?&->&_&->)|(? & -> & _)]]];
      rewrite ?elem_of_nil, ?list_elem_of_singleton in Hin; try done; simplify_eq. apply rle_refl.
  - intros l [Hin|Hin]%elem_of_app; [eapply rle_trans; [by eapply Hl|done]|].
    destruct Ho as [->|[[? ->]|[(?&?&->&_)|(? & -> & _ & _ & Hs)]]];
      rewrite ?elem_of_nil, ?list_elem_of_singleton in Hin; try done; simplify_eq.
    rewrite Hs. apply rle_refl.
Qed.

(** An acceptor never goes back on a promise and casts at most one vote per
    slot and round: in every run of the event loop, whatever the mode, the
    messages and their order, a vote sent after a promise has a round at least
    the promised one, and two votes for a slot have increasing rounds. *)
Theorem acceptor_run_ordered (a a' : MultiAcceptor) (evs : list (G * AccEvent)) (outs : list AccOut) :
  acceptor_wf a → acceptor_run a evs = Ok (a', outs) →
  acceptor_wf a' ∧ outs_ordered outs.
Proof.
  intros Hwf Hrun. cut (run_inv a' outs); [by intros (? & ? & _)|].
  apply (foldM_inv (λ _ '(a, outs), run_inv a outs)) in Hrun; [done| |].
  - intros _ [gm ev] _ [b os] [b' os'] _ Hinv Hstep.
    apply bind_Ok in Hstep as ([b1 o1] & Hs & Heq). injection Heq as <- <-.
    destruct (acceptor_step_progress gm b ev b1 o1) as [? ?]; [apply Hinv|done|].
    by eapply run_inv_step.
  - split_and!; [done| |by intros ?? []%elem_of_nil|by intros ? []%elem_of_nil].
    intros n1 n2 l _ H2. by rewrite lookup_nil in H2.
Qed.

(** The regular prepare handler ignores a prepare that is not above its
    round and otherwise (unless the highest slot seen is the largest [uint])
    returns, adopts the round, keeps its votes, and answers the sender with a
    promise that reports every vote of a slot at or above the asked one;
    besides those votes the promise only holds zero slots. *)
Theorem handlePrep_spec (a : MultiAcceptor) (msg : Prepare) :
  acceptor_wf a → asm_MaxSeen (a_slots a) < 2 ^ 64 - 1 →
  if bool_decide (Compare (prep_CRnd msg) (asm_Rnd (a_slots a)) = 1) then
    ∃ a' p, handlePrep a msg = Ok (a', Some (p, prep_ID msg)) ∧
      prom_ID p = a_id a ∧ prom_Rnd p = prep_CRnd msg ∧ asm_Rnd (a_slots a') = prep_CRnd msg ∧
      (∀ i, aslot (a_slots a') i = aslot (a_slots a) i) ∧
      (∀ i, prep_Slot msg ≤ i → voted (aslot (a_slots a) i) →
         aslot (a_slots a) i ∈ prom_AccSlots p) ∧
      (∀ s, s ∈ prom_AccSlots p → s = zero_aslot ∨
         (prep_Slot msg ≤ as_ID s ∧ voted s ∧ s = aslot (a_slots a) (as_ID s)))
  else handlePrep a msg = Ok (a, None).
Proof.
  intros [W1 W2 W3] Hmax. pose proof (handle_prep_body_total [] a msg Hmax) as Htot.
  pose proof (handle_prep_body_Ok [] a msg) as Hcases. unfold handlePrep.
  destruct (handle_prep_body [] a msg) as [[a' o]| |]; [|done..].
  destruct (Hcases a' o eq_refl) as [(Hle & -> & ->)|(Hlt & -> & sm & -> & Hsm)].
  - rewrite bool_decide_eq_false_2; [done|]. rewrite Compare_gt. by apply rle_not_rlt.
  - rewrite bool_decide_eq_true_2 by by apply Compare_gt.
    eexists _, _. split; [done|]. cbn. rewrite Hsm. split_and!; [done..| | |].
    + intros i. by rewrite Hsm.
    + intros i Hi Hv. apply elem_of_app. right. apply elem_of_votes_between.
      exists i. split_and!; [done|by apply W3|done|done].
    + intros s [Hs|Hs]%elem_of_app; [left; by eapply elem_of_promise_prefix|].
      apply elem_of_votes_between in Hs as (i & Hi & -> & Hv). right. rewrite !W1. auto with lia.
Qed.

End multi_acceptor.

(** * Witnesses *)

Section witnesses.

Definition ex_acceptor : MultiAcceptor := NewMultiAcceptor (ex_gm 1) (ex_id 1) true (ex_id 0) 1.

Lemma ex_acceptor_wf : acceptor_wf ex_acceptor.
Proof.
  assert (∀ i, aslot (a_slots ex_acceptor) i = new_aslot i) as Hs.
  { intros i. unfold aslot. cbn. by rewrite lookup_empty. }
  split; intros i; rewrite ?Hs; [done|by left|by intros []%rlt_irrefl].
Qed.

Definition ex_acc_events : list (GrpMgr * AccEvent) :=
  [(ex_gm 1, AccPrepare (mkPrepare (ex_id 0) (ex_rnd 2 0) 0));
   (ex_gm 1, AccAccept (mkAccept (ex_id 0) 1 (ex_rnd 2 0) (ex_val 7)));
   (ex_gm 1, AccPrepare (mkPrepare (ex_id 2) (ex_rnd 2 2) 0));
   (ex_gm 1, AccAccept (mkAccept (ex_id 0) 2 (ex_rnd 2 0) (ex_val 8)));
   (ex_gm 1, AccAccept (mkAccept (ex_id 2) 1 (ex_rnd 2 2) (ex_val 7)))].

Lemma acceptor_run_ordered_witness :
  match acceptor_run ex_acceptor ex_acc_events with
  | Ok (a, outs) => acceptor_wf a ∧ outs_ordered outs ∧ length outs = 4%nat
  | _ => False
  end.
Proof.
  destruct (acceptor_run ex_acceptor ex_acc_events) as [[a outs]| |] eqn:E;
    [|by vm_compute in E..].
  destruct (acceptor_run_ordered _ _ _ _ ex_acceptor_wf E) as [Hwf Hord].
  split; [exact Hwf|]. split; [exact Hord|]. vm_compute in E. by injection E as _ <-.
Defined.

Lemma handlePrep_spec_witness :
  ∃ a' p, handlePrep ex_acceptor (mkPrepare (ex_id 0) (ex_rnd 2 0) 0) = Ok (a', Some (p, ex_id 0)) ∧
    prom_Rnd p = ex_rnd 2 0.
Proof.
  pose proof (handlePrep_spec ex_acceptor (mkPrepare (ex_id 0) (ex_rnd 2 0) 0)
    ex_acceptor_wf ltac:(by vm_compute)) as H.
  change (bool_decide _) with true in H. cbn iota in H.
  destruct H as (a' & p & H1 & _ & H2 & _). exists a', p. split; [exact H1|exact H2].
Defined.

End witnesses.
