(* ===== verification/MultiProposer.v ===== *)
(** The MultiPaxos proposer (src/multipaxos/proposer.go): phase 1 with and
    without live replacement, phase 2 with its alpha window, resends, and the
    body of its event loop. *)
From S2P Require Import Prelude Grp PaxosTypes Combinations.

(** * State *)

Record MultiProposer := mkMultiProposer {
  p_id : ID;
  p_startable : bool;
  p_started : bool;
  p_leader : ID;
  p_alpha : Z;
  p_crnd : ProposerRound;
  p_nextSlot : SlotID;
  p_adu : SlotID;
  p_slots : ProposerSlotMap;
  p_reqQueue : list Value;
  p_lr : bool; (* which of the two promise handlers is installed *)
  p_phaseOneVQCheck : bool;
  p_phaseOnePromises : list (option Promise);
  p_phaseOneRecvFrom : gset ID;
  p_phaseOneCount : Z;
  p_phaseOneDone : bool;
}.
#[export] Instance eta_MultiProposer : Eta MultiProposer := λ r,
  mkMultiProposer (p_id r) (p_startable r) (p_started r) (p_leader r) (p_alpha r) (p_crnd r)
    (p_nextSlot r) (p_adu r) (p_slots r) (p_reqQueue r) (p_lr r) (p_phaseOneVQCheck r)
    (p_phaseOnePromises r) (p_phaseOneRecvFrom r) (p_phaseOneCount r) (p_phaseOneDone r).

Definition resendsBeforeRestartingPhaseOne : Z := 10.

(** The effects of a step: a broadcast, or the restart of one of the timers. *)
Inductive PropOut :=
| PropSend (o : Out)
| PropTimer1
| PropTimer2.

Inductive PropEvent :=
| PropNewDcd
| PropValue (val : Value)
| PropTrust (trustID : ID)
| PropPromise (m : Promise)
| PropTimeout1
| PropTimeout2
| PropHold
| PropStop.

Section multi_proposer.
Context {G : Type} `{GroupManager G}.
Implicit Types (p : MultiProposer) (gm : G).

Definition NewMultiProposer gm (id : ID) (runProp : bool) (leader : ID) (alpha : Z)
    (firstSlot : SlotID) : MultiProposer :=
  {| p_id := id; p_startable := runProp; p_started := false; p_leader := leader;
     p_alpha := u64 alpha; p_crnd := NewProposerRound id; p_nextSlot := firstSlot;
     p_adu := u64 (firstSlot - 1); p_slots := NewProposerSlotMap; p_reqQueue := [];
     p_lr := gm_LrEnabled gm; p_phaseOneVQCheck := false; p_phaseOnePromises := [];
     p_phaseOneRecvFrom := ∅; p_phaseOneCount := 0; p_phaseOneDone := false |}.

(** * Phase 1: common methods *)

Definition resetPhaseOneData gm p : MultiProposer :=
  let p := p <| p_phaseOneDone := false |> <| p_phaseOneCount := 0 |> in
  if gm_LrEnabled gm then
    p <| p_phaseOneVQCheck := false |>
      <| p_phaseOnePromises := [] |>
      <| p_phaseOneRecvFrom := ∅ |>
  else p <| p_phaseOnePromises := nils (gm_NrOfNodes gm) |>.

Definition resetSentCountersInAlphaWindow p : MultiProposer :=
  foldl (λ p i,
      let '(slot, sm) := ProposerSlotMap_GetSlot (p_slots p) i in
      p <| p_slots := put_pslot i (slot <| ps_SentCount := 0 |>) sm |>)
    p (range (u64 (p_adu p + 1)) (p_nextSlot p)).

Definition updateStatePrePhaseOne gm (clearRequestQueue : bool) p : MultiProposer :=
  let p := resetPhaseOneData gm p in
  let p := resetSentCountersInAlphaWindow p in
  let p := p <| p_crnd ::= Next |> in
  if clearRequestQueue then p <| p_reqQueue := [] |> else p.

Definition startPhaseOne gm (clearRequestQueue : bool) p : MultiProposer * list PropOut :=
  let p := updateStatePrePhaseOne gm clearRequestQueue p in
  (p, [PropSend (OBcast (MPrepare {| prep_ID := p_id p; prep_CRnd := p_crnd p;
                                     prep_Slot := p_adu p |}));
       PropTimer1]).

(** One reported slot of a promise. *)
Definition set_proposal p (accSlot : AcceptorSlot) : MultiProposer :=
  if bool_decide (as_ID accSlot <= p_adu p) then p
  else
    let '(slot, sm) := ProposerSlotMap_GetSlot (p_slots p) (as_ID accSlot) in
    let proposal := {| acc_ID := mkID 0 0; acc_Slot := 0; acc_Rnd := as_VRnd accSlot;
                       acc_Val := as_VVal accSlot |} in
    match ps_Proposal slot with
    | None => p <| p_slots := put_pslot (as_ID accSlot) (slot <| ps_Proposal := Some proposal |>) sm |>
    | Some old =>
        if bool_decide (Compare (acc_Rnd old) (as_VRnd accSlot) >= 0) then p <| p_slots := sm |>
        else p <| p_slots := put_pslot (as_ID accSlot) (slot <| ps_Proposal := Some proposal |>) sm |>
    end.

Definition setStateFromPromise p (promise : Promise) : MultiProposer :=
  foldl set_proposal p (prom_AccSlots promise).

Definition setStateFromPromises p : MultiProposer :=
  foldl (λ p promise, match promise with
                      | Some promise => setStateFromPromise p promise
                      | None => p
                      end) p (p_phaseOnePromises p).

(** * Phase 1: handling promises *)

Definition handleProm gm p (msg : Promise) : res (MultiProposer * bool) :=
  if p_phaseOneDone p then Ok (p, false)
  else if bool_decide (Compare (p_crnd p) (prom_Rnd msg) ≠ 0) then Ok (p, false)
  else
    old ← slice_get (p_phaseOnePromises p) (PxInt (prom_ID msg));
    if bool_decide (old ≠ None) then Ok (p, false)
    else
      ps ← slice_set (p_phaseOnePromises p) (PxInt (prom_ID msg)) (Some msg);
      let p := p <| p_phaseOnePromises := ps |> <| p_phaseOneCount ::= λ c, u64 (c + 1) |> in
      if bool_decide (p_phaseOneCount p < gm_Quorum gm) then mret (p, false)
      else mret (p, true).

Definition handlePromLr gm p (msg : Promise) : res (MultiProposer * bool) :=
  if p_phaseOneDone p then Ok (p, false)
  else if bool_decide (Compare (p_crnd p) (prom_Rnd msg) ≠ 0) then Ok (p, false)
  else if bool_decide (prom_ID msg ∈ p_phaseOneRecvFrom p) then Ok (p, false)
  else
    let p := p <| p_phaseOnePromises ::= λ ps, ps ++ [Some msg] |>
               <| p_phaseOneCount ::= λ c, u64 (c + 1) |> in
    let p := if negb (p_phaseOneVQCheck p) && negb (EpochSlicesEqual (prom_EpochVector msg) (gm_Epochs gm))
             then p <| p_phaseOneVQCheck := true |> else p in
    if bool_decide (p_phaseOneCount p < gm_Quorum gm) then mret (p, false)
    else if negb (p_phaseOneVQCheck p) then mret (p, true)
    else
      (* every entry was appended as a non-nil pointer *)
      msgs ← mapM (from_option Ok Panic) (p_phaseOnePromises p);
      '(vq, vqmsgsidx) ← extractVqPromises msgs (gm_Quorum gm);
      if negb vq then mret (p, false)
      else if bool_decide (length vqmsgsidx = length (p_phaseOnePromises p)) then mret (p, true)
      else
        onlyValidPromises ← mapM (slice_get (p_phaseOnePromises p)) vqmsgsidx;
        mret (p <| p_phaseOnePromises := onlyValidPromises |>, true).

Definition handlePromise gm p (msg : Promise) : res (MultiProposer * bool) :=
  if p_lr p then handlePromLr gm p msg else handleProm gm p msg.

(** * Phase 2: sending accepts *)

Definition inAlphaRange (nextSlot adu : SlotID) (alpha : Z) : bool :=
  bool_decide (nextSlot <= u64 (adu + alpha)).

(** [genAccept] on the slot [ns] that [GetSlot(nextSlot)] returned: the accept
    for the proposal the slot already has, or for the first queued value. *)
Definition genAccept p (ns : ProposerSlot) : option (Accept * ProposerSlot * list Value) :=
  match (match ps_Proposal ns with
         | Some acc => Some (acc_Val acc, p_reqQueue p)
         | None => match p_reqQueue p with
                   | [] => None
                   | v :: q => Some (v, q)
                   end
         end) with
  | None => None
  | Some (val, q) =>
      let accept := {| acc_ID := p_id p; acc_Rnd := p_crnd p; acc_Slot := ps_ID ns; acc_Val := val |} in
      Some (accept, ns <| ps_Proposal := Some accept |>, q)
  end.

Fixpoint send_accept_loop (fuel : nat) p (outs : list PropOut) : res (MultiProposer * list PropOut) :=
  match fuel with
  | O => Diverge
  | S fuel =>
      if negb (inAlphaRange (p_nextSlot p) (p_adu p) (p_alpha p)) then Ok (p, outs)
      else
        let '(ns, sm) := ProposerSlotMap_GetSlot (p_slots p) (p_nextSlot p) in
        let p := p <| p_slots := sm |> in
        match genAccept p ns with
        | None => Ok (p, outs)
        | Some (acc, ns, q) =>
            let p := p <| p_slots ::= put_pslot (p_nextSlot p) ns |> <| p_reqQueue := q |>
                       <| p_nextSlot ::= λ s, u64 (s + 1) |> in
            send_accept_loop fuel p (outs ++ [PropSend (OBcast (MAccept acc)); PropTimer2])
        end
  end.

(** Every iteration advances [nextSlot] towards [adu + alpha]. *)
Definition send_accept_fuel p : nat :=
  S (Z.to_nat (u64 (p_adu p + p_alpha p) + 1 - p_nextSlot p)).

Definition sendAccept p : res (MultiProposer * list PropOut) :=
  send_accept_loop (send_accept_fuel p) p [].

Definition advanceAdu p : MultiProposer := p <| p_adu ::= λ s, u64 (s + 1) |>.

Definition isLeaderAndPhaseOneComplete p : bool :=
  bool_decide (p_leader p = p_id p) && p_phaseOneDone p.

(** * Resending accepts *)

Definition hasReachedResendThreshold p (slot : SlotID) : bool * MultiProposer :=
  let '(s, sm) := ProposerSlotMap_GetSlot (p_slots p) slot in
  (bool_decide (ps_SentCount s >= resendsBeforeRestartingPhaseOne), p <| p_slots := sm |>).

Definition incrementSentCountFor p (slot : SlotID) : MultiProposer :=
  let '(s, sm) := ProposerSlotMap_GetSlot (p_slots p) slot in
  p <| p_slots := put_pslot slot (s <| ps_SentCount ::= λ c, u8 (c + 1) |>) sm |>.

Definition resendAccept gm p (acc : option Accept) : MultiProposer * list PropOut :=
  match acc with
  | None => (p, [])
  | Some acc =>
      let '(reached, p) := hasReachedResendThreshold p (acc_Slot acc) in
      if reached : bool then startPhaseOne gm false p
      else
        (incrementSentCountFor p (acc_Slot acc), [PropSend (OBcastPtr (MAccept acc)); PropTimer2])
  end.

Definition resendAcceptsIfNecessary gm p : MultiProposer * list PropOut :=
  if negb (isLeaderAndPhaseOneComplete p) then (p, [])
  else
    foldl (λ '(p, outs) i,
        let '(slot, sm) := ProposerSlotMap_GetSlot (p_slots p) i in
        let p := p <| p_slots := sm |> in
        let '(p, o) := resendAccept gm p (ps_Proposal slot) in (p, outs ++ o))
      (p, []) (range (u64 (p_adu p + 1)) (p_nextSlot p)).

(** * Utilities *)

Definition SetNextSlot p (ns : SlotID) : MultiProposer :=
  let ns := if bool_decide (p_nextSlot p > u64 (ns + p_alpha p))
            then u64 (p_nextSlot p - p_alpha p) else ns in
  p <| p_nextSlot := ns |>.

Definition proposer_handleGrpHold gm p : MultiProposer :=
  let p := if bool_decide (p_leader p = p_id p) then
             let p := p <| p_id := gm_GetID gm |> in p <| p_leader := p_id p |>
           else p <| p_id := gm_GetID gm |> in
  p <| p_crnd ::= λ r, SetOwner r (p_id p) |>.

(** * The event loop *)

(** Whether [Start] launches the event loop; it leaves [started] as it is. *)
Definition proposer_start p : bool := negb (negb (p_startable p) || p_started p).

Definition proposer_step gm p (ev : PropEvent) : res (MultiProposer * list PropOut) :=
  match ev with
  | PropNewDcd =>
      let p := advanceAdu p in
      if negb (isLeaderAndPhaseOneComplete p) then mret (p, [PropTimer2])
      else '(p, outs) ← sendAccept p; mret (p, PropTimer2 :: outs)
  | PropValue val =>
      if bool_decide (p_leader p ≠ p_id p) then mret (p, [])
      else
        let p := p <| p_reqQueue ::= λ q, q ++ [val] |> in
        if p_phaseOneDone p then sendAccept p else mret (p, [])
  | PropTrust trustID =>
      if bool_decide (p_leader p = trustID) then mret (p, [])
      else
        let p := p <| p_leader := trustID |> in
        if bool_decide (p_leader p ≠ p_id p) then mret (p, [])
        else mret (startPhaseOne gm true p)
  | PropPromise promise =>
      '(p, quorum) ← handlePromise gm p promise;
      if negb quorum then mret (p, [])
      else
        let p := setStateFromPromises p in
        let p := p <| p_phaseOneDone := true |> in
        let p := p <| p_nextSlot := u64 (p_adu p + 1) |> in
        sendAccept p
  | PropTimeout1 =>
      if bool_decide (p_leader p ≠ p_id p) || p_phaseOneDone p then mret (p, [])
      else mret (startPhaseOne gm true p)
  | PropTimeout2 => mret (resendAcceptsIfNecessary gm p)
  | PropHold => mret (proposer_handleGrpHold gm p, [])
  | PropStop => mret (p <| p_started := false |>, [])
  end.

(** * The view of the slots *)

(** The proposal the proposer holds for a slot. *)
Definition prop_at p (s : SlotID) : option Accept := ps_Proposal (pslot (p_slots p) s).
Definition slot_ids_ok p : Prop := ∀ s, ps_ID (pslot (p_slots p) s) = s.

(** [p'] differs from [p] in its slots and counters only, and has the same
    proposals. *)
Definition same_proposals p p' : Prop :=
  (∀ s, prop_at p' s = prop_at p s) ∧ (slot_ids_ok p → slot_ids_ok p').

Lemma same_proposals_refl p : same_proposals p p.
Proof. by split. Qed.
Lemma same_proposals_trans p1 p2 p3 :
  same_proposals p1 p2 → same_proposals p2 p3 → same_proposals p1 p3.
Proof. intros [H1 H2] [H3 H4]. split; [intros s; by rewrite H3|auto]. Qed.

Lemma same_proposals_GetSlot p s :
  same_proposals p (p <| p_slots := (ProposerSlotMap_GetSlot (p_slots p) s).2 |>).
Proof.
  unfold same_proposals, prop_at, slot_ids_ok. cbn. split.
  - intros j. by rewrite pslot_GetSlot.
  - intros Hi j. by rewrite pslot_GetSlot.
Qed.

Lemma same_proposals_put p s slot sm :
  (∀ j, pslot sm j = pslot (p_slots p) j) →
  ps_Proposal slot = prop_at p s → ps_ID slot = ps_ID (pslot (p_slots p) s) →
  same_proposals p (p <| p_slots := put_pslot s slot sm |>).
Proof.
  intros Hv Hp Hi. unfold same_proposals, prop_at, slot_ids_ok in *. cbn. split.
  - intros j. rewrite pslot_put. case_decide; [by subst|by rewrite Hv].
  - intros Hids j. rewrite pslot_put. case_decide; [subst; by rewrite Hi|by rewrite Hv].
Qed.

(** The fields phase 2 and the resends leave alone. *)
Definition frame p p' : Prop :=
  p_id p' = p_id p ∧ p_leader p' = p_leader p ∧ p_alpha p' = p_alpha p ∧
  p_adu p' = p_adu p ∧ p_nextSlot p' = p_nextSlot p ∧ p_lr p' = p_lr p ∧
  p_phaseOneDone p' = p_phaseOneDone p ∧ p_crnd p' = p_crnd p ∧
  p_phaseOnePromises p' = p_phaseOnePromises p ∧ p_phaseOneCount p' = p_phaseOneCount p.

Lemma resetSent_spec p :
  let p' := resetSentCountersInAlphaWindow p in
  frame p p' ∧ same_proposals p p' ∧ p_reqQueue p' = p_reqQueue p.
Proof.
  unfold resetSentCountersInAlphaWindow. cbn zeta.
  apply (foldl_inv (λ _ p', frame p p' ∧ same_proposals p p' ∧ p_reqQueue p' = p_reqQueue p)).
  - intros _ i _ q _ (Hf & Hs & Hq). get_slot. split; [exact Hf|]. split; [|exact Hq].
    eapply same_proposals_trans; [exact Hs|]. apply same_proposals_put; [|done..].
    intros j. apply pslot_GetSlot.
  - split; [by split_and!|]. split; [apply same_proposals_refl|done].
Qed.

(** Starting phase 1 moves to the next round with no promise counted; the
    proposals, the window and the decided prefix stay. *)
Definition phase_one_started gm p p' : Prop :=
  p_id p' = p_id p ∧ p_leader p' = p_leader p ∧ p_alpha p' = p_alpha p ∧
  p_adu p' = p_adu p ∧ p_nextSlot p' = p_nextSlot p ∧ p_lr p' = p_lr p ∧
  p_phaseOneDone p' = false ∧ p_crnd p' = Next (p_crnd p) ∧ p_phaseOneCount p' = 0 ∧
  p_phaseOnePromises p' = (if gm_LrEnabled gm then [] else nils (gm_NrOfNodes gm)) ∧
  p_reqQueue p' ⊆ p_reqQueue p ∧ same_proposals p p'.

Lemma startPhaseOne_spec gm b p :
  let '(p', outs) := startPhaseOne gm b p in
  phase_one_started gm p p' ∧
  outs = [PropSend (OBcast (MPrepare (mkPrepare (p_id p) (Next (p_crnd p)) (p_adu p)))); PropTimer1].
Proof.
  unfold startPhaseOne, updateStatePrePhaseOne.
  pose proof (resetSent_spec (resetPhaseOneData gm p)) as
    ((F1 & F2 & F3 & F4 & F5 & F6 & F7 & F8 & F9 & F10) & [Hs Hids] & Hqueue).
  assert (same_proposals p (resetPhaseOneData gm p)) as Hsame
    by (unfold resetPhaseOneData; by destruct (gm_LrEnabled gm)).
  assert (p_reqQueue (resetPhaseOneData gm p) = p_reqQueue p) as Hq
    by (unfold resetPhaseOneData; by destruct (gm_LrEnabled gm)).
  unfold phase_one_started. split_and!.
  11: { destruct b; cbn; [set_solver|]. by rewrite Hqueue, Hq. }
  11: { unfold same_proposals, prop_at, slot_ids_ok in *.
    destruct Hsame as [Hs1 Hi1]. destruct b; cbn; (split; [intros s; by rewrite Hs|auto]). }
  all: destruct b; cbn; rewrite ?F1, ?F2, ?F3, ?F4, ?F5, ?F6, ?F7, ?F8, ?F9, ?F10;
    unfold resetPhaseOneData; by destruct (gm_LrEnabled gm).
Qed.

(** * Choosing the value of a slot from the promises *)

(** The candidates for a slot: the proposal already held and the votes the
    promises report, in the order they are examined. *)
Definition cand p (s : SlotID) : list (ProposerRound * Value) :=
  match prop_at p s with Some a => [(acc_Rnd a, acc_Val a)] | None => [] end.
Definition reported (s : SlotID) (l : list AcceptorSlot) : list (ProposerRound * Value) :=
  (λ a, (as_VRnd a, as_VVal a)) <$> filter (λ a, as_ID a = s) l.
Definition all_slots (ps : list (option Promise)) : list AcceptorSlot :=
  mjoin ((λ o, match o with Some m => prom_AccSlots m | None => [] end) <$> ps).

(** [o] holds a candidate of the highest round, or there is none. *)
Definition highest (cs : list (ProposerRound * Value)) (o : option Accept) : Prop :=
  match o with
  | None => cs = []
  | Some a => (acc_Rnd a, acc_Val a) ∈ cs ∧ ∀ r v, (r, v) ∈ cs → r ≼ acc_Rnd a
  end.

Lemma highest_snoc cs o r v o' :
  highest cs o →
  (match o with
   | None => ∃ a, o' = Some a ∧ acc_Rnd a = r ∧ acc_Val a = v
   | Some a => (r ≼ acc_Rnd a ∧ o' = o) ∨
       (acc_Rnd a ≺ r ∧ ∃ a', o' = Some a' ∧ acc_Rnd a' = r ∧ acc_Val a' = v)
   end) → highest (cs ++ [(r, v)]) o'.
Proof.
  destruct o as [a|]; cbn.
  - intros [Hin Hmax] [[Hle ->]|(Hlt & a' & -> & <- & <-)]; cbn;
      (split; [rewrite elem_of_app, ?list_elem_of_singleton; by auto|]);
      intros r' v' [H'|H']%elem_of_app.
    + by eapply Hmax.
    + apply list_elem_of_singleton in H'. by simplify_eq.
    + right. eapply rle_rlt_trans; [by eapply Hmax|done].
    + apply list_elem_of_singleton in H'. simplify_eq. apply rle_refl.
  - intros -> (a & -> & <- & <-). cbn. split; [set_solver|].
    intros r' v' H'%list_elem_of_singleton. simplify_eq. apply rle_refl.
Qed.

Lemma set_proposal_frame p a :
  frame p (set_proposal p a) ∧ p_reqQueue (set_proposal p a) = p_reqQueue p ∧
  (slot_ids_ok p → slot_ids_ok (set_proposal p a)).
Proof.
  unfold set_proposal. case_bool_decide; [by split_and!|]. get_slot.
  destruct (ps_Proposal _); [case_bool_decide|]; (split; [by split_and!|]); (split; [done|]);
    unfold slot_ids_ok; cbn; intros Hi j; rewrite ?pslot_put, ?pslot_GetSlot;
    [done|case_decide; subst; cbn; rewrite ?pslot_GetSlot; auto..].
Qed.

Lemma set_proposal_at p a s :
  prop_at (set_proposal p a) s =
  if decide (as_ID a = s ∧ p_adu p < s) then
    match prop_at p s with
    | Some old => if decide (as_VRnd a ≼ acc_Rnd old) then Some old
                  else Some (mkAccept (mkID 0 0) 0 (as_VRnd a) (as_VVal a))
    | None => Some (mkAccept (mkID 0 0) 0 (as_VRnd a) (as_VVal a))
    end
  else prop_at p s.
Proof.
  unfold set_proposal. case_bool_decide as Hle.
  { rewrite decide_False; [done|]. lia. }
  get_slot. destruct (decide (as_ID a = s)) as [<-|Hne].
  - rewrite (decide_True (P := _ ∧ _)) by (split; [done|lia]). unfold prop_at.
    destruct (ps_Proposal (pslot (p_slots p) (as_ID a))) as [old|] eqn:E.
    + case_bool_decide as Hc; rewrite Compare_ge in Hc.
      * rewrite decide_True by done. cbn. by rewrite pslot_GetSlot, E.
      * rewrite decide_False by done. cbn. by rewrite pslot_put, decide_True by done.
    + cbn. by rewrite pslot_put, decide_True by done.
  - rewrite (decide_False (P := _ ∧ _)) by naive_solver. unfold prop_at.
    destruct (ps_Proposal (pslot (p_slots p) (as_ID a))); [case_bool_decide|]; cbn;
      rewrite ?pslot_put, ?(decide_False (P := s = _)) by done; by rewrite pslot_GetSlot.
Qed.

Lemma set_proposals_spec l p :
  let p' := foldl set_proposal p l in
  frame p p' ∧ p_reqQueue p' = p_reqQueue p ∧ (slot_ids_ok p → slot_ids_ok p') ∧
  ∀ s, if decide (p_adu p < s) then highest (cand p s ++ reported s l) (prop_at p' s)
       else prop_at p' s = prop_at p s.
Proof.
  cbn zeta.
  induction l as [|a l (IHf & IHq & IHi & IHs)] using rev_ind.
  { split_and!; try done. intros s. case_decide; [|done]. cbn. rewrite app_nil_r.
    unfold cand, highest. destruct (prop_at p s); [|done]. split; [set_solver|].
    intros r v H'%list_elem_of_singleton. simplify_eq. apply rle_refl. }
  rewrite foldl_app. cbn [foldl]. set (q := foldl set_proposal p l) in *.
  destruct (set_proposal_frame q a) as (Hf & Hq & Hi).
  assert (p_adu q = p_adu p) as Hadu by apply IHf.
  split_and!; [|congruence|auto|].
  { unfold frame in *. naive_solver congruence. }
  intros s. specialize (IHs s). rewrite set_proposal_at, Hadu.
  unfold reported in *. rewrite filter_app, filter_cons, filter_nil, fmap_app.
  destruct (decide (p_adu p < s)) as [Hs|Hs].
  - destruct (decide (as_ID a = s)) as [<-|Hne].
    + rewrite (decide_True (P := _ ∧ _)) by done. rewrite app_assoc. cbn.
      eapply highest_snoc; [exact IHs|].
      destruct (prop_at q (as_ID a)) as [old|]; [|eexists; split; [done|]; done].
      case_decide as Hc; [by left|]. right. split; [by apply rlt_not_rle|].
      eexists. split; [done|]. done.
    + rewrite (decide_False (P := _ ∧ _)) by naive_solver. cbn. by rewrite app_nil_r.
  - rewrite (decide_False (P := _ ∧ _)) by naive_solver. done.
Qed.

Lemma setStateFromPromises_fold p :
  setStateFromPromises p = foldl set_proposal p (all_slots (p_phaseOnePromises p)).
Proof.
  unfold setStateFromPromises, all_slots. generalize (p_phaseOnePromises p) as ps. intros ps.
  revert p. induction ps as [|[m|] ps IH]; intros p; cbn; [done| |apply IH].
  rewrite foldl_app. apply IH.
Qed.

(** C8: completing phase 1 selects, for every slot above the decided prefix, a
    value of the highest round among the votes the promises report and the
    proposal the proposer already holds; a slot without any stays free, and no
    other part of the state changes. *)
Theorem setStateFromPromises_highest (p : MultiProposer) (s : SlotID) :
  let p' := setStateFromPromises p in
  frame p p' ∧ p_reqQueue p' = p_reqQueue p ∧
  if decide (p_adu p < s)
  then highest (cand p s ++ reported s (all_slots (p_phaseOnePromises p))) (prop_at p' s)
  else prop_at p' s = prop_at p s.
Proof.
  cbn zeta. rewrite setStateFromPromises_fold.
  destruct (set_proposals_spec (all_slots (p_phaseOnePromises p)) p) as (H1 & H2 & _ & H3).
  split; [exact H1|]. split; [exact H2|]. apply H3.
Qed.

(** * Phase 2 *)

(** One iteration of the loop of [sendAccept]. *)
Definition send_one p (a : Accept) p' : Prop :=
  p_nextSlot p ≤ u64 (p_adu p + p_alpha p) ∧
  a = mkAccept (p_id p) (ps_ID (pslot (p_slots p) (p_nextSlot p))) (p_crnd p) (acc_Val a) ∧
  match prop_at p (p_nextSlot p) with
  | Some a0 => acc_Val a = acc_Val a0 ∧ p_reqQueue p' = p_reqQueue p
  | None => p_reqQueue p = acc_Val a :: p_reqQueue p'
  end ∧
  frame (p <| p_nextSlot := u64 (p_nextSlot p + 1) |>) p' ∧
  (∀ s, prop_at p' s = if decide (s = p_nextSlot p) then Some a else prop_at p s) ∧
  (slot_ids_ok p → slot_ids_ok p').

(** The loop has nothing left to send. *)
Definition send_stopped p : Prop :=
  u64 (p_adu p + p_alpha p) < p_nextSlot p ∨ (prop_at p (p_nextSlot p) = None ∧ p_reqQueue p = []).

Inductive sends : MultiProposer → list Accept → MultiProposer → Prop :=
| sends_nil p p' : frame p p' → same_proposals p p' → p_reqQueue p' = p_reqQueue p →
    send_stopped p' → sends p [] p'
| sends_cons p a p1 accs p' : send_one p a p1 → sends p1 accs p' → sends p (a :: accs) p'.

Definition accept_outs (accs : list Accept) : list PropOut :=
  mjoin ((λ a, [PropSend (OBcast (MAccept a)); PropTimer2]) <$> accs).

Lemma send_accept_iter p :
  let sm := (ProposerSlotMap_GetSlot (p_slots p) (p_nextSlot p)).2 in
  match genAccept (p <| p_slots := sm |>) (pslot (p_slots p) (p_nextSlot p)) with
  | None => prop_at p (p_nextSlot p) = None ∧ p_reqQueue p = []
  | Some (a, ns, q) =>
      p_nextSlot p ≤ u64 (p_adu p + p_alpha p) →
      send_one p a (p <| p_slots := put_pslot (p_nextSlot p) ns sm |> <| p_reqQueue := q |>
                      <| p_nextSlot := u64 (p_nextSlot p + 1) |>)
  end.
Proof.
  cbn zeta. unfold genAccept. cbn [p_reqQueue update p_id p_crnd].
  assert (∀ q ns, ps_ID ns = ps_ID (pslot (p_slots p) (p_nextSlot p)) →
    (∀ s, prop_at (p <| p_slots := put_pslot (p_nextSlot p) ns
         (ProposerSlotMap_GetSlot (p_slots p) (p_nextSlot p)).2 |> <| p_reqQueue := q |>
         <| p_nextSlot := u64 (p_nextSlot p + 1) |>) s
       = if decide (s = p_nextSlot p) then ps_Proposal ns else prop_at p s) ∧
    (slot_ids_ok p → slot_ids_ok (p <| p_slots := put_pslot (p_nextSlot p) ns
         (ProposerSlotMap_GetSlot (p_slots p) (p_nextSlot p)).2 |> <| p_reqQueue := q |>
         <| p_nextSlot := u64 (p_nextSlot p + 1) |>))) as Hput.
  { intros q ns Hid. unfold prop_at, slot_ids_ok. cbn. split.
    - intros s. rewrite pslot_put, pslot_GetSlot. by case_decide.
    - intros Hids s. rewrite pslot_put, pslot_GetSlot. case_decide; [subst; by rewrite Hid|auto]. }
  fold (prop_at p (p_nextSlot p)).
  destruct (prop_at p (p_nextSlot p)) as [a0|] eqn:E; [|destruct (p_reqQueue p) as [|v q] eqn:Eq];
    try done; intros Hwin; unfold send_one; rewrite E; cbn;
    (split; [done|]); (split; [done|]); (split; [done|]); (split; [by split_and!|]);
    split; intros; by apply Hput.
Qed.

Lemma send_accept_loop_Ok fuel : ∀ p outs p' outs',
  send_accept_loop fuel p outs = Ok (p', outs') →
  ∃ accs, sends p accs p' ∧ outs' = outs ++ accept_outs accs.
Proof.
  induction fuel as [|fuel IH]; intros p outs p' outs' Hrun; [done|]. cbn [send_accept_loop] in Hrun.
  unfold inAlphaRange in Hrun. case_bool_decide as Hwin; cbn [negb] in Hrun.
  - rewrite ProposerSlotMap_GetSlot_eq in Hrun. pose proof (send_accept_iter p) as Hit.
    cbn zeta in Hit, Hrun.
    destruct (genAccept _ _) as [[[a ns] q]|].
    + apply IH in Hrun as (accs & Hs & ->). exists (a :: accs).
      split; [eapply sends_cons; [by apply Hit|exact Hs]|]. by rewrite <- app_assoc.
    + injection Hrun as <- <-. exists []. split; [|by rewrite app_nil_r].
      pose proof (same_proposals_GetSlot p (p_nextSlot p)) as [Hsame Hids].
      apply sends_nil; [by split_and!|done|done|]. right. by rewrite Hsame.
  - injection Hrun as <- <-. exists []. split; [|by rewrite app_nil_r].
    apply sends_nil; [by split_and!|apply same_proposals_refl|done|]. left. lia.
Qed.

Lemma sendAccept_Ok p p' outs :
  sendAccept p = Ok (p', outs) → ∃ accs, sends p accs p' ∧ outs = accept_outs accs.
Proof. intros (accs & ? & ->)%send_accept_loop_Ok. by exists accs. Qed.

(** The window of a proposer whose slot counters do not reach the end of
    [uint]. *)
Definition window_nowrap p : Prop :=
  0 ≤ p_adu p ∧ 0 ≤ p_alpha p ∧ 0 ≤ p_nextSlot p ∧ p_adu p + p_alpha p + 1 < 2 ^ 64 ∧
  p_nextSlot p < 2 ^ 64.

Lemma send_accept_loop_total fuel : ∀ p outs,
  window_nowrap p → (Z.to_nat (p_adu p + p_alpha p + 1 - p_nextSlot p) < fuel)%nat →
  is_ok (send_accept_loop fuel p outs) = true.
Proof.
  induction fuel as [|fuel IH]; intros p outs (H1 & H2 & H3 & H4 & H5) Hf; [lia|].
  cbn [send_accept_loop]. unfold inAlphaRange. nowrap.
  case_bool_decide as Hwin; cbn [negb]; [|done]. get_slot.
  destruct (genAccept _ _) as [[[a ns] q]|]; [|done].
  apply IH; unfold window_nowrap; cbn; nowrap; lia.
Qed.

Lemma sendAccept_total p : window_nowrap p → is_ok (sendAccept p) = true.
Proof.
  intros Hw. pose proof Hw as (H1 & H2 & H3 & H4 & H5).
  apply send_accept_loop_total; [done|]. unfold send_accept_fuel. nowrap. lia.
Qed.

(** What the accepts of a run of [sends] are. *)
Lemma sends_spec p accs p' :
  sends p accs p' → slot_ids_ok p → window_nowrap p →
  frame (p <| p_nextSlot := p_nextSlot p' |>) p' ∧ slot_ids_ok p' ∧ send_stopped p' ∧
  p_nextSlot p ≤ p_nextSlot p' ≤ Z.max (p_nextSlot p) (p_adu p + p_alpha p + 1) ∧
  acc_Slot <$> accs = range (p_nextSlot p) (p_nextSlot p') ∧
  p_reqQueue p = (acc_Val <$> filter (λ a, prop_at p (acc_Slot a) = None) accs) ++ p_reqQueue p' ∧
  Forall (λ a, acc_ID a = p_id p ∧ acc_Rnd a = p_crnd p ∧ prop_at p' (acc_Slot a) = Some a ∧
    ∀ a0, prop_at p (acc_Slot a) = Some a0 → acc_Val a = acc_Val a0) accs ∧
  (∀ s, s < p_nextSlot p ∨ p_nextSlot p' ≤ s → prop_at p' s = prop_at p s).
Proof.
  induction 1 as [p p' Hf [Hs Hi] Hq Hst|p a p1 accs p' (Hwin & Ha & Hv & Hf & Hs & Hi) Hsends IH];
    intros Hids Hw.
  - pose proof Hf as (F1 & F2 & F3 & F4 & F5 & F6 & F7 & F8 & F9 & F10).
    split; [unfold frame; cbn; repeat split; congruence|]. split; [auto|]. split; [done|].
    split; [lia|]. split; [by rewrite range_nil by lia|]. split; [by rewrite Hq|].
    split; [constructor|]. intros s _. apply Hs.
  - pose proof Hf as (F1 & F2 & F3 & F4 & F5 & F6 & F7 & F8 & F9 & F10).
    cbn in F1, F2, F3, F4, F5, F6, F7, F8, F9, F10.
    pose proof Hw as (W1 & W2 & W3 & W4 & W5). nowrap_in Hwin. nowrap_in F5.
    destruct IH as (I1 & I2 & I3 & I4 & I5 & I6 & I7 & I8);
      [auto|by unfold window_nowrap; rewrite F4, F3, F5; lia|].
    rewrite F3, F4, F5 in I4.
    pose proof I1 as (G1 & G2 & G3 & G4 & G5 & G6 & G7 & G8 & G9 & G10).
    cbn in G1, G2, G3, G4, G5, G6, G7, G8, G9, G10.
    rewrite Hids in Ha.
    assert (acc_Slot a = p_nextSlot p) as Hslot by (by rewrite Ha).
    assert (∀ b, b ∈ accs → acc_Slot b ≠ p_nextSlot p) as Hne.
    { intros b Hb. assert (acc_Slot b ∈ acc_Slot <$> accs) as Hb'
        by (apply list_elem_of_fmap; eauto). rewrite I5, elem_of_range in Hb'. lia. }
    split; [unfold frame; cbn; repeat split; congruence|]. split; [done|]. split; [done|].
    split; [lia|]. split; [|split; [|split]].
    + rewrite (range_cons (p_nextSlot p)) by lia. cbn. by rewrite I5, F5, Hslot.
    + assert (filter (λ a, prop_at p1 (acc_Slot a) = None) accs
        = filter (λ a, prop_at p (acc_Slot a) = None) accs) as Hfil.
      { apply filter_ext_elem. intros b Hb. rewrite Hs, decide_False by by apply Hne. done. }
      rewrite filter_cons, <- Hfil. rewrite Hslot.
      destruct (prop_at p (p_nextSlot p)) as [a0|]; cbn.
      * destruct Hv as [_ <-]. done.
      * rewrite Hv, I6. done.
    + constructor.
      * split; [by rewrite Ha|]. split; [by rewrite Ha|]. split.
        -- rewrite Hslot, I8, Hs, decide_True by (lia || done). done.
        -- rewrite Hslot. intros a0 E. rewrite E in Hv. apply Hv.
      * eapply Forall_impl; [apply Forall_and; split; [exact I7|by apply Forall_forall, Hne]|].
        cbn. intros b [(B1 & B2 & B3 & B4) Hb]. split; [congruence|]. split; [congruence|].
        split; [done|]. intros a0 E. apply B4. by rewrite Hs, decide_False.
    + intros s Hrange. rewrite I8, Hs, decide_False by lia. done.
Qed.

(** The send loop terminates within the alpha window and sends one accept
    per slot, in slot order, in the proposer's round: the value is the one the
    slot already has a proposal for, and otherwise the oldest queued request,
    so that requests are consumed in order; it stops only when the window is
    used up or nothing is left to propose. *)
Theorem sendAccept_spec (p : MultiProposer) :
  slot_ids_ok p → window_nowrap p →
  ∃ p' accs, sendAccept p = Ok (p', accept_outs accs) ∧
    acc_Slot <$> accs = range (p_nextSlot p) (p_nextSlot p') ∧
    p_nextSlot p ≤ p_nextSlot p' ≤ Z.max (p_nextSlot p) (p_adu p + p_alpha p + 1) ∧
    p_reqQueue p =
      (acc_Val <$> filter (λ a, prop_at p (acc_Slot a) = None) accs) ++ p_reqQueue p' ∧
    Forall (λ a, acc_ID a = p_id p ∧ acc_Rnd a = p_crnd p ∧ prop_at p' (acc_Slot a) = Some a ∧
      ∀ a0, prop_at p (acc_Slot a) = Some a0 → acc_Val a = acc_Val a0) accs ∧
    (p_adu p + p_alpha p < p_nextSlot p' ∨
     prop_at p' (p_nextSlot p') = None ∧ p_reqQueue p' = []).
Proof.
  intros Hids Hw. pose proof (sendAccept_total p Hw) as Htot.
  destruct (sendAccept p) as [[p' outs]| |] eqn:Hrun; [|done..].
  apply sendAccept_Ok in Hrun as (accs & Hs & ->).
  destruct (sends_spec p accs p' Hs Hids Hw) as (Hf & _ & Hst & H1 & H2 & H3 & H4 & _).
  exists p', accs. do 5 (split; [done|]).
  destruct Hf as (_ & _ & Ha & Hd & _). cbn in Ha, Hd.
  destruct Hw as (W1 & W2 & W3 & W4 & W5). unfold send_stopped in Hst. rewrite Ha, Hd in Hst.
  by nowrap_in Hst.
Qed.

(** * Counting promises *)

(** The promises stored while phase 1 is open: in the regular mode, one entry
    per replica at its position, counted once. *)
Definition promises_counted p : Prop :=
  (∀ i m, p_phaseOnePromises p !! i = Some (Some m) →
     prom_Rnd m = p_crnd p ∧ PxID (prom_ID m) = Z.of_nat i) ∧
  p_phaseOneCount p = Z.of_nat (count_some (p_phaseOnePromises p)) ∧
  len (p_phaseOnePromises p) < 2 ^ 63.

Lemma handleProm_Ok gm p msg p' b :
  handleProm gm p msg = Ok (p', b) →
  (p' = p ∧ b = false ∧
     (p_phaseOneDone p = true ∨ prom_Rnd msg ≠ p_crnd p ∨
      ∃ m, p_phaseOnePromises p !! Z.to_nat (PxID (prom_ID msg)) = Some (Some m))) ∨
  (p_phaseOneDone p = false ∧ prom_Rnd msg = p_crnd p ∧
   0 ≤ PxID (prom_ID msg) ∧
   p_phaseOnePromises p !! Z.to_nat (PxID (prom_ID msg)) = Some None ∧
   p' = p <| p_phaseOnePromises := <[Z.to_nat (PxID (prom_ID msg)) := Some msg]> (p_phaseOnePromises p) |>
          <| p_phaseOneCount := u64 (p_phaseOneCount p + 1) |> ∧
   b = negb (bool_decide (p_phaseOneCount p' < gm_Quorum gm))).
Proof.
  unfold handleProm, PxInt. destruct (p_phaseOneDone p) eqn:Ed; [intros [= <- <-]; auto|].
  case_bool_decide as Hc; rewrite Compare_eq in Hc; [intros [= <- <-]; by left; auto|]. intros Hrun.
  apply bind_Ok in Hrun as (old & Hold & Hrun). apply slice_get_Ok in Hold as [Hpx Hold].
  case_bool_decide as Ho.
  { injection Hrun as <- <-. left. destruct old; [|done]. do 2 (split; [done|]). by eauto. }
  apply bind_Ok in Hrun as (ps & Hps & Hrun). apply slice_set_Ok in Hps as [_ ->].
  right. subst old.
  do 4 (split; [done|]). cbn in Hrun. case_bool_decide; cbn in Hrun; injection Hrun as <- <-;
    (split; [done|]); cbn; [rewrite bool_decide_eq_true_2|rewrite bool_decide_eq_false_2]; done.
Qed.

Lemma handleProm_counted gm p msg p' b :
  promises_counted p → handleProm gm p msg = Ok (p', b) → promises_counted p'.
Proof.
  intros (H1 & H2 & H3) [[-> _]|(Ed & Hr & Hpx & Hl & -> & _)]%handleProm_Ok; [done|].
  pose proof (count_some_le (p_phaseOnePromises p)).
  split_and!; cbn.
  - intros i m. rewrite list_lookup_insert_Some. intros [(<- & [= <-] & _)|(_ & Hm)]; [|by apply H1].
    split; [done|lia].
  - rewrite H2, (count_some_insert_None _ _ _ Hl). nowrap. lia.
  - by rewrite length_insert.
Qed.

(** C9: the regular promise handler counts promises one per replica. A promise
    that arrives after phase 1 completed, of another round, or of a replica
    that is already counted changes nothing; any other promise is stored at its
    replica's position, and a quorum is reported exactly when promises of the
    current round from a quorum of different replicas are stored. *)
Theorem handleProm_quorum (gm : G) (p p' : MultiProposer) (msg : Promise) (b : bool) :
  promises_counted p → handleProm gm p msg = Ok (p', b) →
  let px := Z.to_nat (PxID (prom_ID msg)) in
  promises_counted p' ∧
  ((p' = p ∧ b = false ∧
      (p_phaseOneDone p = true ∨ prom_Rnd msg ≠ p_crnd p ∨
       ∃ m, p_phaseOnePromises p !! px = Some (Some m))) ∨
   (p_phaseOneDone p = false ∧ prom_Rnd msg = p_crnd p ∧
      p_phaseOnePromises p !! px = Some None ∧
      p_phaseOnePromises p' = <[px := Some msg]> (p_phaseOnePromises p) ∧
      b = bool_decide (gm_Quorum gm ≤ Z.of_nat (count_some (p_phaseOnePromises p'))))).
Proof.
  intros Hc Hrun. pose proof (handleProm_counted gm p msg p' b Hc Hrun) as Hc'.
  split; [done|]. destruct Hc' as (_ & H2 & _).
  destruct (handleProm_Ok gm p msg p' b Hrun) as [?|(Ed & Hr & Hpx & Hl & Hp & Hb)]; [by left|right].
  do 3 (split; [done|]). split; [by rewrite Hp|]. rewrite <- H2, Hb.
  repeat case_bool_decide; done || lia.
Qed.

(** * Resends *)

(** Induction over a pass of resends: it broadcasts pointers to proposals
    inside the window and may restart phase 1, at most once per slot. *)
Lemma resend_ind gm (P : nat → MultiProposer → list PropOut → Prop) p0 :
  let window := range (u64 (p_adu p0 + 1)) (p_nextSlot p0) in
  P 0%nat p0 [] →
  (∀ k p outs, P k p outs → P (S k) p outs) →
  (∀ k p outs p', P k p outs → frame p p' → same_proposals p p' → p_reqQueue p' = p_reqQueue p →
     P k p' outs) →
  (∀ k p outs i a, P k p outs → i ∈ window → prop_at p i = Some a →
     P k p (outs ++ [PropSend (OBcastPtr (MAccept a)); PropTimer2])) →
  (∀ k p outs, (k < length window)%nat → P k p outs →
     let '(p', o) := startPhaseOne gm false p in P (S k) p' (outs ++ o)) →
  let '(p', outs) := resendAcceptsIfNecessary gm p0 in ∃ k, P k p' outs.
Proof.
  intros window H0 Hmono Htouch Hsend Hstart. unfold resendAcceptsIfNecessary.
  destruct (isLeaderAndPhaseOneComplete p0); cbn [negb]; [|by exists 0%nat].
  fold window. set (f := λ '(p, outs) (i : Z), _).
  cut ((λ '(p, outs), P (length window) p outs) (foldl f (p0, []) window)).
  { destruct (foldl f _ _). eauto. }
  apply (foldl_inv (λ pre '(p, outs), P (length pre) p outs)); [|done].
  intros pre i post [p outs] Ew Hp. unfold f. get_slot.
  assert (i ∈ window) as Hi by (rewrite Ew; set_solver).
  assert (length pre < length window)%nat as Hk by (rewrite Ew, length_app; cbn; lia).
  rewrite length_app, Nat.add_1_r. clear Ew. revert Hp Hk. generalize (length pre) as k.
  intros k Hp Hk.
  assert (∀ p (s : SlotID), P k p outs → P k (p <| p_slots := (ProposerSlotMap_GetSlot (p_slots p) s).2 |>) outs) as Hget.
  { intros q s Hq. eapply Htouch; [exact Hq|by split_and!|apply same_proposals_GetSlot|done]. }
  pose proof (Hget p i Hp) as Hp1.
  set (p1 := p <| p_slots := _ |>) in *.
  unfold resendAccept. fold (prop_at p i).
  destruct (prop_at p i) as [a|] eqn:Ea; [|rewrite app_nil_r; by apply Hmono].
  unfold hasReachedResendThreshold. get_slot. pose proof (Hget p1 (acc_Slot a) Hp1) as Hp2.
  set (p2 := p1 <| p_slots := _ |>) in *.
  case_bool_decide.
  - specialize (Hstart k p2 outs Hk Hp2). by destruct (startPhaseOne gm false p2).
  - unfold incrementSentCountFor. get_slot.
    assert (prop_at p2 i = Some a) as Ha2.
    { unfold prop_at, p2, p1. cbn. by rewrite !pslot_GetSlot. }
    apply Hmono. eapply Htouch; [by eapply Hsend|by split_and!| |done].
    apply same_proposals_put; [|done..]. intros j. apply pslot_GetSlot.
Qed.

(** * A quorum of one replica under live replacement *)

(** [k] handled promises that do not complete phase 1. *)
Definition ignored_promises gm p (ms : list Promise) : res MultiProposer :=
  foldM (λ p m, '(p, quorum) ← handlePromLr gm p m; if (quorum : bool) then Panic else mret p) p ms.

Lemma handlePromLr_again gm p m :
  p_phaseOneDone p = false → prom_Rnd m = p_crnd p → prom_ID m ∉ p_phaseOneRecvFrom p →
  p_phaseOneVQCheck p = false → prom_EpochVector m = gm_Epochs gm →
  0 ≤ p_phaseOneCount p < 2 ^ 64 - 1 →
  handlePromLr gm p m = Ok
    (p <| p_phaseOnePromises ::= λ ps, ps ++ [Some m] |> <| p_phaseOneCount := p_phaseOneCount p + 1 |>,
     bool_decide (gm_Quorum gm ≤ p_phaseOneCount p + 1)).
Proof.
  intros Hd Hr Hrecv Hvq He Hc. unfold handlePromLr. rewrite Hd, Hr.
  rewrite bool_decide_eq_false_2 by (rewrite Compare_eq; by intros []).
  rewrite bool_decide_eq_false_2 by done.
  cbn [p_phaseOneVQCheck update]. rewrite Hvq, He.
  rewrite (proj2 (EpochSlicesEqual_spec _ _) eq_refl). cbn. nowrap.
  repeat case_bool_decide; try done; lia.
Qed.

Lemma ignored_promises_count gm p m k :
  p_phaseOneDone p = false → prom_Rnd m = p_crnd p → prom_ID m ∉ p_phaseOneRecvFrom p →
  p_phaseOneVQCheck p = false → prom_EpochVector m = gm_Epochs gm →
  0 ≤ p_phaseOneCount p → p_phaseOneCount p + Z.of_nat k < gm_Quorum gm < 2 ^ 64 →
  ignored_promises gm p (replicate k m) = Ok
    (p <| p_phaseOnePromises ::= λ ps, ps ++ replicate k (Some m) |>
       <| p_phaseOneCount := p_phaseOneCount p + Z.of_nat k |>).
Proof.
  revert p. induction k as [|k IH]; intros p Hd Hr Hrecv Hvq He Hc Hk.
  - cbn. rewrite app_nil_r, Z.add_0_r. by destruct p.
  - unfold ignored_promises in *. cbn [replicate foldM].
    rewrite (handlePromLr_again gm p m) by (done || lia).
    rewrite bool_decide_eq_false_2 by lia. cbn [mbind res_bind mret res_ret].
    rewrite IH; cbn; try done; [|lia..]. rewrite <- app_assoc. cbn. do 2 f_equal. lia.
Qed.

(** Under live replacement the promise handler counts a promise as often as
    it is delivered: nothing ever adds the sender to [phaseOneRecvFrom], so in
    a fresh phase 1 the copies of a single replica's promise complete it, one
    copy per member of the quorum, and become the promises the proposer takes
    its state from. *)
Theorem handlePromLr_counts_duplicates (gm : G) (p : MultiProposer) (m : Promise) :
  gm_LrEnabled gm = true → prom_Rnd m = p_crnd p → prom_EpochVector m = gm_Epochs gm →
  0 < gm_Quorum gm < 2 ^ 64 →
  ∃ p1 p2, ignored_promises gm (resetPhaseOneData gm p) (replicate (Z.to_nat (gm_Quorum gm) - 1) m) = Ok p1 ∧
    handlePromLr gm p1 m = Ok (p2, true) ∧
    p_phaseOnePromises p2 = replicate (Z.to_nat (gm_Quorum gm)) (Some m).
Proof.
  intros Hlr Hr He Hq. unfold resetPhaseOneData. rewrite Hlr.
  set (p0 := _ <| p_phaseOneRecvFrom := _ |>).
  exists (p0 <| p_phaseOnePromises ::= λ ps, ps ++ replicate (Z.to_nat (gm_Quorum gm) - 1) (Some m) |>
       <| p_phaseOneCount := p_phaseOneCount p0 + Z.of_nat (Z.to_nat (gm_Quorum gm) - 1) |>).
  eexists. split; [|split].
  - apply ignored_promises_count; cbn; try done; lia.
  - rewrite handlePromLr_again; cbn; try done; [|lia].
    rewrite bool_decide_eq_true_2 by lia. reflexivity.
  - cbn. rewrite <- replicate_S_end. f_equal. lia.
Qed.

End multi_proposer.

(** * Witnesses *)


(** Replica 0 is elected, receives two promises, one of which reports a vote
    in slot 2, and has one client value queued. *)
Definition ex_proposer : MultiProposer :=
  NewMultiProposer (ex_gm 0) (ex_id 0) true (mkID (-1) 0) 3 1.
Definition ex_promise (i : Z) (slots : list AcceptorSlot) : Promise :=
  mkPromise (ex_id i) (ex_rnd 2 0) slots [].
Definition ex_elected : MultiProposer :=
  match proposer_step (ex_gm 0) ex_proposer (PropTrust (ex_id 0)) with
  | Ok (p, _) => p | _ => ex_proposer
  end.
Definition ex_queued : MultiProposer :=
  match proposer_step (ex_gm 0) ex_elected (PropValue (ex_val 5)) with
  | Ok (p, _) => p | _ => ex_proposer
  end.
Definition ex_one_promise : MultiProposer :=
  match handleProm (ex_gm 0) ex_queued (ex_promise 0 []) with
  | Ok (p, _) => p | _ => ex_proposer
  end.

Lemma sendAccept_spec_witness :
  let p := setStateFromPromises (ex_queued <| p_phaseOnePromises :=
    [None; Some (ex_promise 1 [mkAcceptorSlot 2 (ex_rnd 1 2) (ex_val 9)]); None] |>) in
  ∃ p' accs, sendAccept p = Ok (p', accept_outs accs) ∧
    acc_Slot <$> accs = range 1 (p_nextSlot p').
Proof.
  cbv zeta. set (p := setStateFromPromises _).
  destruct (sendAccept_spec p) as (p' & accs & H1 & H2 & _).
  - intros s. unfold p.
    apply (set_proposals_spec [mkAcceptorSlot 2 (ex_rnd 1 2) (ex_val 9)]
      (ex_queued <| p_phaseOnePromises :=
        [None; Some (ex_promise 1 [mkAcceptorSlot 2 (ex_rnd 1 2) (ex_val 9)]); None] |>)).
    intros j. unfold pslot.
    replace (psm_Slots _) with (∅ : gmap SlotID ProposerSlot) by (vm_compute; reflexivity).
    by rewrite lookup_empty.
  - unfold window_nowrap. vm_compute. repeat split; intros [=].
  - exists p', accs. split; [exact H1|exact H2].
Defined.

Lemma handleProm_quorum_witness :
  ∃ p', handleProm (ex_gm 0) ex_one_promise (ex_promise 2 []) = Ok (p', true) ∧
    promises_counted p'.
Proof.
  assert (promises_counted ex_one_promise) as Hc.
  { split_and!; [|reflexivity|by vm_compute].
    intros [|[|[|i]]] m E; vm_compute in E; simplify_eq; split; reflexivity. }
  destruct (handleProm (ex_gm 0) ex_one_promise (ex_promise 2 [])) as [[p' b]| |] eqn:E;
    [|by vm_compute in E..].
  destruct (handleProm_quorum (ex_gm 0) ex_one_promise p' (ex_promise 2 []) b Hc E) as [Hc' _].
  exists p'. split; [|exact Hc']. vm_compute in E. by injection E as _ <-.
Defined.

Lemma handlePromLr_counts_duplicates_witness :
  let gm := (ex_gm 0) <| lrEnabled := true |> in
  let m := mkPromise (ex_id 1) (p_crnd ex_elected) [] (gm_Epochs gm) in
  ∃ p1 p2, ignored_promises gm (resetPhaseOneData gm ex_elected) [m] = Ok p1 ∧
    handlePromLr gm p1 m = Ok (p2, true) ∧ p_phaseOnePromises p2 = [Some m; Some m].
Proof.
  intros gm m. assert (gm_Quorum gm = 2) as E by (vm_compute; reflexivity).
  destruct (handlePromLr_counts_duplicates gm ex_elected m) as (p1 & p2 & H1 & H2 & H3);
    [reflexivity..|by rewrite E|]. rewrite E in H1, H3. by exists p1, p2.
Defined.
