(* ===== verification/MultiLearner.v ===== *)
(** The MultiPaxos learner (src/multipaxos/learner.go): counting votes with
    and without live replacement, in-order delivery, catch-up, and the body of
    its event loop. *)
From S2P Require Import Prelude Grp PaxosTypes Combinations.

(** * State *)

Record MultiLearner := mkMultiLearner {
  l_id : ID;
  l_startable : bool;
  l_started : bool;
  l_leader : ID;
  l_slots : LearnerSlotMap;
  l_slotsLr : LearnerLrSlotMap;
  l_lr : bool; (* which of the two sets of handlers is installed *)
  l_next : SlotID;
  l_catchUpInProgress : bool;
}.
#[export] Instance eta_MultiLearner : Eta MultiLearner := λ r,
  mkMultiLearner (l_id r) (l_startable r) (l_started r) (l_leader r) (l_slots r) (l_slotsLr r)
    (l_lr r) (l_next r) (l_catchUpInProgress r).

Inductive LrnEvent :=
| LrnLearn (m : Learn)
| LrnCatchUpReq (m : CatchUpRequest)
| LrnCatchUpResp (m : CatchUpResponse)
| LrnTrust (trustID : ID)
| LrnHold
| LrnStop.

Section multi_learner.
Context {G : Type} `{GroupManager G}.
Implicit Types (l : MultiLearner) (gm : G).

Definition NewMultiLearner gm (id : ID) (runLrn : bool) (leader : ID) (nextExpectedDcd : SlotID)
    : MultiLearner :=
  {| l_id := id; l_startable := runLrn; l_started := false; l_leader := leader;
     l_slots := NewLearnerSlotMap; l_slotsLr := NewLearnerLrSlotMap; l_lr := gm_LrEnabled gm;
     l_next := nextExpectedDcd; l_catchUpInProgress := false |}.

(** * Counting votes *)

(** A handler returns [nil, 0] or the value and its slot. *)
Definition no_value : option Value * SlotID := (None, 0).

Definition handleLrn gm l (msg : Learn) : res (MultiLearner * (option Value * SlotID)) :=
  let '(slot, sm) := LearnerSlotMap_GetSlot (l_slots l) (lrn_Slot msg) in
  let l := l <| l_slots := sm |> in
  if ls_Learned slot then Ok (l, no_value)
  else if bool_decide (Compare (ls_Rnd slot) (lrn_Rnd msg) = 1) then Ok (l, no_value)
  else
    let slot := if bool_decide (Compare (ls_Rnd slot) (lrn_Rnd msg) = -1)
                then slot <| ls_Rnd := lrn_Rnd msg |> <| ls_Learns := nils (gm_NrOfNodes gm) |>
                          <| ls_Votes := 0 |>
                else slot in
    let l := l <| l_slots ::= put_lslot (lrn_Slot msg) slot |> in
    old ← slice_get (ls_Learns slot) (PxInt (lrn_ID msg));
    if bool_decide (old ≠ None) then mret (l, no_value)
    else
      let slot := slot <| ls_Votes ::= λ v, u64 (v + 1) |> in
      learns ← slice_set (ls_Learns slot) (PxInt (lrn_ID msg)) (Some msg);
      let slot := slot <| ls_Learns := learns |> in
      let l := l <| l_slots ::= put_lslot (lrn_Slot msg) slot |> in
      if bool_decide (ls_Votes slot >= gm_Quorum gm)
      then mret (l, (Some (lrn_Val msg), ls_ID slot))
      else mret (l, no_value).

Definition handleLrnLr gm l (msg : Learn) : res (MultiLearner * (option Value * SlotID)) :=
  let '(slot, sm) := LearnerLrSlotMap_GetSlot (l_slotsLr l) (lrn_Slot msg) in
  let l := l <| l_slotsLr := sm |> in
  let put slot l := l <| l_slotsLr ::= put_llslot (lrn_Slot msg) slot |> in
  if lls_Learned slot then Ok (l, no_value)
  else
    let slot := if negb (lls_CheckVQ slot) &&
                   negb (EpochSlicesEqual (lrn_EpochVector msg) (gm_Epochs gm))
                then slot <| lls_CheckVQ := true |> else slot in
    let l := put slot l in
    if bool_decide (Compare (lls_Rnd slot) (lrn_Rnd msg) = 1) then Ok (l, no_value)
    else
      let slot := if bool_decide (Compare (lls_Rnd slot) (lrn_Rnd msg) = -1)
                  then slot <| lls_Rnd := lrn_Rnd msg |> <| lls_Learns := [] |>
                            <| lls_Votes := 0 |> <| lls_Voted := ∅ |>
                  else slot in
      let l := put slot l in
      if bool_decide (lrn_ID msg ∈ lls_Voted slot) then Ok (l, no_value)
      else
        let slot := slot <| lls_Votes ::= λ v, u64 (v + 1) |>
                         <| lls_Voted ::= λ s, {[ lrn_ID msg ]} ∪ s |>
                         <| lls_Learns ::= λ ls, ls ++ [msg] |> in
        let l := put slot l in
        if bool_decide (lls_Votes slot < gm_Quorum gm) then mret (l, no_value)
        else if negb (lls_CheckVQ slot) then mret (l, (Some (lrn_Val msg), lls_ID slot))
        else
          '(vq, vqmsgs) ← extractVqLearns (lls_Learns slot) (gm_Quorum gm);
          if (vq : bool) then
            i ← slice_get vqmsgs 0;
            m ← slice_get (lls_Learns slot) i;
            mret (l, (Some (lrn_Val m), lls_ID slot))
          else mret (l, no_value).

(** * Learning and delivering *)

(** The answer of [learnVal]: advance, start catch-up, and its slot. *)
Definition learn_outcome l (id : SlotID) : res (bool * bool * SlotID) :=
  if bool_decide (id = l_next l) then Ok (true, false, 0)
  else if bool_decide (id > l_next l) then Ok (false, true, id)
  else Panic.

Definition learnVal l (val : option Value) (slotID : SlotID)
    : res (MultiLearner * (bool * bool * SlotID)) :=
  match val with
  | None => Ok (l, (false, false, 0))
  | Some v =>
      let '(slot, sm) := LearnerSlotMap_GetSlot (l_slots l) slotID in
      let slot := slot <| ls_Learned := true |> <| ls_LearnedVal := v |> in
      let l := l <| l_slots := put_lslot slotID slot sm |> in
      o ← learn_outcome l (ls_ID slot); mret (l, o)
  end.

Definition learnValLr l (val : option Value) (slotID : SlotID)
    : res (MultiLearner * (bool * bool * SlotID)) :=
  match val with
  | None => Ok (l, (false, false, 0))
  | Some v =>
      let '(slot, sm) := LearnerLrSlotMap_GetSlot (l_slotsLr l) slotID in
      let slot := slot <| lls_Learned := true |> <| lls_LearnedVal := v |> in
      let l := l <| l_slotsLr := put_llslot slotID slot sm |> in
      o ← learn_outcome l (lls_ID slot); mret (l, o)
  end.

Definition adv l : MultiLearner * (option Value * SlotID) :=
  let '(slot, sm) := LearnerSlotMap_GetSlot (l_slots l) (l_next l) in
  let l := l <| l_slots := sm |> in
  if ls_Learned slot && negb (ls_Decided slot) then
    let slot := slot <| ls_Decided := true |> in
    (l <| l_slots ::= put_lslot (l_next l) slot |>, (Some (ls_LearnedVal slot), l_next l))
  else (l, no_value).

Definition advLr l : MultiLearner * (option Value * SlotID) :=
  let '(slot, sm) := LearnerLrSlotMap_GetSlot (l_slotsLr l) (l_next l) in
  let l := l <| l_slotsLr := sm |> in
  if lls_Learned slot && negb (lls_Decided slot) then
    let slot := slot <| lls_Decided := true |> in
    (l <| l_slotsLr ::= put_llslot (l_next l) slot |>, (Some (lls_LearnedVal slot), l_next l))
  else (l, no_value).

(** * Catch-up *)

(** The state of the loop of [getUndecidedSlots]: ranges found, the range
    under construction, and whether one is. *)
Definition undec_step (decided : bool) (i : SlotID) (st : list RangeTuple * RangeTuple * bool)
    : list RangeTuple * RangeTuple * bool :=
  let '(ts, t, start) := st in
  if negb decided then
    if negb start then (ts, mkRangeTuple i (rt_To t), true) else (ts, t, start)
  else
    if start then (ts ++ [mkRangeTuple (rt_From t) (u64 (i - 1))], mkRangeTuple 0 0, false)
    else (ts, t, start).

Definition undec_finish (slot : SlotID) (st : list RangeTuple * RangeTuple * bool)
    : list RangeTuple :=
  let '(ts, t, start) := st in
  if start then ts ++ [mkRangeTuple (rt_From t) (u64 (slot - 1))] else ts.

Definition getUndecSlots l (slot : SlotID) : MultiLearner * list RangeTuple :=
  let '(l, st) :=
    foldl (λ '(l, st) i,
        let '(s, sm) := LearnerSlotMap_GetSlot (l_slots l) i in
        (l <| l_slots := sm |>, undec_step (ls_Decided s) i st))
      (l, ([], mkRangeTuple 0 0, false)) (range (l_next l) slot) in
  (l, undec_finish slot st).

Definition getUndecSlotsLr l (slot : SlotID) : MultiLearner * list RangeTuple :=
  let '(l, st) :=
    foldl (λ '(l, st) i,
        let '(s, sm) := LearnerLrSlotMap_GetSlot (l_slotsLr l) i in
        (l <| l_slotsLr := sm |>, undec_step (lls_Decided s) i st))
      (l, ([], mkRangeTuple 0 0, false)) (range (l_next l) slot) in
  (l, undec_finish slot st).

Definition handleCUReq l (msg : CatchUpRequest) : MultiLearner * (CatchUpResponse * ID) :=
  let '(l, ts) :=
    foldl (λ '(l, ts) rng,
        foldl (λ '(l, ts) i,
            let '(s, sm) := LearnerSlotMap_GetSlot (l_slots l) i in
            (l <| l_slots := sm |>,
             if ls_Decided s then ts ++ [mkResponseTuple i (ls_LearnedVal s)] else ts))
          (l, ts) (range (rt_From rng) (u64 (rt_To rng + 1))))
      (l, []) (cureq_Ranges msg) in
  (l, ({| curesp_ID := l_id l; curesp_Vals := ts |}, cureq_ID msg)).

Definition handleCUReqLr l (msg : CatchUpRequest) : MultiLearner * (CatchUpResponse * ID) :=
  let '(l, ts) :=
    foldl (λ '(l, ts) rng,
        foldl (λ '(l, ts) i,
            let '(s, sm) := LearnerLrSlotMap_GetSlot (l_slotsLr l) i in
            (l <| l_slotsLr := sm |>,
             if lls_Decided s then ts ++ [mkResponseTuple i (lls_LearnedVal s)] else ts))
          (l, ts) (range (rt_From rng) (u64 (rt_To rng + 1))))
      (l, []) (cureq_Ranges msg) in
  (l, ({| curesp_ID := l_id l; curesp_Vals := ts |}, cureq_ID msg)).

Definition handleCUResp l (msg : CatchUpResponse) : MultiLearner :=
  if decide (length (curesp_Vals msg) = 0%nat) then l
  else
    foldl (λ l dec,
        let '(slot, sm) := LearnerSlotMap_GetSlot (l_slots l) (rt_Slot dec) in
        if negb (ls_Learned slot)
        then l <| l_slots := put_lslot (rt_Slot dec)
                 (slot <| ls_Learned := true |> <| ls_LearnedVal := rt_Val dec |>) sm |>
        else l <| l_slots := sm |>)
      l (curesp_Vals msg).

Definition handleCURespLr l (msg : CatchUpResponse) : MultiLearner :=
  if decide (length (curesp_Vals msg) = 0%nat) then l
  else
    foldl (λ l dec,
        let '(slot, sm) := LearnerLrSlotMap_GetSlot (l_slotsLr l) (rt_Slot dec) in
        if negb (lls_Learned slot)
        then l <| l_slotsLr := put_llslot (rt_Slot dec)
                 (slot <| lls_Learned := true |> <| lls_LearnedVal := rt_Val dec |>) sm |>
        else l <| l_slotsLr := sm |>)
      l (curesp_Vals msg).

(** * Dispatch on the installed handlers *)

Definition handleLearn gm l msg := if l_lr l then handleLrnLr gm l msg else handleLrn gm l msg.
Definition learnValue l v s := if l_lr l then learnValLr l v s else learnVal l v s.
Definition advance l := if l_lr l then advLr l else adv l.
Definition getUndecidedSlots l s := if l_lr l then getUndecSlotsLr l s else getUndecSlots l s.
Definition handleCatchUpReq l m := if l_lr l then handleCUReqLr l m else handleCUReq l m.
Definition handleCatchUpResp l m := if l_lr l then handleCURespLr l m else handleCUResp l m.

Definition genCatchUpReq l (slot : SlotID) : MultiLearner * (CatchUpRequest * ID) :=
  let '(l, rngs) := getUndecidedSlots l slot in
  (l, ({| cureq_ID := l_id l; cureq_Ranges := rngs |}, l_leader l)).

(** [for dcdVal, slotID := l.advance(); dcdVal != nil; ... ]. *)
Fixpoint deliver_loop (fuel : nat) l (outs : list Out) : res (MultiLearner * list Out) :=
  match fuel with
  | O => Diverge
  | S fuel =>
      let '(l, (dcdVal, slotID)) := advance l in
      match dcdVal with
      | None => Ok (l, outs)
      | Some v => deliver_loop fuel (l <| l_next := u64 (slotID + 1) |>) (outs ++ [ODecided slotID v])
      end
  end.

(** Every delivery decides one more slot of the map, which [advance] cannot
    have added. *)
Definition deliver_fuel l : nat :=
  S (if l_lr l then size (llsm_Slots (l_slotsLr l)) else size (lsm_Slots (l_slots l))).
Definition deliver l : res (MultiLearner * list Out) := deliver_loop (deliver_fuel l) l [].

Definition learner_handleGrpHold gm l : MultiLearner := l <| l_id := gm_GetID gm |>.

(** * The event loop *)

Definition learner_start l : MultiLearner :=
  if negb (l_startable l) || l_started l then l else l <| l_started := true |>.

Definition learner_step gm l (ev : LrnEvent) : res (MultiLearner * list Out) :=
  match ev with
  | LrnLearn learn =>
      '(l, (value, slotID)) ← handleLearn gm l learn;
      '(l, (advance, startcu, cuslot)) ← learnValue l value slotID;
      if (advance : bool) then deliver l
      else if (startcu : bool) then
        if l_catchUpInProgress l || bool_decide (l_id l = l_leader l) then mret (l, [])
        else
          let l := l <| l_catchUpInProgress := true |> in
          let '(l, (creq, dest)) := genCatchUpReq l cuslot in
          mret (l, [OUcast dest (MCatchUpRequest creq)])
      else mret (l, [])
  | LrnCatchUpReq creq =>
      let '(l, (cresp, dest)) := handleCatchUpReq l creq in
      mret (l, [OUcast dest (MCatchUpResponse cresp)])
  | LrnCatchUpResp cresp =>
      let l := handleCatchUpResp l cresp in
      let l := l <| l_catchUpInProgress := false |> in
      deliver l
  | LrnTrust trustID => mret (l <| l_leader := trustID |>, [])
  | LrnHold => mret (learner_handleGrpHold gm l, [])
  | LrnStop => mret (l <| l_started := false |>, [])
  end.

(** * Counting votes, specified *)

(** What [handleLrn] leaves in the slot of a vote it counts, before it does. *)
Definition open_round gm (sl : LearnerSlot) (r : ProposerRound) : LearnerSlot :=
  if bool_decide (Compare (ls_Rnd sl) r = -1)
  then sl <| ls_Rnd := r |> <| ls_Learns := nils (gm_NrOfNodes gm) |> <| ls_Votes := 0 |>
  else sl.

Lemma open_round_id gm sl r : ls_ID (open_round gm sl r) = ls_ID sl.
Proof. unfold open_round. destruct (bool_decide _); done. Qed.

(** [l'] is [l] with slot [s] holding [sl]. *)
Definition slot_set l (s : SlotID) (sl : LearnerSlot) l' : Prop :=
  ∃ sm, l' = l <| l_slots := sm |> ∧
    ∀ j, lslot sm j = if decide (j = s) then sl else lslot (l_slots l) j.

Lemma slot_set_same l s : slot_set l s (lslot (l_slots l) s)
  (l <| l_slots := (LearnerSlotMap_GetSlot (l_slots l) s).2 |>).
Proof.
  eexists. split; [done|]. intros j. rewrite lslot_GetSlot. by case_decide; subst.
Qed.

Lemma handleLrn_Ok gm l msg l' ov sid :
  handleLrn gm l msg = Ok (l', (ov, sid)) →
  let s := lrn_Slot msg in
  let sl := lslot (l_slots l) s in
  let px := Z.to_nat (PxID (lrn_ID msg)) in
  (slot_set l s sl l' ∧ (ov, sid) = no_value ∧
     (ls_Learned sl = true ∨ lrn_Rnd msg ≺ ls_Rnd sl ∨
      ∃ m, ls_Learns sl !! px = Some (Some m) ∧ ls_Rnd sl = lrn_Rnd msg)) ∨
  (ls_Learned sl = false ∧ ls_Rnd sl ≼ lrn_Rnd msg ∧
   let sl1 := open_round gm sl (lrn_Rnd msg) in
   let sl' := sl1 <| ls_Votes ::= λ v, u64 (v + 1) |> <| ls_Learns ::= <[px := Some msg]> |> in
   0 ≤ PxID (lrn_ID msg) ∧ ls_Learns sl1 !! px = Some None ∧ slot_set l s sl' l' ∧
   ((ov = Some (lrn_Val msg) ∧ sid = ls_ID sl ∧ ls_Votes sl' >= gm_Quorum gm) ∨
    ((ov, sid) = no_value ∧ ls_Votes sl' < gm_Quorum gm))).
Proof.
  unfold handleLrn, no_value. get_slot. cbn zeta.
  pose proof (slot_set_same l (lrn_Slot msg)) as Hsame.
  pose proof (lslot_GetSlot (l_slots l) (lrn_Slot msg)) as Hview.
  revert Hsame Hview. generalize (LearnerSlotMap_GetSlot (l_slots l) (lrn_Slot msg)).2 as sm.
  intros sm Hsame Hview.
  destruct (ls_Learned _) eqn:El; [intros [= <- <- <-]; by left; auto|].
  case_bool_decide as Hgt; [apply Compare_gt in Hgt; intros [= <- <- <-]; by left; auto|].
  fold (open_round gm (lslot (l_slots l) (lrn_Slot msg)) (lrn_Rnd msg)).
  intros Hrun. apply bind_Ok in Hrun as (old & Hold & Hrun).
  unfold PxInt in *. apply slice_get_Ok in Hold as [Hpx Hold].
  case_bool_decide as Ho; cbn [l_slots update] in Hrun.
  - left. injection Hrun as <- <- <-. destruct old as [m|]; [|by destruct Ho].
    assert (open_round gm (lslot (l_slots l) (lrn_Slot msg)) (lrn_Rnd msg)
      = lslot (l_slots l) (lrn_Slot msg) ∧ ls_Rnd (lslot (l_slots l) (lrn_Slot msg)) = lrn_Rnd msg)
      as [Ho2 Hr].
    { unfold open_round in *. case_bool_decide as Hlt; [by apply nils_lookup in Hold|].
      split; [done|]. rewrite Compare_gt in Hgt. rewrite Compare_lt in Hlt.
      by destruct (rlt_total (ls_Rnd (lslot (l_slots l) (lrn_Slot msg))) (lrn_Rnd msg)) as [?|[?|?]]. }
    rewrite Ho2 in Hold |- *. split; [|split; [done|right; right; eauto]].
    eexists. split; [done|]. intros j. rewrite lslot_put, Hview. by case_decide; subst.
  - subst old. right. split; [done|].
    rewrite Compare_gt, <- rle_not_rlt in Hgt. split; [done|]. do 2 (split; [done|]).
    apply bind_Ok in Hrun as (ls & Hls & Hrun). apply slice_set_Ok in Hls as [_ ->].
    pose proof (open_round_id gm (lslot (l_slots l) (lrn_Slot msg)) (lrn_Rnd msg)) as Hid.
    case_bool_decide as Hv; cbn in Hrun; injection Hrun as <- <- <-; cbn in Hv.
    1: split; [|left; rewrite <- Hid; done].
    2: split; [|right; split; [done|]; cbn; lia].
    all: eexists; (split; [done|]); cbn; intros j; rewrite !lslot_put, Hview;
      by repeat case_decide.
Qed.

(** A round that is opened keeps the slot's votes only if it is the slot's. *)
Lemma recorded_votes gm sl r i m :
  ls_Rnd sl ≼ r →
  ls_Learns (open_round gm sl r) !! i = Some (Some m) ↔
  ls_Learns sl !! i = Some (Some m) ∧ ls_Rnd sl = r.
Proof.
  intros Hle. unfold open_round. case_bool_decide as Hlt; rewrite Compare_lt in Hlt.
  - cbn. split; [by intros ?%nils_lookup|]. intros [_ <-]. by apply rlt_irrefl in Hlt.
  - destruct Hle as [<-|?]; naive_solver.
Qed.

(** The votes stored in a slot: one per replica, at its position, all of the
    slot's round and for the slot. *)
Record slot_counted (s : SlotID) (sl : LearnerSlot) : Prop := {
  sc_id : ls_ID sl = s;
  sc_votes : ∀ i m, ls_Learns sl !! i = Some (Some m) →
    lrn_Rnd m = ls_Rnd sl ∧ lrn_Slot m = s ∧ PxID (lrn_ID m) = Z.of_nat i;
  sc_count : ls_Votes sl = Z.of_nat (count_some (ls_Learns sl));
  sc_len : len (ls_Learns sl) < 2 ^ 63;
}.

Lemma new_lslot_counted s : slot_counted s (new_lslot s).
Proof. split; cbn; try done; lia. Qed.

Lemma open_round_counted `{!GroupManagerLaws G gm} s sl r :
  slot_counted s sl → ls_Rnd sl ≼ r →
  slot_counted s (open_round gm sl r) ∧ ls_Rnd (open_round gm sl r) = r.
Proof.
  intros [S1 S2 S3 S4] Hle. unfold open_round. case_bool_decide as Hlt.
  - split; [|done]. split; cbn; try done.
    + intros i m Hm. by apply nils_lookup in Hm.
    + by rewrite count_some_nils.
    + unfold nils. rewrite length_replicate. pose proof gm_nodes_small. lia.
  - split; [done|]. rewrite Compare_lt in Hlt. by destruct Hle.
Qed.

Lemma count_vote_counted s sl m :
  slot_counted s sl → lrn_Rnd m = ls_Rnd sl → lrn_Slot m = s → 0 ≤ PxID (lrn_ID m) →
  ls_Learns sl !! Z.to_nat (PxID (lrn_ID m)) = Some None →
  slot_counted s (sl <| ls_Votes ::= λ v, u64 (v + 1) |>
                     <| ls_Learns ::= <[Z.to_nat (PxID (lrn_ID m)) := Some m]> |>).
Proof.
  intros [S1 S2 S3 S4] Hr Hs Hpx Hl. pose proof (count_some_le (ls_Learns sl)).
  split; cbn; [done| | |by rewrite length_insert].
  - intros i m'. rewrite list_lookup_insert_Some. intros [(<- & [= <-] & _)|(_ & Hm)]; [|by apply S2].
    split_and!; [done..|lia].
  - rewrite S3, (count_some_insert_None _ _ _ Hl). nowrap. lia.
Qed.

(** The regular learner's slots. *)
Definition learner_counted l : Prop := ∀ s, slot_counted s (lslot (l_slots l) s).

Lemma slot_set_counted l s sl l' :
  learner_counted l → slot_counted s sl → slot_set l s sl l' → learner_counted l'.
Proof.
  intros Hc Hs (sm & -> & Hsm) j. cbn. rewrite Hsm. case_decide; [by subst|apply Hc].
Qed.

(** A reported value has a quorum of votes of one round behind it. *)
Lemma handleLrn_counts `{!GroupManagerLaws G gm} (l l' : MultiLearner) (msg : Learn)
    (ov : option Value) (sid : SlotID) :
  learner_counted l → handleLrn gm l msg = Ok (l', (ov, sid)) →
  learner_counted l' ∧
  match ov with
  | Some v => sid = lrn_Slot msg ∧ v = lrn_Val msg ∧
      ls_Learned (lslot (l_slots l) sid) = false ∧
      ∃ voters : list nat, NoDup voters ∧ gm_Quorum gm ≤ len voters ∧
        ∀ i, i ∈ voters → ∃ m, ls_Learns (lslot (l_slots l') sid) !! i = Some (Some m) ∧
          lrn_Slot m = sid ∧ lrn_Rnd m = lrn_Rnd msg ∧ PxID (lrn_ID m) = Z.of_nat i
  | None => True
  end.
Proof.
  intros Hc [(Hset & [= -> _] & _)|(El & Hle & Hpx & Hl & Hset & Hov)]%handleLrn_Ok.
  { split; [|done]. by eapply slot_set_counted. }
  destruct (open_round_counted (lrn_Slot msg) _ _ (Hc (lrn_Slot msg)) Hle) as [Ho Hr].
  pose proof (count_vote_counted _ _ msg Ho (eq_sym Hr) eq_refl Hpx Hl) as Hsl.
  split; [by eapply slot_set_counted|].
  destruct Hov as [(-> & -> & Hq)|[[= -> _] _]]; [|done].
  rewrite (sc_id _ _ (Hc (lrn_Slot msg))). do 3 (split; [done|]).
  destruct Hset as (sm & -> & Hsm). cbn [l_slots update]. rewrite Hsm, decide_True by done.
  set (sl' := (open_round _ _ _) <| _ ::= _ |> <| _ ::= _ |>) in *.
  exists (somes (ls_Learns sl')). split; [apply NoDup_somes|].
  rewrite length_somes, <- (sc_count _ _ Hsl). split; [lia|].
  intros i [m Hm]%elem_of_somes. exists m. split; [done|].
  destruct (sc_votes _ _ Hsl i m Hm) as (-> & -> & ->). split; [done|]. split; [|done].
  unfold sl'. cbn. done.
Qed.

(** The regular learner counts votes one per replica and round. A vote for a
    learned slot, of a round older than the slot's, or of a replica that has
    already voted in it is ignored; any other vote is recorded, after the votes
    of older rounds are dropped, and its value is reported exactly when a
    quorum of different replicas have now voted in that round. *)
Theorem handleLrn_quorum `{!GroupManagerLaws G gm} (l l' : MultiLearner) (msg : Learn)
    (ov : option Value) (sid : SlotID) :
  learner_counted l → handleLrn gm l msg = Ok (l', (ov, sid)) →
  let s := lrn_Slot msg in
  let px := Z.to_nat (PxID (lrn_ID msg)) in
  let sl := lslot (l_slots l) s in
  let sl' := lslot (l_slots l') s in
  learner_counted l' ∧ (∀ j, j ≠ s → lslot (l_slots l') j = lslot (l_slots l) j) ∧
  ((sl' = sl ∧ (ov, sid) = no_value ∧
      (ls_Learned sl = true ∨ lrn_Rnd msg ≺ ls_Rnd sl ∨
       ∃ m, ls_Learns sl !! px = Some (Some m) ∧ ls_Rnd sl = lrn_Rnd msg)) ∨
   (ls_Learned sl = false ∧ ls_Rnd sl ≼ lrn_Rnd msg ∧ ls_Rnd sl' = lrn_Rnd msg ∧
      (∀ i m, ls_Learns sl' !! i = Some (Some m) ↔
         i = px ∧ m = msg ∨ i ≠ px ∧ ls_Learns sl !! i = Some (Some m) ∧ ls_Rnd sl = lrn_Rnd msg) ∧
      (ov, sid) = if decide (gm_Quorum gm ≤ Z.of_nat (count_some (ls_Learns sl')))
                  then (Some (lrn_Val msg), s) else no_value)).
Proof.
  intros Hc Hrun. cbn zeta. destruct (handleLrn_counts _ _ _ _ _ Hc Hrun) as [Hc' _].
  split; [exact Hc'|]. apply handleLrn_Ok in Hrun. cbn zeta in Hrun.
  destruct Hrun as [((sm & -> & Hsm) & Ho & Hwhy)|(El & Hle & Hpx & Hl & (sm & -> & Hsm) & Hov)];
    (split; [intros j Hj; cbn; by rewrite Hsm, decide_False|]); cbn [l_slots update];
    rewrite Hsm, decide_True by done; [by left|right].
  destruct (open_round_counted (lrn_Slot msg) _ _ (Hc (lrn_Slot msg)) Hle) as [Ho Hr].
  specialize (Hc' (lrn_Slot msg)). cbn [l_slots update] in Hc'. rewrite Hsm, decide_True in Hc' by done.
  split_and!; [done|done|exact Hr| |].
  - intros i m. cbn [ls_Learns update]. rewrite list_lookup_insert_Some, (recorded_votes _ _ _ _ _ Hle).
    apply lookup_lt_Some in Hl. naive_solver.
  - rewrite <- (sc_count _ _ Hc'). rewrite (sc_id _ _ (Hc (lrn_Slot msg))) in Hov.
    destruct Hov as [(-> & -> & Hq)|[-> Hq]]; [rewrite decide_True by lia|rewrite decide_False by lia];
      reflexivity.
Qed.

(** * Delivery, specified *)

Definition learned l (s : SlotID) : bool := ls_Learned (lslot (l_slots l) s).
Definition decided l (s : SlotID) : bool := ls_Decided (lslot (l_slots l) s).
Definition learned_val l (s : SlotID) : Value := ls_LearnedVal (lslot (l_slots l) s).

(** A slot that [advance] would deliver. *)
Definition ready l (s : SlotID) : Prop := learned l s = true ∧ decided l s = false.
#[local] Instance ready_dec l s : Decision (ready l s).
Proof. unfold ready. apply _. Defined.

Definition pending (m : gmap SlotID LearnerSlot) : gmap SlotID LearnerSlot :=
  filter (λ kv : SlotID * LearnerSlot, ls_Learned kv.2 = true ∧ ls_Decided kv.2 = false) m.

(** One delivery: the slot is marked and its value handed out. *)
Lemma adv_ready l :
  ready l (l_next l) →
  ∃ sm, adv l = (l <| l_slots := sm |>, (Some (learned_val l (l_next l)), l_next l)) ∧
    (∀ j, lslot sm j = if decide (j = l_next l) then (lslot (l_slots l) j) <| ls_Decided := true |>
                       else lslot (l_slots l) j) ∧
    size (pending (lsm_Slots (l_slots l))) = S (size (pending (lsm_Slots sm))).
Proof.
  intros [Hl Hd]. unfold adv. get_slot. unfold learned, decided, learned_val in *.
  rewrite Hl, Hd. cbn [andb negb].
  assert (lsm_Slots (l_slots l) !! l_next l = Some (lslot (l_slots l) (l_next l))) as Hin.
  { unfold lslot in *. destruct (lsm_Slots (l_slots l) !! l_next l); [done|]. by cbn in Hl. }
  eexists. split; [done|]. split.
  - intros j. cbn. rewrite lslot_put, lslot_GetSlot. by case_decide; subst.
  - assert (lsm_Slots (LearnerSlotMap_GetSlot (l_slots l) (l_next l)).2 = lsm_Slots (l_slots l)) as Hs.
    { unfold LearnerSlotMap_GetSlot. rewrite Hin. by destruct (bool_decide _). }
    unfold put_lslot, pending. cbn. rewrite Hs.
    rewrite map_filter_insert_False by (cbn; intros [_ ?]; done).
    rewrite map_filter_delete, map_size_delete.
    assert (pending (lsm_Slots (l_slots l)) !! l_next l = Some (lslot (l_slots l) (l_next l))) as Hp
      by by apply map_lookup_filter_Some.
    pose proof (map_size_ne_0_lookup_2 _ _ (mk_is_Some _ _ Hp)) as Hne.
    unfold pending in Hp, Hne. rewrite Hp. lia.
Qed.

Lemma adv_not_ready l :
  ¬ ready l (l_next l) →
  adv l = (l <| l_slots := (LearnerSlotMap_GetSlot (l_slots l) (l_next l)).2 |>, (None, 0)).
Proof.
  intros Hn. unfold adv. get_slot. destruct (_ && _) eqn:E; [|done].
  apply andb_true_iff in E as [E1 E2%negb_true_iff]. destruct Hn. done.
Qed.

(** What the delivery loop does to a learner in the regular mode. *)
Definition delivered l l' (outs : list Out) : Prop :=
  l_next l ≤ l_next l' ∧
  outs = (λ s, ODecided s (learned_val l s)) <$> range (l_next l) (l_next l') ∧
  (∀ s, l_next l ≤ s < l_next l' → ready l s) ∧ ¬ ready l (l_next l') ∧
  (∀ j, lslot (l_slots l') j =
     if decide (l_next l ≤ j < l_next l') then (lslot (l_slots l) j) <| ls_Decided := true |>
     else lslot (l_slots l) j) ∧
  l_id l' = l_id l ∧ l_leader l' = l_leader l ∧ l_lr l' = l_lr l ∧
  l_catchUpInProgress l' = l_catchUpInProgress l.

Lemma delivered_step l sm l' outs :
  ready l (l_next l) →
  (∀ j, lslot sm j = if decide (j = l_next l) then (lslot (l_slots l) j) <| ls_Decided := true |>
                     else lslot (l_slots l) j) →
  delivered (l <| l_slots := sm |> <| l_next := l_next l + 1 |>) l' outs →
  delivered l l' (ODecided (l_next l) (learned_val l (l_next l)) :: outs).
Proof.
  intros Hr Hsm (D1 & -> & D3 & D4 & D5 & D6). cbn [l_next update] in *.
  assert (∀ s, s ≠ l_next l → learned_val (l <| l_slots := sm |> <| l_next := l_next l + 1 |>) s
     = learned_val l s ∧
    (ready (l <| l_slots := sm |> <| l_next := l_next l + 1 |>) s ↔ ready l s)) as Hview.
  { intros s Hs. unfold learned_val, ready, learned, decided. cbn.
    rewrite Hsm, decide_False by done. done. }
  split_and!; [lia| | | | |apply D6..].
  - rewrite (range_cons (l_next l)) by lia. cbn. f_equal.
    apply list_fmap_ext. intros i s Hs%list_elem_of_lookup_2. apply elem_of_range in Hs.
    f_equal. by apply Hview; lia.
  - intros s Hs. destruct (decide (s = l_next l)) as [->|]; [done|].
    apply Hview; [done|]. apply D3. lia.
  - intros Hr'. apply D4, Hview; [lia|done].
  - intros j. rewrite D5. cbn. rewrite Hsm. repeat case_decide; (done || lia).
Qed.

Lemma deliver_loop_spec fuel : ∀ l outs,
  l_lr l = false → 0 ≤ l_next l → (∀ s, learned l s = true → s < 2 ^ 64 - 1) →
  (size (pending (lsm_Slots (l_slots l))) < fuel)%nat →
  ∃ l' outs', deliver_loop fuel l outs = Ok (l', outs ++ outs') ∧ delivered l l' outs'.
Proof.
  induction fuel as [|fuel IH]; intros l outs Hlr H0 Hmax Hf; [lia|]. cbn [deliver_loop].
  unfold advance. rewrite Hlr. destruct (decide (ready l (l_next l))) as [Hr|Hr].
  - destruct (adv_ready l Hr) as (sm & -> & Hsm & Hsz).
    assert (l_next l < 2 ^ 64 - 1) by by apply Hmax, Hr. nowrap.
    destruct (IH (l <| l_slots := sm |> <| l_next := l_next l + 1 |>)
      (outs ++ [ODecided (l_next l) (learned_val l (l_next l))])) as (l' & outs' & Hrun & Hd);
      [done|cbn; lia| |cbn; lia|].
    + intros s. unfold learned. cbn. rewrite Hsm. intros Hs. apply Hmax. unfold learned.
      by case_decide.
    + exists l', (ODecided (l_next l) (learned_val l (l_next l)) :: outs').
      split; [rewrite <- app_assoc in Hrun; exact Hrun|]. by eapply delivered_step.
  - rewrite (adv_not_ready l Hr). eexists _, []. split; [by rewrite app_nil_r|].
    split_and!; cbn; try done; [by rewrite range_nil|lia|].
    intros j. rewrite lslot_GetSlot. case_decide; [lia|done].
Qed.

Lemma deliver_delivers (l : MultiLearner) :
  l_lr l = false → 0 ≤ l_next l → (∀ s, learned l s = true → s < 2 ^ 64 - 1) →
  ∃ l' outs, deliver l = Ok (l', outs) ∧ delivered l l' outs.
Proof.
  intros Hlr H0 Hmax. unfold deliver, deliver_fuel. rewrite Hlr.
  destruct (deliver_loop_spec (S (size (lsm_Slots (l_slots l)))) l []) as (l' & outs & H1 & H2);
    [done|done|done| |eauto].
  unfold pending. pose proof (map_size_filter
    (λ kv : SlotID * LearnerSlot, ls_Learned kv.2 = true ∧ ls_Decided kv.2 = false)
    (lsm_Slots (l_slots l))). lia.
Qed.

(** Delivery terminates and hands the application exactly the maximal run
    of learned and not yet delivered slots from the next expected one, in slot
    order, each with its learned value; trying again delivers nothing. *)
Theorem deliver_spec (l : MultiLearner) :
  l_lr l = false → 0 ≤ l_next l → (∀ s, learned l s = true → s < 2 ^ 64 - 1) →
  ∃ l' outs, deliver l = Ok (l', outs) ∧ delivered l l' outs ∧
    ∃ l2, deliver l' = Ok (l2, []).
Proof.
  intros Hlr H0 Hmax. destruct (deliver_delivers l Hlr H0 Hmax) as (l' & outs & Hrun & Hd).
  exists l', outs. do 2 (split; [done|]). destruct Hd as (D1 & _ & _ & D4 & D5 & _ & _ & D8 & _).
  destruct (deliver_delivers l') as (l2 & outs2 & Hrun2 & E1 & -> & E3 & _); [congruence|lia| |].
  - intros s. unfold learned. rewrite D5. intros Hs. apply Hmax. unfold learned. by case_decide.
  - exists l2. rewrite Hrun2. rewrite range_nil; [done|].
    destruct (decide (l_next l2 ≤ l_next l')) as [|Hn]; [done|].
    destruct D4. destruct (E3 (l_next l')) as [R1 R2]; [lia|].
    unfold ready, learned, decided in *. rewrite D5, decide_False in R1, R2 by lia. done.
Qed.

(** * Catch-up, specified *)

(** [l'] is [l] with empty slots allocated. *)
Definition slots_touched l l' : Prop :=
  ∃ sm, l' = l <| l_slots := sm |> ∧ ∀ j, lslot sm j = lslot (l_slots l) j.

Lemma slots_touched_refl l : slots_touched l l.
Proof. exists (l_slots l). by destruct l. Qed.
Lemma slots_touched_GetSlot l l' i :
  slots_touched l l' →
  slots_touched l (l' <| l_slots := (LearnerSlotMap_GetSlot (l_slots l') i).2 |>) ∧
  lslot (l_slots l') i = lslot (l_slots l) i.
Proof.
  intros (sm & -> & Hsm). split; [|apply Hsm].
  eexists. split; [done|]. intros j. cbn. by rewrite lslot_GetSlot.
Qed.

(** The ranges found so far cover exactly the undecided slots before [i]. *)
Definition undec_inv l (lo i : SlotID) (st : list RangeTuple * RangeTuple * bool) : Prop :=
  let '(ts, t, start) := st in
  (start = true → lo ≤ rt_From t < i) ∧
  ∀ j, (∃ r, r ∈ ts ∧ rt_From r ≤ j ≤ rt_To r) ∨ (start = true ∧ rt_From t ≤ j < i) ↔
       lo ≤ j < i ∧ decided l j = false.

Lemma in_snoc_range ts from to j :
  (∃ r, r ∈ ts ++ [mkRangeTuple from to] ∧ rt_From r ≤ j ≤ rt_To r) ↔
  (∃ r, r ∈ ts ∧ rt_From r ≤ j ≤ rt_To r) ∨ from ≤ j ≤ to.
Proof.
  setoid_rewrite elem_of_app. setoid_rewrite list_elem_of_singleton. split.
  - intros (r & [Hr| ->] & Hj); [left; eauto|by right].
  - intros [(r & Hr & Hj)|Hj]; [eauto|]. eexists. split; [by right|done].
Qed.

Lemma undec_step_inv l lo i st :
  lo ≤ i → 0 ≤ lo → i < 2 ^ 64 → undec_inv l lo i st →
  undec_inv l lo (i + 1) (undec_step (decided l i) i st).
Proof.
  destruct st as [[ts t] start]. intros Hlo H0 Hi [Hst Hinv]. unfold undec_step.
  assert (∀ j, lo ≤ j < i + 1 ∧ decided l j = false ↔
    (lo ≤ j < i ∧ decided l j = false) ∨ (j = i ∧ decided l i = false)) as Hsplit.
  { intros j. destruct (decide (j = i)) as [->|]; intuition lia. }
  destruct (decided l i) eqn:Ed, start; cbn [negb]; unfold undec_inv; cbn [rt_From];
    try specialize (Hst eq_refl).
  1: nowrap.
  all: split; [try done; lia|]; intros j; rewrite ?in_snoc_range, Hsplit, <- Hinv;
    generalize (∃ r, r ∈ ts ∧ rt_From r ≤ j ≤ rt_To r); intros A; intuition (lia || congruence).
Qed.

(** Looking for gaps only allocates empty slots. *)
Lemma getUndecSlots_touched l slot : slots_touched l (getUndecSlots l slot).1.
Proof.
  unfold getUndecSlots.
  set (P := λ '((l', _) : MultiLearner * (list RangeTuple * RangeTuple * bool)), slots_touched l l').
  match goal with |- context [foldl ?f ?s0 ?rs] => assert (P (foldl f s0 rs)) as HP end.
  { apply (foldl_inv (λ _, P)); [|apply slots_touched_refl].
    intros _ i _ [l1 st] _ Ht. get_slot. apply (slots_touched_GetSlot l l1 i Ht). }
  by destruct (foldl _ _ _) as [l' st].
Qed.

(** The ranges of a catch-up request cover exactly the undecided slots from
    the next expected one up to the slot that revealed the gap. *)
Theorem getUndecSlots_spec (l : MultiLearner) (slot : SlotID) :
  0 ≤ l_next l ≤ slot → slot < 2 ^ 64 →
  let '(l', rngs) := getUndecSlots l slot in
  slots_touched l l' ∧
  ∀ i, (∃ r, r ∈ rngs ∧ rt_From r ≤ i ≤ rt_To r) ↔ l_next l ≤ i < slot ∧ decided l i = false.
Proof.
  intros H0 Hs. unfold getUndecSlots.
  set (f := λ '(l, st) (i : Z), _).
  set (P := λ (pre : list Z) '(l', st), slots_touched l l' ∧
    undec_inv l (l_next l) (l_next l + len pre) st).
  assert (P (range (l_next l) slot)
    (foldl f (l, ([], mkRangeTuple 0 0, false)) (range (l_next l) slot))) as Hinv.
  { apply (foldl_inv P).
    - intros pre i post [l' st] (-> & Hi & _)%range_app_cons [Ht Hst].
      unfold f, P. get_slot. destruct (slots_touched_GetSlot l l' i Ht) as [Ht' ->].
      split; [done|]. rewrite <- range_snoc, !length_range in * by lia.
      replace (l_next l + (i + 1 - l_next l)) with (i + 1) by lia.
      replace (l_next l + (i - l_next l)) with i in Hst by lia.
      apply undec_step_inv; [lia..|done].
    - split; [apply slots_touched_refl|]. split; [done|]. cbn. intros j. split; [|lia].
      intros [(r & []%elem_of_nil & _)|[? _]]; done. }
  destruct (foldl f _ _) as [l' [[ts t] start]]. destruct Hinv as [Ht [Hst Hinv]].
  rewrite length_range in Hst, Hinv by lia.
  replace (l_next l + (slot - l_next l)) with slot in * by lia.
  split; [done|]. intros i. unfold undec_finish. destruct start.
  - specialize (Hst eq_refl). nowrap. rewrite in_snoc_range, <- Hinv.
    generalize (∃ r, r ∈ ts ∧ rt_From r ≤ i ≤ rt_To r). intros A. intuition (lia || congruence).
  - rewrite <- Hinv. generalize (∃ r, r ∈ ts ∧ rt_From r ≤ i ≤ rt_To r). intros A.
    intuition congruence.
Qed.

(** The answer to a catch-up request holds decided slots with their value, and
    answering changes nothing. *)
Lemma handleCUReq_spec l msg :
  let '(l', (resp, dest)) := handleCUReq l msg in
  slots_touched l l' ∧ dest = cureq_ID msg ∧ curesp_ID resp = l_id l ∧
  ∀ s v, mkResponseTuple s v ∈ curesp_Vals resp → decided l s = true ∧ v = learned_val l s.
Proof.
  unfold handleCUReq.
  set (P := λ '((l', ts) : MultiLearner * list ResponseTuple), slots_touched l l' ∧
    ∀ s v, mkResponseTuple s v ∈ ts → decided l s = true ∧ v = learned_val l s).
  match goal with |- context [foldl ?f ?s0 ?rs] => assert (P (foldl f s0 rs)) as HP end.
  { apply (foldl_inv (λ _, P)).
    - intros _ rng _ [l1 ts1] _ HP1. apply (foldl_inv (λ _, P)); [|done].
      intros _ i _ [l2 ts2] _ [Ht Hts]. get_slot.
      destruct (slots_touched_GetSlot l l2 i Ht) as [Ht' Hi]. rewrite Hi. split; [done|].
      destruct (ls_Decided (lslot (l_slots l) i)) eqn:E; [|done].
      intros s v [Hin|Hin]%elem_of_app; [by apply Hts|].
      apply list_elem_of_singleton in Hin as [= -> ->]. done.
    - split; [apply slots_touched_refl|]. by intros ?? ?%elem_of_nil. }
  destruct (foldl _ _ _) as [l' ts]. destruct HP as [Ht Hts]. split; [done|]. split; [done|].
  split; [by destruct Ht as (sm & -> & _)|done].
Qed.

(** A catch-up response fills the slots that are not learned yet. *)
Lemma handleCUResp_spec l msg :
  let l' := handleCUResp l msg in
  (∃ sm, l' = l <| l_slots := sm |>) ∧
  ∀ j, lslot (l_slots l') j = lslot (l_slots l) j ∨
    (learned l j = false ∧ ∃ v, mkResponseTuple j v ∈ curesp_Vals msg ∧
     lslot (l_slots l') j =
       (lslot (l_slots l) j) <| ls_Learned := true |> <| ls_LearnedVal := v |>).
Proof.
  cbn zeta. unfold handleCUResp. case_decide.
  { split; [exists (l_slots l); by destruct l|by left]. }
  set (P (vals : list ResponseTuple) l' := (∃ sm, l' = l <| l_slots := sm |>) ∧
    ∀ j, lslot (l_slots l') j = lslot (l_slots l) j ∨
    (learned l j = false ∧ ∃ v, mkResponseTuple j v ∈ vals ∧
     lslot (l_slots l') j =
       (lslot (l_slots l) j) <| ls_Learned := true |> <| ls_LearnedVal := v |>)).
  apply (foldl_inv P); [|split; [exists (l_slots l); by destruct l|by left]].
  intros pre [s v] post l' _ [[sm ->] HP]. get_slot. cbn [rt_Slot rt_Val l_slots update].
  cbn [l_slots update] in HP.
  assert (∀ j, lslot sm j = lslot (l_slots l) j ∨
    (learned l j = false ∧ ∃ w, mkResponseTuple j w ∈ pre ++ [mkResponseTuple s v] ∧
     lslot sm j = (lslot (l_slots l) j) <| ls_Learned := true |> <| ls_LearnedVal := w |>)) as HP'.
  { intros j. destruct (HP j) as [?|(? & w & ? & ?)]; [by left|right].
    split; [done|]. exists w. split; [|done]. rewrite elem_of_app. by left. }
  destruct (ls_Learned (lslot sm s)) eqn:E; cbn [negb]; (split; [eexists; reflexivity|]); intros j;
    cbn [l_slots update]; rewrite ?lslot_put, ?lslot_GetSlot; [apply HP'|].
  case_decide as Hj; [subst j|apply HP']. right.
  destruct (HP s) as [Heq|(_ & w & _ & Heq)]; [|rewrite Heq in E; done].
  rewrite Heq in E |- *. split; [done|]. exists v. split; [|done].
  rewrite elem_of_app, list_elem_of_singleton. by right.
Qed.

Lemma learnVal_Ok l v s l' o :
  learnVal l (Some v) s = Ok (l', o) →
  ∃ sm, l' = l <| l_slots := sm |> ∧
    (∀ j, lslot sm j = if decide (j = s)
       then (lslot (l_slots l) s) <| ls_Learned := true |> <| ls_LearnedVal := v |>
       else lslot (l_slots l) j) ∧
    l_next l ≤ ls_ID (lslot (l_slots l) s) ∧
    (o = (true, false, 0) ∧ ls_ID (lslot (l_slots l) s) = l_next l ∨
     ∃ c, o = (false, true, c) ∧ l_next l < c ∧ c = ls_ID (lslot (l_slots l) s)).
Proof.
  unfold learnVal. get_slot. intros Hrun. apply bind_Ok in Hrun as (o' & Ho & Hrun).
  injection Hrun as <- <-. eexists. split; [done|]. split.
  - intros j. rewrite lslot_put. case_decide; [done|]. apply lslot_GetSlot.
  - unfold learn_outcome in Ho. cbn [l_next update ls_ID] in Ho. cbn in Ho.
    repeat case_bool_decide; simplify_eq; (split; [lia|]); [by left|right].
    eexists. split; [done|]. split; [lia|done].
Qed.

End multi_learner.

(** * Witnesses *)

Definition ex_learner (next : SlotID) : MultiLearner :=
  NewMultiLearner (ex_gm 1) (ex_id 1) true (ex_id 0) next.
Definition ex_learn (i s n : Z) : Learn := mkLearn (ex_id i) s (ex_rnd 2 0) (ex_val n) [].
Definition run_learns (l : MultiLearner) (ms : list Learn) : res MultiLearner :=
  foldM (λ l m, '(l, _) ← learner_step (ex_gm 1) l (LrnLearn m); mret l) l ms.
(** Slot 2 is learned, slot 1 has one vote. *)
Definition ex_gap : MultiLearner :=
  match run_learns (ex_learner 1) [ex_learn 0 2 8; ex_learn 2 2 8; ex_learn 0 1 7] with
  | Ok l => l | _ => ex_learner 1
  end.

#[local] Instance ex_laws : GroupManagerLaws GrpMgr (ex_gm 1) := GrpMgr_laws (ex_gm 1) ex_nodemap_wf.

Lemma lslot_cases (P : Z → LearnerSlot → Prop) sm :
  (∀ k s, (k, s) ∈ map_to_list (lsm_Slots sm) → P k s) → (∀ k, P k (new_lslot k)) →
  ∀ k, P k (lslot sm k).
Proof.
  intros H1 H2 k. unfold lslot. destruct (lsm_Slots sm !! k) eqn:E; [|apply H2].
  by apply H1, elem_of_map_to_list.
Qed.

Lemma ex_gap_counted : learner_counted ex_gap.
Proof.
  intros j. apply (lslot_cases slot_counted); [|apply new_lslot_counted].
  intros k s Hin.
  assert (map_to_list (lsm_Slots (l_slots ex_gap)) =
    [(2, mkLearnerSlot 2 true (ex_rnd 2 0) [Some (ex_learn 0 2 8); None; Some (ex_learn 2 2 8)] 2
           (ex_val 8) false);
     (1, mkLearnerSlot 1 false (ex_rnd 2 0) [Some (ex_learn 0 1 7); None; None] 1 zero_Value false)]) as E by (vm_compute; reflexivity).
  rewrite E in Hin. rewrite !elem_of_cons, elem_of_nil in Hin.
  assert (∀ s b v ms n, length ms = 3%nat → n = Z.of_nat (count_some ms) →
    Forall (λ o, match o with Some m => lrn_Rnd m = ex_rnd 2 0 ∧ lrn_Slot m = s | None => True end) ms →
    (∀ i m, ms !! i = Some (Some m) → PxID (lrn_ID m) = Z.of_nat i) →
    slot_counted s (mkLearnerSlot s b (ex_rnd 2 0) ms n v false)) as Hsc.
  { intros t b v ms n Hlen Hn Hall Hpx. split; cbn; [done| |done|lia].
    intros i m Hm. destruct (Forall_lookup_1 _ _ _ _ Hall Hm) as [-> ->]. eauto. }
  destruct Hin as [Hin|[Hin|[]]]; injection Hin as -> ->; apply Hsc;
    [done|done|repeat constructor| |done|done|repeat constructor|].
  - intros [|[|[|i]]] m Hm; cbn in Hm; try discriminate Hm; injection Hm as <-; reflexivity.
  - intros [|[|[|i]]] m Hm; cbn in Hm; try discriminate Hm; injection Hm as <-; reflexivity.
Qed.

Lemma handleLrn_quorum_witness :
  ∃ l', handleLrn (ex_gm 1) ex_gap (ex_learn 2 1 7) = Ok (l', (Some (ex_val 7), 1)) ∧
    learner_counted l'.
Proof.
  destruct (handleLrn (ex_gm 1) ex_gap (ex_learn 2 1 7)) as [[l' [ov sid]]| |] eqn:E;
    [|by vm_compute in E..].
  destruct (handleLrn_quorum ex_gap l' (ex_learn 2 1 7) ov sid ex_gap_counted E) as [Hc _].
  exists l'. split; [|exact Hc]. vm_compute in E. by injection E as _ <- <-.
Defined.

Definition ex_ready : MultiLearner :=
  match handleLrn (ex_gm 1) ex_gap (ex_learn 2 1 7) with
  | Ok (l, (v, s)) => match learnVal l v s with Ok (l, _) => l | _ => ex_gap end
  | _ => ex_gap
  end.

Lemma deliver_spec_witness :
  ∃ l', deliver ex_ready = Ok (l', [ODecided 1 (ex_val 7); ODecided 2 (ex_val 8)]) ∧
    delivered ex_ready l' [ODecided 1 (ex_val 7); ODecided 2 (ex_val 8)].
Proof.
  destruct (deliver_spec ex_ready) as (l' & outs & Hrun & Hd & _).
  - reflexivity.
  - vm_compute. intros [=].
  - intros j. unfold learned. apply (lslot_cases (λ s sl, ls_Learned sl = true → s < 2 ^ 64 - 1)); [|done].
    intros k s Hin _.
    assert ((map_to_list (lsm_Slots (l_slots ex_ready))).*1 = [2; 1]) as E by (vm_compute; reflexivity).
    assert (k ∈ [2; 1]) as Hk by (rewrite <- E; apply (list_elem_of_fmap_2 fst _ _ Hin)).
    clear - Hk. rewrite !elem_of_cons, elem_of_nil in Hk. lia.
  - assert (outs = [ODecided 1 (ex_val 7); ODecided 2 (ex_val 8)]) as ->.
    { assert (deliver ex_ready = Ok (l', outs)) as E by exact Hrun.
      vm_compute in E. by injection E as _ <-. }
    exists l'. split; [exact Hrun|exact Hd].
Defined.

Lemma getUndecSlots_spec_witness :
  (getUndecSlots ex_gap 3).2 = [mkRangeTuple 1 2] ∧
  ((∃ r, r ∈ (getUndecSlots ex_gap 3).2 ∧ rt_From r ≤ 2 ≤ rt_To r) ↔
   l_next ex_gap ≤ 2 < 3 ∧ decided ex_gap 2 = false).
Proof.
  pose proof (getUndecSlots_spec ex_gap 3 ltac:(vm_compute; split; intros [=]) ltac:(done)) as Hs.
  destruct (getUndecSlots ex_gap 3) as [l' rngs] eqn:E. destruct Hs as [_ Hs].
  split; [|exact (Hs 2)]. vm_compute in E. by injection E as _ <-.
Defined.

(** * A learner that started late panics on an old quorum *)

(** A learner whose next expected slot is 3 panics when a quorum of votes for
    slot 1 arrives: the last case of [learnVal] is reachable. *)
Lemma learnVal_panics_on_old_slot :
  run_learns (ex_learner 3) [ex_learn 0 1 7; ex_learn 2 1 7] = Panic.
Proof. vm_compute. reflexivity. Qed.
