(* ===== verification/MultiPaxos.v ===== *)
(** The MultiPaxos system: any number of proposers, acceptors and learners
    that run the handlers of the three component files and exchange messages
    over a network that may delay, lose, duplicate and reorder them, in the
    regular mode (neither live replacement nor asynchronous reconfiguration)
    and with a fixed group. The file defines the system, its invariant and the
    agreement, validity and ordering theorems. *)
From stdpp Require Import functions.
From S2P Require Import Prelude Grp PaxosTypes Combinations MultiAcceptor MultiProposer MultiLearner.

(** * The group *)

(** What the system needs of the group managers of its replicas: the same
    quorum size everywhere, a majority of the acceptors, one Paxos identifier
    per acceptor, and the regular mode. *)
Class FixedGroup (G : Type) `{GroupManager G} (gm : ID → G) (acceptors : list ID) (Q : Z) := {
  fg_laws : ∀ i, GroupManagerLaws G (gm i);
  fg_nodup : NoDup (PxID <$> acceptors);
  fg_quorum : ∀ i, gm_Quorum (gm i) = Q;
  fg_majority : len acceptors < 2 * Q;
  fg_lr : ∀ i, gm_LrEnabled (gm i) = false;
  fg_ar : ∀ i, gm_ArEnabled (gm i) = false;
  fg_id : ∀ i, gm_GetID (gm i) = i;
}.

(** A group of replicas that share a well-formed node map is one. *)
Lemma nodemap_fixed_group (nm : NodeMap) :
  nodemap_wf nm → nrOfAcceptors nm = len (AcceptorIDs nm) →
  FixedGroup GrpMgr (λ i, NewGrpMgr i nm false false) (AcceptorIDs nm) (Quorum nm).
Proof.
  intros Hwf Hacc. pose proof (wf_quorum _ Hwf) as Hq.
  pose proof (Z.div_mod (nrOfAcceptors nm) 2). pose proof (Z.mod_pos_bound (nrOfAcceptors nm) 2).
  split; try done.
  - intros i. by apply GrpMgr_laws.
  - unfold AcceptorIDs. rewrite (wf_aids _ Hwf). unfold role_ids. rewrite <- list_fmap_compose.
    apply NoDup_fmap_2_strong.
    + intros [i1 n1] [i2 n2] [_ H1]%list_elem_of_filter [_ H2]%list_elem_of_filter Heq.
      apply elem_of_map_to_list in H1, H2. cbn in Heq.
      assert (i1 = i2) as -> by by eapply wf_uniq. by simplify_eq.
    + apply NoDup_filter, NoDup_map_to_list.
  - unfold Quorum. lia.
Qed.

(** * The system *)

Record Sys := mkSys {
  s_props : ID → MultiProposer;
  s_accs : ID → MultiAcceptor;
  s_lrns : ID → MultiLearner;
  s_msgs : list Msg;                      (* every message sent so far *)
  s_log : ID → list (SlotID * Value);     (* what each learner delivered *)
  s_requests : list Value;                (* what clients have proposed *)
}.
#[export] Instance eta_Sys : Eta Sys := λ r,
  mkSys (s_props r) (s_accs r) (s_lrns r) (s_msgs r) (s_log r) (s_requests r).

Definition out_msgs (o : Out) : list Msg :=
  match o with
  | OBcast m | OBcastPtr m | OUcast _ m => [m]
  | ODecided _ _ | ODcdSlot _ => []
  end.
Definition prop_out_msgs (outs : list PropOut) : list Msg :=
  mjoin ((λ o, match o with PropSend o => out_msgs o | _ => [] end) <$> outs).
Definition acc_out_msgs (outs : list AccOut) : list Msg :=
  mjoin ((λ o, match o with AccSend o => out_msgs o | _ => [] end) <$> outs).
Definition lrn_out_msgs (outs : list Out) : list Msg := mjoin (out_msgs <$> outs).
Definition out_log (outs : list Out) : list (SlotID * Value) :=
  omap (λ o, match o with ODecided s v => Some (s, v) | _ => None end) outs.

Lemma out_log_decided (f : SlotID → Value) ss :
  out_log ((λ s, ODecided s (f s)) <$> ss) = (λ s, (s, f s)) <$> ss.
Proof. induction ss as [|s ss IH]; [done|]. unfold out_log in *. cbn. f_equal. exact IH. Qed.
Lemma lrn_out_msgs_decided (f : SlotID → Value) ss :
  lrn_out_msgs ((λ s, ODecided s (f s)) <$> ss) = [].
Proof. induction ss as [|s ss IH]; [done|exact IH]. Qed.

(** A message that is handed to an actor has been sent; every other event may
    happen at any time. *)
Definition prop_enabled (ms : list Msg) (ev : PropEvent) : Prop :=
  match ev with PropPromise m => MPromise m ∈ ms | _ => True end.
Definition acc_enabled (ms : list Msg) (ev : AccEvent) : Prop :=
  match ev with AccPrepare m => MPrepare m ∈ ms | AccAccept m => MAccept m ∈ ms | _ => True end.
Definition lrn_enabled (ms : list Msg) (ev : LrnEvent) : Prop :=
  match ev with LrnLearn m => MLearn m ∈ ms | LrnCatchUpResp m => MCatchUpResponse m ∈ ms | _ => True end.

(** The counters of a proposer have room for one more step. *)
Definition prop_nowrap (p : MultiProposer) : Prop :=
  window_nowrap (p <| p_adu := p_adu p + 1 |>) ∧ RndNo (p_crnd p) + p_nextSlot p + 1 < 2 ^ 64.

Section system.
Context {G : Type} `{GroupManager G} (gm : ID → G) (acceptors : list ID) (Q : Z).
Context `{FG : !FixedGroup G gm acceptors Q}.
Inductive step : Sys → Sys → Prop :=
| step_prop s i ev p outs :
    prop_enabled (s_msgs s) ev → prop_nowrap (s_props s i) →
    proposer_step (gm i) (s_props s i) ev = Ok (p, outs) →
    step s (s <| s_props ::= <[i := p]> |> <| s_msgs ::= λ ms, ms ++ prop_out_msgs outs |>
              <| s_requests ::= λ rs, match ev with PropValue v => v :: rs | _ => rs end |>)
| step_acc s i ev a outs :
    i ∈ acceptors → acc_enabled (s_msgs s) ev →
    acceptor_step (gm i) (s_accs s i) ev = Ok (a, outs) →
    step s (s <| s_accs ::= <[i := a]> |> <| s_msgs ::= λ ms, ms ++ acc_out_msgs outs |>)
| step_lrn s i ev l outs :
    lrn_enabled (s_msgs s) ev →
    learner_step (gm i) (s_lrns s i) ev = Ok (l, outs) →
    step s (s <| s_lrns ::= <[i := l]> |> <| s_msgs ::= λ ms, ms ++ lrn_out_msgs outs |>
              <| s_log ::= λ lg, <[i := lg i ++ out_log outs]> lg |>).

(** * Votes, chosen values, safe values *)

Implicit Types (ms : list Msg) (rnd : ID → ProposerRound).

(** Acceptor [a] voted for [v] in slot [s] and round [r]. *)
Definition vote ms (a : ID) (s : SlotID) (r : ProposerRound) (v : Value) : Prop :=
  ∃ ev, MLearn (mkLearn a s r v ev) ∈ ms.

Definition is_quorum (qs : list ID) : Prop := NoDup qs ∧ qs ⊆ acceptors ∧ Q ≤ len qs.

Definition chosen_at ms (s : SlotID) (r : ProposerRound) (v : Value) : Prop :=
  ∃ qs, is_quorum qs ∧ ∀ a, a ∈ qs → vote ms a s r v.
Definition chosen ms (s : SlotID) (v : Value) : Prop := ∃ r, chosen_at ms s r v.

(** No round below [r] has chosen or can still choose another value than [v]
    in slot [s]. *)
Definition safe_at ms rnd (s : SlotID) (r : ProposerRound) (v : Value) : Prop :=
  ∀ r', r' ≺ r → ∃ qs, is_quorum qs ∧
    ∀ a, a ∈ qs → r' ≺ rnd a ∧ ∀ v', vote ms a s r' v' → v' = v.

Lemma quorums_intersect qs1 qs2 :
  is_quorum qs1 → is_quorum qs2 → ∃ a, a ∈ qs1 ∧ a ∈ qs2.
Proof.
  intros (N1 & S1 & Q1) (N2 & S2 & Q2). pose proof fg_majority.
  apply (quorum_overlap acceptors); [done..|lia].
Qed.

Lemma quorum_inhabited qs : is_quorum qs → ∃ a, a ∈ qs.
Proof.
  intros Hq. destruct (quorums_intersect qs qs Hq Hq) as (a & ? & _). eauto.
Qed.

(** The rounds of the acceptors only grow and new votes are cast at the round
    of their acceptor or later. *)
Definition extends ms rnd ms' rnd' : Prop :=
  ms ⊆ ms' ∧ (∀ a, rnd a ≼ rnd' a) ∧
  ∀ a s r v, vote ms' a s r v → vote ms a s r v ∨ rnd a ≼ r.

Lemma vote_mono ms ms' a s r v : ms ⊆ ms' → vote ms a s r v → vote ms' a s r v.
Proof. intros Hs [ev ?]. exists ev. by apply Hs. Qed.

Lemma chosen_mono ms ms' s v : ms ⊆ ms' → chosen ms s v → chosen ms' s v.
Proof.
  intros Hs (r & qs & Hq & Hv). exists r, qs. split; [done|]. intros a Ha.
  eapply vote_mono; [done|]. by apply Hv.
Qed.

Lemma safe_at_stable ms rnd ms' rnd' s r v :
  extends ms rnd ms' rnd' → safe_at ms rnd s r v → safe_at ms' rnd' s r v.
Proof.
  intros (Hms & Hrnd & Hnew) Hsafe r' Hr'. destruct (Hsafe r' Hr') as (qs & Hq & Ha).
  exists qs. split; [done|]. intros a Hin. destruct (Ha a Hin) as [Hlt Hv]. split.
  - by eapply rlt_rle_trans.
  - intros v' Hvote. destruct (Hnew _ _ _ _ Hvote) as [?|Hle]; [by apply Hv|].
    by apply rlt_not_rle in Hlt.
Qed.

(** * The invariant *)

(** Accepts: one value per slot and round, a safe one, in a proper round. *)
Record accepts_inv ms rnd (reqs : list Value) : Prop := {
  ai_unique : ∀ a1 a2, MAccept a1 ∈ ms → MAccept a2 ∈ ms →
    acc_Rnd a1 = acc_Rnd a2 → acc_Slot a1 = acc_Slot a2 → acc_Val a1 = acc_Val a2;
  ai_safe : ∀ a, MAccept a ∈ ms → safe_at ms rnd (acc_Slot a) (acc_Rnd a) (acc_Val a);
  ai_round : ∀ a, MAccept a ∈ ms → 2 ≤ RndNo (acc_Rnd a);
  ai_slot : ∀ a, MAccept a ∈ ms → 0 ≤ acc_Slot a < 2 ^ 64 - 1;
  ai_valid : ∀ a, MAccept a ∈ ms → acc_Val a ∈ reqs;
}.

(** Votes answer accepts. *)
Definition votes_inv ms : Prop := ∀ a s r v, vote ms a s r v →
  a ∈ acceptors ∧ ∃ b, MAccept b ∈ ms ∧ acc_Slot b = s ∧ acc_Rnd b = r ∧ acc_Val b = v.

(** An acceptor's slots are its last votes. *)
Record acc_inv ms (i : ID) (a : MultiAcceptor) : Prop := {
  ci_id : a_id a = i;
  ci_mode : a_mode a = AccRegular;
  ci_wf : acceptor_wf a;
  ci_last : ∀ s r v, vote ms i s r v → r ≼ as_VRnd (aslot (a_slots a) s);
  ci_vote : ∀ s, voted (aslot (a_slots a) s) →
    vote ms i s (as_VRnd (aslot (a_slots a) s)) (as_VVal (aslot (a_slots a) s));
}.

(** A promise binds its acceptor and reports its votes from the prepare's slot
    on. *)
Record promise_inv ms rnd (m : Promise) (pr : Prepare) : Prop := {
  mi_member : prom_ID m ∈ acceptors;
  mi_bound : prom_Rnd m ≼ rnd (prom_ID m);
  mi_prepare : MPrepare pr ∈ ms ∧ prep_CRnd pr = prom_Rnd m;
  mi_complete : ∀ s r v, prep_Slot pr ≤ s → vote ms (prom_ID m) s r v → r ≺ prom_Rnd m →
    ∃ x, x ∈ prom_AccSlots m ∧ as_ID x = s ∧ r ≼ as_VRnd x;
  mi_sound : ∀ x, x ∈ prom_AccSlots m → x = zero_aslot ∨
    (vote ms (prom_ID m) (as_ID x) (as_VRnd x) (as_VVal x) ∧ as_VRnd x ≺ prom_Rnd m);
}.
Definition promises_inv ms rnd : Prop := ∀ m, MPromise m ∈ ms → ∃ pr, promise_inv ms rnd m pr.

(** The value a proposer will send in a free or proposed slot is safe. *)
Definition prop_safe ms rnd (p : MultiProposer) (s : SlotID) : Prop :=
  match prop_at p s with
  | Some a => safe_at ms rnd s (p_crnd p) (acc_Val a)
  | None => ∀ v, safe_at ms rnd s (p_crnd p) v
  end.

Record prop_inv ms rnd (reqs : list Value) (i : ID) (p : MultiProposer) : Prop := {
  pi_id : p_id p = i ∧ RndID (p_crnd p) = i ∧ p_lr p = false;
  pi_crnd : 1 ≤ RndNo (p_crnd p);
  pi_adu : 0 ≤ p_adu p;
  pi_next : 0 ≤ p_nextSlot p;
  pi_ids : slot_ids_ok p;
  pi_own : ∀ a, MAccept a ∈ ms → RndID (acc_Rnd a) = i → acc_Rnd a ≼ p_crnd p ∧
    (acc_Rnd a = p_crnd p → p_phaseOneDone p = true ∧ acc_Slot a < p_nextSlot p);
  pi_window : ∀ s a, p_adu p < s < p_nextSlot p → prop_at p s = Some a → MAccept a ∈ ms;
  pi_proposal : ∀ s a, prop_at p s = Some a → acc_Rnd a ≼ p_crnd p ∧
    ∃ b, MAccept b ∈ ms ∧ acc_Slot b = s ∧ acc_Rnd b = acc_Rnd a ∧ acc_Val b = acc_Val a;
  pi_counted : promises_counted p;
  pi_promises : ∀ k m, p_phaseOnePromises p !! k = Some (Some m) → MPromise m ∈ ms;
  pi_done : p_phaseOneDone p = true → 2 ≤ RndNo (p_crnd p) ∧
    ∀ s, p_nextSlot p ≤ s → prop_safe ms rnd p s;
  pi_prepares : ∀ pr, MPrepare pr ∈ ms → RndID (prep_CRnd pr) = i →
    prep_Slot pr ≤ p_adu p ∧ prep_CRnd pr ≼ p_crnd p ∧ 2 ≤ RndNo (prep_CRnd pr);
  pi_queue : p_reqQueue p ⊆ reqs;
}.

Definition responses_inv ms : Prop := ∀ c t, MCatchUpResponse c ∈ ms → t ∈ curesp_Vals c →
  chosen ms (rt_Slot t) (rt_Val t).

Definition acc_rnd (s : Sys) (a : ID) : ProposerRound := asm_Rnd (a_slots (s_accs s a)).

(** * Agreement from the invariant *)

Lemma chosen_accept ms s r v :
  votes_inv ms → chosen_at ms s r v →
  ∃ b, MAccept b ∈ ms ∧ acc_Slot b = s ∧ acc_Rnd b = r ∧ acc_Val b = v.
Proof.
  intros Hv (qs & Hq & Ha). destruct (quorum_inhabited qs Hq) as [a Hin].
  by eapply Hv, Ha.
Qed.

Lemma chosen_at_agree ms rnd reqs s r1 v1 r2 v2 :
  accepts_inv ms rnd reqs → votes_inv ms → r1 ≼ r2 →
  chosen_at ms s r1 v1 → chosen_at ms s r2 v2 → v1 = v2.
Proof.
  intros Hacc Hv Hle H1 H2.
  destruct (chosen_accept ms s r1 v1 Hv H1) as (b1 & A1 & B1 & C1 & D1).
  destruct (chosen_accept ms s r2 v2 Hv H2) as (b2 & A2 & B2 & C2 & D2).
  destruct Hle as [->|Hlt].
  - rewrite <- D1, <- D2. eapply ai_unique; eauto; congruence.
  - pose proof (ai_safe _ _ _ Hacc _ A2) as Hsafe. rewrite B2, C2, D2 in Hsafe.
    destruct (Hsafe r1 Hlt) as (qs & Hq & Ha), H1 as (qs1 & Hq1 & Ha1).
    destruct (quorums_intersect qs qs1 Hq Hq1) as (a & Hin & Hin1).
    by apply (Ha a Hin), Ha1.
Qed.

Lemma chosen_agree ms rnd reqs s v1 v2 :
  accepts_inv ms rnd reqs → votes_inv ms → chosen ms s v1 → chosen ms s v2 → v1 = v2.
Proof.
  intros Hacc Hv [r1 H1] [r2 H2]. destruct (rlt_total r1 r2) as [?|[->|?]].
  - eapply (chosen_at_agree ms rnd reqs s r1 v1 r2 v2); eauto. by right.
  - eapply chosen_at_agree; eauto. apply rle_refl.
  - symmetry. eapply (chosen_at_agree ms rnd reqs s r2 v2 r1 v1); eauto. by right.
Qed.

(** * Stability *)

Section stable.
Context ms rnd ms' rnd' (Hext : extends ms rnd ms' rnd').

Lemma prop_safe_stable p s : prop_safe ms rnd p s → prop_safe ms' rnd' p s.
Proof.
  unfold prop_safe. destruct (prop_at p s); intros Hs; [|intros v]; by eapply safe_at_stable.
Qed.

Lemma promise_inv_stable m pr :
  MPromise m ∈ ms → promise_inv ms rnd m pr → promise_inv ms' rnd' m pr.
Proof.
  intros Hin [M1 M2 M3 M4 M5]. destruct Hext as (Hms & Hrnd & Hnew). split.
  - done.
  - by eapply rle_trans.
  - destruct M3. auto.
  - intros s r v Hs Hv Hr. destruct (Hnew _ _ _ _ Hv) as [Hv'|Hle]; [by eapply M4|].
    exfalso. apply rlt_not_rle in Hr. apply Hr. by eapply rle_trans.
  - intros x Hx. destruct (M5 x Hx) as [?|[Hv ?]]; [by left|right]. split; [|done].
    by eapply vote_mono.
Qed.

(** Other replicas' proposers only look at their own accepts and prepares. *)
Lemma prop_inv_stable reqs reqs' i p :
  reqs ⊆ reqs' →
  (∀ a, MAccept a ∈ ms' → RndID (acc_Rnd a) = i → MAccept a ∈ ms) →
  (∀ pr, MPrepare pr ∈ ms' → RndID (prep_CRnd pr) = i → MPrepare pr ∈ ms) →
  prop_inv ms rnd reqs i p → prop_inv ms' rnd' reqs' i p.
Proof.
  intros Hreqs Hacc Hprep [P1 P2 P3 P4 P5 P6 P7 P8 P9 P10 P11 P12 P13].
  pose proof Hext as (Hms & _ & _). split; try done.
  - intros a Ha Hi. apply P6; auto.
  - intros s a Hs Ha. by eapply Hms, P7.
  - intros s a Ha. destruct (P8 s a Ha) as (? & b & ? & ?). split; [done|]. exists b. auto.
  - intros k m Hm. by eapply Hms, P10.
  - intros Hd. destruct (P11 Hd) as [? Hs]. split; [done|]. intros s Hn.
    by apply prop_safe_stable, Hs.
  - intros pr Hpr Hi. apply P12; auto.
  - by transitivity reqs.
Qed.

Lemma acc_inv_stable i a :
  (∀ s r v, vote ms' i s r v → vote ms i s r v) → acc_inv ms i a → acc_inv ms' i a.
Proof.
  intros Hnew [A1 A2 A3 A4 A5]. pose proof Hext as (Hms & _ & _). split; try done.
  - intros s r v Hv. by eapply A4, Hnew.
  - intros s Hs. by eapply vote_mono, A5.
Qed.

Lemma accepts_inv_stable reqs reqs' :
  reqs ⊆ reqs' → (∀ a, MAccept a ∈ ms' → MAccept a ∈ ms) →
  accepts_inv ms rnd reqs → accepts_inv ms' rnd' reqs'.
Proof.
  intros Hreqs Hnew [A1 A2 A3 A4 A5]. split; eauto.
  intros a Ha. by eapply safe_at_stable, A2, Hnew.
Qed.

End stable.

(** New messages without votes leave the acceptors' part alone. *)
Lemma extends_no_votes ms new rnd :
  (∀ l, MLearn l ∉ new) → extends ms rnd (ms ++ new) rnd.
Proof.
  intros Hn. split_and!.
  - intros x. rewrite elem_of_app. auto.
  - intros a. apply rle_refl.
  - intros a s r v [ev [Hv|Hv]%elem_of_app]; [left; by exists ev|by apply Hn in Hv].
Qed.

(** * Completing phase 1 is safe *)

Section phase_one.
Context ms rnd reqs (Hacc : accepts_inv ms rnd reqs) (Hvotes : votes_inv ms)
  (Hprom : promises_inv ms rnd).
Context i p (Hp : prop_inv ms rnd reqs i p)
  (Hquorum : Q ≤ Z.of_nat (count_some (p_phaseOnePromises p))).

(** The senders of the promises form a quorum that is bound to the round. *)
Lemma promise_quorum :
  ∃ qs, is_quorum qs ∧ ∀ a, a ∈ qs → ∃ m pr, Some m ∈ p_phaseOnePromises p ∧
    prom_ID m = a ∧ prom_Rnd m = p_crnd p ∧ promise_inv ms rnd m pr ∧
    prep_Slot pr ≤ p_adu p.
Proof.
  set (ps := p_phaseOnePromises p) in *.
  set (sender k := match ps !! k with Some (Some m) => prom_ID m | _ => mkID (-1) 0 end).
  exists (sender <$> somes ps).
  assert (∀ k, k ∈ somes ps → ∃ m, ps !! k = Some (Some m) ∧ sender k = prom_ID m ∧
    PxID (prom_ID m) = Z.of_nat k ∧ prom_Rnd m = p_crnd p) as Hs.
  { intros k [m Hm]%elem_of_somes. exists m. split; [done|].
    destruct (pi_counted _ _ _ _ _ Hp) as (Hc & _). destruct (Hc k m Hm) as [? ?].
    unfold sender. by rewrite Hm. }
  split; [split_and!|].
  - apply NoDup_fmap_2_strong; [|apply NoDup_somes].
    intros k1 k2 H1 H2 Heq. destruct (Hs k1 H1) as (m1 & _ & E1 & X1 & _),
      (Hs k2 H2) as (m2 & _ & E2 & X2 & _). rewrite E1, E2 in Heq. rewrite Heq in X1. lia.
  - intros a (k & -> & Hk)%list_elem_of_fmap. destruct (Hs k Hk) as (m & Hm & -> & _).
    destruct (Hprom m (pi_promises _ _ _ _ _ Hp k m Hm)) as [pr Hpr]. apply Hpr.
  - rewrite length_fmap, length_somes. done.
  - intros a (k & -> & Hk)%list_elem_of_fmap. destruct (Hs k Hk) as (m & Hm & -> & _ & Hr).
    destruct (Hprom m (pi_promises _ _ _ _ _ Hp k m Hm)) as [pr Hpr].
    exists m, pr. split; [by eapply list_elem_of_lookup_2|]. do 3 (split; [done|]).
    destruct (mi_prepare _ _ _ _ Hpr) as [Hin Hcr].
    apply (pi_prepares _ _ _ _ _ Hp pr Hin). rewrite Hcr, Hr. apply (pi_id _ _ _ _ _ Hp).
Qed.

Lemma elem_of_all_slots (ps : list (option Promise)) m x :
  Some m ∈ ps → x ∈ prom_AccSlots m → x ∈ all_slots ps.
Proof.
  intros Hm Hx. unfold all_slots. apply list_elem_of_join. exists (prom_AccSlots m).
  split; [done|]. apply list_elem_of_fmap. by exists (Some m).
Qed.

(** A candidate for a slot above the decided prefix was accepted there. *)
Lemma candidate_accepted s r v :
  p_adu p < s → (r, v) ∈ cand p s ++ reported s (all_slots (p_phaseOnePromises p)) →
  r ≼ p_crnd p ∧ ∃ b, MAccept b ∈ ms ∧ acc_Slot b = s ∧ acc_Rnd b = r ∧ acc_Val b = v.
Proof.
  intros Hs [Hin|Hin]%elem_of_app.
  - unfold cand in Hin. destruct (prop_at p s) as [a|] eqn:Ea; [|by apply elem_of_nil in Hin].
    apply list_elem_of_singleton in Hin as [= -> ->]. by apply (pi_proposal _ _ _ _ _ Hp).
  - apply list_elem_of_fmap in Hin as (x & [= -> ->] & Hx).
    apply list_elem_of_filter in Hx as [Hid Hx].
    apply list_elem_of_join in Hx as (sl & Hx & Hsl).
    apply list_elem_of_fmap in Hsl as ([m|] & -> & Hm); [|by apply elem_of_nil in Hx].
    apply list_elem_of_lookup_1 in Hm as [k Hm].
    destruct (Hprom m (pi_promises _ _ _ _ _ Hp k m Hm)) as [pr Hpr].
    pose proof (pi_adu _ _ _ _ _ Hp) as Hadu.
    destruct (mi_sound _ _ _ _ Hpr x Hx) as [->|[Hv Hlt]]; [cbn in Hid; lia|].
    rewrite Hid in Hv. split; [|by apply Hvotes in Hv as [_ ?]].
    destruct (pi_counted _ _ _ _ _ Hp) as (Hc & _). destruct (Hc k m Hm) as [<- _]. by right.
Qed.

(** Whatever phase 1 selects for a slot above the decided prefix is safe in
    the proposer's round. *)
Lemma phase_one_safe s o v :
  p_adu p < s →
  highest (cand p s ++ reported s (all_slots (p_phaseOnePromises p))) o →
  match o with Some a => v = acc_Val a | None => True end →
  safe_at ms rnd s (p_crnd p) v.
Proof.
  intros Hs Hhigh Hv r' Hr'. destruct promise_quorum as (qs & Hq & Hqs).
  assert (∀ a v', a ∈ qs → vote ms a s r' v' →
    ∃ x, (as_VRnd x, as_VVal x) ∈ reported s (all_slots (p_phaseOnePromises p)) ∧ r' ≼ as_VRnd x) as Hrep.
  { intros a v' Ha Hvote. destruct (Hqs a Ha) as (m & pr & Hm & <- & Hr & Hpr & Hf).
    destruct (mi_complete _ _ _ _ Hpr s r' v') as (x & Hx & Hid & Hle); [lia|done|by rewrite Hr|].
    exists x. split; [|done]. unfold reported. apply list_elem_of_fmap. exists x. split; [done|].
    apply list_elem_of_filter. split; [done|]. by eapply elem_of_all_slots. }
  assert (∀ a, a ∈ qs → r' ≺ rnd a) as Hbound.
  { intros a Ha. destruct (Hqs a Ha) as (m & pr & Hm & <- & Hr & Hpr & _).
    eapply rlt_rle_trans; [exact Hr'|]. rewrite <- Hr. apply Hpr. }
  destruct o as [b|]; cbn in Hhigh.
  - destruct Hhigh as [Hin Hmax]. subst v.
    destruct (candidate_accepted s _ _ Hs Hin) as (Hle & b' & B1 & B2 & B3 & B4).
    destruct (rlt_total r' (acc_Rnd b)) as [Hlt|Hge].
    + pose proof (ai_safe _ _ _ Hacc b' B1) as Hsafe. rewrite B2, B3, B4 in Hsafe. by apply Hsafe.
    + exists qs. split; [done|]. intros a Ha. split; [by apply Hbound|]. intros v' Hvote.
      destruct (Hrep a v' Ha Hvote) as (x & Hx & Hxle).
      assert (as_VRnd x ≼ acc_Rnd b) as Hxb by (eapply Hmax; rewrite elem_of_app; right; exact Hx).
      assert (r' = acc_Rnd b) as ->.
      { apply rle_antisym; [by eapply rle_trans|]. destruct Hge as [->|?]; [apply rle_refl|by right]. }
      destruct (Hvotes _ _ _ _ Hvote) as [_ (c & C1 & C2 & C3 & C4)].
      rewrite <- C4, <- B4. eapply ai_unique; eauto; congruence.
  - exists qs. split; [done|]. intros a Ha. split; [by apply Hbound|]. intros v' Hvote.
    destruct (Hrep a v' Ha Hvote) as (x & Hx & _).
    apply app_eq_nil in Hhigh as [_ Hnil]. rewrite Hnil in Hx. by apply elem_of_nil in Hx.
Qed.

End phase_one.

(** * A proposer's step *)

Section proposer.
Context rnd (i : ID).

(** The part of the invariant a proposer's step touches. *)
Definition prop_bundle ms (reqs : list Value) p : Prop :=
  accepts_inv ms rnd reqs ∧ prop_inv ms rnd reqs i p.

(** A proposer sends prepares and accepts of its own rounds, or repeats one
    that was sent. *)
Definition own_msg ms (x : Msg) : Prop :=
  match x with
  | MPrepare pr => RndID (prep_CRnd pr) = i
  | MAccept a => RndID (acc_Rnd a) = i ∨ MAccept a ∈ ms
  | _ => False
  end.
Definition grows ms ms' : Prop := ∃ new, ms' = ms ++ new ∧ ∀ x, x ∈ new → own_msg ms x.

Lemma grows_refl ms : grows ms ms.
Proof. exists []. rewrite app_nil_r. split; [done|]. by intros x ?%elem_of_nil. Qed.
Lemma grows_trans ms1 ms2 ms3 : grows ms1 ms2 → grows ms2 ms3 → grows ms1 ms3.
Proof.
  intros (n1 & -> & H1) (n2 & -> & H2). exists (n1 ++ n2). split; [by rewrite app_assoc|].
  intros x [Hx|Hx]%elem_of_app; [by apply H1|]. specialize (H2 x Hx).
  destruct x; cbn in *; try done. destruct H2 as [?|[?|Hin]%elem_of_app]; auto.
  by apply (H1 _ Hin).
Qed.
Lemma grows_extends ms ms' : grows ms ms' → extends ms rnd ms' rnd.
Proof.
  intros (new & -> & Hn). apply extends_no_votes. intros l Hl. by apply (Hn _ Hl).
Qed.
Lemma grows_snoc ms x : own_msg ms x → grows ms (ms ++ [x]).
Proof. intros Hx. exists [x]. split; [done|]. by intros y ->%list_elem_of_singleton. Qed.

(** Repeating a sent message changes nothing. *)
Lemma bundle_repeat ms reqs p x :
  x ∈ ms → prop_bundle ms reqs p → (∀ l, x ≠ MLearn l) → prop_bundle (ms ++ [x]) reqs p.
Proof.
  intros Hx [Ha Hp] Hl.
  assert (extends ms rnd (ms ++ [x]) rnd) as Hext.
  { apply extends_no_votes. intros l Hin%list_elem_of_singleton. by apply (Hl l (eq_sym Hin)). }
  assert (∀ y, y ∈ ms ++ [x] → y ∈ ms) as Hsub.
  { intros y [?| ->%list_elem_of_singleton]%elem_of_app; done. }
  split.
  - eapply accepts_inv_stable; eauto.
  - eapply prop_inv_stable; eauto.
Qed.

Lemma bundle_quiet ms reqs p p' :
  prop_bundle ms reqs p → frame p p' → same_proposals p p' → p_reqQueue p' ⊆ p_reqQueue p →
  prop_bundle ms reqs p'.
Proof.
  intros [Ha [P1 P2 P3 P4 P5 P6 P7 P8 P9 P10 P11 P12 P13]]
    (F1 & F2 & F3 & F4 & F5 & F6 & F7 & F8 & F9 & F10) [Hs Hids] Hq.
  split; [done|]. split; rewrite ?F1, ?F4, ?F5, ?F6, ?F7, ?F8; auto.
  - intros s a. rewrite Hs. apply P7.
  - intros s a. rewrite Hs. apply P8.
  - unfold promises_counted. by rewrite F8, F9, F10.
  - intros k m. rewrite F9. apply P10.
  - intros Hd. destruct (P11 Hd) as [? Hsafe]. split; [done|]. intros s Hn.
    specialize (Hsafe s Hn). unfold prop_safe in *. by rewrite Hs, F8.
  - by transitivity (p_reqQueue p).
Qed.

Lemma bundle_startPhaseOne gmi b ms reqs p :
  gm_LrEnabled gmi = false → 0 ≤ gm_NrOfNodes gmi < 2 ^ 63 →
  prop_bundle ms reqs p → RndNo (p_crnd p) < 2 ^ 64 - 1 →
  let '(p', outs) := startPhaseOne gmi b p in
  prop_bundle (ms ++ prop_out_msgs outs) reqs p' ∧ grows ms (ms ++ prop_out_msgs outs).
Proof.
  intros Hlr Hnodes [Ha Hp] Hr. pose proof (startPhaseOne_spec gmi b p) as Hst.
  destruct (startPhaseOne gmi b p) as [p' outs].
  destruct Hst as [(S1 & S2 & S3 & S4 & S5 & S6 & S7 & S8 & S9 & S10 & S11 & Hs & Hids) ->].
  cbn [prop_out_msgs mjoin list_join fmap list_fmap out_msgs app].
  pose proof Hp as [(P1a & P1b & P1c) P2 P3 P4 P5 P6 P7 P8 P9 P10 P11 P12 P13].
  destruct (Next_spec (p_crnd p)) as [Hlt Hid]; [lia|lia|].
  set (x := MPrepare _).
  assert (own_msg ms x) as Hown by (cbn; congruence).
  pose proof (grows_snoc ms x Hown) as Hg. split; [|done].
  pose proof (grows_extends _ _ Hg) as Hext.
  assert (∀ a, MAccept a ∈ ms ++ [x] → MAccept a ∈ ms) as Hacc
    by (by intros a [?|?%list_elem_of_singleton]%elem_of_app).
  split; [eapply accepts_inv_stable; [exact Hext|reflexivity|exact Hacc|exact Ha]|].
  rewrite Hlr in S10.
  split; rewrite ?S1, ?S4, ?S5, ?S6, ?S7, ?S8.
  - by rewrite Hid.
  - unfold Next. cbn. nowrap. lia.
  - done.
  - done.
  - auto.
  - intros a Hin Hi. destruct (P6 a (Hacc a Hin) Hi) as [Hle _].
    assert (acc_Rnd a ≺ Next (p_crnd p)) as Hlt' by by eapply rle_rlt_trans.
    split; [by right|]. intros E. rewrite E in Hlt'. by apply rlt_irrefl in Hlt'.
  - intros s a Hw. rewrite Hs. intros E. rewrite elem_of_app. left. by eapply P7.
  - intros s a. rewrite Hs. intros E. destruct (P8 s a E) as (Hle & b' & ? & ?).
    split; [right; by eapply rle_rlt_trans|]. exists b'. rewrite elem_of_app. auto.
  - unfold promises_counted. rewrite S10, S9, count_some_nils. split_and!; [|done|].
    + intros k m Hm. by apply nils_lookup in Hm.
    + unfold nils. rewrite length_replicate. lia.
  - intros k m. rewrite S10. intros Hm. by apply nils_lookup in Hm.
  - done.
  - intros pr [Hin|Hin]%elem_of_app Hi.
    + destruct (P12 pr Hin Hi) as (? & ? & ?). split_and!; [done| |done].
      right. by eapply rle_rlt_trans.
    + apply list_elem_of_singleton in Hin. unfold x in Hin. injection Hin as ->. cbn.
      split_and!; [lia|apply rle_refl|]. unfold Next. cbn. nowrap. lia.
  - by transitivity (p_reqQueue p).
Qed.

Lemma bundle_send_one ms reqs p a p' :
  prop_bundle ms reqs p → p_phaseOneDone p = true → window_nowrap p → send_one p a p' →
  prop_bundle (ms ++ [MAccept a]) reqs p' ∧ grows ms (ms ++ [MAccept a]).
Proof.
  intros [Ha Hp] Hd (W1 & W2 & W3 & W4 & W5) (Hwin & Heq & Hval & Hf & Hs & Hids).
  destruct Hf as (F1 & F2 & F3 & F4 & F5 & F6 & F7 & F8 & F9 & F10).
  cbn in F1, F2, F3, F4, F5, F6, F7, F8, F9, F10. nowrap_in Hwin. nowrap_in F5.
  pose proof Hp as [(P1a & P1b & P1c) P2 P3 P4 P5 P6 P7 P8 P9 P10 P11 P12 P13].
  rewrite P5 in Heq. destruct a as [aid aslot0 arnd aval]. injection Heq as E1 E2 E3. subst aid aslot0 arnd.
  cbn [acc_Val] in *. set (a := mkAccept _ _ _ _) in *.
  assert (own_msg ms (MAccept a)) as Hown by (left; exact P1b).
  pose proof (grows_snoc ms _ Hown) as Hg. split; [|done].
  pose proof (grows_extends _ _ Hg) as Hext.
  destruct (P11 Hd) as [H2 Hsafe].
  assert (∀ b, MAccept b ∈ ms ++ [MAccept a] → MAccept b ∈ ms ∨ b = a) as Hin.
  { intros b [?|Hb%list_elem_of_singleton]%elem_of_app; [by left|right; congruence]. }
  assert (safe_at ms rnd (p_nextSlot p) (p_crnd p) aval ∧ aval ∈ reqs) as [Hsa Hvalid].
  { specialize (Hsafe (p_nextSlot p)). unfold prop_safe in Hsafe.
    destruct (prop_at p (p_nextSlot p)) as [a0|] eqn:E.
    - destruct Hval as [-> _]. split; [apply Hsafe; lia|].
      destruct (P8 _ _ E) as (_ & b & Hb & _ & _ & <-). by eapply ai_valid.
    - split; [apply Hsafe; lia|]. apply P13. rewrite Hval. constructor. }
  split.
  - destruct Ha as [A1 A2 A3 A4 A5]. split.
    + assert (∀ b, MAccept b ∈ ms → acc_Rnd b = p_crnd p → acc_Slot b ≠ p_nextSlot p) as Hfresh.
      { intros b Hb Hr Hsl. destruct (P6 b Hb) as [_ Hnext]; [by rewrite Hr|].
        specialize (Hnext Hr). lia. }
      intros b1 b2 [H1| ->]%Hin [Hb2| ->]%Hin Hr Hsl; cbn in *; [by eapply A1| | |done].
      * exfalso. by eapply (Hfresh b1).
      * exfalso. by eapply (Hfresh b2).
    + intros b [Hb| ->]%Hin; (eapply safe_at_stable; [exact Hext|]); [by apply A2|done].
    + intros b [Hb| ->]%Hin; [by apply A3|done].
    + intros b [Hb| ->]%Hin; [by apply A4|cbn; lia].
    + intros b [Hb| ->]%Hin; [by apply A5|done].
  - split; rewrite ?F1, ?F4, ?F5, ?F6, ?F7, ?F8; auto; try lia.
    + intros b [Hb| ->]%Hin Hi.
      * destruct (P6 b Hb Hi) as [? Hn]. split; [done|]. intros E. destruct (Hn E). split; [done|lia].
      * cbn. split; [apply rle_refl|]. intros _. split; [done|lia].
    + intros s b Hw. rewrite Hs, elem_of_app, list_elem_of_singleton. case_decide as E.
      * intros [= <-]. by right.
      * intros Hb. left. eapply P7; [|done]. lia.
    + intros s b. rewrite Hs. case_decide as E.
      * intros [= <-]. split; [apply rle_refl|]. exists a. rewrite elem_of_app, list_elem_of_singleton.
        subst s. split_and!; [by right|done..].
      * intros Hb. destruct (P8 s b Hb) as (? & c & ? & ?). split; [done|].
        exists c. rewrite elem_of_app. auto.
    + unfold promises_counted. by rewrite F8, F9, F10.
    + intros k m. rewrite F9, elem_of_app. eauto.
    + intros _. split; [done|]. intros s Hn.
      assert (prop_safe (ms ++ [MAccept a]) rnd p s) as Hps
        by (eapply prop_safe_stable; [exact Hext|]; apply Hsafe; lia).
      unfold prop_safe in *. rewrite Hs, decide_False, F8 by lia. done.
    + intros pr [Hpr|Hpr%list_elem_of_singleton]%elem_of_app; [by apply P12|done].
    + intros v Hv. apply P13. destruct (prop_at p (p_nextSlot p)); [by destruct Hval as [_ <-]|].
      rewrite Hval. by constructor.
Qed.

Lemma prop_out_msgs_app o1 o2 : prop_out_msgs (o1 ++ o2) = prop_out_msgs o1 ++ prop_out_msgs o2.
Proof. unfold prop_out_msgs. by rewrite fmap_app, join_app. Qed.
Lemma accept_out_msgs accs : prop_out_msgs (accept_outs accs) = MAccept <$> accs.
Proof. induction accs as [|a accs IH]; [done|]. cbn in *. by f_equal. Qed.

Lemma bundle_sends ms reqs p accs p' :
  prop_bundle ms reqs p → p_phaseOneDone p = true → window_nowrap p → sends p accs p' →
  prop_bundle (ms ++ (MAccept <$> accs)) reqs p' ∧ grows ms (ms ++ (MAccept <$> accs)).
Proof.
  intros Hb Hd Hw Hs. revert ms Hb Hd Hw.
  induction Hs as [p p' Hf Hs Hq _|p a p1 accs p' H1 Hsends IH]; intros ms Hb Hd Hw.
  - cbn. rewrite app_nil_r. split; [|apply grows_refl].
    eapply bundle_quiet; [done..|]. by rewrite Hq.
  - destruct (bundle_send_one ms reqs p a p1 Hb Hd Hw H1) as [Hb1 Hg1].
    destruct H1 as (Hwin & _ & _ & (F1 & F2 & F3 & F4 & F5 & F6 & F7 & F8 & _) & _).
    cbn in F3, F4, F5, F7. destruct Hw as (W1 & W2 & W3 & W4 & W5).
    nowrap_in Hwin. nowrap_in F5.
    destruct (IH (ms ++ [MAccept a]) Hb1) as [Hb2 Hg2]; [congruence| |].
    + unfold window_nowrap. rewrite F3, F4, F5. lia.
    + rewrite fmap_cons. change (MAccept a :: ?l) with ([MAccept a] ++ l) in *.
      rewrite <- app_assoc in Hb2, Hg2. split; [exact Hb2|]. by eapply grows_trans.
Qed.

Lemma bundle_sendAccept ms reqs p p' outs :
  prop_bundle ms reqs p → p_phaseOneDone p = true → window_nowrap p →
  sendAccept p = Ok (p', outs) →
  prop_bundle (ms ++ prop_out_msgs outs) reqs p' ∧ grows ms (ms ++ prop_out_msgs outs).
Proof.
  intros Hb Hd Hw (accs & Hs & ->)%sendAccept_Ok. rewrite accept_out_msgs. by eapply bundle_sends.
Qed.

Lemma bundle_handleProm gmi ms reqs p m p' b :
  prop_bundle ms reqs p → MPromise m ∈ ms → handleProm gmi p m = Ok (p', b) →
  prop_bundle ms reqs p'.
Proof.
  intros [Ha Hp] Hm Hrun. split; [done|].
  pose proof (handleProm_counted gmi p m p' b (pi_counted _ _ _ _ _ Hp) Hrun) as Hc.
  destruct (handleProm_Ok gmi p m p' b Hrun) as [(-> & _)|(_ & _ & _ & _ & Heq & _)]; [done|].
  destruct Hp as [P1 P2 P3 P4 P5 P6 P7 P8 P9 P10 P11 P12 P13].
  rewrite Heq in Hc |- *. split; try done.
  intros k m'. cbn. rewrite list_lookup_insert_Some. intros [(_ & [= <-] & _)|(_ & Hk)]; [done|].
  by eapply P10.
Qed.

(** A quorum of promises completes phase 1. *)
Lemma bundle_complete gmi ms reqs p m p' :
  promises_inv ms rnd → votes_inv ms → gm_Quorum gmi = Q → p_adu p + 1 < 2 ^ 64 →
  prop_bundle ms reqs p → MPromise m ∈ ms → handleProm gmi p m = Ok (p', true) →
  let q := (setStateFromPromises p') <| p_phaseOneDone := true |> in
  prop_bundle ms reqs (q <| p_nextSlot := u64 (p_adu q + 1) |>).
Proof.
  intros Hprom Hvotes Hgq Hadu Hb Hm Hrun. cbn zeta.
  pose proof (bundle_handleProm gmi ms reqs p m p' true Hb Hm Hrun) as [Ha Hp].
  assert (p_phaseOneDone p' = false ∧ p_adu p' = p_adu p) as [Hopen Hadu'].
  { destruct (handleProm_Ok gmi p m p' true Hrun) as [(_ & ? & _)|(Hd & _ & _ & _ & -> & _)]; done. }
  assert (Q ≤ Z.of_nat (count_some (p_phaseOnePromises p'))) as Hquorum.
  { pose proof (pi_counted _ _ _ _ _ Hp) as (_ & Hcount & _). rewrite <- Hcount.
    destruct (handleProm_Ok gmi p m p' true Hrun) as [(_ & ? & _)|(_ & _ & _ & _ & _ & Hlt)]; [done|].
    symmetry in Hlt. apply negb_true_iff, bool_decide_eq_false in Hlt. rewrite Hgq in Hlt. lia. }
  rewrite setStateFromPromises_fold.
  destruct (set_proposals_spec (all_slots (p_phaseOnePromises p')) p') as (Hf & Hq & Hids & Hat).
  destruct Hf as (F1 & F2 & F3 & F4 & F5 & F6 & F7 & F8 & F9 & F10).
  set (q := foldl set_proposal p' _) in *.
  pose proof Hp as [P1 P2 P3 P4 P5 P6 P7 P8 P9 P10 P11 P12 P13].
  split; [done|]. split; cbn; rewrite ?F1, ?F4, ?F6, ?F8; nowrap.
  - done.
  - done.
  - done.
  - lia.
  - by apply Hids.
  - intros a Hin Hi. destruct (P6 a Hin Hi) as [Hle Hn]. split; [done|].
    intros E. destruct (Hn E) as [Hd _]. congruence.
  - intros s a Hw. lia.
  - intros s a. specialize (Hat s). unfold prop_at in *. cbn. intros Hsa.
    case_decide as Hs; [|rewrite Hat in Hsa; by apply P8].
    rewrite Hsa in Hat. destruct Hat as [Hin _].
    eapply (candidate_accepted ms rnd reqs); done.
  - unfold promises_counted. cbn. by rewrite ?F8, ?F9, ?F10.
  - intros k m'. rewrite F9. apply P10.
  - intros _. split.
    + destruct (promise_quorum ms rnd reqs Hprom i p' Hp Hquorum) as (qs & Hqs & Hall).
      destruct (quorum_inhabited qs Hqs) as [a Hin].
      destruct (Hall a Hin) as (m' & pr & _ & _ & Hr & Hpr & _).
      destruct (mi_prepare _ _ _ _ Hpr) as [Hpin Hcr].
      rewrite <- Hr, <- Hcr. apply (P12 pr Hpin). rewrite Hcr, Hr. apply P1.
    + intros s Hs. specialize (Hat s). rewrite decide_True in Hat by lia.
      unfold prop_safe, prop_at in *. cbn. rewrite ?F8.
      assert (∀ v, match ps_Proposal (pslot (p_slots q) s) with
        | Some a => v = acc_Val a | None => True end → safe_at ms rnd s (p_crnd p') v) as Hsafe.
      { intros v Hv. eapply (phase_one_safe ms rnd reqs Ha Hvotes Hprom i p' Hp Hquorum); [lia|exact Hat|done]. }
      destruct (ps_Proposal (pslot (p_slots q) s)); [by apply Hsafe|]. intros v. by apply Hsafe.
  - done.
  - rewrite Hq. done.
Qed.

(** A pass of resends repeats accepts of the window and starts new rounds. *)
Lemma bundle_resend gmi ms reqs p :
  gm_LrEnabled gmi = false → 0 ≤ gm_NrOfNodes gmi < 2 ^ 63 →
  prop_bundle ms reqs p → p_adu p + 1 < 2 ^ 64 → RndNo (p_crnd p) + p_nextSlot p + 1 < 2 ^ 64 →
  let '(p', outs) := resendAcceptsIfNecessary gmi p in
  prop_bundle (ms ++ prop_out_msgs outs) reqs p' ∧ grows ms (ms ++ prop_out_msgs outs).
Proof.
  intros Hlr Hnodes Hb Hadu Hr.
  pose proof (pi_adu _ _ _ _ _ (proj2 Hb)) as Hadu0. pose proof (pi_next _ _ _ _ _ (proj2 Hb)) as Hnext.
  pose (P (k : nat) q outs := prop_bundle (ms ++ prop_out_msgs outs) reqs q ∧
    grows ms (ms ++ prop_out_msgs outs) ∧ p_adu q = p_adu p ∧ p_nextSlot q = p_nextSlot p ∧
    RndNo (p_crnd q) ≤ RndNo (p_crnd p) + Z.of_nat k).
  pose proof (resend_ind gmi P p) as Hind.
  destruct (resendAcceptsIfNecessary gmi p) as [p' outs].
  destruct Hind as [k HP]; [..|by destruct HP as (? & ? & _)]; unfold P.
  - cbn. rewrite app_nil_r. split_and!; [done|apply grows_refl|done|done|lia].
  - intros k q outs' (? & ? & ? & ? & ?). split_and!; try done. lia.
  - intros k q outs' q' (B & Gr & Ea & En & Ek) Hf Hs Hq.
    pose proof Hf as (_ & _ & _ & F4 & F5 & _ & _ & F8 & _). rewrite F4, F5, F8.
    split_and!; try done. eapply bundle_quiet; [done..|by rewrite Hq].
  - intros k q outs' i0 a (B & Gr & Ea & En & Ek) Hi Hat. rewrite prop_out_msgs_app, app_assoc.
    cbn. apply elem_of_range in Hi. nowrap_in Hi.
    assert (MAccept a ∈ ms ++ prop_out_msgs outs') as Hin.
    { eapply (pi_window _ _ _ _ _ (proj2 B)); [|done]. lia. }
    split_and!; [by apply bundle_repeat| |done..].
    eapply grows_trans; [exact Gr|]. apply grows_snoc. by right.
  - intros k q outs' Hk (B & Gr & Ea & En & Ek).
    assert (Z.of_nat k < p_nextSlot p) as Hkn.
    { apply Nat2Z.inj_lt in Hk. unfold range in Hk. rewrite length_seqZ in Hk. nowrap_in Hk. lia. }
    pose proof (bundle_startPhaseOne gmi false _ _ q Hlr Hnodes B ltac:(lia)) as Hst.
    pose proof (startPhaseOne_spec gmi false q) as Hsp.
    destruct (startPhaseOne gmi false q) as [q' o]. destruct Hst as [B' Gr'], Hsp as [Hsp _].
    destruct Hsp as (_ & _ & _ & S4 & S5 & _ & _ & S8 & _).
    rewrite prop_out_msgs_app, app_assoc, S4, S5, S8.
    split_and!; [done|by eapply grows_trans|done|done|].
    pose proof (pi_crnd _ _ _ _ _ (proj2 B)). unfold Next. cbn. nowrap. lia.
Qed.

(** Events that only change fields outside the invariant. *)
Lemma bundle_fields ms reqs p p' :
  prop_bundle ms reqs p →
  p_id p' = p_id p → p_crnd p' = p_crnd p → p_lr p' = p_lr p → p_adu p' = p_adu p →
  p_nextSlot p' = p_nextSlot p → p_slots p' = p_slots p → p_phaseOneDone p' = p_phaseOneDone p →
  p_phaseOnePromises p' = p_phaseOnePromises p → p_phaseOneCount p' = p_phaseOneCount p →
  p_reqQueue p' ⊆ reqs → prop_bundle ms reqs p'.
Proof.
  intros [Ha [P1 P2 P3 P4 P5 P6 P7 P8 P9 P10 P11 P12 P13]] E1 E2 E3 E4 E5 E6 E7 E8 E9 Hq.
  split; [done|]. split; unfold prop_at, slot_ids_ok, promises_counted, prop_safe, prop_at in *;
    by rewrite ?E1, ?E2, ?E3, ?E4, ?E5, ?E6, ?E7, ?E8, ?E9.
Qed.

Lemma bundle_advanceAdu ms reqs p :
  prop_bundle ms reqs p → p_adu p + 1 < 2 ^ 64 → prop_bundle ms reqs (advanceAdu p).
Proof.
  intros [Ha [P1 P2 P3 P4 P5 P6 P7 P8 P9 P10 P11 P12 P13]] Hn. split; [done|].
  split; try done; unfold advanceAdu; cbn; nowrap; try lia.
  - intros s a Hw. apply P7. lia.
  - intros pr Hin Hi. destruct (P12 pr Hin Hi) as (? & ? & ?). split_and!; [lia|done..].
Qed.

Lemma bundle_reqs ms reqs reqs' p :
  reqs ⊆ reqs' → prop_bundle ms reqs p → prop_bundle ms reqs' p.
Proof.
  intros Hs [Ha Hp].
  assert (extends ms rnd ms rnd) as Hext by (split_and!; [done|intros; apply rle_refl|by left]).
  split; [by eapply accepts_inv_stable|by eapply prop_inv_stable].
Qed.

Definition reqs_after (ev : PropEvent) (reqs : list Value) : list Value :=
  match ev with PropValue v => v :: reqs | _ => reqs end.

Lemma proposer_step_bundle gmi ms reqs p ev p' outs :
  gm_LrEnabled gmi = false → 0 ≤ gm_NrOfNodes gmi < 2 ^ 63 → gm_Quorum gmi = Q →
  gm_GetID gmi = i → promises_inv ms rnd → votes_inv ms →
  prop_bundle ms reqs p → prop_nowrap p → prop_enabled ms ev →
  proposer_step gmi p ev = Ok (p', outs) →
  prop_bundle (ms ++ prop_out_msgs outs) (reqs_after ev reqs) p' ∧
  grows ms (ms ++ prop_out_msgs outs).
Proof.
  intros Hlr Hnodes Hgq Hid Hprom Hvotes Hb [Hwin Hrnd] Hen Hrun.
  pose proof (pi_adu _ _ _ _ _ (proj2 Hb)) as Hadu0. pose proof (pi_next _ _ _ _ _ (proj2 Hb)) as Hnext0.
  pose proof Hwin as (_ & W2 & W3 & W4 & W5). cbn in W2, W3, W4, W5.
  assert (window_nowrap p) as Hwp by (unfold window_nowrap; lia).
  assert (∀ p outs, prop_bundle ms reqs p → prop_out_msgs outs = [] →
    prop_bundle (ms ++ prop_out_msgs outs) reqs p ∧ grows ms (ms ++ prop_out_msgs outs)) as Hsilent.
  { intros q o Hq ->. rewrite app_nil_r. split; [done|apply grows_refl]. }
  pose proof (pi_queue _ _ _ _ _ (proj2 Hb)) as Hqueue.
  pose proof (proj1 (pi_id _ _ _ _ _ (proj2 Hb))) as Hpid.
  destruct ev as [|v|t|m| | | |]; cbn [proposer_step reqs_after] in *.
  - (* decided progress *)
    pose proof (bundle_advanceAdu ms reqs p Hb ltac:(lia)) as Hb'.
    destruct (isLeaderAndPhaseOneComplete (advanceAdu p)) eqn:E; cbn [negb] in Hrun.
    + apply bind_Ok in Hrun as ([q o] & Hs & Hrun). injection Hrun as <- <-.
      apply andb_true_iff in E as [_ E].
      change (prop_out_msgs (PropTimer2 :: o)) with (prop_out_msgs o).
      eapply bundle_sendAccept; [exact Hb'|exact E| |exact Hs].
      unfold advanceAdu, window_nowrap in *. cbn in *. nowrap. lia.
    + injection Hrun as <- <-. by apply Hsilent.
  - (* a client value *)
    assert (prop_bundle ms (v :: reqs) p) as Hb1 by (apply (bundle_reqs ms reqs); [set_solver|done]).
    assert (prop_bundle ms (v :: reqs) (p <| p_reqQueue ::= λ q, q ++ [v] |>)) as Hb2.
    { eapply bundle_fields; try exact Hb1; try done. cbn. set_solver. }
    case_bool_decide.
    + injection Hrun as <- <-. cbn. rewrite app_nil_r. split; [done|apply grows_refl].
    + set (pq := p <| p_reqQueue ::= λ q, q ++ [v] |>) in *.
      destruct (p_phaseOneDone pq) eqn:E.
      * eapply bundle_sendAccept; [exact Hb2|exact E|done|exact Hrun].
      * injection Hrun as <- <-. cbn. rewrite app_nil_r. split; [done|apply grows_refl].
  - (* trust *)
    case_bool_decide; [injection Hrun as <- <-; by apply Hsilent|].
    assert (prop_bundle ms reqs (p <| p_leader := t |>)) as Hb1 by by eapply bundle_fields.
    case_bool_decide; [injection Hrun as <- <-; by apply Hsilent|].
    pose proof (bundle_startPhaseOne gmi true ms reqs (p <| p_leader := t |>) Hlr Hnodes Hb1
      ltac:(cbn; lia)) as Hst.
    apply (Ok_inj _ (p', outs)) in Hrun. by rewrite Hrun in Hst.
  - (* a promise *)
    apply bind_Ok in Hrun as ([q b] & Hh & Hrun).
    unfold handlePromise in Hh. rewrite (proj2 (proj2 (pi_id _ _ _ _ _ (proj2 Hb)))) in Hh.
    destruct b; cbn [negb] in Hrun.
    + pose proof (bundle_complete gmi ms reqs p m q Hprom Hvotes Hgq ltac:(lia) Hb Hen Hh) as Hc.
      cbn zeta in Hc.
      assert (p_adu (setStateFromPromises q) = p_adu p ∧ p_alpha (setStateFromPromises q) = p_alpha p) as [Ea Eal].
      { rewrite setStateFromPromises_fold.
        destruct (set_proposals_spec (all_slots (p_phaseOnePromises q)) q)
          as ((_ & _ & F3 & F4 & _) & _). rewrite F3, F4.
        by destruct (handleProm_Ok gmi p m q true Hh) as [[-> _]|(_ & _ & _ & _ & -> & _)]. }
      eapply bundle_sendAccept; [exact Hc|done| |exact Hrun].
      unfold window_nowrap. cbn. rewrite Ea, Eal. nowrap. lia.
    + injection Hrun as <- <-. apply Hsilent; [|done]. by eapply bundle_handleProm.
  - (* phase 1 timeout *)
    destruct (_ || _); [injection Hrun as <- <-; by apply Hsilent|].
    pose proof (bundle_startPhaseOne gmi true ms reqs p Hlr Hnodes Hb ltac:(lia)) as Hst.
    apply (Ok_inj _ (p', outs)) in Hrun. by rewrite Hrun in Hst.
  - (* phase 2 timeout *)
    pose proof (bundle_resend gmi ms reqs p Hlr Hnodes Hb ltac:(lia) Hrnd) as Hst.
    apply (Ok_inj _ (p', outs)) in Hrun. by rewrite Hrun in Hst.
  - (* hold *)
    injection Hrun as <- <-. apply Hsilent; [|done]. unfold proposer_handleGrpHold.
    rewrite Hid. destruct Hb as [Ha Hp].
    assert (SetOwner (p_crnd p) i = p_crnd p) as Hown.
    { destruct (pi_id _ _ _ _ _ Hp) as (_ & Hri & _). unfold SetOwner.
      destruct (p_crnd p). cbn in *. congruence. }
    eapply bundle_fields; [by split|..]; destruct (bool_decide _); cbn; try done.
  - (* stop *)
    injection Hrun as <- <-. apply Hsilent; [|done]. by eapply bundle_fields.
Qed.

End proposer.

(** * Runs of the system *)

Section runs.
Context (leader : ID → ID) (alpha first : Z).

Definition init : Sys := {|
  s_props i := NewMultiProposer (gm i) i true (leader i) alpha first;
  s_accs i := NewMultiAcceptor (gm i) i true (leader i) first;
  s_lrns i := NewMultiLearner (gm i) i true (leader i) first;
  s_msgs := []; s_log _ := []; s_requests := [] |}.

Definition reachable (s : Sys) : Prop := rtc step init s.

Record lrn_inv ms (l : MultiLearner) (log : list (SlotID * Value)) : Prop := {
  li_lr : l_lr l = false;
  li_counted : learner_counted l;
  li_votes : ∀ s k m, ls_Learns (lslot (l_slots l) s) !! k = Some (Some m) → MLearn m ∈ ms;
  li_chosen : ∀ s, learned l s = true → chosen ms s (learned_val l s);
  li_decided : ∀ s, decided l s = true → learned l s = true;
  li_next : first ≤ l_next l;
  li_log : log = (λ s, (s, learned_val l s)) <$> range first (l_next l);
  li_log_decided : ∀ s, first ≤ s < l_next l → decided l s = true;
}.
Record Inv (s : Sys) : Prop := {
  inv_accepts : accepts_inv (s_msgs s) (acc_rnd s) (s_requests s);
  inv_votes : votes_inv (s_msgs s);
  inv_accs : ∀ i, i ∈ acceptors → acc_inv (s_msgs s) i (s_accs s i);
  inv_promises : promises_inv (s_msgs s) (acc_rnd s);
  inv_props : ∀ i, prop_inv (s_msgs s) (acc_rnd s) (s_requests s) i (s_props s i);
  inv_lrns : ∀ i, lrn_inv (s_msgs s) (s_lrns s i) (s_log s i);
  inv_resps : responses_inv (s_msgs s);
}.

Lemma lrn_inv_stable ms ms' l log :
  ms ⊆ ms' → lrn_inv ms l log → lrn_inv ms' l log.
Proof.
  intros Hms [L1 L2 L3 L4 L5 L6 L7 L8]. split; try done.
  - intros s k m Hm. by eapply Hms, L3.
  - intros s Hl. by eapply chosen_mono, L4.
Qed.


(** ** A proposer's step preserves the invariant *)

Lemma inv_step_prop s i ev p outs :
  Inv s → prop_enabled (s_msgs s) ev → prop_nowrap (s_props s i) →
  proposer_step (gm i) (s_props s i) ev = Ok (p, outs) →
  Inv (s <| s_props ::= <[i := p]> |> <| s_msgs ::= λ ms, ms ++ prop_out_msgs outs |>
         <| s_requests ::= λ rs, match ev with PropValue v => v :: rs | _ => rs end |>).
Proof.
  intros [IA IV IC IM IP IL IR] Hen Hnw Hrun.
  pose proof (fg_laws i) as Hlaws.
  destruct (proposer_step_bundle (acc_rnd s) i (gm i) (s_msgs s) (s_requests s) (s_props s i)
    ev p outs) as [[Ha Hp] Hg]; try done;
    [apply fg_lr|apply gm_nodes_small|apply fg_quorum|apply fg_id|].
  pose proof (grows_extends (acc_rnd s) i _ _ Hg) as Hext.
  destruct Hg as (new & Enew & Hnew). rewrite Enew in *.
  assert (∀ x, x ∈ s_msgs s ++ new → x ∈ s_msgs s ∨ own_msg i (s_msgs s) x) as Hin.
  { intros x [?|?]%elem_of_app; [by left|right; by apply Hnew]. }
  assert (s_requests s ⊆ reqs_after ev (s_requests s)) as Hreqs by (destruct ev; set_solver).
  assert (∀ a t r v, vote (s_msgs s ++ new) a t r v → vote (s_msgs s) a t r v) as Hvotes.
  { intros a t r v [e [?|[]]%Hin]. by exists e. }
  split; cbn; rewrite ?Enew; unfold acc_rnd; cbn; fold (acc_rnd s).
  - exact Ha.
  - intros a t r v Hv%Hvotes. destruct (IV _ _ _ _ Hv) as (? & b & ? & ?).
    split; [done|]. exists b. rewrite elem_of_app. auto.
  - intros j Hj. eapply acc_inv_stable; [exact Hext|apply Hvotes|by apply IC].
  - intros m Hm%Hin. destruct Hm as [Hm|[]]. destruct (IM m Hm) as [pr ?]. exists pr.
    by eapply promise_inv_stable.
  - intros j. destruct (decide (j = i)) as [->|Hne]; [by rewrite fn_lookup_insert|].
    rewrite fn_lookup_insert_ne by done.
    eapply prop_inv_stable; [exact Hext|exact Hreqs| | |apply IP].
    + intros a [?|[Hi|?]]%Hin Hj; [done| |done]. exfalso. by apply Hne; rewrite <- Hj, Hi.
    + intros pr [?|Hi]%Hin Hj; [done|]. exfalso. apply Hne. rewrite <- Hj. exact Hi.
  - intros j. eapply lrn_inv_stable; [|apply IL]. apply Hext.
  - intros c t [Hc|[]]%Hin Ht. eapply chosen_mono; [apply Hext|by apply (IR c)].
Qed.

(** ** An acceptor's step preserves the invariant *)

Lemma acceptor_step_regular (gma : G) a ev a' outs :
  gm_GetID gma = a_id a → acceptor_wf a → a_mode a = AccRegular →
  acceptor_step gma a ev = Ok (a', outs) →
  a_mode a' = AccRegular ∧ a_id a' = a_id a ∧
  ((∀ j, aslot (a_slots a') j = aslot (a_slots a) j) ∧
     asm_Rnd (a_slots a') = asm_Rnd (a_slots a) ∧ acc_out_msgs outs = [] ∨
   (∃ m, ev = AccPrepare m ∧ asm_Rnd (a_slots a) ≺ prep_CRnd m ∧
      acc_out_msgs outs = [MPromise (promise_for [] a m)] ∧
      (∀ j, aslot (a_slots a') j = aslot (a_slots a) j) ∧ asm_Rnd (a_slots a') = prep_CRnd m) ∨
   (∃ m, ev = AccAccept m ∧ asm_Rnd (a_slots a) ≼ acc_Rnd m ∧
      acc_out_msgs outs = [MLearn (mkLearn (a_id a) (acc_Slot m) (acc_Rnd m) (acc_Val m) [])] ∧
      asm_Rnd (a_slots a') = acc_Rnd m ∧
      ∀ j, aslot (a_slots a') j = if decide (j = acc_Slot m)
        then mkAcceptorSlot (acc_Slot m) (acc_Rnd m) (acc_Val m) else aslot (a_slots a) j)).
Proof.
  intros Hid Hwf Hmode. destruct ev as [m|m|t|sl| |]; cbn [acceptor_step].
  - unfold handlePrepare. rewrite Hmode. intros Hrun.
    apply bind_Ok in Hrun as ([a1 o] & Hh & Hrun). injection Hrun as <- <-.
    destruct (handle_prep_body_Ok _ _ _ _ _ Hh)
      as [(_ & -> & ->)|(Hlt & -> & sm & -> & Hsm)]; [by split_and!; auto|].
    do 2 (split; [done|]). right. left. exists m. split_and!; [done..| |].
    + intros j. cbn. by rewrite Hsm.
    + cbn. by rewrite Hsm.
  - unfold handleAccept, handleAcc. rewrite Hmode. cbn zeta.
    assert (a_mode (mark_processing a) = a_mode a ∧ a_id (mark_processing a) = a_id a ∧
      a_slots (mark_processing a) = a_slots a) as (M1 & M2 & M3)
      by (unfold mark_processing; by destruct (negb _)).
    case_bool_decide.
    { intros [= <- <-]. rewrite M1, M2, M3. by split_and!; auto. }
    pose proof (handle_acc_body_cases [] (mark_processing a) m) as Hc.
    destruct (handle_acc_body [] (mark_processing a) m) as [a1 o].
    intros Hrun. injection Hrun as <- <-. rewrite M2, M3 in Hc.
    destruct Hc as [(_ & -> & ->)|(Hle & _ & -> & sm & -> & Hr & _ & Hs)]; cbn.
    + rewrite M1, M2. do 2 (split; [done|]). left. split_and!; [|apply asm_Rnd_GetSlot|done].
      intros j. apply aslot_GetSlot.
    + rewrite M1, M2. do 2 (split; [done|]). right. right. exists m.
      rewrite (awf_id _ Hwf) in *. split_and!; done.
  - intros [= <- <-]. by split_and!; auto.
  - intros Hrun. apply bind_Ok in Hrun as ([a1 sm] & Hh & Hrun). injection Hrun as <- <-.
    apply bind_Ok in Hh as (? & _ & Hh). injection Hh as <- <-. cbn. by split_and!; auto.
  - intros [= <- <-]. by split_and!; auto.
  - intros [= <- <-]. by split_and!; auto.
Qed.

(** Acceptor [i] moves to [a] and sends [new]. *)
Definition acc_moved s (i : ID) (a : MultiAcceptor) (new : list Msg) : Sys :=
  s <| s_accs ::= <[i := a]> |> <| s_msgs ::= λ ms, ms ++ new |>.

Lemma acc_rnd_moved s i a new j :
  acc_rnd (acc_moved s i a new) j = if decide (j = i) then asm_Rnd (a_slots a) else acc_rnd s j.
Proof.
  unfold acc_rnd, acc_moved. cbn. case_decide as E; [subst; by rewrite fn_lookup_insert|].
  by rewrite fn_lookup_insert_ne.
Qed.

(** The rest of the invariant when an acceptor only sends promises and votes. *)
Lemma inv_acc_frame s i a new :
  Inv s → extends (s_msgs s) (acc_rnd s) (s_msgs s ++ new) (acc_rnd (acc_moved s i a new)) →
  (∀ x, x ∈ new → (∃ m, x = MPromise m) ∨ ∃ ev t r v, x = MLearn (mkLearn i t r v ev)) →
  votes_inv (s_msgs s ++ new) → acc_inv (s_msgs s ++ new) i a →
  promises_inv (s_msgs s ++ new) (acc_rnd (acc_moved s i a new)) →
  Inv (acc_moved s i a new).
Proof.
  intros [IA IV IC IM IP IL IR] Hext Hnew Hv Ha Hpr.
  assert (∀ x, x ∈ s_msgs s ++ new → x ∈ s_msgs s ∨ (∃ m, x = MPromise m) ∨
    ∃ ev t r v, x = MLearn (mkLearn i t r v ev)) as Hin.
  { intros x [?|?]%elem_of_app; [by left|right; by apply Hnew]. }
  split; cbn [acc_moved s_msgs s_props s_lrns s_log s_requests s_accs update].
  - eapply accepts_inv_stable; [exact Hext|reflexivity| |exact IA].
    intros b [?|[[? ?]|(? & ? & ? & ? & ?)]]%Hin; done.
  - exact Hv.
  - intros j Hj. destruct (decide (j = i)) as [->|Hne]; [by rewrite fn_lookup_insert|].
    rewrite fn_lookup_insert_ne by done. eapply acc_inv_stable; [exact Hext| |by apply IC].
    intros t r v [ev [?|[[? ?]|(? & ? & ? & ? & E)]]%Hin]; [by exists ev|done|].
    injection E as <-. done.
  - exact Hpr.
  - intros j. eapply prop_inv_stable; [exact Hext|reflexivity| | |apply IP].
    + intros b [?|[[? ?]|(? & ? & ? & ? & ?)]]%Hin; done.
    + intros b [?|[[? ?]|(? & ? & ? & ? & ?)]]%Hin; done.
  - intros j. eapply lrn_inv_stable; [apply Hext|apply IL].
  - intros c t [Hc|[[? ?]|(? & ? & ? & ? & ?)]]%Hin Ht; [|done..].
    eapply chosen_mono; [apply Hext|by apply (IR c)].
Qed.

(** The promise an acceptor answers a prepare with satisfies its invariant. *)
Lemma promise_for_inv s rnd' i m :
  Inv s → i ∈ acceptors → MPrepare m ∈ s_msgs s →
  asm_Rnd (a_slots (s_accs s i)) ≺ prep_CRnd m → rnd' i = prep_CRnd m →
  promise_inv (s_msgs s) rnd' (promise_for [] (s_accs s i) m) m.
Proof.
  intros [IA IV IC IM IP IL IR] Hi Hm Hlt Hrnd.
  destruct (IC i Hi) as [A1 A2 [W1 W2 W3] A4 A5].
  split; cbn; rewrite ?A1; try done.
  - rewrite Hrnd. apply rle_refl.
  - intros t r v Ht Hv Hr. exists (aslot (a_slots (s_accs s i)) t).
    pose proof (A4 _ _ _ Hv) as Hle.
    assert (voted (aslot (a_slots (s_accs s i)) t)) as Hvoted.
    { eapply rlt_rle_trans; [|exact Hle]. destruct (IV _ _ _ _ Hv) as [_ (b & Hb & _ & <- & _)].
      pose proof (ai_round _ _ _ IA b Hb). left. cbn. lia. }
    split; [|by rewrite W1]. apply elem_of_app. right. apply elem_of_votes_between.
    exists t. split_and!; [done|by apply W3|done|done].
  - intros x [Hx|Hx]%elem_of_app; [left; by eapply elem_of_promise_prefix|right].
    apply elem_of_votes_between in Hx as (k & _ & -> & Hk). rewrite W1. split; [by apply A5|].
    eapply rle_rlt_trans; [apply W2|done].
Qed.

Lemma inv_step_acc s i ev a outs :
  Inv s → i ∈ acceptors → acc_enabled (s_msgs s) ev →
  acceptor_step (gm i) (s_accs s i) ev = Ok (a, outs) →
  Inv (acc_moved s i a (acc_out_msgs outs)).
Proof.
  intros HI Hi Hen Hrun. pose proof HI as [IA IV IC IM IP IL IR].
  destruct (IC i Hi) as [A1 A2 A3 A4 A5].
  destruct (acceptor_step_progress _ _ _ _ _ A3 Hrun) as [Hwf' _].
  destruct (acceptor_step_regular (gm i) (s_accs s i) ev a outs) as (M1 & M2 & Hcase); try done.
  { by rewrite fg_id, A1. }
  assert (∀ new, asm_Rnd (a_slots (s_accs s i)) ≼ asm_Rnd (a_slots a) →
    (∀ l, MLearn l ∈ new → lrn_ID l = i ∧ asm_Rnd (a_slots (s_accs s i)) ≼ lrn_Rnd l) →
    extends (s_msgs s) (acc_rnd s) (s_msgs s ++ new) (acc_rnd (acc_moved s i a new))) as Hext.
  { intros new Hle Hn. split_and!.
    - intros x. rewrite elem_of_app. auto.
    - intros j. rewrite acc_rnd_moved. case_decide; [by subst|apply rle_refl].
    - intros j t r v [ev' [?|Hl]%elem_of_app]; [left; by exists ev'|right].
      destruct (Hn _ Hl) as [Hj Hr]. cbn in Hj, Hr. by subst j. }
  destruct Hcase as [(Hs & Hr & ->)|[(m & -> & Hlt & -> & Hs & Hr)|(m & -> & Hle & -> & Hr & Hs)]].
  - (* silent *)
    specialize (Hext []). apply inv_acc_frame; try done; rewrite ?app_nil_r in *.
    + apply Hext; [rewrite Hr; apply rle_refl|by intros ? ?%elem_of_nil].
    + by intros x ?%elem_of_nil.
    + exact IV.
    + split; [congruence|done|done|..]; intros *; rewrite Hs; [apply A4|apply A5].
    + intros m Hm. destruct (IM m Hm) as [pr ?]. exists pr.
      eapply promise_inv_stable; [|done|done].
      apply Hext; [rewrite Hr; apply rle_refl|by intros ? ?%elem_of_nil].
  - (* a promise *)
    set (pm := promise_for [] (s_accs s i) m) in *.
    assert (extends (s_msgs s) (acc_rnd s) (s_msgs s ++ [MPromise pm])
      (acc_rnd (acc_moved s i a [MPromise pm]))) as He.
    { apply Hext; [rewrite Hr; by right|]. by intros ? ?%list_elem_of_singleton. }
    assert (∀ j t r v, vote (s_msgs s ++ [MPromise pm]) j t r v → vote (s_msgs s) j t r v) as Hvotes.
    { intros j t r v [ev' [?|?%list_elem_of_singleton]%elem_of_app]; [by exists ev'|done]. }
    apply inv_acc_frame; try done.
    + intros x ->%list_elem_of_singleton. left. eauto.
    + intros j t r v Hv%Hvotes. destruct (IV _ _ _ _ Hv) as (? & b & ? & ?).
      split; [done|]. exists b. rewrite elem_of_app. auto.
    + split; [congruence|done|done|..].
      * intros t r v Hv%Hvotes. rewrite Hs. by eapply A4.
      * intros t. rewrite Hs. intros Hv. eapply vote_mono; [apply He|by apply A5].
    + intros m' [Hm|Hm]%elem_of_app.
      * destruct (IM m' Hm) as [pr ?]. exists pr. by eapply promise_inv_stable.
      * apply list_elem_of_singleton in Hm as [= ->]. exists m.
        assert (promise_inv (s_msgs s) (acc_rnd (acc_moved s i a [MPromise pm])) pm m) as [P1 P2 P3 P4 P5].
        { apply promise_for_inv; try done. rewrite acc_rnd_moved, decide_True by done. done. }
        split; try done.
        -- destruct P3. rewrite elem_of_app. auto.
        -- intros t r v Ht Hv%Hvotes. by eapply P4.
        -- intros x Hx. destruct (P5 x Hx) as [?|[? ?]]; [by left|right]. split; [|done].
           eapply vote_mono; [apply He|done].
  - (* a vote *)
    rewrite A1. set (l := mkLearn i _ _ _ _).
    assert (extends (s_msgs s) (acc_rnd s) (s_msgs s ++ [MLearn l])
      (acc_rnd (acc_moved s i a [MLearn l]))) as He.
    { apply Hext; [by rewrite Hr|]. intros l' Hl%list_elem_of_singleton. injection Hl as ->. done. }
    assert (∀ j t r v, vote (s_msgs s ++ [MLearn l]) j t r v → vote (s_msgs s) j t r v ∨
      (j = i ∧ t = acc_Slot m ∧ r = acc_Rnd m ∧ v = acc_Val m)) as Hvotes.
    { intros j t r v [ev' [?|E%list_elem_of_singleton]%elem_of_app]; [left; by exists ev'|right].
      unfold l in E. by injection E as -> -> -> -> ->. }
    assert (vote (s_msgs s ++ [MLearn l]) i (acc_Slot m) (acc_Rnd m) (acc_Val m)) as Hnew.
    { exists []. rewrite elem_of_app, list_elem_of_singleton. by right. }
    apply inv_acc_frame; try done.
    + intros x ->%list_elem_of_singleton. right. unfold l. eauto.
    + intros j t r v [Hv|(-> & -> & -> & ->)]%Hvotes.
      * destruct (IV _ _ _ _ Hv) as (? & b & ? & ?).
        split; [done|]. exists b. rewrite elem_of_app. auto.
      * split; [done|]. exists m. rewrite elem_of_app. auto.
    + split; [congruence|done|done|..].
      * intros t r v [Hv|(_ & -> & -> & ->)]%Hvotes; rewrite Hs.
        -- case_decide; [|by eapply A4]. cbn. subst t.
           eapply rle_trans; [by eapply A4|]. eapply rle_trans; [apply A3|done].
        -- rewrite decide_True by done. apply rle_refl.
      * intros t. rewrite Hs. case_decide; [by subst|]. intros Hv.
        eapply vote_mono; [apply He|by apply A5].
    + intros m' [Hm|?%list_elem_of_singleton]%elem_of_app; [|done].
      destruct (IM m' Hm) as [pr ?]. exists pr. by eapply promise_inv_stable.
Qed.

(** ** A learner's step preserves the invariant *)

(** A change of the slots that keeps what is learned and decided. *)
Lemma lrn_inv_slots ms l l' log :
  lrn_inv ms l log → l_lr l' = l_lr l → l_next l' = l_next l → learner_counted l' →
  (∀ s k m, ls_Learns (lslot (l_slots l') s) !! k = Some (Some m) → MLearn m ∈ ms) →
  (∀ s, learned l' s = learned l s ∧ decided l' s = decided l s ∧ learned_val l' s = learned_val l s) →
  lrn_inv ms l' log.
Proof.
  intros [L1 L2 L3 L4 L5 L6 L7 L8] E1 E2 Hc Hv Hs. split; rewrite ?E1, ?E2; try done.
  - intros s. destruct (Hs s) as (-> & _ & ->). apply L4.
  - intros s. destruct (Hs s) as (-> & -> & _). apply L5.
  - rewrite L7. apply list_fmap_ext. intros k s _. by destruct (Hs s) as (_ & _ & ->).
  - intros s Hr. destruct (Hs s) as (_ & -> & _). by apply L8.
Qed.

Lemma lrn_inv_touched ms l l' log :
  lrn_inv ms l log → slots_touched l l' → lrn_inv ms l' log.
Proof.
  intros HL (sm & -> & Hsm). pose proof HL as [L1 L2 L3 _ _ _ _ _].
  eapply lrn_inv_slots; [exact HL|done|done|..].
  - intros s. cbn. rewrite Hsm. apply L2.
  - intros s. cbn. rewrite Hsm. apply L3.
  - intros s. unfold learned, decided, learned_val. cbn. by rewrite Hsm.
Qed.

(** Slot [s] becomes learned with a chosen value. *)
Lemma lrn_inv_learn ms l l' log s v :
  lrn_inv ms l log → chosen ms s v → learned l s = false →
  l_lr l' = l_lr l → l_next l' = l_next l →
  (∀ j, lslot (l_slots l') j = if decide (j = s)
     then (lslot (l_slots l) s) <| ls_Learned := true |> <| ls_LearnedVal := v |>
     else lslot (l_slots l) j) →
  lrn_inv ms l' log.
Proof.
  intros [L1 L2 L3 L4 L5 L6 L7 L8] Hch Hl E1 E2 Hs.
  assert (∀ j, first ≤ j < l_next l → j ≠ s) as Hlog.
  { intros j Hj%L8%L5 ->. congruence. }
  split; rewrite ?E1, ?E2; try done.
  - intros j. rewrite Hs. case_decide; [subst|apply L2]. destruct (L2 s). by split.
  - intros j k m. rewrite Hs. case_decide; [subst; cbn|]; apply L3.
  - intros j. unfold learned, learned_val. rewrite Hs. case_decide; [by subst|apply L4].
  - intros j. unfold decided, learned. rewrite Hs. case_decide; [done|apply L5].
  - rewrite L7. apply list_fmap_ext. intros k j Hj%list_elem_of_lookup_2.
    apply elem_of_range in Hj. unfold learned_val. by rewrite Hs, decide_False by by apply Hlog.
  - intros j Hj. unfold decided. rewrite Hs, decide_False by by apply Hlog. by apply L8.
Qed.

(** A catch-up response whose values are chosen. *)
Lemma lrn_inv_response ms l log m :
  lrn_inv ms l log → (∀ t, t ∈ curesp_Vals m → chosen ms (rt_Slot t) (rt_Val t)) →
  lrn_inv ms (handleCUResp l m) log.
Proof.
  intros [L1 L2 L3 L4 L5 L6 L7 L8] Hch.
  destruct (handleCUResp_spec l m) as [[sm Heq] Hs]. rewrite Heq in Hs |- *.
  cbn [l_slots update] in Hs.
  assert (∀ j, learned l j = true → lslot sm j = lslot (l_slots l) j) as Hkeep.
  { intros j Hj. destruct (Hs j) as [?|[Hl _]]; [done|]. congruence. }
  assert (∀ j, first ≤ j < l_next l → lslot sm j = lslot (l_slots l) j) as Hlog.
  { intros j Hj. by apply Hkeep, L5, L8. }
  split; cbn [l_lr l_slots l_next update]; try done.
  - intros j. cbn [l_slots update].
    destruct (Hs j) as [E|(_ & v & _ & E)]; rewrite E; [apply L2|].
    destruct (L2 j). by split.
  - intros j k m'. destruct (Hs j) as [E|(_ & v & _ & E)]; rewrite E; apply L3.
  - intros j. unfold learned, learned_val. cbn [l_slots update].
    destruct (Hs j) as [E|(_ & v & Hin & E)]; rewrite E; [apply L4|].
    intros _. by apply (Hch _ Hin).
  - intros j. unfold decided, learned. cbn [l_slots update].
    destruct (Hs j) as [E|(_ & v & _ & E)]; rewrite E; [apply L5|done].
  - rewrite L7. apply list_fmap_ext. intros k j Hj%list_elem_of_lookup_2.
    apply elem_of_range in Hj. unfold learned_val. cbn [l_slots update]. by rewrite Hlog.
  - intros j Hj. unfold decided. cbn [l_slots update]. rewrite Hlog by done. by apply L8.
Qed.

Lemma lrn_inv_deliver ms rnd reqs l log l' outs :
  0 ≤ first → accepts_inv ms rnd reqs → votes_inv ms → lrn_inv ms l log →
  deliver l = Ok (l', outs) →
  lrn_inv ms l' (log ++ out_log outs) ∧ lrn_out_msgs outs = [].
Proof.
  intros Hfirst IA IV HL Hrun. pose proof HL as [L1 L2 L3 L4 L5 L6 L7 L8].
  destruct (deliver_delivers l L1) as (l2 & outs2 & Hrun2 & D1 & Eo & D3 & D4 & D5 & D6 & D7 & D8 & _).
  - lia.
  - intros s [r Hc]%L4. destruct (chosen_accept _ _ _ _ IV Hc) as (b & Hb & <- & _).
    by apply (ai_slot _ _ _ IA b).
  - rewrite Hrun in Hrun2. injection Hrun2 as <- <-.
    assert (∀ s, learned l' s = learned l s ∧ learned_val l' s = learned_val l s) as Hsame.
    { intros s. unfold learned, learned_val. rewrite D5. by case_decide. }
    split.
    + split.
      * congruence.
      * intros s. rewrite D5. case_decide; [|apply L2]. destruct (L2 s). by split.
      * intros s k m. rewrite D5. case_decide; [cbn|]; apply L3.
      * intros s. destruct (Hsame s) as [-> ->]. apply L4.
      * intros s. destruct (Hsame s) as [-> _]. unfold decided. rewrite D5.
        case_decide as Hr; [intros _; by apply D3 in Hr as [? _]|apply L5].
      * lia.
      * rewrite L7, Eo.
        assert (out_log ((λ s, ODecided s (learned_val l s)) <$> range (l_next l) (l_next l'))
          = (λ s, (s, learned_val l s)) <$> range (l_next l) (l_next l')) as ->
          by apply out_log_decided.
        rewrite <- fmap_app, range_split by lia.
        apply list_fmap_ext. intros k s _. by destruct (Hsame s) as [_ ->].
      * intros s Hr. unfold decided. rewrite D5. case_decide as Hc; [done|]. apply L8. lia.
    + rewrite Eo. apply lrn_out_msgs_decided.
Qed.

(** The votes that make [handleLrn] report a value choose it. *)
Lemma handleLrn_chosen s i msg l' v sid :
  Inv s → MLearn msg ∈ s_msgs s →
  handleLrn (gm i) (s_lrns s i) msg = Ok (l', (Some v, sid)) →
  lrn_inv (s_msgs s) l' (s_log s i) →
  chosen (s_msgs s) sid v.
Proof.
  intros HI Hin Hrun HL'. pose proof HI as [IA IV IC IM IP IL IR].
  pose proof (fg_laws i) as Hlaws.
  destruct (handleLrn_counts _ _ _ _ _ (li_counted _ _ _ (IL i)) Hrun)
    as (_ & -> & -> & _ & voters & Hnd & Hq & Hvoters).
  set (sender k := match ls_Learns (lslot (l_slots l') (lrn_Slot msg)) !! k with
                   | Some (Some m) => lrn_ID m | _ => mkID (-1) 0 end).
  assert (vote (s_msgs s) (lrn_ID msg) (lrn_Slot msg) (lrn_Rnd msg) (lrn_Val msg)) as Hmsg.
  { exists (lrn_EpochVector msg). by destruct msg. }
  assert (∀ k, k ∈ voters → PxID (sender k) = Z.of_nat k ∧
    vote (s_msgs s) (sender k) (lrn_Slot msg) (lrn_Rnd msg) (lrn_Val msg)) as Hs.
  { intros k Hk. destruct (Hvoters k Hk) as (m & Hm & Hsl & Hr & Hpx).
    unfold sender. rewrite Hm. split; [done|].
    pose proof (li_votes _ _ _ HL' _ _ _ Hm) as Hmin.
    assert (vote (s_msgs s) (lrn_ID m) (lrn_Slot msg) (lrn_Rnd msg) (lrn_Val m)) as Hv.
    { exists (lrn_EpochVector m). rewrite <- Hsl, <- Hr. by destruct m. }
    destruct (IV _ _ _ _ Hv) as [_ (b1 & B1 & B2 & B3 & B4)].
    destruct (IV _ _ _ _ Hmsg) as [_ (b2 & C1 & C2 & C3 & C4)].
    assert (lrn_Val m = lrn_Val msg) as <-; [|done].
    rewrite <- B4, <- C4. eapply ai_unique; eauto; congruence. }
  exists (lrn_Rnd msg), (sender <$> voters). split; [split_and!|].
  - apply NoDup_fmap_2_strong; [|done]. intros k1 k2 H1 H2 Heq.
    destruct (Hs k1 H1) as [X1 _], (Hs k2 H2) as [X2 _]. rewrite Heq in X1. lia.
  - intros a (k & -> & Hk)%list_elem_of_fmap. destruct (Hs k Hk) as [_ Hv]. by apply IV in Hv as [? _].
  - rewrite length_fmap, <- (fg_quorum i). done.
  - intros a (k & -> & Hk)%list_elem_of_fmap. by apply Hs.
Qed.

(** Learner [i] moves to [l], sends [new] and delivers [dl]. *)
Definition lrn_moved s (i : ID) (l : MultiLearner) (new : list Msg) (dl : list (SlotID * Value)) : Sys :=
  s <| s_lrns ::= <[i := l]> |> <| s_msgs ::= λ ms, ms ++ new |>
    <| s_log ::= λ lg, <[i := lg i ++ dl]> lg |>.

Lemma inv_lrn_frame s i l new dl :
  Inv s →
  (∀ x, x ∈ new → (∃ c, x = MCatchUpRequest c) ∨ ∃ c, x = MCatchUpResponse c ∧
     ∀ t, t ∈ curesp_Vals c → chosen (s_msgs s) (rt_Slot t) (rt_Val t)) →
  lrn_inv (s_msgs s) l (s_log s i ++ dl) → Inv (lrn_moved s i l new dl).
Proof.
  intros [IA IV IC IM IP IL IR] Hnew HL.
  assert (extends (s_msgs s) (acc_rnd s) (s_msgs s ++ new) (acc_rnd s)) as Hext.
  { apply extends_no_votes. intros m Hm%Hnew. by destruct Hm as [[? ?]|(? & ? & _)]. }
  assert (∀ x, x ∈ s_msgs s ++ new → x ∈ s_msgs s ∨ (∃ c, x = MCatchUpRequest c) ∨
    ∃ c, x = MCatchUpResponse c ∧
     ∀ t, t ∈ curesp_Vals c → chosen (s_msgs s) (rt_Slot t) (rt_Val t)) as Hin.
  { intros x [?|?]%elem_of_app; [by left|right; by apply Hnew]. }
  assert (∀ j t r v, vote (s_msgs s ++ new) j t r v → vote (s_msgs s) j t r v) as Hvotes.
  { intros j t r v [ev [?|[[? ?]|(? & ? & _)]]%Hin]; [by exists ev|done..]. }
  split; cbn [lrn_moved s_msgs s_props s_lrns s_log s_requests s_accs update];
    change (acc_rnd (lrn_moved s i l new dl)) with (acc_rnd s).
  - eapply accepts_inv_stable; [exact Hext|reflexivity| |exact IA].
    intros b [?|[[? ?]|(? & ? & _)]]%Hin; done.
  - intros j t r v Hv%Hvotes. destruct (IV _ _ _ _ Hv) as (? & b & ? & ?).
    split; [done|]. exists b. rewrite elem_of_app. auto.
  - intros j Hj. eapply acc_inv_stable; [exact Hext|apply Hvotes|by apply IC].
  - intros m [Hm|[[? ?]|(? & ? & _)]]%Hin; [|done..]. destruct (IM m Hm) as [pr ?].
    exists pr. by eapply promise_inv_stable.
  - intros j. eapply prop_inv_stable; [exact Hext|reflexivity| | |apply IP].
    + intros b [?|[[? ?]|(? & ? & _)]]%Hin; done.
    + intros b [?|[[? ?]|(? & ? & _)]]%Hin; done.
  - intros j. eapply lrn_inv_stable; [apply Hext|].
    destruct (decide (j = i)) as [->|Hne]; [by rewrite !fn_lookup_insert|].
    rewrite !fn_lookup_insert_ne by done. apply IL.
  - intros c t [Hc|[[? ?]|(c' & E & Hc)]]%Hin Ht; [|done|].
    + eapply chosen_mono; [apply Hext|by apply (IR c)].
    + injection E as ->. eapply chosen_mono; [apply Hext|by apply Hc].
Qed.

(** Counting a vote keeps the learner's invariant. *)
Lemma lrn_inv_vote s i msg l' ov sid :
  Inv s → MLearn msg ∈ s_msgs s →
  handleLrn (gm i) (s_lrns s i) msg = Ok (l', (ov, sid)) →
  lrn_inv (s_msgs s) l' (s_log s i) ∧ l_lr l' = false ∧
  l_next l' = l_next (s_lrns s i) ∧ (is_Some ov → learned l' sid = false).
Proof.
  intros HI Hin Hrun. pose proof (fg_laws i) as Hlaws.
  pose proof (inv_lrns _ HI i) as HL. pose proof HL as [L1 L2 L3 L4 L5 L6 L7 L8].
  destruct (handleLrn_counts _ _ _ _ _ L2 Hrun) as [Hc' Hov].
  assert (∃ sl, slot_set (s_lrns s i) (lrn_Slot msg) sl l' ∧
    ls_Learned sl = learned (s_lrns s i) (lrn_Slot msg) ∧
    ls_Decided sl = decided (s_lrns s i) (lrn_Slot msg) ∧
    ls_LearnedVal sl = learned_val (s_lrns s i) (lrn_Slot msg) ∧
    ∀ k m, ls_Learns sl !! k = Some (Some m) → MLearn m ∈ s_msgs s)
    as (sl & (sm & -> & Hsm) & S1 & S2 & S3 & S4).
  { destruct (handleLrn_Ok _ _ _ _ _ _ Hrun) as [[Hset _]|(_ & _ & _ & _ & Hset & _)].
    - eexists. split; [exact Hset|]. split_and!; [done..|]. apply L3.
    - eexists. split; [exact Hset|]. unfold open_round, learned, decided, learned_val.
      split_and!; try by destruct (bool_decide _).
      intros k m. cbn. rewrite list_lookup_insert_Some.
      intros [(_ & [= <-] & _)|(_ & Hk)]; [done|].
      destruct (bool_decide _); [by apply nils_lookup in Hk|by eapply L3]. }
  assert (∀ t, learned ((s_lrns s i) <| l_slots := sm |>) t = learned (s_lrns s i) t ∧
    decided ((s_lrns s i) <| l_slots := sm |>) t = decided (s_lrns s i) t ∧
    learned_val ((s_lrns s i) <| l_slots := sm |>) t = learned_val (s_lrns s i) t) as Hsame.
  { intros t. unfold learned, decided, learned_val in *. cbn. rewrite Hsm.
    case_decide; [by subst|done]. }
  split; [|split; [done|split; [done|]]].
  - eapply lrn_inv_slots; [exact HL|done|done|done| |exact Hsame].
    intros t k m. cbn. rewrite Hsm. case_decide; [apply S4|apply L3].
  - intros [v ->]. destruct Hov as (-> & _ & Hl & _). destruct (Hsame (lrn_Slot msg)) as (-> & _). done.
Qed.

Lemma inv_step_lrn s i ev l outs :
  0 ≤ first → Inv s → lrn_enabled (s_msgs s) ev →
  learner_step (gm i) (s_lrns s i) ev = Ok (l, outs) →
  Inv (lrn_moved s i l (lrn_out_msgs outs) (out_log outs)).
Proof.
  intros Hfirst HI Hen Hrun. pose proof HI as [IA IV IC IM IP IL IR].
  pose proof (IL i) as HL. pose proof (li_lr _ _ _ HL) as Hlr.
  assert (∀ l', lrn_inv (s_msgs s) l' (s_log s i) → Inv (lrn_moved s i l' [] [])) as Hsilent.
  { intros l' HL'. apply inv_lrn_frame; [done|by intros ? ?%elem_of_nil|by rewrite app_nil_r]. }
  assert (∀ l' outs, lrn_inv (s_msgs s) l' (s_log s i) → deliver l' = Ok (l, outs) →
    Inv (lrn_moved s i l (lrn_out_msgs outs) (out_log outs))) as Hdeliver.
  { intros l' o HL' Hd. destruct (lrn_inv_deliver _ _ _ _ _ _ _ Hfirst IA IV HL' Hd) as [HL2 ->].
    apply inv_lrn_frame; [done|by intros ? ?%elem_of_nil|done]. }
  destruct ev as [m|m|m|t| |]; cbn [learner_step] in Hrun.
  - (* a vote *)
    unfold handleLearn in Hrun. rewrite Hlr in Hrun.
    apply bind_Ok in Hrun as ([l1 [ov sid]] & Hh & Hrun).
    destruct (lrn_inv_vote s i m l1 ov sid HI Hen Hh) as (HL1 & Hlr1 & Hn1 & Hun).
    unfold learnValue in Hrun. rewrite Hlr1 in Hrun.
    apply bind_Ok in Hrun as ([l2 [[adv startcu] cu]] & Hv & Hrun).
    destruct ov as [v|]; [|injection Hv as <- <- <- <-; injection Hrun as <- <-; by apply Hsilent].
    pose proof (handleLrn_chosen s i m l1 v sid HI Hen Hh HL1) as Hch.
    destruct (learnVal_Ok _ _ _ _ _ Hv) as (sm & -> & Hsm & _ & _).
    assert (lrn_inv (s_msgs s) (l1 <| l_slots := sm |>) (s_log s i)) as HL2.
    { eapply lrn_inv_learn; [exact HL1|exact Hch|apply Hun; eauto|done|done|exact Hsm]. }
    destruct adv; [by eapply Hdeliver|].
    destruct startcu; [|injection Hrun as <- <-; by apply Hsilent].
    destruct (_ || _); [injection Hrun as <- <-; by apply Hsilent|].
    set (l3 := (l1 <| l_slots := sm |>) <| l_catchUpInProgress := true |>) in *.
    assert (lrn_inv (s_msgs s) l3 (s_log s i)) as HL3 by (by destruct HL2; split).
    assert (l_lr l3 = false) as Hlr3 by done.
    unfold genCatchUpReq, getUndecidedSlots in Hrun. rewrite Hlr3 in Hrun.
    pose proof (getUndecSlots_touched l3 cu) as Ht.
    destruct (getUndecSlots l3 cu) as [l4 rngs]. injection Hrun as <- <-.
    apply inv_lrn_frame; [done| |].
    + intros x ->%list_elem_of_singleton. left. eauto.
    + cbn. rewrite app_nil_r. by eapply lrn_inv_touched.
  - (* a catch-up request *)
    unfold handleCatchUpReq in Hrun. rewrite Hlr in Hrun.
    pose proof (handleCUReq_spec (s_lrns s i) m) as Hs.
    destruct (handleCUReq (s_lrns s i) m) as [l1 [resp dest]]. injection Hrun as <- <-.
    destruct Hs as (Ht & _ & _ & Hvals). apply inv_lrn_frame; [done| |].
    + intros x ->%list_elem_of_singleton. right. exists resp. split; [done|].
      intros [sl v] Hin. destruct (Hvals sl v Hin) as [Hd ->].
      by apply (li_chosen _ _ _ HL), (li_decided _ _ _ HL).
    + cbn. rewrite app_nil_r. by eapply lrn_inv_touched.
  - (* a catch-up response *)
    unfold handleCatchUpResp in Hrun. rewrite Hlr in Hrun.
    eapply Hdeliver; [|exact Hrun].
    pose proof (lrn_inv_response _ (s_lrns s i) (s_log s i) m HL) as HL1.
    destruct HL1; [|by split]. intros t Ht. by apply (IR m).
  - injection Hrun as <- <-. apply Hsilent. by destruct HL; split.
  - injection Hrun as <- <-. apply Hsilent. by destruct HL; split.
  - injection Hrun as <- <-. apply Hsilent. by destruct HL; split.
Qed.

(** ** Every reachable state satisfies the invariant *)

Lemma no_votes a s r v : ¬ vote [] a s r v.
Proof. by intros [ev ?%elem_of_nil]. Qed.

Lemma inv_init : 1 ≤ first < 2 ^ 64 → Inv init.
Proof.
  intros Hfirst. split; cbn [init s_msgs s_props s_accs s_lrns s_log s_requests].
  - split; intros *; by intros ?%elem_of_nil.
  - by intros a s r v ?%no_votes.
  - intros i _. unfold NewMultiAcceptor. rewrite fg_lr, fg_ar. split; try done.
    + split; intros k; cbn; [done|apply rle_refl|by intros ?%rlt_irrefl].
    + by intros s r v ?%no_votes.
    + intros s. by intros ?%rlt_irrefl.
  - by intros m ?%elem_of_nil.
  - intros i. unfold NewMultiProposer. rewrite fg_lr. nowrap.
    split; cbn; try done; try lia.
    + by intros a ?%elem_of_nil.
    + by intros pr ?%elem_of_nil.
  - intros i. unfold NewMultiLearner. rewrite fg_lr.
    split; cbn; try done; try lia.
    by rewrite range_nil.
  - by intros c t ?%elem_of_nil.
Qed.

Lemma inv_step s s' : 0 ≤ first → Inv s → step s s' → Inv s'.
Proof.
  intros Hfirst HI Hstep. destruct Hstep.
  - by eapply inv_step_prop.
  - by eapply inv_step_acc.
  - by eapply inv_step_lrn.
Qed.

Lemma inv_reachable s : 1 ≤ first < 2 ^ 64 → reachable s → Inv s.
Proof.
  intros Hfirst Hr.
  assert (∀ s0, rtc step s0 s → Inv s0 → Inv s) as Hind.
  { clear Hr. induction 1; [done|]. intros HI. apply IHrtc. eapply inv_step; [lia|done..]. }
  by eapply Hind, inv_init.
Qed.

End runs.

End system.
