(* ===== verification/ReplicatedLog.v ===== *)
(** What a MultiPaxos group promises its application, and that the system of
    MultiPaxos.v keeps the promise: an abstract replicated log, the refinement
    theorem, agreement, validity and ordering in every reachable state, and a
    concrete run of three replicas. *)
From stdpp Require Import functions.
From S2P Require Import Prelude Grp PaxosTypes Combinations MultiAcceptor MultiProposer MultiLearner MultiPaxos.

(** * The abstract replicated log *)

(** The decided slots, the values clients asked for, and what each replica
    has delivered. *)
Record Log := mkLog {
  lg_decided : SlotID → Value → Prop;
  lg_requests : list Value;
  lg_delivered : ID → list (SlotID * Value);
}.
#[export] Instance eta_Log : Eta Log := λ r,
  mkLog (lg_decided r) (lg_requests r) (lg_delivered r).

Section log.
Context (first : SlotID).

(** Decisions are final, one per slot, and of requested values; a replica
    delivers decided slots, in order and without gaps. *)
Inductive log_step (L : Log) : Log → Prop :=
| log_request v : log_step L (L <| lg_requests ::= λ rs, v :: rs |>)
| log_decide (D : SlotID → Value → Prop) :
    (∀ s v, lg_decided L s v → D s v) →
    (∀ s v1 v2, D s v1 → D s v2 → v1 = v2) →
    (∀ s v, D s v → v ∈ lg_requests L) →
    log_step L (L <| lg_decided := D |>)
| log_deliver (i : ID) (es : list (SlotID * Value)) :
    (∀ k s v, es !! k = Some (s, v) →
       lg_decided L s v ∧ s = first + len (lg_delivered L i) + Z.of_nat k) →
    log_step L (L <| lg_delivered ::= λ lg, <[i := lg i ++ es]> lg |>).

Definition log_empty (L : Log) : Prop :=
  (∀ s v, ¬ lg_decided L s v) ∧ lg_requests L = [] ∧ ∀ i, lg_delivered L i = [].

End log.

(** * The system implements it *)

Section refinement.
Context {G : Type} `{GroupManager G} (gm : ID → G) (acceptors : list ID) (Q : Z).
Context `{FG : !FixedGroup G gm acceptors Q} (leader : ID → ID) (alpha first : Z).

Definition log_of (s : Sys) : Log := {|
  lg_decided := chosen acceptors Q (s_msgs s); lg_requests := s_requests s; lg_delivered := s_log s |}.

Lemma Inv_chosen_agree s sl v1 v2 :
  Inv acceptors Q first s → chosen acceptors Q (s_msgs s) sl v1 → chosen acceptors Q (s_msgs s) sl v2 → v1 = v2.
Proof. intros [IA IV _ _ _ _ _]. by eapply chosen_agree. Qed.

Lemma Inv_chosen_valid s sl v : Inv acceptors Q first s → chosen acceptors Q (s_msgs s) sl v → v ∈ s_requests s.
Proof.
  intros [IA IV _ _ _ _ _] [r Hc].
  destruct (chosen_accept gm acceptors Q _ _ _ _ IV Hc) as (b & Hb & _ & _ & <-).
  by eapply ai_valid.
Qed.

(** A learner's log is the chosen values of consecutive slots. *)
Lemma Inv_log_entry s i k sl v :
  Inv acceptors Q first s → s_log s i !! k = Some (sl, v) → sl = first + Z.of_nat k ∧ chosen acceptors Q (s_msgs s) sl v.
Proof.
  intros HI Hk. destruct (inv_lrns _ _ _ _ HI i) as [L1 L2 L3 L4 L5 L6 L7 L8].
  rewrite L7 in Hk. apply list_lookup_fmap_Some in Hk as (j & [= -> ->] & Hj).
  unfold range in Hj. apply lookup_seqZ in Hj as [-> Hj]. split; [done|].
  apply L4, L5, L8. lia.
Qed.

Lemma Inv_log_length s i : Inv acceptors Q first s → len (s_log s i) = l_next (s_lrns s i) - first.
Proof.
  intros HI. destruct (inv_lrns _ _ _ _ HI i) as [L1 L2 L3 L4 L5 L6 L7 L8].
  rewrite L7, length_fmap, length_range; lia.
Qed.

Lemma log_decide_step s s' :
  Inv acceptors Q first s' → s_msgs s ⊆ s_msgs s' →
  log_step first
    (mkLog (chosen acceptors Q (s_msgs s)) (s_requests s') (s_log s))
    (mkLog (chosen acceptors Q (s_msgs s')) (s_requests s') (s_log s)).
Proof.
  intros HI Hms. apply (log_decide first (mkLog _ _ _)); cbn.
  - intros sl v. by apply chosen_mono.
  - intros sl v1 v2. by apply Inv_chosen_agree.
  - intros sl v. by apply Inv_chosen_valid.
Qed.

Lemma step_refines s s' :
  0 ≤ first → Inv acceptors Q first s → step gm acceptors s s' → rtc (log_step first) (log_of s) (log_of s').
Proof.
  intros Hfirst HI Hstep. pose proof (inv_step gm acceptors Q leader first s s' Hfirst HI Hstep) as HI'.
  assert (s_msgs s ⊆ s_msgs s') as Hms.
  { destruct Hstep; cbn; intros x; rewrite elem_of_app; auto. }
  pose proof (log_decide_step s s' HI' Hms) as Hdecide.
  destruct Hstep as [s i ev p outs|s i ev a outs|s i ev l outs].
  - eapply rtc_l; [|by apply rtc_once].
    destruct ev as [|v|?|?| | | |]; cbn; [|by apply (log_request _ (log_of s))|..];
      unfold log_of; by apply (log_decide_step s s).
  - by apply rtc_once.
  - eapply rtc_l; [exact Hdecide|]. apply rtc_once.
    apply (log_deliver first (mkLog _ _ _) i (out_log outs)); cbn.
    intros k sl v Hk.
    destruct (Inv_log_entry _ i (length (s_log s i) + k) sl v HI') as [-> Hc].
    + cbn. rewrite fn_lookup_insert, lookup_app_r by lia.
      by replace (_ + _ - _)%nat with k by lia.
    + split; [exact Hc|lia].
Qed.

(** C2: the MultiPaxos group refines the replicated log: every state the
    proposers, acceptors and learners can reach over a network that loses,
    duplicates and reorders messages is one the abstract log reaches from the
    empty log, where decisions are unique, final and of requested values and
    replicas deliver decided slots in order. *)
Theorem multipaxos_refines_log (s : Sys) :
  1 ≤ first < 2 ^ 64 → reachable gm acceptors leader alpha first s →
  ∃ L, log_empty L ∧ rtc (log_step first) L (log_of s).
Proof.
  intros Hfirst Hr. exists (log_of (init gm leader alpha first)). split.
  - split_and!; [|done|done]. intros sl v (r & qs & Hq & Hv).
    destruct (quorum_inhabited gm acceptors Q qs Hq) as [a Ha]. by apply (no_votes a sl r v), Hv.
  - pose proof (inv_init gm acceptors Q leader alpha first Hfirst) as HI.
    unfold reachable in Hr. induction Hr as [|s1 s2 s3 Hstep _ IH]; [done|].
    etrans; [by eapply step_refines; [lia|..]|]. apply IH. eapply (inv_step gm acceptors Q leader); [lia|done..].
Qed.

(** C3: agreement: in every reachable state at most one value is chosen for a
    slot, in whatever rounds the quorums voted. *)
Theorem agreement (s : Sys) (sl : SlotID) (v1 v2 : Value) :
  1 ≤ first < 2 ^ 64 → reachable gm acceptors leader alpha first s →
  chosen acceptors Q (s_msgs s) sl v1 → chosen acceptors Q (s_msgs s) sl v2 → v1 = v2.
Proof. intros Hf Hr. by eapply Inv_chosen_agree, inv_reachable. Qed.

Lemma Inv_logs_prefix s i j :
  Inv acceptors Q first s → s_log s i `prefix_of` s_log s j ∨ s_log s j `prefix_of` s_log s i.
Proof.
  intros HI. apply agree_prefix. intros k [s1 v1] [s2 v2] H1 H2.
  destruct (Inv_log_entry s i k s1 v1 HI H1) as [-> C1].
  destruct (Inv_log_entry s j k s2 v2 HI H2) as [-> C2].
  f_equal. by eapply Inv_chosen_agree.
Qed.

(** C4: the logs two replicas have delivered never diverge: one is a prefix of
    the other. *)
Theorem logs_consistent (s : Sys) (i j : ID) :
  1 ≤ first < 2 ^ 64 → reachable gm acceptors leader alpha first s →
  s_log s i `prefix_of` s_log s j ∨ s_log s j `prefix_of` s_log s i.
Proof. intros Hf Hr. eapply Inv_logs_prefix, inv_reachable; done. Qed.

(** C5: what a replica delivers is the chosen value of every slot from the
    first one on, in slot order and without gaps or repetitions, and each
    value was proposed by a client. *)
Theorem delivered_in_order (s : Sys) (i : ID) :
  1 ≤ first < 2 ^ 64 → reachable gm acceptors leader alpha first s →
  (s_log s i).*1 = range first (l_next (s_lrns s i)) ∧
  ∀ sl v, (sl, v) ∈ s_log s i → chosen acceptors Q (s_msgs s) sl v ∧ v ∈ s_requests s.
Proof.
  intros Hf Hr. assert (Inv acceptors Q first s) as HI by by eapply inv_reachable. split.
  - rewrite (li_log _ _ _ _ _ _ (inv_lrns _ _ _ _ HI i)), <- list_fmap_compose.
    apply list_fmap_id.
  - intros sl v [k Hk]%list_elem_of_lookup_1.
    destruct (Inv_log_entry s i k sl v HI Hk) as [_ Hc]. split; [done|]. by eapply Inv_chosen_valid.
Qed.

End refinement.

(** * An executable scheduler and a concrete run *)

(** One step of one replica. *)
Inductive Action :=
| AProp (i : ID) (ev : PropEvent)
| AAcc (i : ID) (ev : AccEvent)
| ALrn (i : ID) (ev : LrnEvent).

Definition prop_enabledb (ms : list Msg) (ev : PropEvent) : bool :=
  match ev with PropPromise m => bool_decide (MPromise m ∈ ms) | _ => true end.
Definition acc_enabledb (ms : list Msg) (ev : AccEvent) : bool :=
  match ev with
  | AccPrepare m => bool_decide (MPrepare m ∈ ms)
  | AccAccept m => bool_decide (MAccept m ∈ ms)
  | _ => true
  end.
Definition lrn_enabledb (ms : list Msg) (ev : LrnEvent) : bool :=
  match ev with
  | LrnLearn m => bool_decide (MLearn m ∈ ms)
  | LrnCatchUpResp m => bool_decide (MCatchUpResponse m ∈ ms)
  | _ => true
  end.
#[local] Instance prop_nowrap_dec p : Decision (prop_nowrap p).
Proof. unfold prop_nowrap, window_nowrap. apply _. Defined.

Section exec.
Context {G : Type} `{GroupManager G} (gm : ID → G) (acceptors : list ID).

Definition exec_one (s : Sys) (act : Action) : option Sys :=
  match act with
  | AProp i ev =>
      if prop_enabledb (s_msgs s) ev && bool_decide (prop_nowrap (s_props s i)) then
        match proposer_step (gm i) (s_props s i) ev with
        | Ok (p, outs) =>
            Some (s <| s_props ::= <[i := p]> |> <| s_msgs ::= λ ms, ms ++ prop_out_msgs outs |>
              <| s_requests ::= λ rs, match ev with PropValue v => v :: rs | _ => rs end |>)
        | _ => None
        end
      else None
  | AAcc i ev =>
      if bool_decide (i ∈ acceptors) && acc_enabledb (s_msgs s) ev then
        match acceptor_step (gm i) (s_accs s i) ev with
        | Ok (a, outs) =>
            Some (s <| s_accs ::= <[i := a]> |> <| s_msgs ::= λ ms, ms ++ acc_out_msgs outs |>)
        | _ => None
        end
      else None
  | ALrn i ev =>
      if lrn_enabledb (s_msgs s) ev then
        match learner_step (gm i) (s_lrns s i) ev with
        | Ok (l, outs) =>
            Some (s <| s_lrns ::= <[i := l]> |> <| s_msgs ::= λ ms, ms ++ lrn_out_msgs outs |>
              <| s_log ::= λ lg, <[i := lg i ++ out_log outs]> lg |>)
        | _ => None
        end
      else None
  end.

Fixpoint exec (s : Sys) (acts : list Action) : option Sys :=
  match acts with [] => Some s | a :: acts => s' ← exec_one s a; exec s' acts end.

Lemma exec_one_step s act s' : exec_one s act = Some s' → step gm acceptors s s'.
Proof.
  destruct act as [i ev|i ev|i ev]; cbn [exec_one]; intros Hrun.
  - destruct (prop_enabledb _ ev) eqn:He; [|done]. case_bool_decide as Hn; [|done].
    destruct (proposer_step _ _ ev) as [[p outs]| |] eqn:E; [|done..]. injection Hrun as <-.
    apply (step_prop _ _ s i ev); [|done|done]. destruct ev; try done. by apply bool_decide_eq_true in He.
  - case_bool_decide as Hi; [|done]. destruct (acc_enabledb _ ev) eqn:He; [|done].
    destruct (acceptor_step _ _ ev) as [[a outs]| |] eqn:E; [|done..]. injection Hrun as <-.
    apply (step_acc _ _ s i ev); [done| |done]. destruct ev; try done; by apply bool_decide_eq_true in He.
  - destruct (lrn_enabledb _ ev) eqn:He; [|done].
    destruct (learner_step _ _ ev) as [[l outs]| |] eqn:E; [|done..]. injection Hrun as <-.
    apply (step_lrn _ _ s i ev); [|done]. destruct ev; try done; by apply bool_decide_eq_true in He.
Qed.

Lemma exec_reachable s acts s' : exec s acts = Some s' → rtc (step gm acceptors) s s'.
Proof.
  revert s. induction acts as [|a acts IH]; cbn; intros s Hrun; [by injection Hrun as ->|].
  destruct (exec_one s a) as [s1|] eqn:E; [|done]. cbn in Hrun.
  eapply rtc_l; [by eapply exec_one_step|by apply IH].
Qed.

End exec.

(** Three replicas. Replica 0 leads round 2.0 and decides [ex_val 7] in slot 1
    with acceptors 0 and 1; replica 1 then leads round 2.1 with acceptors 1
    and 2, finds that value in a promise, proposes it again and its own client's
    [ex_val 8] in slot 2. Replica 2 delivers slot 1 in the second round, replica
    0 delivers both slots. *)
Definition ex_gms (i : ID) : GrpMgr := NewGrpMgr i ex_nodemap false false.
Definition ex_ids : list ID := AcceptorIDs ex_nodemap.
Definition ex_init : Sys := init ex_gms (λ _, ex_id 2) 3 1.
Definition ex_prep (l : Z) : Prepare := mkPrepare (ex_id l) (ex_rnd 2 l) 0.
Definition ex_prom (l i : Z) (slots : list AcceptorSlot) : Promise :=
  mkPromise (ex_id i) (ex_rnd 2 l) slots [].
Definition ex_acc (l s n : Z) : Accept := mkAccept (ex_id l) s (ex_rnd 2 l) (ex_val n).
Definition ex_lrn (l i s n : Z) : Learn := mkLearn (ex_id i) s (ex_rnd 2 l) (ex_val n) [].
Definition ex_lead (l : Z) (n : Z) (qs : list (Z * list AcceptorSlot)) : list Action :=
  [AProp (ex_id l) (PropTrust (ex_id l)); AProp (ex_id l) (PropValue (ex_val n))] ++
  ((λ q, AAcc (ex_id q.1) (AccPrepare (ex_prep l))) <$> qs) ++
  ((λ q, AProp (ex_id l) (PropPromise (ex_prom l q.1 q.2))) <$> qs).
Definition ex_decide (l s n : Z) (qs ls : list Z) : list Action :=
  ((λ q, AAcc (ex_id q) (AccAccept (ex_acc l s n))) <$> qs) ++
  mjoin ((λ i, (λ q, ALrn (ex_id i) (LrnLearn (ex_lrn l q s n))) <$> qs) <$> ls).
Definition ex_run : list Action :=
  ex_lead 0 7 [(0, []); (1, [])] ++ ex_decide 0 1 7 [0; 1] [0; 1] ++
  ex_lead 1 8 [(1, [mkAcceptorSlot 1 (ex_rnd 2 0) (ex_val 7)]); (2, [])] ++
  ex_decide 1 1 7 [1; 2] [2] ++ ex_decide 1 2 8 [1; 2] [0].
Definition ex_final : Sys :=
  match exec ex_gms ex_ids ex_init ex_run with Some s => s | None => ex_init end.

#[local] Instance ex_group : FixedGroup GrpMgr ex_gms ex_ids (Quorum ex_nodemap).
Proof. apply nodemap_fixed_group; [apply ex_nodemap_wf|reflexivity]. Defined.

Lemma ex_final_run : exec ex_gms ex_ids ex_init ex_run = Some ex_final.
Proof.
  assert (match exec ex_gms ex_ids ex_init ex_run with Some _ => true | None => false end = true)
    as Hex by (vm_compute; reflexivity).
  unfold ex_final. by destruct (exec _ _ _ _).
Qed.

Lemma ex_final_reachable : reachable ex_gms ex_ids (λ _, ex_id 2) 3 1 ex_final.
Proof. eapply exec_reachable, ex_final_run. Qed.

Lemma ex_final_logs :
  s_log ex_final (ex_id 0) = [(1, ex_val 7); (2, ex_val 8)] ∧
  s_log ex_final (ex_id 1) = [(1, ex_val 7)].
Proof. vm_compute. split; reflexivity. Qed.

Lemma multipaxos_refines_log_witness :
  ∃ L, log_empty L ∧ rtc (log_step 1) L (log_of ex_ids (Quorum ex_nodemap) ex_final).
Proof.
  apply (multipaxos_refines_log ex_gms ex_ids (Quorum ex_nodemap) (λ _, ex_id 2) 3 1 ex_final);
    [lia|apply ex_final_reachable].
Defined.

(** Both rounds chose a value for slot 1, and no third value can be. *)
Lemma agreement_witness (chosen7 := chosen ex_ids (Quorum ex_nodemap) (s_msgs ex_final) 1) :
  chosen7 (ex_val 7) ∧ ∀ v, chosen7 v → v = ex_val 7.
Proof.
  assert (chosen7 (ex_val 7)) as Hc.
  { apply (Inv_log_entry ex_ids (Quorum ex_nodemap) 1 ex_final (ex_id 1) 0).
    - apply (inv_reachable ex_gms ex_ids (Quorum ex_nodemap) (λ _, ex_id 2) 3 1);
        [lia|apply ex_final_reachable].
    - destruct ex_final_logs as [_ ->]. reflexivity. }
  split; [exact Hc|]. intros v Hv.
  apply (agreement ex_gms ex_ids (Quorum ex_nodemap) (λ _, ex_id 2) 3 1 ex_final 1); [lia|..];
    [apply ex_final_reachable|exact Hv|exact Hc].
Defined.

Lemma logs_consistent_witness :
  s_log ex_final (ex_id 0) ≠ s_log ex_final (ex_id 1) ∧
  (s_log ex_final (ex_id 0) `prefix_of` s_log ex_final (ex_id 1) ∨
   s_log ex_final (ex_id 1) `prefix_of` s_log ex_final (ex_id 0)).
Proof.
  split.
  - destruct ex_final_logs as [-> ->]. discriminate.
  - apply (logs_consistent ex_gms ex_ids (Quorum ex_nodemap) (λ _, ex_id 2) 3 1 ex_final);
      [lia|apply ex_final_reachable].
Defined.

Lemma delivered_in_order_witness :
  (s_log ex_final (ex_id 0)).*1 = range 1 3 ∧ ex_val 8 ∈ s_requests ex_final.
Proof.
  destruct (delivered_in_order ex_gms ex_ids (Quorum ex_nodemap) (λ _, ex_id 2) 3 1 ex_final
    (ex_id 0)) as [Hs Hv]; [lia|apply ex_final_reachable|]. split.
  - rewrite Hs. vm_compute. reflexivity.
  - apply (Hv 2). destruct ex_final_logs as [-> _]. right. left.
Defined.
