(* ===== verification/Liveness.v ===== *)
(** The failure detector and the monarchical leader detector
    (src/liveness/fd.go, mon_ld.go, hbem.go): timeouts and suspicions, the
    notifications to subscribers, leader ranking with and without live
    replacement, and the bodies of the event loops. A subscriber's channel is
    the queue of the messages sent to it. *)
From S2P Require Import Prelude Grp.

(** * Subscriptions *)

(** [for _, sub := range subscribers { sub <- msg }]: every channel gets the
    message, whatever the order of the iteration. *)
Definition publish {M} (msg : M) (subs : gmap string (list M)) : gmap string (list M) :=
  (λ q, q ++ [msg]) <$> subs.

Lemma lookup_publish {M} (msg : M) subs name :
  publish msg subs !! name = (λ q, q ++ [msg]) <$> subs !! name.
Proof. apply lookup_fmap. Qed.
Arguments publish : simpl never.

(** * The failure detector (fd.go) *)

Inductive fdEvent := Suspect | Restore.
#[export] Instance fdEvent_eq_dec : EqDecision fdEvent.
Proof. solve_decision. Defined.
Record FdMsg := mkFdMsg { fm_Event : fdEvent; fm_ID : ID }.
#[export] Instance FdMsg_eq_dec : EqDecision FdMsg.
Proof. solve_decision. Defined.

(** [fd_ticker] is the period of the running ticker. *)
Record Fd := mkFd {
  fd_alive : gmap ID bool;
  fd_suspected : gmap ID bool;
  fd_timeout : Z;
  fd_delta : Z;
  fd_ticker : Z;
  fd_subs : gmap string (list FdMsg);
}.
#[export] Instance eta_Fd : Eta Fd := λ r,
  mkFd (fd_alive r) (fd_suspected r) (fd_timeout r) (fd_delta r) (fd_ticker r) (fd_subs r).

(** [time.NewTicker] panics for a period that is not positive. *)
Definition NewTicker (d : Z) : res Z := if bool_decide (d <= 0) then Panic else Ok d.

Definition FdMsg_String (m : FdMsg) : string :=
  match fm_Event m with
  | Suspect => "suspecting node " +:+ ID_String (fm_ID m)
  | Restore => "restore msg for node " +:+ ID_String (fm_ID m)
  end.

Inductive FdEvent :=
| FdTick
| FdHeartbeat (id : ID)
| FdHold
| FdResend
| FdSubscribe (name : string)
| FdSetAlive (id : ID).

Section fd.
Context {G : Type} `{GroupManager G} {RO : RangeOrder}.
Implicit Types (fd : Fd) (gm : G).

(** [timeout] and [delta] are what the configuration says. *)
Definition NewFd (timeout delta : Z) : Fd :=
  {| fd_alive := ∅; fd_suspected := ∅; fd_timeout := timeout; fd_delta := delta;
     fd_ticker := 0; fd_subs := ∅ |}.

Definition fd_start fd : res Fd :=
  t ← NewTicker (fd_timeout fd); mret (fd <| fd_ticker := t |>).

Definition SubscribeToFdMsgs (name : string) fd : Fd := fd <| fd_subs ::= <[name := []]> |>.

Definition SetAlive (id : ID) fd : Fd :=
  fd <| fd_alive ::= <[id := true]> |> <| fd_suspected ::= delete id |>.

Definition publishFdMsg (msg : FdMsg) fd : Fd := fd <| fd_subs ::= publish msg |>.

Definition isAliveSuspectedIntersectionEmpty fd : bool :=
  negb (existsb (λ kv, bool_decide (is_Some (fd_alive fd !! kv.1))) (range_order 0 (fd_suspected fd))).

Definition notInAliveAndSuspected fd (id : ID) : bool :=
  let inAlive := bool_decide (is_Some (fd_alive fd !! id)) in
  let inSuspected := bool_decide (is_Some (fd_suspected fd !! id)) in
  negb inAlive && negb inSuspected.
Definition inAliveAndSuspected fd (id : ID) : bool :=
  let inAlive := bool_decide (is_Some (fd_alive fd !! id)) in
  let inSuspected := bool_decide (is_Some (fd_suspected fd !! id)) in
  inAlive && inSuspected.

(** The body of the loop over the identifiers of the group. *)
Definition check_node fd (id : ID) : Fd :=
  if notInAliveAndSuspected fd id then
    publishFdMsg (mkFdMsg Suspect id) (fd <| fd_suspected ::= <[id := true]> |>)
  else if inAliveAndSuspected fd id then
    publishFdMsg (mkFdMsg Restore id) (fd <| fd_suspected ::= delete id |>)
  else fd.

Definition timeoutProcedure gm fd : res Fd :=
  fd ← (if negb (isAliveSuspectedIntersectionEmpty fd) then
          let fd := fd <| fd_timeout ::= λ t, i64 (t + fd_delta fd) |> in
          t ← NewTicker (fd_timeout fd); mret (fd <| fd_ticker := t |>)
        else mret fd);
  let fd := fd <| fd_alive ::= <[gm_GetID gm := true]> |> in
  let fd := foldl check_node fd (IDs (gm_NodeMap gm)) in
  mret (fd <| fd_alive := ∅ |>).

Definition handleResendSuspected fd : Fd :=
  foldl (λ fd kv, publishFdMsg (mkFdMsg Suspect kv.1) fd) fd (range_order 1 (fd_suspected fd)).

Definition handleSuspectedRequest fd (id : ID) : bool := default false (fd_suspected fd !! id).

(** The event loop, with the calls other goroutines make on the detector. *)
Definition fd_step gm fd (ev : FdEvent) : res Fd :=
  match ev with
  | FdTick => timeoutProcedure gm fd
  | FdHeartbeat id => mret (fd <| fd_alive ::= <[id := true]> |>)
  | FdHold => mret fd
  | FdResend => mret (handleResendSuspected fd)
  | FdSubscribe name => mret (SubscribeToFdMsgs name fd)
  | FdSetAlive id => mret (SetAlive id fd)
  end.

End fd.

(** * The leader detector (mon_ld.go) *)

Record MonarchicalLD := mkMLD {
  pleader : ID;
  rleader : ID;
  ld_suspected : gmap ID bool;
  ld_fdChan : list FdMsg;
  pldSubscribers : gmap string (list ID);
  rldSubscribers : gmap string (list ID);
  ld_lrar : bool; (* whether checkLeadersLrAr is installed *)
}.
#[export] Instance eta_MLD : Eta MonarchicalLD := λ r,
  mkMLD (pleader r) (rleader r) (ld_suspected r) (ld_fdChan r) (pldSubscribers r)
    (rldSubscribers r) (ld_lrar r).

Inductive LdEvent :=
| LdFdMsg (m : FdMsg)
| LdHold
| LdSubscribePaxos (name : string)
| LdSubscribeReplacement (name : string).

Section ld.
Context {G : Type} `{GroupManager G} {RO : RangeOrder}.
Implicit Types (ld : MonarchicalLD) (gm : G).

Definition publishPaxosTrust (id : ID) ld : MonarchicalLD := ld <| pldSubscribers ::= publish id |>.
Definition publishReplacementTrust (id : ID) ld : MonarchicalLD :=
  ld <| rldSubscribers ::= publish id |>.

Definition ld_suspects ld (id : ID) : bool := bool_decide (is_Some (ld_suspected ld !! id)).

(** [glog.Fatal] ends the process. *)
Definition maxRank gm ld : res ID :=
  if bool_decide (Len (gm_NodeMap gm) = 0) then Panic
  else
    mret (foldl (λ paxosLeader id,
        if bool_decide (PxID id > PxID paxosLeader) && negb (ld_suspects ld id) then id else paxosLeader)
      MinID (ProposerIDs (gm_NodeMap gm))).

Definition min_epoch (ids : list ID) : Epoch :=
  foldl (λ minSeenEpoch id,
      if bool_decide (IDEpoch id < minSeenEpoch) then IDEpoch id else minSeenEpoch) MaxEpoch ids.

Definition nodes_with_epoch (e : Epoch) (ids : list ID) : gmap ID bool :=
  foldl (λ m id, if bool_decide (IDEpoch id = e) then <[id := true]> m else m) ∅ ids.

Definition rank_lr ld (st : ID * ID) (id : ID) : ID * ID :=
  let '(paxosLeader, replacementLeader) := st in
  (if bool_decide (PxID id > PxID paxosLeader) && negb (ld_suspects ld id) then id else paxosLeader,
   if bool_decide (PxID id < PxID replacementLeader) && negb (ld_suspects ld id)
   then id else replacementLeader).

Definition maxRankLr gm ld : res (ID * ID) :=
  if bool_decide (Len (gm_NodeMap gm) = 0) then Panic
  else
    let minSeenEpoch := min_epoch (ProposerIDs (gm_NodeMap gm)) in
    let nodesWithMinEpoch := nodes_with_epoch minSeenEpoch (ProposerIDs (gm_NodeMap gm)) in
    mret (foldl (rank_lr ld) (MinID, MaxID) (range_order 2 nodesWithMinEpoch).*1).

Definition checkPaxosLeader gm ld : res MonarchicalLD :=
  newLeader ← maxRank gm ld;
  if bool_decide (newLeader ≠ pleader ld)
  then mret (publishPaxosTrust newLeader (ld <| pleader := newLeader |>))
  else mret ld.

Definition checkLeadersLrAr gm ld : res MonarchicalLD :=
  '(newPaxosLeader, newReplacementLeader) ← maxRankLr gm ld;
  let ld := if bool_decide (newPaxosLeader ≠ pleader ld)
            then publishPaxosTrust newPaxosLeader (ld <| pleader := newPaxosLeader |>) else ld in
  mret (if bool_decide (newReplacementLeader ≠ rleader ld)
        then publishReplacementTrust newReplacementLeader (ld <| rleader := newReplacementLeader |>)
        else ld).

Definition checkLeaders gm ld : res MonarchicalLD :=
  if ld_lrar ld then checkLeadersLrAr gm ld else checkPaxosLeader gm ld.

Definition NewMonarchicalLD gm : res MonarchicalLD :=
  checkLeaders gm
    {| pleader := mkID 0 0; rleader := mkID 0 0; ld_suspected := ∅; ld_fdChan := [];
       pldSubscribers := ∅; rldSubscribers := ∅;
       ld_lrar := negb (negb (gm_LrEnabled gm) && negb (gm_ArEnabled gm)) |}.

(** [Start] checks the leaders again before the loop. *)
Definition ld_start gm ld : res MonarchicalLD := checkLeaders gm ld.

Definition SubscribeToPaxosLdMsgs (name : string) ld : MonarchicalLD :=
  ld <| pldSubscribers ::= <[name := []]> |>.
Definition SubscribeToReplacementLdMsgs (name : string) ld : MonarchicalLD :=
  ld <| rldSubscribers ::= <[name := []]> |>.
Definition PaxosLeader ld : ID := pleader ld.
Definition ReplacementLeader ld : ID := rleader ld.

Definition handleFdMsg gm ld (fdmsg : FdMsg) : res MonarchicalLD :=
  match fm_Event fdmsg with
  | Suspect => checkLeaders gm (ld <| ld_suspected ::= <[fm_ID fdmsg := true]> |>)
  | Restore => checkLeaders gm (ld <| ld_suspected ::= delete (fm_ID fdmsg) |>)
  end.

Definition ld_step gm ld (ev : LdEvent) : res MonarchicalLD :=
  match ev with
  | LdFdMsg m => handleFdMsg gm ld m
  | LdHold => checkLeaders gm ld
  | LdSubscribePaxos name => mret (SubscribeToPaxosLdMsgs name ld)
  | LdSubscribeReplacement name => mret (SubscribeToReplacementLdMsgs name ld)
  end.

End ld.

(** * The heartbeat emitter (hbem.go) *)

Record Heartbeat := mkHeartbeat { hb_ID : ID }.
Inductive HbEvent := HbElapsed | HbReset.

(** One heartbeat when it starts, one whenever the emission interval passes
    without a reset. *)
Definition hbem_start (id : ID) : list Heartbeat := [mkHeartbeat id].
Definition hbem_step (id : ID) (ev : HbEvent) : list Heartbeat :=
  match ev with HbElapsed => [mkHeartbeat id] | HbReset => [] end.

(** * What a timeout does *)

(** The message a status change is announced with, and the suspicion after
    it, for a node that was heard of or not and suspected or not. *)
Definition status_change (alive suspected : option bool) (id : ID) : option FdMsg :=
  match alive, suspected with
  | None, None => Some (mkFdMsg Suspect id)
  | Some _, Some _ => Some (mkFdMsg Restore id)
  | _, _ => None
  end.
Definition next_status (alive suspected : option bool) : option bool :=
  match alive with Some _ => None | None => Some (default true suspected) end.
Definition changes fd (ids : list ID) : list FdMsg :=
  omap (λ id, status_change (fd_alive fd !! id) (fd_suspected fd !! id) id) ids.

Lemma changes_cons fd id ids :
  changes fd (id :: ids) =
    option_list (status_change (fd_alive fd !! id) (fd_suspected fd !! id) id) ++ changes fd ids.
Proof. unfold changes. cbn. by destruct (status_change _ _ id). Qed.

Arguments changes : simpl never.

Lemma elem_of_changes fd ids ev id :
  mkFdMsg ev id ∈ changes fd ids ↔ id ∈ ids ∧
    match ev with
    | Suspect => fd_alive fd !! id = None ∧ fd_suspected fd !! id = None
    | Restore => is_Some (fd_alive fd !! id) ∧ is_Some (fd_suspected fd !! id)
    end.
Proof.
  unfold changes. rewrite list_elem_of_omap. unfold status_change. split.
  - intros (i & Hi & Hc). destruct (fd_alive fd !! i) eqn:Ea, (fd_suspected fd !! i) eqn:Es;
      simplify_eq; rewrite ?Ea, ?Es; by eauto.
  - intros [Hi Hc]. exists id. split; [done|]. destruct ev.
    + by destruct Hc as [-> ->].
    + by destruct Hc as [[? ->] [? ->]].
Qed.

Lemma changes_ids fd ids : (fm_ID <$> changes fd ids) `sublist_of` ids.
Proof.
  induction ids as [|i ids IH]; [done|]. rewrite changes_cons. unfold status_change.
  destruct (fd_alive fd !! i), (fd_suspected fd !! i); cbn; by constructor.
Qed.

Lemma publish_nil {M} (subs : gmap string (list M)) : (λ q, q ++ []) <$> subs = subs.
Proof.
  rewrite (map_fmap_ext _ id), map_fmap_id; [done|]. intros. apply app_nil_r.
Qed.

(** [fd'] is [fd] up to the suspicions and the subscribers' channels. *)
Definition fd_frame fd fd' : Prop :=
  fd_alive fd' = fd_alive fd ∧ fd_timeout fd' = fd_timeout fd ∧ fd_delta fd' = fd_delta fd ∧
  fd_ticker fd' = fd_ticker fd.

Lemma check_node_spec fd i :
  let fd' := check_node fd i in
  fd_frame fd fd' ∧
  (∀ id, fd_suspected fd' !! id = if decide (id = i)
     then next_status (fd_alive fd !! i) (fd_suspected fd !! i) else fd_suspected fd !! id) ∧
  fd_subs fd' = (λ q, q ++ changes fd [i]) <$> fd_subs fd.
Proof.
  cbn zeta. unfold check_node, notInAliveAndSuspected, inAliveAndSuspected, changes, publishFdMsg,
    publish, status_change, next_status. cbn [omap list_omap].
  destruct (fd_alive fd !! i) eqn:Ea, (fd_suspected fd !! i) eqn:Es; cbn;
    rewrite ?publish_nil; (split; [done|]); (split; [|done]); intros id; case_decide; subst;
    by rewrite ?lookup_insert_eq, ?lookup_delete_eq, ?lookup_insert_ne, ?lookup_delete_ne.
Qed.

Lemma check_nodes ids : ∀ fd, NoDup ids →
  let fd' := foldl check_node fd ids in
  fd_frame fd fd' ∧
  (∀ id, fd_suspected fd' !! id = if decide (id ∈ ids)
     then next_status (fd_alive fd !! id) (fd_suspected fd !! id) else fd_suspected fd !! id) ∧
  fd_subs fd' = (λ q, q ++ changes fd ids) <$> fd_subs fd.
Proof.
  induction ids as [|i ids IH]; intros fd Hnd; cbn zeta.
  { unfold changes. cbn. by rewrite publish_nil. }
  apply NoDup_cons in Hnd as [Hi Hnd]. cbn [foldl].
  destruct (check_node_spec fd i) as ((F1 & F2 & F3 & F4) & Hs & Hq).
  destruct (IH (check_node fd i) Hnd) as ((G1 & G2 & G3 & G4) & Hs' & Hq').
  split; [unfold fd_frame; by rewrite G1, G2, G3, G4|]. split.
  - intros id. rewrite Hs', F1. destruct (decide (id = i)) as [->|Hne].
    + rewrite decide_False, decide_True by set_solver. rewrite Hs. by rewrite decide_True.
    + rewrite (Hs id), (decide_False (P := id = i)) by done.
      destruct (decide (id ∈ ids)); [rewrite decide_True by set_solver|rewrite decide_False by set_solver];
        done.
  - rewrite Hq', Hq, <- map_fmap_compose. apply map_fmap_ext. intros name q _. cbn.
    assert (∀ l, l ⊆ ids → changes (check_node fd i) l = changes fd l) as Hch.
    { induction l as [|j l IHl]; intros Hl; [done|].
      rewrite !changes_cons, F1, Hs, decide_False, IHl by set_solver. done. }
    by rewrite Hch, <- app_assoc, !changes_cons, app_nil_r by done.
Qed.

Section fd_laws.
Context {G : Type} `{GroupManager G} {RO : RangeOrder} {RL : RangeOrderLaws RO}.
Implicit Types (fd : Fd) (gm : G).

Definition heard gm fd (id : ID) : Prop := is_Some (fd_alive fd !! id) ∨ id = gm_GetID gm.
Definition suspects fd (id : ID) : Prop := is_Some (fd_suspected fd !! id).

Lemma intersection_empty fd :
  isAliveSuspectedIntersectionEmpty fd = false ↔
  ∃ id, suspects fd id ∧ is_Some (fd_alive fd !! id).
Proof.
  unfold isAliveSuspectedIntersectionEmpty. rewrite negb_false_iff, existsb_exists. split.
  - intros ([id b] & Hin & Ha%bool_decide_eq_true). exists id. split; [|done]. exists b.
    by apply list_elem_of_In, elem_of_range_order in Hin.
  - intros (id & [b Hb] & Ha). exists (id, b). rewrite <- list_elem_of_In, elem_of_range_order.
    split; [done|]. by apply bool_decide_eq_true.
Qed.

(** The suspicions a pass over the group leaves. *)
Definition pass gm fd : Fd :=
  foldl check_node (fd <| fd_alive ::= <[gm_GetID gm := true]> |>) (IDs (gm_NodeMap gm)).

Lemma heard_alive gm fd id :
  is_Some (<[gm_GetID gm := true]> (fd_alive fd) !! id) ↔ heard gm fd id.
Proof.
  unfold heard. destruct (decide (id = gm_GetID gm)) as [->|].
  - rewrite lookup_insert_eq. naive_solver.
  - rewrite lookup_insert_ne by done. naive_solver.
Qed.

Lemma pass_suspects gm fd id :
  NoDup (IDs (gm_NodeMap gm)) →
  suspects (pass gm fd) id ↔
    if decide (id ∈ IDs (gm_NodeMap gm)) then ¬ heard gm fd id else suspects fd id.
Proof.
  intros Hnd. unfold pass, suspects. destruct (check_nodes (IDs (gm_NodeMap gm))
    (fd <| fd_alive ::= <[gm_GetID gm := true]> |>) Hnd) as (_ & -> & _).
  case_decide; [|done]. rewrite <- heard_alive. unfold next_status. cbn [fd_alive update].
  destruct (<[gm_GetID gm := true]> (fd_alive fd) !! id); unfold is_Some; naive_solver.
Qed.

Lemma timeoutProcedure_Ok gm fd fd' :
  timeoutProcedure gm fd = Ok fd' →
  ∃ fd1, fd' = (pass gm fd1) <| fd_alive := ∅ |> ∧ fd_alive fd1 = fd_alive fd ∧
    fd_suspected fd1 = fd_suspected fd ∧ fd_subs fd1 = fd_subs fd.
Proof.
  intros (fd1 & H1 & Hrun)%bind_Ok. injection Hrun as <-. exists fd1. split; [done|].
  destruct (negb _); [|by injection H1 as <-].
  apply bind_Ok in H1 as (t & _ & H1). by injection H1 as <-.
Qed.

(** A timeout suspects exactly the nodes of the group that were not heard
    of since the last one (never itself), forgets what was heard, announces
    every change of status to every subscriber, in order and only once, and
    makes the detector more patient exactly when a suspicion proved wrong. *)
Theorem timeoutProcedure_spec (gm : G) (fd : Fd) :
  NoDup (IDs (gm_NodeMap gm)) → 0 < fd_timeout fd → 0 ≤ fd_delta fd →
  fd_timeout fd + fd_delta fd < 2 ^ 63 →
  ∃ fd', timeoutProcedure gm fd = Ok fd' ∧ fd_alive fd' = ∅ ∧
    (∀ id, suspects fd' id ↔ if decide (id ∈ IDs (gm_NodeMap gm)) then ¬ heard gm fd id else suspects fd id) ∧
    (∃ msgs, (∀ name, fd_subs fd' !! name = (λ q, q ++ msgs) <$> fd_subs fd !! name) ∧
       NoDup (fm_ID <$> msgs) ∧ ∀ ev id, mkFdMsg ev id ∈ msgs ↔ id ∈ IDs (gm_NodeMap gm) ∧
         match ev with Suspect => ¬ suspects fd id ∧ ¬ heard gm fd id
                     | Restore => suspects fd id ∧ heard gm fd id end) ∧
    ((∃ id, suspects fd id ∧ is_Some (fd_alive fd !! id)) ∧ fd_timeout fd' = fd_timeout fd + fd_delta fd ∧
       fd_ticker fd' = fd_timeout fd' ∨
     (¬ ∃ id, suspects fd id ∧ is_Some (fd_alive fd !! id)) ∧ fd_timeout fd' = fd_timeout fd ∧
       fd_ticker fd' = fd_ticker fd).
Proof.
  intros Hnd Ht Hd Hmax.
  set (fd1 := if isAliveSuspectedIntersectionEmpty fd then fd else
    fd <| fd_timeout := fd_timeout fd + fd_delta fd |> <| fd_ticker := fd_timeout fd + fd_delta fd |>).
  assert (timeoutProcedure gm fd = Ok ((pass gm fd1) <| fd_alive := ∅ |>)) as ->.
  { unfold timeoutProcedure, fd1, NewTicker, pass.
    destruct (isAliveSuspectedIntersectionEmpty fd); cbn; [done|]. nowrap.
    by rewrite bool_decide_eq_false_2 by lia. }
  assert (fd_alive fd1 = fd_alive fd ∧ fd_suspected fd1 = fd_suspected fd ∧ fd_subs fd1 = fd_subs fd)
    as (E1 & E2 & E3) by (unfold fd1; by destruct (isAliveSuspectedIntersectionEmpty fd)).
  eexists. split; [done|]. split; [done|]. split.
  { intros id. change (suspects (pass gm fd1) id ↔ if decide (id ∈ IDs (gm_NodeMap gm)) then ¬ heard gm fd id
      else suspects fd id). rewrite pass_suspects by done. unfold heard, suspects. by rewrite E1, E2. }
  destruct (check_nodes (IDs (gm_NodeMap gm)) (fd1 <| fd_alive ::= <[gm_GetID gm := true]> |>) Hnd)
    as ((F1 & F2 & F3 & F4) & _ & Hq). fold (pass gm fd1) in F1, F2, F3, F4, Hq.
  cbn [fd_alive fd_timeout fd_ticker fd_subs update] in *. split.
  - exists (changes (fd1 <| fd_alive ::= <[gm_GetID gm := true]> |>) (IDs (gm_NodeMap gm))).
    split; [|split].
    + intros name. rewrite Hq, lookup_fmap, E3. done.
    + eapply sublist_NoDup; [exact Hnd|apply changes_ids].
    + intros ev id. rewrite elem_of_changes. cbn [fd_alive fd_suspected update].
      pose proof (heard_alive gm fd id) as Hheard. unfold suspects. rewrite E1, E2.
      destruct ev; rewrite ?eq_None_not_Some; tauto.
  - rewrite F2, F4. unfold fd1. destruct (isAliveSuspectedIntersectionEmpty fd) eqn:Ee; [right|left]; cbn.
    + split; [|done]. intros Hex%intersection_empty. congruence.
    + split; [|done]. by apply intersection_empty.
Qed.

(** What a subscriber that handles the messages of [q] comes to suspect. *)
Definition replay_one (S : gmap ID bool) (m : FdMsg) : gmap ID bool :=
  match fm_Event m with Suspect => <[fm_ID m := true]> S | Restore => delete (fm_ID m) S end.
Definition replay (S : gmap ID bool) (q : list FdMsg) : gmap ID bool := foldl replay_one S q.

Lemma replay_app S q1 q2 : replay S (q1 ++ q2) = replay (replay S q1) q2.
Proof. apply foldl_app. Qed.

(** The subscriber [name], that suspected [S] before its first message, has
    been told all about the current suspicions. *)
Definition told (S : gmap ID bool) (name : string) fd : Prop :=
  (∀ id b, fd_suspected fd !! id = Some b → b = true) ∧
  ∃ q, fd_subs fd !! name = Some q ∧ replay S q = fd_suspected fd.

Lemma told_check_node S name fd i : told S name fd → told S name (check_node fd i).
Proof.
  intros [Ht (q & Hq & Hr)]. unfold check_node, publishFdMsg.
  destruct (notInAliveAndSuspected fd i); [|destruct (inAliveAndSuspected fd i); [|by split; eauto]];
    (split; [|eexists; cbn; rewrite lookup_publish, Hq; split; [reflexivity|];
              rewrite replay_app, Hr; reflexivity]); intros id b; cbn.
  - rewrite lookup_insert_Some. naive_solver.
  - rewrite lookup_delete_Some. naive_solver.
Qed.

Lemma told_timeout S name gm fd fd' :
  told S name fd → timeoutProcedure gm fd = Ok fd' → told S name fd'.
Proof.
  intros Hfd (fd1 & -> & _ & E1 & E2)%timeoutProcedure_Ok.
  assert (told S name fd1) as Hfd1 by (unfold told in *; by rewrite E1, E2).
  change (told S name (pass gm fd1)).
  apply (foldl_inv (λ _, told S name)); [|exact Hfd1]. intros _ i _ fd2 _. apply told_check_node.
Qed.

Lemma told_resend S name fd : told S name fd → told S name (handleResendSuspected fd).
Proof.
  intros Hfd. unfold handleResendSuspected.
  apply (foldl_inv (λ _ fd', told S name fd' ∧ fd_suspected fd' = fd_suspected fd)); [|done].
  intros pre [id b] post fd1 Hpre [[Ht (q & Hq & Hr)] Hs]. split; [|done]. split; [done|].
  eexists. cbn. rewrite lookup_publish, Hq. split; [reflexivity|]. rewrite replay_app, Hr. cbn.
  assert (fd_suspected fd1 !! id = Some b) as Hid.
  { rewrite Hs, <- (elem_of_range_order 1), Hpre. set_solver. }
  rewrite (Ht _ _ Hid) in Hid. by apply insert_id.
Qed.

Definition fd_run fd (evs : list (G * FdEvent)) : res Fd :=
  foldM (λ fd '(gm, ev), fd_step gm fd ev) fd evs.

(** The events that leave the channel [name] in place and are announced. *)
Definition announced (name : string) (ev : FdEvent) : Prop :=
  match ev with FdSubscribe n => n ≠ name | FdSetAlive _ => False | _ => True end.

Lemma told_run S name evs fd fd' :
  (∀ gm ev, (gm, ev) ∈ evs → announced name ev) → told S name fd → fd_run fd evs = Ok fd' →
  told S name fd'.
Proof.
  intros Hevs Hfd. apply (foldM_inv (λ _, told S name)); [|exact Hfd].
  intros pre [gm ev] post fd1 fd2 Hpre Hfd1 Hrun.
  specialize (Hevs gm ev ltac:(rewrite Hpre; set_solver)).
  destruct ev; cbn in Hrun.
  - by eapply told_timeout.
  - by injection Hrun as <-.
  - by injection Hrun as <-.
  - injection Hrun as <-. by apply told_resend.
  - injection Hrun as <-. destruct Hfd1 as [Ht (q & Hq & Hr)]. split; [done|].
    exists q. cbn. by rewrite lookup_insert_ne.
  - done.
Qed.

(** A subscriber that handles all its messages, in order, ends with exactly
    the suspicions of the detector, whatever heartbeats, timeouts, resends and
    other subscriptions happened in between; marking a node alive directly is
    the one operation that is not announced. *)
Theorem fd_subscriber_tracks (evs : list (G * FdEvent)) (fd fd' : Fd) (name : string) :
  (∀ gm ev, (gm, ev) ∈ evs → announced name ev) →
  (∀ id b, fd_suspected fd !! id = Some b → b = true) →
  fd_run (SubscribeToFdMsgs name fd) evs = Ok fd' →
  ∃ q, fd_subs fd' !! name = Some q ∧ replay (fd_suspected fd) q = fd_suspected fd'.
Proof.
  intros Hevs Ht Hrun.
  destruct (told_run (fd_suspected fd) name evs (SubscribeToFdMsgs name fd) fd') as [_ Hq]; try done.
  split; [done|]. exists []. cbn. by rewrite lookup_insert_eq.
Qed.

End fd_laws.

(** * Ranking *)

(** [l] is the unsuspected candidate with the highest key, or [d] when all are
    suspected: the highest Paxos identifier, or dually the lowest. *)
Definition ranked (key : ID → Z) (d : ID) (S : gmap ID bool) (cands : list ID) (l : ID) : Prop :=
  (l = d ∧ ∀ id, id ∈ cands → is_Some (S !! id)) ∨
  (l ∈ cands ∧ S !! l = None ∧ ∀ id, id ∈ cands → S !! id = None → key id ≤ key l).
Definition top_ranked := ranked PxID MinID.
Definition bottom_ranked := ranked (λ id, - PxID id) MaxID.

Lemma ld_suspects_true ld id : ld_suspects ld id = true ↔ is_Some (ld_suspected ld !! id).
Proof. unfold ld_suspects. by rewrite bool_decide_eq_true. Qed.
Lemma ld_suspects_false ld id : ld_suspects ld id = false ↔ ld_suspected ld !! id = None.
Proof. unfold ld_suspects. by rewrite bool_decide_eq_false, eq_None_not_Some. Qed.

Lemma ranked_snoc key d S cands l id :
  key d < key id → ranked key d S cands l →
  ranked key d S (cands ++ [id])
    (if bool_decide (key id > key l) && negb (bool_decide (is_Some (S !! id))) then id else l).
Proof.
  intros H0 Htop. unfold ranked. setoid_rewrite elem_of_app.
  setoid_rewrite list_elem_of_singleton.
  destruct (decide (is_Some (S !! id))) as [Hs|Hs].
  - rewrite (bool_decide_eq_true_2 _ Hs), andb_false_r.
    destruct Htop as [[-> Hall]|(Hin & Hn & Hmax)]; [left|right]; split_and!; try naive_solver.
    intros j [?| ->] E; [by apply Hmax|]. rewrite E in Hs. by destruct Hs.
  - rewrite (bool_decide_eq_false_2 _ Hs), andb_true_r. apply eq_None_not_Some in Hs.
    case_bool_decide as Hk; right.
    + split; [by right|]. split; [done|]. intros j [Hj| ->] Hn; [|lia].
      destruct Htop as [[-> Hall]|(_ & _ & Hmax)].
      * destruct (Hall j Hj) as [? E]. congruence.
      * specialize (Hmax j Hj Hn). lia.
    + destruct Htop as [[-> Hall]|(Hin & Hn & Hmax)]; [lia|].
      split_and!; [by left|done|]. intros j [?| ->] ?; [by apply Hmax|lia].
Qed.

Lemma ranked_nil key d S : ranked key d S [] d.
Proof. left. split; [done|]. by intros ? ?%elem_of_nil. Qed.

Lemma ranked_same key d S1 S2 c1 c2 l :
  (∀ id, id ∈ c1 ↔ id ∈ c2) → (∀ id, id ∈ c1 → is_Some (S1 !! id) ↔ is_Some (S2 !! id)) →
  ranked key d S1 c1 l → ranked key d S2 c2 l.
Proof.
  intros Hc HS. unfold ranked.
  assert (∀ id, id ∈ c1 → S1 !! id = None ↔ S2 !! id = None) as Hn.
  { intros id Hid. specialize (HS id Hid). by rewrite !eq_None_not_Some, HS. }
  intros [[-> Hall]|(Hin & Hl & Hmax)]; [left|right].
  - split; [done|]. intros id Hid%Hc. by apply HS, Hall.
  - split; [by apply Hc|]. split; [by apply Hn|]. intros id Hid%Hc Hid0. by apply Hmax, Hn.
Qed.

(** Distinct replicas have distinct ranks, so there is at most one. *)
Lemma ranked_unique key d S cands l1 l2 :
  (∀ i j, i ∈ cands → j ∈ cands → key i = key j → i = j) →
  ranked key d S cands l1 → ranked key d S cands l2 → l1 = l2.
Proof.
  intros Huniq [[-> H1]|(I1 & N1 & M1)] [[-> H2]|(I2 & N2 & M2)]; [done| | |].
  - destruct (H1 _ I2) as [? E]. congruence.
  - destruct (H2 _ I1) as [? E]. congruence.
  - apply Huniq; [done..|]. specialize (M1 _ I2 N2). specialize (M2 _ I1 N1). lia.
Qed.

(** The proposers of the least epoch. *)
Definition oldest (ids : list ID) (id : ID) : Prop :=
  id ∈ ids ∧ ∀ j, j ∈ ids → IDEpoch id ≤ IDEpoch j.

Lemma min_epoch_spec ids :
  (∀ id, id ∈ ids → IDEpoch id ≤ MaxEpoch) →
  (∀ id, id ∈ ids → min_epoch ids ≤ IDEpoch id) ∧
  (min_epoch ids = MaxEpoch ∨ ∃ id, id ∈ ids ∧ IDEpoch id = min_epoch ids).
Proof.
  unfold min_epoch. induction ids as [|i ids IH] using rev_ind; intros Hmax.
  { split; [by intros ? ?%elem_of_nil|by left]. }
  destruct IH as [H1 H2]; [set_solver|]. rewrite foldl_app. cbn.
  setoid_rewrite elem_of_app. setoid_rewrite list_elem_of_singleton.
  case_bool_decide; split.
  - intros j [Hj| ->]; [|lia]. specialize (H1 j Hj). lia.
  - right. eauto.
  - intros j [Hj| ->]; [by apply H1|lia].
  - destruct H2 as [?|(j & ? & ?)]; eauto.
Qed.

Lemma elem_of_nodes_with_epoch e ids id b :
  nodes_with_epoch e ids !! id = Some b ↔ b = true ∧ id ∈ ids ∧ IDEpoch id = e.
Proof.
  unfold nodes_with_epoch. induction ids as [|i ids IH] using rev_ind.
  { cbn. rewrite lookup_empty, elem_of_nil. naive_solver. }
  rewrite foldl_app, elem_of_app, list_elem_of_singleton. cbn. case_bool_decide as He.
  - destruct (decide (i = id)) as [->|Hne].
    + rewrite lookup_insert_eq. naive_solver.
    + rewrite lookup_insert_ne, IH by done. naive_solver.
  - rewrite IH. naive_solver.
Qed.

(** * The leader detector, specified *)

Section ld_laws.
Context {G : Type} `{GroupManager G} {RO : RangeOrder} {RL : RangeOrderLaws RO}.
Implicit Types (ld : MonarchicalLD) (gm : G).

(** The groups the detector ranks: some node, identifiers in range. *)
Record rankable gm : Prop := {
  rk_len : Len (gm_NodeMap gm) ≠ 0;
  rk_px : ∀ id, id ∈ ProposerIDs (gm_NodeMap gm) → 0 ≤ PxID id < 127;
  rk_epoch : ∀ id, id ∈ ProposerIDs (gm_NodeMap gm) → IDEpoch id ≤ MaxEpoch;
}.

Definition proposers gm : list ID := ProposerIDs (gm_NodeMap gm).

Lemma maxRank_spec gm ld :
  rankable gm → ∃ l, maxRank gm ld = Ok l ∧ top_ranked (ld_suspected ld) (proposers gm) l.
Proof.
  intros [R1 R2 R3]. unfold maxRank. rewrite bool_decide_eq_false_2 by done.
  eexists. split; [done|].
  apply (foldl_inv (top_ranked (ld_suspected ld))); [|apply ranked_nil].
  intros pre id post l Hpre. apply ranked_snoc. change (-1 < PxID id).
  specialize (R2 id ltac:(unfold proposers in Hpre; rewrite Hpre; set_solver)). lia.
Qed.

(** Under live replacement only the proposers of the least epoch are ranked. *)
Lemma maxRankLr_spec gm ld :
  rankable gm → ∃ l r cands, maxRankLr gm ld = Ok (l, r) ∧
    (∀ id, id ∈ cands ↔ oldest (proposers gm) id) ∧
    top_ranked (ld_suspected ld) cands l ∧ bottom_ranked (ld_suspected ld) cands r.
Proof.
  intros [R1 R2 R3]. unfold maxRankLr. rewrite bool_decide_eq_false_2 by done. cbn zeta. fold (proposers gm).
  set (e := min_epoch _). set (m := nodes_with_epoch _ _).
  destruct (min_epoch_spec (proposers gm) R3) as [M1 M2].
  assert (∀ id, id ∈ (range_order 2 m).*1 ↔ oldest (proposers gm) id) as Hc.
  { intros id. split.
    - intros ([i b] & -> & Hin)%list_elem_of_fmap. apply elem_of_range_order in Hin.
      apply elem_of_nodes_with_epoch in Hin as (_ & Hin & He). split; [done|]. cbn. rewrite He. exact M1.
    - intros [Hin Hle]. apply list_elem_of_fmap. exists (id, true). split; [done|].
      apply elem_of_range_order, elem_of_nodes_with_epoch. split_and!; [done..|].
      specialize (M1 id Hin). fold e in M1, M2. destruct M2 as [M2|(j & Hj & M2)].
      + specialize (R3 id Hin). lia.
      + specialize (Hle j Hj). lia. }
  destruct (foldl (rank_lr ld) (MinID, MaxID) (range_order 2 m).*1) as [l r] eqn:E.
  exists l, r, (range_order 2 m).*1. split; [done|]. split; [done|].
  change ((λ '(l, r), top_ranked (ld_suspected ld) (range_order 2 m).*1 l ∧
    bottom_ranked (ld_suspected ld) (range_order 2 m).*1 r) (l, r)). rewrite <- E.
  apply (foldl_inv (λ ids '(l, r), top_ranked (ld_suspected ld) ids l ∧
    bottom_ranked (ld_suspected ld) ids r)); [|split; apply ranked_nil].
  intros pre id post [l' r'] Hpre [Ht Hb].
  assert (0 ≤ PxID id < 127) as Hid by (apply R2, Hc; rewrite Hpre; set_solver).
  unfold rank_lr, ld_suspects. split.
  - apply ranked_snoc; [change (-1 < PxID id); lia|done].
  - rewrite (bool_decide_ext (PxID id < PxID r') (- PxID id > - PxID r')) by lia.
    apply (ranked_snoc (λ id, - PxID id)); [change (- (127) < - PxID id); lia|done].
Qed.

(** The leaders a detector must trust, given its suspicions. *)
Definition leaders gm ld : Prop :=
  if ld_lrar ld
  then ∃ cands, (∀ id, id ∈ cands ↔ oldest (proposers gm) id) ∧
    top_ranked (ld_suspected ld) cands (pleader ld) ∧
    bottom_ranked (ld_suspected ld) cands (rleader ld)
  else top_ranked (ld_suspected ld) (proposers gm) (pleader ld).

(** A channel carries changes of leader only, up to the current one. *)
Definition trust_channel (q : list ID) (leader : ID) : Prop :=
  (∀ k x y, q !! k = Some x → q !! S k = Some y → x ≠ y) ∧ ∀ x, last q = Some x → x = leader.
Definition trust_channels (subs : gmap string (list ID)) (leader : ID) : Prop :=
  ∀ name q, subs !! name = Some q → trust_channel q leader.

Lemma trust_channel_snoc q old new :
  trust_channel q old → new ≠ old → trust_channel (q ++ [new]) new.
Proof.
  intros [Hq Hlast] Hne. split.
  - intros k x y Hx Hy. apply lookup_lt_Some in Hy as Hlen. rewrite length_app in Hlen. cbn in Hlen.
    rewrite lookup_app_l in Hx by lia. destruct (decide (S k < length q)%nat) as [Hk|Hk].
    + rewrite lookup_app_l in Hy by lia. by eapply Hq.
    + rewrite lookup_app_r in Hy by lia. replace (S k - length q)%nat with 0%nat in Hy by lia.
      injection Hy as <-. intros ->. apply Hne, Hlast. rewrite last_lookup.
      by replace (pred (length q)) with k by lia.
  - intros x. rewrite last_snoc. congruence.
Qed.

Lemma trust_channels_publish subs old new :
  trust_channels subs old → new ≠ old → trust_channels (publish new subs) new.
Proof.
  intros Hs Hne name q. rewrite lookup_publish. destruct (subs !! name) as [q0|] eqn:E; [|done].
  intros [= <-]. by eapply trust_channel_snoc; [eapply Hs|].
Qed.

Lemma trust_channels_subscribe subs leader name :
  trust_channels subs leader → trust_channels (<[name := []]> subs) leader.
Proof.
  intros Hs n q. rewrite lookup_insert_Some. intros [[_ <-]|[_ ?]]; [by split|by eapply Hs].
Qed.

Definition ld_channels ld : Prop :=
  trust_channels (pldSubscribers ld) (pleader ld) ∧ trust_channels (rldSubscribers ld) (rleader ld).

Lemma checkLeaders_spec gm ld :
  rankable gm → ld_channels ld →
  ∃ ld', checkLeaders gm ld = Ok ld' ∧ leaders gm ld' ∧ ld_channels ld' ∧
    ld_suspected ld' = ld_suspected ld ∧ ld_lrar ld' = ld_lrar ld.
Proof.
  intros Hgm [Hp Hr]. unfold checkLeaders, leaders, ld_channels. destruct (ld_lrar ld) eqn:El.
  - destruct (maxRankLr_spec gm ld Hgm) as (l & r & cands & Hrun & Hc & Ht & Hb).
    unfold checkLeadersLrAr. rewrite Hrun. eexists. split; [done|].
    case_bool_decide as N1; case_bool_decide as N2; cbn in N2 |- *; rewrite El; subst;
      (split; [by exists cands|]); (split; [|done]); split;
      done || by eapply trust_channels_publish.
  - destruct (maxRank_spec gm ld Hgm) as (l & Hrun & Ht).
    unfold checkPaxosLeader. rewrite Hrun. cbn [mbind res_bind]. case_bool_decide as Hne; (eexists; split; [done|]); cbn; rewrite El.
    + split; [done|]. split; [|done]. split; [by eapply trust_channels_publish|done].
    + subst l. by split_and!.
Qed.

Definition received (evs : list LdEvent) : list FdMsg :=
  omap (λ ev, match ev with LdFdMsg m => Some m | _ => None end) evs.

Lemma ld_step_spec gm ld ev :
  rankable gm → ld_channels ld → leaders gm ld →
  ∃ ld', ld_step gm ld ev = Ok ld' ∧ leaders gm ld' ∧ ld_channels ld' ∧ ld_lrar ld' = ld_lrar ld ∧
    ld_suspected ld' = replay (ld_suspected ld) (received [ev]).
Proof.
  intros Hgm Hch Hl. destruct ev as [[[] id]| |name|name]; cbn [ld_step]; unfold handleFdMsg; cbn [fm_Event fm_ID].
  1-3: match goal with |- context [checkLeaders ?g ?l] =>
         destruct (checkLeaders_spec g l Hgm Hch) as (ld' & -> & H1 & H2 & H3 & H4) end;
       exists ld'; by split_and!.
  - eexists. split; [done|]. split; [done|]. destruct Hch as [Hp Hr]. split; [|done].
    split; [by apply trust_channels_subscribe|done].
  - eexists. split; [done|]. split; [done|]. destruct Hch as [Hp Hr]. split; [|done].
    split; [done|by apply trust_channels_subscribe].
Qed.

Lemma ld_run_spec gm evs : ∀ ld,
  rankable gm → ld_channels ld → leaders gm ld →
  ∃ ld', foldM (ld_step gm) ld evs = Ok ld' ∧ leaders gm ld' ∧ ld_channels ld' ∧
    ld_lrar ld' = ld_lrar ld ∧ ld_suspected ld' = replay (ld_suspected ld) (received evs).
Proof.
  induction evs as [|ev evs IH]; intros ld Hgm Hch Hl; [by exists ld|].
  destruct (ld_step_spec gm ld ev Hgm Hch Hl) as (ld1 & Hrun & H1 & H2 & H3 & H4).
  destruct (IH ld1 Hgm H2 H1) as (ld2 & Hrun2 & G1 & G2 & G3 & G4).
  exists ld2. cbn [foldM]. rewrite Hrun. cbn [mbind res_bind]. split_and!; try done; [congruence|].
  rewrite G4, H4, <- replay_app. f_equal. unfold received. by destruct ev.
Qed.

Lemma NewMonarchicalLD_spec gm :
  rankable gm → ∃ ld, NewMonarchicalLD gm = Ok ld ∧ leaders gm ld ∧ ld_channels ld ∧
    ld_lrar ld = gm_LrEnabled gm || gm_ArEnabled gm ∧ ld_suspected ld = ∅.
Proof.
  intros Hgm. unfold NewMonarchicalLD. destruct (checkLeaders_spec gm
    {| pleader := mkID 0 0; rleader := mkID 0 0; ld_suspected := ∅; ld_fdChan := [];
       pldSubscribers := ∅; rldSubscribers := ∅;
       ld_lrar := negb (negb (gm_LrEnabled gm) && negb (gm_ArEnabled gm)) |} Hgm)
    as (ld & Hrun & H1 & H2 & H3 & H4); [by split; intros ? ? ?|].
  exists ld. split_and!; try done. rewrite H4. cbn. by destruct (gm_LrEnabled gm), (gm_ArEnabled gm).
Qed.

(** In every run of the leader detector over a group with a node, the
    process never dies, and after each event the Paxos leader is the
    unsuspected proposer with the highest identifier (under replacement, of
    the least epoch, with the lowest as replacement leader); every subscriber
    has been told exactly the changes of leader since it subscribed. *)
Theorem ld_run_leader (gm : G) (evs : list LdEvent) :
  rankable gm →
  ∃ ld0 ld, NewMonarchicalLD gm = Ok ld0 ∧ foldM (ld_step gm) ld0 evs = Ok ld ∧
    ld_suspected ld = replay ∅ (received evs) ∧ leaders gm ld ∧
    ld_lrar ld = gm_LrEnabled gm || gm_ArEnabled gm ∧ ld_channels ld.
Proof.
  intros Hgm. destruct (NewMonarchicalLD_spec gm Hgm) as (ld0 & Hnew & H1 & H2 & H3 & H4).
  destruct (ld_run_spec gm evs ld0 Hgm H2 H1) as (ld & Hrun & G1 & G2 & G3 & G4).
  exists ld0, ld. split_and!; try done; [|congruence]. by rewrite G4, H4.
Qed.

(** C10: a leader detector that handles everything its failure detector has told
    it trusts, after a timeout, the highest proposer heard of since the timeout
    before, itself included; so replicas of one group that hear of the same
    proposers trust the same leader. *)
Theorem elected_leader (gm : G) (evs : list (G * FdEvent)) (timeout delta : Z) (fd fd' : Fd) :
  rankable gm → nodemap_wf (gm_NodeMap gm) → gm_LrEnabled gm = false → gm_ArEnabled gm = false →
  (∀ g ev, (g, ev) ∈ evs → announced "ld" ev) →
  fd_run (SubscribeToFdMsgs "ld" (NewFd timeout delta)) evs = Ok fd → timeoutProcedure gm fd = Ok fd' →
  ∃ q ld0 ld, fd_subs fd' !! "ld"%string = Some q ∧ NewMonarchicalLD gm = Ok ld0 ∧
    foldM (ld_step gm) ld0 (LdFdMsg <$> q) = Ok ld ∧
    ∀ l, l ∈ proposers gm → heard gm fd l →
      (∀ id, id ∈ proposers gm → heard gm fd id → PxID id ≤ PxID l) → PaxosLeader ld = l.
Proof.
  intros Hgm Hwf Hlr Har Hevs Hrun Ht.
  assert (told ∅ "ld" (SubscribeToFdMsgs "ld" (NewFd timeout delta))) as Htold.
  { split; [by intros ? ? ?|]. exists []. done. }
  pose proof (told_timeout _ _ _ _ _ (told_run _ _ _ _ _ Hevs Htold Hrun) Ht) as [_ (q & Hq & Hr)].
  destruct (NewMonarchicalLD_spec gm Hgm) as (ld0 & Hnew & H1 & H2 & H3 & H4).
  destruct (ld_run_spec gm (LdFdMsg <$> q) ld0 Hgm H2 H1) as (ld & Hld & G1 & G2 & G3 & G4).
  exists q, ld0, ld. do 3 (split; [done|]). intros l Hl Hheard Hmax.
  unfold leaders in G1. rewrite G3, H3, Hlr, Har in G1. cbn in G1.
  assert (received (LdFdMsg <$> q) = q) as Hrec.
  { unfold received. clear. induction q as [|m q IH]; [done|]. cbn in *. by f_equal. }
  rewrite Hrec, H4, Hr in G4.
  assert (∀ id, id ∈ proposers gm → id ∈ IDs (gm_NodeMap gm) ∧ is_Some (nodes (gm_NodeMap gm) !! id)) as Hids.
  { intros id. unfold proposers, ProposerIDs, IDs. rewrite (wf_pids _ Hwf), (wf_ids _ Hwf).
    unfold role_ids. intros ([i n] & -> & [_ Hin]%list_elem_of_filter)%list_elem_of_fmap.
    split; [by apply (list_elem_of_fmap_2 fst _ _ Hin)|]. exists n. by apply elem_of_map_to_list. }
  assert (∀ id, id ∈ proposers gm → ld_suspected ld !! id = None ↔ heard gm fd id) as Hsus.
  { intros id Hid. rewrite G4. destruct (timeoutProcedure_Ok _ _ _ Ht) as (fd1 & -> & E1 & _ & _).
    rewrite eq_None_not_Some. change (¬ suspects (pass gm fd1) id ↔ heard gm fd id).
    rewrite pass_suspects.
    - rewrite decide_True by by apply Hids. unfold heard. rewrite E1.
      destruct (decide (is_Some (fd_alive fd !! id) ∨ id = gm_GetID gm)); tauto.
    - unfold IDs. rewrite (wf_ids _ Hwf). apply NoDup_fst_map_to_list. }
  assert (∀ i j, i ∈ proposers gm → j ∈ proposers gm → PxID i = PxID j → i = j) as Huniq.
  { intros i j Hi Hj Heq. destruct (Hids i Hi) as [_ [n1 N1]], (Hids j Hj) as [_ [n2 N2]].
    by eapply wf_uniq. }
  eapply (ranked_unique PxID); [exact Huniq|exact G1|]. right.
  split; [done|]. split; [by apply Hsus|]. intros id Hid Hn. apply Hmax; [done|]. by apply Hsus.
Qed.

End ld_laws.

(** * Witnesses *)

(** Replica 1 hears of replica 2, then of nobody but replica 0, then of replica
    2 again. *)
Definition ex_fd_new : Fd := NewFd 500 100.
Definition ex_fd_events : list (GrpMgr * FdEvent) :=
  (λ ev, (ex_gm 1, ev)) <$>
    [FdHeartbeat (ex_id 0); FdHeartbeat (ex_id 2); FdTick; FdHeartbeat (ex_id 0); FdTick; FdResend;
     FdHeartbeat (ex_id 2)].
Definition ex_fd : Fd :=
  match fd_run (SubscribeToFdMsgs "ld" ex_fd_new) ex_fd_events with Ok fd => fd | _ => ex_fd_new end.

Lemma ex_fd_run : fd_run (SubscribeToFdMsgs "ld" ex_fd_new) ex_fd_events = Ok ex_fd.
Proof. vm_compute. reflexivity. Qed.

Lemma ex_ids_NoDup : NoDup (IDs (gm_NodeMap (ex_gm 1))).
Proof.
  change (NoDup (idsMemoized ex_nodemap)). rewrite (wf_ids _ ex_nodemap_wf).
  apply NoDup_fst_map_to_list.
Qed.

Lemma ex_announced g ev : (g, ev) ∈ ex_fd_events → announced "ld" ev.
Proof.
  unfold ex_fd_events. intros (e & [= -> ->] & He)%list_elem_of_fmap.
  rewrite !elem_of_cons, elem_of_nil in He. naive_solver.
Qed.

Lemma ex_proposers id : id ∈ proposers (ex_gm 1) ↔ id = ex_id 0 ∨ id = ex_id 2 ∨ id = ex_id 1.
Proof.
  assert (proposers (ex_gm 1) = [ex_id 0; ex_id 2; ex_id 1]) as -> by (vm_compute; reflexivity).
  rewrite !elem_of_cons, elem_of_nil. naive_solver.
Qed.

Lemma ex_rankable : rankable (ex_gm 1).
Proof.
  split.
  - vm_compute. discriminate.
  - intros id [->|[->| ->]]%ex_proposers; cbn; lia.
  - intros id [->|[->| ->]]%ex_proposers; by vm_compute.
Qed.

(** The wrong suspicion of replica 2 is taken back and the timeout grows. *)
Lemma timeoutProcedure_spec_witness :
  suspects ex_fd (ex_id 2) ∧
  ∃ fd', timeoutProcedure (ex_gm 1) ex_fd = Ok fd' ∧ fd_alive fd' = ∅ ∧ fd_timeout fd' = 600 ∧
    suspects fd' (ex_id 0).
Proof.
  split; [eexists; vm_compute; reflexivity|].
  destruct (timeoutProcedure_spec (ex_gm 1) ex_fd ex_ids_NoDup) as (fd' & Hrun & Ha & _);
    [by vm_compute|by vm_compute|by vm_compute|].
  exists fd'. split; [exact Hrun|]. split; [exact Ha|]. vm_compute in Hrun. injection Hrun as <-.
  split; [reflexivity|]. eexists. vm_compute. reflexivity.
Defined.

Lemma fd_subscriber_tracks_witness :
  fd_subs ex_fd !! "ld"%string = Some [mkFdMsg Suspect (ex_id 2); mkFdMsg Suspect (ex_id 2)] ∧
  ∃ q, fd_subs ex_fd !! "ld"%string = Some q ∧ replay ∅ q = fd_suspected ex_fd.
Proof.
  split; [vm_compute; reflexivity|].
  apply (fd_subscriber_tracks ex_fd_events ex_fd_new ex_fd "ld" ex_announced); [|apply ex_fd_run].
  intros id b. cbn. by rewrite lookup_empty.
Defined.

Lemma ld_run_leader_witness :
  ∃ ld0 ld, NewMonarchicalLD (ex_gm 1) = Ok ld0 ∧
    foldM (ld_step (ex_gm 1)) ld0 [LdSubscribePaxos "px"; LdFdMsg (mkFdMsg Suspect (ex_id 2));
      LdFdMsg (mkFdMsg Restore (ex_id 2))] = Ok ld ∧
    pldSubscribers ld !! "px"%string = Some [ex_id 1; ex_id 2] ∧ pleader ld = ex_id 2.
Proof.
  destruct (ld_run_leader (ex_gm 1) [LdSubscribePaxos "px"; LdFdMsg (mkFdMsg Suspect (ex_id 2));
      LdFdMsg (mkFdMsg Restore (ex_id 2))] ex_rankable) as (ld0 & ld & H1 & H2 & _).
  exists ld0, ld. split; [exact H1|]. split; [exact H2|].
  vm_compute in H1. injection H1 as <-. vm_compute in H2. injection H2 as <-. split; reflexivity.
Defined.

Lemma elected_leader_witness :
  ∃ fd' q ld0 ld, timeoutProcedure (ex_gm 1) ex_fd = Ok fd' ∧ fd_subs fd' !! "ld"%string = Some q ∧
    NewMonarchicalLD (ex_gm 1) = Ok ld0 ∧ foldM (ld_step (ex_gm 1)) ld0 (LdFdMsg <$> q) = Ok ld ∧
    PaxosLeader ld = ex_id 2.
Proof.
  destruct (timeoutProcedure (ex_gm 1) ex_fd) as [fd'| |] eqn:Ht; [|by vm_compute in Ht..].
  destruct (elected_leader (ex_gm 1) ex_fd_events 500 100 ex_fd fd' ex_rankable ex_nodemap_wf
    eq_refl eq_refl ex_announced ex_fd_run Ht) as (q & ld0 & ld & H1 & H2 & H3 & H4).
  exists fd', q, ld0, ld. split_and!; [done..|]. apply H4.
  - apply ex_proposers. by auto.
  - left. eexists. vm_compute. reflexivity.
  - intros id [->|[->| ->]]%ex_proposers _; cbn; lia.
Defined.
