(* ===== verification/Network.v ===== *)
(** Package net (src/net): the connections between replicas, the demuxer that
    hands the messages of a connection to the channels registered for their
    type, and the sender that queues messages for the connections.

    [net_step] is what one goroutine of the package does between two of its
    blocking operations: the sender's and demuxer's loops, and [handleIn] and
    [handleOut] of every connection. What the other side of a socket does (a
    decoded message, the result of a write) comes with the event. Messages are
    of any type [M]; [mtype] is the dynamic type of one. A connection is a
    pointer, numbered in [n_heap]. The queues of a connection, of heartbeats and
    of resets are bounded as in the code; the channels of the actors are not. *)
From stdpp Require Import list.
From S2P Require Import Prelude Grp.

Definition reconnectWait : Z := 500.
Definition maxConnAttempts : Z := 120.

(** * Messages (msg.go) *)

(** What travels through an [interface{}]: a value, or a pointer to one, which
    gob flattens. *)
Record NetMsg (M : Type) := mkNetMsg { nm_ptr : bool; nm_val : M }.
Arguments mkNetMsg {M} _ _.
Arguments nm_ptr {M} _.
Arguments nm_val {M} _.

Record IDResponse := mkIDResponse { Accepted : bool; IDError : string }.

Inductive NetErr := ErrIDIsEqual | ErrIDOutOfBounds | ErrLowerID.
#[export] Instance NetErr_eq_dec : EqDecision NetErr.
Proof. solve_decision. Defined.
Definition NetErr_Error (e : NetErr) : string :=
  match e with
  | ErrIDIsEqual => "id is equal to this node"
  | ErrIDOutOfBounds => "id is out of bounds for current cluster size"
  | ErrLowerID => "id for connection is lower than already present"
  end.

(** * Connections (connection.go) *)

(** Where [handleIn] is: decoding, about to report the message as a heartbeat,
    or returned. *)
Inductive InPc := InDecode | InBeat | InDone.
#[export] Instance InPc_eq_dec : EqDecision InPc.
Proof. solve_decision. Defined.

Record GxConnection (M : Type) := mkGxConnection {
  gc_id : ID;
  gc_outgoing : list (NetMsg M);
  gc_closed : bool;
  gc_in : InPc;
  gc_out : bool;                    (* handleOut has not returned *)
}.
Arguments mkGxConnection {M} _ _ _ _ _.
Arguments gc_id {M} _.
Arguments gc_outgoing {M} _.
Arguments gc_closed {M} _.
Arguments gc_in {M} _.
Arguments gc_out {M} _.
#[export] Instance eta_GxConnection M : Eta (GxConnection M) := λ r,
  mkGxConnection (gc_id r) (gc_outgoing r) (gc_closed r) (gc_in r) (gc_out r).

Definition outgoing_cap : Z := 128.
Definition heartbeat_cap : Z := 128.
Definition reset_cap : Z := 64.

Definition NewGxConnection {M} (id : ID) : GxConnection M := mkGxConnection id [] false InDecode true.
Definition Conn_Close {M} (gc : GxConnection M) : GxConnection M := gc <| gc_closed := true |>.

(** * Dialling (shared.go) *)

(** [dial n] tells whether the n-th call to [net.Dial] succeeds; the result is
    the number of the one that did. *)
Fixpoint redial (dial : nat → bool) (fuel i : nat) : res (option nat) :=
  match fuel with
  | O => Diverge
  | S fuel =>
      if bool_decide (Z.of_nat i >= maxConnAttempts) then mret None
      else if dial (S i) then mret (Some (S i)) else redial dial fuel (S i)
  end.
Definition ConnectToAddr (dial : nat → bool) : res (option nat) :=
  if dial 0%nat then mret (Some 0%nat) else redial dial (Z.to_nat maxConnAttempts + 1) 0.
Definition ConnectToNode (n : Node) (net : string → nat → bool) : res (option nat) :=
  ConnectToAddr (net (PaxosAddr n)).

Inductive DialErr := EUnableToConnect | ESend | EReceive | ERejected (why : string).

(** [sent] tells whether the identifier could be sent, [resp] what was received. *)
Definition GxConnectTo {M} (n : Node) (net : string → nat → bool) (sent : bool) (resp : option IDResponse) (calledID : ID)
    : res (GxConnection M + DialErr) :=
  conn ← ConnectToNode n net;
  match conn with
  | None => mret (inr EUnableToConnect)
  | Some _ =>
      if negb sent then mret (inr ESend)
      else match resp with
           | None => mret (inr EReceive)
           | Some r => if negb (Accepted r) then mret (inr (ERejected ("id rejected: " +:+ IDError r)))
                       else mret (inl (NewGxConnection calledID))
           end
  end.

(** One attempt, with a timeout, and no place in the connection map. *)
Definition GxConnectEphemeral (dialled sent : bool) (resp : option IDResponse) : option DialErr :=
  if negb dialled then Some EUnableToConnect
  else if negb sent then Some ESend
  else match resp with
       | None => Some EReceive
       | Some r => if negb (Accepted r) then Some (ERejected ("id rejected: " +:+ IDError r)) else None
       end.

(** * The state *)

(** Where the sender's loop is: receiving, at [snd.resetch <- true], or held by
    the group manager. *)
Inductive SndPc := SndRun | SndReset | SndHeld | SndStopped.
#[export] Instance SndPc_eq_dec : EqDecision SndPc.
Proof. solve_decision. Defined.

Section net.
Context {M T : Type} `{Countable T} (mtype : M → T) (heartbeat : T).
Context {G : Type} `{GroupManager G}.

Record Net := mkNet {
  n_gm : G;                               (* shared with the other modules *)
  n_sid : ID;                             (* Sender.id *)
  n_did : ID;                             (* TcpDemuxer.id *)
  n_pc : SndPc;
  n_connected : bool;
  n_dmx_closed : bool;
  n_conns : gmap PaxosID nat;             (* connections *)
  n_heap : list (GxConnection M);
  n_channels : gmap (bool * T) (list nat);
  n_heartbeats : list ID;                 (* heartbeatChan *)
  n_resets : Z;                           (* resetch *)
}.
#[local] Instance eta_Net : Eta Net := λ r,
  mkNet (n_gm r) (n_sid r) (n_did r) (n_pc r) (n_connected r) (n_dmx_closed r) (n_conns r) (n_heap r)
    (n_channels r) (n_heartbeats r) (n_resets r).

(** [NewSender] and [NewTcpDemuxer], which exits when the node map does not
    have the node. *)
Definition NewNet (id : ID) (gm : G) : option Net :=
  if (LookupNode (gm_NodeMap gm) id).2
  then Some (mkNet gm id id SndRun false false ∅ [] ∅ [] 0) else None.

(** What a step does: a message is sent to a channel, queued for a connection,
    taken from its queue and written, or lost because the write failed. *)
Inductive NetOut :=
| NDeliver (ch : nat) (m : NetMsg M)
| NQueued (c : nat) (m : NetMsg M)
| NWritten (c : nat) (m : NetMsg M)
| NLost (c : nat) (m : NetMsg M).

(** ** The demuxer (demuxer_tcp.go) *)

Definition RegisterChannel (s : Net) (t : bool * T) (ch : nat) : Net :=
  let s := match n_channels s !! t with None => s <| n_channels ::= <[t := []]> |> | Some _ => s end in
  s <| n_channels ::= alter (λ chs, chs ++ [ch]) t |>.

Definition msg_type (m : NetMsg M) : bool * T := (nm_ptr m, mtype (nm_val m)).

Definition HandleMessage (s : Net) (m : NetMsg M) : list NetOut :=
  match n_channels s !! msg_type m with
  | Some chVals => (λ ch, NDeliver ch m) <$> chVals
  | None => []
  end.

Definition validateID (s : Net) (cid : ID) : option NetErr :=
  if bool_decide (cid = n_did s) && negb (gm_LrEnabled (n_gm s)) then Some ErrIDIsEqual
  else if bool_decide (PxID cid <= MinPaxosID) || bool_decide (PxID cid > i8 (u64 (gm_NrOfNodes (n_gm s) - 1)))
  then Some ErrIDOutOfBounds
  else None.

(** A new connection becomes the peer's; [handleIn] and [handleOut] start. *)
Definition install (s : Net) (gc : GxConnection M) : Net :=
  s <| n_conns ::= <[PxID (gc_id gc) := length (n_heap s)]> |> <| n_heap ::= λ h, h ++ [gc] |>.
Definition close_conn (s : Net) (c : nat) : Net := s <| n_heap ::= alter Conn_Close c |>.

Definition AddToConnections (s : Net) (gc : GxConnection M) (lrArEnabled : bool) : option NetErr * Net :=
  let existing := n_conns s !! PxID (gc_id gc) in
  if negb lrArEnabled then
    let s := install s gc in
    (None, match existing with Some c => close_conn s c | None => s end)
  else
    match existing with
    | Some c =>
        match n_heap s !! c with
        | Some existingConn =>
            if bool_decide (CompareTo (gc_id gc) (gc_id existingConn) < 0) then (Some ErrLowerID, s)
            else (None, install (close_conn s c) gc)
        | None => (None, install s gc)
        end
    | None => (None, install s gc)
    end.

(** The body of the demuxer's loop: [cid] is what [waitForID] returns and
    [respSent] whether the response could be sent. The second component is the
    response, the last the error after it. *)
Definition accept (s : Net) (cid : option ID) (respSent : bool) : Net * option IDResponse * option NetErr :=
  match cid with
  | None => (s, None, None)
  | Some cid =>
      match validateID s cid with
      | Some err => (s, Some (mkIDResponse false (NetErr_Error err)), None)
      | None =>
          if negb respSent then (s, None, None)
          else
            let '(err, s) := AddToConnections s (NewGxConnection cid) (gm_LrEnabled (n_gm s) || gm_ArEnabled (n_gm s)) in
            (s, Some (mkIDResponse true ""), err)
      end
  end.

Definition Demuxer_Stop (s : Net) : Net := s <| n_dmx_closed := true |>.

(** ** The sender (sender.go) *)

Definition is_heartbeat (m : NetMsg M) : bool := bool_decide (msg_type m = (false, heartbeat)).

Definition getConnection (s : Net) (pid : PaxosID) : option nat := n_conns s !! pid.

Definition enqueue (s : Net) (c : nat) (m : NetMsg M) : Net * list NetOut :=
  match n_heap s !! c with
  | Some gc =>
      if bool_decide (len (gc_outgoing gc) < outgoing_cap)
      then (s <| n_heap ::= alter (λ gc, gc <| gc_outgoing ::= λ q, q ++ [m] |>) c |>, [NQueued c m])
      else (s, [])
  | None => (s, [])
  end.

Definition unicast (s : Net) (m : NetMsg M) (id : ID) : Net * list NetOut :=
  if bool_decide (id = n_sid s) then (if is_heartbeat m then (s, []) else (s, HandleMessage s m))
  else match getConnection s (PxID id) with None => (s, []) | Some c => enqueue s c m end.

(** The loop of [broadcast], then its switch. *)
Fixpoint unicast_all (s : Net) (m : NetMsg M) (ids : list ID) : Net * list NetOut :=
  match ids with
  | [] => (s, [])
  | id :: ids => let '(s, o1) := unicast s m id in let '(s, o2) := unicast_all s m ids in (s, o1 ++ o2)
  end.
Definition broadcast (s : Net) (m : NetMsg M) (ids : list ID) : Net * list NetOut :=
  let '(s, outs) := unicast_all s m ids in
  (if is_heartbeat m then s else s <| n_pc := SndReset |>, outs).

Definition broadcastAll (s : Net) m := broadcast s m (IDs (gm_NodeMap (n_gm s))).
Definition broadcastProposers (s : Net) m := broadcast s m (ProposerIDs (gm_NodeMap (n_gm s))).
Definition broadcastAcceptors (s : Net) m := broadcast s m (AcceptorIDs (gm_NodeMap (n_gm s))).
Definition broadcastLearners (s : Net) m := broadcast s m (LearnerIDs (gm_NodeMap (n_gm s))).

Definition areWeFullyConnected (s : Net) : bool :=
  forallb (λ id, bool_decide (is_Some (n_conns s !! PxID id)) || bool_decide (id = n_sid s))
    (IDs (gm_NodeMap (n_gm s))).

(** The loop of [InitialConnect]; [conn id] is what [GxConnectTo] returns. The
    process exits when a node cannot be found or connected to. *)
Fixpoint initial_dials (s : Net) (conn : ID → GxConnection M + DialErr) (ids : list ID) : option Net :=
  match ids with
  | [] => Some s
  | id :: ids =>
      if bool_decide (PxID id > PxID (n_sid s)) then
        if (LookupNode (gm_NodeMap (n_gm s)) id).2 then
          match conn id with
          | inl gc => initial_dials (s <| n_conns ::= <[PxID id := length (n_heap s)]> |> <| n_heap ::= λ h, h ++ [gc] |>) conn ids
          | inr _ => None
          end
        else None
      else initial_dials s conn ids
  end.
Definition InitialConnect (s : Net) (conn : ID → GxConnection M + DialErr) : option Net :=
  initial_dials s conn (IDs (gm_NodeMap (n_gm s))).

(** ** Shared by the other modules (shared.go) *)

Definition CheckConnections (s : Net) (conf : list ID) : list ID :=
  foldl (λ notconn id,
      match n_conns s !! PxID id with
      | Some c =>
          match n_heap s !! c with
          | Some gc => if bool_decide (id ≠ gc_id gc) then notconn ++ [id] else notconn
          | None => notconn ++ [id]
          end
      | None => notconn ++ [id]
      end) [] conf.

Definition UpdateConnID (s : Net) (oldID : ID) (newEpoch : Epoch) : bool * Net :=
  match n_conns s !! PxID oldID with
  | Some c =>
      match n_heap s !! c with
      | Some gc =>
          if bool_decide (gc_id gc = oldID)
          then (true, s <| n_heap ::= alter (λ gc, gc <| gc_id := mkID (PxID (gc_id gc)) newEpoch |>) c |>)
          else (false, s)
      | None => (false, s)
      end
  | None => (false, s)
  end.

(** ** The goroutines *)

Inductive WriteRes := WOk | WEOF | WTemporary | WError.

Inductive NetEvent :=
| ERegister (t : bool * T) (ch : nat)
| EAccept (cid : option ID) (respSent : bool)     (* the demuxer's loop *)
| EDmxStop
| EWaitConnected                                  (* the end of InitialConnect *)
| EOutB (m : NetMsg M)
| EOutP (m : NetMsg M)
| EOutA (m : NetMsg M)
| EOutL (m : NetMsg M)
| EOutU (m : NetMsg M) (id : ID)
| EReset                                          (* the sender's send to resetch *)
| EResetTaken                                     (* the heartbeat emitter's receive *)
| EHold                                           (* handleGrpHold *)
| ERelease
| ESndStop
| EIn (c : nat) (m : M)                           (* handleIn *)
| EInErr (c : nat)
| EBeat (c : nat)
| EBeatTaken                                      (* the failure detector's receive *)
| EOut (c : nat) (r : WriteRes)                   (* handleOut *)
| EAdd (id : ID) (lrArEnabled : bool)             (* another module connects *)
| EUpdate (oldID : ID) (newEpoch : Epoch)
| EGroup (gm : G).                                (* another module changes the group *)

Definition guard_pc (s : Net) (pc : SndPc) (r : Net * list NetOut) : option (Net * list NetOut) :=
  if bool_decide (n_pc s = pc) then Some r else None.

(** [None]: the goroutine waits, or is not there. *)
Definition net_step (s : Net) (ev : NetEvent) : option (Net * list NetOut) :=
  match ev with
  | ERegister t ch => Some (RegisterChannel s t ch, [])
  | EAccept cid ok => if n_dmx_closed s then None else Some ((accept s cid ok).1.1, [])
  | EDmxStop => Some (Demuxer_Stop s, [])
  | EWaitConnected => if areWeFullyConnected s then Some (s <| n_connected := true |>, []) else None
  | EOutB m => guard_pc s SndRun (broadcastAll s m)
  | EOutP m => guard_pc s SndRun (broadcastProposers s m)
  | EOutA m => guard_pc s SndRun (broadcastAcceptors s m)
  | EOutL m => guard_pc s SndRun (broadcastLearners s m)
  | EOutU m id => guard_pc s SndRun (unicast s m id)
  | EReset =>
      if bool_decide (n_resets s < reset_cap)
      then guard_pc s SndReset (s <| n_resets ::= λ n, n + 1 |> <| n_pc := SndRun |>, []) else None
  | EResetTaken => if bool_decide (0 < n_resets s) then Some (s <| n_resets ::= λ n, n - 1 |>, []) else None
  | EHold => guard_pc s SndRun (s <| n_pc := SndHeld |>, [])
  | ERelease => guard_pc s SndHeld (s <| n_sid := gm_GetID (n_gm s) |> <| n_pc := SndRun |>, [])
  | ESndStop => guard_pc s SndRun (s <| n_pc := SndStopped |>, [])
  | EIn c m =>
      gc ← n_heap s !! c;
      if bool_decide (gc_in gc = InDecode)
      then Some (s <| n_heap ::= alter (λ gc, gc <| gc_in := InBeat |>) c |>, HandleMessage s (mkNetMsg false m)) else None
  | EInErr c =>
      gc ← n_heap s !! c;
      if bool_decide (gc_in gc = InDecode)
      then Some (s <| n_heap ::= alter (λ gc, Conn_Close (gc <| gc_in := InDone |>)) c |>, []) else None
  | EBeat c =>
      gc ← n_heap s !! c;
      if bool_decide (gc_in gc = InBeat) && bool_decide (len (n_heartbeats s) < heartbeat_cap)
      then Some (s <| n_heartbeats ::= λ q, q ++ [gc_id gc] |> <| n_heap ::= alter (λ gc, gc <| gc_in := InDecode |>) c |>, [])
      else None
  | EBeatTaken => match n_heartbeats s with _ :: q => Some (s <| n_heartbeats := q |>, []) | [] => None end
  | EOut c r =>
      gc ← n_heap s !! c;
      match gc_outgoing gc with
      | m :: q =>
          if gc_out gc then
            let s := s <| n_heap ::= alter (λ gc, gc <| gc_outgoing := q |>) c |> in
            match r with
            | WOk => Some (s, [NWritten c m])
            | WTemporary => Some (s, [NLost c m])
            | WEOF | WError => Some (s <| n_heap ::= alter (λ gc, gc <| gc_out := false |>) c |>, [NLost c m])
            end
          else None
      | [] => None
      end
  | EAdd id lrAr => Some ((AddToConnections s (NewGxConnection id) lrAr).2, [])
  | EUpdate oldID e => Some ((UpdateConnID s oldID e).2, [])
  | EGroup gm => Some (s <| n_gm := gm |>, [])
  end.

Fixpoint net_run (s : Net) (evs : list NetEvent) : option (Net * list NetOut) :=
  match evs with
  | [] => Some (s, [])
  | ev :: evs => '(s1, o1) ← net_step s ev; '(s2, o2) ← net_run s1 evs; Some (s2, o1 ++ o2)
  end.

(** * Properties *)

Implicit Types (s : Net) (gc : GxConnection M) (m : NetMsg M).

(** ** Dialling *)

Lemma redial_spec (dial : nat → bool) fuel i : (i <= Z.to_nat maxConnAttempts < fuel + i)%nat →
  ∃ r, redial dial fuel i = Ok r ∧
    match r with
    | Some k => (i < k <= Z.to_nat maxConnAttempts)%nat ∧ dial k = true ∧ ∀ j, (i < j < k)%nat → dial j = false
    | None => ∀ j, (i < j <= Z.to_nat maxConnAttempts)%nat → dial j = false
    end.
Proof.
  unfold maxConnAttempts. revert i. induction fuel as [|fuel IH]; intros i Hf; [lia|].
  cbn [redial]. unfold maxConnAttempts. case_bool_decide as Hi; [exists None; split; [done|]; lia|].
  destruct (dial (S i)) eqn:Hd; [exists (Some (S i)); split; [done|]; split_and!; [lia..|done|lia]|].
  destruct (IH (S i)) as (r & Hr & Hs); [lia|]. exists r. split; [done|]. destruct r as [k|].
  - destruct Hs as (? & ? & Hj). split_and!; [lia..|done|]. intros j Hj'. destruct (decide (j = S i)) as [->|]; [done|]. apply Hj. lia.
  - intros j Hj'. destruct (decide (j = S i)) as [->|]; [done|]. apply Hs. lia.
Qed.

(** Dialling ends; it gives the first of the 121 dials that succeeds, and an
    error when none does. *)
Theorem ConnectToAddr_spec (dial : nat → bool) :
  ∃ r, ConnectToAddr dial = Ok r ∧
    match r with
    | Some k => (k <= 120)%nat ∧ dial k = true ∧ ∀ j, (j < k)%nat → dial j = false
    | None => ∀ j, (j <= 120)%nat → dial j = false
    end.
Proof.
  unfold ConnectToAddr. destruct (dial 0%nat) eqn:Hd; [exists (Some 0%nat); split; [done|]; split_and!; [lia|done|lia]|].
  destruct (redial_spec dial (Z.to_nat maxConnAttempts + 1) 0) as (r & Hr & Hs); [lia|].
  exists r. split; [done|]. change (Z.to_nat maxConnAttempts) with 120%nat in Hs. destruct r as [k|].
  - destruct Hs as (? & ? & Hj). split_and!; [lia|done|]. intros [|j] Hlt; [done|]. apply Hj. lia.
  - intros [|j] Hlt; [done|]. apply Hs. lia.
Qed.

(** ** Queues *)

Definition out_queue s (c : nat) : list (NetMsg M) := default [] (gc_outgoing <$> n_heap s !! c).
Definition queued (c : nat) (outs : list NetOut) : list (NetMsg M) :=
  omap (λ o, match o with NQueued d m => if decide (d = c) then Some m else None | _ => None end) outs.
Definition taken (c : nat) (outs : list NetOut) : list (NetMsg M) :=
  omap (λ o, match o with NWritten d m | NLost d m => if decide (d = c) then Some m else None | _ => None end) outs.
Definition written (c : nat) (outs : list NetOut) : list M :=
  omap (λ o, match o with NWritten d m => if decide (d = c) then Some (nm_val m) else None | _ => None end) outs.
Definition delivered (ch : nat) (outs : list NetOut) : list (NetMsg M) :=
  omap (λ o, match o with NDeliver d m => if decide (d = ch) then Some m else None | _ => None end) outs.

Lemma queued_app c o1 o2 : queued c (o1 ++ o2) = queued c o1 ++ queued c o2.
Proof. apply omap_app. Qed.
Lemma taken_app c o1 o2 : taken c (o1 ++ o2) = taken c o1 ++ taken c o2.
Proof. apply omap_app. Qed.
Lemma written_app c o1 o2 : written c (o1 ++ o2) = written c o1 ++ written c o2.
Proof. apply omap_app. Qed.
Lemma delivered_app ch o1 o2 : delivered ch (o1 ++ o2) = delivered ch o1 ++ delivered ch o2.
Proof. apply omap_app. Qed.

Lemma written_taken c outs : sublist (written c outs) (nm_val <$> taken c outs).
Proof.
  induction outs as [|[ch m|d m|d m|d m] outs IH]; [constructor|exact IH..| |]; cbn;
    unfold written, taken in *; cbn; case_decide; try exact IH; cbn; by constructor.
Qed.

(** What [HandleMessage] outputs is on no connection's queue. *)
Lemma HandleMessage_queues s m c : queued c (HandleMessage s m) = [] ∧ taken c (HandleMessage s m) = [].
Proof.
  unfold HandleMessage. destruct (n_channels s !! msg_type m) as [chs|]; [|done].
  induction chs as [|ch chs [IH1 IH2]]; [done|]. by split.
Qed.

(** A step conserves the messages of every queue, and keeps its bound. *)
Definition conserves s s' (o : list NetOut) : Prop := ∀ c,
  out_queue s c ++ queued c o = taken c o ++ out_queue s' c ∧
  (len (out_queue s c) <= outgoing_cap → len (out_queue s' c) <= outgoing_cap).

Lemma conserves_refl s s' o : (∀ c, out_queue s' c = out_queue s c ∧ queued c o = [] ∧ taken c o = []) → conserves s s' o.
Proof. intros Hq c. destruct (Hq c) as (-> & -> & ->). by rewrite app_nil_r. Qed.
Lemma conserves_trans s s1 s2 o1 o2 : conserves s s1 o1 → conserves s1 s2 o2 → conserves s s2 (o1 ++ o2).
Proof.
  intros H1 H2 c. destruct (H1 c) as [E1 B1], (H2 c) as [E2 B2]. rewrite queued_app, taken_app. split; [|auto].
  by rewrite (assoc_L (++)), E1, <- (assoc_L (++)), E2, (assoc_L (++)).
Qed.

(** A queue after a change of one connection. *)
Lemma out_queue_alter s s' f c d : n_heap s' = alter f c (n_heap s) →
  out_queue s' d = if decide (d = c) then default [] ((gc_outgoing ∘ f) <$> n_heap s !! d) else out_queue s d.
Proof.
  intros Hh. unfold out_queue. rewrite Hh. case_decide as Hd.
  - subst. rewrite list_lookup_alter_eq. by destruct (n_heap s !! c).
  - by rewrite list_lookup_alter_ne.
Qed.
Lemma out_queue_upd s f c d : out_queue (s <| n_heap ::= alter f c |>) d =
  if decide (d = c) then default [] ((gc_outgoing ∘ f) <$> n_heap s !! d) else out_queue s d.
Proof. exact (out_queue_alter s (s <| n_heap ::= alter f c |>) f c d eq_refl). Qed.
Lemma out_queue_alter_same s s' f c : (∀ gc, gc_outgoing (f gc) = gc_outgoing gc) →
  n_heap s' = alter f c (n_heap s) → ∀ d, out_queue s' d = out_queue s d.
Proof.
  intros Hf Hh d. rewrite (out_queue_alter s s' f c d Hh). case_decide; [|done].
  unfold out_queue. destruct (n_heap s !! d); [|done]. cbn. apply Hf.
Qed.
Lemma out_queue_upd_same s f c d : (∀ gc, gc_outgoing (f gc) = gc_outgoing gc) → out_queue (s <| n_heap ::= alter f c |>) d = out_queue s d.
Proof. intros Hf. by apply (out_queue_alter_same s _ f c). Qed.
Lemma out_queue_snoc s s' id : n_heap s' = n_heap s ++ [NewGxConnection id] → ∀ d, out_queue s' d = out_queue s d.
Proof.
  intros Hh d. unfold out_queue. rewrite Hh. destruct (decide (d < length (n_heap s))%nat).
  - by rewrite lookup_app_l.
  - rewrite lookup_app_r by lia. rewrite (lookup_ge_None_2 (n_heap s)) by lia.
    by destruct (d - length (n_heap s))%nat as [|[]].
Qed.
Lemma out_queue_heap s s' : n_heap s' = n_heap s → ∀ d, out_queue s' d = out_queue s d.
Proof. intros Hh d. unfold out_queue. by rewrite Hh. Qed.

Lemma enqueue_conserves s c m : conserves s (enqueue s c m).1 (enqueue s c m).2.
Proof.
  unfold enqueue. destruct (n_heap s !! c) as [gc|] eqn:Hc; [|by apply conserves_refl].
  case_bool_decide as Hlt; [|by apply conserves_refl]. intros d. cbn [fst snd].
  rewrite out_queue_upd.
  unfold queued, taken. cbn. case_decide as Hd.
  - subst. rewrite decide_True by done. unfold out_queue. rewrite Hc. cbn. rewrite length_app. cbn. split; [done|lia].
  - rewrite decide_False by congruence. by rewrite app_nil_r.
Qed.
Lemma unicast_conserves s m id : conserves s (unicast s m id).1 (unicast s m id).2.
Proof.
  unfold unicast. case_bool_decide.
  - destruct (is_heartbeat m); apply conserves_refl; intros c; (split; [done|]); [done|apply HandleMessage_queues].
  - destruct (getConnection s (PxID id)); [apply enqueue_conserves|by apply conserves_refl].
Qed.
Lemma unicast_all_conserves m ids s : conserves s (unicast_all s m ids).1 (unicast_all s m ids).2.
Proof.
  revert s. induction ids as [|id ids IH]; intros s; [by apply conserves_refl|]. cbn [unicast_all].
  pose proof (unicast_conserves s m id) as H1. destruct (unicast s m id) as [s1 o1]. specialize (IH s1).
  destruct (unicast_all s1 m ids) as [s2 o2]. by apply (conserves_trans s s1 s2).
Qed.
Lemma broadcast_conserves m ids s : conserves s (broadcast s m ids).1 (broadcast s m ids).2.
Proof.
  unfold broadcast. pose proof (unicast_all_conserves m ids s) as Hc. destruct (unicast_all s m ids) as [s1 o1]. by destruct (is_heartbeat m).
Qed.

(** A connection is added by installing it and closing the one before. *)
Lemma AddToConnections_ind (P : Net → Prop) s gc b :
  P s → (∀ s, P s → P (install s gc)) → (∀ s c, P s → P (close_conn s c)) → P (AddToConnections s gc b).2.
Proof.
  intros Hs Hi Hc. unfold AddToConnections. destruct (negb b).
  - cbn. destruct (n_conns s !! PxID (gc_id gc)); auto.
  - destruct (n_conns s !! PxID (gc_id gc)) as [c|]; [|by apply Hi].
    destruct (n_heap s !! c); [|by apply Hi]. case_bool_decide; [done|]. by apply Hi, Hc.
Qed.
Lemma accept_ind (P : Net → Prop) s cid ok :
  P s → (∀ s id, P s → P (install s (NewGxConnection id))) → (∀ s c, P s → P (close_conn s c)) → P (accept s cid ok).1.1.
Proof.
  intros Hs Hi Hc. unfold accept. destruct cid as [cid|]; [|done]. destruct (validateID s cid); [done|]. destruct (negb ok); [done|].
  pose proof (AddToConnections_ind P s (NewGxConnection cid) (gm_LrEnabled (n_gm s) || gm_ArEnabled (n_gm s)) Hs) as Ha.
  destruct (AddToConnections _ _ _) as [err s']. cbn in *. apply Ha; auto.
Qed.

Lemma guard_pc_Some s pc r s' (o : list NetOut) : guard_pc s pc r = Some (s', o) → n_pc s = pc ∧ s' = r.1 ∧ o = r.2.
Proof. unfold guard_pc. case_bool_decide; [|done]. by intros [= ->]. Qed.

Lemma net_step_conserves s ev s' o : net_step s ev = Some (s', o) → conserves s s' o.
Proof.
  assert (∀ s s' : Net, (∀ d, out_queue s' d = out_queue s d) → conserves s s' []) as Hsame
    by (intros s1 s2 Hq; apply conserves_refl; auto).
  assert (∀ s0 s id, conserves s0 s [] → conserves s0 (install s (NewGxConnection id)) []) as Hinst.
  { intros s0 s1 id H1. apply (conserves_trans s0 s1 _ [] []); [done|]. apply Hsame. by apply (out_queue_snoc _ _ id). }
  assert (∀ s0 s c, conserves s0 s [] → conserves s0 (close_conn s c) []) as Hclose.
  { intros s0 s1 c H1. apply (conserves_trans s0 s1 _ [] []); [done|]. apply Hsame.
    by apply (out_queue_alter_same _ _ Conn_Close c). }
  assert (conserves s s []) as Hrefl by (by apply Hsame).
  intros Hs. destruct ev; cbn [net_step] in Hs.
  - injection Hs as <- <-. apply Hsame, out_queue_heap. unfold RegisterChannel. by destruct (n_channels s !! t).
  - destruct (n_dmx_closed s); [done|]. injection Hs as <- <-. apply accept_ind; auto.
  - by injection Hs as <- <-.
  - destruct (areWeFullyConnected s); [|done]. by injection Hs as <- <-.
  - apply guard_pc_Some in Hs as (_ & -> & ->). apply broadcast_conserves.
  - apply guard_pc_Some in Hs as (_ & -> & ->). apply broadcast_conserves.
  - apply guard_pc_Some in Hs as (_ & -> & ->). apply broadcast_conserves.
  - apply guard_pc_Some in Hs as (_ & -> & ->). apply broadcast_conserves.
  - apply guard_pc_Some in Hs as (_ & -> & ->). apply unicast_conserves.
  - case_bool_decide; [|done]. by apply guard_pc_Some in Hs as (_ & -> & ->).
  - case_bool_decide; [|done]. by injection Hs as <- <-.
  - by apply guard_pc_Some in Hs as (_ & -> & ->).
  - by apply guard_pc_Some in Hs as (_ & -> & ->).
  - by apply guard_pc_Some in Hs as (_ & -> & ->).
  - apply bind_Some in Hs as (gc & Hc & Hs). case_bool_decide; [|done]. injection Hs as <- <-.
    apply conserves_refl. intros d. split; [by apply out_queue_upd_same|apply HandleMessage_queues].
  - apply bind_Some in Hs as (gc & Hc & Hs). case_bool_decide; [|done]. injection Hs as <- <-. apply Hsame. intros d. by apply out_queue_upd_same.
  - apply bind_Some in Hs as (gc & Hc & Hs). destruct (_ && _); [|done]. injection Hs as <- <-. apply Hsame. intros d. by apply out_queue_upd_same.
  - destruct (n_heartbeats s); [done|]. by injection Hs as <- <-.
  - apply bind_Some in Hs as (gc & Hc & Hs). destruct (gc_outgoing gc) as [|m q] eqn:Hq; [done|]. destruct (gc_out gc); [|done].
    assert (∀ s1 o1, (n_heap s1 = alter (λ gc, gc <| gc_outgoing := q |>) c (n_heap s) ∨
        n_heap s1 = alter (λ gc, gc <| gc_out := false |>) c (alter (λ gc, gc <| gc_outgoing := q |>) c (n_heap s))) →
        o1 = [NWritten c m] ∨ o1 = [NLost c m] → conserves s s1 o1) as Hx.
    { intros s1 o1 Hh Ho d.
      assert (out_queue s1 d = if decide (d = c) then q else out_queue s d) as ->.
      { destruct Hh as [Hh|Hh]; [|rewrite list_alter_alter_eq in Hh]; rewrite (out_queue_alter s s1 _ c d Hh);
          (case_decide; [subst; rewrite Hc|]; done). }
      assert (queued d o1 = []) as -> by (by destruct Ho as [->| ->]).
      assert (taken d o1 = if decide (c = d) then [m] else []) as ->.
      { destruct Ho as [->| ->]; unfold taken; cbn; by case_decide. }
      rewrite app_nil_r. case_decide as Hd; [subst|]; [|by rewrite decide_False by congruence].
      rewrite decide_True by done. unfold out_queue. rewrite Hc. cbn. rewrite Hq. split; [done|]. cbn. lia. }
    destruct r; injection Hs as <- <-; (apply Hx; [by (left + right)|by (left + right)]).
  - injection Hs as <- <-. apply AddToConnections_ind; auto.
  - injection Hs as <- <-. unfold UpdateConnID. destruct (n_conns s !! PxID oldID); [|done]. destruct (n_heap s !! _); [|done].
    case_bool_decide; [|done]. apply Hsame. intros d. by apply out_queue_upd_same.
  - by injection Hs as <- <-.
Qed.

Lemma net_run_conserves s evs s' outs : net_run s evs = Some (s', outs) → conserves s s' outs.
Proof.
  revert s outs. induction evs as [|ev evs IH]; intros s outs Hr; cbn in Hr.
  - injection Hr as <- <-. by apply conserves_refl.
  - apply bind_Some in Hr as ([s1 o1] & H1 & Hr). apply bind_Some in Hr as ([s2 o2] & H2 & Hr). injection Hr as <- <-.
    apply (conserves_trans s s1 s2); [by apply net_step_conserves in H1|by apply IH].
Qed.


(** ** Delivery to the actors *)

Lemma RegisterChannel_lookup s t ch u : n_channels (RegisterChannel s t ch) !! u =
  if decide (u = t) then Some (default [] (n_channels s !! t) ++ [ch]) else n_channels s !! u.
Proof.
  unfold RegisterChannel. case_decide as Hu.
  - subst. destruct (n_channels s !! t) as [chs|] eqn:Ht; cbn; rewrite lookup_alter_eq; [by rewrite Ht|by rewrite lookup_insert_eq].
  - destruct (n_channels s !! t) eqn:Ht; cbn; rewrite lookup_alter_ne by done; [done|by rewrite lookup_insert_ne].
Qed.

Lemma delivered_HandleMessage s m ch :
  delivered ch (HandleMessage s m) = replicate (length (filter (.= ch) (default [] (n_channels s !! msg_type m)))) m.
Proof.
  unfold HandleMessage. destruct (n_channels s !! msg_type m) as [chs|]; [|done]. cbn.
  induction chs as [|d chs IH]; [done|]. rewrite filter_cons. unfold delivered in *. cbn. case_decide; [|exact IH]. cbn. by rewrite <- IH.
Qed.

(** A channel gets the messages of the types it was registered for, once per
    registration, and no others. *)
Theorem registered_channel_gets s (regs : list (bool * T * nat)) m ch :
  n_channels s = ∅ →
  delivered ch (HandleMessage (foldl (λ s '(t, ch), RegisterChannel s t ch) s regs) m) =
    replicate (length (filter (λ r, r = (msg_type m, ch)) regs)) m.
Proof.
  intros He. rewrite delivered_HandleMessage. f_equal.
  assert (∀ s, length (filter (.= ch) (default [] (n_channels (foldl (λ s '(t, ch), RegisterChannel s t ch) s regs) !! msg_type m))) =
    (length (filter (.= ch) (default [] (n_channels s !! msg_type m))) + length (filter (λ r, r = (msg_type m, ch)) regs))%nat) as Hx.
  { clear. induction regs as [|[t d] regs IH]; intros s; [cbn; lia|]. cbn [foldl]. rewrite IH, RegisterChannel_lookup.
    rewrite (filter_cons _ (t, d)). repeat case_decide; simplify_eq; cbn; try rewrite filter_app, length_app, filter_cons; repeat case_decide; simplify_eq; cbn; try lia; congruence. }
  rewrite Hx, He, lookup_empty. done.
Qed.

(** A pointer is no message for the sender's own actors, who register channels
    of values, while the peers receive the value behind it. *)
Theorem pointer_not_delivered_to_self s m :
  nm_ptr m = true → (∀ t, n_channels s !! (true, t) = None) →
  unicast s m (n_sid s) = (s, []).
Proof.
  intros Hp Hn. unfold unicast. rewrite bool_decide_true by done. destruct (is_heartbeat m); [done|].
  unfold HandleMessage, msg_type. by rewrite Hp, Hn.
Qed.

(** ** Broadcast *)

Lemma unicast_static s m id : let s' := (unicast s m id).1 in
  n_conns s' = n_conns s ∧ n_channels s' = n_channels s ∧ n_sid s' = n_sid s ∧ length (n_heap s') = length (n_heap s).
Proof.
  unfold unicast. case_bool_decide; [by destruct (is_heartbeat m)|]. destruct (getConnection s (PxID id)) as [c|]; [|done].
  unfold enqueue. destruct (n_heap s !! c); [|done]. case_bool_decide; [|done]. cbn. by rewrite length_alter.
Qed.

Lemma queued_enqueue s c m d : queued d (enqueue s c m).2 =
  if decide (d = c ∧ is_Some (n_heap s !! c) ∧ len (out_queue s c) < outgoing_cap) then [m] else [].
Proof.
  unfold enqueue, out_queue. destruct (n_heap s !! c) as [gc|] eqn:Hc; cbn.
  - case_bool_decide; cbn; [|by rewrite decide_False by naive_solver].
    unfold queued. cbn. case_decide; [rewrite decide_True by naive_solver; done|rewrite decide_False by naive_solver; done].
  - rewrite decide_False; [done|]. intros (_ & [? ?] & _). done.
Qed.

Lemma unicast_queued s m id c : queued c (unicast s m id).2 =
  if decide (id ≠ n_sid s ∧ n_conns s !! PxID id = Some c ∧ is_Some (n_heap s !! c) ∧ len (out_queue s c) < outgoing_cap) then [m] else [].
Proof.
  unfold unicast. case_bool_decide as Hid.
  - rewrite decide_False by naive_solver. destruct (is_heartbeat m); [done|]. apply HandleMessage_queues.
  - unfold getConnection. destruct (n_conns s !! PxID id) as [d|]; [|by rewrite decide_False by naive_solver].
    rewrite queued_enqueue. repeat case_decide; naive_solver.
Qed.
Lemma unicast_out_queue s m id c : out_queue (unicast s m id).1 c = out_queue s c ++ queued c (unicast s m id).2.
Proof.
  destruct (unicast_conserves s m id c) as [-> _].
  assert (taken c (unicast s m id).2 = []) as ->; [|done]. unfold unicast. case_bool_decide.
  - destruct (is_heartbeat m); [done|]. apply HandleMessage_queues.
  - destruct (getConnection s (PxID id)) as [d|]; [|done]. unfold enqueue. destruct (n_heap s !! d); [|done]. by case_bool_decide.
Qed.
Lemma unicast_delivered s m id ch : delivered ch (unicast s m id).2 =
  if decide (id = n_sid s ∧ is_heartbeat m = false) then delivered ch (HandleMessage s m) else [].
Proof.
  unfold unicast. case_bool_decide as Hid.
  - subst. destruct (is_heartbeat m); [by rewrite decide_False by naive_solver|by rewrite decide_True by done].
  - rewrite decide_False by naive_solver. destruct (getConnection s (PxID id)) as [d|]; [|done].
    unfold enqueue. destruct (n_heap s !! d); [|done]. by case_bool_decide.
Qed.

Lemma unicast_all_cons s m id ids :
  (unicast_all s m (id :: ids)).2 = (unicast s m id).2 ++ (unicast_all (unicast s m id).1 m ids).2.
Proof. cbn [unicast_all]. destruct (unicast s m id) as [s1 o1]. cbn [fst snd]. by destruct (unicast_all s1 m ids). Qed.

Lemma unicast_all_others s m ids c :
  (∀ id, id ∈ ids → id ≠ n_sid s → n_conns s !! PxID id ≠ Some c) → queued c (unicast_all s m ids).2 = [].
Proof.
  revert s. induction ids as [|id ids IH]; intros s Hn; [done|]. rewrite unicast_all_cons, queued_app.
  destruct (unicast_static s m id) as (Ec & _ & Es & _).
  rewrite IH; [rewrite unicast_queued, decide_False; [done|]|].
  - intros (? & ? & _). by apply (Hn id); [constructor|..].
  - rewrite Ec, Es. intros j Hj. apply Hn. by constructor.
Qed.

(** Every peer whose connection has room is queued the message once, and one
    without room is not; the sender's own actors get it once, unless it is a
    heartbeat; nobody else gets anything. *)
Theorem broadcast_spec s m ids :
  NoDup ids →
  (∀ i j c, i ∈ ids → j ∈ ids → n_conns s !! PxID i = Some c → n_conns s !! PxID j = Some c → i = j) →
  let outs := (broadcast s m ids).2 in
  (∀ id c, id ∈ ids → id ≠ n_sid s → n_conns s !! PxID id = Some c → is_Some (n_heap s !! c) →
     queued c outs = if decide (len (out_queue s c) < outgoing_cap) then [m] else []) ∧
  (∀ c, (∀ id, id ∈ ids → id ≠ n_sid s → n_conns s !! PxID id ≠ Some c) → queued c outs = []) ∧
  (∀ ch, delivered ch outs = if decide (n_sid s ∈ ids ∧ is_heartbeat m = false) then delivered ch (HandleMessage s m) else []).
Proof.
  intros Hnd Hinj outs.
  assert (outs = (unicast_all s m ids).2) as -> by (unfold outs, broadcast; by destruct (unicast_all s m ids)).
  split_and!.
  - revert s Hnd Hinj. induction ids as [|i ids IH]; intros s Hnd Hinj id c Hid Hself Hc Hh; [by apply elem_of_nil in Hid|].
    apply NoDup_cons in Hnd as [Hi Hnd]. rewrite unicast_all_cons, queued_app.
    destruct (unicast_static s m i) as (Ec & _ & Es & Eh). apply elem_of_cons in Hid as [->|Hid].
    + rewrite unicast_all_others, app_nil_r, unicast_queued.
      * repeat case_decide; naive_solver.
      * rewrite Ec, Es. intros j Hj _ Hjc. apply Hi. rewrite (Hinj i j c); [done|constructor|by constructor|done..].
    + assert (queued c (unicast s m i).2 = []) as Hq.
      { rewrite unicast_queued, decide_False; [done|]. intros (_ & Hic & _). apply Hi.
        rewrite (Hinj i id c); [done|constructor|by constructor|done..]. }
      rewrite Hq. cbn. rewrite (IH (unicast s m i).1 Hnd) with (id := id); [|rewrite ?Ec, ?Es; try done..].
      * by rewrite unicast_out_queue, Hq, app_nil_r.
      * intros i1 j1 c1 H1 H2. apply Hinj; by constructor.
      * apply lookup_lt_is_Some_2. rewrite Eh. by apply lookup_lt_is_Some_1.
  - intros c. apply unicast_all_others.
  - intros ch. clear Hinj. revert s. induction ids as [|i ids IH]; intros s.
    { cbn. rewrite decide_False; [done|]. intros [Hin _]. by apply elem_of_nil in Hin. }
    apply NoDup_cons in Hnd as [Hi Hnd]. rewrite unicast_all_cons, delivered_app, unicast_delivered.
    destruct (unicast_static s m i) as (_ & Eh & Es & _). rewrite (IH Hnd), Es.
    assert (HandleMessage (unicast s m i).1 m = HandleMessage s m) as -> by (unfold HandleMessage; by rewrite Eh).
    repeat case_decide; rewrite ?app_nil_r; set_solver.
Qed.

(** ** One connection per peer *)

Record net_wf s : Prop := {
  nw_conns : ∀ p c, n_conns s !! p = Some c → ∃ gc, n_heap s !! c = Some gc ∧ PxID (gc_id gc) = p;
  nw_open : ∀ c gc, n_heap s !! c = Some gc → gc_closed gc = false → n_conns s !! PxID (gc_id gc) = Some c;
}.

(** A change of the connections that leaves their peers and opens none. *)
Definition heap_keeps (h h' : list (GxConnection M)) : Prop := length h' = length h ∧
  ∀ c gc gc', h !! c = Some gc → h' !! c = Some gc' →
    PxID (gc_id gc') = PxID (gc_id gc) ∧ (gc_closed gc = true → gc_closed gc' = true) ∧ (gc_out gc = false → gc_out gc' = false).

Lemma heap_keeps_refl h : heap_keeps h h.
Proof. split; [done|]. intros. by simplify_eq. Qed.
Lemma heap_keeps_trans h1 h2 h3 : heap_keeps h1 h2 → heap_keeps h2 h3 → heap_keeps h1 h3.
Proof.
  intros [L1 K1] [L2 K2]. split; [congruence|]. intros c g1 g3 H1 H3.
  destruct (lookup_lt_is_Some_2 h2 c) as [g2 H2]; [rewrite L1; by eapply lookup_lt_Some|].
  destruct (K1 c g1 g2) as (? & ? & ?), (K2 c g2 g3) as (? & ? & ?); try done. split; [congruence|auto].
Qed.
Lemma heap_keeps_alter f c h : (∀ gc, PxID (gc_id (f gc)) = PxID (gc_id gc) ∧ (gc_closed gc = true → gc_closed (f gc) = true) ∧ (gc_out gc = false → gc_out (f gc) = false)) →
  heap_keeps h (alter f c h).
Proof.
  intros Hf. split; [by rewrite length_alter|]. intros d gc gc' H1 H2. destruct (decide (d = c)) as [->|].
  - rewrite list_lookup_alter_eq, H1 in H2. cbn in H2. injection H2 as <-. apply Hf.
  - rewrite list_lookup_alter_ne in H2 by done. simplify_eq. done.
Qed.

Lemma net_wf_keeps s s' : net_wf s → n_conns s' = n_conns s → heap_keeps (n_heap s) (n_heap s') → net_wf s'.
Proof.
  intros [Hc Ho] Ec [El Hk]. split.
  - rewrite Ec. intros p c Hp. destruct (Hc p c Hp) as (gc & Hh & Hid).
    destruct (lookup_lt_is_Some_2 (n_heap s') c) as [gc' Hh']; [rewrite El; by eapply lookup_lt_Some|].
    exists gc'. split; [done|]. destruct (Hk c gc gc') as [-> _]; done.
  - rewrite Ec. intros c gc' Hh' Hopen.
    destruct (lookup_lt_is_Some_2 (n_heap s) c) as [gc Hh]; [rewrite <- El; by eapply lookup_lt_Some|].
    destruct (Hk c gc gc') as (-> & Hcl & _); [done..|]. apply Ho; [done|]. destruct (gc_closed gc); [|done]. by rewrite Hcl in Hopen.
Qed.

Lemma install_wf s gc : net_wf s → n_conns s !! PxID (gc_id gc) = None → net_wf (install s gc).
Proof.
  intros [Hc Ho] Hn. split; cbn.
  - intros p c [[<- <-]|[Hp Hl]]%lookup_insert_Some.
    + exists gc. split; [|done]. rewrite lookup_app_r, Nat.sub_diag by lia. done.
    + destruct (Hc p c Hl) as (gc' & Hh & Hid). exists gc'. split; [|done]. by apply lookup_app_l_Some.
  - intros c gc' Hh Hopen. apply lookup_app_Some in Hh as [Hh|[Hle Hh]].
    + rewrite lookup_insert_ne; [by apply Ho|]. intros Ep. specialize (Ho c gc' Hh Hopen). congruence.
    + apply list_lookup_singleton_Some in Hh as [Hz <-]. rewrite lookup_insert_eq. f_equal. lia.
Qed.

Lemma install_close s gc c : (c < length (n_heap s))%nat → install (close_conn s c) gc = close_conn (install s gc) c.
Proof.
  intros Hc. unfold install, close_conn. destruct s as [? ? ? ? ? ? conns h ? ? ?]. cbn in *. f_equal; [by rewrite length_alter|].
  apply list_eq. intros d. destruct (decide (d < length h)%nat) as [Hd|Hd].
  - rewrite lookup_app_l by (by rewrite length_alter). destruct (decide (d = c)) as [->|].
    + by rewrite !list_lookup_alter_eq, lookup_app_l.
    + by rewrite !list_lookup_alter_ne, lookup_app_l.
  - rewrite lookup_app_r, length_alter by (rewrite length_alter; lia).
    rewrite list_lookup_alter_ne by lia. by rewrite lookup_app_r by lia.
Qed.

Lemma replace_wf s gc c : net_wf s → n_conns s !! PxID (gc_id gc) = Some c → net_wf (close_conn (install s gc) c).
Proof.
  intros [Hc Ho] Hn. destruct (Hc _ c Hn) as (gc0 & Hh0 & Hid0). pose proof (lookup_lt_Some _ _ _ Hh0) as Hlt. split; cbn.
  - intros p d [[<- <-]|[Hp Hl]]%lookup_insert_Some.
    + exists gc. split; [|done]. rewrite list_lookup_alter_ne by lia. rewrite lookup_app_r, Nat.sub_diag by lia. done.
    + destruct (Hc p d Hl) as (gc' & Hh & Hid). pose proof (lookup_lt_Some _ _ _ Hh). destruct (decide (d = c)) as [->|].
      * exists (Conn_Close gc'). rewrite list_lookup_alter_eq, lookup_app_l, Hh by done. done.
      * exists gc'. by rewrite list_lookup_alter_ne, lookup_app_l by done.
  - intros d gc' Hh Hopen. destruct (decide (d = c)) as [->|Hd].
    { rewrite list_lookup_alter_eq, lookup_app_l, Hh0 in Hh by done. cbn in Hh. by injection Hh as <-. }
    rewrite list_lookup_alter_ne in Hh by done. apply lookup_app_Some in Hh as [Hh|[Hle Hh]].
    + specialize (Ho d gc' Hh Hopen). rewrite lookup_insert_ne; [done|]. intros Ep. congruence.
    + apply list_lookup_singleton_Some in Hh as [Hz <-]. rewrite lookup_insert_eq. f_equal. lia.
Qed.

(** What adding a connection does, in every case. *)
Lemma AddToConnections_spec s gc b : net_wf s →
  AddToConnections s gc b =
    match n_conns s !! PxID (gc_id gc) with
    | None => (None, install s gc)
    | Some c =>
        if b && bool_decide (CompareTo (gc_id gc) (gc_id (default gc (n_heap s !! c))) < 0) then (Some ErrLowerID, s)
        else (None, close_conn (install s gc) c)
    end.
Proof.
  intros [Hc _]. unfold AddToConnections. destruct (n_conns s !! PxID (gc_id gc)) as [c|] eqn:Hp; [|by destruct b].
  destruct (Hc _ c Hp) as (gc0 & Hh & _). destruct b; cbn; [|done]. rewrite Hh. cbn. case_bool_decide; [done|].
  rewrite install_close; [done|by eapply lookup_lt_Some].
Qed.
Lemma AddToConnections_wf s gc b : net_wf s → net_wf (AddToConnections s gc b).2.
Proof.
  intros Hw. rewrite AddToConnections_spec by done. destruct (n_conns s !! PxID (gc_id gc)) as [c|] eqn:Hp; [|by apply install_wf].
  destruct (b && _); [done|]. by apply replace_wf.
Qed.

Lemma unicast_keeps s m id : heap_keeps (n_heap s) (n_heap (unicast s m id).1).
Proof.
  unfold unicast. case_bool_decide; [destruct (is_heartbeat m); apply heap_keeps_refl|].
  destruct (getConnection s (PxID id)) as [c|]; [|apply heap_keeps_refl].
  unfold enqueue. destruct (n_heap s !! c); [|apply heap_keeps_refl]. case_bool_decide; [|apply heap_keeps_refl]. by apply heap_keeps_alter.
Qed.
Lemma unicast_all_keeps s m ids : n_conns (unicast_all s m ids).1 = n_conns s ∧ heap_keeps (n_heap s) (n_heap (unicast_all s m ids).1).
Proof.
  revert s. induction ids as [|id ids IH]; intros s; [split; [done|apply heap_keeps_refl]|]. cbn [unicast_all].
  destruct (unicast_static s m id) as (Ec & _). pose proof (unicast_keeps s m id) as Hk. destruct (unicast s m id) as [s1 o1].
  destruct (IH s1) as [Ec2 Hk2]. destruct (unicast_all s1 m ids) as [s2 o2]. cbn in *. split; [congruence|by eapply heap_keeps_trans].
Qed.
Lemma broadcast_keeps s m ids : n_conns (broadcast s m ids).1 = n_conns s ∧ heap_keeps (n_heap s) (n_heap (broadcast s m ids).1).
Proof.
  unfold broadcast. destruct (unicast_all_keeps s m ids) as [Ec Hk]. destruct (unicast_all s m ids). by destruct (is_heartbeat m).
Qed.

(** The connection map and the connections after a step: a new connection, or
    the same ones. *)
Lemma net_step_keeps s ev s' o : net_step s ev = Some (s', o) →
  (∃ gc b, s' = (AddToConnections s gc b).2) ∨ (n_conns s' = n_conns s ∧ heap_keeps (n_heap s) (n_heap s')).
Proof.
  assert (∀ s s' : Net, n_conns s' = n_conns s → n_heap s' = n_heap s → n_conns s' = n_conns s ∧ heap_keeps (n_heap s) (n_heap s')) as Hsame
    by (intros s1 s2 -> ->; split; [done|apply heap_keeps_refl]).
  intros Hs. destruct ev; cbn [net_step] in Hs.
  - right. injection Hs as <- _. unfold RegisterChannel. apply Hsame; by destruct (n_channels s !! t).
  - destruct (n_dmx_closed s); [done|]. injection Hs as <- _. unfold accept. destruct cid as [cid|]; [|right; by apply Hsame].
    destruct (validateID s cid); [right; by apply Hsame|]. destruct (negb respSent); [right; by apply Hsame|].
    left. exists (NewGxConnection cid), (gm_LrEnabled (n_gm s) || gm_ArEnabled (n_gm s)). by destruct (AddToConnections _ _ _).
  - right. injection Hs as <- _. by apply Hsame.
  - right. destruct (areWeFullyConnected s); [|done]. injection Hs as <- _. by apply Hsame.
  - right. apply guard_pc_Some in Hs as (_ & -> & _). apply broadcast_keeps.
  - right. apply guard_pc_Some in Hs as (_ & -> & _). apply broadcast_keeps.
  - right. apply guard_pc_Some in Hs as (_ & -> & _). apply broadcast_keeps.
  - right. apply guard_pc_Some in Hs as (_ & -> & _). apply broadcast_keeps.
  - right. apply guard_pc_Some in Hs as (_ & -> & _). split; [apply unicast_static|apply unicast_keeps].
  - right. case_bool_decide; [|done]. apply guard_pc_Some in Hs as (_ & -> & _). by apply Hsame.
  - right. case_bool_decide; [|done]. injection Hs as <- _. by apply Hsame.
  - right. apply guard_pc_Some in Hs as (_ & -> & _). by apply Hsame.
  - right. apply guard_pc_Some in Hs as (_ & -> & _). by apply Hsame.
  - right. apply guard_pc_Some in Hs as (_ & -> & _). by apply Hsame.
  - right. apply bind_Some in Hs as (gc & Hc & Hs). case_bool_decide; [|done]. injection Hs as <- _. split; [done|]. by apply heap_keeps_alter.
  - right. apply bind_Some in Hs as (gc & Hc & Hs). case_bool_decide; [|done]. injection Hs as <- _. split; [done|]. by apply heap_keeps_alter.
  - right. apply bind_Some in Hs as (gc & Hc & Hs). destruct (_ && _); [|done]. injection Hs as <- _. split; [done|]. by apply heap_keeps_alter.
  - right. destruct (n_heartbeats s); [done|]. injection Hs as <- _. by apply Hsame.
  - right. apply bind_Some in Hs as (gc & Hc & Hs). destruct (gc_outgoing gc) as [|m q]; [done|]. destruct (gc_out gc); [|done].
    destruct r; injection Hs as <- _; (split; [done|]); cbn; try (by apply heap_keeps_alter);
      (eapply heap_keeps_trans; [by apply (heap_keeps_alter (λ gc, gc <| gc_outgoing := q |>) c)|by apply heap_keeps_alter]).
  - left. injection Hs as <- _. by exists (NewGxConnection id), lrArEnabled.
  - right. injection Hs as <- _. unfold UpdateConnID. destruct (n_conns s !! PxID oldID) as [c|]; [|by apply Hsame].
    destruct (n_heap s !! c); [|by apply Hsame]. case_bool_decide; [|by apply Hsame]. split; [done|]. by apply heap_keeps_alter.
  - right. injection Hs as <- _. by apply Hsame.
Qed.

Lemma unicast_all_taken s m ids c : taken c (unicast_all s m ids).2 = [].
Proof.
  revert s. induction ids as [|id ids IH]; intros s; [done|]. rewrite unicast_all_cons, taken_app, IH, app_nil_r. unfold unicast. case_bool_decide.
  - destruct (is_heartbeat m); [done|]. apply HandleMessage_queues.
  - destruct (getConnection s (PxID id)) as [d|]; [|done]. unfold enqueue. destruct (n_heap s !! d); [|done]. by case_bool_decide.
Qed.

(** Only [handleOut] takes messages from a connection's queue. *)
Lemma net_step_taken s ev s' o c : net_step s ev = Some (s', o) → taken c o ≠ [] → ∃ gc, n_heap s !! c = Some gc ∧ gc_out gc = true.
Proof.
  intros Hs Ht.
  assert (∀ m, taken c (HandleMessage s m) ≠ [] → False) as HM by (intros m Hm; apply Hm, HandleMessage_queues).
  assert (∀ m ids, taken c (broadcast s m ids).2 ≠ [] → False) as HB.
  { intros m ids Hm. apply Hm. rewrite <- (unicast_all_taken s m ids c). unfold broadcast. by destruct (unicast_all s m ids). }
  destruct ev; cbn [net_step] in Hs.
  - by injection Hs as <- <-.
  - destruct (n_dmx_closed s); [done|]. by injection Hs as <- <-.
  - by injection Hs as <- <-.
  - destruct (areWeFullyConnected s); [|done]. by injection Hs as <- <-.
  - apply guard_pc_Some in Hs as (_ & _ & ->). by apply HB in Ht.
  - apply guard_pc_Some in Hs as (_ & _ & ->). by apply HB in Ht.
  - apply guard_pc_Some in Hs as (_ & _ & ->). by apply HB in Ht.
  - apply guard_pc_Some in Hs as (_ & _ & ->). by apply HB in Ht.
  - apply guard_pc_Some in Hs as (_ & _ & ->). destruct Ht. rewrite <- (unicast_all_taken s m [id] c). rewrite unicast_all_cons. by rewrite app_nil_r.
  - case_bool_decide; [|done]. by apply guard_pc_Some in Hs as (_ & _ & ->).
  - case_bool_decide; [|done]. by injection Hs as <- <-.
  - by apply guard_pc_Some in Hs as (_ & _ & ->).
  - by apply guard_pc_Some in Hs as (_ & _ & ->).
  - by apply guard_pc_Some in Hs as (_ & _ & ->).
  - apply bind_Some in Hs as (gc & Hc & Hs). case_bool_decide; [|done]. injection Hs as <- <-. by apply HM in Ht.
  - apply bind_Some in Hs as (gc & Hc & Hs). case_bool_decide; [|done]. by injection Hs as <- <-.
  - apply bind_Some in Hs as (gc & Hc & Hs). destruct (_ && _); [|done]. by injection Hs as <- <-.
  - destruct (n_heartbeats s); [done|]. by injection Hs as <- <-.
  - apply bind_Some in Hs as (gc & Hc & Hs). destruct (gc_outgoing gc) as [|m q]; [done|]. destruct (gc_out gc) eqn:Ho; [|done].
    assert (taken c o = [] ∨ c0 = c) as [?|<-] by (destruct r; injection Hs as <- <-; unfold taken; cbn; case_decide; auto); [done|by exists gc].
  - by injection Hs as <- <-.
  - by injection Hs as <- <-.
  - by injection Hs as <- <-.
Qed.

Lemma AddToConnections_out s gc b c gc0 : n_heap s !! c = Some gc0 → gc_out gc0 = false →
  ∃ gc1, n_heap (AddToConnections s gc b).2 !! c = Some gc1 ∧ gc_out gc1 = false.
Proof.
  intros Hh Ho. apply AddToConnections_ind.
  - by exists gc0.
  - intros s1 (g & Hg & Hg'). exists g. split; [|done]. by apply lookup_app_l_Some.
  - intros s1 d (g & Hg & Hg'). destruct (decide (c = d)) as [->|Hd].
    + exists (Conn_Close g). split; [|done]. cbn. by rewrite list_lookup_alter_eq, Hg.
    + exists g. split; [|done]. cbn. by rewrite list_lookup_alter_ne.
Qed.

(** After a failed write nothing is ever sent on a connection again, although
    messages go on being queued for it as long as there is room. *)
Theorem failed_write_silences s evs s' outs c gc :
  net_run s evs = Some (s', outs) → n_heap s !! c = Some gc → gc_out gc = false →
  taken c outs = [] ∧ out_queue s' c = out_queue s c ++ queued c outs.
Proof.
  intros Hr Hc Ho. assert (taken c outs = []) as Ht; [|split; [done|]; destruct (net_run_conserves _ _ _ _ Hr c) as [-> _]; by rewrite Ht].
  revert s gc outs Hr Hc Ho. induction evs as [|ev evs IH]; intros s gc outs Hr Hc Ho; cbn in Hr; [by injection Hr as _ <-|].
  apply bind_Some in Hr as ([s1 o1] & H1 & Hr). apply bind_Some in Hr as ([s2 o2] & H2 & Hr). injection Hr as -> <-.
  rewrite taken_app. assert (taken c o1 = []) as ->.
  { destruct (decide (taken c o1 = [])) as [|Hn]; [done|]. destruct (net_step_taken _ _ _ _ c H1 Hn) as (g & ? & ?). congruence. }
  cbn. assert (∃ gc1, n_heap s1 !! c = Some gc1 ∧ gc_out gc1 = false) as (gc1 & Hc1 & Ho1); [|by eapply IH].
  destruct (net_step_keeps _ _ _ _ H1) as [(g & b & ->)|[_ [El Hk]]]; [by eapply AddToConnections_out|].
  destruct (lookup_lt_is_Some_2 (n_heap s1) c) as [gc1 Hc1]; [rewrite El; by eapply lookup_lt_Some|].
  exists gc1. split; [done|]. destruct (Hk c gc gc1) as (_ & _ & Hx); auto.
Qed.

(** At any time every peer has at most one open connection, and it is the one
    that messages to the peer are queued for. *)
Theorem one_connection_per_peer s evs s' outs :
  net_wf s → net_run s evs = Some (s', outs) → net_wf s'.
Proof.
  revert s outs. induction evs as [|ev evs IH]; intros s outs Hw Hr; cbn in Hr; [by injection Hr as <- _|].
  apply bind_Some in Hr as ([s1 o1] & H1 & Hr). apply bind_Some in Hr as ([s2 o2] & H2 & Hr). injection Hr as <- _.
  apply (IH s1 o2); [|done]. destruct (net_step_keeps _ _ _ _ H1) as [(gc & b & ->)|[Ec Hk]];
    [by apply AddToConnections_wf|by eapply net_wf_keeps].
Qed.

(** A peer that once connected counts as connected for ever, whether its
    connection works or not. *)
Theorem connections_never_forgotten s evs s' outs p :
  net_wf s → net_run s evs = Some (s', outs) → is_Some (n_conns s !! p) → is_Some (n_conns s' !! p).
Proof.
  revert s outs. induction evs as [|ev evs IH]; intros s outs Hw Hr Hp; cbn in Hr; [by injection Hr as <- _|].
  apply bind_Some in Hr as ([s1 o1] & H1 & Hr). apply bind_Some in Hr as ([s2 o2] & H2 & Hr). injection Hr as <- _.
  apply (IH s1 o2); [|done|]; destruct (net_step_keeps _ _ _ _ H1) as [(gc & b & ->)|[Ec Hk]];
    [by apply AddToConnections_wf|by eapply net_wf_keeps| |by rewrite Ec].
  rewrite AddToConnections_spec by done.
  assert (is_Some (<[PxID (gc_id gc) := length (n_heap s)]> (n_conns s) !! p)) as Hi by (rewrite lookup_insert_is_Some'; by right).
  destruct (n_conns s !! PxID (gc_id gc)); [|exact Hi]. by destruct (b && _).
Qed.

(** ** Heartbeats *)

(** The connections whose [handleIn] is about to report a message. *)
Fixpoint beats (h : list (GxConnection M)) : nat :=
  match h with [] => 0 | gc :: h => match gc_in gc with InBeat => 1 | _ => 0 end + beats h end.

Lemma beats_alter f c h gc : h !! c = Some gc →
  (beats (alter f c h) + beats [gc] = beats h + beats [f gc])%nat.
Proof.
  revert c. induction h as [|g h IH]; intros [|c] Hc; [done..| |].
  - injection Hc as ->. cbn. lia.
  - specialize (IH c Hc). change (alter f (S c) (g :: h)) with (g :: alter f c h). cbn in *. lia.
Qed.
Lemma beats_alter_same f c h : (∀ gc, gc_in (f gc) = gc_in gc) → beats (alter f c h) = beats h.
Proof.
  intros Hf. revert c. induction h as [|g h IH]; intros [|c]; [done..| |].
  - cbn. by rewrite Hf.
  - change (alter f (S c) (g :: h)) with (g :: alter f c h). cbn. by rewrite IH.
Qed.
Lemma beats_app h1 h2 : beats (h1 ++ h2) = (beats h1 + beats h2)%nat.
Proof. induction h1 as [|g h1 IH]; [done|]. cbn. rewrite IH. lia. Qed.
Lemma beats_length h : (beats h <= length h)%nat.
Proof. induction h as [|g h IH]; [done|]. cbn. destruct (gc_in g); lia. Qed.

(** The messages received but not yet taken by the failure detector. *)
Definition pending s : Z := len (n_heartbeats s) + Z.of_nat (beats (n_heap s)).
Definition is_receive (ev : NetEvent) : bool := match ev with EIn _ _ => true | _ => false end.
Definition is_beat_taken (ev : NetEvent) : bool := match ev with EBeatTaken => true | _ => false end.
Definition count_ev (p : NetEvent → bool) (evs : list NetEvent) : Z := len (filter (λ ev, p ev = true) evs).

Lemma count_ev_cons p ev evs : count_ev p (ev :: evs) = (if p ev then 1 else 0) + count_ev p evs.
Proof. unfold count_ev. rewrite filter_cons. destruct (p ev); cbn; [rewrite decide_True by done; cbn; lia|]. by rewrite decide_False. Qed.

Definition quiet s s' : Prop := n_heartbeats s' = n_heartbeats s ∧ beats (n_heap s') = beats (n_heap s).

Lemma unicast_quiet s m id : quiet s (unicast s m id).1.
Proof.
  unfold unicast. case_bool_decide; [by destruct (is_heartbeat m)|]. destruct (getConnection s (PxID id)) as [c|]; [|done].
  unfold enqueue. destruct (n_heap s !! c); [|done]. case_bool_decide; [|done]. split; [done|]. by apply beats_alter_same.
Qed.
Lemma broadcast_quiet s m ids : quiet s (broadcast s m ids).1.
Proof.
  assert (quiet s (unicast_all s m ids).1) as Hq.
  { revert s. induction ids as [|id ids IH]; intros s; [done|]. cbn [unicast_all].
    destruct (unicast_quiet s m id) as [E1 E2]. destruct (unicast s m id) as [s1 o1]. destruct (IH s1) as [E3 E4].
    destruct (unicast_all s1 m ids). split; cbn in *; congruence. }
  unfold broadcast. destruct (unicast_all s m ids). by destruct (is_heartbeat m).
Qed.
Lemma install_quiet s id : quiet s (install s (NewGxConnection id)).
Proof. split; [done|]. change (beats (n_heap s ++ [NewGxConnection id]) = beats (n_heap s)). rewrite beats_app. change (beats [NewGxConnection id]) with 0%nat. lia. Qed.
Lemma close_quiet s c : quiet s (close_conn s c).
Proof. split; [done|]. by apply beats_alter_same. Qed.
Lemma quiet_trans s1 s2 s3 : quiet s1 s2 → quiet s2 s3 → quiet s1 s3.
Proof. intros [] []. split; congruence. Qed.

Lemma net_step_pending s ev s' o : net_step s ev = Some (s', o) →
  pending s' + (if is_beat_taken ev then 1 else 0) = pending s + (if is_receive ev then 1 else 0) ∧
  (len (n_heartbeats s) <= heartbeat_cap → len (n_heartbeats s') <= heartbeat_cap).
Proof.
  assert (∀ s', quiet s s' → pending s' + 0 = pending s + 0 ∧ (len (n_heartbeats s) <= heartbeat_cap → len (n_heartbeats s') <= heartbeat_cap)) as Hq
    by (intros s1 [E1 E2]; unfold pending; rewrite E1, E2; split; [lia|done]).
  assert (quiet s s) as Hrefl by done.
  assert (∀ gc b, gc = NewGxConnection (gc_id gc) → quiet s (AddToConnections s gc b).2) as Hadd.
  { intros gc b ->. apply AddToConnections_ind; [done|intros s1 H1; by eapply quiet_trans, install_quiet|intros s1 c H1; by eapply quiet_trans, close_quiet]. }
  intros Hs. destruct ev; cbn [net_step] in Hs; cbn [is_receive is_beat_taken].
  - injection Hs as <- _. apply Hq. unfold RegisterChannel. by destruct (n_channels s !! t).
  - destruct (n_dmx_closed s); [done|]. injection Hs as <- _. apply Hq. apply accept_ind; [done|..].
    + intros s1 id H1. by eapply quiet_trans, install_quiet.
    + intros s1 c H1. by eapply quiet_trans, close_quiet.
  - injection Hs as <- _. by apply Hq.
  - destruct (areWeFullyConnected s); [|done]. injection Hs as <- _. by apply Hq.
  - apply guard_pc_Some in Hs as (_ & -> & _). apply Hq, broadcast_quiet.
  - apply guard_pc_Some in Hs as (_ & -> & _). apply Hq, broadcast_quiet.
  - apply guard_pc_Some in Hs as (_ & -> & _). apply Hq, broadcast_quiet.
  - apply guard_pc_Some in Hs as (_ & -> & _). apply Hq, broadcast_quiet.
  - apply guard_pc_Some in Hs as (_ & -> & _). apply Hq, unicast_quiet.
  - case_bool_decide; [|done]. apply guard_pc_Some in Hs as (_ & -> & _). by apply Hq.
  - case_bool_decide; [|done]. injection Hs as <- _. by apply Hq.
  - apply guard_pc_Some in Hs as (_ & -> & _). by apply Hq.
  - apply guard_pc_Some in Hs as (_ & -> & _). by apply Hq.
  - apply guard_pc_Some in Hs as (_ & -> & _). by apply Hq.
  - apply bind_Some in Hs as (gc & Hc & Hs). case_bool_decide as Hi; [|done]. injection Hs as <- _. split; [|done]. unfold pending. cbn.
    pose proof (beats_alter (λ gc, gc <| gc_in := InBeat |>) c _ _ Hc) as Hb. cbn in Hb. rewrite Hi in Hb. cbn in Hb. lia.
  - apply bind_Some in Hs as (gc & Hc & Hs). case_bool_decide as Hi; [|done]. injection Hs as <- _. apply Hq. split; [done|]. cbn.
    pose proof (beats_alter (λ gc, Conn_Close (gc <| gc_in := InDone |>)) c _ _ Hc) as Hb. cbn in Hb. rewrite Hi in Hb. cbn in Hb. cbn. lia.
  - apply bind_Some in Hs as (gc & Hc & Hs). destruct (bool_decide (gc_in gc = InBeat)) eqn:Hi; [|done]. cbn in Hs.
    case_bool_decide as Hlt; [|done]. injection Hs as <- _. unfold pending. cbn. rewrite length_app. cbn. split; [|unfold heartbeat_cap in *; lia].
    pose proof (beats_alter (λ gc, gc <| gc_in := InDecode |>) c _ _ Hc) as Hb. apply bool_decide_eq_true in Hi. cbn in Hb. rewrite Hi in Hb. lia.
  - destruct (n_heartbeats s) as [|b q] eqn:Hh; [done|]. injection Hs as <- _. unfold pending. cbn. rewrite Hh. cbn. split; lia.
  - apply bind_Some in Hs as (gc & Hc & Hs). destruct (gc_outgoing gc) as [|m q]; [done|]. destruct (gc_out gc); [|done].
    destruct r; injection Hs as <- _; apply Hq; (split; [done|]); cbn; by rewrite !beats_alter_same.
  - injection Hs as <- _. apply Hq. by apply Hadd.
  - injection Hs as <- _. apply Hq. unfold UpdateConnID. destruct (n_conns s !! PxID oldID) as [c|]; [|done].
    destruct (n_heap s !! c); [|done]. case_bool_decide; [|done]. split; [done|]. by apply beats_alter_same.
  - injection Hs as <- _. by apply Hq.
Qed.

(** A replica receives a message only as long as the failure detector takes
    heartbeats: without it, as in the broadcast protocols, which do not start
    one, it receives 128 messages and one more from every connection. *)
Theorem unread_heartbeats_stop_replica s evs s' outs :
  net_run s evs = Some (s', outs) → pending s = 0 →
  count_ev is_receive evs <= count_ev is_beat_taken evs + heartbeat_cap + len (n_heap s').
Proof.
  intros Hr Hp. assert (pending s' + count_ev is_beat_taken evs = pending s + count_ev is_receive evs ∧
    (len (n_heartbeats s) <= heartbeat_cap → len (n_heartbeats s') <= heartbeat_cap)) as [He Hb].
  { clear Hp. revert s outs Hr. induction evs as [|ev evs IH]; intros s outs Hr; cbn in Hr; [injection Hr as <- _; split; [reflexivity|done]|].
    apply bind_Some in Hr as ([s1 o1] & H1 & Hr). apply bind_Some in Hr as ([s2 o2] & H2 & Hr). injection Hr as <- _.
    destruct (net_step_pending _ _ _ _ H1) as [E1 B1], (IH _ _ H2) as [E2 B2]. rewrite !count_ev_cons. split; [lia|auto]. }
  pose proof (beats_length (n_heap s')). unfold pending, heartbeat_cap in *.
  assert (len (n_heartbeats s') <= 128) by (apply Hb; lia). lia.
Qed.

(** ** Connecting *)

(** The connections that a replica checks are those that are there under the
    identifier asked for. *)
Definition connected_as s (id : ID) : Prop :=
  ∃ c gc, n_conns s !! PxID id = Some c ∧ n_heap s !! c = Some gc ∧ gc_id gc = id.

Lemma CheckConnections_elem s conf id : id ∈ CheckConnections s conf ↔ id ∈ conf ∧ ¬ connected_as s id.
Proof.
  unfold CheckConnections.
  cut (∀ acc, id ∈ foldl (λ notconn id, match n_conns s !! PxID id with
      | Some c => match n_heap s !! c with
                  | Some gc => if bool_decide (id ≠ gc_id gc) then notconn ++ [id] else notconn
                  | None => notconn ++ [id] end
      | None => notconn ++ [id] end) acc conf ↔ id ∈ acc ∨ (id ∈ conf ∧ ¬ connected_as s id)).
  { intros Hc. rewrite Hc. set_solver. }
  induction conf as [|i conf IH]; intros acc; cbn [foldl]; [set_solver|].
  assert (∀ l, (connected_as s i → l = acc) → (¬ connected_as s i → l = acc ++ [i]) → (connected_as s i ∨ ¬ connected_as s i) →
    id ∈ l ∨ (id ∈ conf ∧ ¬ connected_as s id) ↔ id ∈ acc ∨ (id ∈ i :: conf ∧ ¬ connected_as s id)) as Hl.
  { intros l H1 H2 [Hi|Hi]; [rewrite (H1 Hi)|rewrite (H2 Hi)]; rewrite elem_of_cons; [|rewrite elem_of_app, list_elem_of_singleton]; naive_solver. }
  rewrite IH. unfold connected_as in Hl at 1 2 3 4. destruct (n_conns s !! PxID i) as [c|].
  - destruct (n_heap s !! c) as [gc|] eqn:Hg.
    + case_bool_decide; apply Hl; naive_solver.
    + apply Hl; naive_solver.
  - apply Hl; naive_solver.
Qed.

Lemma install_connected s gc : net_wf s → connected_as (install s gc) (gc_id gc).
Proof.
  intros Hw. exists (length (n_heap s)), gc. cbn. rewrite lookup_insert_eq, lookup_app_r, Nat.sub_diag by lia. done.
Qed.

(** A connection that was added is found under its identifier and, once its
    epoch is updated, under the new one only. *)
Theorem added_connection_found s gc b s' e :
  net_wf s → AddToConnections s gc b = (None, s') → e ≠ IDEpoch (gc_id gc) →
  CheckConnections s' [gc_id gc] = [] ∧
  ∃ s'', UpdateConnID s' (gc_id gc) e = (true, s'') ∧
    CheckConnections s'' [mkID (PxID (gc_id gc)) e; gc_id gc] = [gc_id gc].
Proof.
  intros Hw Ha He.
  assert (∃ c gc', n_conns s' !! PxID (gc_id gc) = Some c ∧ n_heap s' !! c = Some gc' ∧ gc_id gc' = gc_id gc) as (c & gc' & Hc & Hh & Hid).
  { rewrite AddToConnections_spec in Ha by done. destruct (n_conns s !! PxID (gc_id gc)) as [d|] eqn:Hd.
    - destruct (b && _); [done|]. injection Ha as <-. exists (length (n_heap s)), gc. cbn.
      destruct (nw_conns _ Hw _ _ Hd) as (g0 & Hg0 & _). apply lookup_lt_Some in Hg0.
      rewrite lookup_insert_eq, list_lookup_alter_ne, lookup_app_r, Nat.sub_diag by lia. done.
    - injection Ha as <-. by apply (install_connected s gc). }
  split.
  - unfold CheckConnections. cbn. rewrite Hc, Hh, Hid. by rewrite bool_decide_false by congruence.
  - set (s2 := s' <| n_heap ::= alter (λ gc, gc <| gc_id := mkID (PxID (gc_id gc)) e |>) c |>). exists s2.
    assert (n_conns s2 !! PxID (gc_id gc) = Some c) as E1 by done.
    assert (∃ gc2, n_heap s2 !! c = Some gc2 ∧ gc_id gc2 = mkID (PxID (gc_id gc)) e) as (gc2 & E2 & Hid2)
      by (exists (gc' <| gc_id := mkID (PxID (gc_id gc')) e |>);
          change (n_heap s2) with (alter (λ gc, gc <| gc_id := mkID (PxID (gc_id gc)) e |>) c (n_heap s'));
          rewrite list_lookup_alter_eq, Hh; split; [done|]; cbn; by rewrite Hid).
    split; [unfold UpdateConnID; by rewrite Hc, Hh, bool_decide_true by done|].
    clearbody s2. unfold CheckConnections. cbn [foldl PxID]. rewrite E1, E2, Hid2.
    assert (gc_id gc ≠ mkID (PxID (gc_id gc)) e) as Hne by (intros Hx; apply He; by rewrite Hx).
    repeat case_bool_decide; done.
Qed.

(** Which replicas the demuxer accepts. *)
Theorem validateID_spec s cid :
  0 < gm_NrOfNodes (n_gm s) <= 128 →
  validateID s cid = None ↔ 0 <= PxID cid < gm_NrOfNodes (n_gm s) ∧ (cid = n_did s → gm_LrEnabled (n_gm s) = true).
Proof.
  intros Hn. unfold validateID, MinPaxosID. rewrite i8_small, u64_small by (rewrite ?u64_small; lia).
  destruct (gm_LrEnabled (n_gm s)); cbn; rewrite ?andb_false_r, ?andb_true_r; repeat case_bool_decide; naive_solver lia.
Qed.

(** A replica with an older epoch is told that it was accepted and is then
    refused: the one that dials believes it is connected. *)
Theorem accepted_and_refused s cid c gc node net n called :
  validateID s cid = None → gm_LrEnabled (n_gm s) || gm_ArEnabled (n_gm s) = true →
  n_conns s !! PxID cid = Some c → n_heap s !! c = Some gc → CompareTo cid (gc_id gc) < 0 →
  ConnectToNode node net = Ok (Some n) →
  ∃ resp, accept s (Some cid) true = (s, Some resp, Some ErrLowerID) ∧
    GxConnectTo (M := M) node net true (Some resp) called = Ok (inl (NewGxConnection called)).
Proof.
  intros Hv Hlr Hc Hh Hlt Hd. exists (mkIDResponse true ""). split.
  - unfold accept. rewrite Hv. cbn [negb]. rewrite Hlr. unfold AddToConnections. cbn [negb gc_id NewGxConnection].
    rewrite Hc, Hh. by rewrite bool_decide_true.
  - unfold GxConnectTo. by rewrite Hd.
Qed.

(** What [InitialConnect] leaves: a connection to every member with a higher
    identifier, so that a replica is fully connected as soon as the members
    with lower ones have dialled it. *)
Theorem initial_connect_spec s conn s' :
  (∀ id gc, conn id = inl gc → gc_id gc = id) →
  InitialConnect s conn = Some s' →
  (∀ id, id ∈ IDs (gm_NodeMap (n_gm s)) → PxID (n_sid s) < PxID id →
    ∃ c gc, n_conns s' !! PxID id = Some c ∧ n_heap s' !! c = Some gc ∧ PxID (gc_id gc) = PxID id) ∧
  (areWeFullyConnected s' = true ↔ ∀ id, id ∈ IDs (gm_NodeMap (n_gm s)) → id ≠ n_sid s → PxID id <= PxID (n_sid s) →
    is_Some (n_conns s !! PxID id)).
Proof.
  intros Hconn Hi. unfold InitialConnect in Hi.
  assert (n_gm s' = n_gm s ∧ n_sid s' = n_sid s ∧ (∀ p, p <= PxID (n_sid s) → n_conns s' !! p = n_conns s !! p) ∧
    ∀ id, id ∈ IDs (gm_NodeMap (n_gm s)) → PxID (n_sid s) < PxID id →
      ∃ c gc, n_conns s' !! PxID id = Some c ∧ n_heap s' !! c = Some gc ∧ PxID (gc_id gc) = PxID id) as (Eg & Es & Hlow & Hhigh).
  { revert Hi. generalize (IDs (gm_NodeMap (n_gm s))) as ids.
    cut (∀ ids s1, initial_dials s1 conn ids = Some s' →
      n_gm s' = n_gm s1 ∧ n_sid s' = n_sid s1 ∧ (∀ p, p <= PxID (n_sid s1) → n_conns s' !! p = n_conns s1 !! p) ∧
      ∀ id, (id ∈ ids ∧ PxID (n_sid s1) < PxID id ∨ ∃ c gc, n_conns s1 !! PxID id = Some c ∧ n_heap s1 !! c = Some gc ∧ PxID (gc_id gc) = PxID id) →
        ∃ c gc, n_conns s' !! PxID id = Some c ∧ n_heap s' !! c = Some gc ∧ PxID (gc_id gc) = PxID id).
    { intros Hx ids Hi. destruct (Hx ids s Hi) as (? & ? & ? & Hy). split_and!; auto. }
    intros ids. induction ids as [|i ids IH]; intros s1 Hi1; cbn [initial_dials] in Hi1.
    { injection Hi1 as <-. split_and!; [done..|]. intros id [[Hin _]|?]; [by apply elem_of_nil in Hin|done]. }
    case_bool_decide as Hlt.
    - destruct (LookupNode _ i).2; [|done]. destruct (conn i) as [gc|e] eqn:Hci; [|done]. apply IH in Hi1 as (? & ? & Hl & Hh). cbn in *.
      split_and!; [done..| |].
      + intros p Hp. rewrite Hl by done. apply lookup_insert_ne. lia.
      + intros id Hid. apply Hh. destruct (decide (PxID id = PxID i)) as [Ep|Ep].
        * right. exists (length (n_heap s1)), gc. rewrite Ep, lookup_insert_eq, lookup_app_r, Nat.sub_diag by lia.
          by rewrite (Hconn i gc Hci).
        * destruct Hid as [[[->|Hin]%elem_of_cons ?]|(c & gc' & Hc & Hg & Hp)]; [done|by left|].
          right. exists c, gc'. rewrite lookup_insert_ne by done. split_and!; [done| |done]. by apply lookup_app_l_Some.
    - apply IH in Hi1 as (? & ? & ? & Hh). split_and!; [done..|]. intros id Hid. apply Hh.
      destruct Hid as [[[->|Hin]%elem_of_cons ?]|?]; [lia|by left|by right]. }
  split; [done|]. unfold areWeFullyConnected. rewrite Eg, Es. rewrite forallb_forall. split.
  - intros Hf id Hin Hne Hle. specialize (Hf id (proj1 (list_elem_of_In _ _) Hin)). rewrite <- Hlow by done.
    apply orb_true_iff in Hf as [Hf|Hf]; apply bool_decide_eq_true in Hf; [done|congruence].
  - intros Hf id Hin. apply list_elem_of_In in Hin. apply orb_true_iff. rewrite !bool_decide_eq_true.
    destruct (decide (id = n_sid s)) as [|Hne]; [by right|left].
    destruct (Z_le_gt_dec (PxID id) (PxID (n_sid s))) as [Hle|Hgt]; [rewrite Hlow by done; by apply Hf|].
    destruct (Hhigh id Hin) as (c & gc & -> & _); [lia|by eexists].
Qed.
End net.

(** * Examples *)

(** Replica 1 of three; message 0 is the heartbeat. It is dialled by replica 0,
    dials replica 2, broadcasts, and loses the connection to replica 2. *)
Definition ex_mtype (m : nat) : nat := match m with O => 0%nat | S _ => 1%nat end.
Definition ex_val (m : nat) : NetMsg nat := mkNetMsg false m.
Definition ex_net : Net (M := nat) (T := nat) (G := GrpMgr) :=
  default (mkNet (ex_gm 1) (ex_id 1) (ex_id 1) SndStopped false false ∅ [] ∅ [] 0) (NewNet (ex_id 1) (ex_gm 1)).
Definition ex_net_events : list (NetEvent (M := nat) (T := nat) (G := GrpMgr)) :=
  [ERegister (false, 1%nat) 7; EAccept (Some (ex_id 0)) true; EAdd (ex_id 2) false; EWaitConnected;
   EOutB (ex_val 5); EReset; EOutB (ex_val 0); EOut 0 WOk; EOut 0 WOk; EIn 0 9%nat; EBeat 0; EOut 1 WError;
   EOutB (ex_val 6); EReset; EResetTaken; EIn 1 8%nat; EBeat 1; EBeatTaken; EInErr 1; EOutU (mkNetMsg true 4%nat) (ex_id 1); EOut 0 WOk].
Definition ex_net_run := default (ex_net, []) (net_run ex_mtype 0%nat ex_net ex_net_events).

Lemma ex_net_runs : net_run ex_mtype 0%nat ex_net ex_net_events = Some (ex_net_run.1, ex_net_run.2).
Proof. vm_compute. reflexivity. Qed.

Lemma ex_net_wf : net_wf ex_net.
Proof. split; [intros p c Hp; by vm_compute in Hp|intros c gc Hh; by vm_compute in Hh]. Qed.


Lemma failed_write_silences_witness :
  let s := (default (ex_net, []) (net_run ex_mtype 0%nat ex_net (take 12 ex_net_events))).1 in
  let r := default (ex_net, []) (net_run ex_mtype 0%nat s (drop 12 ex_net_events)) in
  taken 1 r.2 = [] ∧ out_queue r.1 1 = [ex_val 0; ex_val 6].
Proof.
  intros s r. destruct (failed_write_silences ex_mtype 0%nat s (drop 12 ex_net_events) r.1 r.2 1
    (mkGxConnection (ex_id 2) [ex_val 0] false InDecode false)) as [Ht Hq]; [vm_compute; reflexivity..|].
  split; [exact Ht|]. vm_compute. reflexivity.
Defined.

Lemma one_connection_per_peer_witness : net_wf ex_net_run.1.
Proof. exact (one_connection_per_peer ex_mtype 0%nat ex_net ex_net_events ex_net_run.1 ex_net_run.2 ex_net_wf ex_net_runs). Defined.

Lemma connections_never_forgotten_witness : is_Some (n_conns ex_net_run.1 !! 2).
Proof.
  apply (connections_never_forgotten ex_mtype 0%nat
    (default (ex_net, []) (net_run ex_mtype 0%nat ex_net (take 3 ex_net_events))).1 (drop 3 ex_net_events) ex_net_run.1
    (default (ex_net, []) (net_run ex_mtype 0%nat (default (ex_net, []) (net_run ex_mtype 0%nat ex_net (take 3 ex_net_events))).1 (drop 3 ex_net_events))).2).
  - refine (one_connection_per_peer ex_mtype 0%nat ex_net (take 3 ex_net_events) _ [] ex_net_wf _). vm_compute. reflexivity.
  - vm_compute. reflexivity.
  - vm_compute. by eexists.
Defined.

(** Nobody takes the heartbeats: replica 0's connection delivers 129 messages
    and stops. *)
Definition ex_flood : list (NetEvent (M := nat) (T := nat) (G := GrpMgr)) :=
  EAccept (Some (ex_id 0)) true :: mjoin (replicate 128 [EIn 0 9%nat; EBeat 0]) ++ [EIn 0 9%nat].
Definition ex_flood_run := default (ex_net, []) (net_run ex_mtype 0%nat ex_net ex_flood).

Lemma unread_heartbeats_stop_replica_witness :
  count_ev is_receive ex_flood = 129 ∧ count_ev is_receive ex_flood <= 129 ∧
  net_step ex_mtype 0%nat ex_flood_run.1 (EBeat 0) = None ∧ net_step ex_mtype 0%nat ex_flood_run.1 (EIn 0 9%nat) = None.
Proof.
  split; [vm_compute; reflexivity|]. split; [|split; vm_compute; reflexivity].
  pose proof (unread_heartbeats_stop_replica ex_mtype 0%nat ex_net ex_flood ex_flood_run.1 ex_flood_run.2) as Hx.
  specialize (Hx ltac:(vm_compute; reflexivity) ltac:(vm_compute; reflexivity)).
  assert (count_ev is_beat_taken ex_flood + heartbeat_cap + len (n_heap ex_flood_run.1) = 129) as E by (vm_compute; reflexivity).
  rewrite E in Hx. exact Hx.
Defined.

Lemma registered_channel_gets_witness :
  delivered 7 (HandleMessage ex_mtype (foldl (λ s '(t, ch), RegisterChannel s t ch) ex_net
    [((false, 1%nat), 7%nat); ((false, 0%nat), 8%nat); ((false, 1%nat), 9%nat)]) (ex_val 5)) = [ex_val 5].
Proof. by rewrite (registered_channel_gets ex_mtype ex_net [((false, 1%nat), 7%nat); ((false, 0%nat), 8%nat); ((false, 1%nat), 9%nat)] (ex_val 5) 7 eq_refl). Defined.

Lemma pointer_not_delivered_to_self_witness :
  unicast ex_mtype 0%nat ex_net_run.1 (mkNetMsg true 4%nat) (ex_id 1) = (ex_net_run.1, []).
Proof.
  refine (pointer_not_delivered_to_self ex_mtype 0%nat ex_net_run.1 (mkNetMsg true 4%nat) eq_refl _).
  intros t. change (n_channels ex_net_run.1) with ({[ (false, 1%nat) := [7%nat] ]} : gmap (bool * nat) (list nat)).
  by apply lookup_singleton_ne.
Defined.

Lemma validateID_spec_witness : validateID ex_net (ex_id 2) = None ∧ validateID ex_net (ex_id 1) ≠ None.
Proof.
  pose proof (validateID_spec ex_net (ex_id 2) ltac:(vm_compute; split; [reflexivity|discriminate])) as [_ Hx].
  split; [|by vm_compute]. apply Hx. split; [vm_compute; split; [discriminate|reflexivity]|by vm_compute].
Defined.

Lemma broadcast_spec_witness :
  let s := (default (ex_net, []) (net_run ex_mtype 0%nat ex_net (take 4 ex_net_events))).1 in
  let outs := (broadcast ex_mtype 0%nat s (ex_val 5) [ex_id 0; ex_id 1; ex_id 2]).2 in
  queued 0 outs = [ex_val 5] ∧ delivered 7 outs = [ex_val 5].
Proof.
  intros s outs. destruct (broadcast_spec ex_mtype 0%nat s (ex_val 5) [ex_id 0; ex_id 1; ex_id 2]) as (H1 & _ & H3).
  - apply (bool_decide_unpack _). vm_compute. exact I.
  - intros i j c Hi Hj. repeat (apply elem_of_cons in Hi as [->|Hi] || apply elem_of_nil in Hi as []);
      repeat (apply elem_of_cons in Hj as [->|Hj] || apply elem_of_nil in Hj as []); vm_compute; congruence.
  - split.
    + unfold outs. rewrite (H1 (ex_id 0) 0%nat); [vm_compute; reflexivity|by left|by vm_compute|vm_compute; reflexivity|vm_compute; by eexists].
    + unfold outs. rewrite H3. vm_compute. reflexivity.
Defined.

(** Replica 0 of an older epoch dials after its successor has. *)
Definition ex_net_lr : Net (M := nat) (T := nat) (G := GrpMgr) :=
  mkNet (NewGrpMgr (ex_id 1) ex_nodemap true false) (ex_id 1) (ex_id 1) SndRun false false
    {[ 0 := 0%nat ]} [NewGxConnection (mkID 0 1)] ∅ [] 0.

Lemma accepted_and_refused_witness : ∃ resp,
  accept ex_net_lr (Some (ex_id 0)) true = (ex_net_lr, Some resp, Some ErrLowerID) ∧
  GxConnectTo (M := nat) ex_node (λ _ _, true) true (Some resp) (ex_id 1) = Ok (inl (NewGxConnection (ex_id 1))).
Proof. apply (accepted_and_refused ex_net_lr (ex_id 0) 0%nat (NewGxConnection (mkID 0 1)) ex_node (λ _ _, true) 0%nat (ex_id 1)); vm_compute; reflexivity. Defined.

Lemma added_connection_found_witness :
  let s' := (AddToConnections ex_net (NewGxConnection (ex_id 2)) true).2 in CheckConnections s' [ex_id 2] = [].
Proof.
  intros s'. destruct (added_connection_found ex_net (NewGxConnection (ex_id 2)) true s' 3 ex_net_wf) as [Hc _];
    [vm_compute; reflexivity|vm_compute; discriminate|exact Hc].
Defined.

Lemma initial_connect_spec_witness :
  let s' := default ex_net (InitialConnect ex_net (λ id, inl (NewGxConnection id))) in
  areWeFullyConnected s' = false ∧ areWeFullyConnected (AddToConnections s' (NewGxConnection (ex_id 0)) false).2 = true ∧
  ∃ c gc, n_conns s' !! 2 = Some c ∧ n_heap s' !! c = Some gc ∧ PxID (gc_id gc) = 2.
Proof.
  intros s'. split; [vm_compute; reflexivity|]. split; [vm_compute; reflexivity|].
  destruct (initial_connect_spec ex_net (λ id, inl (NewGxConnection id)) s') as [Hc _]; [by intros id gc [= <-]|vm_compute; reflexivity|].
  destruct (Hc (ex_id 2)) as (c & gc & H1 & H2 & H3).
  - apply (bool_decide_unpack _). vm_compute. exact I.
  - vm_compute. reflexivity.
  - exists c, gc. split; [exact H1|]. split; [exact H2|exact H3].
Defined.
