(* ===== verification/RingReplacer.v ===== *)
(** The ring replacer (src/ringreplacer): a replica watches the next one in the
    ring of Paxos identifiers and, when that is suspected, prepares a
    replacement for it and for the suspected replicas that follow it.

    Starting a process on another machine ([nodeinit.InitNode]) and finding a
    machine ([ReplicaProvider]) are parameters: what the k-th call answers. *)
From S2P Require Import Prelude Grp PaxosTypes Liveness EpochGen.

#[export] Instance Node_countable : Countable Node.
Proof.
  by refine (inj_countable' (λ n, (IP n, PaxosPort n, ClientPort n, Proposer n, Acceptor n, Learner n))
    (λ '(a, b, c, d, e, f), mkNode a b c d e f) _); intros [].
Defined.

(** * Data *)

Record ReconfMsg := mkRecMsg { rm_NodeMap : gmap ID Node; rm_NewIds : list ID; rm_AduSlot : SlotID }.
#[export] Instance eta_ReconfMsg : Eta ReconfMsg := λ r, mkRecMsg (rm_NodeMap r) (rm_NewIds r) (rm_AduSlot r).

(** config.TransferWrapper; the copy of the configuration is left out. *)
Record TransferWrapper := mkTW { tw_ID : ID; tw_NodeMap : gmap ID Node }.

Record AppState := mkAppState { st_SlotMarker : SlotID; st_State : bytes }.

Record RingReplacer := mkRR { rr_id : ID; rr_gen : EpochGen; rr_watching : ID }.
#[export] Instance eta_RingReplacer : Eta RingReplacer := λ r, mkRR (rr_id r) (rr_gen r) (rr_watching r).

(** A node that is initialised, and the message to the replacement handler. *)
Inductive RROut :=
| RRInit (nd : Node) (conf : TransferWrapper) (st : AppState)
| RRMsg (m : ReconfMsg).

(** The node map a new node starts with (config/transfer_wrapper.go): the whole
    group, or for live replacement itself alone among as many nodes as the map
    has; [None] is the error. [fhType] is the configured failure handling in
    lower case. *)
Definition GenerateNodeMapAndConfig {RO : RangeOrder} (fhType : string) (tw : TransferWrapper) : res (option NodeMap) :=
  if bool_decide (fhType = "reconfiguration"%string) || bool_decide (fhType = "areconfiguration"%string) then Some <$> NewNodeMap (tw_NodeMap tw)
  else if bool_decide (fhType = "livereplacement"%string) then
    match tw_NodeMap tw !! tw_ID tw with
    | None => Ok None
    | Some node =>
        Some <$> NewNodeMapFromSingleNode (tw_ID tw) node (u64 (Z.of_nat (size (tw_NodeMap tw)))) (u64 (Z.of_nat (size (tw_NodeMap tw))))
    end
  else Ok None.

(** * Operations *)

Section ring.
Context {G : Type} `{GroupManager G} {RO : RangeOrder} (gm : G).
(** The answers of the provider and of the remote initialisation. *)
Context (get_replica : nat → option Node) (init_ok : Node → bool).
Implicit Types rr : RingReplacer.

Definition NewRingReplacer (id : ID) : res RingReplacer :=
  w ← GetNext (gm_NodeMap gm) id; mret (mkRR id (epochGenerator id) w).

(** The loop that moves the watch past the suspected nodes. After one round
    more than there are nodes it only meets nodes it has met. *)
Fixpoint watch_loop (fuel : nat) (fd : Fd) (watching : ID) (replace : list ID) : res (ID * list ID) :=
  match fuel with
  | O => Diverge
  | S fuel =>
      watching ← GetNext (gm_NodeMap gm) watching;
      if negb (handleSuspectedRequest fd watching) then Ok (watching, replace)
      else watch_loop fuel fd watching (replace ++ [watching])
  end.
Definition watch_fuel : nat := S (Z.to_nat (gm_NrOfNodes gm)).

(** The first loop of [getNewConfigs], from the k-th call of the provider on. *)
Fixpoint replacements (k : nat) (ids : list ID) (newMap : gmap ID Node) (newids : list ID) (g : EpochGen)
    : res (option (gmap ID Node * list ID) * EpochGen) :=
  match ids with
  | [] => Ok (Some (newMap, newids), g)
  | oldID :: ids =>
      match get_replica k with
      | None => Ok (None, g)
      | Some node =>
          '(newEp, g) ← newEpoch g (IDEpoch oldID);
          let newid := NewID (PxID oldID) newEp in
          let newMap := delete oldID newMap in
          replacements (S k) ids (<[newid := node]> newMap) (newids ++ [newid]) g
      end
  end.

Definition getNewConfigs rr (replace : list ID) : res (option (ReconfMsg * gmap Node TransferWrapper) * RingReplacer) :=
  '(r, g) ← replacements 0 replace (CloneMap (gm_NodeMap gm)) [] (rr_gen rr);
  mret (match r with
        | Some (newMap, newids) =>
            Some (mkRecMsg newMap newids 0,
              foldl (λ ns id, <[default zero_Node (newMap !! id) := mkTW id newMap]> ns) ∅ newids)
        | None => None
        end, rr <| rr_gen := g |>).

(** The nodes are initialised one after the other, until one fails. *)
Fixpoint init_loop (newNodes : list (Node * TransferWrapper)) (st : AppState) : bool * list RROut :=
  match newNodes with
  | [] => (true, [])
  | (nd, conf) :: rest =>
      if init_ok nd then let '(ok, outs) := init_loop rest st in (ok, RRInit nd conf st :: outs)
      else (false, [RRInit nd conf st])
  end.
Definition reconfSetupGlobal (newNodes : gmap Node TransferWrapper) (st : AppState) : bool * list RROut :=
  init_loop (range_order 0 newNodes) st.

Definition doRemoteSetupAndSend (rcMsg : ReconfMsg) (newNodes : gmap Node TransferWrapper) (st : AppState) : list RROut :=
  let '(ok, outs) := reconfSetupGlobal newNodes st in
  if ok then outs ++ [RRMsg rcMsg] else outs.

Definition createAndProposeReconfigMsg rr (watching : list ID) (st : AppState) : res (RingReplacer * list RROut) :=
  '(r, rr) ← getNewConfigs rr watching;
  mret (rr, match r with
            | None => []
            | Some (recMsg, newConfigs) =>
                doRemoteSetupAndSend (recMsg <| rm_AduSlot := st_SlotMarker st |>) newConfigs st
            end).

(** [fd] is the failure detector when the message is handled, [st] the state
    the server answers with. Replacing a whole quorum ends the process. *)
Definition rr_handleFdMsg rr (fd : Fd) (st : AppState) (fdMsg : FdMsg) : res (RingReplacer * list RROut) :=
  if bool_decide (fm_Event fdMsg ≠ Suspect) then Ok (rr, [])
  else if bool_decide (rr_watching rr = fm_ID fdMsg) then
    '(w, replace) ← watch_loop watch_fuel fd (rr_watching rr) [rr_watching rr];
    if bool_decide (u64 (len replace) >= gm_Quorum gm) then Panic
    else createAndProposeReconfigMsg (rr <| rr_watching := w |>) replace st
  else Ok (rr, []).
End ring.

(** * The walk around the ring *)

Section ring_laws.
Context {G : Type} `{GroupManager G} {RO : RangeOrder} {RL : RangeOrderLaws RO} (gm : G).
Context (Hwf : nodemap_wf (gm_NodeMap gm)) (Hnn : gm_NrOfNodes gm = nrOfNodes (gm_NodeMap gm)).
Implicit Types (fd : Fd) (id : ID).

Abbreviation nm := (gm_NodeMap gm).
Abbreviation sz := (nrOfNodes (gm_NodeMap gm)).

(** The identifier at a position of the ring. *)
Definition at_pos (p : Z) : ID := NewID p (nth (Z.to_nat p) (epochs nm) 0).

Lemma GetNext_at id : 0 < sz → 0 ≤ PxID id < 2 ^ 7 → GetNext nm id = Ok (at_pos ((PxID id + 1) `mod` sz)).
Proof.
  intros Hs Hp. pose proof (wf_bound _ Hwf) as Hb. unfold GetNext. nowrap. rewrite decide_False by lia.
  pose proof (Z.mod_pos_bound (PxID id + 1) sz Hs) as Hm.
  destruct (slice_get_total (epochs nm) ((PxID id + 1) `mod` sz)) as [e He]; [rewrite (wf_len _ Hwf); lia|].
  rewrite He. cbn. apply slice_get_Ok in He as [_ He]. unfold at_pos. rewrite (nth_lookup_Some _ _ _ _ He). by nowrap.
Qed.

Lemma nodes_at id n : nodes nm !! id = Some n → id = at_pos (PxID id) ∧ 0 ≤ PxID id < sz.
Proof.
  intros Hid. split; [|by eapply wf_px]. unfold at_pos. rewrite (nth_lookup_Some _ _ _ _ (wf_epoch _ Hwf _ _ Hid)). by destruct id.
Qed.

(** The nodes that follow position [p], [k] of them. *)
Definition following (p : Z) (k : nat) : list ID := (λ i, at_pos ((p + Z.of_nat i) `mod` sz)) <$> seq 1 k.

Lemma following_snoc p k : following p (S k) = following p k ++ [at_pos ((p + Z.of_nat (S k)) `mod` sz)].
Proof. unfold following. by rewrite seq_S, fmap_app. Qed.

(** The watch moves to the first node that is not suspected. *)
Lemma watch_loop_spec fd p d : 0 ≤ p < sz →
  handleSuspectedRequest fd (at_pos ((p + Z.of_nat (S d)) `mod` sz)) = false →
  (∀ i, (0 < i ≤ d)%nat → handleSuspectedRequest fd (at_pos ((p + Z.of_nat i) `mod` sz)) = true) →
  ∀ fuel, (d < fuel)%nat → ∀ ids,
    watch_loop gm fuel fd (at_pos p) ids = Ok (at_pos ((p + Z.of_nat (S d)) `mod` sz), ids ++ following p d).
Proof.
  intros Hp Hno Hyes. pose proof (wf_bound _ Hwf) as Hb. assert (0 < sz) as Hsz by lia.
  assert (∀ j id, (j ≤ d)%nat → id = at_pos ((p + Z.of_nat j) `mod` sz) → ∀ fuel, (d < fuel + j)%nat →
    ∀ ids, watch_loop gm fuel fd id (ids ++ following p j) = Ok (at_pos ((p + Z.of_nat (S d)) `mod` sz), ids ++ following p d)) as Hj.
  { intros j. remember (d - j)%nat as r eqn:Hr. revert j Hr. induction r as [|r IH]; intros j Hr id Hjd -> [|fuel] Hf ids; [lia| |lia|]; cbn [watch_loop].
    all: pose proof (Z.mod_pos_bound (p + Z.of_nat j) sz Hsz) as Hm.
    all: rewrite GetNext_at by (cbn; lia); cbn [mbind res_bind at_pos NewID PxID].
    all: rewrite Zplus_mod_idemp_l; replace (p + Z.of_nat j + 1) with (p + Z.of_nat (S j)) by lia.
    - assert (j = d) as -> by lia. by rewrite Hno.
    - rewrite (Hyes (S j)) by lia. cbn [negb]. rewrite <- app_assoc, <- following_snoc. apply IH; [lia..|done|lia]. }
  intros fuel Hf ids. rewrite <- (app_nil_r ids) at 1. apply (Hj 0%nat); [lia| |lia].
  by rewrite Z.add_0_r, Z.mod_small by done.
Qed.

(** There is such a node if some node of the ring is not suspected. *)
Lemma first_alive fd p q : 0 ≤ p < sz → 0 ≤ q < sz → handleSuspectedRequest fd (at_pos q) = false →
  ∃ d, (Z.of_nat d < sz) ∧ handleSuspectedRequest fd (at_pos ((p + Z.of_nat (S d)) `mod` sz)) = false ∧
    ∀ i, (0 < i ≤ d)%nat → handleSuspectedRequest fd (at_pos ((p + Z.of_nat i) `mod` sz)) = true.
Proof.
  intros Hp Hq Hs.
  assert (∃ d, Z.of_nat d < sz ∧ (p + Z.of_nat (S d)) `mod` sz = q) as (d & Hd & E).
  { assert (0 < sz) as Hsz by lia. pose proof (Z.mod_pos_bound (q - p - 1) sz Hsz). exists (Z.to_nat ((q - p - 1) `mod` sz)). split; [lia|].
    rewrite Nat2Z.inj_succ, Z2Nat.id by lia. replace (p + Z.succ ((q - p - 1) `mod` sz)) with (p + 1 + (q - p - 1) `mod` sz) by lia.
    rewrite Zplus_mod_idemp_r. replace (p + 1 + (q - p - 1)) with q by lia. by apply Z.mod_small. }
  rewrite <- E in Hs. clear E q Hq. induction d as [d IH] using lt_wf_ind.
  destruct (decide (Exists (λ i, handleSuspectedRequest fd (at_pos ((p + Z.of_nat (S i)) `mod` sz)) = false) (seq 0 d)))
    as [(i & Hi%elem_of_seq & Hf)%Exists_exists|Hn].
  - apply (IH i); [lia|done|lia].
  - exists d. split_and!; [done..|]. intros [|i] Hi; [lia|]. apply not_false_is_true. intros Ef.
    destruct Hn. apply Exists_exists. exists i. rewrite elem_of_seq. split; [lia|done].
Qed.

Lemma NoDup_following p d : 0 ≤ p < sz → Z.of_nat d < sz → NoDup (PxID <$> (at_pos p :: following p d)).
Proof.
  intros Hp Hd.
  assert (PxID <$> (at_pos p :: following p d) = (λ i, (p + Z.of_nat i) `mod` sz) <$> seq 0 (S d)) as ->.
  { cbn [seq fmap list_fmap]. f_equal; [by rewrite Z.add_0_r, Z.mod_small by done|]. unfold following. rewrite <- list_fmap_compose. done. }
  apply NoDup_fmap_2_strong; [|apply NoDup_seq].
  intros i j Hi%elem_of_seq Hj%elem_of_seq E.
  assert ((p + Z.of_nat i - (p + Z.of_nat j)) `mod` sz = 0) as E0 by (rewrite Zminus_mod, E, Z.sub_diag; done).
  apply Z.mod_divide in E0 as [k Hk]; [|lia]. assert (k = 0) by nia. lia.
Qed.
End ring_laws.

(** * New identifiers *)

(** An identifier that replaces [old]. *)
Definition replaces (old new : ID) : Prop := PxID new = PxID old ∧ IDEpoch old < IDEpoch new.

Lemma replaces_px olds news : Forall2 replaces olds news → PxID <$> news = PxID <$> olds.
Proof. intros H. induction H as [|o n olds news [E _] _ IH]; [done|]. cbn. by rewrite E, IH. Qed.

Section replacements_laws.
Context (get_replica : nat → option Node) (Hget : ∀ k, is_Some (get_replica k)).

Lemma replacements_spec B olds : ∀ k m ids0 g,
  NoDup (PxID <$> olds) → Forall (λ o, 0 ≤ IDEpoch o < B) olds → 0 ≤ eg_base g → 0 ≤ eg_n g →
  eg_base g + Z.max (eg_n g) B + len olds ≤ max_sum →
  ∃ m' news g', replacements get_replica k olds m ids0 g = Ok (Some (m', ids0 ++ news), g') ∧ Forall2 replaces olds news ∧
    (∀ id, id ∉ olds → id ∉ news → m' !! id = m !! id) ∧ (∀ id, id ∈ olds → m' !! id = None) ∧
    (∀ i id, news !! i = Some id → m' !! id = get_replica (k + i)).
Proof.
  induction olds as [|old olds IH]; intros k m ids0 g Nd Hf Hb Hn Hs; cbn [replacements].
  { exists m, [], g. rewrite app_nil_r. split_and!; [done|constructor|done|by intros ? ?%elem_of_nil|done]. }
  destruct (Hget k) as [node Hnode]. rewrite Hnode. cbn [fmap list_fmap] in Nd. apply NoDup_cons in Nd as [Hold Nd].
  apply Forall_cons in Hf as [Ho Hf]. cbn [length] in Hs. destruct g as [base n]. cbn in *.
  destruct (newEpoch_spec base n (IDEpoch old)) as (j & -> & ? & ? & Hlt & _); [lia..|]. cbn [mbind res_bind].
  set (newid := NewID (PxID old) (cantor base j)).
  destruct (IH (S k) (<[newid := node]> (delete old m)) (ids0 ++ [newid]) (mkEG base (j + 1))) as
    (m' & news & g' & Hrun & H2 & Hsame & Hnone & Hnew); [done|done|cbn; lia..|].
  assert (∀ id, PxID id = PxID old → (id ∉ olds) ∧ (id ∉ news)) as Hpx.
  { intros id E. split; intros Hin%(list_elem_of_fmap_2 PxID); rewrite E in Hin; [done|]. by rewrite (replaces_px _ _ H2) in Hin. }
  exists m', (newid :: news), g'. split_and!.
  - by rewrite Hrun, <- app_assoc.
  - by constructor.
  - intros id [? ?]%not_elem_of_cons [? ?]%not_elem_of_cons. rewrite Hsame by done.
    by rewrite lookup_insert_ne, lookup_delete_ne by congruence.
  - intros id [->|Hid]%elem_of_cons; [|by apply Hnone]. destruct (Hpx old eq_refl). rewrite Hsame by done.
    rewrite lookup_insert_ne; [apply lookup_delete_eq|]. intros E. assert (IDEpoch newid = IDEpoch old) as E' by (by rewrite E). cbn in E'. lia.
  - intros [|i] id; cbn [lookup list_lookup].
    + intros [= <-]. destruct (Hpx newid eq_refl). rewrite Hsame, lookup_insert_eq, Nat.add_0_r by done. done.
    + intros Hi. rewrite (Hnew i id Hi). by rewrite Nat.add_succ_r.
Qed.
End replacements_laws.

Section configs.
Context {RO : RangeOrder} {RL : RangeOrderLaws RO}.

Lemma CloneMap_nodes (nm : NodeMap) : CloneMap nm = nodes nm.
Proof.
  unfold CloneMap. apply map_eq. intros id.
  assert (∀ (l : list (ID * Node)) (m : gmap ID Node), NoDup l.*1 → foldl (λ m '(id, node), <[id := node]> m) m l !! id =
    match (list_to_map l : gmap ID Node) !! id with Some n => Some n | None => m !! id end) as Hl.
  { induction l as [|[j n] l IH]; intros m Nd; [done|]. cbn in Nd. apply NoDup_cons in Nd as [Hj Nd]. cbn. rewrite IH by done.
    destruct (decide (j = id)) as [->|].
    - by rewrite not_elem_of_list_to_map_1, !lookup_insert_eq by done.
    - by rewrite !lookup_insert_ne by done. }
  rewrite Hl by apply NoDup_fst_range_order. rewrite lookup_empty.
  assert (list_to_map (range_order 0 (nodes nm)) = nodes nm) as ->; [|by destruct (nodes nm !! id)].
  etrans; [|apply list_to_map_to_list]. apply list_to_map_proper; [apply NoDup_fst_range_order|apply range_order_perm].
Qed.

(** Every configuration is for one of the new identifiers and has the new map. *)
Definition conf_ok (newMap : gmap ID Node) (newids : list ID) (nd : Node) (c : TransferWrapper) : Prop :=
  tw_NodeMap c = newMap ∧ tw_ID c ∈ newids ∧ nd = default zero_Node (newMap !! tw_ID c).

Lemma configs_ok newMap ids newids (ns : gmap Node TransferWrapper) : ids ⊆ newids →
  (∀ nd c, ns !! nd = Some c → conf_ok newMap newids nd c) →
  ∀ nd c, foldl (λ ns id, <[default zero_Node (newMap !! id) := mkTW id newMap]> ns) ns ids !! nd = Some c → conf_ok newMap newids nd c.
Proof.
  revert ns. induction ids as [|id ids IH]; intros ns Hsub Hns; [done|]. cbn. apply IH; [set_solver|].
  intros nd c. rewrite lookup_insert_Some. intros [[<- <-]|[_ Hc]]; [|by apply Hns]. split_and!; [done|set_solver|done].
Qed.

Lemma init_loop_ok (init_ok : Node → bool) l st : (∀ n, init_ok n = true) →
  init_loop init_ok l st = (true, (λ nc, RRInit nc.1 nc.2 st) <$> l).
Proof. intros Hi. induction l as [|[nd c] l IH]; [done|]. cbn. by rewrite Hi, IH. Qed.
End configs.

(** * Replacing the suspected replicas *)

Section ring_replacement.
Context {G : Type} `{GroupManager G} {RO : RangeOrder} {RL : RangeOrderLaws RO} (gm : G).
Context (get_replica : nat → option Node) (init_ok : Node → bool).

(** The group is well formed, the replica that runs the replacer is in it and
    not suspected, machines are available, and the generator does not wrap around. *)
Record ring_ok (rr : RingReplacer) (fd : Fd) (own : ID) (B : Epoch) : Prop := {
  ro_wf : nodemap_wf (gm_NodeMap gm);
  ro_nodes : gm_NrOfNodes gm = nrOfNodes (gm_NodeMap gm);
  ro_watching : is_Some (nodes (gm_NodeMap gm) !! rr_watching rr);
  ro_own : is_Some (nodes (gm_NodeMap gm) !! own);
  ro_alive : handleSuspectedRequest fd own = false;
  ro_get k : is_Some (get_replica k);
  ro_init n : init_ok n = true;
  ro_epochs : Forall (λ e, 0 ≤ e < B) (epochs (gm_NodeMap gm));
  ro_base : 0 ≤ eg_base (rr_gen rr);
  ro_n : 0 ≤ eg_n (rr_gen rr);
  ro_small : eg_base (rr_gen rr) + Z.max (eg_n (rr_gen rr)) B + nrOfNodes (gm_NodeMap gm) ≤ max_sum;
}.

Lemma epoch_at_pos B p : nodemap_wf (gm_NodeMap gm) → Forall (λ e, 0 ≤ e < B) (epochs (gm_NodeMap gm)) →
  0 ≤ p < nrOfNodes (gm_NodeMap gm) → 0 ≤ IDEpoch (at_pos gm p) < B.
Proof.
  intros Hwf Hf Hp. unfold at_pos. cbn. rewrite Forall_forall in Hf. apply Hf.
  apply list_elem_of_In, nth_In. pose proof (wf_len _ Hwf). lia.
Qed.

(** The nodes that [rr_handleFdMsg] replaces. *)
Lemma watched rr fd own B : ring_ok rr fd own B →
  ∃ skipped w, watch_loop gm (watch_fuel gm) fd (rr_watching rr) [rr_watching rr] = Ok (w, rr_watching rr :: skipped) ∧
    handleSuspectedRequest fd w = false ∧ Forall (λ id, handleSuspectedRequest fd id = true) skipped ∧
    NoDup (PxID <$> (rr_watching rr :: skipped)) ∧ len (rr_watching rr :: skipped) ≤ nrOfNodes (gm_NodeMap gm) ∧
    Forall (λ id, 0 ≤ IDEpoch id < B) (rr_watching rr :: skipped).
Proof.
  intros [Hwf Hnn [n1 Hw] [n2 Ho] Hal _ _ Hep _ _ _].
  destruct (nodes_at gm Hwf _ _ Hw) as [Ew Hpw], (nodes_at gm Hwf _ _ Ho) as [Eo Hpo].
  rewrite Eo in Hal. destruct (first_alive gm fd (PxID (rr_watching rr)) (PxID own)) as (d & Hd & Hno & Hyes); [done..|].
  exists (following gm (PxID (rr_watching rr)) d), (at_pos gm ((PxID (rr_watching rr) + Z.of_nat (S d)) `mod` nrOfNodes (gm_NodeMap gm))).
  assert (∀ x, 0 ≤ x `mod` nrOfNodes (gm_NodeMap gm) < nrOfNodes (gm_NodeMap gm)) as Hm by (intros; apply Z.mod_pos_bound; lia).
  rewrite Ew. split_and!; [| | | | |].
  - cbn [PxID at_pos NewID]. erewrite watch_loop_spec; [done..|]. unfold watch_fuel. rewrite Hnn. lia.
  - done.
  - apply Forall_fmap, Forall_forall. intros i Hi%elem_of_seq. apply Hyes. cbn. lia.
  - cbn [PxID at_pos NewID]. by apply NoDup_following.
  - cbn. unfold following. rewrite length_fmap, length_seq. lia.
  - constructor; [by eapply epoch_at_pos|]. apply Forall_fmap, Forall_forall. intros i _. by eapply epoch_at_pos.
Qed.

Lemma configs_sent rr w replace B st : rr_watching rr = w → nodemap_wf (gm_NodeMap gm) → (∀ k, is_Some (get_replica k)) → (∀ n, init_ok n = true) →
  NoDup (PxID <$> replace) → Forall (λ o, 0 ≤ IDEpoch o < B) replace → 0 ≤ eg_base (rr_gen rr) → 0 ≤ eg_n (rr_gen rr) →
  eg_base (rr_gen rr) + Z.max (eg_n (rr_gen rr)) B + len replace ≤ max_sum →
  ∃ rr' outs m, createAndProposeReconfigMsg gm get_replica init_ok rr replace st = Ok (rr', outs ++ [RRMsg m]) ∧
    rr_watching rr' = w ∧ rm_AduSlot m = st_SlotMarker st ∧ Forall2 replaces replace (rm_NewIds m) ∧
    (∀ id, id ∉ replace → id ∉ rm_NewIds m → rm_NodeMap m !! id = nodes (gm_NodeMap gm) !! id) ∧
    (∀ id, id ∈ replace → rm_NodeMap m !! id = None) ∧
    (∀ i id, rm_NewIds m !! i = Some id → rm_NodeMap m !! id = get_replica i) ∧
    ∀ o, o ∈ outs → ∃ nd c, o = RRInit nd c st ∧ conf_ok (rm_NodeMap m) (rm_NewIds m) nd c.
Proof.
  intros Ew Hwf Hget Hini Nd Hf Hb Hn Hs. unfold createAndProposeReconfigMsg, getNewConfigs. rewrite CloneMap_nodes.
  destruct (replacements_spec get_replica Hget B replace 0 (nodes (gm_NodeMap gm)) [] (rr_gen rr)) as
    (m' & news & g' & -> & H2 & Hsame & Hnone & Hnew); [done..|]. cbn [mbind res_bind app mret res_ret]. cbv beta iota zeta.
  unfold doRemoteSetupAndSend, reconfSetupGlobal. rewrite init_loop_ok by done.
  do 3 eexists. split; [done|]. cbn. split_and!; [done..|].
  intros o ([nd c] & -> & Hin%elem_of_range_order)%list_elem_of_fmap. exists nd, c. split; [done|].
  eapply configs_ok in Hin; [done|done|]. intros ? ?. by rewrite lookup_empty.
Qed.
End ring_replacement.


(** Five replicas, of which the first watches the second; the second and the third are suspected. *)
Definition ex_ring_nodes : gmap ID Node := list_to_map ((λ i, (ex_id i, ex_node)) <$> [0; 1; 2; 3; 4]).
Definition ex_ring_gm : GrpMgr :=
  NewGrpMgr (ex_id 0) (match NewNodeMap ex_ring_nodes with Ok nm => nm | _ => ex_nodemap end) true false.
Definition ex_ring : RingReplacer := mkRR (ex_id 0) (epochGenerator (ex_id 0)) (ex_id 1).
Definition ex_ring_fd : Fd := (NewFd 10 1) <| fd_suspected := {[ ex_id 1 := true; ex_id 2 := true ]} |>.

Lemma ex_ring_ok : ring_ok ex_ring_gm (λ _, Some ex_node) (λ _, true) ex_ring ex_ring_fd (ex_id 0) 1.
Proof.
  assert (∀ id nd, ex_ring_nodes !! id = Some nd → ∃ i, id = ex_id i ∧ i ∈ [0; 1; 2; 3; 4]) as Hid.
  { intros id nd Hl%elem_of_list_to_map_2%list_elem_of_fmap. destruct Hl as (i & [= -> ->] & Hi). by exists i. }
  destruct (NewNodeMap_Ok ex_ring_nodes) as (nm & Hrun & Hwf & Hn & _); [by vm_compute| |].
  { split.
    - intros id nd (i & -> & Hi)%Hid. repeat (apply elem_of_cons in Hi as [->|Hi]; [by vm_compute|]). by apply elem_of_nil in Hi.
    - intros id1 id2 n1 n2 (i & -> & _)%Hid (j & -> & _)%Hid E. cbn in E. by rewrite E. }
  assert (gm_NodeMap ex_ring_gm = nm) as Enm by (unfold ex_ring_gm; by rewrite Hrun).
  split; try (by vm_compute); try (intros; by eexists); try (by eexists; vm_compute).
  - by rewrite Enm.
  - rewrite Enm. clear -Hrun. revert Hrun. vm_compute. intros [= <-]. by repeat constructor.
Qed.

