(* ===== verification/LiveReplacement.v ===== *)
(** The live replacement handler (src/lr): epochs are prepared by the replica
    that starts a replacement, the replicas of the group answer with epoch
    promises that carry their acceptors' state, and the replacer is activated
    by a valid quorum of promises.

    A replica's handler, group manager and acceptor change together, so they
    are one state, [LrNode]. Connections (package net) are parameters of a
    step: whether they could be made. *)
From S2P Require Import Prelude Grp PaxosTypes Combinations MultiAcceptor MultiProposer MultiLearner RingReplacer.

(** * Messages (msg.go) *)

Record PrepareEpoch := mkPE { pe_ReplacerID : ID; pe_ReplacerNode : Node; pe_SlotMarker : SlotID }.
Record EpochPromise := mkEP {
  ep_ID : ID; ep_Sender : Node; ep_EpochVector : list Epoch; ep_SlotMarker : SlotID; ep_AccState : AcceptorSlotMap }.
#[export] Instance EpochPromise_EpochMsg : EpochMsg EpochPromise :=
  {| em_ID := ep_ID; em_EpochVector := ep_EpochVector |}.
(** [EpochPromise{}]. *)
Definition zero_EP : EpochPromise := mkEP (mkID 0 0) zero_Node [] 0 NewAcceptorSlotMap.

(** vq.go is the search of MultiPaxos for this message type. *)
Definition epConflict (a b : EpochPromise) : res bool := conflict a b.
Definition checkCombinationEp (indices : list Z) (msgs : list EpochPromise) : res bool := checkCombination indices msgs.
Definition extractValidQuorumEp (msgs : list EpochPromise) (quorumSize : Z) : res (bool * list Z) := extractVq msgs quorumSize.

(** * State *)

(** [prepareEpochChan] is a buffered channel, to which the handler's own
    goroutine sends as well; its capacity is the quorum size at the start. *)
Record ReplacementHandler := mkRH {
  rh_id : ID; rh_replacer : bool; rh_activated : bool; rh_epochPromises : list EpochPromise;
  rh_prepareEpochChan : list PrepareEpoch; rh_cap : Z }.
#[export] Instance eta_ReplacementHandler : Eta ReplacementHandler := λ r,
  mkRH (rh_id r) (rh_replacer r) (rh_activated r) (rh_epochPromises r) (rh_prepareEpochChan r) (rh_cap r).

Record LrNode := mkLN { ln_rh : ReplacementHandler; ln_grp : GrpMgr; ln_acc : MultiAcceptor }.
#[export] Instance eta_LrNode : Eta LrNode := λ r, mkLN (ln_rh r) (ln_grp r) (ln_acc r).

(** Broadcasting sends a pointer, which the node itself does not dispatch. *)
Inductive LrOut :=
| LrBcast (pe : PrepareEpoch)
| LrForward (dst : ID) (eps : list EpochPromise)     (* ForwardedEpSet *)
| LrPromise (dst : ID) (ep : EpochPromise)
| LrAccOut (o : AccOut).

(** The surroundings of a step: the adu, whether the connections for forwarding
    and for the promise could be made, whether the new one could be installed,
    and whether the goroutine that sends the promise encodes it only after the
    node map, whose epoch slice it refers to, has changed. *)
Record Env := mkEnv { env_adu : SlotID; env_forward : bool; env_connect : bool; env_added : bool; env_late : bool }.

Inductive LrEvent :=
| LrRec (m : ReconfMsg) (adu : SlotID)
| LrArrive (pe : PrepareEpoch)               (* the network puts it into the channel *)
| LrPrepare (env : Env)                      (* the handler takes the next one *)
| LrEpochPromise (ep : EpochPromise)
| LrAcc (ev : AccEvent).

Definition NewReplacementHandler (id : ID) (replacer : bool) (quorum : Z) : ReplacementHandler :=
  mkRH id replacer false [] [] quorum.

(** * Operations *)

Section lr.
Context {RO : RangeOrder}.
(** The configured LRStrategy. *)
Context (strategy : Z).
Implicit Types ln : LrNode.

(** Sending to one's own channel: when it is full, the only goroutine that
    could receive waits for itself. *)
Definition send_self ln (pe : PrepareEpoch) : res LrNode :=
  if bool_decide (len (rh_prepareEpochChan (ln_rh ln)) < rh_cap (ln_rh ln))
  then Ok (ln <| ln_rh ::= λ rh, rh <| rh_prepareEpochChan ::= λ q, q ++ [pe] |> |>)
  else Diverge.

(** ** Starting a replacement (lr.go) *)

Fixpoint check_epochs (es : list Epoch) (ids : list ID) : res bool :=
  match ids with
  | [] => Ok true
  | id :: ids => e ← slice_get es (PxID id); if bool_decide (IDEpoch id <= e) then Ok false else check_epochs es ids
  end.

Definition checkandhandleRecMsg ln (rmsg : ReconfMsg) (adu : SlotID) : res (option PrepareEpoch) :=
  match rm_NewIds rmsg with
  | [] => Ok None
  | id0 :: _ =>
      ok ← check_epochs (Epochs (nodeMap (ln_grp ln))) (rm_NewIds rmsg);
      if negb ok then Ok None
      else
        let rmsg := if bool_decide (strategy = 2) then rmsg <| rm_AduSlot := adu |> else rmsg in
        mret (Some (mkPE id0 (default zero_Node (rm_NodeMap rmsg !! id0)) (rm_AduSlot rmsg)))
  end.

Definition handleRecMsg ln (rmsg : ReconfMsg) (adu : SlotID) : res (LrNode * list LrOut) :=
  ppEp ← checkandhandleRecMsg ln rmsg adu;
  match ppEp with
  | None => Ok (ln, [])
  | Some pe => ln ← send_self ln pe; mret (ln, [LrBcast pe])
  end.

(** ** Epoch promises (ep_handle.go) *)

(** [currentSlot = epAccSlot] makes the variable, a pointer into the map that
    [GetSlot] returned, point elsewhere; the map keeps its slot. *)
Definition merge_slot (slotMap : AcceptorSlotMap) (epAccSlot : AcceptorSlot) : AcceptorSlotMap :=
  let '(currentSlot, slotMap) := AcceptorSlotMap_GetSlot slotMap (as_ID epAccSlot) in
  let currentSlot :=
    if bool_decide (Compare (as_VRnd epAccSlot) (as_VRnd currentSlot) >= 0) &&
       bool_decide (Compare (as_VRnd epAccSlot) (as_VRnd currentSlot) ≠ 0)
    then epAccSlot else currentSlot in
  slotMap.

Definition merge_promise (slotMap : AcceptorSlotMap) (st : AcceptorSlotMap) : AcceptorSlotMap :=
  let slotMap := if bool_decide (Compare (asm_Rnd st) (asm_Rnd slotMap) = 1)
                 then slotMap <| asm_Rnd := asm_Rnd st |> else slotMap in
  let slotMap := if bool_decide (asm_MaxSeen st > asm_MaxSeen slotMap)
                 then slotMap <| asm_MaxSeen := asm_MaxSeen st |> else slotMap in
  foldl merge_slot slotMap (range_order 0 (asm_Slots st)).*2.

Definition extractAcceptorState (eps : list EpochPromise) (vqIndices : list Z) : res AcceptorSlotMap :=
  foldM (λ slotMap idx, ep ← slice_get eps idx; mret (merge_promise slotMap (ep_AccState ep))) NewAcceptorSlotMap vqIndices.

Definition activate ln (ep : EpochPromise) (accState : AcceptorSlotMap) : LrNode :=
  let acc := SetState (ln_acc ln) accState in
  let acc := if bool_decide (strategy = 1) || bool_decide (strategy = 2) then SetLowSlot acc (ep_SlotMarker ep)
             else if bool_decide (strategy = 3) then SetLowSlot acc (asm_MaxSeen accState) else acc in
  ln <| ln_acc := acc |> <| ln_rh ::= λ rh, rh <| rh_activated := true |> |>.

Definition handleEpochPromise ln (ep : EpochPromise) : res LrNode :=
  if negb (rh_replacer (ln_rh ln)) then Ok ln
  else
    '(_, nm) ← Add (nodeMap (ln_grp ln)) (ep_ID ep) (ep_Sender ep);
    let ln := ln <| ln_grp ::= λ g, g <| nodeMap := nm |> |> in
    if rh_activated (ln_rh ln) then Ok ln
    else
      let ln := ln <| ln_rh ::= λ rh, rh <| rh_epochPromises ::= λ eps, eps ++ [ep] |> |> in
      let eps := rh_epochPromises (ln_rh ln) in
      let q := Quorum (nodeMap (ln_grp ln)) in
      if bool_decide (u64 (len eps) < q) then Ok ln
      else
        '(validQuorum, vqIndices) ← extractValidQuorumEp eps q;
        if negb validQuorum then Ok ln
        else accState ← extractAcceptorState eps vqIndices; mret (activate ln ep accState).

(** Nothing in the event loop calls it. *)
Definition handleForwardedEpSet ln (feps : list EpochPromise) : res LrNode := foldM handleEpochPromise ln feps.

(** ** Prepare epoch (pe_handle.go) *)

Definition forwardEpochPromises ln (pe : PrepareEpoch) (env : Env) : list LrOut :=
  if bool_decide (len (rh_epochPromises (ln_rh ln)) = 0) then []
  else if env_forward env then [LrForward (pe_ReplacerID pe) (rh_epochPromises (ln_rh ln))] else [].

(** The acceptor's state, by strategy; [None] is the nil pointer. *)
Definition get_acceptor_state ln (pe : PrepareEpoch) : res (LrNode * option AcceptorSlotMap) :=
  if bool_decide (strategy = 1) || bool_decide (strategy = 2) then
    '(acc, sm) ← handleStateRequest (ln_grp ln) (ln_acc ln) (pe_SlotMarker pe);
    mret (ln <| ln_acc := acc |>, Some sm)
  else if bool_decide (strategy = 3) then mret (ln, Some (handleSlotRequest (ln_acc ln)))
  else mret (ln, None).

Definition gen_epoch_promise ln (pe : PrepareEpoch) (node : Node) (es : list Epoch) (st : option AcceptorSlotMap) : EpochPromise :=
  match st with
  | Some st =>
      if bool_decide (strategy = 3) then mkEP (rh_id (ln_rh ln)) node es (asm_MaxSeen st) st
      else mkEP (rh_id (ln_rh ln)) node es (pe_SlotMarker pe) st
  | None => zero_EP
  end.

(** From the connection to the replacer on. *)
Definition install_replacer ln (pe : PrepareEpoch) (env : Env) : res (LrNode * list LrOut) :=
  '(ln, st) ← get_acceptor_state ln pe;
  let nm := nodeMap (ln_grp ln) in
  let '(node, found) := LookupNode nm (rh_id (ln_rh ln)) in
  if negb found then Panic
  else
    '(err, nm') ← Replace nm (pe_ReplacerID pe) (pe_ReplacerNode pe);
    let ln := ln <| ln_grp ::= λ g, g <| nodeMap := nm' |> |> in
    let ep := gen_epoch_promise ln pe node (Epochs (if env_late env then nm' else nm)) st in
    match err with
    | Some _ => Ok (ln, [LrPromise (pe_ReplacerID pe) ep])
    | None => if env_added env then Ok (ln, [LrPromise (pe_ReplacerID pe) ep]) else Panic
    end.

Definition handlePrepareEpoch ln (pe : PrepareEpoch) (env : Env) : res (LrNode * list LrOut) :=
  let fwd := if rh_replacer (ln_rh ln) && negb (rh_activated (ln_rh ln)) then forwardEpochPromises ln pe env else [] in
  e ← slice_get (Epochs (nodeMap (ln_grp ln))) (PxID (pe_ReplacerID pe));
  if negb (bool_decide (IDEpoch (pe_ReplacerID pe) > e)) then Ok (ln, fwd)
  else if bool_decide (PxID (pe_ReplacerID pe) = PxID (rh_id (ln_rh ln))) then Ok (ln, fwd)
  else if bool_decide (pe_SlotMarker pe > env_adu env) then ln ← send_self ln pe; mret (ln, fwd)
  else if negb (env_connect env) then Ok (ln, fwd)
  else '(ln, outs) ← install_replacer ln pe env; mret (ln, fwd ++ outs).

(** ** The event loop *)

(** A message waits while the channel is full. *)
Definition lr_arrive ln (pe : PrepareEpoch) : LrNode :=
  if bool_decide (len (rh_prepareEpochChan (ln_rh ln)) < rh_cap (ln_rh ln))
  then ln <| ln_rh ::= λ rh, rh <| rh_prepareEpochChan ::= λ q, q ++ [pe] |> |> else ln.

Definition lr_prepare ln (env : Env) : res (LrNode * list LrOut) :=
  match rh_prepareEpochChan (ln_rh ln) with
  | [] => mret (ln, [])
  | pe :: q => handlePrepareEpoch (ln <| ln_rh ::= λ rh, rh <| rh_prepareEpochChan := q |> |>) pe env
  end.

Definition lr_acceptor ln (ev : AccEvent) : res (LrNode * list LrOut) :=
  '(acc, outs) ← acceptor_step (ln_grp ln) (ln_acc ln) ev; mret (ln <| ln_acc := acc |>, fmap (M := list) LrAccOut outs).

Definition lr_step ln (ev : LrEvent) : res (LrNode * list LrOut) :=
  match ev with
  | LrRec m adu => handleRecMsg ln m adu
  | LrArrive pe => mret (lr_arrive ln pe, [])
  | LrPrepare env => lr_prepare ln env
  | LrEpochPromise ep => ln' ← handleEpochPromise ln ep; mret (ln', [])
  | LrAcc a => lr_acceptor ln a
  end.
End lr.

(** * The state that a replacer starts with *)

Section extraction.
Context {RO : RangeOrder} {RL : RangeOrderLaws RO}.
Implicit Types sm st : AcceptorSlotMap.

Lemma merge_slot_eq sm s : merge_slot sm s = (AcceptorSlotMap_GetSlot sm (as_ID s)).2.
Proof. unfold merge_slot. by get_slot. Qed.

Lemma merge_slots_spec l : ∀ sm, let sm' := foldl merge_slot sm l in
  (∀ j, aslot sm' j = aslot sm j) ∧ asm_Rnd sm' = asm_Rnd sm ∧ asm_MaxSeen sm ≤ asm_MaxSeen sm' ∧
  Forall (λ s, as_ID s ≤ asm_MaxSeen sm') l.
Proof.
  induction l as [|s l IH]; intros sm; cbn; [split_and!; [done|done|lia|constructor]|].
  destruct (IH (merge_slot sm s)) as (Hs & Hr & Hm & Hf). rewrite merge_slot_eq in *.
  autorewrite with go in *. split_and!; [|done|lia|].
  - intros j. rewrite Hs. by autorewrite with go.
  - constructor; [lia|done].
Qed.

(** What one promise contributes: its round and its highest slot, but no vote. *)
Lemma merge_promise_spec sm st : let sm' := merge_promise sm st in
  (∀ j, aslot sm' j = aslot sm j) ∧ asm_Rnd sm ≼ asm_Rnd sm' ∧ asm_Rnd st ≼ asm_Rnd sm' ∧
  (asm_Rnd sm' = asm_Rnd sm ∨ asm_Rnd sm' = asm_Rnd st) ∧ asm_MaxSeen sm ≤ asm_MaxSeen sm' ∧ asm_MaxSeen st ≤ asm_MaxSeen sm' ∧
  ∀ k s, asm_Slots st !! k = Some s → as_ID s ≤ asm_MaxSeen sm'.
Proof.
  cbv zeta. unfold merge_promise.
  set (sm1 := if bool_decide (Compare (asm_Rnd st) (asm_Rnd sm) = 1) then sm <| asm_Rnd := asm_Rnd st |> else sm).
  set (sm2 := if bool_decide (asm_MaxSeen st > asm_MaxSeen sm1) then sm1 <| asm_MaxSeen := asm_MaxSeen st |> else sm1).
  assert (∀ j, aslot sm2 j = aslot sm j) as Hsl by (intros j; unfold sm2, sm1; by repeat case_match).
  assert (asm_Rnd sm ≼ asm_Rnd sm1 ∧ asm_Rnd st ≼ asm_Rnd sm1 ∧ (asm_Rnd sm1 = asm_Rnd sm ∨ asm_Rnd sm1 = asm_Rnd st)) as (R1 & R2 & R3).
  { unfold sm1. case_bool_decide as Hc; cbn.
    - apply Compare_gt in Hc. split_and!; [by right|by left|by right].
    - split_and!; [by left| |by left]. apply rle_not_rlt. intros Hlt. by apply Hc, Compare_gt. }
  assert (asm_MaxSeen sm1 = asm_MaxSeen sm) as M1 by (unfold sm1; by case_match).
  assert (asm_Rnd sm2 = asm_Rnd sm1) as E2 by (unfold sm2; by case_match).
  assert (asm_MaxSeen sm ≤ asm_MaxSeen sm2 ∧ asm_MaxSeen st ≤ asm_MaxSeen sm2) as [M2 M3].
  { unfold sm2. case_bool_decide; cbn; lia. }
  destruct (merge_slots_spec (range_order 0 (asm_Slots st)).*2 sm2) as (Hs & Hr & Hm & Hf).
  rewrite Hr, E2. split_and!; [|done|done|done|lia|lia|].
  - intros j. by rewrite Hs.
  - intros k s Hk. rewrite Forall_forall in Hf. apply Hf. apply list_elem_of_fmap. exists (k, s). by rewrite elem_of_range_order.
Qed.

(** What the replacer takes over from a quorum of epoch promises: the highest
    round, which it will not go below, and a slot number that no slot of the
    promises exceeds; but none of the votes in the promises. *)
Theorem extractAcceptorState_spec (eps : list EpochPromise) (vqIndices : list Z) :
  Forall (λ i, 0 ≤ i < len eps) vqIndices →
  ∃ sm, extractAcceptorState eps vqIndices = Ok sm ∧
    (∀ i ep, i ∈ vqIndices → slice_get eps i = Ok ep →
      asm_Rnd (ep_AccState ep) ≼ asm_Rnd sm ∧ asm_MaxSeen (ep_AccState ep) ≤ asm_MaxSeen sm ∧
      ∀ k s, asm_Slots (ep_AccState ep) !! k = Some s → as_ID s ≤ asm_MaxSeen sm) ∧
    (asm_Rnd sm = ZeroRound ∨ ∃ i ep, i ∈ vqIndices ∧ slice_get eps i = Ok ep ∧ asm_Rnd sm = asm_Rnd (ep_AccState ep)) ∧
    ∀ j, as_VRnd (aslot sm j) = ZeroRound ∧ as_VVal (aslot sm j) = zero_Value.
Proof.
  intros Hf. unfold extractAcceptorState.
  assert (∀ j, aslot NewAcceptorSlotMap j = new_aslot j) as H0 by done.
  assert (asm_Rnd NewAcceptorSlotMap = ZeroRound ∨ ∃ i ep, i ∈ @nil Z ∧ slice_get eps i = Ok ep ∧ asm_Rnd NewAcceptorSlotMap = asm_Rnd (ep_AccState ep)) as Hr by (by left).
  enough (∃ sm, foldM (λ slotMap idx, ep ← slice_get eps idx; mret (merge_promise slotMap (ep_AccState ep))) NewAcceptorSlotMap vqIndices = Ok sm ∧
    asm_Rnd NewAcceptorSlotMap ≼ asm_Rnd sm ∧ asm_MaxSeen NewAcceptorSlotMap ≤ asm_MaxSeen sm ∧
    (∀ i ep, i ∈ vqIndices → slice_get eps i = Ok ep → asm_Rnd (ep_AccState ep) ≼ asm_Rnd sm ∧ asm_MaxSeen (ep_AccState ep) ≤ asm_MaxSeen sm ∧
      ∀ k s, asm_Slots (ep_AccState ep) !! k = Some s → as_ID s ≤ asm_MaxSeen sm) ∧
    (asm_Rnd sm = asm_Rnd NewAcceptorSlotMap ∨ ∃ i ep, i ∈ vqIndices ∧ slice_get eps i = Ok ep ∧ asm_Rnd sm = asm_Rnd (ep_AccState ep)) ∧
    ∀ j, aslot sm j = aslot NewAcceptorSlotMap j) as (sm & Hrun & _ & _ & Hq & Hm & Hs).
  { exists sm. split_and!; [done..|]. intros j. by rewrite Hs. }
  clear H0 Hr. generalize NewAcceptorSlotMap as sm0.
  induction vqIndices as [|i idx IH]; intros sm0; cbn [foldM].
  { exists sm0. split_and!; [done|by left|lia|by intros ? ? ?%elem_of_nil|by left|done]. }
  apply Forall_cons in Hf as [Hi Hf]. destruct (slice_get_total eps i Hi) as [ep Hep]. rewrite Hep. cbn [mbind res_bind mret res_ret].
  destruct (merge_promise_spec sm0 (ep_AccState ep)) as (Hs1 & R1 & R2 & R3 & M1 & M2 & M3).
  destruct (IH Hf (merge_promise sm0 (ep_AccState ep))) as (sm & Hrun & Hr & Hm & Hq & Hw & Hs).
  exists sm. split; [done|]. split; [by eapply rle_trans|]. split; [lia|]. split_and!.
  - intros j ep' [->|Hj]%elem_of_cons; [|by apply Hq]. rewrite Hep. intros [= <-].
    split; [by eapply rle_trans|]. split; [lia|]. intros k s Hk%M3. lia.
  - destruct Hw as [Hw|(j & ep' & ? & ? & ?)].
    + destruct R3 as [E|E]; rewrite Hw, E; [by left|]. right. exists i, ep. split_and!; [left|done|done].
    + right. exists j, ep'. split_and!; [by right|done|done].
  - intros j. by rewrite Hs.
Qed.
End extraction.

(** * The node map of a replica *)

Section epochs.
Context {RO : RangeOrder} {RL : RangeOrderLaws RO}.
Context (strategy : Z).
Implicit Types (ln : LrNode) (nm : NodeMap).

Lemma memoize_frame nm : epochs (memoize nm) = epochs nm ∧ quorum (memoize nm) = quorum nm ∧ nrOfNodes (memoize nm) = nrOfNodes nm ∧
  nodes (memoize nm) = nodes nm.
Proof. unfold memoize, memoizeActorIDs. by rewrite memoize_loop. Qed.

(** An epoch is known of every position of the ring; a position without a node
    has epoch zero. *)
Record map_inv nm : Prop := {
  mi_wf : nodemap_wf nm;
  mi_nonneg p e : epochs nm !! p = Some e → 0 ≤ e;
  mi_free p e : epochs nm !! p = Some e → e = 0 ∨ ∃ id n, nodes nm !! id = Some n ∧ PxID id = Z.of_nat p;
}.

Definition epochs_le nm nm' : Prop := Forall2 Z.le (epochs nm) (epochs nm').
#[local] Instance epochs_le_refl : Reflexive epochs_le.
Proof. intros nm. apply Forall2_same_length_lookup_2; [done|]. intros i x y H1 H2. rewrite H1 in H2. injection H2 as ->. lia. Qed.
#[local] Instance epochs_le_trans : Transitive epochs_le.
Proof. intros a b c H1 H2. unfold epochs_le in *. by etrans. Qed.

(** The map has a later epoch at one position, or is the same. *)
Definition map_step nm nm' : Prop :=
  map_inv nm' ∧ epochs_le nm nm' ∧ Quorum nm' = Quorum nm ∧ nrOfNodes nm' = nrOfNodes nm.
#[local] Instance map_step_trans : Transitive map_step.
Proof. intros a b c (_ & H1 & E1 & F1) (? & H2 & E2 & F2). unfold map_step. split_and!; [done|by etrans|congruence..]. Qed.

Lemma map_step_refl nm : map_inv nm → map_step nm nm.
Proof. intros Hi. unfold map_step. by split_and!. Qed.

Lemma epochs_set nm nm' p e es :
  map_inv nm → nodemap_wf nm' → slice_set (epochs nm) p e = Ok es → epochs nm' = es → 0 ≤ e →
  (∀ old, epochs nm !! Z.to_nat p = Some old → old ≤ e) → (∃ id n, nodes nm' !! id = Some n ∧ PxID id = p) →
  (∀ id n, nodes nm !! id = Some n → PxID id ≠ p → is_Some (nodes nm' !! id)) →
  Quorum nm' = Quorum nm → nrOfNodes nm' = nrOfNodes nm → map_step nm nm'.
Proof.
  intros Hi Hwf [Hp ->]%slice_set_Ok Ees He Hold Hown Hothers Hq Hnn. unfold map_step. split_and!; [|unfold epochs_le|done|done].
  - split; [done| |]; rewrite Ees; intros q x; (destruct (decide (q = Z.to_nat p)) as [->|];
      [rewrite list_lookup_insert_eq by lia; intros [= <-]|rewrite list_lookup_insert_ne by done]).
    + done.
    + apply Hi.
    + right. destruct Hown as (id1 & n1 & ? & ?). exists id1, n1. split; [done|lia].
    + intros [?|(id1 & n1 & Hid & Epx)]%(mi_free _ Hi); [by left|]. right. destruct (Hothers id1 n1 Hid) as [n2 ?]; [lia|]. by exists id1, n2.
  - rewrite Ees. apply Forall2_same_length_lookup_2; [by rewrite length_insert|].
    intros q x y Hx. destruct (decide (q = Z.to_nat p)) as [->|].
    + rewrite list_lookup_insert_eq by lia. intros [= <-]. by apply Hold.
    + rewrite list_lookup_insert_ne by done. rewrite Hx. intros [= <-]. lia.
Qed.

Lemma Add_step nm id node e nm' : map_inv nm → 0 ≤ IDEpoch id → Add nm id node = Ok (e, nm') → map_step nm nm'.
Proof.
  intros Hi He Hrun. destruct (Add_spec nm id node (mi_wf _ Hi)) as (e1 & nm1 & Hrun1 & Hwf & Hspec).
  rewrite Hrun in Hrun1. injection Hrun1 as <- <-. destruct e as [[]|].
  all: try (destruct Hspec as [-> _]; by apply map_step_refl). { done. }
  destruct Hspec as (Hp & Hnodes & Hfree). unfold Add in Hrun.
  destruct (bool_decide _ || bool_decide _); [done|]. destruct (LookupNode nm id).2; [done|].
  destruct (LookupNodeWithPaxosID nm (PxID id)).2; [done|]. apply bind_Ok in Hrun as (es & Hes & [= <-]).
  destruct (memoize_frame (nm <| nodes ::= <[id := node]> |> <| epochs := es |>)) as (E1 & E2 & E3 & E4). cbn in *.
  eapply (epochs_set nm _ (PxID id) (IDEpoch id) es); try done.
  - intros old [->|(id' & n' & Hid & Epx)]%(mi_free _ Hi); [done|]. exfalso. apply (Hfree id' n' Hid). lia.
  - exists id, node. by rewrite E4, lookup_insert_eq.
  - intros id' n' Hid Hne. rewrite E4. destruct (decide (id = id')) as [->|]; [by rewrite lookup_insert_eq|].
    rewrite lookup_insert_ne by done. by eexists.
Qed.

Lemma Replace_step nm newID newNode e nm' old :
  map_inv nm → slice_get (epochs nm) (PxID newID) = Ok old → old < IDEpoch newID → Replace nm newID newNode = Ok (e, nm') → map_step nm nm'.
Proof.
  intros Hi Hold Hlt Hrun. destruct (Replace_spec nm newID newNode (mi_wf _ Hi)) as (e1 & nm1 & Hrun1 & Hwf & Hspec).
  rewrite Hrun in Hrun1. injection Hrun1 as <- <-. destruct e as [[]|].
  all: try done. { destruct Hspec as [-> _]. by apply map_step_refl. }
  destruct Hspec as (oldID & oldNode & Hoid & Hpx & Hnodes & _). unfold Replace in Hrun.
  destruct (LookupNodeWithPaxosID nm (PxID newID)) as [[o on] []]; [|done]. cbn [negb] in Hrun. apply bind_Ok in Hrun as (es & Hes & [= <-]).
  match goal with |- map_step _ (memoize ?x) => destruct (memoize_frame x) as (E1 & E2 & E3 & E4) end. cbn in E1, E2, E3.
  apply slice_get_Ok in Hold as [_ Hold].
  eapply (epochs_set nm _ (PxID newID) (IDEpoch newID) es); try done.
  - apply (mi_nonneg _ Hi) in Hold. lia.
  - intros x Hx. rewrite Hold in Hx. injection Hx as <-. lia.
  - exists newID, newNode. by rewrite Hnodes, lookup_insert_eq.
  - intros id n Hid Hne. rewrite Hnodes. destruct (decide (newID = id)) as [->|]; [by rewrite lookup_insert_eq|].
    rewrite lookup_insert_ne by done. rewrite lookup_delete_ne; [by eexists|]. intros ->. congruence.
Qed.

(** What the rest of a step leaves alone. *)
Lemma send_self_frame ln pe ln' : send_self ln pe = Ok ln' →
  ln_grp ln' = ln_grp ln ∧ ln_acc ln' = ln_acc ln ∧ rh_replacer (ln_rh ln') = rh_replacer (ln_rh ln) ∧
  rh_activated (ln_rh ln') = rh_activated (ln_rh ln) ∧ rh_epochPromises (ln_rh ln') = rh_epochPromises (ln_rh ln).
Proof. unfold send_self. case_match; intros [= <-]. by split_and!. Qed.

Lemma get_acceptor_state_frame ln pe ln' st : get_acceptor_state strategy ln pe = Ok (ln', st) →
  ln_grp ln' = ln_grp ln ∧ ln_rh ln' = ln_rh ln ∧ a_slots (ln_acc ln') = a_slots (ln_acc ln) ∧ a_lowSlot (ln_acc ln') = a_lowSlot (ln_acc ln).
Proof.
  unfold get_acceptor_state, handleStateRequest. intros Hrun.
  destruct (bool_decide (strategy = 1) || bool_decide (strategy = 2)); [|destruct (bool_decide (strategy = 3)); res_inv; by simplify_eq].
  apply bind_Ok in Hrun as ([acc sm] & Hst & [= <- <-]). apply bind_Ok in Hst as (sm' & _ & [= <- <-]). done.
Qed.

Definition same_promises ln ln' : Prop :=
  rh_replacer (ln_rh ln') = rh_replacer (ln_rh ln) ∧ rh_activated (ln_rh ln') = rh_activated (ln_rh ln) ∧
  rh_epochPromises (ln_rh ln') = rh_epochPromises (ln_rh ln).

Lemma handlePrepareEpoch_step ln pe env ln' outs :
  map_inv (nodeMap (ln_grp ln)) → handlePrepareEpoch strategy ln pe env = Ok (ln', outs) →
  map_step (nodeMap (ln_grp ln)) (nodeMap (ln_grp ln')) ∧ same_promises ln ln'.
Proof.
  intros Hi Hrun. unfold handlePrepareEpoch in Hrun. apply bind_Ok in Hrun as (e & He & Hrun).
  assert (map_step (nodeMap (ln_grp ln)) (nodeMap (ln_grp ln)) ∧ same_promises ln ln) as Hrefl by (split; [by apply map_step_refl|done]).
  case_bool_decide as Hep; cbn [negb] in Hrun; [|by injection Hrun as <- _].
  case_bool_decide; [by injection Hrun as <- _|].
  case_bool_decide. { apply bind_Ok in Hrun as (ln1 & (Eg & _ & ? & ? & ?)%send_self_frame & [= <- <-]). rewrite Eg. by split. }
  destruct (env_connect env); cbn [negb] in Hrun; [|by injection Hrun as <- _].
  apply bind_Ok in Hrun as ([ln1 o1] & Hrun & [= <- <-]). unfold install_replacer in Hrun.
  apply bind_Ok in Hrun as ([ln2 st] & (Eg & Er & _)%get_acceptor_state_frame & Hrun).
  destruct (LookupNode _ _) as [node found]. destruct found; [|done]. cbn [negb] in Hrun.
  apply bind_Ok in Hrun as ([err nm'] & Hrep & Hrun). rewrite Eg in Hrep.
  assert (map_step (nodeMap (ln_grp ln)) nm') by (eapply Replace_step; [done|done| |done]; lia).
  destruct err; [|destruct (env_added env); [|done]]; injection Hrun as <- _; (split; [done|]); by split_and!; cbn; rewrite Er.
Qed.

Lemma handleEpochPromise_map ln ep ln' :
  map_inv (nodeMap (ln_grp ln)) → 0 ≤ IDEpoch (ep_ID ep) → handleEpochPromise strategy ln ep = Ok ln' →
  map_step (nodeMap (ln_grp ln)) (nodeMap (ln_grp ln')).
Proof.
  intros Hi He Hrun. unfold handleEpochPromise in Hrun.
  destruct (rh_replacer (ln_rh ln)); cbn [negb] in Hrun; [|injection Hrun as <-; by apply map_step_refl].
  apply bind_Ok in Hrun as ([err nm] & Hadd & Hrun). apply Add_step in Hadd; [|done..].
  assert (∀ x, nodeMap (ln_grp x) = nm → map_step (nodeMap (ln_grp ln)) (nodeMap (ln_grp x))) as Hend by (intros x ->; done).
  destruct (rh_activated _); [injection Hrun as <-; by apply Hend|].
  case_bool_decide; [injection Hrun as <-; by apply Hend|].
  apply bind_Ok in Hrun as ([vq idx] & _ & Hrun). destruct vq; cbn [negb] in Hrun; [|injection Hrun as <-; by apply Hend].
  apply bind_Ok in Hrun as (st & _ & [= <-]). by apply Hend.
Qed.

(** The messages' epochs are unsigned. *)
Definition ev_ok (ev : LrEvent) : Prop :=
  match ev with LrEpochPromise ep => 0 ≤ IDEpoch (ep_ID ep) | _ => True end.

Lemma lr_step_map ln ev ln' outs :
  map_inv (nodeMap (ln_grp ln)) → ev_ok ev → lr_step strategy ln ev = Ok (ln', outs) →
  map_step (nodeMap (ln_grp ln)) (nodeMap (ln_grp ln')) ∧
  match ev with LrEpochPromise _ => True | _ => same_promises ln ln' end.
Proof.
  intros Hi Hok Hrun. destruct ev as [m adu|pe|env|ep|a]; cbn [lr_step] in Hrun.
  - unfold handleRecMsg in Hrun. apply bind_Ok in Hrun as ([pe|] & _ & Hrun).
    + apply bind_Ok in Hrun as (ln1 & (Eg & _ & ? & ? & ?)%send_self_frame & [= <- <-]). rewrite Eg. split; [by apply map_step_refl|done].
    + injection Hrun as <- <-. split; [by apply map_step_refl|done].
  - injection Hrun as <- <-. unfold lr_arrive. case_match; (split; [by apply map_step_refl|done]).
  - unfold lr_prepare in Hrun. destruct (rh_prepareEpochChan (ln_rh ln)) as [|pe q]; [injection Hrun as <- <-; split; [by apply map_step_refl|done]|].
    by apply handlePrepareEpoch_step in Hrun.
  - apply bind_Ok in Hrun as (ln1 & Hrun & [= <- <-]). split; [|done]. by eapply handleEpochPromise_map.
  - unfold lr_acceptor in Hrun. apply bind_Ok in Hrun as ([acc o] & _ & [= <- <-]). split; [by apply map_step_refl|done].
Qed.
End epochs.

(** In every run of a replica's replacement handler its node map stays well
    formed and its vector of epochs, by which messages are judged, only grows. *)
Theorem epochs_grow (RO : RangeOrder) (RL : RangeOrderLaws RO) (strategy : Z) (ln ln' : LrNode) (evs : list LrEvent) (outs : list LrOut) :
  map_inv (nodeMap (ln_grp ln)) → Forall ev_ok evs → run (lr_step strategy) ln evs ln' outs →
  nodemap_wf (nodeMap (ln_grp ln')) ∧ Forall2 Z.le (Epochs (nodeMap (ln_grp ln))) (Epochs (nodeMap (ln_grp ln'))) ∧
  Quorum (nodeMap (ln_grp ln')) = Quorum (nodeMap (ln_grp ln)).
Proof.
  intros Hi Hok Hr.
  enough (map_step (nodeMap (ln_grp ln)) (nodeMap (ln_grp ln'))) as ([? _] & ? & ? & _) by done.
  induction Hr as [|evs ln1 o1 ev ln2 o2 Hr IH Hs]; [by apply map_step_refl|].
  apply Forall_app in Hok as [Hok [Hev _]%Forall_cons]. specialize (IH Hok). pose proof IH as (Hi1 & _).
  apply lr_step_map in Hs as [Hs _]; [|done..]. by eapply map_step_trans.
Qed.

(** * Activation *)

Definition promises_of (evs : list LrEvent) : list EpochPromise :=
  omap (λ ev, match ev with LrEpochPromise ep => Some ep | _ => None end) evs.
Lemma promises_of_app e1 e2 : promises_of (e1 ++ e2) = promises_of e1 ++ promises_of e2.
Proof. apply omap_app. Qed.

Lemma binomial_mono n m k : (n ≤ m)%nat → binomial n k ≤ binomial m k.
Proof.
  intros Hnm. induction Hnm as [|m _ IH]; [lia|]. etrans; [exact IH|]. destruct k as [|k]; [by destruct m|].
  cbn [binomial]. rewrite <- (length_combs m k 0). lia.
Qed.

Section activation.
Context {RO : RangeOrder} {RL : RangeOrderLaws RO}.
Context (strategy : Z).

Lemma StronglySorted_impl {A} (R S : A → A → Prop) (l : list A) :
  (∀ x y, R x y → S x y) → StronglySorted R l → StronglySorted S l.
Proof. intros HRS. induction 1; constructor; [done|]. eapply Forall_impl; [done|]. auto. Qed.

(** A valid quorum stays one when more promises arrive. *)
Lemma valid_quorum_app (l l' : list EpochPromise) q idx : valid_quorum l q idx → valid_quorum (l ++ l') q idx.
Proof.
  intros (Hl & Hs & Hf & Hc). split_and!; [done|done| |].
  - eapply Forall_impl; [done|]. cbn. rewrite length_app. lia.
  - eapply StronglySorted_impl; [|done]. intros i j (a & b & Ha & Hb & Hab). exists a, b.
    apply slice_get_Ok in Ha as [? Ha], Hb as [? Hb]. split_and!; [| |done]; apply slice_get_Ok; (split; [done|]).
    + by apply lookup_app_l_Some.
    + by apply lookup_app_l_Some.
Qed.

(** The promises of a run in which the search is total. *)
Definition promises_ok (eps : list EpochPromise) (q : Z) : Prop :=
  epochs_cover eps ∧ 1 ≤ q < 2 ^ 63 ∧ len eps < 2 ^ 63 ∧ binomial (length eps) (Z.to_nat q) < 2 ^ 63.

Lemma promises_ok_app l l' q : promises_ok (l ++ l') q → promises_ok l q.
Proof.
  intros (Hc & Hq & Hl & Hb). rewrite length_app in *. split_and!; [|lia..|].
  - intros a b Ha Hb'. apply Hc; rewrite elem_of_app; by left.
  - eapply Z.le_lt_trans; [|done]. apply binomial_mono. lia.
Qed.

Lemma handleEpochPromise_activation ln ep q : let eps := rh_epochPromises (ln_rh ln) ++ [ep] in
  rh_replacer (ln_rh ln) = true → rh_activated (ln_rh ln) = false → map_inv (nodeMap (ln_grp ln)) → 0 ≤ IDEpoch (ep_ID ep) →
  Quorum (nodeMap (ln_grp ln)) = q → promises_ok eps q →
  ∃ ln', handleEpochPromise strategy ln ep = Ok ln' ∧ rh_replacer (ln_rh ln') = true ∧ rh_epochPromises (ln_rh ln') = eps ∧
    if rh_activated (ln_rh ln') then ∃ idx, valid_quorum eps q idx else ∀ idx, ¬ valid_quorum eps q idx.
Proof.
  cbv zeta. intros Hrep Hact Hi He Hq (Hc & Hq1 & Hl & Hb). set (eps := rh_epochPromises (ln_rh ln) ++ [ep]) in *.
  unfold handleEpochPromise. rewrite Hrep. cbn [negb].
  destruct (Add_spec (nodeMap (ln_grp ln)) (ep_ID ep) (ep_Sender ep) (mi_wf _ Hi)) as (e & nm & Hadd & _).
  rewrite Hadd. cbn [mbind res_bind]. apply Add_step in Hadd as (_ & _ & Eq & _); [|done..].
  cbn [ln_rh update ln_grp rh_activated rh_epochPromises nodeMap]. rewrite Hact. fold eps. rewrite Eq, Hq.
  destruct (extractVq_spec eps q Hc Hq1 Hl Hb) as (ok & idx & Hrun & Hres). unfold extractValidQuorumEp.
  rewrite u64_small by lia. case_bool_decide as Hlen.
  - eexists. split; [done|]. cbn. rewrite Hrep. split_and!; [done..|].
    unfold extractVq in Hrun. destruct (decide (len eps = 0)); [injection Hrun as <- <-; by apply Hres|].
    rewrite u64_small, decide_True in Hrun by lia. injection Hrun as <- <-. by apply Hres.
  - rewrite Hrun. cbn [mbind res_bind]. destruct ok; cbn [negb].
    + destruct (extractAcceptorState_spec eps idx) as (sm & -> & _); [apply Hres|]. cbn. eexists. split; [done|]. cbn. rewrite Hrep. eauto.
    + eexists. split; [done|]. cbn. rewrite Hrep. split_and!; [done..|]. apply Hres.
Qed.
End activation.

(** A replacer at its start. *)
Definition fresh_replacer (ln : LrNode) : Prop :=
  rh_replacer (ln_rh ln) = true ∧ rh_activated (ln_rh ln) = false ∧ rh_epochPromises (ln_rh ln) = [] ∧ map_inv (nodeMap (ln_grp ln)).

(** C24: a replacer is activated exactly when a valid quorum is among the epoch
    promises that have arrived: a quorum size of them from different replicas,
    none of which has an older epoch than another one knows of. *)
Theorem activated_iff_quorum (RO : RangeOrder) (RL : RangeOrderLaws RO) (strategy : Z) (ln ln' : LrNode) (evs : list LrEvent) (outs : list LrOut) :
  let q := Quorum (nodeMap (ln_grp ln)) in
  fresh_replacer ln → Forall ev_ok evs → promises_ok (promises_of evs) q → run (lr_step strategy) ln evs ln' outs →
  (rh_activated (ln_rh ln') = true ↔ ∃ idx, valid_quorum (promises_of evs) q idx).
Proof.
  cbv zeta. set (q := Quorum (nodeMap (ln_grp ln))). intros (Hrep & Hact & Heps & Hi) Hok Hp Hr.
  enough (map_inv (nodeMap (ln_grp ln')) ∧ Quorum (nodeMap (ln_grp ln')) = q ∧ rh_replacer (ln_rh ln') = true ∧
    if rh_activated (ln_rh ln') then ∃ idx, valid_quorum (promises_of evs) q idx
    else rh_epochPromises (ln_rh ln') = promises_of evs ∧ ∀ idx, ¬ valid_quorum (promises_of evs) q idx) as (_ & _ & _ & Hres).
  { destruct (rh_activated (ln_rh ln')); [done|]. destruct Hres as [_ Hno]. split; [done|]. intros [idx ?]. by destruct (Hno idx). }
  induction Hr as [|evs ln1 o1 ev ln2 o2 Hr IH Hs].
  { split_and!; [done..|]. rewrite Hact. split; [done|]. intros idx (El & _ & Hf & _). destruct Hp as (_ & ? & _).
    destruct idx as [|i idx]; [cbn in El; lia|]. apply Forall_cons in Hf as [Hf _]. cbn in Hf. lia. }
  apply Forall_app in Hok as [Hok [Hev _]%Forall_cons]. rewrite promises_of_app in Hp |- *.
  destruct (IH Hok (promises_ok_app _ _ _ Hp)) as (Hi1 & Hq1 & Hrep1 & Hst). clear IH.
  pose proof (lr_step_map _ _ _ _ _ Hi1 Hev Hs) as [(Hi2 & _ & Hq2 & _) Hsame]. split; [done|]. split; [congruence|].
  destruct ev as [m adu|pe|env|ep|a]; try (destruct Hsame as (E1 & E2 & E3); rewrite E1, E2, E3, app_nil_r; by split).
  cbn [lr_step] in Hs. apply bind_Ok in Hs as (ln3 & Hs & [= <- <-]). cbn [promises_of omap list_omap] in *.
  destruct (rh_activated (ln_rh ln1)) eqn:Ea.
  - unfold handleEpochPromise in Hs. rewrite Hrep1 in Hs. cbn [negb] in Hs. apply bind_Ok in Hs as ([e nm] & _ & Hs).
    cbn [ln_rh update rh_activated] in Hs. rewrite Ea in Hs. injection Hs as <-. cbn. rewrite Hrep1, Ea. split; [done|].
    destruct Hst as [idx Hidx]. exists idx. by apply valid_quorum_app.
  - destruct Hst as [Ee Hno].
    destruct (handleEpochPromise_activation strategy ln1 ep q) as (ln4 & Hrun & Hrep4 & He4 & Hres); [done..|by rewrite Ee|].
    rewrite Hrun in Hs. injection Hs as ->. rewrite Ee in *. split; [done|]. destruct (rh_activated (ln_rh ln3)); [done|]. by split.
Qed.

(** * Promising an epoch *)

(** A replica that is told of a replacement for another position, in a later
    epoch, promises: it sends its acceptor's round and exactly its slots above
    the slot marker, and replaces the old node. The promise's epochs are those
    of the node map, before or after the replacement. *)
Theorem prepare_epoch_promise (RO : RangeOrder) (RL : RangeOrderLaws RO) (strategy : Z) (ln : LrNode) (pe : PrepareEpoch) (env : Env)
    (node oldNode : Node) (oldID : ID) :
  let nm := nodeMap (ln_grp ln) in let slots := a_slots (ln_acc ln) in
  map_inv nm → strategy = 1 ∨ strategy = 2 → nodes nm !! rh_id (ln_rh ln) = Some node →
  nodes nm !! oldID = Some oldNode → PxID oldID = PxID (pe_ReplacerID pe) → IDEpoch oldID < IDEpoch (pe_ReplacerID pe) →
  PxID oldID ≠ PxID (rh_id (ln_rh ln)) → 0 ≤ pe_SlotMarker pe ≤ env_adu env → env_adu env < 2 ^ 64 - 1 → asm_MaxSeen slots < 2 ^ 64 - 1 →
  env_connect env = true → env_added env = true →
  ∃ ln' fwd ep, handlePrepareEpoch strategy ln pe env = Ok (ln', fwd ++ [LrPromise (pe_ReplacerID pe) ep]) ∧
    ep_ID ep = rh_id (ln_rh ln) ∧ ep_Sender ep = node ∧ ep_SlotMarker ep = pe_SlotMarker pe ∧
    asm_Rnd (ep_AccState ep) = asm_Rnd slots ∧
    (∀ i, asm_Slots (ep_AccState ep) !! i = if decide (pe_SlotMarker pe < i ≤ asm_MaxSeen slots) then asm_Slots slots !! i else None) ∧
    a_slots (ln_acc ln') = slots ∧
    nodes (nodeMap (ln_grp ln')) = <[pe_ReplacerID pe := pe_ReplacerNode pe]> (delete oldID (nodes nm)) ∧
    ep_EpochVector ep = Epochs (if env_late env then nodeMap (ln_grp ln') else nm).
Proof.
  cbv zeta. intros Hi Hstr Hown Hold Hpx Hep Hne Hm Hadu Hmax Hconn Hadded.
  unfold handlePrepareEpoch. unfold Epochs at 1. rewrite <- Hpx.
  rewrite (proj2 (slice_get_Ok (epochs (nodeMap (ln_grp ln))) (PxID oldID) (IDEpoch oldID))).
  2:{ split; [eapply wf_px; [apply Hi|done]|]. eapply wf_epoch; [apply Hi|done]. }
  cbn [mbind res_bind]. rewrite bool_decide_eq_true_2 by lia. cbn [negb]. rewrite bool_decide_eq_false_2 by done.
  rewrite bool_decide_eq_false_2 by lia. rewrite Hconn. cbn [negb].
  unfold install_replacer, get_acceptor_state, handleStateRequest.
  assert (bool_decide (strategy = 1) || bool_decide (strategy = 2) = true) as -> by (apply orb_true_iff; rewrite !bool_decide_eq_true; lia).
  destruct (CopyAccSlotMapRange_spec (pe_SlotMarker pe) (a_slots (ln_acc ln))) as (sm & -> & Hrnd & Hslots & _); [lia|done|].
  cbn [mbind res_bind mret res_ret]. unfold LookupNode. cbn [ln_grp ln_rh update]. rewrite Hown. cbn [negb].
  destruct (Replace_spec (nodeMap (ln_grp ln)) (pe_ReplacerID pe) (pe_ReplacerNode pe) (mi_wf _ Hi)) as (e & nm' & Hrep & _ & Hspec).
  rewrite Hrep. cbn [mbind res_bind]. destruct e as [[]|]; try done.
  - destruct Hspec as [_ Hno]. by destruct (Hno oldID oldNode Hold).
  - destruct Hspec as (oldID' & n' & Hold' & Hpx' & Hnodes & _).
    assert (oldID' = oldID) as -> by (eapply wf_uniq; [apply Hi|done..|congruence]).
    rewrite Hadded. unfold gen_epoch_promise. rewrite (bool_decide_eq_false_2 (strategy = 3)) by lia.
    do 3 eexists. split; [done|]. cbn. split_and!; try done.
Qed.

(** * A vote that is lost *)

(** Three replicas under live replacement, of which replica 1 is replaced. *)
Definition lx_gm (i : ID) (nm : NodeMap) : GrpMgr := NewGrpMgr i nm true false.
Definition lx_node (i : Z) : LrNode :=
  let g := lx_gm (ex_id i) ex_nodemap in
  mkLN (NewReplacementHandler (ex_id i) false 2) g (NewMultiAcceptor g (ex_id i) true (ex_id 0) 0).
Definition lx_new : ID := mkID 1 2.
Definition lx_new_nodes : gmap ID Node := {[ ex_id 0 := ex_node; lx_new := ex_node; ex_id 2 := ex_node ]}.
Definition lx_new_nodemap : NodeMap :=
  match GenerateNodeMapAndConfig "livereplacement" (mkTW lx_new lx_new_nodes) with Ok (Some nm) => nm | _ => ex_nodemap end.
Definition lx_replacer : LrNode :=
  let g := lx_gm lx_new lx_new_nodemap in
  mkLN (NewReplacementHandler lx_new true 2) g (NewMultiAcceptor g lx_new true (ex_id 0) 0).
Definition lx_learner (i : Z) : MultiLearner := NewMultiLearner (lx_gm (ex_id i) ex_nodemap) (ex_id i) true (ex_id 0) 1.
Definition lx_proposer (g : GrpMgr) : MultiProposer := NewMultiProposer g (ex_id 2) true (ex_id 0) 3 1.

Definition out_learns (outs : list LrOut) : list Learn :=
  omap (λ o, match o with LrAccOut (AccSend (OBcast (MLearn m))) => Some m | _ => None end) outs.
Definition out_promises (outs : list LrOut) : list Promise :=
  omap (λ o, match o with LrAccOut (AccSend (OUcast _ (MPromise m))) => Some m | _ => None end) outs.
Definition out_eps (outs : list LrOut) : list EpochPromise :=
  omap (λ o, match o with LrPromise _ m => Some m | _ => None end) outs.
Definition out_prepares (outs : list PropOut) : list Prepare :=
  omap (λ o, match o with PropSend (OBcast (MPrepare m)) => Some m | _ => None end) outs.
Definition out_accepts (outs : list PropOut) : list Accept :=
  omap (λ o, match o with PropSend (OBcast (MAccept m)) => Some m | _ => None end) outs.

Definition feed {G S E O} (f : G → S → E → res (S * list O)) (g : G) (s : S) (evs : list E) : res (S * list O) :=
  foldM (λ '(s, outs) ev, '(s, o) ← f g s ev; mret (s, outs ++ o)) (s, []) evs.
Definition lr_feed (strategy : Z) (ln : LrNode) (evs : list LrEvent) : res (LrNode * list LrOut) :=
  feed (λ _ : (), lr_step strategy) () ln evs.

(** Replicas 0 and 1 vote for a value of slot 1. Replica 1 is replaced, with the
    epoch promises of 0 and 2. Replica 2 becomes leader with the promises of the
    replacer and itself, and has their votes for its own value. *)
Definition lost_vote (strategy : Z) : res (list Out * list Out) :=
  let acc := mkAccept (ex_id 0) 1 (ex_rnd 1 0) (ex_val 7) in
  let env := mkEnv 0 true true true false in
  let pe := mkPE lx_new ex_node 0 in
  '(n0, o0) ← lr_feed strategy (lx_node 0) [LrAcc (AccAccept acc); LrArrive pe; LrPrepare env];
  '(_, o1) ← lr_feed strategy (lx_node 1) [LrAcc (AccAccept acc)];
  '(_, d0) ← feed learner_step (ln_grp n0) (lx_learner 0) (LrnLearn <$> out_learns (o0 ++ o1));
  '(n2, o2) ← lr_feed strategy (lx_node 2) [LrArrive pe; LrPrepare env];
  '(n1, _) ← lr_feed strategy lx_replacer (LrEpochPromise <$> out_eps (o0 ++ o2));
  '(p, po) ← feed proposer_step (ln_grp n2) (lx_proposer (ln_grp n2)) [PropTrust (ex_id 2); PropValue (ex_val 8)];
  let prepares := LrAcc <$> (AccPrepare <$> out_prepares po) in
  '(n1, o1) ← lr_feed strategy n1 prepares;
  '(n2, o2) ← lr_feed strategy n2 prepares;
  '(p, po) ← feed proposer_step (ln_grp n2) p (PropPromise <$> out_promises (o1 ++ o2));
  let accepts := LrAcc <$> (AccAccept <$> out_accepts po) in
  '(n1, o1) ← lr_feed strategy n1 accepts;
  '(n2, o2) ← lr_feed strategy n2 accepts;
  '(_, d2) ← feed learner_step (ln_grp n2) (lx_learner 2) (LrnLearn <$> out_learns (o1 ++ o2));
  mret (d0, d2).


(** * Witnesses *)

Lemma map_inv_intro (nm : NodeMap) :
  nodemap_wf nm → Forall (λ e, 0 ≤ e) (epochs nm) → (∀ p, (p < length (epochs nm))%nat → ∃ id n, nodes nm !! id = Some n ∧ PxID id = Z.of_nat p) →
  map_inv nm.
Proof.
  intros Hwf Hf Hall. split; [done| |].
  - intros p e Hp. rewrite Forall_lookup in Hf. by eapply Hf.
  - intros p e Hp%lookup_lt_Some. right. by apply Hall.
Qed.

Lemma ex_map_inv : map_inv ex_nodemap.
Proof.
  apply map_inv_intro; [apply ex_nodemap_wf|by apply (bool_decide_unpack _); vm_compute|].
  intros p Hp. assert (p < 3)%nat as Hp3 by (revert Hp; by vm_compute).
  assert (p = 0 ∨ p = 1 ∨ p = 2)%nat as [->|[->| ->]] by lia;
    [exists (ex_id 0), ex_node|exists (ex_id 1), ex_node|exists (ex_id 2), ex_node]; split; vm_compute; reflexivity.
Qed.

Lemma lx_new_map_inv : map_inv lx_new_nodemap.
Proof.
  destruct (NewNodeMapWithCount_Ok {[ lx_new := ex_node ]} 3 3) as (nm & Hrun & Hwf & Hn & _ & _); [lia|lia| |].
  { split.
    - intros id nd [<- _]%lookup_singleton_Some. cbn. lia.
    - intros id1 id2 n1 n2 [<- _]%lookup_singleton_Some [<- _]%lookup_singleton_Some _. done. }
  assert (lx_new_nodemap = nm) as ->.
  { assert (GenerateNodeMapAndConfig "livereplacement" (mkTW lx_new lx_new_nodes) = Ok (Some nm)) as E; [|unfold lx_new_nodemap; by rewrite E].
    transitivity (Some <$> NewNodeMapWithCount {[ lx_new := ex_node ]} 3 3); [vm_compute; reflexivity|by rewrite Hrun]. }
  assert (epochs nm = [0; 2; 0]) as Hes by (revert Hrun; vm_compute; by intros [= <-]).
  split; [done| |]; rewrite Hes, ?Hn.
  - intros [|[|[|p]]] e; cbn; intros [= <-]; lia.
  - intros [|[|[|p]]] e; cbn; intros [= <-]; [by left| |by left]. right. exists lx_new, ex_node. split; [vm_compute; reflexivity|done].
Qed.

(** A vote of the promise of replica 0 that the replacer does not take over. *)
Definition lx_vote : AcceptorSlot := mkAcceptorSlot 1 (ex_rnd 1 0) (ex_val 7).
Definition lx_eps : list EpochPromise :=
  [mkEP (ex_id 0) ex_node [0; 0; 0] 0 (mkAcceptorSlotMap {[ 1 := lx_vote ]} (ex_rnd 1 0) 1);
   mkEP (ex_id 2) ex_node [0; 2; 0] 0 NewAcceptorSlotMap].

Lemma extractAcceptorState_spec_witness :
  ∃ sm, extractAcceptorState lx_eps [0; 1] = Ok sm ∧ ex_rnd 1 0 ≼ asm_Rnd sm ∧ as_ID lx_vote ≤ asm_MaxSeen sm ∧ as_VRnd (aslot sm 1) = ZeroRound.
Proof.
  destruct (extractAcceptorState_spec lx_eps [0; 1]) as (sm & Hrun & Hq & _ & Hno); [by repeat constructor; vm_compute|].
  exists sm. split; [exact Hrun|]. destruct (Hq 0 (mkEP (ex_id 0) ex_node [0; 0; 0] 0 (mkAcceptorSlotMap {[ 1 := lx_vote ]} (ex_rnd 1 0) 1))) as (H1 & _ & H3); [left|reflexivity|].
  split; [exact H1|]. split; [apply (H3 1); reflexivity|]. apply (Hno 1).
Defined.

Definition lx_prepare_events : list LrEvent :=
  [LrArrive (mkPE lx_new ex_node 0); LrPrepare (mkEnv 0 true true true false)].

Lemma epochs_grow_witness :
  ∃ ln' outs, run (lr_step 1) (lx_node 0) lx_prepare_events ln' outs ∧ Epochs (nodeMap (ln_grp ln')) = [0; 2; 0] ∧
    Forall2 Z.le (Epochs (nodeMap (ln_grp (lx_node 0)))) (Epochs (nodeMap (ln_grp ln'))).
Proof.
  destruct (run_exec (lr_step 1) (lx_node 0) lx_prepare_events) as [[ln' outs]|] eqn:E; [|exfalso; revert E; vm_compute; discriminate].
  assert (Epochs (nodeMap (ln_grp ln')) = [0; 2; 0]) as He by (revert E; vm_compute; by intros [= <- <-]).
  apply run_exec_run in E. exists ln', outs. split; [exact E|]. split; [exact He|].
  apply (epochs_grow map_order _ 1 (lx_node 0) ln' lx_prepare_events outs ex_map_inv); [by repeat constructor|exact E].
Defined.

Lemma lx_eps_cover : epochs_cover lx_eps.
Proof. intros a b Ha Hb. unfold lx_eps in *. rewrite !elem_of_cons, elem_of_nil in Ha, Hb. naive_solver (cbn; lia). Qed.

Lemma activated_iff_quorum_witness :
  fresh_replacer lx_replacer ∧
  ∃ ln' outs, run (lr_step 1) lx_replacer (LrEpochPromise <$> lx_eps) ln' outs ∧ rh_activated (ln_rh ln') = true ∧
    ∃ idx, valid_quorum lx_eps 2 idx.
Proof.
  assert (fresh_replacer lx_replacer) as Hf by (split_and!; [reflexivity..|exact lx_new_map_inv]).
  split; [exact Hf|].
  destruct (run_exec (lr_step 1) lx_replacer (LrEpochPromise <$> lx_eps)) as [[ln' outs]|] eqn:E; [|exfalso; revert E; vm_compute; discriminate].
  assert (rh_activated (ln_rh ln') = true) as Ha by (revert E; vm_compute; by intros [= <- <-]).
  apply run_exec_run in E. exists ln', outs. split; [exact E|]. split; [exact Ha|].
  assert (Forall ev_ok (LrEpochPromise <$> lx_eps)) as Hok by (unfold lx_eps; cbn; repeat constructor; cbn; lia).
  assert (promises_ok lx_eps (Quorum (nodeMap (ln_grp lx_replacer)))) as Hp by (split; [exact lx_eps_cover|]; split_and!; by vm_compute).
  exact (proj1 (activated_iff_quorum map_order _ 1 lx_replacer ln' (LrEpochPromise <$> lx_eps) outs Hf Hok Hp E) Ha).
Defined.

Lemma prepare_epoch_promise_witness :
  ∃ ln' fwd ep, handlePrepareEpoch 1 (lx_node 0) (mkPE lx_new ex_node 0) (mkEnv 0 true true true false) = Ok (ln', fwd ++ [LrPromise lx_new ep]) ∧
    ep_ID ep = ex_id 0 ∧ ep_EpochVector ep = [0; 0; 0].
Proof.
  destruct (prepare_epoch_promise map_order _ 1 (lx_node 0) (mkPE lx_new ex_node 0) (mkEnv 0 true true true false) ex_node ex_node (ex_id 1) ex_map_inv)
    as (ln' & fwd & ep & Hrun & Hid & _ & _ & _ & _ & _ & _ & Hep); [by left|by vm_compute..|].
  exists ln', fwd, ep. split; [exact Hrun|]. split; [exact Hid|]. rewrite Hep. vm_compute. reflexivity.
Defined.
