(* ===== verification/ARec.v ===== *)
(** Asynchronous reconfiguration (src/arec): the replacement leader proposes a
    new configuration with a reconfiguration message; the replicas of the old
    one stop their acceptors and send configuration promises with the acceptors'
    state to the new one, which is activated by a quorum of them.

    The handler stops the acceptor by a state request whose release channel it
    keeps: while [ar_held] the acceptor's goroutine waits for the release.
    Connections (package net) and the starting of processes (nodeinit) are
    parameters. Configurations are values here: the handler sends maps that it
    goes on to use, which races with their encoding. *)
From S2P Require Import Prelude Grp PaxosTypes MultiAcceptor Liveness EpochGen RingReplacer.

(** * Messages and commands (msg.go, cmd.go) *)

Abbreviation Confs := (gmap Z (gmap ID Node)) (only parsing).

(** The names carry an A where ringreplacer has the same one. *)
Record AReconfMsg := mkARM { arm_NewEpoch : Epoch; arm_NodeMap : gmap ID Node; arm_OldIds : gmap ID bool; arm_AduSlot : SlotID }.
Record CPromise := mkCP {
  cp_ID : ID; cp_QuorumSize : Z; cp_Sender : Node; cp_NewEpoch : Epoch; cp_Confs : Confs; cp_AduSlot : SlotID; cp_AccState : AcceptorSlotMap }.
Record Activation := mkAct { act_Epoch : Epoch; act_AduSlot : SlotID; act_AccState : AcceptorSlotMap; act_Confs : Confs }.
Record AReconfCmd := mkACmd { ac_repl : list ID; ac_add : Z }.
Definition NewReconfCmdFromID (id : ID) : AReconfCmd := mkACmd [id] 0.
Definition NewReconfCmdFromSlice (ids : list ID) : AReconfCmd := mkACmd ids 0.

(** * State *)

(** [ar_setups] are the goroutines that initialise remote nodes; [ar_running]
    says that [runPaxosChan] is closed; [ar_cmdChan] is the command in the
    channel, which holds one, followed by those of goroutines that wait to send. *)
Record AReconfHandler := mkAR {
  ar_id : ID; ar_rleader : ID; ar_stateful : bool; ar_valid : bool;
  ar_acceptorState : AcceptorSlotMap; ar_accFirstSlot : SlotID; ar_inProgress : bool;
  ar_confs : Confs; ar_maxEpochSeen : Epoch; ar_cPromises : gmap Z (list CPromise);
  ar_cmdChan : list AReconfCmd; ar_running : bool;
  ar_setups : list (AReconfMsg * gmap Node TransferWrapper * AReconfCmd);
  ar_grp : GrpMgr; ar_acc : MultiAcceptor; ar_held : bool }.
#[export] Instance eta_AReconfHandler : Eta AReconfHandler := λ r,
  mkAR (ar_id r) (ar_rleader r) (ar_stateful r) (ar_valid r) (ar_acceptorState r) (ar_accFirstSlot r) (ar_inProgress r)
    (ar_confs r) (ar_maxEpochSeen r) (ar_cPromises r) (ar_cmdChan r) (ar_running r) (ar_setups r) (ar_grp r) (ar_acc r) (ar_held r).

Inductive AROut :=
| ARBcast (m : AReconfMsg)
| ARPromise (dst : ID) (cp : CPromise)
| ARNextSlot (s : SlotID)                    (* proposer.SetNextSlot *)
| ARAlive (id : ID)                          (* fd.SetAlive *)
| ARInit (nd : Node) (conf : TransferWrapper)
| ARAcc (o : AccOut).

(** [adu] is the value of the shared counter; [get_replica] what the provider answers. *)
Inductive AREvent :=
| ARFd (m : FdMsg) (adu : SlotID) (get_replica : nat → option Node)
| ARLeader (id : ID)
| ARReconf (m : AReconfMsg) (connect : ID → bool)
| ARCPromise (cp : CPromise) (adu : SlotID)
| ARActivation (ac : Activation) (adu : SlotID)
| ARCmd (adu : SlotID) (get_replica : nat → option Node)
| ARRequest (cmd : AReconfCmd)               (* RequestReconf *)
| ARSetup (init_ok : Node → bool)            (* a setup goroutine runs *)
| ARAcceptor (ev : AccEvent).

Definition NewAReconfHandler (id rleader : ID) (g : GrpMgr) (acc : MultiAcceptor) : AReconfHandler :=
  mkAR id rleader (bool_decide (IDEpoch id = 0)) true NewAcceptorSlotMap 0 false ∅ (IDEpoch id) ∅ [] false [] g acc false.

Section arec.
Context {RO : RangeOrder}.
Implicit Types rh : AReconfHandler.

(** The acceptor answers a state request and then waits; a second request would not be answered. *)
Definition acceptor_GetState rh (after : SlotID) : res AReconfHandler :=
  if ar_held rh then Diverge
  else sm ← CopyAccSlotMapRange after (Some (a_slots (ar_acc rh)));
       mret (rh <| ar_acceptorState := sm |> <| ar_held := true |>).

(** [acceptorRelease <- true]: only an acceptor that waits receives it. *)
Definition acceptor_release rh : res AReconfHandler :=
  if ar_held rh then Ok (rh <| ar_held := false |> <| ar_acc ::= λ a, a <| a_id := gm_GetID (ar_grp rh) |> |>) else Diverge.

(** The handler's own send: if the channel is full it waits for itself. *)
Definition push_cmd rh (cmd : AReconfCmd) : res AReconfHandler :=
  match ar_cmdChan rh with [] => Ok (rh <| ar_cmdChan := [cmd] |>) | _ => Diverge end.

(** ** Proposing a configuration (arec.go, init_areconfig.go) *)

Definition nodeIsReplacementLeader rh : bool := bool_decide (ar_id rh = ar_rleader rh).

Definition ar_handleFdMsg rh (m : FdMsg) : option AReconfCmd :=
  if negb (nodeIsReplacementLeader rh) then None
  else match fm_Event m with Suspect => Some (NewReconfCmdFromID (fm_ID m)) | Restore => None end.

(** The loop over the replaced nodes: the error of the provider is assigned to
    another variable than the one that is tested, so a failure gives the zero
    node; [None] is ErrInvalidID. *)
Fixpoint repl_loop (get : nat → option Node) (k : nat) (newEp : Epoch) (oldMap : gmap ID Node) (ids : list ID)
    (oldids : gmap ID bool) (newids : list ID) (newMap : gmap ID Node) : option (gmap ID bool * list ID * gmap ID Node) :=
  match ids with
  | [] => Some (oldids, newids, newMap)
  | repID :: ids =>
      match oldMap !! repID with
      | Some _ =>
          let node := default zero_Node (get k) in
          let newid := NewID (PxID repID) newEp in
          repl_loop get (S k) newEp oldMap ids (delete repID oldids) (newids ++ [newid]) (<[newid := node]> newMap)
      | None => None
      end
  end.

(** The loop over the added nodes; [None] when the provider fails. *)
Fixpoint add_loop (get : nat → option Node) (k : nat) (newEp : Epoch) (size : Z) (n : nat) (newids : list ID) (newMap : gmap ID Node)
    : option (list ID * gmap ID Node) :=
  match n with
  | O => Some (newids, newMap)
  | S n =>
      match get k with
      | None => None
      | Some node =>
          let newID := NewID (i8 size) newEp in
          add_loop get (S k) newEp (size + 1) n (newids ++ [newID]) (<[newID := node]> newMap)
      end
  end.

(** The configurations of the new nodes all refer to one map, [oldMap] after the whole loop. *)
Definition final_map (epoch : Epoch) (newMap : gmap ID Node) (newids : list ID) (oldMap : gmap ID Node) : gmap ID Node :=
  foldl (λ m id, <[id := default zero_Node (newMap !! id)]> (delete (NewID (PxID id) epoch) m)) oldMap newids.

Definition reconfSetupLocal rh (rcmd : AReconfCmd) (adu : SlotID) (get : nat → option Node)
    : option (AReconfMsg * gmap Node TransferWrapper) :=
  let newEp := getNewEpoch (ar_id rh) in
  let oldMap := CloneMap (nodeMap (ar_grp rh)) in
  let newMap := foldl (λ m '(id, node), <[NewID (PxID id) newEp := node]> m) ∅ (range_order 1 oldMap) in
  let oldids := foldl (λ m '(id, _), <[id := true]> m) ∅ (range_order 1 oldMap) in
  '(oldids, newids, newMap) ← repl_loop get 0 newEp oldMap (ac_repl rcmd) oldids [] newMap;
  '(newids, newMap) ← (if bool_decide (ac_add rcmd > 0)
                       then add_loop get (length (ac_repl rcmd)) newEp (Z.of_nat (size newMap)) (Z.to_nat (ac_add rcmd)) newids newMap
                       else Some (newids, newMap));
  let shared := final_map (IDEpoch (ar_id rh)) newMap newids oldMap in
  Some (mkARM newEp newMap oldids adu,
    foldl (λ ns id, <[default zero_Node (newMap !! id) := mkTW id shared]> ns) ∅ newids).

Definition handleReconfCmd rh (rcmd : AReconfCmd) (adu : SlotID) (get : nat → option Node) : res AReconfHandler :=
  if negb (ar_valid rh) || negb (ar_stateful rh) then Ok rh
  else if ar_inProgress rh then Ok rh
  else
    let rh := rh <| ar_inProgress := true |> in
    match reconfSetupLocal rh rcmd adu get with
    | None => push_cmd (rh <| ar_inProgress := false |>) rcmd
    | Some (rcMsg, newNodes) => Ok (rh <| ar_setups ::= λ l, l ++ [(rcMsg, newNodes, rcmd)] |>)
    end.

(** The nodes are initialised in turn until one fails. *)
Fixpoint ar_init_loop (init_ok : Node → bool) (l : list (Node * TransferWrapper)) : bool * list AROut :=
  match l with
  | [] => (true, [])
  | (nd, conf) :: l =>
      if init_ok nd then let '(ok, outs) := ar_init_loop init_ok l in (ok, ARInit nd conf :: outs) else (false, [ARInit nd conf])
  end.

(** The goroutine of [doRemoteSetupAndSend]. *)
Definition ar_doRemoteSetup rh (init_ok : Node → bool) : AReconfHandler * list AROut :=
  match ar_setups rh with
  | [] => (rh, [])
  | (rcMsg, newNodes, rcmd) :: rest =>
      let '(ok, outs) := ar_init_loop init_ok (range_order 0 newNodes) in
      if (ok : bool) then (rh <| ar_setups := rest |>, outs ++ [ARBcast rcMsg])
      else (rh <| ar_setups := rest |> <| ar_inProgress := false |> <| ar_cmdChan ::= λ q, q ++ [rcmd] |>, outs)
  end.

Definition handleRepLdMsg rh (repLdID : ID) : AReconfHandler := rh <| ar_rleader := repLdID |>.

(** ** Stopping the old configuration (rm_handle.go) *)

Definition updateConfs rh (rm : AReconfMsg) : AReconfHandler :=
  let rh := rh <| ar_confs ::= <[arm_NewEpoch rm := arm_NodeMap rm]> |> in
  if bool_decide (arm_NewEpoch rm > ar_maxEpochSeen rh) then rh <| ar_maxEpochSeen := arm_NewEpoch rm |> else rh.

(** Another configuration between the own one and the new one. *)
Definition between rh (rm : AReconfMsg) : bool :=
  existsb (λ kv, bool_decide (IDEpoch (ar_id rh) < kv.1) && bool_decide (kv.1 < arm_NewEpoch rm)) (range_order 0 (ar_confs rh)).

Definition handleReconfMsg rh (rm : AReconfMsg) : res (AReconfHandler * option CPromise) :=
  if negb (ar_stateful rh) then Ok (rh, None)
  else if negb (bool_decide (arm_NewEpoch rm > IDEpoch (ar_id rh))) then Ok (rh, None)
  else if negb (ar_valid rh) && between rh rm then Ok (updateConfs rh rm, None)
  else
    rh ← (if ar_valid rh then rh ← acceptor_GetState rh (arm_AduSlot rm); mret (rh <| ar_valid := false |>) else Ok rh);
    let rh := updateConfs rh rm in
    if bool_decide (arm_OldIds rm !! ar_id rh = None) then Ok (rh, None)
    else
      let '(node, found) := LookupNode (nodeMap (ar_grp rh)) (ar_id rh) in
      if negb found then Panic
      else Ok (rh, Some (mkCP (ar_id rh) (Quorum (nodeMap (ar_grp rh))) node (arm_NewEpoch rm) (ar_confs rh) (arm_AduSlot rm) (ar_acceptorState rh))).

(** [oldPax] marks the Paxos identifiers of the old nodes. *)
Definition sendCP (cp : CPromise) (oldids : gmap ID bool) (connect : ID → bool) : res (list AROut) :=
  let newnodes := default ∅ (cp_Confs cp !! cp_NewEpoch cp) in
  '(oldPax, outs) ← foldM (λ '(oldPax, outs) id, oldPax ← slice_set oldPax (PxID id) true; mret (oldPax, outs ++ [ARPromise id cp]))
    (replicate (size newnodes) false, []) (range_order 1 oldids).*1;
  outs' ← foldM (λ outs id, old ← slice_get oldPax (PxID id);
      mret (if (old : bool) then outs else if connect id then outs ++ [ARPromise id cp] else outs)) [] (range_order 0 newnodes).*1;
  mret (outs ++ outs').

(** ** Activating the new configuration (cp_handle.go, ac_handle.go) *)

(** The promises of one epoch from different replicas. *)
Definition check_step (epoch : Epoch) (st : list CPromise * gset Z) (cp : CPromise) : list CPromise * gset Z :=
  let '(returmsgs, ids) := st in
  if bool_decide (IDEpoch (cp_ID cp) = epoch) && negb (bool_decide (PxID (cp_ID cp) ∈ ids))
  then (returmsgs ++ [cp], {[ PxID (cp_ID cp) ]} ∪ ids) else (returmsgs, ids).
Definition check (msgs : list CPromise) (epoch : Epoch) : bool * list CPromise :=
  let returmsgs := (foldl (check_step epoch) ([], ∅) msgs).1 in
  match returmsgs with
  | [] => (false, returmsgs)
  | m :: _ => if bool_decide (u64 (len returmsgs) < cp_QuorumSize m) then (false, returmsgs) else (true, returmsgs)
  end.

(** As in live replacement, [slot = accSlot] only makes the variable point elsewhere. *)
Definition ar_merge_slot (slotMap : AcceptorSlotMap) (kv : SlotID * AcceptorSlot) : AcceptorSlotMap :=
  let '(slot, slotMap) := AcceptorSlotMap_GetSlot slotMap kv.1 in
  let slot := if bool_decide (Compare (as_VRnd kv.2) (as_VRnd slot) >= 0) && bool_decide (Compare (as_VRnd kv.2) (as_VRnd slot) ≠ 0)
              then kv.2 else slot in
  slotMap.

Definition ar_merge (st : AcceptorSlotMap * SlotID) (cp : CPromise) : AcceptorSlotMap * SlotID :=
  let '(slotMap, firstSlot) := st in
  let firstSlot := if bool_decide (cp_AduSlot cp > firstSlot) then cp_AduSlot cp else firstSlot in
  let slotMap := if bool_decide (Compare (asm_Rnd (cp_AccState cp)) (asm_Rnd slotMap) = 1)
                 then slotMap <| asm_Rnd := asm_Rnd (cp_AccState cp) |> else slotMap in
  (foldl ar_merge_slot slotMap (range_order 0 (asm_Slots (cp_AccState cp))), firstSlot).

Definition ar_extractAcceptorState (cps : list CPromise) : res (AcceptorSlotMap * SlotID) :=
  let '(slotMap, firstSlot) := foldl ar_merge (NewAcceptorSlotMap, 0) cps in
  cp0 ← slice_get cps 0;
  mret (slotMap <| asm_Rnd ::= λ r, r <| RndID ::= λ id, id <| IDEpoch := cp_NewEpoch cp0 |> |> |>, firstSlot).

(** The loop over the configurations of a promise; [None] is the early return. *)
Fixpoint store_confs (cp : CPromise) (l : list (Z * gmap ID Node)) rh : AReconfHandler * bool :=
  match l with
  | [] => (rh, true)
  | (epoch, conf) :: l =>
      if bool_decide (epoch >= cp_NewEpoch cp) then
        match ar_confs rh !! epoch with
        | Some _ => store_confs cp l rh
        | None =>
            let rh := rh <| ar_confs ::= <[epoch := conf]> |> in
            store_confs cp l (if bool_decide (epoch > ar_maxEpochSeen rh) then rh <| ar_maxEpochSeen := epoch |> else rh)
        end
      else if bool_decide (epoch < cp_NewEpoch cp) && bool_decide (IDEpoch (cp_ID cp) < epoch) then (rh, false)
      else store_confs cp l rh
  end.

Definition handleCPromise rh (cp : CPromise) : res (AReconfHandler * option Activation) :=
  if bool_decide (cp_NewEpoch cp < IDEpoch (ar_id rh)) then Ok (rh, None)
  else if bool_decide (cp_NewEpoch cp = IDEpoch (ar_id rh)) && ar_stateful rh then Ok (rh, None)
  else
    let '(rh, go_on) := store_confs cp (range_order 0 (cp_Confs cp)) rh in
    if negb go_on then Ok (rh, None)
    else
      match ar_cPromises rh !! IDEpoch (cp_ID cp) with
      | None => Ok (rh <| ar_cPromises ::= <[IDEpoch (cp_ID cp) := [cp]]> |>, None)
      | Some cpros =>
          let promises := cpros ++ [cp] in
          let rh := rh <| ar_cPromises ::= <[IDEpoch (cp_ID cp) := promises]> |> in
          if bool_decide (u64 (len promises) < cp_QuorumSize cp) then Ok (rh, None)
          else
            let '(validQuorum, quorum) := check promises (IDEpoch (cp_ID cp)) in
            if negb validQuorum then Ok (rh, None)
            else
              '(st, first) ← ar_extractAcceptorState quorum;
              let rh := rh <| ar_acceptorState := st |> <| ar_accFirstSlot := first |> in
              mret (rh, Some (mkAct (cp_NewEpoch cp) first st (ar_confs rh)))
      end.

Definition merge_confs (ac : Activation) rh : AReconfHandler :=
  foldl (λ rh '(ep, conf),
      match ar_confs rh !! ep with
      | Some _ => rh
      | None =>
          if bool_decide (ep > act_Epoch ac) then
            let rh := rh <| ar_confs ::= <[ep := conf]> |> in
            if bool_decide (ep > ar_maxEpochSeen rh) then rh <| ar_maxEpochSeen := ep |> else rh
          else rh
      end) rh (range_order 0 (act_Confs ac)).

Definition checkOutsideActivation rh (ac : Activation) : AReconfHandler * bool :=
  if bool_decide (act_Epoch ac < IDEpoch (ar_id rh)) then (rh, false)
  else if bool_decide (act_Epoch ac = IDEpoch (ar_id rh)) && ar_stateful rh then (rh, false)
  else (merge_confs ac rh, true).

(** Without the connections; for an unknown epoch nothing changes. *)
Definition changeEpoch rh (epoch : Epoch) : res AReconfHandler :=
  match ar_confs rh !! epoch with
  | None => Ok rh
  | Some conf =>
      let rh := rh <| ar_id ::= λ id, id <| IDEpoch := epoch |> |> in
      g ← SetNewNodeMap (ar_grp rh) conf;
      let '(_, g) := SetID g (ar_id rh) in
      mret (rh <| ar_grp := g |>)
  end.

(** The state of the activation goes to the acceptor. *)
Definition install_state rh (ac : Activation) : AReconfHandler :=
  let rh := rh <| ar_acceptorState := act_AccState ac |> <| ar_accFirstSlot := u64 (act_AduSlot ac + 1) |> in
  rh <| ar_acc := SetLowSlot (SetState (ar_acc rh) (act_AccState ac)) (ar_accFirstSlot rh) |>.

(** No later configuration is known: Paxos goes on, or starts. *)
Definition go_valid rh : res AReconfHandler :=
  let rh := rh <| ar_valid := true |> <| ar_confs := ∅ |> in
  if ar_stateful rh then acceptor_release rh
  else if ar_running rh then Panic     (* closing a closed channel *)
  else mret (rh <| ar_running := true |> <| ar_stateful := true |>).

(** A later one is known: the state is kept for it. *)
Definition wait_next rh : AReconfHandler :=
  let rh := rh <| ar_valid := false |> <| ar_stateful := true |> in
  rh <| ar_confs ::= filter (λ kv, kv.1 > IDEpoch (ar_id rh)) |>.

Definition handleActivation rh (ac : Activation) (adu : SlotID) : res (AReconfHandler * list AROut) :=
  rh ← (if ar_valid rh && ar_stateful rh then acceptor_GetState rh adu else Ok rh);
  rh ← changeEpoch rh (act_Epoch ac);
  let rh := install_state rh ac in
  let outs := ARNextSlot (ar_accFirstSlot rh) :: (ARAlive <$> (range_order 0 (default ∅ (ar_confs rh !! act_Epoch ac))).*1) in
  if bool_decide (ar_maxEpochSeen rh <= act_Epoch ac) then rh ← go_valid rh; mret (rh, outs)
  else mret (wait_next rh, outs).

(** ** The event loop, with the goroutines beside it *)

Definition ar_acceptor rh (ev : AccEvent) : res (AReconfHandler * list AROut) :=
  if ar_held rh then mret (rh, [])
  else '(acc, outs) ← acceptor_step (ar_grp rh) (ar_acc rh) ev; mret (rh <| ar_acc := acc |>, fmap (M := list) ARAcc outs).

Definition ar_activate (r : AReconfHandler * option Activation) (adu : SlotID) : res (AReconfHandler * list AROut) :=
  match r.2 with None => mret (r.1, []) | Some ac => handleActivation r.1 ac adu end.

Definition ar_reconf rh (rm : AReconfMsg) (connect : ID → bool) : res (AReconfHandler * list AROut) :=
  '(rh', cp) ← handleReconfMsg rh rm;
  match cp with
  | None => mret (rh', [])
  | Some cp => outs ← sendCP cp (arm_OldIds rm) connect; mret (rh', outs)
  end.

Definition ar_command rh (cmd : option AReconfCmd) (adu : SlotID) (get : nat → option Node) : res (AReconfHandler * list AROut) :=
  match cmd with
  | None => mret (rh, [])
  | Some cmd => rh' ← handleReconfCmd rh cmd adu get; mret (rh', [])
  end.

Definition ar_step rh (ev : AREvent) : res (AReconfHandler * list AROut) :=
  match ev with
  | ARFd m adu get => ar_command rh (ar_handleFdMsg rh m) adu get
  | ARLeader id => mret (handleRepLdMsg rh id, [])
  | ARReconf rm connect => ar_reconf rh rm connect
  | ARCPromise cp adu => r ← handleCPromise rh cp; ar_activate r adu
  | ARActivation ac adu =>
      let '(rh', correct) := checkOutsideActivation rh ac in
      if (correct : bool) then handleActivation rh' ac adu else mret (rh', [])
  | ARCmd adu get => ar_command (rh <| ar_cmdChan ::= tail |>) (head (ar_cmdChan rh)) adu get
  | ARRequest cmd => mret (rh <| ar_cmdChan ::= λ q, q ++ [cmd] |>, [])
  | ARSetup init_ok => mret (ar_doRemoteSetup rh init_ok)
  | ARAcceptor ev => ar_acceptor rh ev
  end.
End arec.

(** * The state that a new configuration starts with *)

Section extraction.
Context {RO : RangeOrder} {RL : RangeOrderLaws RO}.

Lemma ar_merge_slot_eq sm kv : ar_merge_slot sm kv = (AcceptorSlotMap_GetSlot sm kv.1).2.
Proof. unfold ar_merge_slot. by get_slot. Qed.

Lemma ar_merge_slots l : ∀ sm, let sm' := foldl ar_merge_slot sm l in
  (∀ j, aslot sm' j = aslot sm j) ∧ asm_Rnd sm' = asm_Rnd sm.
Proof.
  induction l as [|kv l IH]; intros sm; cbn; [done|]. destruct (IH (ar_merge_slot sm kv)) as [Hs Hr].
  rewrite ar_merge_slot_eq in *. autorewrite with go in *. split; [|done]. intros j. rewrite Hs. by autorewrite with go.
Qed.

Lemma ar_merge_spec sm first cp : let st := ar_merge (sm, first) cp in
  (∀ j, aslot st.1 j = aslot sm j) ∧ asm_Rnd sm ≼ asm_Rnd st.1 ∧ asm_Rnd (cp_AccState cp) ≼ asm_Rnd st.1 ∧
  first ≤ st.2 ∧ cp_AduSlot cp ≤ st.2 ∧ (st.2 = first ∨ st.2 = cp_AduSlot cp).
Proof.
  cbv zeta. unfold ar_merge. cbn [fst snd].
  set (sm1 := if bool_decide (Compare (asm_Rnd (cp_AccState cp)) (asm_Rnd sm) = 1) then sm <| asm_Rnd := asm_Rnd (cp_AccState cp) |> else sm).
  destruct (ar_merge_slots (range_order 0 (asm_Slots (cp_AccState cp))) sm1) as [Hs Hr]. rewrite Hr.
  split; [intros j; rewrite Hs; unfold sm1; by case_match|].
  assert (asm_Rnd sm ≼ asm_Rnd sm1 ∧ asm_Rnd (cp_AccState cp) ≼ asm_Rnd sm1) as [R1 R2].
  { unfold sm1. case_bool_decide as Hc; cbn.
    - apply Compare_gt in Hc. split; [by right|by left].
    - split; [by left|]. apply rle_not_rlt. intros Hlt. by apply Hc, Compare_gt. }
  split; [done|]. split; [done|]. case_bool_decide; split_and!; try lia; by (left + right).
Qed.

(** A new configuration starts after the highest adu of the promises and from
    the highest round, made one of its own epoch; it starts without the votes
    that the promises carry for the slots above. *)
Theorem ar_extractAcceptorState_spec (cps : list CPromise) :
  cps ≠ [] → Forall (λ cp, 0 ≤ cp_AduSlot cp) cps →
  ∃ sm first, ar_extractAcceptorState cps = Ok (sm, first) ∧
    (∀ cp, cp ∈ cps → cp_AduSlot cp ≤ first ∧ RndNo (asm_Rnd (cp_AccState cp)) ≤ RndNo (asm_Rnd sm)) ∧
    (first = 0 ∨ ∃ cp, cp ∈ cps ∧ first = cp_AduSlot cp) ∧
    (∀ cp0, head cps = Some cp0 → IDEpoch (RndID (asm_Rnd sm)) = cp_NewEpoch cp0) ∧
    ∀ j, as_VRnd (aslot sm j) = ZeroRound ∧ as_VVal (aslot sm j) = zero_Value.
Proof.
  intros Hne Hf. unfold ar_extractAcceptorState.
  assert (∀ sm0 first0, let st := foldl ar_merge (sm0, first0) cps in
    (∀ j, aslot st.1 j = aslot sm0 j) ∧ asm_Rnd sm0 ≼ asm_Rnd st.1 ∧ first0 ≤ st.2 ∧
    (∀ cp, cp ∈ cps → cp_AduSlot cp ≤ st.2 ∧ asm_Rnd (cp_AccState cp) ≼ asm_Rnd st.1) ∧ (st.2 = first0 ∨ ∃ cp, cp ∈ cps ∧ st.2 = cp_AduSlot cp)) as Hloop.
  { clear. induction cps as [|cp cps IH]; intros sm0 first0; cbn [foldl]; cbv zeta.
    - cbn. split_and!; [done|by left|lia|by intros ? ?%elem_of_nil|by left].
    - destruct (ar_merge_spec sm0 first0 cp) as (Hs & R1 & R2 & F1 & F2 & F3).
      destruct (ar_merge (sm0, first0) cp) as [sm1 first1]. cbn [fst snd] in *. destruct (IH sm1 first1) as (Hs' & R' & F' & Hc & Hw).
      split_and!; [|exact (rle_trans _ _ _ R1 R')|lia| |].
      + intros j. by rewrite Hs'.
      + intros c [->|Hin]%elem_of_cons; [|by apply Hc]. split; [lia|exact (rle_trans _ _ _ R2 R')].
      + destruct Hw as [Hw|(c & ? & ?)]; [|right; exists c; split; [by right|done]].
        destruct F3 as [E|E]; rewrite Hw, E; [by left|]. right. exists cp. split; [left|done]. }
  destruct (Hloop NewAcceptorSlotMap 0) as (Hs & _ & _ & Hc & Hw). destruct (foldl ar_merge (NewAcceptorSlotMap, 0) cps) as [sm first] eqn:E.
  cbn [fst snd] in *. destruct cps as [|cp0 cps]; [done|]. cbn. do 2 eexists. split; [done|]. split_and!.
  - intros cp Hin. destruct (Hc cp Hin) as [? Hle]. split; [done|]. cbn. destruct Hle as [->|Hlt]; [done|unfold rlt in Hlt; lia].
  - done.
  - by intros ? [= <-].
  - intros j. unfold aslot in *. cbn. by rewrite (Hs j).
Qed.
End extraction.
