(* ===== verification/ARecRuns.v ===== *)
(** Runs of the reconfiguration handler of ARec.v: when its acceptor is stopped,
    how often it reconfigures, what an activation rests on, and how the
    protocol can lose a decision. *)
From S2P Require Import Prelude Grp PaxosTypes MultiAcceptor MultiProposer MultiLearner Liveness EpochGen RingReplacer ARec.

(** * What the steps leave alone *)

Section runs.
Context {RO : RangeOrder} {RL : RangeOrderLaws RO}.
Implicit Types rh : AReconfHandler.

(** What the steps that do not touch the acceptor leave alone. *)
Definition same_core rh rh' : Prop :=
  ar_id rh' = ar_id rh ∧ ar_stateful rh' = ar_stateful rh ∧ ar_valid rh' = ar_valid rh ∧ ar_held rh' = ar_held rh ∧
  ar_inProgress rh' = ar_inProgress rh ∧ ar_setups rh' = ar_setups rh ∧ ar_acc rh' = ar_acc rh.

Lemma updateConfs_core rh rm : same_core rh (updateConfs rh rm).
Proof. unfold updateConfs. case_match; by split_and!. Qed.

Lemma acceptor_GetState_core rh after rh' : acceptor_GetState rh after = Ok rh' →
  ar_held rh = false ∧ ar_held rh' = true ∧ ar_id rh' = ar_id rh ∧ ar_stateful rh' = ar_stateful rh ∧ ar_valid rh' = ar_valid rh ∧
  ar_inProgress rh' = ar_inProgress rh ∧ ar_setups rh' = ar_setups rh ∧ ar_acc rh' = ar_acc rh.
Proof. unfold acceptor_GetState. destruct (ar_held rh); [done|]. intros (sm & _ & [= <-])%bind_Ok. by split_and!. Qed.

Lemma store_confs_core cp l : ∀ rh rh' go, store_confs cp l rh = (rh', go) → same_core rh rh' ∧ ar_cPromises rh' = ar_cPromises rh.
Proof.
  induction l as [|[e c] l IH]; intros rh rh' go Hs; cbn [store_confs] in Hs; [by injection Hs as <- _|].
  destruct (bool_decide (e >= cp_NewEpoch cp)).
  - destruct (ar_confs rh !! e); [by apply IH in Hs|].
    match type of Hs with context [if bool_decide ?P then _ else _] => destruct (bool_decide P) end; apply IH in Hs as [(? & ? & ? & ? & ? & ? & ?) ?]; by split_and!.
  - destruct (bool_decide _ && _); [by injection Hs as <- _|by apply IH in Hs].
Qed.

Lemma handleCPromise_core rh cp rh' act : handleCPromise rh cp = Ok (rh', act) →
  same_core rh rh' ∧ (is_Some act → IDEpoch (ar_id rh) ≤ cp_NewEpoch cp ∧ (ar_stateful rh = true → IDEpoch (ar_id rh) < cp_NewEpoch cp)) ∧
  ∀ ac, act = Some ac → act_Epoch ac = cp_NewEpoch cp.
Proof.
  unfold handleCPromise. case_bool_decide as H1; [intros [= <- <-]; split; [done|]; split; [by intros []|done]|].
  destruct (bool_decide (cp_NewEpoch cp = IDEpoch (ar_id rh)) && ar_stateful rh) eqn:H2; [intros [= <- <-]; split; [done|]; split; [by intros []|done]|].
  destruct (store_confs cp (range_order 0 (cp_Confs cp)) rh) as [rh1 go] eqn:Es. apply store_confs_core in Es as [Hc _].
  destruct go; cbn [negb]; [|intros [= <- <-]; split; [done|]; split; [by intros []|done]].
  destruct (ar_cPromises rh1 !! _) as [cpros|]; [|intros [= <- <-]; split; [done|]; split; [by intros []|done]].
  destruct (bool_decide (_ < cp_QuorumSize cp)); [intros [= <- <-]; split; [done|]; split; [by intros []|done]|].
  destruct (check _ _) as [vq q]. destruct vq; cbn [negb]; [|intros [= <- <-]; split; [done|]; split; [by intros []|done]].
  intros ([st first] & _ & [= <- <-])%bind_Ok. split; [done|]. split; [|by intros ac [= <-]]. intros _. split; [lia|].
  intros Hst. rewrite Hst, andb_true_r in H2. apply bool_decide_eq_false in H2. lia.
Qed.

Lemma merge_confs_core ac rh : same_core rh (merge_confs ac rh) ∧ ar_cPromises (merge_confs ac rh) = ar_cPromises rh.
Proof.
  unfold merge_confs. generalize (range_order 0 (act_Confs ac)) as l. intros l. revert rh.
  induction l as [|[e c] l IH]; intros rh; [done|]. cbn [foldl].
  destruct (ar_confs rh !! e); [apply IH|]. destruct (bool_decide (e > act_Epoch ac)); [|apply IH].
  match goal with |- context [if bool_decide ?P then _ else _] => destruct (bool_decide P) end;
    match goal with |- context [foldl ?f ?s l] => destruct (IH s) as [(? & ? & ? & ? & ? & ? & ?) ?] end; by split_and!.
Qed.

Lemma changeEpoch_core rh epoch rh' : changeEpoch rh epoch = Ok rh' →
  PxID (ar_id rh') = PxID (ar_id rh) ∧ (ar_id rh' = ar_id rh ∨ IDEpoch (ar_id rh') = epoch) ∧
  ar_stateful rh' = ar_stateful rh ∧ ar_valid rh' = ar_valid rh ∧ ar_held rh' = ar_held rh ∧ ar_inProgress rh' = ar_inProgress rh ∧
  ar_setups rh' = ar_setups rh ∧ ar_cPromises rh' = ar_cPromises rh.
Proof.
  unfold changeEpoch. destruct (ar_confs rh !! epoch); [|intros [= <-]; split_and!; auto].
  intros (g1 & _ & Hrun)%bind_Ok. destruct (SetID _ _) as [ok g']. injection Hrun as <-. cbn. split_and!; auto.
Qed.

Lemma install_state_core rh ac : let rh' := install_state rh ac in
  ar_id rh' = ar_id rh ∧ ar_stateful rh' = ar_stateful rh ∧ ar_valid rh' = ar_valid rh ∧ ar_held rh' = ar_held rh ∧
  ar_inProgress rh' = ar_inProgress rh ∧ ar_setups rh' = ar_setups rh ∧ ar_cPromises rh' = ar_cPromises rh.
Proof. by split_and!. Qed.

Lemma wait_next_core rh : let rh' := wait_next rh in
  ar_id rh' = ar_id rh ∧ ar_stateful rh' = true ∧ ar_valid rh' = false ∧ ar_held rh' = ar_held rh ∧
  ar_inProgress rh' = ar_inProgress rh ∧ ar_setups rh' = ar_setups rh ∧ ar_cPromises rh' = ar_cPromises rh.
Proof. by split_and!. Qed.

Lemma go_valid_core rh rh' : go_valid rh = Ok rh' →
  ar_id rh' = ar_id rh ∧ ar_stateful rh' = true ∧ ar_valid rh' = true ∧ (ar_stateful rh = true → ar_held rh' = false) ∧
  ar_inProgress rh' = ar_inProgress rh ∧ ar_setups rh' = ar_setups rh ∧ ar_cPromises rh' = ar_cPromises rh.
Proof.
  unfold go_valid, acceptor_release. cbv zeta.
  change (ar_stateful (rh <| ar_valid := true |> <| ar_confs := ∅ |>)) with (ar_stateful rh).
  change (ar_held (rh <| ar_valid := true |> <| ar_confs := ∅ |>)) with (ar_held rh).
  change (ar_running (rh <| ar_valid := true |> <| ar_confs := ∅ |>)) with (ar_running rh).
  destruct (ar_stateful rh) eqn:Est; [|destruct (ar_running rh); [done|]; intros [= <-]; by split_and!].
  destruct (ar_held rh); [|done]. intros [= <-]. by split_and!.
Qed.

(** What an activation does to the handler: it stays or becomes stateful, moves
    to the epoch or stays in its own, and its acceptor runs exactly if the
    handler is valid, provided that this was so before. *)
Lemma handleActivation_core rh ac adu rh' outs : handleActivation rh ac adu = Ok (rh', outs) →
  PxID (ar_id rh') = PxID (ar_id rh) ∧ (ar_id rh' = ar_id rh ∨ IDEpoch (ar_id rh') = act_Epoch ac) ∧ ar_stateful rh' = true ∧
  (ar_stateful rh = true → ar_valid rh = negb (ar_held rh) → ar_valid rh' = negb (ar_held rh')) ∧
  ar_inProgress rh' = ar_inProgress rh ∧ ar_setups rh' = ar_setups rh ∧ ar_cPromises rh' = ar_cPromises rh ∧
  ∀ m, ARBcast m ∉ outs.
Proof.
  intros Hrun. unfold handleActivation in Hrun. apply bind_Ok in Hrun as (rh1 & H1 & Hrun). apply bind_Ok in Hrun as (rh2 & H2 & Hrun).
  apply changeEpoch_core in H2 as (E1 & E2 & E3 & E4 & E5 & E6 & E7 & E8).
  assert (ar_id rh1 = ar_id rh ∧ ar_stateful rh1 = ar_stateful rh ∧ ar_valid rh1 = ar_valid rh ∧ ar_inProgress rh1 = ar_inProgress rh ∧ ar_setups rh1 = ar_setups rh ∧
    ar_cPromises rh1 = ar_cPromises rh ∧ (ar_stateful rh = true → ar_valid rh = negb (ar_held rh) → ar_held rh1 = true)) as (F1 & F2 & F3 & F4 & F5 & F6 & F7).
  { destruct (ar_valid rh && ar_stateful rh) eqn:Ev.
    - unfold acceptor_GetState in H1. destruct (ar_held rh) eqn:Eh; [done|]. apply bind_Ok in H1 as (sm & _ & [= <-]). by split_and!.
    - injection H1 as <-. split_and!; try done. intros Est Evh. rewrite Est, andb_true_r in Ev. rewrite Ev in Evh. by destruct (ar_held rh). }
  cbv zeta in Hrun. rewrite F1 in E1, E2. destruct (install_state_core rh2 ac) as (I1 & I2 & I3 & I4 & I5 & I6 & I7).
  set (rh3 := install_state rh2 ac) in *. clearbody rh3.
  match type of Hrun with (if _ then _ else mret (_, ?o)) = _ => assert (∀ m, ARBcast m ∉ o) as Hno end.
  { intros m Hin. apply elem_of_cons in Hin as [?|(? & ? & _)%list_elem_of_fmap]; done. }
  destruct (bool_decide _).
  - apply bind_Ok in Hrun as (rh4 & H4 & [= <- <-]). apply go_valid_core in H4 as (G1 & G2 & G3 & G4 & G5 & G6 & G7).
    split_and!; try done; try congruence.
    intros Est _. rewrite G3, G4; [done|congruence].
  - injection Hrun as <- <-. destruct (wait_next_core rh3) as (G1 & G2 & G3 & G4 & G5 & G6 & G7).
    split_and!; try done; try congruence.
    intros Est Evh. rewrite G3, G4, I4, E5, F7 by done. done.
Qed.

Lemma handleReconfCmd_core rh cmd adu get rh' : handleReconfCmd rh cmd adu get = Ok rh' →
  ar_id rh' = ar_id rh ∧ ar_stateful rh' = ar_stateful rh ∧ ar_valid rh' = ar_valid rh ∧ ar_held rh' = ar_held rh ∧
  ar_cPromises rh' = ar_cPromises rh ∧
  ((ar_inProgress rh' = ar_inProgress rh ∧ ar_setups rh' = ar_setups rh) ∨
   (ar_inProgress rh = false ∧ ar_inProgress rh' = true ∧ length (ar_setups rh') = S (length (ar_setups rh)))).
Proof.
  unfold handleReconfCmd. destruct (negb (ar_valid rh) || negb (ar_stateful rh)); [intros [= <-]; split_and!; auto|].
  destruct (ar_inProgress rh) eqn:Ep; [intros [= <-]; split_and!; auto|].
  destruct (reconfSetupLocal _ _ _ _) as [[rc nn]|].
  - intros [= <-]. split_and!; try done. right. cbn. rewrite length_app. split_and!; [done|done|cbn; lia].
  - unfold push_cmd. destruct (ar_cmdChan _); [|done]. intros [= <-]. split_and!; try done. by left.
Qed.

Lemma handleReconfMsg_core rh rm rh' cp : handleReconfMsg rh rm = Ok (rh', cp) →
  ar_id rh' = ar_id rh ∧ ar_stateful rh' = ar_stateful rh ∧ ar_inProgress rh' = ar_inProgress rh ∧ ar_setups rh' = ar_setups rh ∧
  ar_cPromises rh' = ar_cPromises rh ∧ (ar_valid rh = negb (ar_held rh) → ar_valid rh' = negb (ar_held rh')) ∧ (is_Some cp → ar_valid rh' = false).
Proof.
  assert (∀ r, same_core rh r → ar_cPromises r = ar_cPromises rh → ar_id r = ar_id rh ∧ ar_stateful r = ar_stateful rh ∧ ar_inProgress r = ar_inProgress rh ∧
    ar_setups r = ar_setups rh ∧ ar_cPromises r = ar_cPromises rh ∧ (ar_valid rh = negb (ar_held rh) → ar_valid r = negb (ar_held r))) as Hsame.
  { intros r (? & ? & ? & ? & ? & ? & ?) ?. split_and!; congruence. }
  assert (∀ r, ar_cPromises (updateConfs r rm) = ar_cPromises r) as Hup by (intros r; unfold updateConfs; by case_match).
  unfold handleReconfMsg. destruct (ar_stateful rh) eqn:Est; cbn [negb]; [|intros [= <- <-]; destruct (Hsame rh) as (?&?&?&?&?&?); [done..|]; split_and!; auto; by intros []].
  destruct (bool_decide (arm_NewEpoch rm > IDEpoch (ar_id rh))); cbn [negb]; [|intros [= <- <-]; destruct (Hsame rh) as (?&?&?&?&?&?); [done..|]; split_and!; auto; by intros []].
  destruct (negb (ar_valid rh) && between rh rm).
  { intros [= <- <-]. destruct (Hsame (updateConfs rh rm)) as (?&?&?&?&?&?); [apply updateConfs_core|apply Hup|]. split_and!; auto; by intros []. }
  intros (rh1 & H1 & Hrun)%bind_Ok.
  assert (ar_id rh1 = ar_id rh ∧ ar_stateful rh1 = true ∧ ar_inProgress rh1 = ar_inProgress rh ∧ ar_setups rh1 = ar_setups rh ∧ ar_valid rh1 = false ∧
    ar_cPromises rh1 = ar_cPromises rh ∧ (ar_valid rh = negb (ar_held rh) → ar_held rh1 = true)) as (F1 & F2 & F3 & F4 & F5 & F6 & F7).
  { destruct (ar_valid rh) eqn:Ev.
    - apply bind_Ok in H1 as (rh2 & H2 & [= <-]). unfold acceptor_GetState in H2. destruct (ar_held rh); [done|].
      apply bind_Ok in H2 as (sm & _ & [= <-]). by split_and!.
    - injection H1 as <-. split_and!; try done. by destruct (ar_held rh). }
  destruct (updateConfs_core rh1 rm) as (U1 & U2 & U3 & U4 & U5 & U6 & _). specialize (Hup rh1). cbv zeta in Hrun.
  assert (∀ c, (rh', cp) = (updateConfs rh1 rm, c) → ar_id rh' = ar_id rh ∧ ar_stateful rh' = true ∧ ar_inProgress rh' = ar_inProgress rh ∧ ar_setups rh' = ar_setups rh ∧
    ar_cPromises rh' = ar_cPromises rh ∧ (ar_valid rh = negb (ar_held rh) → ar_valid rh' = negb (ar_held rh')) ∧ (is_Some cp → ar_valid rh' = false)) as Hend.
  { intros c [= -> ->]. split_and!; try congruence. intros Hv. rewrite U3, F5, U4, F7 by done. done. }
  destruct (bool_decide _); [injection Hrun as <- <-; by eapply Hend|].
  destruct (LookupNode _ _) as [node found]. destruct found; [|done]. injection Hrun as <- <-. by eapply Hend.
Qed.

Lemma checkOutsideActivation_core rh ac rh' b : checkOutsideActivation rh ac = (rh', b) →
  same_core rh rh' ∧ ar_cPromises rh' = ar_cPromises rh ∧ (b = true → IDEpoch (ar_id rh) ≤ act_Epoch ac).
Proof.
  unfold checkOutsideActivation. case_bool_decide as H1; [intros [= <- <-]; by split_and!|].
  destruct (_ && _); [intros [= <- <-]; by split_and!|]. intros [= <- <-]. destruct (merge_confs_core ac rh). split_and!; [done|done|]. lia.
Qed.

Definition bcasts (outs : list AROut) : list AReconfMsg := omap (λ o, match o with ARBcast m => Some m | _ => None end) outs.
Lemma bcasts_app o1 o2 : bcasts (o1 ++ o2) = bcasts o1 ++ bcasts o2.
Proof. apply omap_app. Qed.
Lemma bcasts_nil outs : (∀ m, ARBcast m ∉ outs) → bcasts outs = [].
Proof.
  intros Hn. destruct (bcasts outs) as [|m l] eqn:E; [done|]. exfalso.
  assert (m ∈ bcasts outs) as (o & Ho & Hm)%list_elem_of_omap by (rewrite E; left). destruct o; try done. injection Hm as ->. by apply (Hn m).
Qed.

Lemma ar_init_loop_bcasts init_ok l : bcasts (ar_init_loop init_ok l).2 = [].
Proof. induction l as [|[nd c] l IH]; [done|]. cbn. destruct (init_ok nd); [|done]. by destruct (ar_init_loop init_ok l). Qed.

Lemma sendCP_bcasts cp olds connect outs : sendCP cp olds connect = Ok outs → bcasts outs = [].
Proof.
  unfold sendCP. intros ([ox o1] & H1 & Hrun)%bind_Ok. apply bind_Ok in Hrun as (o2 & H2 & [= <-]). rewrite bcasts_app.
  assert (bcasts o1 = []) as ->.
  { assert (bcasts (ox, o1).2 = []) as E; [|exact E]. revert H1. apply foldM_inv with (P := λ _ st, bcasts st.2 = []); [|done].
    intros _ id _ [o a] st' _ Ha (o' & _ & [= <-])%bind_Ok. cbn [snd] in *. by rewrite bcasts_app, Ha. }
  revert H2. apply foldM_inv with (P := λ _ st, bcasts st = []); [|done].
  intros _ id _ o o' _ Ho (b & _ & [= <-])%bind_Ok. destruct b; [done|]. destruct (connect id); [|done]. by rewrite bcasts_app, Ho.
Qed.

(** What a step does to the parts the theorems are about. *)
Definition sent_or_pending rh (outs : list AROut) : nat := (length (ar_setups rh) + length (bcasts outs))%nat.

Record step_core rh rh' (outs : list AROut) : Prop := {
  sc_px : PxID (ar_id rh') = PxID (ar_id rh);
  sc_epoch : IDEpoch (ar_id rh) ≤ IDEpoch (ar_id rh');
  sc_stateful : ar_stateful rh = true → ar_stateful rh' = true;
  sc_held : ar_stateful rh = true → ar_valid rh = negb (ar_held rh) → ar_valid rh' = negb (ar_held rh');
  sc_prepare :
    (ar_inProgress rh' = ar_inProgress rh ∧ sent_or_pending rh' outs = length (ar_setups rh)) ∨
    (ar_inProgress rh = false ∧ ar_inProgress rh' = true ∧ sent_or_pending rh' outs = S (length (ar_setups rh))) ∨
    S (sent_or_pending rh' outs) = length (ar_setups rh);
}.

(** A step that leaves the preparation of configurations alone. *)
Lemma step_core_quiet rh rh' outs :
  PxID (ar_id rh') = PxID (ar_id rh) → IDEpoch (ar_id rh) ≤ IDEpoch (ar_id rh') → (ar_stateful rh = true → ar_stateful rh' = true) →
  (ar_stateful rh = true → ar_valid rh = negb (ar_held rh) → ar_valid rh' = negb (ar_held rh')) →
  ar_inProgress rh' = ar_inProgress rh → ar_setups rh' = ar_setups rh → bcasts outs = [] → step_core rh rh' outs.
Proof. intros ? ? ? ? Ep Es Eb. split; try done. left. unfold sent_or_pending. rewrite Es, Eb. split; [done|cbn; lia]. Qed.

Lemma step_core_same rh rh' outs : same_core rh rh' → bcasts outs = [] → step_core rh rh' outs.
Proof. intros (E1 & E2 & E3 & E4 & E5 & E6 & _) Hb. apply step_core_quiet; rewrite ?E1, ?E2, ?E3, ?E4; auto. lia. Qed.

Lemma step_core_activation rh0 rh ac adu rh' outs :
  same_core rh0 rh → IDEpoch (ar_id rh0) ≤ act_Epoch ac → handleActivation rh ac adu = Ok (rh', outs) → step_core rh0 rh' outs.
Proof.
  intros (E1 & E2 & E3 & E4 & E5 & E6 & _) Hle Hrun. apply handleActivation_core in Hrun as (H1 & H2 & H3 & H4 & H5 & H6 & _ & H7).
  rewrite E1, E2, E3, E4, E5, E6 in *.
  apply step_core_quiet; try done; [destruct H2 as [->| ->]; lia|]. by apply bcasts_nil.
Qed.

Lemma step_core_command rh0 rh cmd adu get rh' outs : same_core rh0 rh → ar_command rh cmd adu get = Ok (rh', outs) → step_core rh0 rh' outs.
Proof.
  intros Hsame. unfold ar_command. destruct cmd as [cmd|]; [|intros [= <- <-]; by apply step_core_same].
  destruct Hsame as (E1 & E2 & E3 & E4 & E5 & E6 & _).
  intros (rh1 & H1 & [= -> <-])%bind_Ok. apply handleReconfCmd_core in H1 as (C1 & C2 & C3 & C4 & _ & Hp).
  rewrite E1, E2, E3, E4, E5, E6 in *.
  split; [congruence|rewrite C1; lia|congruence|congruence|]. unfold sent_or_pending. change (bcasts []) with (@nil AReconfMsg). rewrite Nat.add_0_r.
  destruct Hp as [[? ->]|(? & ? & ->)]; auto.
Qed.

Lemma step_core_setup rh init_ok rh' outs : ar_doRemoteSetup rh init_ok = (rh', outs) → step_core rh rh' outs.
Proof.
  unfold ar_doRemoteSetup. destruct (ar_setups rh) as [|[[rc nn] cmd] rest] eqn:Es; [intros [= <- <-]; by apply step_core_same|].
  pose proof (ar_init_loop_bcasts init_ok (range_order 0 nn)) as Hb. destruct (ar_init_loop _ _) as [ok o]. cbn [snd] in Hb.
  destruct ok; intros [= <- <-]; (split; [done|done|auto|auto|]); unfold sent_or_pending; rewrite Es, ?bcasts_app, Hb; cbn [length].
  - left. split; [done|]. change (ar_setups (rh <| ar_setups := rest |>)) with rest. cbn. lia.
  - right. right. match goal with |- context [ar_setups ?r] => change (ar_setups r) with rest end. lia.
Qed.

Lemma ar_step_core rh ev rh' outs : ar_step rh ev = Ok (rh', outs) → step_core rh rh' outs.
Proof.
  destruct ev as [m adu get|id|rm connect|cp adu|ac adu|adu get|cmd|init_ok|ev]; cbn [ar_step].
  - by apply step_core_command.
  - intros [= <- <-]. by apply step_core_same.
  - unfold ar_reconf. intros ([rh1 cp] & H1 & Hrun)%bind_Ok. apply handleReconfMsg_core in H1 as (E1 & E2 & E3 & E4 & _ & E5 & _).
    assert (∃ o, (rh', outs) = (rh1, o) ∧ bcasts o = []) as (o & [= -> ->] & Hb).
    { destruct cp as [cp|]; [|injection Hrun as <- <-; by exists []]. apply bind_Ok in Hrun as (o & Ho & [= <- <-]).
      exists o. split; [done|by eapply sendCP_bcasts]. }
    apply step_core_quiet; try done; rewrite ?E1, ?E2; auto. lia.
  - intros ([rh1 act] & H1 & Hrun)%bind_Ok. apply handleCPromise_core in H1 as (Hs & Hle & Hac). unfold ar_activate in Hrun. cbn [fst snd] in Hrun.
    destruct act as [ac|]; [|injection Hrun as <- <-; by apply step_core_same].
    eapply step_core_activation; [done| |done]. rewrite (Hac ac) by done. apply Hle. by eexists.
  - destruct (checkOutsideActivation rh ac) as [rh1 b] eqn:Ec. apply checkOutsideActivation_core in Ec as (Hs & _ & Hle).
    destruct b; intros Hrun; [eapply step_core_activation; [done| |done]; by apply Hle|]. injection Hrun as <- <-. by apply step_core_same.
  - apply step_core_command. by split_and!.
  - intros [= <- <-]. by apply step_core_same.
  - intros [= Hrun]. by apply step_core_setup in Hrun.
  - unfold ar_acceptor. destruct (ar_held rh) eqn:Eh; [intros [= <- <-]; by apply step_core_same|].
    intros ([acc o] & _ & [= <- <-])%bind_Ok. apply step_core_quiet; try done. apply bcasts_nil. intros m (? & ? & _)%list_elem_of_fmap. done.
Qed.

(** * The acceptor stops with the configuration *)

Lemma fresh_step_once rh evs rh' outs : ar_setups rh = [] → ar_inProgress rh = false → run ar_step rh evs rh' outs →
  (sent_or_pending rh' outs ≤ 1)%nat ∧ (ar_inProgress rh' = false → sent_or_pending rh' outs = 0%nat).
Proof.
  intros Hs Hp. induction 1 as [|evs rh1 o1 ev rh2 o2 Hr IH H].
  - unfold sent_or_pending. rewrite Hs. cbn. lia.
  - destruct IH as [IH1 IH2]. apply ar_step_core in H as [_ _ _ _ Hprep]. unfold sent_or_pending in *. rewrite bcasts_app, length_app.
    destruct Hprep as [[E ?]|[(E1 & E2 & ?)|?]]; [rewrite E; split; [lia|]; intros Hf; specialize (IH2 Hf); lia| |lia].
    rewrite E2. specialize (IH2 E1). split; [lia|done].
Qed.

(** A handler broadcasts at most one new configuration in its life. The mark
    of a reconfiguration in progress is only removed when one fails, not when
    one has ended. *)
Theorem reconfigures_once id rleader g acc evs rh outs :
  run ar_step (NewAReconfHandler id rleader g acc) evs rh outs → (length (bcasts outs) ≤ 1)%nat.
Proof. intros Hr. apply fresh_step_once in Hr as [Hr _]; [|done..]. unfold sent_or_pending in Hr. lia. Qed.

Lemma stateful_run rh evs rh' outs : ar_stateful rh = true → ar_valid rh = negb (ar_held rh) → run ar_step rh evs rh' outs →
  ar_stateful rh' = true ∧ ar_valid rh' = negb (ar_held rh') ∧ PxID (ar_id rh') = PxID (ar_id rh) ∧ IDEpoch (ar_id rh) ≤ IDEpoch (ar_id rh').
Proof.
  intros Hs Hv. induction 1 as [|evs rh1 o1 ev rh2 o2 Hr IH H]; [by split_and!|].
  destruct IH as (I1 & I2 & I3 & I4). apply ar_step_core in H as [H1 H2 H3 H4 _]. split_and!; [auto..|congruence|lia].
Qed.


(** * A replica that is late *)

(** Its acceptor does not wait for a release, and the handler waits to be valid. *)
Definition stuck rh : Prop := ar_stateful rh = true ∧ ar_valid rh = false ∧ ar_held rh = false.

Lemma handleReconfMsg_invalid rh rm rh' cp : ar_valid rh = false → handleReconfMsg rh rm = Ok (rh', cp) → same_core rh rh'.
Proof.
  intros Hv. unfold handleReconfMsg. rewrite Hv. cbn [negb andb]. pose proof (updateConfs_core rh rm).
  destruct (ar_stateful rh); cbn [negb]; [|by intros [= <- <-]]. destruct (bool_decide _); cbn [negb]; [|by intros [= <- <-]].
  destruct (between rh rm); [by intros [= <- <-]|]. cbn [mbind res_bind]. destruct (bool_decide _); [by intros [= <- <-]|].
  destruct (LookupNode _ _) as [node []]; cbn [negb]; [|done]. by intros [= <- <-].
Qed.

Lemma handleActivation_stuck rh ac adu rh' outs : stuck rh → handleActivation rh ac adu = Ok (rh', outs) →
  stuck rh' ∧ act_Epoch ac < ar_maxEpochSeen rh.
Proof.
  intros (Hs & Hv & Hh) Hrun. unfold handleActivation in Hrun. rewrite Hs, Hv in Hrun. cbn [andb mbind res_bind] in Hrun.
  apply bind_Ok in Hrun as (rh1 & H1 & Hrun). assert (ar_maxEpochSeen rh1 = ar_maxEpochSeen rh) as Em.
  { unfold changeEpoch in H1. destruct (ar_confs rh !! _); [|by injection H1 as <-]. apply bind_Ok in H1 as (g1 & _ & H1).
    destruct (SetID _ _). by injection H1 as <-. }
  apply changeEpoch_core in H1 as (_ & _ & E3 & E4 & E5 & _).
  cbv zeta in Hrun. change (ar_maxEpochSeen (install_state rh1 ac)) with (ar_maxEpochSeen rh1) in Hrun. rewrite Em in Hrun. destruct (install_state_core rh1 ac) as (_ & I2 & I3 & I4 & _). set (rh3 := install_state rh1 ac) in *. clearbody rh3.
  destruct (bool_decide_reflect (ar_maxEpochSeen rh <= act_Epoch ac)).
  - apply bind_Ok in Hrun as (rh4 & H4 & _). exfalso. unfold go_valid, acceptor_release in H4.
    change (ar_stateful (rh3 <| ar_valid := true |> <| ar_confs := ∅ |>)) with (ar_stateful rh3) in H4.
    change (ar_held (rh3 <| ar_valid := true |> <| ar_confs := ∅ |>)) with (ar_held rh3) in H4. rewrite I2, E3, Hs, I4, E5, Hh in H4. done.
  - injection Hrun as <- <-. destruct (wait_next_core rh3) as (_ & W2 & W3 & W4 & _). split; [repeat split; congruence|lia].
Qed.

Lemma same_core_stuck rh rh' : same_core rh rh' → stuck rh → stuck rh'.
Proof. intros (_ & E2 & E3 & E4 & _) (? & ? & ?). repeat split; congruence. Qed.

Lemma ar_command_stuck rh cmd adu get rh' outs : ar_valid rh = false → ar_command rh cmd adu get = Ok (rh', outs) → rh' = rh.
Proof.
  intros Hv. unfold ar_command, handleReconfCmd. rewrite Hv. destruct cmd; cbn [negb orb mbind res_bind]; by intros [= -> _].
Qed.

Lemma ar_step_stuck rh ev rh' outs : stuck rh → ar_step rh ev = Ok (rh', outs) → stuck rh'.
Proof.
  intros Hst. pose proof Hst as (Hs & Hv & Hh). destruct ev as [m adu get|id|rm connect|cp adu|ac adu|adu get|cmd|init_ok|ev]; cbn [ar_step].
  - by intros ->%ar_command_stuck.
  - by intros [= <- <-].
  - unfold ar_reconf. intros ([rh1 cp] & H1 & Hrun)%bind_Ok. apply handleReconfMsg_invalid in H1; [|done].
    apply (same_core_stuck rh); [|done]. destruct cp; [|by injection Hrun as <- _]. by apply bind_Ok in Hrun as (o & _ & [= <- _]).
  - intros ([rh1 act] & H1 & Hrun)%bind_Ok. apply handleCPromise_core in H1 as (H1 & _). unfold ar_activate in Hrun. cbn [fst snd] in Hrun.
    apply same_core_stuck in H1; [|done]. destruct act; [|by injection Hrun as <- _]. by eapply handleActivation_stuck in Hrun as [? _].
  - destruct (checkOutsideActivation rh ac) as [rh1 b] eqn:Ec. apply checkOutsideActivation_core in Ec as (Ec & _).
    apply same_core_stuck in Ec; [|done]. destruct b; intros Hrun; [by eapply handleActivation_stuck in Hrun as [? _]|]. by injection Hrun as <- _.
  - by intros ->%ar_command_stuck.
  - by intros [= <- <-].
  - unfold ar_doRemoteSetup. intros [= Hrun].
    destruct (ar_setups rh) as [|[[rc nn] cmd] rest]; [by injection Hrun as <- _|]. destruct (ar_init_loop _ _) as [[] o]; by injection Hrun as <- _.
  - unfold ar_acceptor. rewrite Hh. by intros ([acc o] & _ & [= <- <-])%bind_Ok.
Qed.

(** Before it is stateful a replica does not stop its acceptor. *)
Lemma handleActivation_unborn rh ac adu rh' outs :
  ar_stateful rh = false → handleActivation rh ac adu = Ok (rh', outs) → ar_held rh' = ar_held rh.
Proof.
  intros Hs Hrun. unfold handleActivation in Hrun. rewrite Hs, andb_false_r in Hrun. cbn [mbind res_bind] in Hrun.
  apply bind_Ok in Hrun as (rh1 & H1 & Hrun). apply changeEpoch_core in H1 as (_ & _ & E3 & _ & E5 & _).
  cbv zeta in Hrun. destruct (install_state_core rh1 ac) as (_ & I2 & _ & I4 & _). set (rh3 := install_state rh1 ac) in *. clearbody rh3.
  destruct (bool_decide _).
  - apply bind_Ok in Hrun as (rh4 & H4 & [= <- _]). unfold go_valid in H4.
    change (ar_stateful (rh3 <| ar_valid := true |> <| ar_confs := ∅ |>)) with (ar_stateful rh3) in H4. rewrite I2, E3, Hs in H4.
    destruct (ar_running _); [done|]. injection H4 as <-. rewrite <- E5, <- I4. done.
  - injection Hrun as <- <-. destruct (wait_next_core rh3) as (_ & _ & _ & W4 & _). congruence.
Qed.

Lemma ar_step_unborn rh ev rh' outs : ar_stateful rh = false → ar_step rh ev = Ok (rh', outs) → ar_held rh' = ar_held rh.
Proof.
  intros Hs. destruct ev as [m adu get|id|rm connect|cp adu|ac adu|adu get|cmd|init_ok|ev]; cbn [ar_step].
  - unfold ar_command, handleReconfCmd. rewrite Hs, orb_true_r. destruct (ar_handleFdMsg rh m); by intros [= <- _].
  - by intros [= <- <-].
  - unfold ar_reconf, handleReconfMsg. rewrite Hs. by intros [= <- _].
  - intros ([rh1 act] & H1 & Hrun)%bind_Ok. apply handleCPromise_core in H1 as [(_ & E2 & _ & E4 & _) _]. unfold ar_activate in Hrun. cbn [fst snd] in Hrun.
    destruct act; [|injection Hrun as <- _; congruence]. apply handleActivation_unborn in Hrun; congruence.
  - destruct (checkOutsideActivation rh ac) as [rh1 b] eqn:Ec. apply checkOutsideActivation_core in Ec as [(_ & E2 & _ & E4 & _) _].
    destruct b; intros Hrun; [apply handleActivation_unborn in Hrun; congruence|]. injection Hrun as <- _. congruence.
  - unfold ar_command, handleReconfCmd. destruct (head (ar_cmdChan rh)) as [cmd|]; [|by intros [= <- _]].
    change (ar_stateful (rh <| ar_cmdChan ::= tail |>)) with (ar_stateful rh). rewrite Hs, orb_true_r. by intros [= <- _].
  - by intros [= <- <-].
  - unfold ar_doRemoteSetup. intros [= Hrun].
    destruct (ar_setups rh) as [|[[rc nn] cmd] rest]; [by injection Hrun as <- _|]. destruct (ar_init_loop _ _) as [[] o]; by injection Hrun as <- _.
  - unfold ar_acceptor. destruct (ar_held rh) eqn:Eh; [intros [= <- _]; congruence|]. intros ([acc o] & _ & [= <- <-])%bind_Ok. done.
Qed.

(** A new replica that is first activated in a configuration which is already
    outdated never takes part again: its acceptor does not wait for a release,
    so the activation in the next configuration waits for ever, and whatever
    else happens the replica is never valid. *)
Theorem late_replica_never_valid id rleader g acc evs rh outs ev rh1 outs1 evs' rh2 outs2 :
  IDEpoch id ≠ 0 → run ar_step (NewAReconfHandler id rleader g acc) evs rh outs → ar_stateful rh = false →
  ar_step rh ev = Ok (rh1, outs1) → ar_stateful rh1 = true → ar_valid rh1 = false →
  run ar_step rh1 evs' rh2 outs2 →
  ar_valid rh2 = false ∧ ∀ ac adu r, ar_maxEpochSeen rh2 ≤ act_Epoch ac → handleActivation rh2 ac adu ≠ Ok r.
Proof.
  intros Hid Hr Hs Hstep Hs1 Hv1 Hr2.
  assert (ar_held rh = false) as Hh.
  { clear -Hr Hs RL. induction Hr as [|evs rh1 o1 ev rh2 o2 Hr IH H]; [done|].
    destruct (ar_stateful rh1) eqn:E1; [by apply ar_step_core in H as [_ _ H3 _ _]; rewrite H3 in Hs|]. rewrite (ar_step_unborn _ _ _ _ E1 H). by apply IH. }
  assert (stuck rh2) as Hst.
  { assert (stuck rh1) as H1 by (repeat split; [done..|]; rewrite (ar_step_unborn _ _ _ _ Hs Hstep); done).
    clear -H1 Hr2 RL. induction Hr2; [done|]. by eapply ar_step_stuck. }
  split; [apply Hst|]. intros ac adu [rh3 o3] Hm Hact. apply handleActivation_stuck in Hact as [_ ?]; [lia|done].
Qed.
(** * What an activation rests on *)

Definition cpromises_of (evs : list AREvent) : list CPromise := omap (λ ev, match ev with ARCPromise cp _ => Some cp | _ => None end) evs.
Lemma cpromises_of_app e1 e2 : cpromises_of (e1 ++ e2) = cpromises_of e1 ++ cpromises_of e2.
Proof. apply omap_app. Qed.

Lemma check_loop epoch l : ∀ acc ids,
  (∀ cp, cp ∈ acc → IDEpoch (cp_ID cp) = epoch ∧ PxID (cp_ID cp) ∈ ids) → NoDup (PxID ∘ cp_ID <$> acc) →
  let acc' := (foldl (check_step epoch) (acc, ids) l).1 in
  (∀ cp, cp ∈ acc' → IDEpoch (cp_ID cp) = epoch ∧ (cp ∈ acc ∨ cp ∈ l)) ∧ NoDup (PxID ∘ cp_ID <$> acc').
Proof.
  induction l as [|cp l IH]; intros acc ids Hin Hnd; cbn [foldl]; cbv zeta.
  - split; [|done]. intros c Hc. split; [by apply Hin|by left].
  - change (check_step epoch (acc, ids) cp) with (if bool_decide (IDEpoch (cp_ID cp) = epoch) && negb (bool_decide (PxID (cp_ID cp) ∈ ids))
      then (acc ++ [cp], {[ PxID (cp_ID cp) ]} ∪ ids) else (acc, ids)). destruct (bool_decide (IDEpoch (cp_ID cp) = epoch) && _) eqn:E.
    + apply andb_true_iff in E as [E1%bool_decide_eq_true E2%negb_true_iff%bool_decide_eq_false].
      destruct (IH (acc ++ [cp]) ({[ PxID (cp_ID cp) ]} ∪ ids)) as [H1 H2].
      * intros c [Hc|Hc%list_elem_of_singleton]%elem_of_app; [|subst; split; [done|set_solver]]. destruct (Hin c Hc). split; [done|set_solver].
      * rewrite fmap_app. apply NoDup_app. split; [done|]. split; [|apply NoDup_singleton].
        intros p (c & -> & Hc)%list_elem_of_fmap Hp%list_elem_of_singleton. destruct (Hin c Hc) as [_ Hids]. cbn in *. congruence.
      * split; [|done]. intros c Hc. destruct (H1 c Hc) as [? [[?|?%list_elem_of_singleton]%elem_of_app|?]]; (split; [done|]); [by left|right; subst; left|right; by right].
    + destruct (IH acc ids Hin Hnd) as [H1 H2]. split; [|done]. intros c Hc. destruct (H1 c Hc) as [? [?|?]]; (split; [done|]); [by left|right; by right].
Qed.

(** What [check] accepts is a quorum in the eyes of its first promise. *)
Lemma check_spec msgs epoch q : check msgs epoch = (true, q) →
  ∃ first rest, q = first :: rest ∧ cp_QuorumSize first ≤ u64 (len q) ∧ NoDup (PxID ∘ cp_ID <$> q) ∧
    ∀ cp, cp ∈ q → cp ∈ msgs ∧ IDEpoch (cp_ID cp) = epoch.
Proof.
  unfold check. destruct (check_loop epoch msgs [] ∅) as [H1 H2]; [by intros ? ?%elem_of_nil|apply NoDup_nil_2|].
  destruct (foldl _ _ _).1 as [|m l]; [done|]. destruct (bool_decide_reflect (u64 (len (m :: l)) < cp_QuorumSize m)) as [|Hq]; [done|]. intros [= <-].
  exists m, l. split_and!; [done|lia|done|]. intros cp Hc. destruct (H1 cp Hc) as [? [?%elem_of_nil|?]]; done.
Qed.

(** Which promises the handler has, and when it activates. *)
Lemma handleCPromise_spec rh cp rh' act : handleCPromise rh cp = Ok (rh', act) →
  (ar_cPromises rh' = ar_cPromises rh ∧ act = None) ∨
  let e := IDEpoch (cp_ID cp) in let l := default [] (ar_cPromises rh !! e) ++ [cp] in
  ar_cPromises rh' = <[e := l]> (ar_cPromises rh) ∧
  (act = None ∨ ∃ q sm first, check l e = (true, q) ∧ ar_extractAcceptorState q = Ok (sm, first) ∧ act = Some (mkAct (cp_NewEpoch cp) first sm (ar_confs rh'))).
Proof.
  unfold handleCPromise. destruct (bool_decide _); [intros [= <- <-]; by left|]. destruct (_ && _); [intros [= <- <-]; by left|].
  destruct (store_confs cp _ rh) as [rh1 go] eqn:Es. apply store_confs_core in Es as [_ Hp].
  destruct go; cbn [negb]; [|intros [= <- <-]; by left]. rewrite Hp. intros Hrun. right. cbv zeta.
  destruct (ar_cPromises rh !! IDEpoch (cp_ID cp)) as [cpros|] eqn:El; cbn [default from_option app id] in *.
  - destruct (bool_decide _) in Hrun; [injection Hrun as <- <-; rewrite <- Hp; by split; [|left]|].
    destruct (check _ _) as [vq q] eqn:Ec in Hrun. destruct vq; cbn [negb] in Hrun; [|injection Hrun as <- <-; rewrite <- Hp; by split; [|left]].
    apply bind_Ok in Hrun as ([st first] & Hex & [= <- <-]). rewrite <- Hp. split; [done|]. right. by exists q, st, first.
  - injection Hrun as <- <-. rewrite <- Hp. by split; [|left].
Qed.

Lemma handleActivation_acc rh ac adu rh' outs : handleActivation rh ac adu = Ok (rh', outs) →
  a_slots (ar_acc rh') = act_AccState ac ∧ a_lowSlot (ar_acc rh') = u64 (act_AduSlot ac + 1) ∧ ∀ s, ARNextSlot s ∈ outs → s = u64 (act_AduSlot ac + 1).
Proof.
  unfold handleActivation. intros (rh1 & _ & Hrun)%bind_Ok. apply bind_Ok in Hrun as (rh2 & _ & Hrun). cbv zeta in Hrun.
  assert (a_slots (ar_acc (install_state rh2 ac)) = act_AccState ac ∧ a_lowSlot (ar_acc (install_state rh2 ac)) = u64 (act_AduSlot ac + 1) ∧
    ar_accFirstSlot (install_state rh2 ac) = u64 (act_AduSlot ac + 1)) as (I1 & I2 & I3) by by split_and!.
  set (rh3 := install_state rh2 ac) in *. clearbody rh3. rewrite I3 in Hrun.
  match type of Hrun with (if _ then _ else mret (_, ?o)) = _ => assert (∀ s, ARNextSlot s ∈ o → s = u64 (act_AduSlot ac + 1)) as Ho end.
  { intros s [[= ->]|(? & ? & _)%list_elem_of_fmap]%elem_of_cons; done. }
  destruct (bool_decide _); [|injection Hrun as <- <-; by split_and!].
  apply bind_Ok in Hrun as (rh4 & H4 & [= <- <-]). unfold go_valid, acceptor_release in H4. cbv zeta in H4.
  destruct (ar_stateful _); [destruct (ar_held _); [|done]|destruct (ar_running _); [done|]]; injection H4 as <-; by split_and!.
Qed.

Lemma ar_activate_frame r adu rh' outs : ar_activate r adu = Ok (rh', outs) → ar_cPromises rh' = ar_cPromises r.1.
Proof. unfold ar_activate. destruct r.2; [by intros (_ & _ & _ & _ & _ & _ & ? & _)%handleActivation_core|]. by intros [= <- _]. Qed.

(** Every promise that a handler has was sent to it. *)
Definition stored rh (l0 : list CPromise) : Prop := ∀ e l, ar_cPromises rh !! e = Some l → l ⊆ l0.

Lemma stored_same rh rh' l0 : ar_cPromises rh' = ar_cPromises rh → stored rh l0 → stored rh' l0.
Proof. intros E. unfold stored. by rewrite E. Qed.

Lemma stored_CPromise rh cp rh' act l0 : stored rh l0 → handleCPromise rh cp = Ok (rh', act) → stored rh' (l0 ++ [cp]).
Proof.
  intros Hst Hrun%handleCPromise_spec. intros e l Hl p Hp.
  destruct Hrun as [[E _]|[E _]]; rewrite E in Hl; [apply elem_of_app; left; by apply (Hst e l)|].
  apply lookup_insert_Some in Hl as [[<- <-]|[_ Hl]]; [|apply elem_of_app; left; by apply (Hst e l)].
  apply elem_of_app in Hp as [Hp|Hp]; apply elem_of_app; [left|by right].
  destruct (ar_cPromises rh !! IDEpoch (cp_ID cp)) as [l1|] eqn:El; cbn in Hp; [by apply (Hst _ _ El)|by apply elem_of_nil in Hp].
Qed.

Lemma ar_step_stored rh ev rh' outs l0 : stored rh l0 → ar_step rh ev = Ok (rh', outs) → stored rh' (l0 ++ cpromises_of [ev]).
Proof.
  intros Hst. destruct ev as [m adu get|id|rm connect|cp adu|ac adu|adu get|cmd|init_ok|ev]; cbn [ar_step cpromises_of omap list_omap]; rewrite ?app_nil_r.
  - unfold ar_command. destruct (ar_handleFdMsg rh m); [|by intros [= <- _]].
    intros (rh1 & (_ & _ & _ & _ & ? & _)%handleReconfCmd_core & [= <- _])%bind_Ok. by eapply stored_same.
  - by intros [= <- <-].
  - unfold ar_reconf. intros ([rh1 cp] & (_ & _ & _ & _ & E & _)%handleReconfMsg_core & Hrun)%bind_Ok. apply (stored_same rh); [|done].
    destruct cp; [|by injection Hrun as <- _]. by apply bind_Ok in Hrun as (o & _ & [= <- _]).
  - intros (r & H1 & Hrun%ar_activate_frame)%bind_Ok. destruct r as [rh1 act]. apply (stored_same rh1); [done|]. by eapply stored_CPromise.
  - destruct (checkOutsideActivation rh ac) as [rh1 b] eqn:Ec. apply checkOutsideActivation_core in Ec as (_ & E & _).
    destruct b; [intros (_ & _ & _ & _ & _ & _ & E' & _)%handleActivation_core|intros [= <- _]; by apply (stored_same rh)].
    apply (stored_same rh); [congruence|done].
  - unfold ar_command. destruct (head (ar_cmdChan rh)); [|by intros [= <- _]].
    intros (rh1 & (_ & _ & _ & _ & E & _)%handleReconfCmd_core & [= <- _])%bind_Ok. by apply (stored_same rh).
  - by intros [= <- <-].
  - unfold ar_doRemoteSetup. intros [= Hrun].
    destruct (ar_setups rh) as [|[[rc nn] cmd] rest]; [by injection Hrun as <- _|]. destruct (ar_init_loop _ _) as [[] o]; by injection Hrun as <- _.
  - unfold ar_acceptor. destruct (ar_held rh); [by intros [= <- _]|]. by intros ([acc o] & _ & [= <- <-])%bind_Ok.
Qed.

(** C27: A promise activates a configuration only with a quorum: the handler has
    been sent promises from replicas of one old configuration, as many different
    ones as the first of them asks for. Its acceptor then starts in the highest
    of their rounds and after the highest of their adus, and without any vote. *)
Theorem activation_has_quorum id rleader g acc evs rh outs cp adu rh' outs' s :
  run ar_step (NewAReconfHandler id rleader g acc) evs rh outs →
  ar_step rh (ARCPromise cp adu) = Ok (rh', outs') → ARNextSlot s ∈ outs' →
  Forall (λ p, 0 ≤ cp_AduSlot p) (cpromises_of (evs ++ [ARCPromise cp adu])) →
  ∃ first rest maxAdu, let q := first :: rest in
    q ⊆ cpromises_of (evs ++ [ARCPromise cp adu]) ∧ Forall (λ p, IDEpoch (cp_ID p) = IDEpoch (cp_ID cp)) q ∧
    NoDup (PxID ∘ cp_ID <$> q) ∧ cp_QuorumSize first ≤ len q ∧
    (∀ p, p ∈ q → cp_AduSlot p ≤ maxAdu ∧ RndNo (asm_Rnd (cp_AccState p)) ≤ RndNo (asm_Rnd (a_slots (ar_acc rh')))) ∧
    (maxAdu = 0 ∨ ∃ p, p ∈ q ∧ maxAdu = cp_AduSlot p) ∧
    a_lowSlot (ar_acc rh') = u64 (maxAdu + 1) ∧ s = u64 (maxAdu + 1) ∧
    ∀ j, as_VRnd (aslot (a_slots (ar_acc rh')) j) = ZeroRound.
Proof.
  intros Hr Hstep Hs Hadu.
  assert (stored rh (cpromises_of evs)) as Hst.
  { clear -Hr RL. induction Hr as [|evs rh1 o1 ev rh2 o2 Hr IH H]; [intros e l Hl; cbn in Hl; by rewrite lookup_empty in Hl|].
    rewrite cpromises_of_app. by eapply ar_step_stored. }
  cbn [ar_step] in Hstep. apply bind_Ok in Hstep as ([rh1 act] & H1 & Hact). unfold ar_activate in Hact. cbn [fst snd] in Hact.
  pose proof (stored_CPromise _ _ _ _ _ Hst H1) as Hst1. rewrite cpromises_of_app in *. change (cpromises_of [ARCPromise cp adu]) with [cp] in *.
  apply handleCPromise_spec in H1 as [[_ ->]|[Ep [->|(q & sm & first & Hc & Hex & ->)]]]; [by injection Hact as <- <-; apply elem_of_nil in Hs..|].
  apply check_spec in Hc as (f & rest & -> & Hq & Hnd & Hin).
  assert (f :: rest ⊆ cpromises_of evs ++ [cp]) as Hsub.
  { intros p Hp. apply Hin in Hp as [Hp _]. eapply Hst1; [rewrite Ep; apply lookup_insert_eq|done]. }
  apply handleActivation_acc in Hact as (A1 & A2 & A3). cbn [act_AccState act_AduSlot] in *.
  destruct (ar_extractAcceptorState_spec (f :: rest)) as (sm' & first' & Hex' & Hb & Hw & _ & Hv); [done| |].
  { apply Forall_forall. intros p Hp. rewrite Forall_forall in Hadu. apply Hadu. by apply Hsub. }
  rewrite Hex' in Hex. injection Hex as -> ->. exists f, rest, first. cbv zeta. rewrite A1.
  split_and!; try done; [by apply Forall_forall; intros p [_ ?]%Hin| |by apply A3|intros j; apply Hv].
  etransitivity; [exact Hq|]. unfold u64. apply Z.mod_le; lia.
Qed.
End runs.

(** * A decision that is lost *)

(** Three replicas under asynchronous reconfiguration; replica 2 is the leader of replacements. *)
Definition ax_gm (i : Z) : GrpMgr := NewGrpMgr (ex_id i) ex_nodemap false true.
Definition ax_node (i : Z) : AReconfHandler :=
  NewAReconfHandler (ex_id i) (ex_id 2) (ax_gm i) (NewMultiAcceptor (ax_gm i) (ex_id i) true (ex_id 0) 0).
Definition ax_learner (i : Z) : MultiLearner := NewMultiLearner (ax_gm i) (ex_id i) true (ex_id 0) 1.
Definition ax_proposer (i : Z) : MultiProposer := NewMultiProposer (ax_gm i) (ex_id i) true (ex_id 0) 3 1.

Definition ar_learns (outs : list AROut) : list Learn :=
  omap (λ o, match o with ARAcc (AccSend (OBcast (MLearn m))) => Some m | _ => None end) outs.
Definition ar_promises (outs : list AROut) : list Promise :=
  omap (λ o, match o with ARAcc (AccSend (OUcast _ (MPromise m))) => Some m | _ => None end) outs.
Definition ar_cps (dst : ID) (outs : list AROut) : list CPromise :=
  omap (λ o, match o with ARPromise d cp => if decide (d = dst) then Some cp else None | _ => None end) outs.
Definition prop_prepares (outs : list PropOut) : list Prepare :=
  omap (λ o, match o with PropSend (OBcast (MPrepare m)) => Some m | _ => None end) outs.
Definition prop_accepts (outs : list PropOut) : list Accept :=
  omap (λ o, match o with PropSend (OBcast (MAccept m)) => Some m | _ => None end) outs.

(** Replicas 0 and 1 vote for a value of slot 1. Replica 1 is suspected, and
    replicas 0 and 2 activate the new configuration with each other's promises;
    then replica 2 becomes leader and has both votes for its own value. *)
Definition ax_run : option (list Out * list Out) :=
  let acc := mkAccept (ex_id 0) 1 (ex_rnd 1 0) (ex_val 7) in
  '(n0, o0) ← run_exec ar_step (ax_node 0) [ARAcceptor (AccAccept acc)];
  '(_, o1) ← run_exec ar_step (ax_node 1) [ARAcceptor (AccAccept acc)];
  '(_, d0) ← run_exec (learner_step (ax_gm 0)) (ax_learner 0) (LrnLearn <$> ar_learns (o0 ++ o1));
  '(n2, o2) ← run_exec ar_step (ax_node 2) [ARFd (mkFdMsg Suspect (ex_id 1)) 0 (λ _, Some ex_node); ARSetup (λ _, true)];
  let reconf := (λ rm, ARReconf rm (λ _, true)) <$> bcasts o2 in
  '(n0, o0) ← run_exec ar_step n0 reconf;
  '(n2, o2) ← run_exec ar_step n2 reconf;
  '(n0, _) ← run_exec ar_step n0 ((λ cp, ARCPromise cp 0) <$> ar_cps (ex_id 0) (o0 ++ o2));
  '(n2, _) ← run_exec ar_step n2 ((λ cp, ARCPromise cp 0) <$> ar_cps (ex_id 2) (o0 ++ o2));
  '(p, po) ← run_exec (proposer_step (ar_grp n2)) (ax_proposer 2) [PropHold; PropTrust (ar_id n2); PropValue (ex_val 8)];
  let prepares := ARAcceptor <$> (AccPrepare <$> prop_prepares po) in
  '(n0, o0) ← run_exec ar_step n0 prepares;
  '(n2, o2) ← run_exec ar_step n2 prepares;
  '(_, po) ← run_exec (proposer_step (ar_grp n2)) p (PropPromise <$> ar_promises (o0 ++ o2));
  let accepts := ARAcceptor <$> (AccAccept <$> prop_accepts po) in
  '(n0, o0) ← run_exec ar_step n0 accepts;
  '(n2, o2) ← run_exec ar_step n2 accepts;
  '(_, d2) ← run_exec (learner_step (ar_grp n2)) (ax_learner 2) (LrnLearn <$> ar_learns (o0 ++ o2));
  Some (d0, d2).


(** * Witnesses *)

(** The new configuration of this run, and a later one. *)
Definition ax_nodes (epoch : Epoch) : gmap ID Node := {[ mkID 0 epoch := ex_node; mkID 1 epoch := ex_node; mkID 2 epoch := ex_node ]}.
Definition ax_vote : AcceptorSlotMap := mkAcceptorSlotMap {[ 1 := mkAcceptorSlot 1 (ex_rnd 1 0) (ex_val 7) ]} (ex_rnd 1 0) 1.
Definition ax_cp (i epoch : Z) (confs : Confs) : CPromise := mkCP (ex_id i) 2 ex_node epoch confs 4 ax_vote.
Definition ax_reconf : AREvent := ARReconf (mkARM 12 (ax_nodes 12) {[ ex_id 0 := true; ex_id 2 := true ]} 4) (λ _, true).
Definition ax_activation (i epoch : Z) (confs : Confs) : AREvent := ARCPromise (ax_cp i epoch confs) 4.
Definition ax_new : AReconfHandler :=
  NewAReconfHandler (mkID 1 12) (ex_id 2) (NewGrpMgr (mkID 1 12) ex_nodemap false true) (NewMultiAcceptor (ax_gm 1) (mkID 1 12) true (ex_id 0) 0).


(** Where a run ends that does. *)
Definition ends (rh : AReconfHandler) (evs : list AREvent) : AReconfHandler * list AROut := default (rh, []) (run_exec ar_step rh evs).
Lemma ends_run rh evs : is_Some (run_exec ar_step rh evs) → run ar_step rh evs (ends rh evs).1 (ends rh evs).2.
Proof. intros [[rh' o] E]. unfold ends. rewrite E. by apply run_exec_run. Qed.

(** Replica 0 is activated by the promises of replicas 0 and 2 and starts after slot 4. *)
Definition ax_confs12 : Confs := {[ 12 := ax_nodes 12 ]}.
Definition ax_half : list AREvent := [ax_reconf; ax_activation 0 12 ax_confs12].
Lemma activation_has_quorum_witness :
  ∃ rh outs rh' outs', run ar_step (ax_node 0) ax_half rh outs ∧
    ar_step rh (ax_activation 2 12 ax_confs12) = Ok (rh', outs') ∧ ARNextSlot 5 ∈ outs' ∧ ∀ j, as_VRnd (aslot (a_slots (ar_acc rh')) j) = ZeroRound.
Proof.
  assert (run ar_step (ax_node 0) ax_half (ends (ax_node 0) ax_half).1 (ends (ax_node 0) ax_half).2) as Hr by (apply ends_run; vm_compute; by eexists).
  destruct (ar_step (ends (ax_node 0) ax_half).1 (ax_activation 2 12 ax_confs12)) as [[rh' outs']| |] eqn:E2; [|exfalso; revert E2; vm_compute; discriminate..].
  assert (ARNextSlot 5 ∈ outs') as Hin.
  { assert (head outs' = Some (ARNextSlot 5)) as Hh by (revert E2; vm_compute; by intros [= <- <-]). destruct outs'; [done|]. injection Hh as ->. left. }
  do 4 eexists. split; [exact Hr|]. split; [exact E2|]. split; [exact Hin|].
  destruct (activation_has_quorum (ex_id 0) (ex_id 2) (ax_gm 0) (NewMultiAcceptor (ax_gm 0) (ex_id 0) true (ex_id 0) 0)
    ax_half (ends (ax_node 0) ax_half).1 (ends (ax_node 0) ax_half).2 (ax_cp 2 12 ax_confs12) 4 rh' outs' 5) as (f & rest & m & _ & _ & _ & _ & _ & _ & _ & _ & H); [exact Hr|exact E2|exact Hin|by repeat constructor|]. exact H.
Defined.

(** A new replica of epoch 12 that learns of epoch 24 with its promises. *)
Definition ax_confs : Confs := {[ 12 := ax_nodes 12; 24 := ax_nodes 24 ]}.

Lemma late_replica_never_valid_witness :
  ∃ rh outs rh1 outs1, run ar_step ax_new [ax_activation 0 12 ax_confs] rh outs ∧
    ar_step rh (ax_activation 2 12 ax_confs) = Ok (rh1, outs1) ∧ ar_stateful rh1 = true ∧
    ∀ r, handleActivation rh1 (mkAct 24 4 ax_vote ∅) 4 ≠ Ok r.
Proof.
  set (evs := [ax_activation 0 12 ax_confs]).
  assert (run ar_step ax_new evs (ends ax_new evs).1 (ends ax_new evs).2) as Hr by (apply ends_run; vm_compute; by eexists).
  assert (ar_stateful (ends ax_new evs).1 = false) as H1 by (vm_compute; reflexivity).
  destruct (ar_step (ends ax_new evs).1 (ax_activation 2 12 ax_confs)) as [[rh1 outs1]| |] eqn:E2; [|exfalso; revert E2; vm_compute; discriminate..].
  assert (ar_stateful rh1 = true ∧ ar_valid rh1 = false ∧ ar_maxEpochSeen rh1 = 24) as (H2 & H3 & H4) by (revert E2; vm_compute; by intros [= <- <-]).
  do 4 eexists. split; [exact Hr|]. split; [exact E2|]. split; [exact H2|]. intros r.
  refine (proj2 (late_replica_never_valid (mkID 1 12) (ex_id 2) (NewGrpMgr (mkID 1 12) ex_nodemap false true)
    (NewMultiAcceptor (ax_gm 1) (mkID 1 12) true (ex_id 0) 0) evs (ends ax_new evs).1 (ends ax_new evs).2 (ax_activation 2 12 ax_confs) rh1 outs1 [] rh1 []
    _ Hr H1 E2 H2 H3 (run_nil _ _)) _ _ r _); [discriminate|]. rewrite H4. cbn. lia.
Defined.
