(* ===== verification/Reconfig.v ===== *)
(** The reconfiguration handler (src/reconfig/): it hands the ring replacer's
    messages to the leader, and has one reconfiguration proposed after another.
    Its goroutine and the server's share a flag and a queue under a mutex. *)
From S2P Require Import Prelude Grp PaxosTypes RingReplacer.

(** * State *)

(** Where the handler's goroutine is: in its select, before the mutex in
    [rh_handleRecMsg], or at one of the two sends that have no buffer. *)
Inductive RhPc :=
| RhIdle
| RhLocking (recMsg : ReconfMsg)
| RhProposing (recMsg : ReconfMsg)
| RhFirstSlot (slot : SlotID).

(** Where the server's goroutine is: elsewhere, before the mutex in one of the
    two calls, or at the send in [SignalReconfCompleted], with the mutex. *)
Inductive SvPc := SvElsewhere | SvSetting (inProgress : bool) | SvSignalling | SvSending.

Record ReconfigHandler := mkRH {
  rh_id : ID; rh_pxLeader : ID; rh_reconfInProgress : bool; rh_reconfMsgQueue : list ReconfMsg;
  rh_firstSlot : option SlotID; rh_joined : bool; rh_pc : RhPc; rh_server : SvPc }.
#[export] Instance eta_ReconfigHandler : Eta ReconfigHandler := λ r,
  mkRH (rh_id r) (rh_pxLeader r) (rh_reconfInProgress r) (rh_reconfMsgQueue r) (rh_firstSlot r) (rh_joined r) (rh_pc r) (rh_server r).

Definition NewReconfigHandler (id leader : ID) : ReconfigHandler := mkRH id leader false [] None false RhIdle SvElsewhere.

Inductive RhOut :=
| RhCmd (cmd : ReconfigCmd)                    (* to the server, which proposes it *)
| RhForward (dest : ID) (recMsg : ReconfMsg)
| RhSlot (slot : SlotID)                       (* what [WaitForFirstSlot] returns *)
| RhJoined.                                    (* [WaitForJoin] returns *)

Inductive RhEvent :=
| RhMsg (recMsg : ReconfMsg)
| RhLd (id : ID)
| RhFirst (slot : SlotID)
| RhJoin
| RhLock | RhPropose                           (* the handler goes on *)
| RhWaitFirst | RhWaitJoin                     (* a new replica's server *)
| SvSet (inProgress : bool) | SvSignal         (* the server's calls *)
| SvLock | SvSend.                             (* the server goes on *)

Implicit Types rh : ReconfigHandler.

(** * Operations *)

Definition nodeIsPaxosLeader rh : bool := bool_decide (rh_id rh = rh_pxLeader rh).

(** [recMsg.NewIds[0]] panics. *)
Definition createReconfigCmd (recMsg : ReconfMsg) : option ReconfigCmd :=
  newID ← head (rm_NewIds recMsg); Some (mkReconfigCmd (rm_NodeMap recMsg) newID).

#[global] Arguments createReconfigCmd : simpl never.

(** Up to the mutex. *)
Definition rh_handleRecMsg rh (recMsg : ReconfMsg) : ReconfigHandler * list RhOut :=
  if negb (nodeIsPaxosLeader rh) then (rh, [RhForward (rh_pxLeader rh) recMsg])
  else (rh <| rh_pc := RhLocking recMsg |>, []).

(** The critical section; a command is created after it. *)
Definition rh_handleRecMsg_locked rh (recMsg : ReconfMsg) : res ReconfigHandler :=
  if rh_reconfInProgress rh then Ok (rh <| rh_reconfMsgQueue ::= λ q, q ++ [recMsg] |> <| rh_pc := RhIdle |>)
  else
    let rh := rh <| rh_reconfInProgress := true |> in
    match createReconfigCmd recMsg with
    | None => Panic
    | Some _ => Ok (rh <| rh_pc := RhProposing recMsg |>)
    end.

(** The rest of it only decides whether to call a function that is commented out. *)
Definition handleLdMsg rh (pxLeaderID : ID) : ReconfigHandler := rh <| rh_pxLeader := pxLeaderID |>.

Definition handleFirstSlot rh (slot : SlotID) : ReconfigHandler :=
  match rh_firstSlot rh with None => rh <| rh_pc := RhFirstSlot slot |> | Some _ => rh end.
Definition handleJoin rh : ReconfigHandler := rh <| rh_joined := true |>.

Definition SetReconfigInProgress rh (inProgress : bool) : ReconfigHandler := rh <| rh_reconfInProgress := inProgress |> <| rh_server := SvElsewhere |>.
Definition SignalReconfCompleted rh : ReconfigHandler :=
  let rh := rh <| rh_reconfInProgress := false |> in
  rh <| rh_server := match rh_reconfMsgQueue rh with [] => SvElsewhere | _ => SvSending end |>.

(** What is sent to a channel that nobody receives from waits ([Diverge]). The
    mutex is held from step to step in [SvSending] only. *)
Definition rh_step rh (ev : RhEvent) : res (ReconfigHandler * list RhOut) :=
  match ev, rh_pc rh, rh_server rh with
  | RhMsg recMsg, RhIdle, _ => Ok (rh_handleRecMsg rh recMsg)
  | RhLd id, RhIdle, _ => Ok (handleLdMsg rh id, [])
  | RhFirst slot, RhIdle, _ => Ok (handleFirstSlot rh slot, [])
  | RhJoin, RhIdle, _ => Ok (handleJoin rh, [])
  | RhLock, RhLocking recMsg, (SvElsewhere | SvSetting _ | SvSignalling) => rh ← rh_handleRecMsg_locked rh recMsg; mret (rh, [])
  | RhPropose, RhProposing recMsg, SvElsewhere => Ok (rh <| rh_pc := RhIdle |>, RhCmd <$> option_list (createReconfigCmd recMsg))
  | RhWaitFirst, RhFirstSlot slot, _ => Ok (rh <| rh_firstSlot := Some slot |> <| rh_pc := RhIdle |>, [RhSlot slot])
  | RhWaitFirst, _, _ => if rh_firstSlot rh is Some _ then Ok (rh, [RhSlot 0]) else Diverge     (* a closed channel *)
  | RhWaitJoin, _, _ => if rh_joined rh then Ok (rh, [RhJoined]) else Diverge
  | SvSet b, _, SvElsewhere => Ok (rh <| rh_server := SvSetting b |>, [])
  | SvSignal, _, SvElsewhere => Ok (rh <| rh_server := SvSignalling |>, [])
  | SvLock, _, SvSetting b => Ok (SetReconfigInProgress rh b, [])
  | SvLock, _, SvSignalling => Ok (SignalReconfCompleted rh, [])
  | SvSend, RhIdle, SvSending =>
      match rh_reconfMsgQueue rh with
      | [] => Panic
      | recMsg :: q => Ok (rh_handleRecMsg (rh <| rh_reconfMsgQueue := q |> <| rh_server := SvElsewhere |>) recMsg)
      end
  | _, _, _ => Diverge
  end.

(** What a provider of machines and the remote initialisation answer are
    arguments. (Nothing calls this.) *)
Definition prepareReconfig (nm : NodeMap) (newNodeID : ID) (newNode : option Node) (initialised : bool) : option (gmap ID Node) :=
  newNode ← newNode; if initialised : bool then Some (<[newNodeID := newNode]> (CloneMap nm)) else None.

(** * No message is lost *)

Definition rh_received (evs : list RhEvent) : list ReconfMsg := omap (λ ev, match ev with RhMsg m => Some m | _ => None end) evs.
Definition cmds_of (outs : list RhOut) : list ReconfigCmd := omap (λ o, match o with RhCmd cmd => Some cmd | _ => None end) outs.
Definition forwards_of (outs : list RhOut) : list ReconfMsg := omap (λ o, match o with RhForward _ m => Some m | _ => None end) outs.
Definition in_hand rh : list ReconfMsg := match rh_pc rh with RhLocking m | RhProposing m => [m] | _ => [] end.

Record rh_inv (evs : list RhEvent) rh (outs : list RhOut) : Prop := {
  ri_msgs : (Some <$> cmds_of outs) ++ (createReconfigCmd <$> forwards_of outs ++ rh_reconfMsgQueue rh ++ in_hand rh) ≡ₚ
    createReconfigCmd <$> rh_received evs;
  ri_proposing : ∀ m, rh_pc rh = RhProposing m → is_Some (createReconfigCmd m);
}.

Lemma rh_handleRecMsg_moves rh m rh' outs : rh_pc rh = RhIdle → rh_handleRecMsg rh m = (rh', outs) →
  cmds_of outs = [] ∧ forwards_of outs ++ rh_reconfMsgQueue rh' ++ in_hand rh' ≡ₚ m :: rh_reconfMsgQueue rh ∧ ∀ m, rh_pc rh' ≠ RhProposing m.
Proof.
  intros Hpc. unfold rh_handleRecMsg. destruct (negb _); intros [= <- <-]; unfold in_hand; cbn; rewrite ?Hpc.
  - by rewrite app_nil_r.
  - split_and!; [done| |done]. symmetry. apply Permutation_cons_append.
Qed.

(** A step takes the message that arrives, if any, and what it had, to what it
    proposes, what it forwards, and what it has. *)
Lemma rh_step_moves rh ev rh' outs : (∀ m, rh_pc rh = RhProposing m → is_Some (createReconfigCmd m)) → rh_step rh ev = Ok (rh', outs) →
  (Some <$> cmds_of outs) ++ (createReconfigCmd <$> forwards_of outs ++ rh_reconfMsgQueue rh' ++ in_hand rh') ≡ₚ
    createReconfigCmd <$> rh_received [ev] ++ rh_reconfMsgQueue rh ++ in_hand rh ∧
  (∀ m, rh_pc rh' = RhProposing m → is_Some (createReconfigCmd m)).
Proof.
  intros Hp Hs.
  assert (∀ q m sv rh1 o1, rh_pc rh = RhIdle → rh_handleRecMsg (rh <| rh_reconfMsgQueue := q |> <| rh_server := sv |>) m = (rh1, o1) →
    (Some <$> cmds_of o1) ++ (createReconfigCmd <$> forwards_of o1 ++ rh_reconfMsgQueue rh1 ++ in_hand rh1) ≡ₚ createReconfigCmd <$> m :: q ++ in_hand rh ∧
    ∀ m, rh_pc rh1 = RhProposing m → is_Some (createReconfigCmd m)) as Hrec.
  { intros q m sv rh1 o1 Hpc Hx. apply rh_handleRecMsg_moves in Hx as (-> & Hm & Hn); [|done]. cbn in Hm. unfold in_hand at 2. rewrite Hpc, app_nil_r.
    split; [by rewrite Hm|]. intros m' Hm'. by apply Hn in Hm'. }
  destruct rh as [id ld inp q fs j pc sv]. unfold in_hand in *.
  destruct ev as [m|l|s| | | | | |b| | |], pc as [|m'|m'|s'], sv as [|b'| |]; cbn in Hs; try discriminate Hs.
  all: try (injection Hs as <- <-; cbn; by split).
  all: try (destruct fs; injection Hs as <- <-; cbn; by split).
  all: try (destruct fs; [|done]; injection Hs as <- <-; cbn; by split).
  all: try (destruct j; [|done]; injection Hs as <- <-; cbn; by split).
  1-4: injection Hs as Hs; exact (Hrec q m _ _ _ eq_refl Hs).
  1-3: unfold rh_handleRecMsg_locked in Hs; cbn in Hs; destruct inp; [injection Hs as <- <-; cbn; by rewrite app_nil_r|];
    destruct (createReconfigCmd m') eqn:Em; [|done]; injection Hs as <- <-; cbn; split; [done|]; intros m2 E2; simplify_eq; eauto.
  - destruct (Hp m' eq_refl) as [cmd Em]. rewrite Em in Hs. injection Hs as <- <-. cbn. rewrite app_nil_r, fmap_app. cbn. rewrite Em. split; [|done].
    apply Permutation_cons_append.
  - destruct q as [|m q]; [done|]. injection Hs as Hs. exact (Hrec q m _ _ _ eq_refl Hs).
Qed.

Lemma flow {A} (a1 a2 f1 f2 s1 s2 r1 r2 : list A) : a1 ++ f1 ++ s1 ≡ₚ r1 → a2 ++ f2 ++ s2 ≡ₚ r2 ++ s1 → (a1 ++ a2) ++ (f1 ++ f2) ++ s2 ≡ₚ r1 ++ r2.
Proof.
  intros <- H. transitivity ((a1 ++ f1) ++ a2 ++ f2 ++ s2).
  - rewrite <- !(assoc_L (++)). apply Permutation_app_head. rewrite !(assoc_L (++)). do 2 apply Permutation_app_tail. apply Permutation_app_comm.
  - rewrite H, <- !(assoc_L (++)). do 2 apply Permutation_app_head. apply Permutation_app_comm.
Qed.


(** * Two goroutines *)

Definition rh_ex_msg (n : Z) : ReconfMsg := mkRecMsg {[ mkID 1 n := ex_node ]} [mkID 1 n] 0.
Definition rh_ex_cmd (n : Z) : ReconfigCmd := mkReconfigCmd {[ mkID 1 n := ex_node ]} (mkID 1 n).
Definition rh_ex : ReconfigHandler := NewReconfigHandler (ex_id 0) (ex_id 0).
Definition rh_end (evs : list RhEvent) : ReconfigHandler * list RhOut := default (rh_ex, []) (run_exec rh_step rh_ex evs).
Lemma rh_end_run evs : is_Some (run_exec rh_step rh_ex evs) → run rh_step rh_ex evs (rh_end evs).1 (rh_end evs).2.
Proof. intros [[rh o] E]. unfold rh_end. rewrite E. by apply run_exec_run. Qed.

(** A first message is proposed, and a second one queued. *)
Definition rh_evs_queue : list RhEvent := [RhMsg (rh_ex_msg 1); RhLock; RhPropose; RhMsg (rh_ex_msg 2); RhLock].
(** The server completes the first reconfiguration, with the two calls that it
    makes then; the handler gets the queued message in between. *)
Definition rh_evs_done : list RhEvent := [SvSignal; SvLock; SvSend; RhLock; SvSet false; SvLock; RhPropose].
(** The server's goroutine is at the send, with the mutex, and the handler's has
    another message. *)
Definition rh_evs_stuck : list RhEvent := [SvSignal; RhMsg (rh_ex_msg 3); SvLock].

(** The server ends a reconfiguration with [SignalReconfCompleted], which
    hands the handler its next message, and with [SetReconfigInProgress(false)],
    which hides that this message is now in progress: the handler proposes a
    third reconfiguration while the second one is not completed. *)
Theorem two_reconfigurations_in_progress : ∃ rh outs,
  run rh_step rh_ex (rh_evs_queue ++ rh_evs_done ++ [RhMsg (rh_ex_msg 3); RhLock; RhPropose]) rh outs ∧
  cmds_of outs = [rh_ex_cmd 1; rh_ex_cmd 2; rh_ex_cmd 3].
Proof. do 2 eexists. split; [apply rh_end_run; vm_compute; by eexists|]. vm_compute. reflexivity. Qed.

(** The handler and the server can wait for one another: the server's
    goroutine sends the queued message to the handler's and keeps the mutex until
    it is received, and the handler's goroutine waits for the mutex with another
    message. No step is possible any more. *)
Theorem reconf_deadlock : ∃ rh outs, run rh_step rh_ex (rh_evs_queue ++ rh_evs_stuck) rh outs ∧ ∀ ev, rh_step rh ev = Diverge.
Proof.
  exists (rh_end (rh_evs_queue ++ rh_evs_stuck)).1, (rh_end (rh_evs_queue ++ rh_evs_stuck)).2. split; [apply rh_end_run; vm_compute; by eexists|].
  assert ((rh_end (rh_evs_queue ++ rh_evs_stuck)).1 = mkRH (ex_id 0) (ex_id 0) false [rh_ex_msg 2] None false (RhLocking (rh_ex_msg 3)) SvSending) as ->
    by (vm_compute; reflexivity).
  by intros [].
Qed.

