(* ===== verification/Kvs.v ===== *)
(** The replicated key-value store: the wire format of its requests and
    responses (src/kvs/common/reqresp.go, reqresp_marsh.go) and the state
    machine that executes them (src/kvs/kvsd/handler.go, state.go). Bytes are
    integers in [0 .. 255]; an [io.Writer] is the bytes written so far and an
    [io.Reader] the bytes left to read. *)
From S2P Require Import Prelude.

Abbreviation byte := Z.
Definition is_byte (b : Z) : Prop := 0 ≤ b < 256.
Definition bytes_ok (l : list Z) : Prop := Forall is_byte l.

(** * Variable-length integers (encoding/binary) *)

(** [PutUvarint]: seven bits a byte, least significant first; ten bytes hold
    any [uint64]. *)
Fixpoint put_uvarint (fuel : nat) (x : Z) : list byte :=
  match fuel with
  | O => []
  | S fuel =>
      if bool_decide (x < 128) then [x]
      else Z.lor (Z.land x 127) 128 :: put_uvarint fuel (Z.shiftr x 7)
  end.
Definition PutUvarint (x : Z) : list byte := put_uvarint 10 x.

(** Zigzag: [ux := uint64(x) << 1; if x < 0 { ux = ^ux }]. *)
Definition zigzag (x : Z) : Z := if bool_decide (x < 0) then u64 (- (2 * x) - 1) else u64 (2 * x).
Definition unzigzag (ux : Z) : Z :=
  let x := Z.shiftr ux 1 in if bool_decide (Z.land ux 1 ≠ 0) then - x - 1 else x.
Definition PutVarint (x : Z) : list byte := PutUvarint (zigzag x).
Arguments PutVarint : simpl never.

(** An error of a reader: the input ended, or a varint is too long. *)
Inductive ReadErr := EOF | Overflow.
#[export] Instance ReadErr_eq_dec : EqDecision ReadErr.
Proof. solve_decision. Defined.

(** [ReadUvarint]'s loop, at its [i]-th byte with the bits so far in [x]. *)
Fixpoint read_uvarint (i : nat) (x : Z) (wire : list byte) : (Z * list byte) + ReadErr :=
  match wire with
  | [] => inr EOF
  | b :: wire =>
      if bool_decide (b < 128) then
        if bool_decide (9 < i)%nat || (bool_decide (i = 9%nat) && bool_decide (b > 1)) then inr Overflow
        else inl (Z.lor x (u64 (Z.shiftl b (7 * Z.of_nat i))), wire)
      else read_uvarint (S i) (Z.lor x (u64 (Z.shiftl (Z.land b 127) (7 * Z.of_nat i)))) wire
  end.
Definition ReadVarint (wire : list byte) : (Z * list byte) + ReadErr :=
  match read_uvarint 0 0 wire with
  | inl (ux, wire) => inl (unzigzag ux, wire)
  | inr e => inr e
  end.

(** [make([]byte, n)] panics for a length that is negative or beyond the
    address space. *)
Definition maxAlloc : Z := 2 ^ 48.
Definition make_bytes (n : Z) : res (list byte) :=
  if bool_decide (n < 0) || bool_decide (maxAlloc < n) then Panic
  else Ok (replicate (Z.to_nat n) 0).

(** [for i := range dst { read one byte into dst[i] }]: the slice, the rest of
    the input, and the error that stopped it. *)
Fixpoint read_into (dst : list byte) (wire : list byte) : list byte * list byte * option ReadErr :=
  match dst with
  | [] => ([], wire, None)
  | d :: dst =>
      match wire with
      | [] => (d :: dst, [], Some EOF)
      | b :: wire => let '(l, wire, e) := read_into dst wire in (b :: l, wire, e)
      end
  end.

(** * Requests and responses (reqresp.go) *)

Definition CommandType := Z. (* int8 *)
Definition Read : CommandType := 0.
Definition Write : CommandType := 1.
Definition Delete : CommandType := 2.
Definition Commandtypes : list string := ["Read"; "Write"; "Delete"]%string.
Definition CommandType_String (ct : CommandType) : res string := slice_get Commandtypes ct.

Record MapRequest := mkMapRequest { mq_Ct : CommandType; mq_Key : list byte; mq_Value : list byte }.
#[export] Instance eta_MapRequest : Eta MapRequest := λ r,
  mkMapRequest (mq_Ct r) (mq_Key r) (mq_Value r).
Record MapResponse := mkMapResponse {
  ms_ToType : CommandType; ms_Value : list byte; ms_Found : byte; ms_Err : list byte }.
#[export] Instance eta_MapResponse : Eta MapResponse := λ r,
  mkMapResponse (ms_ToType r) (ms_Value r) (ms_Found r) (ms_Err r).

(** * Marshalling (reqresp_marsh.go) *)

(** The scratch array [b], the length of the slice [bs] of it, and what was
    written. *)
Record Scratch := mkScratch { sc_b : list byte; sc_bs : nat; sc_out : list byte }.
#[export] Instance eta_Scratch : Eta Scratch := λ r, mkScratch (sc_b r) (sc_bs r) (sc_out r).

Definition scratch0 : Scratch := mkScratch (replicate 10 0) 0 [].
Definition slice_bs (n : nat) (s : Scratch) : Scratch := s <| sc_bs := n |>.
(** [bs[0] = x; wire.Write(bs)]. *)
Definition put_byte (x : byte) (s : Scratch) : Scratch :=
  let s := s <| sc_b ::= <[0%nat := x]> |> in s <| sc_out ::= λ o, o ++ take (sc_bs s) (sc_b s) |>.
(** [bs = b[:]; wlen := binary.PutVarint(bs, x); wire.Write(b[0:wlen])]. *)
Definition put_varint (x : Z) (s : Scratch) : Scratch :=
  let enc := PutVarint x in
  let s := slice_bs 10 s in
  s <| sc_b ::= λ b, enc ++ drop (length enc) b |> <| sc_out ::= λ o, o ++ enc |>.
(** [for i { bs = b[:1]; bs[0] = l[i]; wire.Write(bs) }]. *)
Definition put_bytes (l : list byte) (s : Scratch) : Scratch :=
  foldl (λ s x, put_byte x (slice_bs 1 s)) s l.

Definition MapRequest_Marshal (t : MapRequest) : list byte :=
  let s := put_byte (u8 (mq_Ct t)) (slice_bs 1 scratch0) in
  let s := put_varint (i64 (len (mq_Key t))) s in
  let s := put_bytes (mq_Key t) s in
  let s := put_varint (i64 (len (mq_Value t))) s in
  let s := put_bytes (mq_Value t) s in
  sc_out s.

(** [Found] is written through whatever slice [bs] is by then. *)
Definition MapResponse_Marshal (t : MapResponse) : list byte :=
  let s := put_byte (u8 (ms_ToType t)) (slice_bs 1 scratch0) in
  let s := put_varint (i64 (len (ms_Value t))) s in
  let s := put_bytes (ms_Value t) s in
  let s := put_byte (u8 (ms_Found t)) s in
  let s := put_varint (i64 (len (ms_Err t))) s in
  let s := put_bytes (ms_Err t) s in
  sc_out s.

(** A length and that many bytes: the slice that was made, if it was, and the
    rest of the input or the error. *)
Definition read_slice (wire : list byte) : res (option (list byte) * (list byte + ReadErr)) :=
  match ReadVarint wire with
  | inr e => Ok (None, inr e)
  | inl (n, wire) =>
      dst ← make_bytes n;
      let '(l, wire, e) := read_into dst wire in
      mret (Some l, match e with None => inl wire | Some e => inr e end)
  end.

(** The request after the call, which an error leaves half decoded, and the
    rest of the input or the error. *)
Definition MapRequest_Unmarshal (t : MapRequest) (wire : list byte)
    : res (MapRequest * (list byte + ReadErr)) :=
  match wire with
  | [] => Ok (t, inr EOF)
  | c :: wire =>
      let t := t <| mq_Ct := i8 c |> in
      '(key, r) ← read_slice wire;
      let t := t <| mq_Key := default (mq_Key t) key |> in
      match r with
      | inr e => mret (t, inr e)
      | inl wire =>
          '(val, r) ← read_slice wire;
          mret (t <| mq_Value := default (mq_Value t) val |>, r)
      end
  end.

Definition MapResponse_Unmarshal (t : MapResponse) (wire : list byte)
    : res (MapResponse * (list byte + ReadErr)) :=
  match wire with
  | [] => Ok (t, inr EOF)
  | c :: wire =>
      let t := t <| ms_ToType := i8 c |> in
      '(val, r) ← read_slice wire;
      let t := t <| ms_Value := default (ms_Value t) val |> in
      match r with
      | inr e => mret (t, inr e)
      | inl [] => mret (t, inr EOF)
      | inl (f :: wire) =>
          let t := t <| ms_Found := f |> in
          '(err, r) ← read_slice wire;
          mret (t <| ms_Err := default (ms_Err t) err |>, r)
      end
  end.

(** The caches are stacks of pointers. *)
Section cache.
Context {T : Type} (fresh : T).
Definition cache_Get (c : list T) : T * list T :=
  match last c with Some t => (t, take (length c - 1) c) | None => (fresh, c) end.
Definition cache_Put (t : T) (c : list T) : list T := c ++ [t].
End cache.

(** * The state machine (handler.go) *)

Abbreviation kvstore := (gmap (list Z) (list Z)).

Definition err_decode : list byte := str_bytes "I can't decode you request".
Definition err_command : list byte := str_bytes "Unkown map command".

(** [kvreq] and [kvresp] are package variables that outlive a call. *)
Record GoxosHandler := mkHandler {
  kvmap : kvstore; kvreq : MapRequest; kvresp : MapResponse }.
#[export] Instance eta_Handler : Eta GoxosHandler := λ r, mkHandler (kvmap r) (kvreq r) (kvresp r).

Definition Execute (gh : GoxosHandler) (req : list byte) : res (GoxosHandler * list byte) :=
  '(q, r) ← MapRequest_Unmarshal (kvreq gh) req;
  let gh := gh <| kvreq := q |> in
  match r with
  | inr _ =>
      let gh := gh <| kvresp := mkMapResponse 0 [] 0 err_decode |> in
      mret (gh, MapResponse_Marshal (kvresp gh))
  | inl _ =>
      let key := mq_Key (kvreq gh) in
      let gh :=
        if bool_decide (mq_Ct (kvreq gh) = Read) then
          gh <| kvresp := {| ms_ToType := Read; ms_Value := default [] (kvmap gh !! key);
                             ms_Found := if bool_decide (is_Some (kvmap gh !! key)) then 1 else 0;
                             ms_Err := [] |} |>
        else if bool_decide (mq_Ct (kvreq gh) = Write) then
          let gh := gh <| kvmap ::= <[key := mq_Value (kvreq gh)]> |> in
          gh <| kvresp := mkMapResponse Write (mq_Value (kvreq gh)) 0 [] |>
        else if bool_decide (mq_Ct (kvreq gh) = Delete) then
          let gh := gh <| kvmap ::= delete key |> in
          gh <| kvresp := mkMapResponse Delete [] 0 [] |>
        else gh <| kvresp := mkMapResponse 0 [] 0 err_command |> in
      mret (gh, MapResponse_Marshal (kvresp gh))
  end.

Definition NewHandler : GoxosHandler :=
  mkHandler ∅ (mkMapRequest 0 [] []) (mkMapResponse 0 [] 0 []).

(** ** The fingerprint of the state (state.go) *)

(** What is written to the hasher: every key and its value, by key. *)
Definition hash_input {RO : RangeOrder} (m : kvstore) : list byte :=
  let keys := (range_order 0 m).*1 in
  mjoin ((λ k, k ++ default [] (m !! k)) <$> merge_sort bytes_le keys).

(** The digest and its encoding are the standard library's. *)
Definition writeStateHash {RO : RangeOrder} (fingerprint : list byte → string) (gh : GoxosHandler) : string :=
  fingerprint (hash_input (kvmap gh)).

(** * Round trip of varints *)

Lemma low7 x : Z.land x 127 = x `mod` 128.
Proof. change 127 with (Z.ones 7). by rewrite Z.land_ones. Qed.

Lemma cont_byte x : Z.lor (Z.land x 127) 128 = x `mod` 128 + 128.
Proof.
  rewrite low7. assert (Z.land (x `mod` 128) 128 = 0) as Hd.
  { apply Z.bits_inj'. intros n Hn. rewrite Z.land_spec, Z.bits_0.
    destruct (decide (n = 7)) as [->|].
    - by rewrite (Z.mod_pow2_bits_high x 7) by lia.
    - change 128 with (2 ^ 7) at 2. by rewrite Z.pow2_bits_false, andb_false_r. }
  by rewrite Z.add_nocarry_lxor, Z.lxor_lor.
Qed.

(** The low seven bits and the rest, at their positions, make up the number. *)
Lemma split7 x i :
  0 ≤ i → 0 ≤ x → Z.lor (Z.shiftl (x `mod` 128) i) (Z.shiftl (Z.shiftr x 7) (i + 7)) = Z.shiftl x i.
Proof.
  intros Hi Hx. replace (i + 7) with (7 + i) by lia.
  rewrite <- (Z.shiftl_shiftl (Z.shiftr x 7) 7 i), <- Z.shiftl_lor by lia. f_equal.
  apply Z.bits_inj'. intros n Hn. rewrite Z.lor_spec.
  destruct (decide (n < 7)).
  - rewrite (Z.mod_pow2_bits_low x 7), Z.shiftl_spec_low by lia. apply orb_false_r.
  - rewrite (Z.mod_pow2_bits_high x 7), Z.shiftl_spec, Z.shiftr_spec by lia. cbn. f_equal. lia.
Qed.

Lemma read_put_uvarint rest fuel : ∀ i acc x,
  (0 < fuel)%nat → (i + fuel ≤ 10)%nat → 0 ≤ x < 2 ^ (7 * Z.of_nat fuel) → x * 2 ^ (7 * Z.of_nat i) < 2 ^ 64 →
  read_uvarint i acc (put_uvarint fuel x ++ rest) = inl (Z.lor acc (Z.shiftl x (7 * Z.of_nat i)), rest).
Proof.
  induction fuel as [|fuel IH]; intros i acc x Hf Hi Hx Hmax; [lia|]. cbn [put_uvarint].
  assert (0 < 2 ^ (7 * Z.of_nat i)) as Hpow by (apply Z.pow_pos_nonneg; lia).
  case_bool_decide as Hsmall; cbn [app read_uvarint].
  - rewrite (bool_decide_eq_true_2 (x < 128)) by done.
    rewrite (bool_decide_eq_false_2 (9 < i)%nat) by lia. cbn [orb].
    assert (bool_decide (i = 9%nat) && bool_decide (x > 1) = false) as ->.
    { apply andb_false_iff. destruct (decide (i = 9%nat)) as [->|]; [right|left];
        apply bool_decide_eq_false_2; [|done].
      change (7 * Z.of_nat 9) with 63 in Hmax. lia. }
    rewrite Z.shiftl_mul_pow2 by lia. unfold u64. rewrite Z.mod_small by nia. done.
  - rewrite cont_byte. pose proof (Z.mod_pos_bound x 128).
    rewrite (bool_decide_eq_false_2 (_ < 128)) by lia.
    assert (Z.land (x `mod` 128 + 128) 127 = x `mod` 128) as ->.
    { rewrite low7. rewrite Z.add_mod, Z.mod_mod, Z_mod_same_full, Z.add_0_r, Z.mod_mod; lia. }
    assert (x `mod` 128 ≤ x) by (apply Z.mod_le; lia).
    unfold u64. rewrite (Z.shiftl_mul_pow2 (x `mod` 128)), Z.mod_small by (lia || nia).
    rewrite <- (Z.shiftl_mul_pow2 (x `mod` 128)) by lia.
    assert (Z.shiftr x 7 = x / 128) as Hshift by (rewrite Z.shiftr_div_pow2; [done|lia]).
    pose proof (Z.div_mod x 128).
    assert (x / 128 < 2 ^ (7 * Z.of_nat fuel)).
    { apply Z.div_lt_upper_bound; [lia|]. replace (7 * Z.of_nat (S fuel)) with (7 + 7 * Z.of_nat fuel) in Hx by lia.
      rewrite Z.pow_add_r in Hx by lia. lia. }
    assert (0 < x / 128) by (apply Z.div_str_pos; lia).
    rewrite IH.
    + rewrite <- Z.lor_assoc. do 3 f_equal. rewrite <- (split7 x (7 * Z.of_nat i)) by lia.
      do 2 f_equal. lia.
    + destruct fuel; [|lia]. cbn in *. lia.
    + lia.
    + rewrite Hshift. lia.
    + rewrite Hshift. replace (7 * Z.of_nat (S i)) with (7 + 7 * Z.of_nat i) by lia.
      rewrite Z.pow_add_r by lia. nia.
Qed.

Lemma unzigzag_zigzag x : - 2 ^ 63 ≤ x < 2 ^ 63 → unzigzag (zigzag x) = x ∧ 0 ≤ zigzag x < 2 ^ 64.
Proof.
  intros Hx.
  assert (x < 0 ∧ zigzag x = - (2 * x) - 1 ∨ 0 ≤ x ∧ zigzag x = 2 * x) as Hz
    by (unfold zigzag; case_bool_decide; nowrap; lia).
  unfold unzigzag. generalize dependent (zigzag x). intros z Hz.
  assert (Z.land z 1 = z `mod` 2) as -> by (by apply (Z.land_ones z 1)).
  rewrite Z.shiftr_div_pow2 by lia. change (2 ^ 1) with 2.
  case_bool_decide; Z.to_euclidean_division_equations; lia.
Qed.

(** What [PutVarint] writes, [ReadVarint] reads back, for every [int64] and
    whatever follows. *)
Lemma read_PutVarint (x : Z) (rest : list Z) :
  - 2 ^ 63 ≤ x < 2 ^ 63 → ReadVarint (PutVarint x ++ rest) = inl (x, rest).
Proof.
  intros Hx. destruct (unzigzag_zigzag x Hx) as [Hz Hb].
  unfold ReadVarint, PutVarint, PutUvarint.
  rewrite read_put_uvarint by (change (7 * Z.of_nat 10) with 70; change (7 * Z.of_nat 0) with 0; lia).
  change (7 * Z.of_nat 0) with 0. by rewrite Z.shiftl_0_r, Z.lor_0_l, Hz.
Qed.

(** * Round trip of requests and responses *)

Lemma length_put_uvarint fuel x : (length (put_uvarint fuel x) ≤ fuel)%nat.
Proof.
  revert x. induction fuel as [|fuel IH]; intros x; cbn [put_uvarint]; [done|].
  case_bool_decide; cbn; [lia|]. specialize (IH (Z.shiftr x 7)). lia.
Qed.

Definition scratch_ok (s : Scratch) : Prop := length (sc_b s) = 10%nat.

Lemma put_byte_1 x s :
  scratch_ok s → let s' := put_byte x (slice_bs 1 s) in
  scratch_ok s' ∧ sc_bs s' = 1%nat ∧ sc_out s' = sc_out s ++ [x].
Proof.
  unfold scratch_ok. intros Hs. cbn. rewrite length_insert. split; [done|]. split; [done|].
  by destruct (sc_b s).
Qed.

Lemma put_varint_spec x s :
  scratch_ok s → let s' := put_varint x s in
  scratch_ok s' ∧ sc_bs s' = 10%nat ∧ sc_out s' = sc_out s ++ PutVarint x.
Proof.
  unfold scratch_ok. intros Hs. cbn. split; [|done].
  pose proof (length_put_uvarint 10 (zigzag x)) as Hlen. fold (PutUvarint (zigzag x)) in Hlen.
  fold (PutVarint x) in Hlen. rewrite length_app, length_drop. lia.
Qed.

Lemma put_bytes_spec l : ∀ s,
  scratch_ok s → let s' := put_bytes l s in
  scratch_ok s' ∧ sc_out s' = sc_out s ++ l ∧ (l ≠ [] → sc_bs s' = 1%nat).
Proof.
  unfold put_bytes. induction l as [|x l IH] using rev_ind; intros s Hs; cbn zeta.
  { split; [done|]. by rewrite app_nil_r. }
  rewrite foldl_app. destruct (IH s Hs) as (H1 & H2 & _). cbn [foldl].
  destruct (put_byte_1 x _ H1) as (H4 & H5 & H6). split; [done|]. split; [|done].
  by rewrite H6, H2, app_assoc.
Qed.

Lemma MapRequest_Marshal_eq t :
  len (mq_Key t) < 2 ^ 63 → len (mq_Value t) < 2 ^ 63 →
  MapRequest_Marshal t = u8 (mq_Ct t) :: PutVarint (len (mq_Key t)) ++ mq_Key t ++
    PutVarint (len (mq_Value t)) ++ mq_Value t.
Proof.
  intros Hk Hv. unfold MapRequest_Marshal. nowrap. set (enc1 := PutVarint _). 
  destruct (put_byte_1 (u8 (mq_Ct t)) scratch0) as (A1 & _ & A3); [done|].
  destruct (put_varint_spec (len (mq_Key t)) _ A1) as (B1 & _ & B3).
  destruct (put_bytes_spec (mq_Key t) _ B1) as (C1 & C3 & _).
  destruct (put_varint_spec (len (mq_Value t)) _ C1) as (D1 & _ & D3).
  destruct (put_bytes_spec (mq_Value t) _ D1) as (_ & E3 & _).
  rewrite E3, D3, C3, B3, A3. by rewrite <- !app_assoc.
Qed.

(** The byte [Found] is written alone, or with the nine bytes that follow it
    in the scratch array when there is no value before it. *)
Lemma MapResponse_Marshal_eq t :
  len (ms_Value t) < 2 ^ 63 → len (ms_Err t) < 2 ^ 63 →
  MapResponse_Marshal t = u8 (ms_ToType t) :: PutVarint (len (ms_Value t)) ++ ms_Value t ++
    u8 (ms_Found t) :: (if decide (ms_Value t = []) then replicate 9 0 else []) ++
    PutVarint (len (ms_Err t)) ++ ms_Err t.
Proof.
  intros Hk Hv. unfold MapResponse_Marshal. nowrap.
  destruct (put_byte_1 (u8 (ms_ToType t)) scratch0) as (A1 & _ & A3); [done|].
  destruct (put_varint_spec (len (ms_Value t)) _ A1) as (B1 & B2 & B3).
  destruct (put_bytes_spec (ms_Value t) _ B1) as (C1 & C3 & C2).
  set (s3 := put_bytes (ms_Value t) _) in *.
  assert (scratch_ok (put_byte (u8 (ms_Found t)) s3) ∧ sc_out (put_byte (u8 (ms_Found t)) s3) =
    sc_out s3 ++ u8 (ms_Found t) :: if decide (ms_Value t = []) then replicate 9 0 else []) as [F1 F3].
  { case_decide as Hnil.
    - split; [unfold scratch_ok in *; cbn; by rewrite length_insert|].
      unfold s3. rewrite Hnil. reflexivity.
    - destruct (put_byte_1 (u8 (ms_Found t)) s3 C1) as (G1 & _ & G3).
      assert (slice_bs 1 s3 = s3) as Heq by (specialize (C2 Hnil); destruct s3; cbn in *; by subst).
      rewrite Heq in G1, G3. by split. }
  destruct (put_varint_spec (len (ms_Err t)) _ F1) as (D1 & _ & D3).
  destruct (put_bytes_spec (ms_Err t) _ D1) as (_ & E3 & _).
  rewrite E3, D3, F3, C3, B3, A3. by rewrite <- !app_assoc.
Qed.

Lemma read_into_spec dst l rest :
  length dst = length l → read_into dst (l ++ rest) = (l, rest, None).
Proof.
  revert l. induction dst as [|d dst IH]; intros [|b l] Hl; try done.
  cbn. injection Hl as Hl. by rewrite IH.
Qed.

Lemma read_slice_spec l rest :
  len l ≤ maxAlloc → read_slice (PutVarint (len l) ++ l ++ rest) = Ok (Some l, inl rest).
Proof.
  intros Hl. unfold read_slice, maxAlloc in *. destruct (unzigzag_zigzag (len l)) as [Hz Hb]; [lia|].
  assert (ReadVarint (PutVarint (len l) ++ l ++ rest) = inl (len l, l ++ rest)) as ->.
  { apply read_PutVarint. lia. }
  unfold make_bytes, maxAlloc. rewrite !bool_decide_eq_false_2 by lia. cbn [orb mbind res_bind].
  rewrite read_into_spec; [done|]. rewrite length_replicate. lia.
Qed.

Lemma read_slice_returns wire : read_slice wire ≠ Diverge.
Proof.
  unfold read_slice, make_bytes. destruct (ReadVarint wire) as [[n w]|e]; [|done].
  destruct (_ || _); [done|]. cbn. by destruct (read_into _ w) as [[? ?] ?].
Qed.

Lemma i8_u8 x : -128 ≤ x < 128 → i8 (u8 x) = x.
Proof. intros Hx. unfold i8, u8. Z.to_euclidean_division_equations. lia. Qed.

Record request_ok (t : MapRequest) : Prop := {
  rq_ct : -128 ≤ mq_Ct t < 128;
  rq_key : len (mq_Key t) ≤ maxAlloc;
  rq_value : len (mq_Value t) ≤ maxAlloc;
}.
Record response_ok (t : MapResponse) : Prop := {
  rs_ct : -128 ≤ ms_ToType t < 128;
  rs_found : 0 ≤ ms_Found t < 256;
  rs_value : len (ms_Value t) ≤ maxAlloc;
  rs_err : len (ms_Err t) ≤ maxAlloc;
}.

Lemma unmarshal_marshal t0 t rest :
  request_ok t → MapRequest_Unmarshal t0 (MapRequest_Marshal t ++ rest) = Ok (t, inl rest).
Proof.
  intros [Hct Hk Hv]. unfold maxAlloc in *. rewrite MapRequest_Marshal_eq by lia.
  rewrite <- app_comm_cons, <- !app_assoc. cbn [MapRequest_Unmarshal].
  rewrite i8_u8, read_slice_spec by done. cbn [mbind res_bind].
  rewrite read_slice_spec by done. by destruct t.
Qed.

Lemma unmarshal_response t0 t rest :
  response_ok t →
  MapResponse_Unmarshal t0 (MapResponse_Marshal t ++ rest) = Ok
    (if decide (ms_Value t = [])
     then (t <| ms_Err := [] |>, inl (replicate 8 0 ++ PutVarint (len (ms_Err t)) ++ ms_Err t ++ rest))
     else (t, inl rest)).
Proof.
  intros [Hct Hf Hv He]. unfold maxAlloc in *. rewrite MapResponse_Marshal_eq by lia.
  rewrite <- app_comm_cons, <- !app_assoc. cbn [MapResponse_Unmarshal].
  rewrite i8_u8, read_slice_spec by done. cbn [mbind res_bind].
  rewrite <- app_comm_cons, <- !app_assoc. nowrap.
  case_decide as Hnil.
  - change (replicate 9 0 ++ ?l) with (PutVarint (len (@nil Z)) ++ [] ++ (replicate 8 0 ++ l)).
    rewrite read_slice_spec by done. cbn. by destruct t.
  - rewrite app_nil_l, read_slice_spec by done. by destruct t.
Qed.

(** A marshalled request is read back as it was, into whatever request
    object, leaving the bytes after it. *)
Theorem request_roundtrip (t0 t : MapRequest) (rest : list Z) :
  request_ok t → MapRequest_Unmarshal t0 (MapRequest_Marshal t ++ rest) = Ok (t, inl rest).
Proof. apply unmarshal_marshal. Qed.

(** A marshalled response is read back as it was exactly when it has a value
    or no error. With an empty value the [Found] byte is written through a
    slice of ten bytes, the first of the nine extra zeros is read as the length
    of the error, and the error is left unread. *)
Theorem response_roundtrip (t0 t : MapResponse) :
  response_ok t →
  (∃ rest, MapResponse_Unmarshal t0 (MapResponse_Marshal t) = Ok (t, inl rest)) ↔
  ms_Value t ≠ [] ∨ ms_Err t = [].
Proof.
  intros Ht. rewrite <- (app_nil_r (MapResponse_Marshal t)), unmarshal_response by done.
  destruct (decide (ms_Value t = [])) as [Hv|Hv]; [|naive_solver]. destruct t as [ct v f e]. cbn in *.
  split; [intros [rest [= <-]]; by right|]. intros [?| ->]; [done|]. eauto.
Qed.

(** * The store, specified *)

(** The map of a replica after a request, and the response to it. *)
Definition apply_request (m : kvstore) (t : MapRequest) : kvstore :=
  if decide (mq_Ct t = Write) then <[mq_Key t := mq_Value t]> m
  else if decide (mq_Ct t = Delete) then delete (mq_Key t) m else m.
Definition answer (m : kvstore) (t : MapRequest) : MapResponse :=
  if decide (mq_Ct t = Read) then
    mkMapResponse Read (default [] (m !! mq_Key t))
      (if bool_decide (is_Some (m !! mq_Key t)) then 1 else 0) []
  else if decide (mq_Ct t = Write) then mkMapResponse Write (mq_Value t) 0 []
  else if decide (mq_Ct t = Delete) then mkMapResponse Delete [] 0 []
  else mkMapResponse 0 [] 0 err_command.

Definition store_ok (m : kvstore) : Prop := ∀ k v, m !! k = Some v → len v ≤ maxAlloc.

Lemma apply_request_ok m t : store_ok m → request_ok t → store_ok (apply_request m t).
Proof.
  intros Hm [_ _ Hv] k v. unfold apply_request. repeat case_decide; [| |apply Hm].
  - rewrite lookup_insert_Some. intros [[_ <-]|[_ ?]]; [done|by eapply Hm].
  - rewrite lookup_delete_Some. intros [_ ?]. by eapply Hm.
Qed.

Lemma answer_ok m t : store_ok m → request_ok t → response_ok (answer m t).
Proof.
  intros Hm [_ _ Hv].
  assert (len (default [] (m !! mq_Key t)) ≤ maxAlloc).
  { destruct (m !! mq_Key t) eqn:E; cbn; [by eapply Hm|done]. }
  unfold answer, Read, Write, Delete. repeat case_decide; split; cbn; try case_bool_decide; done || lia.
Qed.

Lemma Execute_decoded gh req t rest :
  (∀ t0, MapRequest_Unmarshal t0 req = Ok (t, inl rest)) →
  Execute gh req = Ok (mkHandler (apply_request (kvmap gh) t) t (answer (kvmap gh) t),
                       MapResponse_Marshal (answer (kvmap gh) t)).
Proof.
  intros Hun. unfold Execute. rewrite Hun. cbn [mbind res_bind kvreq kvmap update].
  unfold apply_request, answer.
  destruct (decide (mq_Ct t = Read)) as [E|E].
  { rewrite (bool_decide_eq_true_2 _ E), (decide_False (P := mq_Ct t = Write)),
      (decide_False (P := mq_Ct t = Delete)) by (by rewrite E). reflexivity. }
  rewrite (bool_decide_eq_false_2 _ E). destruct (decide (mq_Ct t = Write)) as [E1|E1].
  { by rewrite (bool_decide_eq_true_2 _ E1). }
  rewrite (bool_decide_eq_false_2 _ E1). destruct (decide (mq_Ct t = Delete)) as [E2|E2].
  { by rewrite (bool_decide_eq_true_2 _ E2). }
  by rewrite (bool_decide_eq_false_2 _ E2).
Qed.

(** A request decodes to the same whatever the request object held. *)
Lemma Unmarshal_fresh t1 t2 req t rest :
  MapRequest_Unmarshal t1 req = Ok (t, inl rest) → MapRequest_Unmarshal t2 req = Ok (t, inl rest).
Proof.
  destruct req as [|c req]; [done|]. cbn [MapRequest_Unmarshal].
  assert (∀ wire o r w, read_slice wire = Ok (o, r) → r = inl w → is_Some o) as Hsome.
  { intros wire o r w. unfold read_slice. destruct (ReadVarint wire) as [[n w']|e]; [|naive_solver].
    intros (dst & _ & Hrun)%bind_Ok. destruct (read_into dst w') as [[l w2] [e|]];
      injection Hrun as <- <-; eauto. }
  destruct (read_slice req) as [[key r]| |] eqn:E1; [|done..]. cbn [mbind res_bind].
  destruct r as [wire|e]; [|done]. destruct (Hsome _ _ _ _ E1 eq_refl) as [k ->].
  destruct (read_slice wire) as [[val r]| |] eqn:E2; [|done..]. cbn [mbind res_bind].
  intros [= Ht Hr]. rewrite Hr in *. destruct (Hsome _ _ _ _ E2 eq_refl) as [v ->].
  rewrite <- Ht. done.
Qed.

(** Nothing of the request object reaches the outcome of a decoding. *)
Lemma Unmarshal_agree t1 t2 req :
  match MapRequest_Unmarshal t1 req, MapRequest_Unmarshal t2 req with
  | Ok (_, inl r1), Ok (_, inl r2) => r1 = r2
  | Ok (_, inr e1), Ok (_, inr e2) => e1 = e2
  | Panic, Panic => True
  | _, _ => False
  end.
Proof.
  destruct req as [|c req]; [done|]. cbn [MapRequest_Unmarshal].
  destruct (read_slice req) as [[key [wire|e]]| |] eqn:E1; cbn; try done; [|by apply read_slice_returns in E1].
  destruct (read_slice wire) as [[val [wire2|e]]| |] eqn:E2; cbn; try done.
  by apply read_slice_returns in E2.
Qed.

Definition execute_all (gh : GoxosHandler) (ts : list MapRequest) : res GoxosHandler :=
  foldM (λ gh t, '(gh, _) ← Execute gh (MapRequest_Marshal t); mret gh) gh ts.

(** The value the last request about [k] left. *)
Definition last_value (k : list Z) (ts : list MapRequest) : option (list Z) :=
  foldl (λ v t, if decide (mq_Key t = k) then
                  if decide (mq_Ct t = Write) then Some (mq_Value t)
                  else if decide (mq_Ct t = Delete) then None else v
                else v) None ts.

Lemma execute_all_spec ts : ∀ gh,
  store_ok (kvmap gh) → Forall request_ok ts →
  ∃ gh', execute_all gh ts = Ok gh' ∧ kvmap gh' = foldl apply_request (kvmap gh) ts ∧ store_ok (kvmap gh').
Proof.
  induction ts as [|t ts IH]; intros gh Hgh Hts; [by exists gh|].
  apply Forall_cons in Hts as [Ht Hts]. unfold execute_all in *. cbn [foldM].
  rewrite (Execute_decoded gh (MapRequest_Marshal t) t []).
  - cbn [mbind res_bind]. destruct (IH (mkHandler (apply_request (kvmap gh) t) t (answer (kvmap gh) t)))
      as (gh' & Hrun & Hm & Hok); [by apply apply_request_ok|done|]. by exists gh'.
  - intros t0. rewrite <- (app_nil_r (MapRequest_Marshal t)). by apply unmarshal_marshal.
Qed.

Lemma lookup_apply ts m k :
  foldl apply_request m ts !! k = foldl (λ v t, if decide (mq_Key t = k) then
                  if decide (mq_Ct t = Write) then Some (mq_Value t)
                  else if decide (mq_Ct t = Delete) then None else v
                else v) (m !! k) ts.
Proof.
  revert m. induction ts as [|t ts IH]; intros m; [done|]. cbn [foldl]. rewrite IH. f_equal.
  unfold apply_request. repeat case_decide; subst;
    by rewrite ?lookup_insert_eq, ?lookup_delete_eq, ?lookup_insert_ne, ?lookup_delete_ne.
Qed.

Lemma read_after ts k r0 :
  Forall request_ok ts → len k ≤ maxAlloc →
  ∃ gh gh' resp, execute_all NewHandler ts = Ok gh ∧
    Execute gh (MapRequest_Marshal (mkMapRequest Read k [])) = Ok (gh', resp) ∧
    kvmap gh' = kvmap gh ∧
    ∃ rest, MapResponse_Unmarshal r0 resp = Ok (match last_value k ts with
      | Some v => mkMapResponse Read v 1 []
      | None => mkMapResponse Read [] 0 []
      end, inl rest).
Proof.
  intros Hts Hk. destruct (execute_all_spec ts NewHandler) as (gh & Hrun & Hm & Hok); [done|done|].
  assert (request_ok (mkMapRequest Read k [])) as Hreq by done.
  exists gh. eexists _, _. split; [done|]. split.
  { apply (Execute_decoded gh _ (mkMapRequest Read k []) []). intros t0.
    rewrite <- (app_nil_r (MapRequest_Marshal _)). by apply unmarshal_marshal. }
  split; [done|]. rewrite <- (app_nil_r (MapResponse_Marshal _)).
  rewrite unmarshal_response by by apply answer_ok. unfold last_value, answer. cbn [mq_Ct mq_Key].
  rewrite (decide_True (P := Read = Read)) by done. cbn [ms_Value].
  assert (kvmap gh !! k = foldl (λ v t, if decide (mq_Key t = k) then
                  if decide (mq_Ct t = Write) then Some (mq_Value t)
                  else if decide (mq_Ct t = Delete) then None else v
                else v) None ts) as <- by by rewrite Hm, lookup_apply.
  destruct (kvmap gh !! k) as [v|]; [|eexists; reflexivity].
  destruct (decide (v = [])) as [->|Hv]; [eexists; reflexivity|].
  exists []. cbn. by rewrite decide_False by done.
Qed.

(** The store is linear in the order of its requests: after any sequence of
    marshalled requests, which it executes without crashing, a read returns to
    the client the value of the last write of the key that no delete followed,
    or that there is none, and leaves the map as it was. *)
Theorem kvs_reads_last_write (ts : list MapRequest) (k : list Z) (r0 : MapResponse) :
  Forall request_ok ts → len k ≤ maxAlloc →
  ∃ gh gh' resp, execute_all NewHandler ts = Ok gh ∧
    Execute gh (MapRequest_Marshal (mkMapRequest Read k [])) = Ok (gh', resp) ∧
    kvmap gh' = kvmap gh ∧
    ∃ rest, MapResponse_Unmarshal r0 resp = Ok (match last_value k ts with
      | Some v => mkMapResponse Read v 1 []
      | None => mkMapResponse Read [] 0 []
      end, inl rest).
Proof. apply read_after. Qed.

(** ** Determinism *)

(** Replicas with equal maps stay equal and answer alike, byte for byte,
    whatever else they executed before: a request has the same outcome on
    every replica, a crash included. *)
Theorem Execute_deterministic (gh1 gh2 : GoxosHandler) (req : list Z) :
  kvmap gh1 = kvmap gh2 →
  match Execute gh1 req, Execute gh2 req with
  | Ok (gh1', resp1), Ok (gh2', resp2) => kvmap gh1' = kvmap gh2' ∧ resp1 = resp2
  | Panic, Panic => True
  | _, _ => False
  end.
Proof.
  intros Hm. pose proof (Unmarshal_agree (kvreq gh1) (kvreq gh2) req) as Hagree.
  destruct (MapRequest_Unmarshal (kvreq gh1) req) as [[t [rest|e]]| |] eqn:E1.
  - assert (∀ t0, MapRequest_Unmarshal t0 req = Ok (t, inl rest)) as Hall by (intros; by eapply Unmarshal_fresh).
    rewrite !(Execute_decoded _ req t rest Hall). cbn. by rewrite Hm.
  - destruct (MapRequest_Unmarshal (kvreq gh2) req) as [[t2 [rest|e2]]| |] eqn:E2; try done.
    unfold Execute. rewrite E1, E2. cbn. by rewrite Hm.
  - destruct (MapRequest_Unmarshal (kvreq gh2) req) as [[t2 [rest|e2]]| |] eqn:E2; try done.
    unfold Execute. by rewrite E1, E2.
  - done.
Qed.

(** ** What goes wrong *)

(** A client never learns of an error: the response to a request that does
    not decode or has an unknown command decodes, without error, to the
    response of a read that found nothing. *)
Theorem Execute_hides_errors (gh : GoxosHandler) (req : list Z) (t : MapRequest) (rest : list Z) (e : ReadErr) (r0 : MapResponse) :
  MapRequest_Unmarshal (kvreq gh) req = Ok (t, inr e) ∨
  (MapRequest_Unmarshal (kvreq gh) req = Ok (t, inl rest) ∧ mq_Ct t ∉ [Read; Write; Delete]) →
  ∃ gh' resp rest', Execute gh req = Ok (gh', resp) ∧ kvmap gh' = kvmap gh ∧
    ms_Err (kvresp gh') ≠ [] ∧
    MapResponse_Unmarshal r0 resp = Ok (mkMapResponse Read [] 0 [], inl rest').
Proof.
  intros [Hrun|[Hrun Hct]]; unfold Execute; rewrite Hrun; cbn [mbind res_bind kvreq update].
  - eexists _, _, _. split; [done|]. split; [done|]. split; [done|].
    rewrite <- (app_nil_r (MapResponse_Marshal _)). rewrite unmarshal_response by (by split; vm_compute).
    reflexivity.
  - rewrite !elem_of_cons, elem_of_nil in Hct. rewrite !bool_decide_eq_false_2 by naive_solver.
    eexists _, _, _. split; [done|]. split; [done|]. split; [done|].
    rewrite <- (app_nil_r (MapResponse_Marshal _)). rewrite unmarshal_response by (by split; vm_compute).
    reflexivity.
Qed.

(** A request whose key length is negative crashes the replica, in every
    state: [make] panics. *)
Theorem Execute_crashes (gh : GoxosHandler) (c n : Z) (rest : list Z) :
  - 2 ^ 63 ≤ n < 0 → Execute gh (c :: PutVarint n ++ rest) = Panic.
Proof.
  intros Hn. unfold Execute, MapRequest_Unmarshal, read_slice. rewrite read_PutVarint by lia.
  unfold make_bytes. by rewrite bool_decide_eq_true_2 by lia.
Qed.

(** ** The state hash *)

(** The fingerprint of a state depends on the map only, not on the order in
    which the runtime happens to iterate over it, so replicas with equal maps
    write equal hashes. *)
Theorem writeStateHash_order (RO1 RO2 : RangeOrder) (fingerprint : list Z → string) (gh1 gh2 : GoxosHandler) :
  RangeOrderLaws RO1 → RangeOrderLaws RO2 → kvmap gh1 = kvmap gh2 →
  writeStateHash (RO := RO1) fingerprint gh1 = writeStateHash (RO := RO2) fingerprint gh2.
Proof.
  intros L1 L2 Hm. unfold writeStateHash, hash_input. rewrite Hm. do 3 f_equal.
  apply (StronglySorted_unique bytes_le).
  - apply (StronglySorted_merge_sort bytes_le).
  - apply (StronglySorted_merge_sort bytes_le).
  - rewrite !merge_sort_Permutation. by rewrite (range_order_perm (RO := RO1)), (range_order_perm (RO := RO2)).
Qed.

(** * Witnesses *)

Definition ex_key : list Z := str_bytes "k".
Definition ex_write (v : string) : MapRequest := mkMapRequest Write ex_key (str_bytes v).

Lemma request_roundtrip_witness :
  MapRequest_Marshal (ex_write "v") = [1; 2; 107; 2; 118] ∧
  MapRequest_Unmarshal (mkMapRequest 0 [] []) ([1; 2; 107; 2; 118] ++ [0]) = Ok (ex_write "v", inl [0]).
Proof.
  split; [vm_compute; reflexivity|].
  apply (request_roundtrip (mkMapRequest 0 [] []) (ex_write "v") [0]). by split.
Defined.

Lemma response_roundtrip_witness :
  ¬ ∃ rest, MapResponse_Unmarshal (mkMapResponse 0 [] 0 [])
    (MapResponse_Marshal (mkMapResponse 0 [] 0 err_command)) = Ok (mkMapResponse 0 [] 0 err_command, inl rest).
Proof.
  intros H. apply (response_roundtrip (mkMapResponse 0 [] 0 []) (mkMapResponse 0 [] 0 err_command)) in H.
  - by destruct H as [H|H].
  - by split.
Defined.

Lemma kvs_reads_last_write_witness :
  ∃ gh gh' resp, execute_all NewHandler [ex_write "a"; mkMapRequest Delete ex_key []; ex_write "b"] = Ok gh ∧
    Execute gh (MapRequest_Marshal (mkMapRequest Read ex_key [])) = Ok (gh', resp) ∧
    ∃ rest, MapResponse_Unmarshal (mkMapResponse 0 [] 0 []) resp =
      Ok (mkMapResponse Read (str_bytes "b") 1 [], inl rest).
Proof.
  destruct (kvs_reads_last_write [ex_write "a"; mkMapRequest Delete ex_key []; ex_write "b"] ex_key
    (mkMapResponse 0 [] 0 [])) as (gh & gh' & resp & H1 & H2 & _ & H3).
  - repeat constructor; by vm_compute.
  - by vm_compute.
  - exists gh, gh', resp. split; [exact H1|]. split; [exact H2|]. exact H3.
Defined.

Lemma Execute_deterministic_witness :
  match Execute NewHandler [7], Execute (NewHandler <| kvreq := ex_write "a" |>) [7] with
  | Ok (gh1', resp1), Ok (gh2', resp2) => kvmap gh1' = kvmap gh2' ∧ resp1 = resp2
  | Panic, Panic => True
  | _, _ => False
  end.
Proof. apply (Execute_deterministic NewHandler (NewHandler <| kvreq := ex_write "a" |>) [7]). reflexivity. Defined.

Lemma Execute_hides_errors_witness :
  ∃ gh' resp rest', Execute NewHandler [3; 0; 0] = Ok (gh', resp) ∧ kvmap gh' = kvmap NewHandler ∧
    ms_Err (kvresp gh') ≠ [] ∧
    MapResponse_Unmarshal (mkMapResponse 0 [] 0 []) resp = Ok (mkMapResponse Read [] 0 [], inl rest').
Proof.
  apply (Execute_hides_errors NewHandler [3; 0; 0] (mkMapRequest 3 [] []) [] EOF). right.
  split; [vm_compute; reflexivity|]. rewrite !elem_of_cons, elem_of_nil. by intros [?|[?|[?|?]]].
Defined.

Lemma Execute_crashes_witness : Execute NewHandler [0; 1] = Panic.
Proof. apply (Execute_crashes NewHandler 0 (-1) []). lia. Defined.

Lemma writeStateHash_order_witness (rev_order : RangeOrder := λ K A _ _ n m, reverse (map_to_list m)) :
  writeStateHash (RO := map_order) (λ l, pretty (len l)) NewHandler =
  writeStateHash (RO := rev_order) (λ l, pretty (len l)) NewHandler.
Proof.
  apply (writeStateHash_order map_order rev_order (λ l, pretty (len l)) NewHandler NewHandler);
    [apply map_order_laws| |reflexivity].
  intros K A EqK CK n m. unfold rev_order, range_order. by rewrite reverse_Permutation.
Defined.
