(* ===== verification/BatchPaxos.v ===== *)
(** Batch Paxos (src/batchpaxos), the Acropolis protocol: every replica logs
    the requests that clients broadcast, reports the highest sequence numbers
    it has seen to the leader when a timer or a request count fires, and the
    leader turns a quorum of reports into ranges of requests that all replicas
    execute, batch by batch. Replicas that miss requests of a committed range
    fetch them with the update protocol.

    Maps and slices that messages share with the state that sent them are
    never written after they are sent, so they are values here. *)
From S2P Require Import Prelude Grp PaxosTypes.

(** * Data (types.go, msg.go) *)

Abbreviation BatchPoint := (gmap string Z).
Record ClientRange := mkRange { cr_Start : Z; cr_Stop : Z }.
Abbreviation RangeMap := (gmap string ClientRange).
Abbreviation UpdateValueMap := (gmap string (list Request)).

#[export] Instance ClientRange_eq_dec : EqDecision ClientRange.
Proof. solve_decision. Defined.

Record BatchLearnMsg := mkBatchLearn { bl_ID : ID; bl_BatchID : Z; bl_HSS : BatchPoint }.
Record BatchCommitMsg := mkBatchCommit { bc_ID : ID; bc_BatchID : Z; bc_Ranges : RangeMap }.
Record UpdateRequestMsg := mkUpdateRequest { uq_ID : ID; uq_BatchID : Z; uq_Ranges : RangeMap }.
Record UpdateReplyMsg := mkUpdateReply {
  up_ID : ID; up_BatchID : Z; up_Ranges : RangeMap; up_Values : UpdateValueMap }.

(** * Loops over [uint32] ranges *)

(** [for i := lo; i <= hi; i++ { s = body(s, i) }]: when [hi] is the largest
    [uint32] the counter wraps to 0 and the loop ends only by a panic. *)
Definition max_u32 : Z := 2 ^ 32 - 1.
Definition for_u32 {S} (body : S → Z → res S) (lo hi : Z) (s : S) : res S :=
  if bool_decide (hi < lo) then Ok s
  else
    s ← foldM body s (range lo (hi + 1));
    if bool_decide (hi = max_u32) then (_ ← body s 0; Diverge) else Ok s.

(** * Batcher (batcher.go) *)

Record ClientLogEntry := mkClog { cl_Values : gmap Z Request; cl_HighestSeen : Z }.
#[export] Instance eta_ClientLogEntry : Eta ClientLogEntry := λ r,
  mkClog (cl_Values r) (cl_HighestSeen r).

Record Batch := mkBatch { bt_ID : Z; bt_HSS : BatchPoint }.

Record Batcher := mkBatcher {
  br_CLog : gmap string ClientLogEntry; br_BatchMap : gmap Z Batch; br_CurrentBatch : Z }.
#[export] Instance eta_Batcher : Eta Batcher := λ r,
  mkBatcher (br_CLog r) (br_BatchMap r) (br_CurrentBatch r).

Definition NewBatcher : Batcher := mkBatcher ∅ ∅ 0.

(** [GetLog] returns a pointer into the map: the caller writes it back. *)
Definition new_clog : ClientLogEntry := mkClog ∅ 0.
Definition GetLog (br : Batcher) (cid : string) : ClientLogEntry * Batcher :=
  let br := if bool_decide (br_CLog br !! cid = None)
            then br <| br_CLog ::= <[cid := new_clog]> |> else br in
  (default new_clog (br_CLog br !! cid), br).

Definition LogRequest (br : Batcher) (req : Request) : Batcher :=
  let id := GetId req in
  let seq := GetSeq req in
  let '(clog, br) := GetLog br id in
  let clog := clog <| cl_Values ::= <[seq := req]> |> in
  let clog := if bool_decide (seq > cl_HighestSeen clog)
              then clog <| cl_HighestSeen := seq |> else clog in
  br <| br_CLog ::= <[id := clog]> |>.

Definition zero_Request : Request := mkRequest None None None [].
Definition GetRequest (br : Batcher) (id : string) (seq : Z) : Request :=
  match br_CLog br !! id with
  | Some clog => default zero_Request (cl_Values clog !! seq)
  | None => zero_Request
  end.

(** Whether the loop over a range finds a sequence number without a request;
    it runs on past the largest [uint32] until it finds one. *)
Definition range_missing (vals : gmap Z Request) (rng : ClientRange) : res bool :=
  let missing l := existsb (λ i, bool_decide (vals !! i = None)) l in
  if bool_decide (cr_Stop rng < cr_Start rng) then Ok false
  else if missing (range (cr_Start rng) (cr_Stop rng + 1)) then Ok true
  else if bool_decide (cr_Stop rng = max_u32) then
    if missing (range 0 (cr_Start rng)) then Ok true else Diverge
  else Ok false.

Definition inc_body (st : RangeMap * Batcher) (e : string * ClientRange) : res (RangeMap * Batcher) :=
  let '(cid, rng) := e in
  let '(log, br) := GetLog st.2 cid in
  m ← range_missing (cl_Values log) rng;
  mret (if (m : bool) then <[cid := rng]> st.1 else st.1, br).

Definition SortedKeysRange {RO : RangeOrder} (m : RangeMap) : list string :=
  merge_sort str_le (range_order 0 m).*1.

Definition zero_Range : ClientRange := mkRange 0 0.
Definition ForEach {RO : RangeOrder} {S} (br : Batcher) (ranges : RangeMap)
    (fn : S → Request → res S) (s : S) : res S :=
  foldM (λ s id,
    let rng := default zero_Range (ranges !! id) in
    for_u32 (λ s i, fn s (GetRequest br id i)) (cr_Start rng) (cr_Stop rng) s)
    s (SortedKeysRange ranges).

Definition GetIncompleteRanges {RO : RangeOrder} (br : Batcher) (rng : RangeMap)
    : res (RangeMap * Batcher) :=
  foldM inc_body (∅, br) (range_order 0 rng).

Definition GetCurrentBatchPoint {RO : RangeOrder} (br : Batcher) : BatchPoint :=
  range_collect 0 (λ _ entry, Some (cl_HighestSeen entry)) (br_CLog br) ∅.

Definition put_batch (br : Batcher) (hss : BatchPoint) : Batch * Batcher :=
  let batch := mkBatch (br_CurrentBatch br) hss in
  (batch, br <| br_BatchMap ::= <[br_CurrentBatch br := batch]> |>
             <| br_CurrentBatch ::= λ n, u64 (n + 1) |>).

Definition GetBatch {RO : RangeOrder} (br : Batcher) : res (option Batch * Batcher) :=
  let hss := GetCurrentBatchPoint br in
  if bool_decide (size hss = 0%nat) then Ok (None, br)
  else if bool_decide (br_CurrentBatch br = 0) then
    let '(batch, br) := put_batch br hss in Ok (Some batch, br)
  else
    match br_BatchMap br !! u64 (br_CurrentBatch br - 1) with
    | None => Panic
    | Some prev =>
        let prevhss := bt_HSS prev in
        let batchable :=
          if bool_decide (size prevhss < size hss)%nat then true
          else existsb (λ '(cid, hs), bool_decide (hs > default 0 (prevhss !! cid))) (range_order 1 hss) in
        if (batchable : bool) then
          let '(batch, br) := put_batch br hss in Ok (Some batch, br)
        else Ok (None, br)
    end.

Definition client_cmds (br : Batcher) (cid : string) (rng : ClientRange) : res (list Request) :=
  for_u32 (λ ccmds i, slice_set ccmds (u32 (i - cr_Start rng)) (GetRequest br cid i))
    (cr_Start rng) (cr_Stop rng)
    (replicate (Z.to_nat (u32 (cr_Stop rng - cr_Start rng + 1))) zero_Request).

Definition GetClientCommands {RO : RangeOrder} (br : Batcher) (ranges : RangeMap)
    : res UpdateValueMap :=
  foldM (λ ret '(cid, rng), ccmds ← client_cmds br cid rng; mret (<[cid := ccmds]> ret))
    ∅ (range_order 0 ranges).

Definition SetClientCommands {RO : RangeOrder} (br : Batcher) (cmdmap : UpdateValueMap) : Batcher :=
  foldl (λ br '(_, cmds), foldl LogRequest br cmds) br (range_order 0 cmdmap).

(** * Quorums of reports (quorum.go) *)

Record BatchState := mkBatchState {
  bs_Execute : bool; bs_Executed : bool; bs_ExecuteRanges : RangeMap;
  bs_Learns : list BatchLearnMsg; bs_LearnsNotified : bool }.
#[export] Instance eta_BatchState : Eta BatchState := λ r,
  mkBatchState (bs_Execute r) (bs_Executed r) (bs_ExecuteRanges r) (bs_Learns r) (bs_LearnsNotified r).

Record BatchQuorumChecker := mkBqc { bqc_States : gmap Z BatchState; bqc_QuorumSize : Z }.
#[export] Instance eta_Bqc : Eta BatchQuorumChecker := λ r, mkBqc (bqc_States r) (bqc_QuorumSize r).

Definition NewBatchQuorumChecker (qsize : Z) : BatchQuorumChecker := mkBqc ∅ qsize.

Definition new_BatchState : BatchState := mkBatchState false false ∅ [] false.
(** The state a pointer returned by [GetState] shows, and a write through it. *)
Definition bstate (bqc : BatchQuorumChecker) (batchid : Z) : BatchState :=
  default new_BatchState (bqc_States bqc !! batchid).
Definition bqc_GetState (bqc : BatchQuorumChecker) (batchid : Z) : BatchState * BatchQuorumChecker :=
  let bqc := if bool_decide (bqc_States bqc !! batchid = None)
             then bqc <| bqc_States ::= <[batchid := new_BatchState]> |> else bqc in
  (bstate bqc batchid, bqc).
Definition put_bstate (batchid : Z) (st : BatchState) (bqc : BatchQuorumChecker) : BatchQuorumChecker :=
  bqc <| bqc_States ::= <[batchid := st]> |>.

Definition AddLearn (bqc : BatchQuorumChecker) (msg : BatchLearnMsg) : BatchQuorumChecker :=
  let '(state, bqc) := bqc_GetState bqc (bl_BatchID msg) in
  put_bstate (bl_BatchID msg) (state <| bs_Learns ::= λ l, l ++ [msg] |>) bqc.

Definition LearnQuorumExists (bqc : BatchQuorumChecker) (batchid : Z) : bool * BatchQuorumChecker :=
  let '(state, bqc) := bqc_GetState bqc batchid in
  let uniques : gset ID := foldl (λ u msg, {[bl_ID msg]} ∪ u) ∅ (bs_Learns state) in
  let quorum := bool_decide (Z.of_nat (size uniques) >= i64 (bqc_QuorumSize bqc)) in
  if quorum && negb (bs_LearnsNotified state) then
    (true, put_bstate batchid (state <| bs_LearnsNotified := true |>) bqc)
  else (false, bqc).

Definition findMin (msgs : list BatchLearnMsg) (cid : string) : Z :=
  (foldl (λ '(min, first) msg,
     let hs := default 0 (bl_HSS msg !! cid) in
     if (first : bool) then (hs, false)
     else if bool_decide (hs < min) then (hs, false) else (min, first))
   (0, true) msgs).1.

Definition count_keys (count : gmap string Z) (cids : list string) : gmap string Z :=
  foldl (λ count cid, <[cid := default 0 (count !! cid) + 1]> count) count cids.
Definition count_clients {RO : RangeOrder} (msgs : list BatchLearnMsg) : gmap string Z :=
  foldl (λ count msg, count_keys count (range_order 0 (bl_HSS msg)).*1) ∅ msgs.

Definition Intersect {RO : RangeOrder} (bqc : BatchQuorumChecker) (batchid : Z)
    : gmap string Z * BatchQuorumChecker :=
  let '(state, bqc) := bqc_GetState bqc batchid in
  let learns := bs_Learns state in
  (range_collect 1 (λ cid ct, if bool_decide (ct = len learns) then Some (findMin learns cid) else None)
     (count_clients learns) ∅, bqc).

(** * Batch points (batchpoint.go) *)

(** [BatchPointer] is its slice [BatchPoints]. *)
Definition makeRangeMap1 {RO : RangeOrder} (bp : BatchPoint) : RangeMap :=
  range_collect 0 (λ _ hs, Some (mkRange 0 hs)) bp ∅.

Definition makeRangeMap2 {RO : RangeOrder} (bp1 bp2 : BatchPoint) : RangeMap :=
  range_collect 0 (λ cid hs,
    match bp1 !! cid with
    | None => Some (mkRange 0 hs)
    | Some phs => if bool_decide (hs > phs) then Some (mkRange (u32 (phs + 1)) hs) else None
    end) bp2 ∅.

Definition try_loop {RO : RangeOrder} (last nbp : BatchPoint) : BatchPoint * bool :=
  foldl (λ '(grtr, rmable) '(cid, hs),
    match last !! cid with
    | None => (<[cid := hs]> grtr, true)
    | Some phs => if bool_decide (hs > phs) then (<[cid := hs]> grtr, true)
                  else (<[cid := phs]> grtr, rmable)
    end) (∅, false) (range_order 0 nbp).

Definition TryBatchPoint {RO : RangeOrder} (bps : list BatchPoint) (nbp : BatchPoint)
    : (bool * RangeMap) * list BatchPoint :=
  match last bps with
  | None =>
      if bool_decide (0 < size nbp)%nat then ((true, makeRangeMap1 nbp), bps ++ [nbp])
      else ((false, ∅), bps)
  | Some last =>
      let '(grtr, rmable) := try_loop last nbp in
      if (rmable : bool) then ((true, makeRangeMap2 last grtr), bps ++ [grtr])
      else ((false, ∅), bps)
  end.

(** * The replica (batchacceptor.go) *)

Inductive BMsg :=
| BLearn (m : BatchLearnMsg)
| BCommit (m : BatchCommitMsg)
| BUpdateRequest (m : UpdateRequestMsg)
| BUpdateReply (m : UpdateReplyMsg).

(** What a handler puts on the replica's output channels, and its timer resets. *)
Inductive BOut :=
| Ucast (m : BMsg) (dest : ID)
| Bcast (m : BMsg)
| Dcd (v : Value)
| ResetTimer.

(** The channels are the events and the outputs; the demuxer, the group
    manager and the stop channel play no part in the handlers. Times are
    nanoseconds, and [ba_ticks] counts the readings of the clock. *)
Record BatchAcceptor := mkBA {
  ba_id : ID;
  ba_leader : ID;
  ba_batcher : Batcher;
  ba_batchpter : list BatchPoint;
  ba_batchqc : BatchQuorumChecker;
  ba_batchAru : Z;
  ba_batchMaxReq : Z;
  ba_currNumReq : Z;
  ba_recvtime : gmap Z Z;
  ba_exectime : gmap Z Z;
  ba_ticks : nat;
}.
#[export] Instance eta_BatchAcceptor : Eta BatchAcceptor := λ r,
  mkBA (ba_id r) (ba_leader r) (ba_batcher r) (ba_batchpter r) (ba_batchqc r) (ba_batchAru r)
    (ba_batchMaxReq r) (ba_currNumReq r) (ba_recvtime r) (ba_exectime r) (ba_ticks r).

(** [NewBatchAcceptor]: the configuration gives the request limit, the pack
    the number of acceptors and the current leader. *)
Definition NewBatchAcceptor (id leader : ID) (nrOfAcceptors batchMaxSize batchPaxosMaxSize : Z)
    : res BatchAcceptor :=
  if bool_decide (batchMaxSize > 1) then Panic
  else Ok (mkBA id leader NewBatcher [] (NewBatchQuorumChecker (u64 (nrOfAcceptors `div` 2 + 1)))
             0 (u64 batchPaxosMaxSize) 0 ∅ ∅ 0).

Section acceptor.
Context {RO : RangeOrder} (now : nat → Z).

(** A state with the outputs the handler has produced so far. *)
Abbreviation BST := (BatchAcceptor * list BOut)%type.

Definition send (m : BMsg) (dest : ID) (st : BST) : BST := (st.1, st.2 ++ [Ucast m dest]).
Definition broadcast (m : BMsg) (st : BST) : BST := (st.1, st.2 ++ [Bcast m]).
Definition resetTimer (st : BST) : BST := (st.1, st.2 ++ [ResetTimer]).

(** The report of a new batch, common to the timer and the request limit. *)
Definition report (st : BST) : res BST :=
  let ba := st.1 in
  '(batch, br) ← GetBatch (ba_batcher ba);
  let st := (ba <| ba_batcher := br |>, st.2) in
  let st := match batch with
            | Some batch => send (BLearn (mkBatchLearn (ba_id ba) (bt_ID batch) (bt_HSS batch))) (ba_leader ba) st
            | None => st
            end in
  mret (resetTimer st).

Definition handleBatchTimeout (ba : BatchAcceptor) : res BST := report (ba, []).

Definition handleRequest (ba : BatchAcceptor) (val : Value) : res BST :=
  match Cr val with
  | [] => Panic
  | req :: _ =>
      let ba := ba <| ba_recvtime ::= <[GetSeq req := now (ba_ticks ba)]> |> <| ba_ticks ::= S |> in
      let ba := ba <| ba_batcher ::= λ br, LogRequest br req |> in
      if bool_decide (ba_batchMaxReq ba = 0) then Panic
      else
        let ba := ba <| ba_currNumReq ::= λ n, u64 (n + 1) `mod` ba_batchMaxReq ba |> in
        if bool_decide (ba_currNumReq ba = 0) then report (ba, [])
        else Ok (ba, [])
  end.

Definition handleUpdateRequestMsg (ba : BatchAcceptor) (msg : UpdateRequestMsg) : res BST :=
  '(inc, br) ← GetIncompleteRanges (ba_batcher ba) (uq_Ranges msg);
  let ba := ba <| ba_batcher := br |> in
  if bool_decide (size inc = 0%nat) then
    cmds ← GetClientCommands br (uq_Ranges msg);
    mret (send (BUpdateReply (mkUpdateReply (ba_id ba) (uq_BatchID msg) (uq_Ranges msg) cmds))
            (uq_ID msg) (ba, []))
  else Ok (ba, []).

Definition execute (st : BST) (req : Request) : res BST :=
  let ba := st.1 in
  Ok (ba <| ba_exectime ::= <[GetSeq req := now (ba_ticks ba)]> |> <| ba_ticks ::= S |>,
      st.2 ++ [Dcd (mkValue App [req] None)]).

Definition put_qc (f : BatchQuorumChecker → BatchQuorumChecker) (ba : BatchAcceptor) : BatchAcceptor :=
  ba <| ba_batchqc ::= f |>.

(** The loop of [tryToAdvance]: each turn marks one more batch executed, so
    the number of known batches bounds the turns. *)
Fixpoint advance_loop (fuel : nat) (st : BST) : res BST :=
  match fuel with
  | O => Diverge
  | S fuel =>
      let aru := ba_batchAru st.1 in
      let '(state, bqc) := bqc_GetState (ba_batchqc st.1) aru in
      let st := (st.1 <| ba_batchqc := bqc |>, st.2) in
      if bs_Execute state && negb (bs_Executed state) then
        st ← ForEach (ba_batcher st.1) (bs_ExecuteRanges state) execute st;
        let ba := put_qc (put_bstate aru (state <| bs_Executed := true |>)) st.1 in
        advance_loop fuel (ba <| ba_batchAru ::= λ n, u64 (n + 1) |>, st.2)
      else Ok st
  end.

Definition tryToAdvance (st : BST) : res BST :=
  advance_loop (S (size (bqc_States (ba_batchqc st.1)))) st.

Definition handleUpdateReplyMsg (ba : BatchAcceptor) (msg : UpdateReplyMsg) : res BST :=
  let '(state, bqc) := bqc_GetState (ba_batchqc ba) (up_BatchID msg) in
  let ba := ba <| ba_batchqc := bqc |> in
  if bs_Execute state then Ok (ba, [])
  else
    let br := SetClientCommands (ba_batcher ba) (up_Values msg) in
    '(inc, br) ← GetIncompleteRanges br (bs_ExecuteRanges state);
    let ba := ba <| ba_batcher := br |> in
    if bool_decide (size inc = 0%nat) then
      let ba := put_qc (put_bstate (up_BatchID msg) (state <| bs_Execute := true |>)) ba in
      tryToAdvance (ba, [])
    else Panic.

Definition handleLearnMsg (ba : BatchAcceptor) (msg : BatchLearnMsg) : res BST :=
  let ba := put_qc (λ bqc, AddLearn bqc msg) ba in
  let '(quorum, bqc) := LearnQuorumExists (ba_batchqc ba) (bl_BatchID msg) in
  let ba := ba <| ba_batchqc := bqc |> in
  if (quorum : bool) then
    let '(intersect, bqc) := Intersect (ba_batchqc ba) (bl_BatchID msg) in
    let ba := ba <| ba_batchqc := bqc |> in
    let '((_, ranges), bps) := TryBatchPoint (ba_batchpter ba) intersect in
    let ba := ba <| ba_batchpter := bps |> in
    Ok (broadcast (BCommit (mkBatchCommit (ba_id ba) (bl_BatchID msg) ranges)) (ba, []))
  else Ok (ba, []).

Definition handleCommitMsg (ba : BatchAcceptor) (msg : BatchCommitMsg) : res BST :=
  let '(state, bqc) := bqc_GetState (ba_batchqc ba) (bc_BatchID msg) in
  let state := state <| bs_ExecuteRanges := bc_Ranges msg |> in
  let ba := ba <| ba_batchqc := put_bstate (bc_BatchID msg) state bqc |> in
  '(inc, br) ← GetIncompleteRanges (ba_batcher ba) (bc_Ranges msg);
  let ba := ba <| ba_batcher := br |> in
  if bool_decide (size inc = 0%nat) then
    let ba := put_qc (put_bstate (bc_BatchID msg) (state <| bs_Execute := true |>)) ba in
    tryToAdvance (ba, [])
  else
    Ok (broadcast (BUpdateRequest (mkUpdateRequest (ba_id ba) (bc_BatchID msg) inc)) (ba, [])).

(** One turn of the [select] loop of [Start]. *)
Inductive BEvent :=
| EvValue (val : Value)
| EvLearn (m : BatchLearnMsg)
| EvCommit (m : BatchCommitMsg)
| EvUpdateRequest (m : UpdateRequestMsg)
| EvUpdateReply (m : UpdateReplyMsg)
| EvTimeout
| EvTrust (trustID : ID).

Definition batch_step (ba : BatchAcceptor) (ev : BEvent) : res BST :=
  match ev with
  | EvValue val => if bool_decide (Vt val ≠ App) then Panic else handleRequest ba val
  | EvLearn m => handleLearnMsg ba m
  | EvCommit m => handleCommitMsg ba m
  | EvUpdateRequest m => handleUpdateRequestMsg ba m
  | EvUpdateReply m => handleUpdateReplyMsg ba m
  | EvTimeout => handleBatchTimeout ba
  | EvTrust trustID => Ok (ba <| ba_leader := trustID |>, [])
  end.

(** [Start] resets the timer before the loop; a run is the events it handles. *)
Fixpoint batch_run (st : BST) (evs : list BEvent) : res BST :=
  match evs with
  | [] => Ok st
  | ev :: evs =>
      '(ba, outs) ← batch_step st.1 ev;
      batch_run (ba, st.2 ++ outs) evs
  end.
Definition batch_start (ba : BatchAcceptor) (evs : list BEvent) : res BST :=
  batch_run (resetTimer (ba, [])) evs.
End acceptor.

(** * The client log *)

Definition clog (br : Batcher) (cid : string) : ClientLogEntry :=
  default new_clog (br_CLog br !! cid).
Definition req_at (br : Batcher) (cid : string) (i : Z) : option Request :=
  cl_Values (clog br cid) !! i.

(** Batchers with the same requests and the same batches: they may differ in
    which clients have an empty log. *)
#[export] Instance Batcher_equiv : Equiv Batcher := λ b1 b2,
  (∀ cid, clog b1 cid = clog b2 cid) ∧ br_BatchMap b1 = br_BatchMap b2 ∧
  br_CurrentBatch b1 = br_CurrentBatch b2.
#[export] Instance Batcher_equivalence : Equivalence (≡@{Batcher}).
Proof.
  split.
  - by intros b.
  - intros b1 b2 (H1 & H2 & H3). by split_and!.
  - intros b1 b2 b3 (H1 & H2 & H3) (H4 & H5 & H6). split_and!; [|congruence..].
    intros cid. by rewrite H1.
Qed.
#[export] Instance req_at_proper : Proper ((≡) ==> (=) ==> (=) ==> (=)) req_at.
Proof. intros b1 b2 (H & _) c ? <- i ? <-. unfold req_at. by rewrite H. Qed.

Lemma GetRequest_eq br id seq : GetRequest br id seq = default zero_Request (req_at br id seq).
Proof. unfold GetRequest, req_at, clog. destruct (br_CLog br !! id); cbn; [done|]. by rewrite lookup_empty. Qed.
#[export] Instance GetRequest_proper : Proper ((≡) ==> (=) ==> (=) ==> (=)) GetRequest.
Proof. intros b1 b2 H c ? <- i ? <-. by rewrite !GetRequest_eq, H. Qed.

Lemma GetLog_eq br cid : GetLog br cid = (clog br cid, (GetLog br cid).2).
Proof.
  unfold GetLog, clog. case_bool_decide as H; cbn; [|done]. by rewrite lookup_insert_eq, H.
Qed.
Lemma GetLog_equiv br cid : (GetLog br cid).2 ≡ br.
Proof.
  unfold GetLog. case_bool_decide as H; cbn; [|done]. split_and!; [|done..].
  intros c. unfold clog. cbn. destruct (decide (c = cid)) as [->|]; [by rewrite lookup_insert_eq, H|by rewrite lookup_insert_ne].
Qed.

Lemma clog_LogRequest br r cid :
  clog (LogRequest br r) cid =
    if decide (cid = GetId r) then
      mkClog (<[GetSeq r := r]> (cl_Values (clog br cid))) (Z.max (cl_HighestSeen (clog br cid)) (GetSeq r))
    else clog br cid.
Proof.
  unfold LogRequest. rewrite GetLog_eq.
  destruct (GetLog_equiv br (GetId r)) as (H & _). destruct (GetLog br (GetId r)) as [? br'] eqn:E.
  cbn [snd] in *. unfold clog at 1. cbn. case_decide as D.
  - subst. rewrite lookup_insert_eq. cbn. case_bool_decide; cbn; f_equal; cbn in *; lia.
  - rewrite lookup_insert_ne by done. apply H.
Qed.
Lemma req_at_LogRequest br r cid i :
  req_at (LogRequest br r) cid i =
    if decide (cid = GetId r ∧ i = GetSeq r) then Some r else req_at br cid i.
Proof.
  unfold req_at. rewrite clog_LogRequest. case_decide as D; cbn.
  - destruct (decide (i = GetSeq r)) as [->|].
    + by rewrite decide_True, lookup_insert_eq by done.
    + by rewrite decide_False, lookup_insert_ne by naive_solver.
  - by rewrite decide_False by naive_solver.
Qed.
Lemma batches_LogRequest br r :
  br_BatchMap (LogRequest br r) = br_BatchMap br ∧ br_CurrentBatch (LogRequest br r) = br_CurrentBatch br.
Proof.
  unfold LogRequest. rewrite GetLog_eq. destruct (GetLog_equiv br (GetId r)) as (_ & H).
  destruct (GetLog br (GetId r)). exact H.
Qed.

(** ** Ranges of requests *)

Definition range_ok (r : ClientRange) : Prop := 0 ≤ cr_Start r ∧ cr_Stop r < max_u32.
Definition ranges_ok (rm : RangeMap) : Prop := map_Forall (λ _, range_ok) rm.
Definition in_range (i : Z) (r : ClientRange) : Prop := cr_Start r ≤ i ≤ cr_Stop r.
#[export] Instance in_range_dec i r : Decision (in_range i r).
Proof. unfold in_range. apply _. Defined.

(** Every request of a range, and of a range map, is in the log. *)
Definition has_range (br : Batcher) (cid : string) (r : ClientRange) : Prop :=
  ∀ i, in_range i r → is_Some (req_at br cid i).
Definition complete (br : Batcher) (rm : RangeMap) : Prop := map_Forall (has_range br) rm.

Lemma for_u32_ok {S} (body : S → Z → res S) r s :
  range_ok r → for_u32 body (cr_Start r) (cr_Stop r) s = foldM body s (range (cr_Start r) (cr_Stop r + 1)).
Proof.
  intros [? ?]. unfold for_u32. case_bool_decide.
  - by rewrite range_nil by lia.
  - rewrite bool_decide_eq_false_2 by lia. by destruct (foldM _ _ _).
Qed.

Definition missingb (br : Batcher) (cid : string) (r : ClientRange) : bool :=
  existsb (λ i, bool_decide (req_at br cid i = None)) (range (cr_Start r) (cr_Stop r + 1)).
#[export] Instance missingb_proper : Proper ((≡) ==> (=) ==> (=) ==> (=)) missingb.
Proof.
  intros b1 b2 H c ? <- r ? <-. unfold missingb. induction (range _ _) as [|i l IH]; [done|].
  cbn. rewrite IH. f_equal. apply bool_decide_ext. by rewrite H.
Qed.
Lemma missingb_spec br cid r : missingb br cid r = false ↔ has_range br cid r.
Proof.
  unfold missingb, has_range, in_range. split.
  - intros H i Hi. destruct (req_at br cid i) eqn:E; [done|]. exfalso.
    apply not_true_iff_false in H. apply H, existsb_exists. exists i.
    rewrite <- list_elem_of_In, elem_of_range. split; [lia|]. by apply bool_decide_eq_true_2.
  - intros H. apply not_true_iff_false. intros (i & Hi & E)%existsb_exists.
    rewrite <- list_elem_of_In, elem_of_range in Hi. apply bool_decide_eq_true in E.
    destruct (H i); [lia|congruence].
Qed.
Lemma missingb_true br cid r : missingb br cid r = true ↔ ¬ has_range br cid r.
Proof. rewrite <- missingb_spec. by destruct (missingb br cid r). Qed.

Lemma range_missing_ok br cid r :
  range_ok r → range_missing (cl_Values (clog br cid)) r = Ok (missingb br cid r).
Proof.
  intros [? ?]. unfold range_missing, missingb, req_at. case_bool_decide.
  - by rewrite range_nil by lia.
  - destruct (existsb _ _); [done|]. by rewrite bool_decide_eq_false_2 by lia.
Qed.

Section batcher.
Context {RO : RangeOrder} {RL : RangeOrderLaws RO}.

Definition incomplete (br : Batcher) (rm : RangeMap) : RangeMap :=
  range_collect 0 (λ cid r, if missingb br cid r then Some r else None) rm ∅.

Lemma lookup_incomplete br rm cid r :
  incomplete br rm !! cid = Some r ↔ rm !! cid = Some r ∧ ¬ has_range br cid r.
Proof.
  unfold incomplete. rewrite lookup_range_collect, lookup_empty.
  destruct (rm !! cid) as [r'|]; cbn; [|naive_solver].
  destruct (missingb br cid r') eqn:E; [apply missingb_true in E|apply missingb_spec in E];
    naive_solver.
Qed.
Lemma incomplete_empty br rm : size (incomplete br rm) = 0%nat ↔ complete br rm.
Proof.
  rewrite map_size_empty_iff. split.
  - intros H cid r Hr. apply missingb_spec, not_true_iff_false. intros Hm%missingb_true.
    assert (incomplete br rm !! cid = Some r) as E by (by apply lookup_incomplete).
    by rewrite H in E.
  - intros Hc. apply map_eq. intros cid. rewrite lookup_empty. apply eq_None_ne_Some_2.
    intros r [Hr Hn]%lookup_incomplete. by apply Hn, Hc.
Qed.

Lemma inc_body_ok inc br cid r :
  range_ok r → inc_body (inc, br) (cid, r) =
    Ok (if missingb br cid r then <[cid := r]> inc else inc, (GetLog br cid).2).
Proof.
  intros Hr. unfold inc_body. cbn [fst snd]. rewrite GetLog_eq, range_missing_ok by done. done.
Qed.
Lemma inc_loop br0 l inc br :
  br ≡ br0 → Forall (λ e, range_ok e.2) l →
  ∃ br', br' ≡ br0 ∧ foldM inc_body (inc, br) l =
    Ok (foldl (λ acc '(cid, r), match (if missingb br0 cid r then Some r else None) with
                                | Some b => <[cid := b]> acc | None => acc end) inc l, br').
Proof.
  revert inc br. induction l as [|[cid r] l IH]; intros inc br Hb Hl; [by exists br|].
  apply Forall_cons in Hl as [Hr Hl]. cbn [foldM foldl].
  rewrite inc_body_ok by done. cbn [mbind res_bind].
  destruct (IH (if missingb br cid r then <[cid:=r]> inc else inc) (GetLog br cid).2) as (br' & H1 & H2);
    [by rewrite GetLog_equiv|done|].
  exists br'. split; [done|]. rewrite H2. rewrite Hb. by destruct (missingb br0 cid r).
Qed.

Lemma GetIncompleteRanges_ok br rm :
  ranges_ok rm → ∃ br', br' ≡ br ∧ GetIncompleteRanges br rm = Ok (incomplete br rm, br').
Proof.
  intros Hr. apply inc_loop; [done|]. apply Forall_forall. intros [cid r] H%elem_of_range_order.
  by apply (Hr cid).
Qed.
End batcher.

(** ** The requests of a batch *)

Section requests.
Context {RO : RangeOrder} {RL : RangeOrderLaws RO}.

(** What [ForEach] visits: the clients in order, each client's range in order. *)
Definition visit {A} (f : string → Z → A) (rm : RangeMap) : list A :=
  SortedKeysRange rm ≫= λ id,
    let r := default zero_Range (rm !! id) in
    f id <$> range (cr_Start r) (cr_Stop r + 1).

Lemma elem_of_SortedKeysRange rm id : id ∈ SortedKeysRange rm ↔ is_Some (rm !! id).
Proof.
  unfold SortedKeysRange. rewrite merge_sort_Permutation, list_elem_of_fmap. split.
  - intros ([id' r] & -> & H%elem_of_range_order). by exists r.
  - intros [r H]. exists (id, r). by rewrite elem_of_range_order.
Qed.

Lemma ForEach_ok {S} br rm (fn : S → Request → res S) s :
  ranges_ok rm → ForEach br rm fn s = foldM fn s (visit (GetRequest br) rm).
Proof.
  intros Hr. unfold ForEach, visit.
  assert (Forall (λ id, is_Some (rm !! id)) (SortedKeysRange rm)) as Hk
    by (apply Forall_forall; intros id; apply elem_of_SortedKeysRange).
  revert s. induction Hk as [|id ids [r Hid] _ IH]; intros s; [done|].
  cbn [foldM mbind list_bind]. rewrite Hid. cbn [default from_option].
  rewrite for_u32_ok by by apply (Hr id). rewrite foldM_app.
  cut (∀ l s, foldM (λ s i, fn s (GetRequest br id i)) s l = foldM fn s (GetRequest br id <$> l)).
  { intros ->. destruct (foldM fn s _); cbn [mbind res_bind]; [apply IH|done..]. }
  clear. induction l as [|i l IH]; intros s; [done|]. cbn. destruct (fn s _); cbn; [apply IH|done..].
Qed.

Lemma visit_ext {A} (f g : string → Z → A) rm :
  (∀ cid r i, rm !! cid = Some r → in_range i r → f cid i = g cid i) → visit f rm = visit g rm.
Proof.
  intros H. unfold visit.
  assert (Forall (λ id, is_Some (rm !! id)) (SortedKeysRange rm)) as Hk
    by (apply Forall_forall; intros id; apply elem_of_SortedKeysRange).
  induction Hk as [|id ids [r Hid] _ IH]; [done|].
  cbn. rewrite IH, Hid. f_equal. apply list_fmap_ext. intros k i Hi%list_elem_of_lookup_2.
  apply elem_of_range in Hi. eapply H; [done|]. unfold in_range. cbn in *. lia.
Qed.

Lemma elem_of_visit {A} (f : string → Z → A) rm x :
  x ∈ visit f rm ↔ ∃ cid r i, rm !! cid = Some r ∧ in_range i r ∧ x = f cid i.
Proof.
  unfold visit. rewrite list_elem_of_bind. setoid_rewrite list_elem_of_fmap.
  setoid_rewrite elem_of_range. setoid_rewrite elem_of_SortedKeysRange. unfold in_range. split.
  - intros (cid & (i & -> & Hi) & r & Hr). rewrite Hr in Hi. cbn in Hi. exists cid, r, i. split_and!; [done|lia..|done].
  - intros (cid & r & i & Hr & Hi & ->). exists cid. rewrite Hr. cbn. split; [|by exists r].
    exists i. split; [done|lia].
Qed.
End requests.

(** The order of the batch does not depend on how the runtime iterates. *)
Lemma SortedKeysRange_order (RO1 RO2 : RangeOrder) rm :
  RangeOrderLaws RO1 → RangeOrderLaws RO2 →
  SortedKeysRange (RO := RO1) rm = SortedKeysRange (RO := RO2) rm.
Proof.
  intros L1 L2. unfold SortedKeysRange. apply (StronglySorted_unique str_le).
  - apply (StronglySorted_merge_sort str_le).
  - apply (StronglySorted_merge_sort str_le).
  - rewrite !merge_sort_Permutation. by rewrite (range_order_perm (RO := RO1)), (range_order_perm (RO := RO2)).
Qed.
Lemma visit_order (RO1 RO2 : RangeOrder) {A} (f : string → Z → A) rm :
  RangeOrderLaws RO1 → RangeOrderLaws RO2 → visit (RO := RO1) f rm = visit (RO := RO2) f rm.
Proof. intros L1 L2. unfold visit. by rewrite (SortedKeysRange_order RO1 RO2 rm L1 L2). Qed.

(** * Batch states *)

Lemma bqc_GetState_eq q b : bqc_GetState q b = (bstate q b, (bqc_GetState q b).2).
Proof.
  unfold bqc_GetState, bstate. case_bool_decide as H; cbn; [|done]. by rewrite lookup_insert_eq, H.
Qed.
Lemma bstate_GetState q b j : bstate (bqc_GetState q b).2 j = bstate q j.
Proof.
  unfold bqc_GetState. case_bool_decide as H; cbn; [|done]. unfold bstate. cbn.
  destruct (decide (j = b)) as [->|]; [by rewrite lookup_insert_eq, H|by rewrite lookup_insert_ne].
Qed.
Arguments bqc_GetState : simpl never.
Arguments put_bstate : simpl never.
Arguments bstate : simpl never.
Lemma bstate_put q b st j : bstate (put_bstate b st q) j = if decide (j = b) then st else bstate q j.
Proof.
  unfold bstate, put_bstate. cbn. case_decide as D; [subst; by rewrite lookup_insert_eq|by rewrite lookup_insert_ne].
Qed.
Lemma QuorumSize_GetState q b : bqc_QuorumSize (bqc_GetState q b).2 = bqc_QuorumSize q.
Proof. unfold bqc_GetState. by case_bool_decide. Qed.

Lemma QuorumSize_put q b st : bqc_QuorumSize (put_bstate b st q) = bqc_QuorumSize q.
Proof. done. Qed.

(** The batches that are ready and not executed bound the turns of [tryToAdvance]. *)
Definition ready (st : BatchState) : bool := bs_Execute st && negb (bs_Executed st).
Definition nready (q : BatchQuorumChecker) : nat := size (filter (λ '(_, st), ready st = true) (bqc_States q)).

Lemma nready_le q : (nready q ≤ size (bqc_States q))%nat.
Proof. unfold nready. apply map_subseteq_size, map_filter_subseteq. Qed.
Lemma nready_GetState q b : nready (bqc_GetState q b).2 = nready q.
Proof.
  unfold bqc_GetState. case_bool_decide as H; cbn; [|done]. unfold nready. cbn.
  rewrite map_filter_insert_False by done. by rewrite delete_id.
Qed.
Lemma nready_execute q b :
  ready (bstate q b) = true →
  nready (put_bstate b ((bstate q b) <| bs_Executed := true |>) q) = pred (nready q) ∧ (0 < nready q)%nat.
Proof.
  intros Hb. assert (∃ st, bqc_States q !! b = Some st ∧ ready st = true) as (st & Hst & Hr).
  { unfold bstate in Hb. destruct (bqc_States q !! b); [by eexists|done]. }
  assert (filter (λ '(_, st), ready st = true) (bqc_States q) !! b = Some st) as Hf
    by by apply map_lookup_filter_Some.
  unfold nready, put_bstate. cbn.
  rewrite map_filter_insert_False by (cbn; unfold ready; cbn; by rewrite andb_false_r).
  rewrite map_filter_delete, map_size_delete_Some by done. split; [lia|].
  enough (size (filter (λ '(_, st), ready st = true) (bqc_States q)) ≠ 0%nat) by lia.
  apply map_size_ne_0_lookup_2 with b. by exists st.
Qed.

(** * Executing batches *)

Definition core (ba : BatchAcceptor) :=
  (ba_id ba, ba_leader ba, ba_batcher ba, ba_batchpter ba, ba_batchMaxReq ba, ba_currNumReq ba).
Definition dcd (r : Request) : BOut := Dcd (mkValue App [r] None).
Definition decided (outs : list BOut) : list Request :=
  outs ≫= λ o, match o with Dcd v => Cr v | _ => [] end.

Lemma decided_dcd rs : decided (dcd <$> rs) = rs.
Proof. unfold decided. induction rs as [|r rs IH]; [done|]. cbn. by rewrite IH. Qed.
Lemma decided_app a b : decided (a ++ b) = decided a ++ decided b.
Proof. apply bind_app. Qed.

Arguments decided : simpl never.
Arguments visit : simpl never.

Lemma execute_eq now ba outs r :
  execute now (ba, outs) r =
    Ok (ba <| ba_exectime ::= <[GetSeq r := now (ba_ticks ba)]> |> <| ba_ticks ::= S |>, outs ++ [dcd r]).
Proof. done. Qed.

Lemma execute_all now ba outs rs :
  ∃ ba', foldM (execute now) (ba, outs) rs = Ok (ba', outs ++ (dcd <$> rs)) ∧
    core ba' = core ba ∧ ba_batchqc ba' = ba_batchqc ba ∧ ba_batchAru ba' = ba_batchAru ba.
Proof.
  revert ba outs. induction rs as [|r rs IH]; intros ba outs.
  { exists ba. by rewrite app_nil_r. }
  cbn [foldM]. rewrite execute_eq. cbn [mbind res_bind].
  edestruct IH as (ba' & E & Hc & Hq & Ha). exists ba'. rewrite E. split_and!; [|done..].
  by rewrite <- app_assoc.
Qed.

Section advance.
Context {RO : RangeOrder} {RL : RangeOrderLaws RO} (now : nat → Z).

(** The requests of batch [b] as the replica would execute it now. *)
Definition batch_requests (ba : BatchAcceptor) (b : Z) : list Request :=
  visit (GetRequest (ba_batcher ba)) (bs_ExecuteRanges (bstate (ba_batchqc ba) b)).

Definition ready_ok (q : BatchQuorumChecker) : Prop :=
  ∀ b, ready (bstate q b) = true → b < 2 ^ 64 - 1 ∧ ranges_ok (bs_ExecuteRanges (bstate q b)).

(** [advance_loop] executes the longest run of ready batches from [batchAru]. *)
Record advanced (st st' : BatchAcceptor * list BOut) (k : nat) : Prop := {
  adv_core : core st'.1 = core st.1;
  adv_qsize : bqc_QuorumSize (ba_batchqc st'.1) = bqc_QuorumSize (ba_batchqc st.1);
  adv_aru : ba_batchAru st'.1 = ba_batchAru st.1 + Z.of_nat k;
  adv_outs : st'.2 = st.2 ++ (dcd <$> (seqZ (ba_batchAru st.1) (Z.of_nat k) ≫= batch_requests st.1));
  adv_state b : bstate (ba_batchqc st'.1) b =
    if decide (ba_batchAru st.1 ≤ b < ba_batchAru st.1 + Z.of_nat k)
    then (bstate (ba_batchqc st.1) b) <| bs_Executed := true |> else bstate (ba_batchqc st.1) b;
  adv_ready b : ba_batchAru st.1 ≤ b < ba_batchAru st.1 + Z.of_nat k →
    ready (bstate (ba_batchqc st.1) b) = true;
  adv_stop : ready (bstate (ba_batchqc st'.1) (ba_batchAru st'.1)) = false;
}.

Lemma advance_loop_ok fuel st :
  (nready (ba_batchqc st.1) < fuel)%nat → ready_ok (ba_batchqc st.1) → 0 ≤ ba_batchAru st.1 →
  ∃ st' k, advance_loop now fuel st = Ok st' ∧ advanced st st' k.
Proof.
  revert st. induction fuel as [|fuel IH]; intros [ba outs] Hf Hok Haru; [lia|]. cbn [fst snd] in *.
  cbn [advance_loop fst snd]. rewrite bqc_GetState_eq. cbn [fst snd].
  set (aru := ba_batchAru ba). pose proof (bstate_GetState (ba_batchqc ba) aru) as Hq0.
  pose proof (QuorumSize_GetState (ba_batchqc ba) aru) as Hs0.
  pose proof (nready_GetState (ba_batchqc ba) aru) as Hn0.
  set (q0 := (bqc_GetState (ba_batchqc ba) aru).2) in *. clearbody q0.
  change (bs_Execute (bstate (ba_batchqc ba) aru) && negb (bs_Executed (bstate (ba_batchqc ba) aru)))
    with (ready (bstate (ba_batchqc ba) aru)).
  destruct (ready (bstate (ba_batchqc ba) aru)) eqn:Er.
  2:{ exists (ba <| ba_batchqc := q0 |>, outs), 0%nat. split; [done|].
      split; cbn [update fst snd ba_batchqc ba_batchAru]; [done|done|lia|by rewrite app_nil_r| |lia|by rewrite Hq0].
      intros b. by rewrite Hq0, decide_False by (fold aru; lia). }
  destruct (Hok aru Er) as [Haru2 Hrng]. rewrite ForEach_ok by done.
  destruct (execute_all now (ba <| ba_batchqc := q0 |>) outs
    (visit (GetRequest (ba_batcher ba)) (bs_ExecuteRanges (bstate (ba_batchqc ba) aru))))
    as (ba1 & E1 & Hc1 & Hq1 & Ha1).
  match type of E1 with _ = ?r =>
    match goal with |- context [foldM ?f ?s ?l] => replace (foldM f s l) with r by (symmetry; exact E1) end end.
  cbn [mbind res_bind fst snd]. clear E1.
  cbn [update put_qc ba_batchqc ba_batchAru] in *. rewrite Hq1, Ha1. fold aru. nowrap.
  set (q1 := put_bstate aru _ q0).
  assert (∀ b, bstate q1 b = if decide (b = aru) then (bstate (ba_batchqc ba) aru) <| bs_Executed := true |>
                             else bstate (ba_batchqc ba) b) as Hq1b.
  { intros b. unfold q1. by rewrite bstate_put, Hq0. }
  destruct (nready_execute q0 aru) as [Hn1 Hn2]; [by rewrite Hq0|].
  rewrite Hq0 in Hn1. change (nready q1 = pred (nready q0)) in Hn1.
  set (ba2 := ba1 <| ba_batchqc := q1 |> <| ba_batchAru := aru + 1 |>).
  set (rs := visit _ _).
  assert (rs = batch_requests ba aru) as Ers by done.
  destruct (IH (ba2, outs ++ (dcd <$> rs))) as (st' & k & E & Hadv);
    [cbn; lia| |cbn; lia|].
  { intros b. cbn [fst ba2 update ba_batchqc]. rewrite Hq1b. case_decide; [unfold ready; cbn; by rewrite andb_false_r|]. apply Hok. }
  exists st', (S k). split; [exact E|]. clearbody rs. subst rs.
  assert (core ba2 = core ba) as Hc2 by (transitivity (core ba1); [reflexivity|exact Hc1]).
  destruct Hadv as [A1 A2 A3 A4 A5 A6 A7]. cbn [fst snd ba2 update ba_batchqc ba_batchAru] in *.
  split; cbn [fst snd].
  - by rewrite A1.
  - by rewrite A2, <- Hs0.
  - lia.
  - rewrite A4, <- app_assoc. f_equal. replace (Z.of_nat (S k)) with (1 + Z.of_nat k) by lia.
    rewrite seqZ_app, bind_app, fmap_app by lia. fold aru. f_equal.
    + rewrite (seqZ_cons aru 1), seqZ_nil by lia. cbn [mbind list_bind]. by rewrite app_nil_r.
    + f_equal. apply bind_ext_elem. intros b Hb%elem_of_seqZ. unfold batch_requests.
      change (ba_batcher ba2) with (ba_batcher ba1). injection Hc1 as _ _ -> _ _ _.
      change (ba_batchqc ba2) with q1. by rewrite Hq1b, decide_False by lia.
  - intros b. rewrite A5, Hq1b. fold aru. repeat case_decide; subst; try lia; done.
  - intros b Hb. fold aru in Hb. destruct (decide (b = aru)) as [->|]; [done|].
    rewrite <- (A6 b) by lia. by rewrite Hq1b, decide_False.
  - done.
Qed.
End advance.
