(* ===== verification/BatchLeader.v ===== *)
(** The leader of batch Paxos (src/batchpaxos/quorum.go, batchpoint.go and
    handleLearnMsg): the intersection of a quorum's reports, the batch points,
    the one commit of every batch, and a run of three replicas in which a
    request is executed twice. *)
From S2P Require Import Prelude Grp PaxosTypes BatchPaxos.

(** * Quorums of reports and batch points *)

Section leader.
Context {RO : RangeOrder} {RL : RangeOrderLaws RO}.

Lemma findMin_spec msgs cid :
  msgs ≠ [] →
  (∃ m, m ∈ msgs ∧ findMin msgs cid = default 0 (bl_HSS m !! cid)) ∧
  ∀ m, m ∈ msgs → findMin msgs cid ≤ default 0 (bl_HSS m !! cid).
Proof.
  intros Hne. unfold findMin.
  set (hs m := default 0 (bl_HSS m !! cid)).
  set (f := λ '((min, first) : Z * bool) msg,
    let h := default 0 (bl_HSS msg !! cid) in
    if first then (h, false) else if bool_decide (h < min) then (h, false) else (min, first)).
  cut (∀ pre l st, st = foldl f (0, true) pre → (pre ≠ [] → st.2 = false ∧
         (∃ m, m ∈ pre ∧ st.1 = hs m) ∧ ∀ m, m ∈ pre → st.1 ≤ hs m) →
       let st' := foldl f (0, true) (pre ++ l) in
       (pre ++ l ≠ [] → st'.2 = false ∧ (∃ m, m ∈ pre ++ l ∧ st'.1 = hs m) ∧ ∀ m, m ∈ pre ++ l → st'.1 ≤ hs m)).
  { intros H. by destruct (H [] msgs (0, true) eq_refl ltac:(done) Hne) as (_ & ?). }
  intros pre l. revert pre. induction l as [|m l IH]; intros pre st Est Hp; cbn zeta.
  { rewrite app_nil_r, <- Est. exact Hp. }
  change (m :: l) with ([m] ++ l). rewrite app_assoc. eapply IH; [reflexivity|]. intros _.
  rewrite foldl_snoc, <- Est. destruct st as [mn first]. cbn [f]. fold (hs m). destruct pre as [|m0 pre].
  - cbn in Est. injection Est as -> ->. cbn. split_and!; [done|exists m; by rewrite list_elem_of_singleton|].
    intros m' ->%list_elem_of_singleton. lia.
  - destruct (Hp ltac:(done)) as (E2 & (m1 & Hm1 & E1) & Hle). cbn in E1, E2, Hle. subst first.
    case_bool_decide; cbn [fst snd]; (split_and!; [done| |]).
    + exists m. split; [|done]. apply elem_of_app. right. by apply list_elem_of_singleton.
    + intros m' [H'|H']%elem_of_app; [specialize (Hle _ H'); lia|].
      apply list_elem_of_singleton in H' as ->. lia.
    + exists m1. split; [|done]. apply elem_of_app. by left.
    + intros m' [H'|H']%elem_of_app; [by apply Hle|]. apply list_elem_of_singleton in H' as ->. lia.
Qed.

(** How many reports name a client. *)
Definition naming (msgs : list BatchLearnMsg) (cid : string) : nat :=
  length (filter (λ m, is_Some (bl_HSS m !! cid)) msgs).

Lemma count_one (l : list string) (count : gmap string Z) cid :
  NoDup l →
  default 0 (count_keys count l !! cid) =
    default 0 (count !! cid) + (if decide (cid ∈ l) then 1 else 0).
Proof.
  intros Nd. revert count. unfold count_keys. induction Nd as [|c l Hc _ IH]; intros count.
  { rewrite decide_False by (by intros ?%elem_of_nil). cbn. lia. }
  cbn [foldl]. rewrite IH. destruct (decide (cid = c)) as [->|Hn].
  - rewrite lookup_insert_eq, decide_False, decide_True by (done || by constructor). cbn. lia.
  - rewrite lookup_insert_ne by done. f_equal. repeat case_decide; try done.
    + exfalso. eauto using list_elem_of_further.
    + exfalso. match goal with H : cid ∈ _ :: _ |- _ => apply elem_of_cons in H as [|] end; done.
Qed.

Lemma count_clients_spec msgs cid :
  default 0 (count_clients msgs !! cid) = Z.of_nat (naming msgs cid).
Proof.
  unfold count_clients. cut (∀ count : gmap string Z, default 0 (foldl (λ count msg,
    count_keys count (range_order 0 (bl_HSS msg)).*1) count msgs !! cid) = default 0 (count !! cid) + Z.of_nat (naming msgs cid)).
  { intros ->. by rewrite lookup_empty. }
  induction msgs as [|m msgs IH]; intros count; [cbn; lia|].
  cbn [foldl]. rewrite IH, count_one by apply NoDup_fst_range_order.
  unfold naming. rewrite filter_cons. rewrite <- Z.add_assoc. f_equal.
  assert (cid ∈ (range_order 0 (bl_HSS m)).*1 ↔ is_Some (bl_HSS m !! cid)) as Hiff.
  { rewrite list_elem_of_fmap. split.
    - intros ([c h] & -> & H%elem_of_range_order). by exists h.
    - intros [h H]. exists (cid, h). by rewrite elem_of_range_order. }
  repeat case_decide; cbn; try lia; tauto.
Qed.
Lemma naming_all msgs cid :
  naming msgs cid = length msgs ↔ ∀ m, m ∈ msgs → is_Some (bl_HSS m !! cid).
Proof.
  unfold naming. rewrite <- Forall_forall. induction msgs as [|m msgs IH]; [done|].
  rewrite filter_cons, Forall_cons. pose proof (length_filter (λ m, is_Some (bl_HSS m !! cid)) msgs) as Hl.
  case_decide; cbn; [rewrite <- IH; naive_solver lia|]. split; [lia|tauto].
Qed.

(** ** Batch points *)

Definition newb (last : BatchPoint) (cid : string) (hs : Z) : bool :=
  match last !! cid with None => true | Some phs => bool_decide (hs > phs) end.
Definition raised (last : BatchPoint) (cid : string) (hs : Z) : Z :=
  match last !! cid with None => hs | Some phs => Z.max hs phs end.

Lemma try_loop_eq last nbp :
  try_loop last nbp =
    (range_collect 0 (λ cid hs, Some (raised last cid hs)) nbp ∅,
     existsb (λ e, newb last e.1 e.2) (range_order 0 nbp)).
Proof.
  unfold try_loop, range_collect. rewrite <- (orb_false_r (existsb _ _)).
  generalize (∅ : BatchPoint), false. induction (range_order 0 nbp) as [|[cid hs] l IH]; intros acc b; [done|].
  cbn [foldl existsb fst snd]. unfold newb at 1, raised at 2.
  destruct (last !! cid) as [phs|]; [case_bool_decide|]; rewrite IH; f_equal; cbn;
    rewrite ?Z.max_l, ?Z.max_r, ?orb_true_r by lia; done.
Qed.

Definition prev_point (bps : list BatchPoint) : BatchPoint := default ∅ (last bps).

Lemma TryBatchPoint_eq bps nbp :
  TryBatchPoint bps nbp =
    let lst := prev_point bps in
    if existsb (λ e, newb lst e.1 e.2) (range_order 0 nbp) then
      let grtr := match last bps with
                  | None => nbp | Some _ => range_collect 0 (λ cid hs, Some (raised lst cid hs)) nbp ∅ end in
      ((true, match last bps with None => makeRangeMap1 grtr | Some _ => makeRangeMap2 lst grtr end), bps ++ [grtr])
    else ((false, ∅), bps).
Proof.
  unfold TryBatchPoint, prev_point. destruct (last bps) as [lst|]; cbn [default].
  - by rewrite try_loop_eq.
  - assert (existsb (λ e, newb ∅ e.1 e.2) (range_order 0 nbp) = bool_decide (0 < size nbp)%nat) as ->.
    { rewrite <- (length_range_order 0). by destruct (range_order 0 nbp). }
    by case_bool_decide.
Qed.

Lemma existsb_newb lst nbp :
  existsb (λ e, newb lst e.1 e.2) (range_order 0 nbp) = true ↔
  ∃ cid hs, nbp !! cid = Some hs ∧ ∀ phs, lst !! cid = Some phs → phs < hs.
Proof.
  rewrite existsb_exists. unfold newb. split.
  - intros ([cid hs] & Hin & Hn). rewrite <- list_elem_of_In, elem_of_range_order in Hin.
    exists cid, hs. split; [done|]. intros phs E. cbn in Hn. rewrite E in Hn.
    apply bool_decide_eq_true in Hn. lia.
  - intros (cid & hs & Hin & Hn). exists (cid, hs). rewrite <- list_elem_of_In, elem_of_range_order.
    split; [done|]. cbn. destruct (lst !! cid) as [phs|]; [|done]. apply bool_decide_eq_true.
    specialize (Hn _ eq_refl). lia.
Qed.
End leader.

Definition point_ok (bp : BatchPoint) : Prop := map_Forall (λ _ hs, 0 ≤ hs < 2 ^ 32) bp.

(** Which sequence numbers the two range maps hold. *)
Lemma makeRangeMap1_spec {RO : RangeOrder} {RL : RangeOrderLaws RO} bp cid seq :
  (∃ r, makeRangeMap1 bp !! cid = Some r ∧ in_range seq r) ↔ ∃ hs, bp !! cid = Some hs ∧ 0 ≤ seq ≤ hs.
Proof.
  unfold makeRangeMap1, in_range. rewrite lookup_range_collect, lookup_empty.
  destruct (bp !! cid); cbn; naive_solver.
Qed.
Lemma makeRangeMap2_spec {RO : RangeOrder} {RL : RangeOrderLaws RO} lst bp cid seq :
  point_ok bp → point_ok lst →
  (∃ r, makeRangeMap2 lst bp !! cid = Some r ∧ in_range seq r) ↔
  ∃ hs, bp !! cid = Some hs ∧ 0 ≤ seq ≤ hs ∧ ∀ phs, lst !! cid = Some phs → phs < seq.
Proof.
  intros Hb Hl. unfold makeRangeMap2, in_range. rewrite lookup_range_collect, lookup_empty.
  destruct (bp !! cid) as [hs|] eqn:Eb; cbn; [|naive_solver]. specialize (Hb _ _ Eb). cbn in Hb.
  destruct (lst !! cid) as [phs|] eqn:El; [|naive_solver].
  specialize (Hl _ _ El). cbn in Hl. case_bool_decide.
  - nowrap. split.
    + intros (r & [= <-] & Hs). cbn in Hs. exists hs. split_and!; try done; try lia. intros ? [= <-]. lia.
    + intros (? & [= <-] & Hs & Hp). eexists. split; [done|]. specialize (Hp _ eq_refl). cbn. lia.
  - split; [naive_solver|]. intros (? & [= <-] & Hs & Hp). specialize (Hp _ eq_refl). lia.
Qed.

Lemma raised_ok {RO : RangeOrder} {RL : RangeOrderLaws RO} lst nbp :
  point_ok nbp → point_ok lst → point_ok (range_collect 0 (λ cid hs, Some (raised lst cid hs)) nbp ∅).
Proof.
  intros Hn Hl cid hs. rewrite lookup_range_collect, lookup_empty.
  destruct (nbp !! cid) as [h|] eqn:E; [|done]. cbn. intros [= <-]. specialize (Hn _ _ E). cbn in Hn.
  unfold raised. destruct (lst !! cid) as [phs|] eqn:El; [|done]. specialize (Hl _ _ El). cbn in Hl. lia.
Qed.

(** A batch point commits, for every client, exactly the sequence numbers up to
    the new intersection that the previous batch point did not cover; it
    succeeds exactly when there is such a number, and then remembers, for the
    clients of the intersection, the larger of the old and new number. *)
Theorem TryBatchPoint_spec (RO : RangeOrder) (RL : RangeOrderLaws RO) (bps bps' : list BatchPoint)
    (nbp : BatchPoint) (ok : bool) (ranges : RangeMap) :
  point_ok nbp → point_ok (prev_point bps) →
  TryBatchPoint bps nbp = ((ok, ranges), bps') →
  (ok = true ↔ ∃ cid hs, nbp !! cid = Some hs ∧ ∀ phs, prev_point bps !! cid = Some phs → phs < hs) ∧
  (∀ cid seq, (∃ r, ranges !! cid = Some r ∧ in_range seq r) ↔
     ∃ hs, nbp !! cid = Some hs ∧ 0 ≤ seq ≤ hs ∧ ∀ phs, prev_point bps !! cid = Some phs → phs < seq) ∧
  (ok = false → bps' = bps) ∧
  (ok = true → ∃ grtr, bps' = bps ++ [grtr] ∧
     ∀ cid, grtr !! cid = (λ hs, Z.max hs (default hs (prev_point bps !! cid))) <$> nbp !! cid).
Proof.
  intros Hn Hl. rewrite TryBatchPoint_eq. cbn zeta.
  destruct (existsb _ _) eqn:Ex; intros [= <- <- <-]; split_and!; try done.
  - by rewrite <- existsb_newb, Ex.
  - intros cid seq. unfold prev_point in *. destruct (last bps) as [lst|]; cbn in *.
    + rewrite makeRangeMap2_spec; [|by apply raised_ok|done]. split.
      * intros (hs & Hg & Hs & Hp). rewrite lookup_range_collect, lookup_empty in Hg.
        destruct (nbp !! cid) as [h|]; [|done]. cbn in Hg. injection Hg as <-. exists h.
        split_and!; [done|lia| |done]. unfold raised in Hs.
        destruct (lst !! cid) as [phs|]; [specialize (Hp _ eq_refl)|]; lia.
      * intros (h & Hh & Hs & Hp). exists (raised lst cid h). rewrite lookup_range_collect, Hh.
        split_and!; [done|lia| |done]. unfold raised. destruct (lst !! cid); lia.
    + rewrite makeRangeMap1_spec. setoid_rewrite lookup_empty. naive_solver.
  - intros _. eexists; split; [reflexivity|]. intros cid. unfold prev_point.
    destruct (last bps) as [lst|]; cbn.
    + rewrite lookup_range_collect, lookup_empty. destruct (nbp !! cid) as [hs|]; cbn; [|done].
      unfold raised. destruct (lst !! cid); cbn; f_equal; lia.
    + rewrite lookup_empty. destruct (nbp !! cid); cbn; f_equal; lia.
  - rewrite <- existsb_newb, Ex. done.
  - intros cid seq. split; [by intros (r & Hr & _)|]. intros (hs & Hh & Hs & Hp).
    assert (existsb (λ e, newb (prev_point bps) e.1 e.2) (range_order 0 nbp) = true); [|congruence].
    apply existsb_newb. exists cid, hs. split; [done|]. intros phs E. specialize (Hp _ E). lia.
Qed.

(** The intersection of the reports of a batch holds exactly the clients that
    every report names, each with the smallest number reported for it. *)
Theorem Intersect_spec (RO : RangeOrder) (RL : RangeOrderLaws RO) (q : BatchQuorumChecker) (b : Z)
    (cid : string) (h : Z) :
  let learns := bs_Learns (bstate q b) in
  (Intersect q b).1 !! cid = Some h ↔
    (∃ m, m ∈ learns ∧ bl_HSS m !! cid = Some h) ∧
    ∀ m, m ∈ learns → ∃ h', bl_HSS m !! cid = Some h' ∧ h ≤ h'.
Proof.
  cbn zeta. unfold Intersect. rewrite bqc_GetState_eq. cbn [fst].
  set (learns := bs_Learns (bstate q b)). rewrite lookup_range_collect, lookup_empty.
  pose proof (count_clients_spec learns cid) as Hc. pose proof (naming_all learns cid) as Hn.
  assert (∀ m, m ∈ learns → learns ≠ []) as Hne by (intros m Hm ->; by apply elem_of_nil in Hm).
  split.
  - intros H. destruct (count_clients learns !! cid) as [ct|] eqn:Ec; [|done]. cbn in H, Hc.
    case_bool_decide as Hct; [|done]. injection H as <-.
    assert (∀ m, m ∈ learns → is_Some (bl_HSS m !! cid)) as Hall by (apply Hn; lia).
    assert (learns ≠ []) as Hl.
    { intros E. rewrite E in Ec. done. }
    destruct (findMin_spec learns cid Hl) as [(m & Hm & Em) Hmin]. split.
    + exists m. split; [done|]. destruct (Hall m Hm) as [x Hx]. rewrite Hx in Em. cbn in Em. congruence.
    + intros m' Hm'. destruct (Hall m' Hm') as [x Hx]. exists x. split; [done|].
      specialize (Hmin m' Hm'). by rewrite Hx in Hmin.
  - intros [(m & Hm & Em) Hall].
    assert (naming learns cid = length learns) as Hlen.
    { apply Hn. intros m' Hm'. destruct (Hall m' Hm') as (x & -> & _). eauto. }
    destruct (findMin_spec learns cid (Hne m Hm)) as [(m1 & Hm1 & E1) Hmin].
    assert (0 < length learns)%nat by (destruct learns; [by apply elem_of_nil in Hm|cbn; lia]).
    destruct (count_clients learns !! cid) as [ct|] eqn:Ec; cbn in Hc; [|lia]. cbn.
    rewrite bool_decide_eq_true_2 by lia. f_equal.
    destruct (Hall m1 Hm1) as (x & Hx & Hle). rewrite Hx in E1. cbn in E1.
    specialize (Hmin m Hm). rewrite Em in Hmin. cbn in Hmin. lia.
Qed.

(** * One commit per batch *)

(** The reports for batch [b] among the events, their senders, and the commits
    for [b] among the outputs. *)
Definition reports (b : Z) (evs : list BEvent) : list BatchLearnMsg :=
  evs ≫= λ ev, match ev with EvLearn m => if decide (bl_BatchID m = b) then [m] else [] | _ => [] end.
Definition senders (learns : list BatchLearnMsg) : gset ID := list_to_set (bl_ID <$> learns).
Definition commits (b : Z) (outs : list BOut) : list BatchCommitMsg :=
  outs ≫= λ o, match o with
               | Bcast (BCommit m) => if decide (bc_BatchID m = b) then [m] else []
               | _ => []
               end.

Arguments commits : simpl never.
Arguments reports : simpl never.
Arguments senders : simpl never.

Lemma uniques_eq learns :
  foldl (λ (u : gset ID) msg, {[bl_ID msg]} ∪ u) ∅ learns = senders learns.
Proof.
  unfold senders. cut (∀ u : gset ID, foldl (λ u msg, {[bl_ID msg]} ∪ u) u learns = list_to_set (bl_ID <$> learns) ∪ u).
  { intros ->. apply (right_id_L ∅ (∪)). }
  induction learns as [|m l IH]; intros u; cbn; [set_solver|]. rewrite IH. set_solver.
Qed.

Section once.
Context {RO : RangeOrder} (now : nat → Z).
Implicit Types st : BatchAcceptor * list BOut.

(** What the handlers of the other messages leave alone. *)
Definition frame st st' : Prop :=
  bqc_QuorumSize (ba_batchqc st'.1) = bqc_QuorumSize (ba_batchqc st.1) ∧
  ∀ b, bs_Learns (bstate (ba_batchqc st'.1) b) = bs_Learns (bstate (ba_batchqc st.1) b) ∧
    bs_LearnsNotified (bstate (ba_batchqc st'.1) b) = bs_LearnsNotified (bstate (ba_batchqc st.1) b) ∧
    commits b st'.2 = commits b st.2.
#[local] Instance frame_preorder : PreOrder frame.
Proof.
  split; [by intros st|]. intros s1 s2 s3 [Q1 H1] [Q2 H2]. split; [congruence|]. intros b.
  destruct (H1 b) as (? & ? & ?), (H2 b) as (? & ? & ?). split_and!; congruence.
Qed.

Lemma commits_app b o1 o2 : commits b (o1 ++ o2) = commits b o1 ++ commits b o2.
Proof. apply bind_app. Qed.
Lemma frame_outs ba ba' outs more :
  ba_batchqc ba' = ba_batchqc ba → (∀ b, commits b more = []) → frame (ba, outs) (ba', outs ++ more).
Proof.
  intros Hq Hm. split; cbn; rewrite Hq; [done|]. intros b. split_and!; [done..|].
  by rewrite commits_app, Hm, app_nil_r.
Qed.
Lemma frame_put ba q outs b s :
  bqc_QuorumSize q = bqc_QuorumSize (ba_batchqc ba) →
  (∀ j, bstate q j = if decide (j = b) then s else bstate (ba_batchqc ba) j) →
  bs_Learns s = bs_Learns (bstate (ba_batchqc ba) b) →
  bs_LearnsNotified s = bs_LearnsNotified (bstate (ba_batchqc ba) b) →
  frame (ba, outs) (ba <| ba_batchqc := q |>, outs).
Proof.
  intros Hq Hs H1 H2. split; cbn; [done|]. intros j. rewrite Hs. case_decide; by subst.
Qed.

Lemma for_u32_rel {S} (R : S → S → Prop) `{!PreOrder R} (f : S → Z → res S) lo hi s s' :
  (∀ s a s', f s a = Ok s' → R s s') → for_u32 f lo hi s = Ok s' → R s s'.
Proof.
  intros Hf. unfold for_u32. case_bool_decide; [by intros [= ->]|]. intros Hr. res_inv.
  case_bool_decide; res_inv; subst. by eapply foldM_rel.
Qed.
Lemma ForEach_rel {S} (R : S → S → Prop) `{!PreOrder R} br rm (fn : S → Request → res S) s s' :
  (∀ s r s', fn s r = Ok s' → R s s') → ForEach br rm fn s = Ok s' → R s s'.
Proof.
  intros Hf. unfold ForEach. apply (foldM_rel R). intros s1 id s2. apply (for_u32_rel R). eauto.
Qed.

Lemma advance_frame fuel st st' : advance_loop now fuel st = Ok st' → frame st st'.
Proof.
  revert st. induction fuel as [|fuel IH]; intros [ba outs]; [done|].
  cbn [advance_loop fst snd]. rewrite bqc_GetState_eq. set (aru := ba_batchAru ba).
  set (q0 := (bqc_GetState (ba_batchqc ba) aru).2).
  assert (frame (ba, outs) (ba <| ba_batchqc := q0 |>, outs)) as H0.
  { apply (frame_put _ _ _ aru (bstate (ba_batchqc ba) aru)); [apply QuorumSize_GetState| |done..].
    intros j. unfold q0. rewrite bstate_GetState. case_decide; by subst. }
  destruct (_ && _); [|intros [= <-]; done].
  intros H. apply bind_Ok in H as ([ba1 outs1] & H1 & H2).
  apply (ForEach_rel frame) in H1.
  2:{ intros [ba2 outs2] r s2 [= <-]. by apply frame_outs. }
  apply IH in H2. etransitivity; [exact H0|]. etransitivity; [exact H1|].
  etransitivity; [|exact H2]. destruct H1 as [Q1 H1]. cbn [fst snd] in *.
  transitivity (put_qc (put_bstate aru ((bstate (ba_batchqc ba) aru) <| bs_Executed := true |>)) ba1, outs1).
  - apply (frame_put _ _ _ aru ((bstate (ba_batchqc ba) aru) <| bs_Executed := true |>)); [done|..].
    + intros j. by rewrite bstate_put.
    + cbn. destruct (H1 aru) as (-> & _). cbn. unfold q0. by rewrite bstate_GetState.
    + cbn. destruct (H1 aru) as (_ & -> & _). cbn. unfold q0. by rewrite bstate_GetState.
  - done.
Qed.

Lemma frame_report ba ba' more : report (ba, []) = Ok (ba', more) → frame (ba, []) (ba', more).
Proof.
  unfold report. cbn [fst snd]. intros H. res_inv. destruct x as [o br]. cbn in H. destruct o; injection H as <- <-.
  - by apply (frame_outs _ _ [] [_; _]).
  - by apply (frame_outs _ _ [] [_]).
Qed.

(** A commit and a reply first write the state of their batch. *)
Lemma frame_write ba q b s br s' :
  bqc_QuorumSize q = bqc_QuorumSize (ba_batchqc ba) →
  (∀ j, bstate q j = if decide (j = b) then s else bstate (ba_batchqc ba) j) →
  bs_Learns s = bs_Learns (bstate (ba_batchqc ba) b) →
  bs_LearnsNotified s = bs_LearnsNotified (bstate (ba_batchqc ba) b) →
  bs_Learns s' = bs_Learns s → bs_LearnsNotified s' = bs_LearnsNotified s →
  let ba1 := ba <| ba_batchqc := q |> <| ba_batcher := br |> in
  frame (ba, []) (ba1, []) ∧ frame (ba, []) (put_qc (put_bstate b s') ba1, []).
Proof.
  intros Hq Hs H1 H2 H3 H4. cbn zeta. set (ba1 := ba <| ba_batchqc := q |> <| ba_batcher := br |>).
  assert (frame (ba, []) (ba1, [])) as H0.
  { transitivity (ba <| ba_batchqc := q |>, @nil BOut); [by apply (frame_put _ _ _ b s)|].
    by apply (frame_outs _ _ [] []). }
  split; [done|]. etransitivity; [exact H0|].
  apply (frame_put _ _ _ b s'); [done|by intros j; rewrite bstate_put|..]; cbn;
    by rewrite Hs, decide_True.
Qed.

Lemma frame_commit ba m ba' more : handleCommitMsg now ba m = Ok (ba', more) → frame (ba, []) (ba', more).
Proof.
  unfold handleCommitMsg. rewrite bqc_GetState_eq. cbn [update ba_batcher ba_batchqc].
  set (b := bc_BatchID m). set (s := (bstate (ba_batchqc ba) b) <| bs_ExecuteRanges := bc_Ranges m |>).
  set (q := put_bstate b s (bqc_GetState (ba_batchqc ba) b).2).
  intros ([inc br] & _ & H)%bind_Ok.
  destruct (frame_write ba q b s br (s <| bs_Execute := true |>)) as [F1 F2];
    [apply QuorumSize_GetState| |done..|].
  { intros j. unfold q. by rewrite bstate_put, bstate_GetState. }
  case_bool_decide.
  - apply advance_frame in H. by etransitivity.
  - injection H as <- <-. etransitivity; [exact F1|]. by apply (frame_outs _ _ [] [_]).
Qed.

Lemma frame_reply ba m ba' more : handleUpdateReplyMsg now ba m = Ok (ba', more) → frame (ba, []) (ba', more).
Proof.
  unfold handleUpdateReplyMsg. rewrite bqc_GetState_eq. set (b := up_BatchID m).
  set (s := bstate (ba_batchqc ba) b). set (q := (bqc_GetState (ba_batchqc ba) b).2).
  assert (∀ br, frame (ba, []) (ba <| ba_batchqc := q |> <| ba_batcher := br |>, []) ∧
    frame (ba, []) (put_qc (put_bstate b (s <| bs_Execute := true |>))
      (ba <| ba_batchqc := q |> <| ba_batcher := br |>), [])) as F.
  { intros br. apply (frame_write ba q b s); [apply QuorumSize_GetState| |done..].
    intros j. unfold q. rewrite bstate_GetState. case_decide; by subst. }
  destruct (bs_Execute s).
  { intros [= <- <-]. apply (F (ba_batcher ba)). }
  intros ([inc br] & _ & H)%bind_Ok. case_bool_decide; [|done].
  apply advance_frame in H. etransitivity; [apply (F br)|exact H].
Qed.

Lemma frame_step ba ev ba' more :
  (∀ m, ev ≠ EvLearn m) → batch_step now ba ev = Ok (ba', more) → frame (ba, []) (ba', more).
Proof.
  intros Hev H. destruct ev as [val|m|m|m|m| |id]; cbn [batch_step] in H; [|by edestruct Hev|..].
  - case_bool_decide; [done|]. unfold handleRequest in H. destruct (Cr val) as [|req reqs]; [done|].
    cbn zeta in H. cbn [update ba_batchMaxReq] in H. case_bool_decide; [done|]. case_bool_decide.
    + apply frame_report in H. etransitivity; [|exact H]. by apply (frame_outs _ _ [] []).
    + injection H as <- <-. by apply (frame_outs _ _ [] []).
  - by apply frame_commit in H.
  - unfold handleUpdateRequestMsg in H. apply bind_Ok in H as ([inc br] & _ & H). case_bool_decide.
    + apply bind_Ok in H as (cmds & _ & H). injection H as <- <-. by apply (frame_outs _ _ [] [_]).
    + injection H as <- <-. by apply (frame_outs _ _ [] []).
  - by apply frame_reply in H.
  - by apply frame_report.
  - injection H as <- <-. by apply (frame_outs _ _ [] []).
Qed.

(** The reports of a batch are what was delivered, its flag says whether they
    form a quorum, and it has one commit if they do and none otherwise. *)
Definition cinv (qs : Z) st (evs : list BEvent) : Prop :=
  bqc_QuorumSize (ba_batchqc st.1) = qs ∧
  ∀ b, bs_Learns (bstate (ba_batchqc st.1) b) = reports b evs ∧
    bs_LearnsNotified (bstate (ba_batchqc st.1) b) =
      bool_decide (i64 qs <= Z.of_nat (size (senders (reports b evs)))) ∧
    length (commits b st.2) = if bs_LearnsNotified (bstate (ba_batchqc st.1) b) then 1%nat else 0%nat.

Lemma reports_snoc b evs ev : reports b (evs ++ [ev]) = reports b evs ++ reports b [ev].
Proof. apply bind_app. Qed.
Lemma senders_snoc l m : senders (l ++ [m]) = senders l ∪ {[bl_ID m]}.
Proof. unfold senders. rewrite fmap_app, list_to_set_app_L. cbn. set_solver. Qed.

Lemma cinv_frame qs ba outs evs ba' more ev :
  cinv qs (ba, outs) evs → (∀ m, ev ≠ EvLearn m) → frame (ba, []) (ba', more) →
  cinv qs (ba', outs ++ more) (evs ++ [ev]).
Proof.
  intros [Hq Hc] Hev [Q F]. split; cbn in *; [congruence|]. intros b.
  destruct (Hc b) as (H1 & H2 & H3), (F b) as (F1 & F2 & F3). rewrite reports_snoc.
  assert (reports b [ev] = []) as -> by (destruct ev; try done; by edestruct Hev).
  rewrite app_nil_r, commits_app, F1, F2, F3. change (commits b []) with (@nil BatchCommitMsg).
  rewrite app_nil_r. by split_and!.
Qed.

Definition fires (qs : Z) (s : BatchState) : bool :=
  bool_decide (Z.of_nat (size (senders (bs_Learns s))) >= i64 qs) && negb (bs_LearnsNotified s).

Lemma LearnQuorumExists_eq q b :
  LearnQuorumExists q b =
    if fires (bqc_QuorumSize q) (bstate q b)
    then (true, put_bstate b ((bstate q b) <| bs_LearnsNotified := true |>) (bqc_GetState q b).2)
    else (false, (bqc_GetState q b).2).
Proof.
  unfold LearnQuorumExists, fires. rewrite bqc_GetState_eq, uniques_eq. by rewrite QuorumSize_GetState.
Qed.
Lemma bstate_AddLearn q m b :
  bstate (AddLearn q m) b =
    if decide (b = bl_BatchID m) then (bstate q b) <| bs_Learns ::= λ l, l ++ [m] |> else bstate q b.
Proof.
  unfold AddLearn. rewrite bqc_GetState_eq, bstate_put, bstate_GetState. case_decide; by subst.
Qed.
Lemma QuorumSize_AddLearn q m : bqc_QuorumSize (AddLearn q m) = bqc_QuorumSize q.
Proof. unfold AddLearn. rewrite bqc_GetState_eq. apply QuorumSize_GetState. Qed.

Lemma handleLearnMsg_eq ba m :
  handleLearnMsg ba m =
    match LearnQuorumExists (AddLearn (ba_batchqc ba) m) (bl_BatchID m) with
    | (true, q2) =>
        match Intersect q2 (bl_BatchID m) with
        | (inter, q3) =>
            match TryBatchPoint (ba_batchpter ba) inter with
            | ((_, ranges), bps) =>
                Ok (ba <| ba_batchpter := bps |> <| ba_batchqc := q3 |>,
                    [Bcast (BCommit (mkBatchCommit (ba_id ba) (bl_BatchID m) ranges))])
            end
        end
    | (false, q2) => Ok (ba <| ba_batchqc := q2 |>, [])
    end.
Proof.
  unfold handleLearnMsg, put_qc. cbn [update ba_batchqc].
  destruct (LearnQuorumExists _ _) as [[] q2]; [|done].
  cbn [ba_batchqc]. destruct (Intersect _ _) as [inter q3]. cbn [ba_batchpter].
  by destruct (TryBatchPoint _ _) as [[ok ranges] bps].
Qed.

Lemma learn_effect ba m ba' more :
  handleLearnMsg ba m = Ok (ba', more) →
  let b := bl_BatchID m in
  let s := (bstate (ba_batchqc ba) b) <| bs_Learns ::= λ l, l ++ [m] |> in
  let fire := fires (bqc_QuorumSize (ba_batchqc ba)) s in
  bqc_QuorumSize (ba_batchqc ba') = bqc_QuorumSize (ba_batchqc ba) ∧
  (∀ j, bstate (ba_batchqc ba') j =
     if decide (j = b) then (if fire then s <| bs_LearnsNotified := true |> else s)
     else bstate (ba_batchqc ba) j) ∧
  (∀ j, length (commits j more) = if fire && bool_decide (j = b) then 1%nat else 0%nat).
Proof.
  rewrite handleLearnMsg_eq, LearnQuorumExists_eq, QuorumSize_AddLearn, bstate_AddLearn, decide_True by done.
  intros H. cbn zeta. set (b := bl_BatchID m) in *.
  pose proof (bstate_AddLearn (ba_batchqc ba) m) as H1. fold b in H1.
  pose proof (QuorumSize_AddLearn (ba_batchqc ba) m) as Q1.
  set (s := (bstate (ba_batchqc ba) b) <| bs_Learns ::= _ |>) in *. set (q1 := AddLearn (ba_batchqc ba) m) in *.
  assert (∀ j, bstate q1 j = if decide (j = b) then s else bstate (ba_batchqc ba) j) as H1'
    by (intros j; rewrite H1; by case_decide; subst).
  destruct (fires _ s).
  - unfold Intersect in H. rewrite bqc_GetState_eq in H.
    destruct (TryBatchPoint _ _) as [[ok ranges] bps]. apply Ok_inj, pair_equal_spec in H as [<- <-].
    cbn [update ba_batchqc]. split_and!.
    + by rewrite QuorumSize_GetState, QuorumSize_put, QuorumSize_GetState.
    + intros j. rewrite bstate_GetState, bstate_put, bstate_GetState, H1'. by case_decide.
    + intros j. unfold commits. cbn. case_decide; case_bool_decide; (done || congruence).
  - apply Ok_inj, pair_equal_spec in H as [<- <-]. cbn [update ba_batchqc].
    split_and!; [by rewrite QuorumSize_GetState| |done]. intros j. by rewrite bstate_GetState, H1'.
Qed.

Lemma cinv_learn qs ba outs evs m ba' more :
  cinv qs (ba, outs) evs → handleLearnMsg ba m = Ok (ba', more) →
  cinv qs (ba', outs ++ more) (evs ++ [EvLearn m]).
Proof.
  intros [Hq Hc] (Q & Hs & Hm)%learn_effect. cbn [fst snd] in *. rewrite Hq in *. split; [cbn; congruence|].
  intros b. destruct (Hc b) as (H1 & H2 & H3). cbn [fst snd]. rewrite reports_snoc, commits_app, length_app, Hm.
  rewrite Hs. destruct (decide (b = bl_BatchID m)) as [->|Hb].
  2:{ rewrite (bool_decide_eq_false_2 (b = _)), andb_false_r, H3 by done.
      assert (reports b [EvLearn m] = []) as -> by (unfold reports; cbn; by rewrite decide_False).
      rewrite app_nil_r. split_and!; [done..|]. by destruct (bs_LearnsNotified _). }
  set (b := bl_BatchID m) in *.
  assert (reports b [EvLearn m] = [m]) as -> by (unfold reports; cbn; by rewrite decide_True).
  rewrite (bool_decide_eq_true_2 (b = b)), andb_true_r by done. unfold fires. cbn. rewrite H1.
  assert (size (senders (reports b evs)) ≤ size (senders (reports b evs ++ [m])))%nat as Hle
    by (apply subseteq_size; rewrite senders_snoc; set_solver).
  rewrite H2 in *. rewrite H3. clear H2 H3.
  repeat case_bool_decide; cbn; try lia; rewrite ?H1; split_and!; try done;
    rewrite ?bool_decide_eq_true_2 by lia; rewrite ?bool_decide_eq_false_2 by lia; done.
Qed.
End once.

(** A replica commits a batch once, exactly when a majority of distinct
    replicas has reported it, whatever else it is sent and in whatever order. *)
Theorem commit_once (RO : RangeOrder) (now : nat → Z) (id leader : ID) (nrOfAcceptors maxSize : Z)
    (ba ba' : BatchAcceptor) (evs : list BEvent) (outs : list BOut) (b : Z) :
  0 ≤ nrOfAcceptors < 2 ^ 63 - 1 →
  NewBatchAcceptor id leader nrOfAcceptors 1 maxSize = Ok ba →
  batch_start now ba evs = Ok (ba', outs) →
  length (commits b outs) =
    if bool_decide (nrOfAcceptors `div` 2 + 1 <= Z.of_nat (size (senders (reports b evs)))) then 1%nat else 0%nat.
Proof.
  intros Hn Hnew Hrun. unfold NewBatchAcceptor in Hnew. cbn in Hnew. apply Ok_inj in Hnew.
  assert (0 <= nrOfAcceptors `div` 2 <= nrOfAcceptors)
    by (split; [apply Z.div_pos|apply Z.div_le_upper_bound]; lia).
  assert (i64 (u64 (nrOfAcceptors `div` 2 + 1)) = nrOfAcceptors `div` 2 + 1) as Hq.
  { nowrap. reflexivity. }
  set (qs := u64 (nrOfAcceptors `div` 2 + 1)) in *.
  cut (∀ pre evs st st', cinv qs st pre → batch_run now st evs = Ok st' → cinv qs st' (pre ++ evs)).
  { intros Hc. destruct (Hc [] evs (resetTimer (ba, [])) (ba', outs)) as [_ Hc'].
    - subst ba. split; [done|]. intros j. cbn. split_and!; [done| |done].
      rewrite bool_decide_eq_false_2; [done|]. rewrite Hq. change (size (senders (reports j []))) with 0%nat. lia.
    - exact Hrun.
    - destruct (Hc' b) as (_ & H1 & H2). cbn in H1, H2. by rewrite H2, H1, Hq. }
  clear -RO. intros pre evs. revert pre. induction evs as [|ev evs IH]; intros pre [ba outs] st' Hi Hr.
  { cbn in Hr. injection Hr as <-. by rewrite app_nil_r. }
  cbn [batch_run fst snd] in Hr. apply bind_Ok in Hr as ([ba1 more] & Hs & Hr).
  replace (pre ++ ev :: evs) with ((pre ++ [ev]) ++ evs) by by rewrite <- app_assoc.
  eapply IH; [|exact Hr]. assert ((∃ m, ev = EvLearn m) ∨ ∀ m, ev ≠ EvLearn m) as [[m ->]|Hev]
    by (destruct ev; eauto; by right).
  - by apply (cinv_learn qs ba outs pre m ba1 more).
  - eapply cinv_frame; [exact Hi|done|by eapply frame_step].
Qed.

(** * A group of three replicas *)

#[export] Instance BatchLearnMsg_eq_dec : EqDecision BatchLearnMsg.
Proof. solve_decision. Defined.
#[export] Instance BatchCommitMsg_eq_dec : EqDecision BatchCommitMsg.
Proof. solve_decision. Defined.
#[export] Instance UpdateRequestMsg_eq_dec : EqDecision UpdateRequestMsg.
Proof. solve_decision. Defined.
#[export] Instance UpdateReplyMsg_eq_dec : EqDecision UpdateReplyMsg.
Proof. solve_decision. Defined.
#[export] Instance BMsg_eq_dec : EqDecision BMsg.
Proof. solve_decision. Defined.
#[export] Instance BOut_eq_dec : EqDecision BOut.
Proof. solve_decision. Defined.

Definition ex_id (n : Z) : ID := NewIDFromInt n 0.
Definition ex_now (n : nat) : Z := Z.of_nat n.
Definition ex_replica (n : Z) : BatchAcceptor :=
  mkBA (ex_id n) (ex_id 0) NewBatcher [] (NewBatchQuorumChecker 2) 0 10 0 ∅ ∅ 0.
Definition ex_req (cid : string) (i : Z) : Request := mkRequest (Some Request_EXEC) (Some cid) (Some i) [i].
Definition ex_value (cid : string) (i : Z) : BEvent := EvValue (mkValue App [ex_req cid i] None).

(** Everything a replica is sent was sent to it by a replica. *)
Definition from_network (self : ID) (sent : list BOut) (ev : BEvent) : Prop :=
  match ev with
  | EvLearn m => Ucast (BLearn m) self ∈ sent
  | EvCommit m => Bcast (BCommit m) ∈ sent
  | EvUpdateRequest m => Bcast (BUpdateRequest m) ∈ sent
  | EvUpdateReply m => Ucast (BUpdateReply m) self ∈ sent
  | _ => True
  end.
#[export] Instance from_network_dec self sent ev : Decision (from_network self sent ev).
Proof. destruct ev; cbn; apply _. Defined.

(** The requests that clients send to a replica. *)
Definition client_reqs (evs : list BEvent) : list Request :=
  evs ≫= λ ev, match ev with EvValue val => Cr val | _ => [] end.

(** Replicas 0 (the leader) and 1 see both requests of client x; replica 2 does
    not hear from x. The leader takes the reports of 0 and 1 for batches 0 and
    2, and those of 0 and 2 for batch 1. *)
Definition ex_learn (n b : Z) (hss : list (string * Z)) : BEvent :=
  EvLearn (mkBatchLearn (ex_id n) b (list_to_map hss)).
Definition ex_commit (b : Z) (rngs : list (string * (Z * Z))) : BEvent :=
  EvCommit (mkBatchCommit (ex_id 0) b (list_to_map (prod_map id (λ p, mkRange p.1 p.2) <$> rngs))).
Definition ex_evs1 : list BEvent :=
  [ex_value "x" 0; EvTimeout; ex_value "y" 0; EvTimeout; ex_value "x" 1; EvTimeout].
Definition ex_evs2 : list BEvent := [ex_value "y" 0; EvTimeout; ex_value "y" 1; EvTimeout].
Definition ex_evs0 : list BEvent :=
  ex_evs1 ++
  [ex_learn 0 0 [("x", 0)]; ex_learn 1 0 [("x", 0)]; ex_commit 0 [("x", (0, 0))];
   ex_learn 0 1 [("x", 0); ("y", 0)]; ex_learn 2 1 [("y", 1)]; ex_commit 1 [("y", (0, 0))];
   ex_learn 0 2 [("x", 1); ("y", 0)]; ex_learn 1 2 [("x", 1); ("y", 0)]; ex_commit 2 [("x", (0, 1))]]%string.

(** C14: a batch point forgets the clients that its intersection does not name: in a
    run of three correct replicas, each client sends every request once and
    the leader executes one of them twice. *)
Theorem batch_reexecutes :
  ∃ evs0 evs1 evs2 st0 st1 st2,
    batch_start ex_now (ex_replica 0) evs0 = Ok st0 ∧
    batch_start ex_now (ex_replica 1) evs1 = Ok st1 ∧
    batch_start ex_now (ex_replica 2) evs2 = Ok st2 ∧
    Forall (from_network (ex_id 0) (st0.2 ++ st1.2 ++ st2.2)) evs0 ∧
    Forall (from_network (ex_id 1) (st0.2 ++ st1.2 ++ st2.2)) evs1 ∧
    Forall (from_network (ex_id 2) (st0.2 ++ st1.2 ++ st2.2)) evs2 ∧
    NoDup (client_reqs evs0) ∧ ¬ NoDup (decided st0.2).
Proof.
  exists ex_evs0, ex_evs1, ex_evs2. do 3 eexists.
  split; [vm_compute; reflexivity|]. split; [vm_compute; reflexivity|]. split; [vm_compute; reflexivity|].
  cbn [snd]. split_and!; try (apply (bool_decide_eq_true_1 _); vm_compute; reflexivity).
Qed.

(** * Witnesses *)

Lemma commit_once_witness :
  ∃ ba outs, batch_start ex_now (ex_replica 0) ex_evs0 = Ok (ba, outs) ∧ length (commits 0 outs) = 1%nat.
Proof.
  destruct (batch_start ex_now (ex_replica 0) ex_evs0) as [[ba outs]| |] eqn:E; [|vm_compute in E; discriminate..].
  exists ba, outs. split; [done|].
  rewrite (commit_once _ ex_now (ex_id 0) (ex_id 0) 3 10 (ex_replica 0) ba ex_evs0 outs 0);
    [vm_compute; reflexivity|lia|reflexivity|exact E].
Defined.

Lemma TryBatchPoint_spec_witness :
  (∃ r, (TryBatchPoint [{["x"%string := 3]}] {["x"%string := 5]}).1.2 !! "x"%string = Some r ∧ in_range 4 r).
Proof.
  assert (∀ h, 0 <= h < 10 → point_ok {["x"%string := h]}) as Hok
    by (intros h ?; apply map_Forall_singleton; lia).
  destruct (TryBatchPoint [{["x"%string := 3]}] {["x"%string := 5]}) as [[ok ranges] bps] eqn:E.
  apply (TryBatchPoint_spec _ _ [{["x"%string := 3]}] bps {["x"%string := 5]} ok ranges
    (Hok 5 ltac:(lia)) (Hok 3 ltac:(lia)) E).
  exists 5. split; [done|]. split; [lia|]. by intros phs [= <-].
Defined.

Lemma Intersect_spec_witness :
  let q := AddLearn (AddLearn (NewBatchQuorumChecker 2) (mkBatchLearn (ex_id 0) 0 {["x"%string := 3]}))
             (mkBatchLearn (ex_id 1) 0 {["x"%string := 5]}) in
  (Intersect q 0).1 !! "x"%string = Some 3.
Proof.
  cbn zeta. apply (Intersect_spec map_order map_order_laws).
  change (bs_Learns _) with [mkBatchLearn (ex_id 0) 0 {["x"%string := 3]}; mkBatchLearn (ex_id 1) 0 {["x"%string := 5]}].
  split.
  - eexists. split; [by left|done].
  - intros m [->|[->|[]%elem_of_nil]%elem_of_cons]%elem_of_cons; eexists; (split; [done|lia]).
Defined.
