(* ===== verification/BatchRuns.v ===== *)
(** Runs of a replica of batch Paxos: the invariant that every handler keeps,
    that no handler panics, and that replicas with the same commits execute
    the same requests in the same order. *)
From S2P Require Import Prelude Grp PaxosTypes BatchPaxos BatchLeader.

(** * Runs of a replica *)

(** [Cmt b] is the leader's commit for batch [b] and [Rq cid i] the request
    that client [cid] numbered [i]: what the replicas of one run share. *)
Section runs.
Context {RO : RangeOrder} {RL : RangeOrderLaws RO} (now : nat → Z).
Context (Cmt : Z → RangeMap) (Rq : string → Z → Request).
Implicit Types st : BatchAcceptor * list BOut.

Definition genuine (r : Request) : Prop := Rq (GetId r) (GetSeq r) = r.

(** A reply to the update request [q]: it holds every request asked for. *)
Definition answers (q : UpdateRequestMsg) (m : UpdateReplyMsg) : Prop :=
  up_BatchID m = uq_BatchID q ∧
  map_Forall (λ _ cmds, Forall genuine cmds) (up_Values m) ∧
  ∀ cid r i, uq_Ranges q !! cid = Some r → in_range i r →
    ∃ key cmds req, up_Values m !! key = Some cmds ∧ req ∈ cmds ∧ GetId req = cid ∧ GetSeq req = i.

(** What the environment may deliver: clients' requests, the leader's commits,
    and answers to update requests the replica has broadcast. *)
Definition valid_ev st (ev : BEvent) : Prop :=
  match ev with
  | EvValue val => Vt val = App ∧ ∃ req reqs, Cr val = req :: reqs ∧ genuine req
  | EvCommit m => 0 ≤ bc_BatchID m < 2 ^ 64 - 1 ∧ bc_Ranges m = Cmt (bc_BatchID m) ∧ ranges_ok (bc_Ranges m)
  | EvUpdateRequest m => ranges_ok (uq_Ranges m)
  | EvUpdateReply m => ∃ q, Bcast (BUpdateRequest q) ∈ st.2 ∧ answers q m
  | _ => True
  end.

Inductive breach : BatchAcceptor * list BOut → Prop :=
| breach_init id leader nrOfAcceptors maxSize ba :
    NewBatchAcceptor id leader nrOfAcceptors 1 maxSize = Ok ba → ba_batchMaxReq ba ≠ 0 →
    breach (resetTimer (ba, []))
| breach_step st ev ba outs :
    breach st → valid_ev st ev → batch_step now st.1 ev = Ok (ba, outs) →
    breach (ba, st.2 ++ outs).

(** ** The invariant *)

Definition batches_ok (br : Batcher) : Prop :=
  0 ≤ br_CurrentBatch br < 2 ^ 64 ∧
  (br_CurrentBatch br ≠ 0 → is_Some (br_BatchMap br !! u64 (br_CurrentBatch br - 1))).
Definition log_ok (br : Batcher) : Prop :=
  ∀ cid i r, req_at br cid i = Some r → r = Rq cid i ∧ GetId r = cid ∧ GetSeq r = i.

(** Everything but that [tryToAdvance] has nothing left to do. *)
Record binv_pre st : Prop := {
  bi_log : log_ok (ba_batcher st.1);
  bi_batches : batches_ok (ba_batcher st.1);
  bi_max : ba_batchMaxReq st.1 ≠ 0;
  bi_aru : 0 ≤ ba_batchAru st.1;
  bi_exec b : bs_Execute (bstate (ba_batchqc st.1) b) = true →
    b < 2 ^ 64 - 1 ∧ bs_ExecuteRanges (bstate (ba_batchqc st.1) b) = Cmt b ∧
    ranges_ok (Cmt b) ∧ complete (ba_batcher st.1) (Cmt b);
  bi_executed b : bs_Executed (bstate (ba_batchqc st.1) b) = true → b < ba_batchAru st.1;
  bi_done b : 0 ≤ b < ba_batchAru st.1 → bs_Execute (bstate (ba_batchqc st.1) b) = true;
  bi_sent q : Bcast (BUpdateRequest q) ∈ st.2 →
    uq_BatchID q < 2 ^ 64 - 1 ∧
    bs_ExecuteRanges (bstate (ba_batchqc st.1) (uq_BatchID q)) = Cmt (uq_BatchID q) ∧
    ranges_ok (Cmt (uq_BatchID q)) ∧
    ∀ cid r, Cmt (uq_BatchID q) !! cid = Some r →
      has_range (ba_batcher st.1) cid r ∨ uq_Ranges q !! cid = Some r;
  bi_outs : decided st.2 = seqZ 0 (ba_batchAru st.1) ≫= λ b, visit Rq (Cmt b);
}.
Definition binv st : Prop :=
  binv_pre st ∧ bs_Execute (bstate (ba_batchqc st.1) (ba_batchAru st.1)) = false.

(** The log only grows. *)
Definition grows (b1 b2 : Batcher) : Prop :=
  ∀ cid i, is_Some (req_at b1 cid i) → is_Some (req_at b2 cid i).
#[export] Instance grows_preorder : PreOrder grows.
Proof. split; [by intros b c i|intros b1 b2 b3 H1 H2 c i H; auto]. Qed.
Lemma equiv_grows b1 b2 : b1 ≡ b2 → grows b1 b2.
Proof. intros H c i. by rewrite H. Qed.
Lemma grows_has b1 b2 cid r : grows b1 b2 → has_range b1 cid r → has_range b2 cid r.
Proof. intros H Hr i Hi. by apply H, Hr. Qed.
Lemma grows_complete b1 b2 rm : grows b1 b2 → complete b1 rm → complete b2 rm.
Proof. intros H Hc cid r Hr. by apply (grows_has b1), Hc. Qed.
Lemma equiv_log b1 b2 : b1 ≡ b2 → log_ok b1 → log_ok b2.
Proof. intros H Hl c i r. rewrite <- H. apply Hl. Qed.
Lemma equiv_batches b1 b2 : b1 ≡ b2 → batches_ok b1 → batches_ok b2.
Proof. intros (_ & H1 & H2). unfold batches_ok. by rewrite H1, H2. Qed.

Lemma binv_batcher ba outs br :
  binv_pre (ba, outs) → grows (ba_batcher ba) br → log_ok br → batches_ok br →
  binv_pre (ba <| ba_batcher := br |>, outs).
Proof.
  intros [] Hg Hl Hb. split; cbn in *; try done.
  - intros b Hx. destruct (bi_exec0 b Hx) as (? & ? & ? & ?). split_and!; try done.
    by eapply grows_complete.
  - intros q Hq. destruct (bi_sent0 q Hq) as (? & ? & ? & H). split_and!; try done.
    intros cid r Hr. destruct (H cid r Hr); [left; by eapply grows_has|by right].
Qed.

Lemma grows_LogRequest br r : grows br (LogRequest br r).
Proof. intros c i. rewrite req_at_LogRequest. case_decide; [eauto|done]. Qed.
Lemma log_LogRequest br r : genuine r → log_ok br → log_ok (LogRequest br r).
Proof.
  intros Hg Hl c i r'. rewrite req_at_LogRequest. case_decide as D; [|apply Hl].
  destruct D as [-> ->]. by intros [= <-].
Qed.
Lemma batches_ok_LogRequest br r : batches_ok br → batches_ok (LogRequest br r).
Proof. unfold batches_ok. destruct (batches_LogRequest br r) as [-> ->]. done. Qed.

Lemma LogRequests_ok br rs :
  Forall genuine rs → log_ok br → batches_ok br →
  grows br (foldl LogRequest br rs) ∧ log_ok (foldl LogRequest br rs) ∧
  batches_ok (foldl LogRequest br rs) ∧
  ∀ r, r ∈ rs → is_Some (req_at (foldl LogRequest br rs) (GetId r) (GetSeq r)).
Proof.
  intros Hrs. revert br. induction Hrs as [|r rs Hr _ IH]; intros br Hl Hb.
  { split_and!; [done..|]. by intros ? ?%elem_of_nil. }
  cbn. destruct (IH (LogRequest br r)) as (H1 & H2 & H3 & H4);
    [by apply log_LogRequest|by apply batches_ok_LogRequest|].
  split_and!; [|done..|].
  - etransitivity; [apply grows_LogRequest|done].
  - intros r' [->|Hr']%elem_of_cons; [|auto]. apply H1.
    rewrite req_at_LogRequest, decide_True by done. eauto.
Qed.

Lemma SetClientCommands_ok br (vals : UpdateValueMap) :
  map_Forall (λ _ cmds, Forall genuine cmds) vals → log_ok br → batches_ok br →
  let br' := SetClientCommands br vals in
  grows br br' ∧ log_ok br' ∧ batches_ok br' ∧
  ∀ key cmds r, vals !! key = Some cmds → r ∈ cmds → is_Some (req_at br' (GetId r) (GetSeq r)).
Proof.
  intros Hv Hl Hb. cbn zeta. unfold SetClientCommands.
  assert (Forall (λ e, Forall genuine e.2) (range_order 0 vals)) as Hf.
  { apply Forall_forall. intros [k c] H%elem_of_range_order. by apply (Hv k). }
  assert (∀ key cmds, vals !! key = Some cmds → (key, cmds) ∈ range_order 0 vals) as Hin
    by (intros; by apply elem_of_range_order).
  revert Hin. generalize (range_order 0 vals) as l, Hf. clear Hv. intros l Hf' Hin. clear Hf.
  cut (grows br (foldl (λ br '(_, cmds), foldl LogRequest br cmds) br l) ∧
       log_ok (foldl (λ br '(_, cmds), foldl LogRequest br cmds) br l) ∧
       batches_ok (foldl (λ br '(_, cmds), foldl LogRequest br cmds) br l) ∧
       ∀ key cmds r, (key, cmds) ∈ l → r ∈ cmds →
         is_Some (req_at (foldl (λ br '(_, cmds), foldl LogRequest br cmds) br l) (GetId r) (GetSeq r))).
  { intros (? & ? & ? & H). split_and!; [done..|]. eauto. }
  clear Hin. revert br Hl Hb. induction Hf' as [|[k c] l Hc _ IH]; intros br Hl Hb.
  { split_and!; [done..|]. by intros ? ? ? ?%elem_of_nil. }
  cbn. destruct (LogRequests_ok br c Hc Hl Hb) as (G1 & L1 & B1 & H1).
  destruct (IH _ L1 B1) as (G2 & L2 & B2 & H2). split_and!; [|done..|].
  - by etransitivity.
  - intros key cmds r [[= -> ->]|Hin]%elem_of_cons Hr; [by apply G2, H1|eauto].
Qed.

(** ** The operations keep it *)

Lemma put_batch_ok br hss :
  batches_ok br →
  batches_ok (put_batch br hss).2 ∧ ∀ cid, clog (put_batch br hss).2 cid = clog br cid.
Proof.
  intros [Hr Hb]. split; [|done]. unfold batches_ok, put_batch. cbn.
  split; [apply u64_range|]. intros _.
  replace (u64 (u64 (br_CurrentBatch br + 1) - 1)) with (br_CurrentBatch br).
  - rewrite lookup_insert_eq. eauto.
  - unfold u64. rewrite Zminus_mod_idemp_l. rewrite Z.mod_small; lia.
Qed.

Lemma GetBatch_ok br :
  batches_ok br → ∃ o br', GetBatch br = Ok (o, br') ∧ batches_ok br' ∧ ∀ cid, clog br' cid = clog br cid.
Proof.
  intros Hb. unfold GetBatch. destruct (put_batch br (GetCurrentBatchPoint br)) as [b br'] eqn:E.
  destruct (put_batch_ok br (GetCurrentBatchPoint br) Hb) as (H1 & H2). rewrite E in H1, H2.
  repeat case_bool_decide; try by eauto 10.
  destruct Hb as [Hr Hb]. destruct (Hb ltac:(done)) as [prev ->].
  match goal with |- context [if ?c then _ else _] => destruct c end;
    do 2 eexists; by split_and!.
Qed.

Lemma same_log_grows br br' :
  (∀ cid, clog br' cid = clog br cid) → grows br br' ∧ (log_ok br → log_ok br').
Proof.
  intros H. unfold grows, log_ok, req_at. split; intros; [by rewrite H|]. rewrite H in *. eauto.
Qed.

(** Outputs that are neither decisions nor update requests do not matter to
    the invariant. *)
Definition quiet (o : BOut) : Prop :=
  match o with Dcd _ | Bcast (BUpdateRequest _) => False | _ => True end.
Lemma quiet_decided outs : Forall quiet outs → decided outs = [].
Proof. induction 1 as [|o outs Ho _ IH]; [done|]. by destruct o. Qed.
Lemma quiet_sent outs q : Forall quiet outs → Bcast (BUpdateRequest q) ∉ outs.
Proof. intros H Hin. rewrite Forall_forall in H. by apply (H _ Hin). Qed.
Lemma binv_quiet ba outs more :
  binv_pre (ba, outs) → Forall quiet more → binv_pre (ba, outs ++ more).
Proof.
  intros [] Hm. split; cbn in *; try done.
  - intros q [Hq|Hq]%elem_of_app; [eauto|by apply quiet_sent in Hq].
  - by rewrite decided_app, (quiet_decided more), app_nil_r.
Qed.

Lemma report_ok ba outs :
  binv (ba, outs) → ∃ ba' more, report (ba, []) = Ok (ba', more) ∧ binv (ba', outs ++ more).
Proof.
  intros [Hi Hs]. destruct (GetBatch_ok (ba_batcher ba)) as (o & br & E & Hb & Hc); [apply Hi|].
  unfold report. cbn [fst snd]. rewrite E. cbn.
  apply same_log_grows in Hc as [Hg Hl].
  assert (binv_pre (ba <| ba_batcher := br |>, outs)) as Hi'
    by (apply binv_batcher; [done..|apply Hl, Hi|done]).
  destruct o; (do 2 eexists; split; [reflexivity|split; [|exact Hs]]);
    (apply binv_quiet; [exact Hi'|by repeat constructor]).
Qed.

(** The requests of a ready batch are the clients' requests. *)
Lemma ready_requests ba outs b :
  binv_pre (ba, outs) → ready (bstate (ba_batchqc ba) b) = true → batch_requests ba b = visit Rq (Cmt b).
Proof.
  intros [] [Hx _]%andb_true_iff. cbn in *. destruct (bi_exec0 b Hx) as (_ & E & _ & Hc).
  unfold batch_requests. rewrite E. apply visit_ext. intros cid r i Hr Hi.
  destruct (Hc cid r Hr i Hi) as [q Hq]. rewrite GetRequest_eq, Hq. cbn. by apply bi_log0.
Qed.

Lemma advance_inv ba outs :
  binv_pre (ba, outs) →
  ∃ ba' more, tryToAdvance now (ba, []) = Ok (ba', more) ∧ binv (ba', outs ++ more).
Proof.
  intros Hi. pose proof (ready_requests ba outs) as Hreq. destruct Hi as [] eqn:Ei; clear Ei; cbn in *.
  destruct (advance_loop_ok now (S (size (bqc_States (ba_batchqc ba)))) (ba, [])) as ([ba' more] & k & E & [Ac Aq Aa Ao As Ar At]).
  { cbn. pose proof (nready_le (ba_batchqc ba)). lia. }
  { intros b. cbn. intros [Hx _]%andb_true_iff. destruct (bi_exec0 b Hx) as (? & -> & ? & _). done. }
  { done. }
  cbn in *. exists ba', more. split; [exact E|]. injection Ac as _ _ Ebr _ Emax _.
  assert (∀ b, bs_Execute (bstate (ba_batchqc ba') b) = bs_Execute (bstate (ba_batchqc ba) b) ∧
    bs_ExecuteRanges (bstate (ba_batchqc ba') b) = bs_ExecuteRanges (bstate (ba_batchqc ba) b)) as Hsame
    by (intros b; rewrite As; by case_decide).
  assert (binv_pre (ba', outs ++ more)) as Hpre.
  { split; cbn; rewrite ?Ebr, ?Emax; try done; try lia.
    - intros b. destruct (Hsame b) as [-> ->]. apply bi_exec0.
    - intros b. rewrite As, Aa. case_decide; [cbn; lia|]. intros Hx%bi_executed0. lia.
    - intros b Hb. destruct (Hsame b) as [-> _]. destruct (decide (b < ba_batchAru ba)); [apply bi_done0; lia|].
      destruct (andb_prop _ _ (Ar b ltac:(lia))) as [-> _]. done.
    - intros q [Hq|Hq]%elem_of_app; [destruct (Hsame (uq_BatchID q)) as [_ ->]; eauto|].
      exfalso. rewrite Ao in Hq. by apply list_elem_of_fmap in Hq as (? & [=] & _).
    - rewrite decided_app, bi_outs0, Ao, decided_dcd, Aa, seqZ_app, bind_app by lia.
      f_equal. rewrite Z.add_0_l. apply bind_ext_elem. intros b Hb%elem_of_seqZ.
      apply Hreq, Ar; done. }
  split; [done|]. destruct (bs_Execute (bstate (ba_batchqc (ba', outs ++ more).1) _)) eqn:Hx; [|done].
  cbn in Hx. exfalso. unfold ready in At. rewrite Hx in At. cbn in At.
  apply negb_false_iff in At. pose proof (bi_executed _ Hpre _ At). cbn in *. lia.
Qed.

(** Writing a batch state. *)
Lemma binv_qc ba outs q :
  binv_pre (ba, outs) →
  (∀ b, let old := bstate (ba_batchqc ba) b in let new := bstate q b in
     bs_Executed new = bs_Executed old ∧
     (bs_Execute old = true → bs_Execute new = true) ∧
     (bs_ExecuteRanges new = bs_ExecuteRanges old ∨ bs_ExecuteRanges new = Cmt b) ∧
     (bs_Execute new = true → bs_Execute old = true ∨
        b < 2 ^ 64 - 1 ∧ bs_ExecuteRanges new = Cmt b ∧ ranges_ok (Cmt b) ∧ complete (ba_batcher ba) (Cmt b))) →
  binv_pre (ba <| ba_batchqc := q |>, outs).
Proof.
  intros [] Hq. cbn in *. split; cbn; try done.
  - intros b Hx. destruct (Hq b) as (_ & _ & Hr & [Ho|Hn]%(λ f, f Hx)); [|done].
    destruct (bi_exec0 b Ho) as (? & ? & ? & ?). split_and!; [done| |done..]. destruct Hr; congruence.
  - intros b. destruct (Hq b) as (-> & _). apply bi_executed0.
  - intros b Hb. by apply Hq, bi_done0.
  - intros u Hu. destruct (bi_sent0 u Hu) as (? & ? & ? & ?). split_and!; [done| |done..].
    destruct (Hq (uq_BatchID u)) as (_ & _ & [|] & _); congruence.
Qed.

(** The quorum checker's bookkeeping of reports leaves execution alone. *)
Definition same_exec (q q' : BatchQuorumChecker) : Prop :=
  ∀ b, bs_Execute (bstate q' b) = bs_Execute (bstate q b) ∧
    bs_Executed (bstate q' b) = bs_Executed (bstate q b) ∧
    bs_ExecuteRanges (bstate q' b) = bs_ExecuteRanges (bstate q b).
#[export] Instance same_exec_preorder : PreOrder same_exec.
Proof.
  split; [by intros q b|]. intros q1 q2 q3 H1 H2 b.
  destruct (H2 b) as (-> & -> & ->). apply H1.
Qed.
Lemma same_exec_GetState q b : same_exec q (bqc_GetState q b).2.
Proof. intros j. by rewrite bstate_GetState. Qed.
Lemma binv_same_exec ba outs q :
  same_exec (ba_batchqc ba) q → binv_pre (ba, outs) → binv_pre (ba <| ba_batchqc := q |>, outs).
Proof.
  intros Hs Hi. apply binv_qc; [done|]. intros b. cbn. destruct (Hs b) as (-> & -> & ->). auto.
Qed.
Lemma same_exec_put q b s :
  bs_Execute s = bs_Execute (bstate q b) → bs_Executed s = bs_Executed (bstate q b) →
  bs_ExecuteRanges s = bs_ExecuteRanges (bstate q b) → same_exec q (put_bstate b s q).
Proof. intros H1 H2 H3 j. rewrite bstate_put. by case_decide; subst. Qed.

Lemma same_exec_AddLearn q m : same_exec q (AddLearn q m).
Proof.
  unfold AddLearn. rewrite bqc_GetState_eq. etransitivity; [apply same_exec_GetState|].
  apply same_exec_put; cbn; by rewrite bstate_GetState.
Qed.
Lemma same_exec_LearnQuorumExists q b : same_exec q (LearnQuorumExists q b).2.
Proof.
  unfold LearnQuorumExists. rewrite bqc_GetState_eq.
  match goal with |- context [if ?c then _ else _] => destruct c end; cbn; [|apply same_exec_GetState].
  etransitivity; [apply same_exec_GetState|]. apply same_exec_put; cbn; by rewrite bstate_GetState.
Qed.
Lemma same_exec_Intersect q b : same_exec q (Intersect q b).2.
Proof. unfold Intersect. rewrite bqc_GetState_eq. apply same_exec_GetState. Qed.

Lemma LearnMsg_inv ba outs m :
  binv (ba, outs) → ∃ ba' more, handleLearnMsg ba m = Ok (ba', more) ∧ binv (ba', outs ++ more).
Proof.
  intros [Hi Hs]. unfold handleLearnMsg, put_qc. cbn [update ba_batchqc].
  pose proof (same_exec_AddLearn (ba_batchqc ba) m) as H1.
  set (q1 := AddLearn (ba_batchqc ba) m) in *. clearbody q1.
  pose proof (same_exec_LearnQuorumExists q1 (bl_BatchID m)) as H2.
  destruct (LearnQuorumExists q1 (bl_BatchID m)) as [quorum q2]. cbn [snd] in H2.
  assert (same_exec (ba_batchqc ba) q2) as H by (by etransitivity). destruct quorum.
  - cbn [ba_batchqc]. pose proof (same_exec_Intersect q2 (bl_BatchID m)) as H3.
    destruct (Intersect q2 (bl_BatchID m)) as [inter q3]. cbn [snd] in H3. cbn.
    destruct (TryBatchPoint (ba_batchpter ba) inter) as [[ok ranges] bps].
    do 2 eexists. split; [reflexivity|]. cbn.
    assert (same_exec (ba_batchqc ba) q3) as H' by (by etransitivity). split.
    + apply binv_quiet; [|by repeat constructor].
      apply (binv_same_exec ba outs q3) in Hi; [|done]. by destruct Hi; split.
    + cbn. by destruct (H' (ba_batchAru ba)) as (-> & _).
  - do 2 eexists. split; [reflexivity|]. rewrite app_nil_r. split.
    + by apply (binv_same_exec ba outs q2).
    + cbn. by destruct (H (ba_batchAru ba)) as (-> & _).
Qed.

Lemma Request_inv ba outs val req reqs :
  binv (ba, outs) → Cr val = req :: reqs → genuine req →
  ∃ ba' more, handleRequest now ba val = Ok (ba', more) ∧ binv (ba', outs ++ more).
Proof.
  intros [Hi Hs] Ev Hg. unfold handleRequest. rewrite Ev. cbn [update ba_batchMaxReq].
  rewrite bool_decide_eq_false_2 by apply Hi. cbn.
  match goal with |- context [report (?ba', [])] => set (ba1 := ba') end.
  assert (binv (ba1, outs)) as Hi1.
  { split; [|exact Hs].
    apply (binv_batcher _ _ (LogRequest (ba_batcher ba) req)) in Hi;
      [|apply grows_LogRequest|apply log_LogRequest, Hi; done|apply batches_ok_LogRequest, Hi].
    by destruct Hi; split. }
  case_bool_decide; [by apply report_ok|]. exists ba1, []. by rewrite app_nil_r.
Qed.

(** Handling a reply or a commit ends with [tryToAdvance]. *)
Lemma finish ba outs b :
  binv_pre (ba, outs) → b < 2 ^ 64 - 1 → bs_ExecuteRanges (bstate (ba_batchqc ba) b) = Cmt b →
  ranges_ok (Cmt b) → complete (ba_batcher ba) (Cmt b) →
  let s := (bstate (ba_batchqc ba) b) <| bs_Execute := true |> in
  ∃ ba' more, tryToAdvance now (put_qc (put_bstate b s) ba, []) = Ok (ba', more) ∧ binv (ba', outs ++ more).
Proof.
  intros Hi Hb Er Hr Hc. cbn zeta. apply advance_inv. apply binv_qc; [done|].
  intros j. rewrite bstate_put. case_decide; cbn; subst; naive_solver.
Qed.

Lemma Commit_inv ba outs m :
  binv (ba, outs) → 0 ≤ bc_BatchID m < 2 ^ 64 - 1 → bc_Ranges m = Cmt (bc_BatchID m) →
  ranges_ok (bc_Ranges m) →
  ∃ ba' more, handleCommitMsg now ba m = Ok (ba', more) ∧ binv (ba', outs ++ more).
Proof.
  intros [Hi Hs] Hb Em Hr. unfold handleCommitMsg. rewrite bqc_GetState_eq.
  set (b := bc_BatchID m) in *. set (s := (bstate (ba_batchqc ba) b) <| bs_ExecuteRanges := bc_Ranges m |>).
  set (q1 := put_bstate b s (bqc_GetState (ba_batchqc ba) b).2).
  assert (∀ j, bstate q1 j = if decide (j = b) then s else bstate (ba_batchqc ba) j) as Hq1
    by (intros j; unfold q1; by rewrite bstate_put, bstate_GetState).
  apply (binv_qc _ _ q1) in Hi.
  2:{ intros j. rewrite Hq1. case_decide; cbn; subst; naive_solver. }
  destruct (GetIncompleteRanges_ok (ba_batcher ba) (bc_Ranges m) Hr) as (br & Hbr & Einc).
  cbn [update ba_batcher ba_batchqc]. rewrite Einc. cbn [mbind res_bind]. clear Einc.
  apply (binv_batcher _ _ br) in Hi;
    [|by apply equiv_grows|eapply equiv_log; [by symmetry|apply Hi]|eapply equiv_batches; [by symmetry|apply Hi]].
  cbn [update ba_batcher ba_batchqc] in Hi.
  case_bool_decide as Hinc.
  - apply incomplete_empty in Hinc. apply (grows_complete _ br) in Hinc; [|by apply equiv_grows].
    destruct (finish _ _ b Hi) as (ba' & more & E & Hf); cbn [ba_batchqc ba_batcher];
      [lia|by rewrite Hq1, decide_True by done; exact Em|by rewrite <- Em..|].
    exists ba', more. split; [|done]. rewrite <- E. cbn [ba_batchqc].
    by rewrite Hq1, decide_True by done.
  - do 2 eexists. split; [reflexivity|]. split.
    2:{ cbn. rewrite Hq1. case_decide as D; [|exact Hs]. cbn. rewrite <- D. exact Hs. }
    destruct Hi. split; cbn in *; try done.
    + intros u [Hu|Hu]%elem_of_app; [eauto|]. apply list_elem_of_singleton in Hu. injection Hu as ->. cbn.
      rewrite Hq1, decide_True by done. cbn. rewrite <- Em. split_and!; [lia|done..|].
      intros cid r Hcr. destruct (missingb (ba_batcher ba) cid r) eqn:Emiss.
      * right. apply lookup_incomplete. split; [done|by apply missingb_true].
      * left. apply missingb_spec in Emiss. eapply grows_has; [by apply equiv_grows|done].
    + by rewrite decided_app, app_nil_r.
Qed.

Lemma Reply_inv ba outs u m :
  binv (ba, outs) → Bcast (BUpdateRequest u) ∈ outs → answers u m →
  ∃ ba' more, handleUpdateReplyMsg now ba m = Ok (ba', more) ∧ binv (ba', outs ++ more).
Proof.
  intros [Hi Hs] Hu (Eb & Hg & Ha). unfold handleUpdateReplyMsg. rewrite bqc_GetState_eq, Eb.
  set (b := uq_BatchID u) in *.
  apply (binv_same_exec _ _ (bqc_GetState (ba_batchqc ba) b).2) in Hi; [|apply same_exec_GetState].
  pose proof (bstate_GetState (ba_batchqc ba) b) as Hq1.
  set (q1 := (bqc_GetState (ba_batchqc ba) b).2) in *. clearbody q1.
  destruct (bs_Execute (bstate (ba_batchqc ba) b)).
  { do 2 eexists. split; [reflexivity|]. rewrite app_nil_r. split; [done|]. cbn. by rewrite Hq1. }
  destruct (bi_sent _ Hi u Hu) as (Hb & Er & Hr & Hc). cbn in Er, Hc. fold b in Hb, Er, Hr, Hc.
  cbn [update ba_batcher ba_batchqc].
  destruct (SetClientCommands_ok (ba_batcher ba) (up_Values m) Hg) as (G1 & L1 & B1 & H1);
    [apply Hi|apply Hi|].
  set (br1 := SetClientCommands (ba_batcher ba) (up_Values m)) in *. clearbody br1.
  rewrite <- Hq1.
  destruct (GetIncompleteRanges_ok br1 (bs_ExecuteRanges (bstate q1 b))) as (br & Hbr & Einc);
    [by rewrite Er|]. rewrite Einc. cbn [mbind res_bind].
  assert (complete br1 (Cmt b)) as Hcomp.
  { intros cid r Hcr. destruct (Hc cid r Hcr) as [Hh|Hask]; [by eapply grows_has|].
    intros i Hir. destruct (Ha cid r i Hask Hir) as (key & cmds & req & Hv & Hin & <- & <-). eauto. }
  rewrite bool_decide_eq_true_2 by (rewrite Er; by apply incomplete_empty).
  apply (binv_batcher _ _ br) in Hi; [|by rewrite G1; apply equiv_grows|by eapply equiv_log|by eapply equiv_batches].
  destruct (finish _ _ b Hi) as (ba' & more & E & Hf);
    [done|done|done|by eapply grows_complete; [apply equiv_grows|]|].
  exists ba', more. split; [exact E|done].
Qed.

(** [GetClientCommands] fills a slice of exactly the range's length. *)
Lemma fill_range (f : Z → Request) lo n k :
  (k ≤ n)%nat → Z.of_nat n < 2 ^ 32 →
  foldM (λ c i, slice_set c (u32 (i - lo)) (f i)) (replicate n zero_Request) (seqZ lo (Z.of_nat k)) =
    Ok ((f <$> seqZ lo (Z.of_nat k)) ++ replicate (n - k) zero_Request).
Proof.
  induction k as [|k IH]; intros Hk Hn.
  { rewrite seqZ_nil by lia. cbn. by rewrite Nat.sub_0_r. }
  replace (Z.of_nat (S k)) with (Z.of_nat k + 1) by lia. rewrite seqZ_snoc by lia.
  rewrite foldM_app, IH by lia. cbn [mbind res_bind foldM].
  replace (lo + Z.of_nat k - lo) with (Z.of_nat k) by lia. nowrap.
  unfold slice_set. rewrite decide_True
    by (rewrite length_app, length_fmap, length_seqZ, length_replicate; lia). cbn.
  rewrite insert_app_r_alt by (rewrite length_fmap, length_seqZ; lia).
  rewrite length_fmap, length_seqZ, !Nat2Z.id, Nat.sub_diag, fmap_app, <- app_assoc.
  replace (n - k)%nat with (S (n - S k)) by lia. done.
Qed.

Lemma client_cmds_ok br cid r :
  range_ok r → cr_Start r ≤ cr_Stop r + 1 →
  client_cmds br cid r = Ok (GetRequest br cid <$> range (cr_Start r) (cr_Stop r + 1)).
Proof.
  intros Hr Hle. pose proof Hr as [? ?]. unfold client_cmds. rewrite for_u32_ok by done.
  unfold max_u32 in *. nowrap. unfold range.
  set (n := Z.to_nat (cr_Stop r + 1 - cr_Start r)).
  replace (Z.to_nat (cr_Stop r - cr_Start r + 1)) with n by lia.
  replace (cr_Stop r + 1 - cr_Start r) with (Z.of_nat n) by lia.
  rewrite fill_range by lia. rewrite Nat.sub_diag. cbn. by rewrite app_nil_r.
Qed.
Lemma client_cmds_total br cid r : range_ok r → ∃ cmds, client_cmds br cid r = Ok cmds.
Proof.
  intros Hr. destruct (decide (cr_Start r ≤ cr_Stop r + 1)); [by rewrite client_cmds_ok; eauto|].
  unfold client_cmds. rewrite for_u32_ok, range_nil by (done || lia). cbn. eauto.
Qed.

Lemma GetClientCommands_total br rm : ranges_ok rm → ∃ cmds, GetClientCommands br rm = Ok cmds.
Proof.
  intros Hr. unfold GetClientCommands.
  assert (Forall (λ e, range_ok e.2) (range_order 0 rm)) as Hf
    by (apply Forall_forall; intros [k r] H%elem_of_range_order; by apply (Hr k)).
  revert Hf. generalize (∅ : UpdateValueMap), (range_order 0 rm). intros ret l Hf. revert ret.
  induction Hf as [|[cid r] l Hrr _ IH]; intros ret; [eauto|].
  cbn [foldM]. destruct (client_cmds_total br cid r Hrr) as [cmds ->]. apply IH.
Qed.

(** On ranges that are not inverted the reply holds exactly the ranges. *)
Lemma GetClientCommands_ok br rm :
  ranges_ok rm → map_Forall (λ _ r, cr_Start r ≤ cr_Stop r + 1) rm →
  ∃ cmds, GetClientCommands br rm = Ok cmds ∧
    ∀ cid, cmds !! cid = (λ r, GetRequest br cid <$> range (cr_Start r) (cr_Stop r + 1)) <$> rm !! cid.
Proof.
  intros Hr Hle. exists (range_collect 0 (λ cid r,
    Some (GetRequest br cid <$> range (cr_Start r) (cr_Stop r + 1))) rm ∅). split.
  - unfold GetClientCommands, range_collect.
    assert (Forall (λ e, range_ok e.2 ∧ cr_Start e.2 ≤ cr_Stop e.2 + 1) (range_order 0 rm)) as Hf.
    { apply Forall_forall. intros [k r] H%elem_of_range_order. split; [by apply (Hr k)|by apply (Hle k)]. }
    revert Hf. generalize (∅ : UpdateValueMap), (range_order 0 rm). intros ret l Hf. revert ret.
    induction Hf as [|[cid r] l [Hrr Hl] _ IH]; intros ret; [done|].
    cbn [foldM foldl]. rewrite client_cmds_ok by done. apply IH.
  - intros cid. rewrite lookup_range_collect, lookup_empty. by destruct (rm !! cid).
Qed.

Lemma UpdateRequest_inv ba outs m :
  binv (ba, outs) → ranges_ok (uq_Ranges m) →
  ∃ ba' more, handleUpdateRequestMsg ba m = Ok (ba', more) ∧ binv (ba', outs ++ more).
Proof.
  intros [Hi Hs] Hr. unfold handleUpdateRequestMsg.
  destruct (GetIncompleteRanges_ok (ba_batcher ba) (uq_Ranges m) Hr) as (br & Hbr & ->).
  cbn [mbind res_bind].
  apply (binv_batcher _ _ br) in Hi;
    [|by apply equiv_grows|eapply equiv_log; [by symmetry|apply Hi]|eapply equiv_batches; [by symmetry|apply Hi]].
  case_bool_decide.
  - destruct (GetClientCommands_total br (uq_Ranges m) Hr) as [cmds ->]. cbn [mbind res_bind].
    do 2 eexists. split; [reflexivity|]. split; [|exact Hs].
    apply binv_quiet; [exact Hi|by repeat constructor].
  - do 2 eexists. split; [reflexivity|]. rewrite app_nil_r. by split.
Qed.

Lemma step_inv st ev :
  binv st → valid_ev st ev →
  ∃ ba' more, batch_step now st.1 ev = Ok (ba', more) ∧ binv (ba', st.2 ++ more).
Proof.
  destruct st as [ba outs]. intros Hi Hv. destruct ev as [val|m|m|m|m| |id]; cbn in *.
  - destruct Hv as (HVt & req & reqs & E & Hg). rewrite bool_decide_eq_false_2 by tauto.
    by eapply Request_inv.
  - by apply LearnMsg_inv.
  - destruct Hv as (? & ? & ?). by apply Commit_inv.
  - by apply UpdateRequest_inv.
  - destruct Hv as (q & ? & ?). by eapply Reply_inv.
  - by apply report_ok.
  - do 2 eexists. split; [reflexivity|]. rewrite app_nil_r. destruct Hi as [[] Hs]. by split.
Qed.

Lemma init_inv id leader nrOfAcceptors maxSize ba :
  NewBatchAcceptor id leader nrOfAcceptors 1 maxSize = Ok ba → ba_batchMaxReq ba ≠ 0 →
  binv (resetTimer (ba, [])).
Proof.
  unfold NewBatchAcceptor. cbn. intros [= <-] Hm. split; [|done]. split; cbn; try done.
  - intros b Hb. exfalso. lia.
  - intros q Hq. by apply list_elem_of_singleton in Hq.
Qed.

Lemma breach_inv st : breach st → binv st.
Proof.
  induction 1 as [|st ev ba outs _ IH Hv Hstep]; [by eapply init_inv|].
  destruct (step_inv st ev IH Hv) as (ba' & more & E & H). congruence.
Qed.
End runs.

(** * What a run guarantees *)


(** C12: what a replica has executed is the committed batches below [batchAru],
    in order, each with the clients sorted and every client's requests in
    sequence; it holds all requests of every batch it marked ready, and it has
    executed as far as it can. *)
Theorem batch_executes_in_order (RO : RangeOrder) (RL : RangeOrderLaws RO) (now : nat → Z)
    (Cmt : Z → RangeMap) (Rq : string → Z → Request) (st : BatchAcceptor * list BOut) :
  breach now Cmt Rq st →
  decided st.2 = seqZ 0 (ba_batchAru st.1) ≫= (λ b, visit Rq (Cmt b)) ∧
  (∀ b, bs_Execute (bstate (ba_batchqc st.1) b) = true → complete (ba_batcher st.1) (Cmt b)) ∧
  (∀ b, 0 ≤ b < ba_batchAru st.1 → bs_Execute (bstate (ba_batchqc st.1) b) = true) ∧
  bs_Execute (bstate (ba_batchqc st.1) (ba_batchAru st.1)) = false.
Proof.
  intros Hr%breach_inv. destruct Hr as [[] Hs]. split_and!; [done| |done..]. intros b Hb. by apply bi_exec0.
Qed.

(** C11: two replicas that receive the same commits and requests execute prefixes
    of the same sequence of requests, however their messages are interleaved
    and whatever order their maps are iterated in. *)
Theorem batch_logs_consistent (RO1 RO2 : RangeOrder) (now1 now2 : nat → Z)
    (Cmt : Z → RangeMap) (Rq : string → Z → Request) (st1 st2 : BatchAcceptor * list BOut) :
  RangeOrderLaws RO1 → RangeOrderLaws RO2 →
  breach (RO := RO1) now1 Cmt Rq st1 → breach (RO := RO2) now2 Cmt Rq st2 →
  decided st1.2 `prefix_of` decided st2.2 ∨ decided st2.2 `prefix_of` decided st1.2.
Proof.
  intros L1 L2 H1%breach_inv H2%breach_inv; [|done..].
  destruct H1 as [H1 _], H2 as [H2 _]. rewrite (bi_outs _ _ _ H1), (bi_outs _ _ _ H2).
  pose proof (bi_aru _ _ _ H1) as A1. pose proof (bi_aru _ _ _ H2) as A2.
  assert (∀ n, seqZ 0 n ≫= (λ b, visit (RO := RO2) Rq (Cmt b)) = seqZ 0 n ≫= (λ b, visit (RO := RO1) Rq (Cmt b)))
    as ->.
  { intros n. apply bind_ext_elem. intros b _. by apply visit_order. }
  assert (∀ n m, 0 ≤ n ≤ m → seqZ 0 n ≫= (λ b, visit (RO := RO1) Rq (Cmt b)) `prefix_of`
    seqZ 0 m ≫= (λ b, visit (RO := RO1) Rq (Cmt b))) as Hp.
  { intros n m Hnm. replace m with (n + (m - n)) by lia. rewrite seqZ_app, bind_app by lia. by eexists. }
  destruct (Z.le_ge_cases (ba_batchAru st1.1) (ba_batchAru st2.1)); [left|right]; apply Hp; lia.
Qed.

(** A replica answers an update request exactly when it holds all the
    requests, and then its reply is an answer: it carries every request of
    every range asked for. *)
Theorem update_request_answered (RO : RangeOrder) (RL : RangeOrderLaws RO) (Rq : string → Z → Request)
    (ba ba' : BatchAcceptor) (q : UpdateRequestMsg) (outs : list BOut) :
  log_ok Rq (ba_batcher ba) → ranges_ok (uq_Ranges q) →
  map_Forall (λ _ r, cr_Start r ≤ cr_Stop r + 1) (uq_Ranges q) →
  handleUpdateRequestMsg ba q = Ok (ba', outs) →
  (complete (ba_batcher ba) (uq_Ranges q) ∧
     ∃ m, outs = [Ucast (BUpdateReply m) (uq_ID q)] ∧ answers Rq q m) ∨
  (¬ complete (ba_batcher ba) (uq_Ranges q) ∧ outs = []).
Proof.
  intros Hl Hr Hle. unfold handleUpdateRequestMsg.
  destruct (GetIncompleteRanges_ok (ba_batcher ba) (uq_Ranges q) Hr) as (br & Hbr & ->).
  cbn [mbind res_bind]. case_bool_decide as Hc; [|intros [= <- <-]; right; by rewrite <- incomplete_empty].
  apply incomplete_empty in Hc. destruct (GetClientCommands_ok br (uq_Ranges q) Hr Hle) as (cmds & -> & Hcmds).
  cbn [mbind res_bind]. intros [= <- <-]. left. split; [done|].
  eexists. split; [reflexivity|]. cbn.
  assert (∀ cid r i, uq_Ranges q !! cid = Some r → in_range i r →
    ∃ req, GetRequest br cid i = req ∧ genuine Rq req ∧ GetId req = cid ∧ GetSeq req = i) as Hreq.
  { intros cid r i Hq Hi. destruct (Hc cid r Hq i Hi) as [req E]. rewrite GetRequest_eq, (req_at_proper _ _ Hbr cid cid eq_refl i i eq_refl), E. exists req.
    destruct (Hl cid i req E) as (H1 & H2 & H3). unfold genuine. rewrite H2, H3. split_and!; done. }
  split_and!; [done|..].
  - intros cid cs. cbn. rewrite Hcmds. destruct (uq_Ranges q !! cid) as [r|] eqn:Eq; [|done]. cbn.
    intros [= <-]. apply Forall_fmap, Forall_forall. intros i Hi%elem_of_range. cbn.
    destruct (Hreq cid r i Eq) as (req & -> & ? & _); [unfold in_range; lia|done].
  - intros cid r i Hq Hi. destruct (Hreq cid r i Hq Hi) as (req & E & _ & ? & ?).
    exists cid, (GetRequest br cid <$> range (cr_Start r) (cr_Stop r + 1)), req. cbn. rewrite Hcmds, Hq.
    split_and!; [done| |done..]. apply list_elem_of_fmap. exists i. split; [done|].
    apply elem_of_range. unfold in_range in Hi. lia.
Qed.

(** * Witnesses *)

Definition ex_Cmt (b : Z) : RangeMap := if bool_decide (b = 0) then {["x"%string := mkRange 0 0]} else ∅.
Definition ex_commit0 : BEvent := EvCommit (mkBatchCommit (ex_id 0) 0 (ex_Cmt 0)).
Definition ex_after (evs : list BEvent) : BatchAcceptor * list BOut :=
  match batch_start ex_now (ex_replica 1) evs with Ok st => st | _ => (ex_replica 1, []) end.

Lemma ex_breach0 : breach ex_now ex_Cmt ex_req (ex_after []).
Proof.
  apply (breach_init ex_now ex_Cmt ex_req (ex_id 1) (ex_id 0) 3 10 (ex_replica 1)); [reflexivity|done].
Qed.
Lemma breach_event st ev st' :
  breach ex_now ex_Cmt ex_req st → valid_ev ex_Cmt ex_req st ev →
  ((λ p, (p.1, st.2 ++ p.2)) <$> batch_step ex_now st.1 ev) = Ok st' → breach ex_now ex_Cmt ex_req st'.
Proof.
  intros Hr Hv ([ba outs] & E & <-)%fmap_Ok. by eapply breach_step.
Qed.
Lemma ex_breach1 : breach ex_now ex_Cmt ex_req (ex_after [ex_value "x" 0]).
Proof.
  apply (breach_event (ex_after []) (ex_value "x" 0)); [apply ex_breach0| |vm_compute; reflexivity].
  split; [done|]. by eexists _, _.
Qed.
Lemma ex_valid_commit : valid_ev ex_Cmt ex_req (ex_after [ex_value "x" 0]) ex_commit0.
Proof.
  split; [cbn; lia|]. split; [done|]. unfold ranges_ok. cbn. apply map_Forall_singleton.
  unfold range_ok, max_u32. cbn. lia.
Qed.
Lemma ex_breach2 : breach ex_now ex_Cmt ex_req (ex_after [ex_value "x" 0; ex_commit0]).
Proof.
  apply (breach_event (ex_after [ex_value "x" 0]) ex_commit0);
    [apply ex_breach1|apply ex_valid_commit|vm_compute; reflexivity].
Qed.


Lemma batch_executes_in_order_witness :
  let st := ex_after [ex_value "x" 0; ex_commit0] in
  decided st.2 = [ex_req "x" 0] ∧
  decided st.2 = seqZ 0 (ba_batchAru st.1) ≫= (λ b, visit ex_req (ex_Cmt b)).
Proof.
  cbn zeta. split; [vm_compute; reflexivity|].
  apply (batch_executes_in_order _ _ ex_now ex_Cmt ex_req _ ex_breach2).
Defined.

Lemma batch_logs_consistent_witness :
  decided (ex_after [ex_value "x" 0]).2 `prefix_of` decided (ex_after [ex_value "x" 0; ex_commit0]).2 ∨
  decided (ex_after [ex_value "x" 0; ex_commit0]).2 `prefix_of` decided (ex_after [ex_value "x" 0]).2.
Proof.
  apply (batch_logs_consistent map_order map_order ex_now ex_now ex_Cmt ex_req); [apply _..|apply ex_breach1|apply ex_breach2].
Defined.

Lemma update_request_answered_witness :
  let q := mkUpdateRequest (ex_id 2) 0 (ex_Cmt 0) in
  ∃ m, (handleUpdateRequestMsg (ex_after [ex_value "x" 0]).1 q) =
         Ok ((ex_after [ex_value "x" 0]).1, [Ucast (BUpdateReply m) (ex_id 2)]) ∧ answers ex_req q m.
Proof.
  cbn zeta. destruct (update_request_answered _ _ ex_req (ex_after [ex_value "x" 0]).1 (ex_after [ex_value "x" 0]).1
    (mkUpdateRequest (ex_id 2) 0 (ex_Cmt 0)) [Ucast (BUpdateReply (mkUpdateReply (ex_id 1) 0 (ex_Cmt 0)
      {["x"%string := [ex_req "x" 0]]})) (ex_id 2)]) as [(_ & m & E & H)|[_ H]].
  - apply (bi_log _ _ _ (proj1 (breach_inv _ _ _ _ ex_breach1))).
  - apply ex_valid_commit.
  - unfold ex_Cmt. cbn. apply map_Forall_singleton. cbn. lia.
  - vm_compute. reflexivity.
  - exists m. split; [|done]. cbn [uq_ID] in E. rewrite <- E. vm_compute. reflexivity.
  - discriminate H.
Defined.
