(* ===== verification/Server.v ===== *)
(** Package server: the event loop that joins the clients, the Paxos actors
    and the application (src/server/run.go, server.go, standby_server.go) and
    the reconfiguration it performs when a reconfiguration command is decided
    (src/server/handle_reconfig.go). The application is an interface
    (src/app/handler.go), which the key-value store of Kvs.v implements. *)
From S2P Require Import Prelude Grp PaxosTypes Kvs.

(** * The application (app/handler.go, app/state.go) *)

(** What the server asks of an application; [SetState] is called only where a
    replica is started with another's state. *)
Class AppHandler (A : Type) := {
  app_Execute : A → bytes → res (A * bytes);
  app_GetState : A → Z → Z * bytes;
}.

Record AppState := mkAppState { as_SlotMarker : SlotID; as_State : bytes }.

(** The key-value store, with gob's encoding of the map as a parameter. *)
Section kvs.
Context (gob : gmap (list Z) (list Z) → bytes).
Definition kvs_App : AppHandler GoxosHandler :=
  {| app_Execute := Execute; app_GetState gh slotMarker := (slotMarker, gob (kvmap gh)) |}.
End kvs.

(** * Client responses (client/msg.pb.go) *)

Record Response := mkResponse {
  rs_Type : option Z; rs_Id : option string; rs_Seq : option Z; rs_Val : bytes;
  rs_Protocol : option Z; rs_ErrorCode : option Z; rs_ErrorDetail : option string }.
#[export] Instance eta_Response : Eta Response := λ r,
  mkResponse (rs_Type r) (rs_Id r) (rs_Seq r) (rs_Val r) (rs_Protocol r) (rs_ErrorCode r) (rs_ErrorDetail r).
#[export] Instance Response_eq_dec : EqDecision Response.
Proof. solve_decision. Defined.

Definition Response_HELLO_RESP : Z := 1.
Definition Response_EXEC_RESP : Z := 2.
Definition Response_REDIRECT : Z := 1.
Definition zero_Response : Response := mkResponse None None None [] None None None.

(** * The server (server.go) *)

(** What the environment answers while a replica reconfigures: whether the new
    node accepts the connection and the two messages, and whether the
    connection can be added to the connections map. *)
Record NetAnswers := mkNetAnswers {
  na_connect : bool; na_firstSlot : bool; na_join : bool; na_add : bool }.

(** Where the event loop is: in [run], or waiting inside [handleReconfigCmd]
    for the slots before the new configuration. *)
Inductive Mode :=
| Running
| PreLeader (cmd : ReconfigCmd) (net : NetAnswers) (cmdsToFill nrProposedToFill decided : Z)
| PreNonLeader (cmd : ReconfigCmd) (net : NetAnswers) (cmdsToFill decided : Z)
| Stopped.

(** [sv_batchTimer] says whether the timer was made by [time.NewTimer]:
    [Reset] and [Stop] panic on a zero [time.Timer]. *)
Record Server (A : Type) := mkServer {
  sv_id : ID; sv_pxLeader : ID; sv_alpha : Z; sv_localAru : SlotID; sv_firstSlot : SlotID; sv_ah : A;
  sv_batchMaxSize : Z; sv_batchBuffer : list (option Request); sv_batchNextIndex : Z;
  sv_batchTimer : bool; sv_mode : Mode }.
Arguments mkServer {_}.
Arguments sv_id {_}. Arguments sv_pxLeader {_}. Arguments sv_alpha {_}. Arguments sv_localAru {_}.
Arguments sv_firstSlot {_}. Arguments sv_ah {_}. Arguments sv_batchMaxSize {_}. Arguments sv_batchBuffer {_}.
Arguments sv_batchNextIndex {_}. Arguments sv_batchTimer {_}. Arguments sv_mode {_}.
#[export] Instance eta_Server A : Eta (Server A) := λ r,
  mkServer (sv_id r) (sv_pxLeader r) (sv_alpha r) (sv_localAru r) (sv_firstSlot r) (sv_ah r)
    (sv_batchMaxSize r) (sv_batchBuffer r) (sv_batchNextIndex r) (sv_batchTimer r) (sv_mode r).

(** What the loop sends and calls, in order. *)
Inductive SOut :=
| Propose (v : Value)                      (* propChan *)
| PropDcd                                  (* propDcdChan <- true *)
| Forward (r : Response)                   (* clientHandler.ForwardResponse *)
| AnswerState (st : AppState)              (* asreq.RespChan() *)
| TimerReset | TimerStop
| SendFirstSlot (node : Node) (slot : SlotID)
| RequestHold | SetNewNodeMap (nodes : gmap ID Node) | SendJoin (node : Node) | AddConnection | CloseRelease
| ReconfInProgress (b : bool) | ReconfCompleted
| StopServer | StopModules.

Inductive SvEvent :=
| SvLeader (id : ID)
| SvReq (req : Request)
| SvBatchTimeout
| SvReconfigCmd (cmd : ReconfigCmd)
| SvDecided (val : Value) (net : NetAnswers)
| SvStateReq
| SvIdle                                   (* the default case while the leader fills slots *)
| SvStop.

Section server.
Context {A : Type} `{AppHandler A}.
Implicit Types s : Server A.

(** The two constructors; [id], the leader and the configuration's alpha and
    batchMaxSize are arguments. *)
Definition NewServer (id leader : ID) (alpha batchMaxSize : Z) (ah : A) : Server A :=
  mkServer id leader alpha 0 1 ah (u64 batchMaxSize) [] 0 true Running.
Definition NewStandbyServer (id leader : ID) (alpha : Z) (ah : A) (slotMarker : SlotID) : Server A :=
  mkServer id leader alpha (NewAdu slotMarker) (u64 (slotMarker + 1)) ah 0 [] 0 false Running.

Definition incAru s : Server A := s <| sv_localAru ::= Adu_Increment |>.

(** ** Batches (run.go) *)

Definition appendToBatch s (req : Request) : res (Server A * list SOut) :=
  '(s, outs) ← (if bool_decide (sv_batchNextIndex s = 0) then
                  if sv_batchTimer s
                  then Ok (s <| sv_batchBuffer := nils (sv_batchMaxSize s) |>, [TimerReset])
                  else Panic
                else Ok (s, []));
  buf ← slice_set (sv_batchBuffer s) (sv_batchNextIndex s) (Some req);
  mret (s <| sv_batchBuffer := buf |> <| sv_batchNextIndex ::= λ n, u64 (n + 1) |>, outs).

(** [batchBuffer[0:batchNextIndex]]: the pointers of the value. *)
Definition batch_value s : res Value :=
  if bool_decide (sv_batchNextIndex s <= len (sv_batchBuffer s)) then
    match mapM id (take (Z.to_nat (sv_batchNextIndex s)) (sv_batchBuffer s)) with
    | Some reqs => Ok (mkValue App reqs None)
    | None => Panic
    end
  else Panic.

Definition sendBatch s : res (Server A * list SOut) :=
  if sv_batchTimer s then
    if bool_decide (sv_batchNextIndex s = 0) then Ok (s, [TimerStop])
    else
      v ← batch_value s;
      mret (s <| sv_batchNextIndex := 0 |>, [TimerStop; Propose v])
  else Panic.

Definition handleReq s (req : Request) : res (Server A * list SOut) :=
  if bool_decide (sv_batchMaxSize s = 1) then Ok (s, [Propose (mkValue App [req] None)])
  else
    '(s, o1) ← appendToBatch s req;
    if bool_decide (sv_batchNextIndex s = sv_batchMaxSize s) then
      '(s, o2) ← sendBatch s;
      mret (s, o1 ++ o2)
    else mret (s, o1).

(** ** Decided values (run.go) *)

Definition genRespForReq (req : Request) (appresp : bytes) : Response :=
  zero_Response <| rs_Type := Some Response_EXEC_RESP |> <| rs_Id := Some (GetId req) |>
                <| rs_Seq := Some (GetSeq req) |> <| rs_Val := appresp |>.

Definition exec_one (st : Server A * list SOut) (req : Request) : res (Server A * list SOut) :=
  let '(s, outs) := st in
  '(ah, appresp) ← app_Execute (sv_ah s) (GetVal req);
  mret (incAru (s <| sv_ah := ah |>), outs ++ [Forward (genRespForReq req appresp)]).

(** The cases of [handleDecidedVal] other than a reconfiguration. *)
Definition handleAppVal s (val : Value) (informProp : bool) : res (Server A * list SOut) :=
  match Vt val with
  | Noop => Ok (incAru s, if informProp then [PropDcd] else [])
  | App =>
      '(s, outs) ← foldM exec_one (s, []) (Cr val);
      mret (s, outs ++ if informProp then [PropDcd] else [])
  | Reconfig => Panic
  end.

(** ** Reconfiguration (handle_reconfig.go) *)

(** Every return of [handleReconfigCmd] runs its deferred call; the loop then
    increments the aru. *)
Definition reconf_return s (outs : list SOut) : res (Server A * list SOut) :=
  Ok (incAru (s <| sv_mode := Running |>), outs ++ [ReconfInProgress false]).

(** After the last slot of the old configuration. *)
Definition reconf_switch s (cmd : ReconfigCmd) (net : NetAnswers) (outs : list SOut) : res (Server A * list SOut) :=
  let node := default zero_Node (rc_Nodes cmd !! rc_New cmd) in
  if bool_decide (rc_New cmd = sv_id s) then reconf_return s (outs ++ [StopServer])
  else
    let outs := outs ++ [RequestHold; SetNewNodeMap (rc_Nodes cmd)] in
    if na_join net then
      let outs := outs ++ [SendJoin node] in
      if na_add net then
        reconf_return s (outs ++ [AddConnection; CloseRelease; ReconfCompleted] ++
                         replicate (Z.to_nat (sv_alpha s)) PropDcd)
      else reconf_return s outs
    else reconf_return s outs.

Definition handleReconfigCmd s (rc : option ReconfigCmd) (net : NetAnswers) : res (Server A * list SOut) :=
  match rc with
  | None => Panic
  | Some cmd =>
      let firstSlot := u64 (sv_localAru s + u64 (sv_alpha s)) in
      let node := default zero_Node (rc_Nodes cmd !! rc_New cmd) in
      if na_connect net then
        if na_firstSlot net then
          let cmdsToFill := i64 (sv_alpha s - 1) in
          let mode := if bool_decide (sv_id s = sv_pxLeader s) then PreLeader cmd net cmdsToFill 0 0
                      else PreNonLeader cmd net cmdsToFill 0 in
          Ok (s <| sv_mode := mode |>, [SendFirstSlot node firstSlot])
        else reconf_return s []
      else reconf_return s []
  end.

Definition handleDecidedVal s (val : Value) (informProp : bool) (net : NetAnswers) : res (Server A * list SOut) :=
  match Vt val with
  | Reconfig =>
      if bool_decide (sv_localAru s >= u64 (sv_firstSlot s - 1)) then handleReconfigCmd s (Rc val) net
      else Ok (incAru s, [])
  | _ => handleAppVal s val informProp
  end.

(** A value decided while the reconfiguration waits. *)
Definition pre_decided s (val : Value) (cmd : ReconfigCmd) (net : NetAnswers) (cmdsToFill decided : Z)
    (mode : Z → Mode) : res (Server A * list SOut) :=
  if bool_decide (Vt val = Reconfig) then reconf_return s []
  else
    '(s, outs) ← handleAppVal s val false;
    let decided := i64 (decided + 1) in
    if bool_decide (decided = cmdsToFill) then reconf_switch s cmd net outs
    else Ok (s <| sv_mode := mode decided |>, outs).

Definition handleAppStateReq s : list SOut :=
  let '(slotMarker, state) := app_GetState (sv_ah s) (sv_localAru s) in
  [AnswerState (mkAppState slotMarker state)].

(** ** The event loop *)

(** The events a mode takes: a zero timer has no channel and never fires, and
    while it waits, the leader takes requests only
    to fill slots and the other replicas only decided values. *)
Definition sv_enabled s (ev : SvEvent) : bool :=
  match sv_mode s, ev with
  | Running, SvIdle => false
  | Running, SvBatchTimeout => sv_batchTimer s
  | Running, _ => true
  | PreLeader _ _ n p _, (SvReq _ | SvIdle) => bool_decide (p < n)
  | PreLeader _ _ _ _ _, SvDecided _ _ => true
  | PreNonLeader _ _ _ _, SvDecided _ _ => true
  | _, _ => false
  end.

Definition sv_step s (ev : SvEvent) : res (Server A * list SOut) :=
  match sv_mode s with
  | Running =>
      match ev with
      | SvLeader id => Ok (s <| sv_pxLeader := id |>, [])
      | SvReq req => handleReq s req
      | SvBatchTimeout => sendBatch s
      | SvReconfigCmd cmd => Ok (s, [Propose (mkValue Reconfig [] (Some cmd))])
      | SvDecided val net => handleDecidedVal s val true net
      | SvStateReq => Ok (s, handleAppStateReq s)
      | SvStop => Ok (s <| sv_mode := Stopped |>, [StopModules])
      | SvIdle => Ok (s, [])
      end
  | PreLeader cmd net n p d =>
      match ev with
      | SvDecided val _ => pre_decided s val cmd net n d (PreLeader cmd net n p)
      | SvReq req => Ok (s <| sv_mode := PreLeader cmd net n (i64 (p + 1)) d |>, [Propose (mkValue App [req] None)])
      | SvIdle => Ok (s <| sv_mode := PreLeader cmd net n (i64 (p + 1)) d |>, [Propose (mkValue Noop [] None)])
      | _ => Ok (s, [])
      end
  | PreNonLeader cmd net n d =>
      match ev with
      | SvDecided val _ => pre_decided s val cmd net n d (PreNonLeader cmd net n)
      | _ => Ok (s, [])
      end
  | Stopped => Ok (s, [])
  end.

(** The events the loop takes, with what it sends. *)
Inductive sv_run : Server A → list SvEvent → Server A → list SOut → Prop :=
| sv_run_nil s : sv_run s [] s []
| sv_run_cons s ev evs s1 o1 s2 o2 :
    sv_enabled s ev = true → sv_step s ev = Ok (s1, o1) → sv_run s1 evs s2 o2 →
    sv_run s (ev :: evs) s2 (o1 ++ o2).
End server.

(** * Runs *)

(** What a run received and proposed. *)
Definition received (evs : list SvEvent) : list Request :=
  evs ≫= λ ev, match ev with SvReq req => [req] | _ => [] end.
Definition app_values (outs : list SOut) : list Value :=
  outs ≫= λ o, match o with Propose v => if decide (Vt v = App) then [v] else [] | _ => [] end.
Definition responses (outs : list SOut) : list Response :=
  outs ≫= λ o, match o with Forward r => [r] | _ => [] end.
Arguments received : simpl never.
Arguments app_values : simpl never.
Arguments responses : simpl never.

Lemma received_cons ev evs : received (ev :: evs) = received [ev] ++ received evs.
Proof. apply (bind_app _ [ev]). Qed.
Lemma app_values_app a b : app_values (a ++ b) = app_values a ++ app_values b.
Proof. apply bind_app. Qed.
Lemma responses_app a b : responses (a ++ b) = responses a ++ responses b.
Proof. apply bind_app. Qed.

Section runs.
Context {A : Type} `{AppHandler A}.
Implicit Types s : Server A.

(** The requests that wait for their batch to fill or time out. *)
Definition pending s : list Request :=
  omap id (take (Z.to_nat (sv_batchNextIndex s)) (sv_batchBuffer s)).

(** ** Batching *)

Definition batch_inv s : Prop :=
  1 ≤ sv_batchMaxSize s < 2 ^ 64 ∧ 0 ≤ sv_batchNextIndex s ∧
  (sv_batchNextIndex s = 0 ∨
   sv_batchNextIndex s < sv_batchMaxSize s ∧ len (sv_batchBuffer s) = sv_batchMaxSize s ∧
   sv_batchNextIndex s = len (pending s)).

(** An operation on the batch: it keeps the invariant, and what it proposes
    and leaves pending is what was pending and what it received. *)
Definition batch_eff s (reqs : list Request) (s' : Server A) (outs : list SOut) : Prop :=
  batch_inv s' ∧ sv_batchMaxSize s' = sv_batchMaxSize s ∧
  mjoin (Cr <$> app_values outs) ++ pending s' ≡ₚ pending s ++ reqs ∧
  Forall (λ v, 1 ≤ len (Cr v) ≤ sv_batchMaxSize s) (app_values outs).

(** An operation that leaves the batch alone. *)
Definition same_batch s s' : Prop :=
  sv_batchMaxSize s' = sv_batchMaxSize s ∧ sv_batchNextIndex s' = sv_batchNextIndex s ∧
  sv_batchBuffer s' = sv_batchBuffer s ∧ sv_batchTimer s' = sv_batchTimer s.
#[local] Instance same_batch_preorder : PreOrder same_batch.
Proof.
  split; [by intros s|]. intros s1 s2 s3 (? & ? & ? & ?) (? & ? & ? & ?). split_and!; congruence.
Qed.
Lemma same_batch_eff s s' outs :
  batch_inv s → same_batch s s' → app_values outs = [] → batch_eff s [] s' outs.
Proof.
  intros Hi (E1 & E2 & E3 & _) Ho. unfold batch_eff, batch_inv, pending in *.
  rewrite E1, E2, E3, Ho, app_nil_r. split; [exact Hi|]. split; [done|]. split; [done|constructor].
Qed.

Lemma exec_one_Ok s outs r st :
  exec_one (s, outs) r = Ok st →
  ∃ ah resp, app_Execute (sv_ah s) (GetVal r) = Ok (ah, resp) ∧
    st = (incAru (s <| sv_ah := ah |>), outs ++ [Forward (genRespForReq r resp)]).
Proof.
  unfold exec_one. destruct (app_Execute _ _) as [[ah resp]| |]; [|done..].
  intros [= <-]. by exists ah, resp.
Qed.

Lemma exec_all_same s outs reqs s' outs' :
  foldM exec_one (s, outs) reqs = Ok (s', outs') → app_values outs = [] →
  same_batch s s' ∧ sv_mode s' = sv_mode s ∧ app_values outs' = [].
Proof.
  revert s outs. induction reqs as [|r reqs IH]; intros s outs; cbn [foldM].
  { intros [= <- <-]. done. }
  intros ([s1 o1] & (ah & resp & _ & [= -> ->])%exec_one_Ok & Hr)%bind_Ok Ho.
  destruct (IH _ _ Hr) as (H1 & H2 & H3); [by rewrite app_values_app, Ho|].
  split_and!; [etransitivity; [|exact H1]; done|done..].
Qed.
Lemma handleAppVal_same s v b s' outs :
  handleAppVal s v b = Ok (s', outs) →
  same_batch s s' ∧ sv_mode s' = sv_mode s ∧ app_values outs = [].
Proof.
  unfold handleAppVal. destruct (Vt v); [|intros Hr|done].
  - intros [= <- <-]. split_and!; [done..|by destruct b].
  - apply bind_Ok in Hr as ([s1 o1] & H1 & H2). injection H2 as <- <-.
    destruct (exec_all_same _ _ _ _ _ H1 eq_refl) as (? & ? & Ho). split_and!; [done..|].
    rewrite app_values_app, Ho. by destruct b.
Qed.

Lemma omap_id_full {B} (l : list (option B)) :
  length (omap id l) = length l → mapM id l = Some (omap id l).
Proof.
  induction l as [|[b|] l IH]; cbn; [done| |].
  - intros [= E]. by rewrite IH.
  - intros E. exfalso. assert (length (omap id l) ≤ length l)%nat by (clear; induction l as [|[]]; cbn in *; lia).
    cbn in *. lia.
Qed.

Definition filled s : Prop :=
  1 ≤ sv_batchMaxSize s < 2 ^ 64 ∧ len (sv_batchBuffer s) = sv_batchMaxSize s ∧
  0 < sv_batchNextIndex s ≤ sv_batchMaxSize s ∧ sv_batchNextIndex s = len (pending s).

Lemma append_ok s req s' o :
  batch_inv s → appendToBatch s req = Ok (s', o) →
  filled s' ∧ pending s' = pending s ++ [req] ∧ sv_batchMaxSize s' = sv_batchMaxSize s ∧ app_values o = [].
Proof.
  intros (Hm & Hn & Hi) ([s1 o1] & H1 & (buf & Hb & [= <- <-])%bind_Ok)%bind_Ok.
  assert (len (sv_batchBuffer s1) = sv_batchMaxSize s1 ∧ sv_batchMaxSize s1 = sv_batchMaxSize s ∧
    sv_batchNextIndex s1 = sv_batchNextIndex s ∧ pending s1 = pending s ∧
    sv_batchNextIndex s < sv_batchMaxSize s ∧ sv_batchNextIndex s = len (pending s) ∧ app_values o1 = [])
    as (E1 & E2 & E3 & E4 & E5 & E6 & E7).
  { case_bool_decide as E0.
    - destruct (sv_batchTimer s); [|done]. injection H1 as <- <-. cbn. unfold pending. cbn. rewrite E0. cbn.
      unfold nils. rewrite length_replicate. split_and!; done || lia.
    - injection H1 as <- <-. destruct Hi as [|(? & ? & ?)]; [done|]. by split_and!. }
  apply slice_set_Ok in Hb as [Hr ->]. unfold filled, pending in *. cbn. rewrite E2, E3. nowrap.
  rewrite E3 in Hr. rewrite length_insert. replace (Z.to_nat (sv_batchNextIndex s + 1)) with (S (Z.to_nat (sv_batchNextIndex s))) by lia.
  rewrite (take_S_r _ _ (Some req)), take_insert_ge, omap_app by (rewrite ?list_lookup_insert_eq; done || lia).
  rewrite E3 in E4. rewrite E4, length_app. cbn [omap list_omap length id]. split_and!; done || lia.
Qed.

Lemma send_ok s s' o :
  filled s → sendBatch s = Ok (s', o) →
  batch_inv s' ∧ sv_batchMaxSize s' = sv_batchMaxSize s ∧ pending s' = [] ∧
  app_values o = [mkValue App (pending s) None].
Proof.
  intros (Hm & Hl & Hn & Hp). unfold sendBatch. destruct (sv_batchTimer s); [|done].
  rewrite bool_decide_eq_false_2 by lia. unfold batch_value. rewrite bool_decide_eq_true_2 by lia.
  rewrite omap_id_full.
  2:{ unfold pending in Hp. rewrite length_take. lia. }
  intros [= <- <-]. unfold batch_inv, pending. cbn. split_and!; try done; try lia.
Qed.

Lemma req_batch s req s' o :
  batch_inv s → handleReq s req = Ok (s', o) → batch_eff s [req] s' o.
Proof.
  intros Hi. unfold handleReq. case_bool_decide as E1.
  { intros [= <- <-]. split_and!; try done. 2: by repeat constructor; cbn; lia. cbn. apply Permutation_app_comm. }
  intros ([s1 o1] & H1 & H2)%bind_Ok. destruct (append_ok s req s1 o1 Hi H1) as (F & P & M & O).
  case_bool_decide as E2.
  - apply bind_Ok in H2 as ([s2 o2] & H2 & [= <- <-]).
    destruct (send_ok s1 s2 o2 F H2) as (I2 & M2 & P2 & O2). unfold batch_eff.
    rewrite app_values_app, O, O2, P2. cbn. rewrite !app_nil_r, P. split_and!; [done|congruence|done|].
    repeat constructor; cbn; destruct F as (? & ? & ? & ?); rewrite <- P; lia.
  - injection H2 as <- <-. unfold batch_eff. rewrite O, P, M. destruct F as (? & ? & ? & ?).
    split_and!; [|done|done|constructor]. split_and!; [congruence || lia..|]. right. split_and!; lia.
Qed.

Lemma timeout_batch s s' o : batch_inv s → sendBatch s = Ok (s', o) → batch_eff s [] s' o.
Proof.
  intros Hi H1. destruct (decide (sv_batchNextIndex s = 0)) as [E|E].
  - unfold sendBatch in H1. destruct (sv_batchTimer s); [|done].
    rewrite bool_decide_eq_true_2 in H1 by done. injection H1 as <- <-. by apply same_batch_eff.
  - destruct Hi as (Hm & Hn & [|(? & ? & ?)]); [done|].
    destruct (send_ok s s' o) as (I2 & M2 & P2 & O2); [split_and!; lia|done|].
    unfold batch_eff. rewrite O2, P2, M2. cbn. rewrite !app_nil_r. split_and!; [done..|].
    repeat constructor; cbn; lia.
Qed.

(** A reconfiguration leaves the batch alone and proposes nothing. *)
Definition quiet s s' (outs : list SOut) : Prop := same_batch s s' ∧ app_values outs = [].

Lemma reconf_return_quiet s outs s' o :
  app_values outs = [] → reconf_return s outs = Ok (s', o) → quiet s s' o.
Proof. intros Ho [= <- <-]. split; [done|]. by rewrite app_values_app, Ho. Qed.
Lemma app_values_PropDcd n : app_values (replicate n PropDcd) = [].
Proof. unfold app_values. induction n as [|n IH]; [done|exact IH]. Qed.
Lemma reconf_switch_quiet s cmd net outs s' o :
  app_values outs = [] → reconf_switch s cmd net outs = Ok (s', o) → quiet s s' o.
Proof.
  intros Ho. unfold reconf_switch. case_bool_decide; [|destruct (na_join net); [destruct (na_add net)|]];
    apply reconf_return_quiet; rewrite ?app_values_app, Ho; cbn; try done.
  by rewrite app_values_PropDcd.
Qed.
Lemma decided_quiet s v b net s' o : handleDecidedVal s v b net = Ok (s', o) → quiet s s' o.
Proof.
  unfold handleDecidedVal. destruct (Vt v) eqn:Ev;
    [intros (? & _ & ?)%handleAppVal_same; by split..|].
  case_bool_decide; [|by intros [= <- <-]]. unfold handleReconfigCmd.
  destruct (Rc v); [|done]. destruct (na_connect net); [|by apply reconf_return_quiet].
  destruct (na_firstSlot net); [|by apply reconf_return_quiet]. by intros [= <- <-].
Qed.
Lemma pre_decided_quiet s v cmd net n d mode s' o :
  pre_decided s v cmd net n d mode = Ok (s', o) → quiet s s' o.
Proof.
  unfold pre_decided. case_bool_decide; [by apply reconf_return_quiet|].
  intros ([s1 o1] & (E & _ & Ho)%handleAppVal_same & H1)%bind_Ok. case_bool_decide.
  - destruct (reconf_switch_quiet _ _ _ _ _ _ Ho H1) as [E' ?]. split; [by etransitivity|done].
  - injection H1 as <- <-. split; [exact E|done].
Qed.
Lemma quiet_eff s s' o : batch_inv s → quiet s s' o → batch_eff s [] s' o.
Proof. intros Hi [? ?]. by apply same_batch_eff. Qed.

Lemma direct_eff s s' req :
  batch_inv s → same_batch s s' → batch_eff s [req] s' [Propose (mkValue App [req] None)].
Proof.
  intros Hi (E1 & E2 & E3 & E4). unfold batch_eff, batch_inv, pending in *. rewrite E1, E2, E3.
  split_and!; [apply Hi..|done|cbn; apply Permutation_app_comm|]. repeat constructor; cbn; lia.
Qed.

Lemma step_batch s ev s' o :
  batch_inv s → sv_enabled s ev = true → sv_step s ev = Ok (s', o) → batch_eff s (received [ev]) s' o.
Proof.
  intros Hi He. assert (∀ s' o, quiet s s' o → batch_eff s [] s' o) as Hq by (intros; by apply quiet_eff).
  unfold sv_step, sv_enabled in *. destruct (sv_mode s); destruct ev; cbn [received mbind list_bind app] in *; try done.
  all: try (intros [= <- <-]; by apply Hq); try (intros [= <- <-]; by apply direct_eff).
  - by apply req_batch.
  - by apply timeout_batch.
  - intros ?%decided_quiet. by apply Hq.
  - intros [= <- <-]. apply Hq. split; [done|]. unfold handleAppStateReq. by destruct (app_GetState _ _).
  - intros ?%pre_decided_quiet. by apply Hq.
  - intros ?%pre_decided_quiet. by apply Hq.
Qed.

Lemma run_batch s0 evs s outs :
  batch_inv s0 → sv_run s0 evs s outs →
  mjoin (Cr <$> app_values outs) ++ pending s ≡ₚ pending s0 ++ received evs ∧
  Forall (λ v, 1 ≤ len (Cr v) ≤ sv_batchMaxSize s0) (app_values outs).
Proof.
  intros Hi Hr. induction Hr as [s|s ev evs s1 o1 s2 o2 He Hs Hr IH].
  { split; [by rewrite app_nil_r|constructor]. }
  destruct (step_batch s ev s1 o1 Hi He Hs) as (I1 & M1 & P1 & F1). destruct (IH I1) as [P2 F2].
  rewrite app_values_app, fmap_app, join_app, received_cons. rewrite M1 in F2. split.
  - rewrite <- app_assoc, P2, app_assoc, P1. by rewrite app_assoc.
  - by apply Forall_app.
Qed.
End runs.


(** * Reconfiguration and the aru *)

Section reconf.
Context {A : Type} `{AppHandler A}.
Implicit Types s : Server A.

(** How many slots [localAru] counts for a value: one per request. *)
Definition aru_weight (v : Value) : Z :=
  match Vt v with App => len (Cr v) | _ => 1 end.

Lemma exec_all_aru s outs reqs s' outs' :
  0 ≤ sv_localAru s < 2 ^ 64 → foldM exec_one (s, outs) reqs = Ok (s', outs') →
  sv_localAru s' = u64 (sv_localAru s + len reqs).
Proof.
  revert s outs. induction reqs as [|r reqs IH]; intros s outs Ha; cbn [foldM].
  { intros [= <- <-]. cbn. nowrap. lia. }
  intros ([s1 o1] & (ah & resp & _ & [= -> ->])%exec_one_Ok & Hr)%bind_Ok.
  apply IH in Hr; [|apply u64_range]. cbn in Hr. unfold Adu_Increment, u64 in *.
  rewrite Hr, Zplus_mod_idemp_l. f_equal. cbn. lia.
Qed.

(** Executing a value changes the aru, the application and the outputs. *)
Record executed s v s' (outs : list SOut) : Prop := {
  xd_aru : sv_localAru s' = u64 (sv_localAru s + aru_weight v);
  xd_mode : sv_mode s' = sv_mode s;
  xd_id : sv_id s' = sv_id s;
  xd_alpha : sv_alpha s' = sv_alpha s;
}.

Lemma exec_all_frame s outs reqs s' outs' :
  foldM exec_one (s, outs) reqs = Ok (s', outs') →
  sv_mode s' = sv_mode s ∧ sv_id s' = sv_id s ∧ sv_alpha s' = sv_alpha s ∧
  sv_firstSlot s' = sv_firstSlot s ∧ sv_pxLeader s' = sv_pxLeader s ∧
  ∃ rs, outs' = outs ++ (Forward <$> rs).
Proof.
  revert s outs. induction reqs as [|r reqs IH]; intros s outs; cbn [foldM].
  { intros [= <- <-]. split_and!; try done. exists []. by rewrite app_nil_r. }
  intros ([s1 o1] & (ah & resp & _ & [= -> ->])%exec_one_Ok & Hr)%bind_Ok.
  destruct (IH _ _ Hr) as (? & ? & ? & ? & ? & rs & ->). cbn in *. split_and!; try done.
  exists (genRespForReq r resp :: rs). by rewrite <- app_assoc.
Qed.

Lemma handleAppVal_executed s v b s' outs :
  0 ≤ sv_localAru s < 2 ^ 64 → handleAppVal s v b = Ok (s', outs) →
  executed s v s' outs ∧ Vt v ≠ Reconfig ∧
  ∃ rs, outs = (Forward <$> rs) ++ (if b then [PropDcd] else []).
Proof.
  intros Ha. unfold handleAppVal. destruct (Vt v) eqn:Ev; [|intros Hr|done].
  - intros [= <- <-]. split_and!; [|done|by exists []]. split; try done. unfold aru_weight. by rewrite Ev.
  - apply bind_Ok in Hr as ([s1 o1] & H1 & [= <- <-]).
    destruct (exec_all_frame _ _ _ _ _ H1) as (? & ? & ? & _ & _ & rs & ->). split_and!; [|done|by exists rs].
    split; try done. unfold aru_weight. rewrite Ev. by eapply exec_all_aru.
Qed.

(** Waiting in [handleReconfigCmd], as leader or not. *)
Definition waiting s (cmd : ReconfigCmd) (net : NetAnswers) (n d : Z) : Prop :=
  sv_mode s = PreNonLeader cmd net n d ∨ ∃ p, 0 ≤ p ∧ sv_mode s = PreLeader cmd net n p d.

Lemma waiting_decided s cmd net n d v net' s1 o1 :
  waiting s cmd net n d → Vt v ≠ Reconfig → 0 ≤ d < 2 ^ 63 - 1 → 0 ≤ sv_localAru s < 2 ^ 64 →
  sv_step s (SvDecided v net') = Ok (s1, o1) →
  ∃ s0 rs, executed s v s0 (Forward <$> rs) ∧
    (d + 1 = n → reconf_switch s0 cmd net (Forward <$> rs) = Ok (s1, o1)) ∧
    (d + 1 ≠ n → o1 = Forward <$> rs ∧ waiting s1 cmd net n (d + 1) ∧
       sv_localAru s1 = sv_localAru s0 ∧ sv_id s1 = sv_id s ∧ sv_alpha s1 = sv_alpha s).
Proof.
  intros Hw Hv Hd Ha Hs.
  assert (∃ mode, pre_decided s v cmd net n d mode = Ok (s1, o1) ∧
    (mode = PreNonLeader cmd net n ∨ ∃ p, 0 ≤ p ∧ mode = PreLeader cmd net n p)) as (mode & Hp & Hmode).
  { unfold sv_step in Hs. destruct Hw as [E|(p & Hp & E)]; rewrite E in Hs;
      (eexists; split; [exact Hs|]; eauto). }
  clear Hs. unfold pre_decided in Hp. rewrite bool_decide_eq_false_2 in Hp by done.
  apply bind_Ok in Hp as ([s0 o0] & H0 & H1).
  destruct (handleAppVal_executed _ _ _ _ _ Ha H0) as (Hex & _ & rs & ->). rewrite app_nil_r in *.
  exists s0, rs. split; [done|]. rewrite i64_small in H1 by lia. case_bool_decide; split; try done.
  injection H1 as <- <-. intros _. destruct Hex. split_and!; try done.
  destruct Hmode as [->|(p & Hp & ->)]; [by left|right]. by exists p.
Qed.

(** The value takes one slot: a no-op or a single request. *)
Definition one_slot (v : Value) : Prop := Vt v = Noop ∨ (Vt v = App ∧ len (Cr v) = 1).
Lemma one_slot_weight v : one_slot v → aru_weight v = 1 ∧ Vt v ≠ Reconfig.
Proof. unfold aru_weight. by intros [->|[-> ->]]. Qed.

Definition reconf_outs (s : Server A) (cmd : ReconfigCmd) : list SOut :=
  let node := default zero_Node (rc_Nodes cmd !! rc_New cmd) in
  [RequestHold; SetNewNodeMap (rc_Nodes cmd); SendJoin node; AddConnection; CloseRelease; ReconfCompleted] ++
  replicate (Z.to_nat (sv_alpha s)) PropDcd ++ [ReconfInProgress false].

Lemma waiting_run vals s cmd n d s' outs :
  let net := mkNetAnswers true true true true in
  waiting s cmd net n d → Forall one_slot vals → vals ≠ [] → 0 ≤ d → d + len vals = n → n < 2 ^ 63 →
  0 ≤ sv_localAru s → sv_localAru s + len vals + 1 < 2 ^ 64 → rc_New cmd ≠ sv_id s →
  sv_run s ((λ v, SvDecided v net) <$> vals) s' outs →
  sv_mode s' = Running ∧ sv_localAru s' = sv_localAru s + len vals + 1 ∧
  ∃ rs, outs = (Forward <$> rs) ++ reconf_outs s cmd.
Proof.
  cbn zeta. set (net := mkNetAnswers true true true true).
  revert s d outs. induction vals as [|v vals IH]; intros s d outs Hw Hv Hne Hd Hn Hn' Ha Ha' Hid Hr; [done|].
  apply Forall_cons in Hv as [Hv Hvs]. cbn [length] in *. inversion Hr as [|? ? ? s1 o1 ? o2 _ Hs Hr']; subst.
  destruct (one_slot_weight v Hv) as [Hw1 Hvr].
  destruct (waiting_decided s cmd net (d + Z.of_nat (S (length vals))) d v net s1 o1) as (s0 & rs & Hex & Hlast & Hmore);
    [done|done|lia|lia|done|].
  destruct Hex as [E1 E2 E3 E4]. rewrite Hw1 in E1. rewrite u64_small in E1 by lia.
  destruct vals as [|v' vals].
  - inversion Hr'; subst. specialize (Hlast ltac:(cbn; lia)). unfold reconf_switch in Hlast.
    rewrite E3, bool_decide_eq_false_2 in Hlast by done. injection Hlast as <- <-. cbn.
    unfold Adu_Increment. rewrite E1, u64_small by lia. split_and!; [done|lia|].
    exists rs. unfold reconf_outs. rewrite E4, !app_nil_r. cbn. by rewrite <- !app_assoc.
  - destruct (Hmore ltac:(cbn; lia)) as (-> & Hw' & E5 & E6 & E7).
    destruct (IH s1 (d + 1) o2) as (M & L & rs' & ->); try done; try lia; try (cbn [length] in *; lia).
    { by rewrite E6. }
    split_and!; [done|cbn [length] in *; lia|]. exists (rs ++ rs').
    unfold reconf_outs. by rewrite fmap_app, E7, <- app_assoc.
Qed.
End reconf.

Section reconf_start.
Context {A : Type} `{AppHandler A}.

Lemma reconf_start (s : Server A) cmd net net' s1 o1 :
  sv_mode s = Running → na_connect net = true → na_firstSlot net = true →
  u64 (sv_firstSlot s - 1) ≤ sv_localAru s → - 2 ^ 63 ≤ sv_alpha s - 1 < 2 ^ 63 →
  sv_step s (SvDecided (mkValue Reconfig [] (Some cmd)) net) = Ok (s1, o1) → net' = net →
  waiting s1 cmd net' (sv_alpha s - 1) 0 ∧ sv_localAru s1 = sv_localAru s ∧ sv_id s1 = sv_id s ∧
  sv_alpha s1 = sv_alpha s ∧
  o1 = [SendFirstSlot (default zero_Node (rc_Nodes cmd !! rc_New cmd)) (u64 (sv_localAru s + u64 (sv_alpha s)))].
Proof.
  intros Em Hc Hf Hg Ha Hs ->. unfold sv_step in Hs. rewrite Em in Hs. unfold handleDecidedVal in Hs. cbn [Vt Rc] in Hs.
  rewrite bool_decide_eq_true_2 in Hs by lia. unfold handleReconfigCmd in Hs.
  rewrite Hc, Hf in Hs. rewrite i64_small in Hs by lia. injection Hs as <- <-.
  split_and!; try done. case_bool_decide; [right; by exists 0|by left].
Qed.
End reconf_start.

(** What a replica does with a reconfiguration command decided in slot [k]:
    it tells the new node a first slot, waits for exactly [alpha - 1] more
    values, and only then replaces the node map, releases the modules and lets
    the proposer go on. The first slot it announced, [k + alpha - 1], is the
    slot of the last value decided in the old configuration. *)
Theorem reconfig_last_slot (A : Type) (AH : AppHandler A) (s s' : Server A) (cmd : ReconfigCmd)
    (vals : list Value) (outs : list SOut) (k : Z) :
  sv_mode s = Running → sv_localAru s = k - 1 → 1 ≤ sv_firstSlot s ≤ k →
  2 ≤ sv_alpha s < 2 ^ 63 → k + sv_alpha s < 2 ^ 64 → rc_New cmd ≠ sv_id s →
  Forall one_slot vals → len vals = sv_alpha s - 1 →
  let net := mkNetAnswers true true true true in
  sv_run s ((λ v, SvDecided v net) <$> mkValue Reconfig [] (Some cmd) :: vals) s' outs →
  sv_mode s' = Running ∧ sv_localAru s' = k + len vals ∧
  ∃ rs, outs = SendFirstSlot (default zero_Node (rc_Nodes cmd !! rc_New cmd)) (k + len vals) ::
               (Forward <$> rs) ++ reconf_outs s cmd.
Proof.
  intros Em Ek Hf Ha Hk Hid Hv Hl net Hr. rewrite fmap_cons in Hr.
  inversion Hr as [|? ? ? s1 o1 ? o2 _ Hs Hr']; subst.
  destruct (reconf_start s cmd net net s1 o1) as (Hw & E1 & E2 & E3 & ->); try done; try lia.
  { rewrite u64_small; lia. }
  destruct (waiting_run vals s1 cmd (sv_alpha s - 1) 0 s' o2) as (M & L & rs & ->); try done; try lia.
  { intros ->. cbn in Hl. lia. }
  { by rewrite E2. }
  split_and!; [done|lia|]. exists rs. unfold reconf_outs. rewrite E3. cbn. nowrap. do 2 f_equal. lia.
Qed.

(** With a pipeline of one slot a reconfiguration never completes: the replica
    waits for zero more values but compares only after counting one, so
    however many values are decided (up to [2^63]) it keeps the old node map. *)
Theorem reconfig_alpha_one_hangs (A : Type) (AH : AppHandler A) (s s' : Server A) (cmd : ReconfigCmd)
    (net : NetAnswers) (evs : list SvEvent) (outs : list SOut) :
  sv_mode s = Running → sv_alpha s = 1 → na_connect net = true → na_firstSlot net = true →
  u64 (sv_firstSlot s - 1) ≤ sv_localAru s < 2 ^ 64 → 0 ≤ sv_localAru s →
  Forall (λ ev, match ev with SvDecided v _ => Vt v ≠ Reconfig | _ => True end) evs →
  len evs < 2 ^ 63 - 1 →
  sv_run s (SvDecided (mkValue Reconfig [] (Some cmd)) net :: evs) s' outs →
  sv_mode s' ≠ Running ∧ ∀ nodes, SetNewNodeMap nodes ∉ outs.
Proof.
  intros Em Ea Hc Hf Hg H0 Hv Hl Hr. inversion Hr as [|? ? ? s1 o1 ? o2 _ Hs Hr']; subst.
  destruct (reconf_start s cmd net net s1 o1) as (Hw & E1 & E2 & E3 & ->); try done; try lia.
  cut (∀ d s o, waiting s cmd net 0 d → 0 ≤ d → d + len evs < 2 ^ 63 - 1 → 0 ≤ sv_localAru s < 2 ^ 64 →
    sv_run s evs s' o → sv_mode s' ≠ Running ∧ ∀ nodes, SetNewNodeMap nodes ∉ o).
  { intros Hcut. rewrite Ea in Hw. destruct (Hcut 0 s1 o2) as [M N]; try done; try lia.
    split; [done|]. intros nodes [?|Hin]%elem_of_cons; [done|]. by eapply N. }
  clear - Hv. intros d s o Hw Hd Hb Ha Hr. revert d Hw Hd Hb Ha. induction Hr as [s|s ev evs s1 o1 s2 o2 He Hs Hr IH].
  { intros d Hw _ _ _. split; [|by intros ? ?%elem_of_nil]. destruct Hw as [->|(p & _ & ->)]; done. }
  intros d Hw Hd Hb Ha. apply Forall_cons in Hv as [Hv Hvs]. cbn [length] in Hb.
  assert (∃ v net', ev = SvDecided v net') as (v & net' & ->).
  { unfold sv_enabled in He. destruct Hw as [E|(p & Hp & E)]; rewrite E in He; destruct ev; try done; eauto;
      case_bool_decide; lia || done. }
  destruct (waiting_decided s cmd net 0 d v net' s1 o1) as (s0 & rs & [Ea _ _ _] & _ & Hmore); try done; try lia.
  destruct Hmore as (-> & Hw1 & E & _); [lia|].
  destruct (IH Hvs (d + 1) Hw1) as [M N]; [lia|lia|rewrite E, Ea; apply u64_range|].
  split; [done|]. intros nodes [Hin|Hin]%elem_of_app; [|by eapply N].
  by apply list_elem_of_fmap in Hin as (? & [=] & _).
Qed.

(** A replica that joined a running group panics on the first client request
    it receives: [NewStandbyServer] sets neither the batch size nor the batch
    timer, and the request goes to a batch. *)
Theorem standby_request_panics (A : Type) (AH : AppHandler A) (id leader : ID) (alpha : Z) (ah : A)
    (slotMarker : SlotID) (evs : list SvEvent) (s : Server A) (outs : list SOut) (req : Request) :
  sv_run (NewStandbyServer id leader alpha ah slotMarker) evs s outs →
  sv_mode s = Running → sv_step s (SvReq req) = Panic.
Proof.
  intros Hr Hm.
  assert (sv_batchMaxSize s = 0 ∧ sv_batchNextIndex s = 0 ∧ sv_batchTimer s = false) as (E1 & E2 & E3).
  2:{ unfold sv_step, handleReq, appendToBatch. by rewrite Hm, E1, E2, E3. }
  clear Hm. remember (NewStandbyServer id leader alpha ah slotMarker) as s0 eqn:E0.
  assert (sv_batchMaxSize s0 = 0 ∧ sv_batchNextIndex s0 = 0 ∧ sv_batchTimer s0 = false) as Hi by by subst.
  clear E0. induction Hr as [s|s ev evs s1 o1 s2 o2 He Hs Hr IH]; [done|]. apply IH. clear IH.
  destruct Hi as (E1 & E2 & E3).
  assert (∀ s', same_batch s s' → sv_batchMaxSize s' = 0 ∧ sv_batchNextIndex s' = 0 ∧ sv_batchTimer s' = false)
    as Hq by (intros s' (-> & -> & _ & ->); done).
  unfold sv_step in Hs. destruct (sv_mode s), ev;
    try (injection Hs as <- <-; by apply Hq);
    try (apply pre_decided_quiet in Hs as [Hs _]; by apply Hq).
  - unfold handleReq, appendToBatch in Hs. rewrite E1, E2, E3 in Hs. done.
  - unfold sendBatch in Hs. by rewrite E3 in Hs.
  - apply decided_quiet in Hs as [Hs _]. by apply Hq.
Qed.

Definition nreqs (vals : list Value) : Z := Z.of_nat (sum_list_with (λ v, length (Cr v)) vals).

(** [localAru] counts requests, not slots: after a run of values with at least
    one request each it has advanced by the number of values exactly when
    every value held a single request. *)
Theorem localAru_counts_requests (A : Type) (AH : AppHandler A) (s s' : Server A) (net : NetAnswers)
    (vals : list Value) (outs : list SOut) :
  sv_mode s = Running → 0 ≤ sv_localAru s →
  Forall (λ v, Vt v = App ∧ 1 ≤ len (Cr v)) vals →
  sv_localAru s + nreqs vals < 2 ^ 64 →
  sv_run s ((λ v, SvDecided v net) <$> vals) s' outs →
  sv_localAru s' = sv_localAru s + nreqs vals ∧
  (sv_localAru s' = sv_localAru s + len vals ↔ Forall (λ v, len (Cr v) = 1) vals).
Proof.
  intros Hm H0 Hv Hb Hr.
  assert (sv_localAru s' = sv_localAru s + nreqs vals) as ->.
  { revert s outs Hm H0 Hb Hr. induction Hv as [|v vals [Ev Hlen] _ IH]; intros s outs Hm H0 Hb Hr.
    { inversion Hr; subst. change (nreqs []) with 0. lia. }
    rewrite fmap_cons in Hr. inversion Hr as [|? ? ? s1 o1 ? o2 _ Hs Hr']; subst. unfold nreqs in *; cbn [sum_list_with] in Hb |- *.
    unfold sv_step in Hs. rewrite Hm in Hs. unfold handleDecidedVal in Hs. rewrite Ev in Hs.
    apply handleAppVal_executed in Hs as ([E1 E2 _ _] & _); [|lia].
    unfold aru_weight in E1. rewrite Ev, u64_small in E1 by lia.
    rewrite (IH s1 o2) by (congruence || lia || done). rewrite E1. lia. }
  split; [done|]. clear Hr Hb. rewrite Z.add_cancel_l. induction Hv as [|v vals [_ Hlen] Hv' IH]; [done|].
  unfold nreqs in *. cbn [sum_list_with length]. rewrite Forall_cons, <- IH.
  assert (len vals ≤ Z.of_nat (sum_list_with (λ v, length (Cr v)) vals)).
  { clear IH. induction Hv' as [|v' vals [_ ?] _ IH']; cbn [sum_list_with length]; lia. }
  lia.
Qed.

(** * Executable runs and witnesses *)

Section exec.
Context {A : Type} `{AppHandler A}.

Fixpoint sv_exec (s : Server A) (evs : list SvEvent) : option (Server A * list SOut) :=
  match evs with
  | [] => Some (s, [])
  | ev :: evs =>
      if sv_enabled s ev then
        match sv_step s ev with
        | Ok (s1, o1) => (λ p, (p.1, o1 ++ p.2)) <$> sv_exec s1 evs
        | _ => None
        end
      else None
  end.

Lemma sv_exec_run s evs s' outs : sv_exec s evs = Some (s', outs) → sv_run s evs s' outs.
Proof.
  revert s outs. induction evs as [|ev evs IH]; intros s outs; cbn.
  { intros [= <- <-]. constructor. }
  destruct (sv_enabled s ev) eqn:He; [|done]. destruct (sv_step s ev) as [[s1 o1]| |] eqn:Hs; [|done..].
  intros ([s2 o2] & Hx & E)%fmap_Some. cbn in E. injection E as -> ->. econstructor; [done|done|by apply IH].
Qed.
End exec.

(** An application that numbers the commands it executes and echoes them. *)
#[local] Instance echo_App : AppHandler Z :=
  {| app_Execute n req := Ok (n + 1, req); app_GetState n slotMarker := (slotMarker, []) |}.

Definition srv_id (n : Z) : ID := NewIDFromInt n 0.
Definition srv_req (n : Z) : Request := mkRequest (Some Request_EXEC) (Some "client"%string) (Some n) [n].
Definition srv_val (n : Z) : Value := mkValue App [srv_req n] None.
Definition srv_net : NetAnswers := mkNetAnswers true true true true.
Definition srv_cmd : ReconfigCmd := mkReconfigCmd ∅ (srv_id 7).
Definition srv_server (alpha batch : Z) : Server Z := NewServer (srv_id 0) (srv_id 1) alpha batch 0.


Lemma reconfig_last_slot_witness :
  ∃ s' outs, sv_run (srv_server 3 1)
    ((λ v, SvDecided v srv_net) <$> [mkValue Reconfig [] (Some srv_cmd); srv_val 1; srv_val 2]) s' outs ∧
    sv_localAru s' = 1 + 2.
Proof.
  do 2 eexists. split; [apply sv_exec_run; vm_compute; reflexivity|].
  eapply (reconfig_last_slot Z _ (srv_server 3 1) _ srv_cmd [srv_val 1; srv_val 2] _ 1);
    [done|done|cbn; lia|cbn; lia|cbn; lia|done| |done|apply sv_exec_run; vm_compute; reflexivity].
  repeat constructor; by right.
Defined.

Lemma reconfig_alpha_one_hangs_witness :
  ∃ s' outs, sv_run (srv_server 1 1)
    [SvDecided (mkValue Reconfig [] (Some srv_cmd)) srv_net; SvDecided (srv_val 1) srv_net] s' outs ∧
    sv_mode s' ≠ Running.
Proof.
  do 2 eexists. split; [apply sv_exec_run; vm_compute; reflexivity|].
  eapply (reconfig_alpha_one_hangs Z _ (srv_server 1 1) _ srv_cmd srv_net [SvDecided (srv_val 1) srv_net]);
    [done|done|done|done|vm_compute; split; [discriminate|reflexivity]|cbn; lia| |cbn; lia
    |apply sv_exec_run; vm_compute; reflexivity].
  by repeat constructor.
Defined.

Lemma standby_request_panics_witness :
  sv_step (NewStandbyServer (srv_id 0) (srv_id 0) 3 0 5) (SvReq (srv_req 1)) = Panic.
Proof. apply (standby_request_panics Z _ (srv_id 0) (srv_id 0) 3 0 5 [] _ []); [constructor|done]. Defined.

Lemma localAru_counts_requests_witness :
  ∃ s' outs, sv_run (srv_server 3 2) [SvDecided (mkValue App [srv_req 1; srv_req 2] None) srv_net] s' outs ∧
    sv_localAru s' = 0 + 2.
Proof.
  do 2 eexists. split; [apply sv_exec_run; vm_compute; reflexivity|].
  eapply (localAru_counts_requests Z _ (srv_server 3 2) _ srv_net [mkValue App [srv_req 1; srv_req 2] None]);
    [done|done|constructor; [split; [done|cbn; lia]|constructor]|vm_compute; reflexivity|apply sv_exec_run; vm_compute; reflexivity].
Defined.
