(* ===== verification/Replica.v ===== *)
(** A whole replica: the server of Server.v executes exactly what is decided,
    and with the MultiPaxos system of MultiPaxos.v and the key-value store of
    Kvs.v the replicas answer alike. *)
From S2P Require Import Prelude Grp PaxosTypes Combinations MultiAcceptor MultiProposer MultiLearner MultiPaxos ReplicatedLog Kvs Server.

(** * The server executes what is decided *)

(** The application run on a list of requests: its state and the responses. *)
Section service.
Context {A : Type} `{AppHandler A}.
Implicit Types s : Server A.

Definition apply_one (st : A * list Response) (r : Request) : res (A * list Response) :=
  '(a, resp) ← app_Execute st.1 (GetVal r);
  mret (a, st.2 ++ [genRespForReq r resp]).
Definition apply_reqs (a : A) (reqs : list Request) : res (A * list Response) := foldM apply_one (a, []) reqs.

(** The values delivered to the server in a run, and their requests. *)
Definition decided_vals (evs : list SvEvent) : list Value :=
  evs ≫= λ ev, match ev with SvDecided v _ => [v] | _ => [] end.
Definition reqs_of (vals : list Value) : list Request :=
  vals ≫= λ v, match Vt v with App => Cr v | _ => [] end.
Arguments decided_vals : simpl never.
Arguments reqs_of : simpl never.

Lemma decided_vals_cons ev evs : decided_vals (ev :: evs) = decided_vals [ev] ++ decided_vals evs.
Proof. apply (bind_app _ [ev]). Qed.
Lemma reqs_of_app a b : reqs_of (a ++ b) = reqs_of a ++ reqs_of b.
Proof. apply bind_app. Qed.

Lemma apply_one_eq a rs r :
  apply_one (a, rs) r = ('(a1, resp) ← app_Execute a (GetVal r); Ok (a1, rs ++ [genRespForReq r resp])).
Proof. done. Qed.
Lemma apply_shift a rs reqs :
  foldM apply_one (a, rs) reqs = (λ p, (p.1, rs ++ p.2)) <$> apply_reqs a reqs.
Proof.
  unfold apply_reqs. revert a rs. induction reqs as [|r reqs IH]; intros a rs; cbn [foldM].
  { cbn. by rewrite app_nil_r. }
  rewrite !apply_one_eq. destruct (app_Execute a (GetVal r)) as [[a1 resp]| |]; [|done..].
  cbn [mbind res_bind mret res_ret]. rewrite app_nil_l, IH, (IH a1 [_]).
  destruct (foldM apply_one (a1, []) reqs) as [[a2 rs2]| |]; cbn; [|done..]. by rewrite <- app_assoc.
Qed.
Lemma apply_app a reqs1 reqs2 :
  apply_reqs a (reqs1 ++ reqs2) =
    ('(a1, r1) ← apply_reqs a reqs1; '(a2, r2) ← apply_reqs a1 reqs2; mret (a2, r1 ++ r2)).
Proof.
  unfold apply_reqs at 1. rewrite foldM_app. fold (apply_reqs a reqs1).
  destruct (apply_reqs a reqs1) as [[a1 r1]| |]; [|done..]. cbn. rewrite apply_shift.
  by destruct (apply_reqs a1 reqs2) as [[a2 r2]| |].
Qed.

Lemma apply_single a r :
  apply_reqs a [r] = ('(a1, resp) ← app_Execute a (GetVal r); Ok (a1, [genRespForReq r resp])).
Proof. unfold apply_reqs. cbn [foldM]. rewrite apply_one_eq. by destruct (app_Execute a (GetVal r)) as [[]| |]. Qed.

(** Every way of handling a decided value executes its requests once. *)
Definition runs_app s (reqs : list Request) s' (outs : list SOut) : Prop :=
  apply_reqs (sv_ah s) reqs = Ok (sv_ah s', responses outs).

Lemma exec_all_runs s outs reqs s' outs' :
  foldM exec_one (s, outs) reqs = Ok (s', outs') →
  ∃ rs, apply_reqs (sv_ah s) reqs = Ok (sv_ah s', rs) ∧ outs' = outs ++ (Forward <$> rs).
Proof.
  revert s outs. induction reqs as [|r reqs IH]; intros s outs; cbn [foldM].
  { intros [= <- <-]. exists []. by rewrite app_nil_r. }
  intros ([s1 o1] & (ah & resp & Hx & [= -> ->])%exec_one_Ok & Hr)%bind_Ok.
  destruct (IH _ _ Hr) as (rs & Ha & ->). exists (genRespForReq r resp :: rs).
  split; [|by rewrite <- app_assoc]. change (r :: reqs) with ([r] ++ reqs). rewrite apply_app, apply_single, Hx.
  cbn [mbind res_bind mret res_ret]. cbn in Ha. by rewrite Ha.
Qed.

Lemma responses_Forward rs : responses (Forward <$> rs) = rs.
Proof. unfold responses. induction rs as [|r rs IH]; [done|]. cbn. by rewrite IH. Qed.

Lemma handleAppVal_runs s v b s' outs :
  handleAppVal s v b = Ok (s', outs) → Vt v ≠ Reconfig ∧ runs_app s (reqs_of [v]) s' outs.
Proof.
  unfold handleAppVal, runs_app.
  assert (reqs_of [v] = match Vt v with App => Cr v | _ => [] end) as -> by apply app_nil_r.
  destruct (Vt v); [|intros Hr|done].
  - intros [= <- <-]. split; [done|]. by destruct b.
  - apply bind_Ok in Hr as ([s1 o1] & (rs & Ha & ->)%exec_all_runs & [= <- <-]). split; [done|].
    rewrite Ha, responses_app. cbn. rewrite responses_Forward. destruct b; by rewrite app_nil_r.
Qed.

Lemma reconf_switch_runs s cmd net outs s' o :
  reconf_switch s cmd net outs = Ok (s', o) → sv_ah s' = sv_ah s ∧ responses o = responses outs.
Proof.
  assert (∀ n, replicate n PropDcd ≫= (λ o, match o with Forward r => [r] | _ => [] end) = []) as Hn
    by (induction n; done).
  unfold reconf_switch, reconf_return. case_bool_decide; [|destruct (na_join net); [destruct (na_add net)|]];
    intros [= <- <-]; (split; [done|]); rewrite !responses_app;
    unfold responses; cbn; by rewrite ?Hn, ?app_nil_r.
Qed.

Lemma reconfig_runs s v : Vt v = Reconfig → reqs_of [v] = [].
Proof. unfold reqs_of. cbn. by intros ->. Qed.

(** The batch does not touch the application. *)
Lemma append_silent s req s' o : appendToBatch s req = Ok (s', o) → sv_ah s' = sv_ah s ∧ responses o = [].
Proof.
  intros ([s1 o1] & H1 & (buf & _ & [= <- <-])%bind_Ok)%bind_Ok. cbn.
  case_bool_decide; [destruct (sv_batchTimer s); [|done]|]; by injection H1 as <- <-.
Qed.
Lemma send_silent s s' o : sendBatch s = Ok (s', o) → sv_ah s' = sv_ah s ∧ responses o = [].
Proof.
  unfold sendBatch. destruct (sv_batchTimer s); [|done]. case_bool_decide; [by intros [= <- <-]|].
  by intros (v & _ & [= <- <-])%bind_Ok.
Qed.
Lemma req_silent s req s' o : handleReq s req = Ok (s', o) → sv_ah s' = sv_ah s ∧ responses o = [].
Proof.
  unfold handleReq. case_bool_decide; [by intros [= <- <-]|].
  intros ([s1 o1] & (E1 & R1)%append_silent & H2)%bind_Ok. case_bool_decide; [|by injection H2 as <- <-].
  apply bind_Ok in H2 as ([s2 o2] & (E2 & R2)%send_silent & [= <- <-]).
  by rewrite responses_app, R1, R2, E2, E1.
Qed.
Lemma decided_runs s v b net s' o :
  handleDecidedVal s v b net = Ok (s', o) → runs_app s (reqs_of [v]) s' o.
Proof.
  unfold handleDecidedVal. destruct (Vt v) eqn:Ev; [by intros [_ ?]%handleAppVal_runs..|].
  rewrite reconfig_runs by done. unfold handleReconfigCmd, runs_app.
  case_bool_decide; [|by intros [= <- <-]]. destruct (Rc v); [|done].
  destruct (na_connect net); [destruct (na_firstSlot net)|]; by intros [= <- <-].
Qed.

Lemma step_runs s ev s' o :
  sv_enabled s ev = true → sv_step s ev = Ok (s', o) → runs_app s (reqs_of (decided_vals [ev])) s' o.
Proof.
  intros He Hs.
  assert (∀ s' o, sv_ah s' = sv_ah s → responses o = [] → runs_app s [] s' o) as Hq
    by (intros s1 o1 E1 E2; unfold runs_app; by rewrite E1, E2).
  assert (∀ v cmd net n d mode, pre_decided s v cmd net n d mode = Ok (s', o) → runs_app s (reqs_of [v]) s' o) as Hpre.
  { intros v cmd net n d mode. unfold pre_decided. case_bool_decide as Ev.
    - intros [= <- <-]. rewrite reconfig_runs by done. by apply Hq.
    - intros ([s1 o1] & (_ & Ha)%handleAppVal_runs & H1)%bind_Ok. case_bool_decide.
      + apply reconf_switch_runs in H1 as [E1 E2]. unfold runs_app in *. by rewrite E1, E2.
      + by injection H1 as <- <-. }
  unfold sv_step, sv_enabled in *. destruct (sv_mode s), ev; cbn [decided_vals mbind list_bind app] in *; try done;
    try (injection Hs as <- <-; by apply Hq); try by eapply Hpre.
  - apply req_silent in Hs as [? ?]. by apply Hq.
  - apply send_silent in Hs as [? ?]. by apply Hq.
  - by apply decided_runs in Hs.
  - injection Hs as <- <-. apply Hq; [done|]. unfold handleAppStateReq. by destruct (app_GetState _ _).
Qed.

Lemma run_runs s evs s' o : sv_run s evs s' o → runs_app s (reqs_of (decided_vals evs)) s' o.
Proof.
  induction 1 as [s|s ev evs s1 o1 s2 o2 He Hs _ IH]; [done|].
  apply step_runs in Hs; [|done]. unfold runs_app in *.
  rewrite decided_vals_cons, reqs_of_app, apply_app, Hs, responses_app.
  cbn [mbind res_bind]. by rewrite IH.
Qed.
End service.

(** C6: the server is the application run on the decided requests: whatever else
    happens in a run - batches, timeouts, leader changes, reconfigurations -
    its application state and the responses it forwards are those of executing
    every request of every decided value once, in the order of decision. *)
Theorem server_refines_app (A : Type) (AH : AppHandler A) (s s' : Server A) (evs : list SvEvent) (outs : list SOut) :
  sv_run s evs s' outs →
  apply_reqs (sv_ah s) (reqs_of (decided_vals evs)) = Ok (sv_ah s', responses outs).
Proof. apply run_runs. Qed.

(** * Replicas of one group *)

Lemma apply_prefix (A : Type) (AH : AppHandler A) (a a1 a2 : A) (reqs1 reqs2 : list Request) (r1 r2 : list Response) :
  reqs1 `prefix_of` reqs2 → apply_reqs a reqs1 = Ok (a1, r1) → apply_reqs a reqs2 = Ok (a2, r2) →
  r1 `prefix_of` r2.
Proof.
  intros [k ->] H1 H2. rewrite apply_app, H1 in H2. cbn in H2.
  destruct (apply_reqs a1 k) as [[a3 r3]| |]; [|done..]. injection H2 as _ <-. by exists r3.
Qed.

Lemma reqs_of_prefix vals1 vals2 : vals1 `prefix_of` vals2 → reqs_of vals1 `prefix_of` reqs_of vals2.
Proof. intros [k ->]. exists (reqs_of k). apply reqs_of_app. Qed.

Section group.
Context {G : Type} `{GroupManager G} (gm : ID → G) (acceptors : list ID) (Q : Z).
Context `{FG : !FixedGroup G gm acceptors Q} (leader : ID → ID) (alpha first : Z).

(** C1: state machine replication, end to end: take any reachable state of the
    MultiPaxos system and the runs of two replicas' servers that have handled
    some of the values their learners delivered, with whatever else happened
    to each server. The responses of one are a prefix of the other's, and
    servers that handled equally many values are in the same application
    state. *)
Theorem replicas_answer_alike (A : Type) (AH : AppHandler A) (sys : Sys) (i j : ID)
    (si si' sj sj' : Server A) (evsi evsj : list SvEvent) (oi oj : list SOut) :
  1 ≤ first < 2 ^ 64 → reachable gm acceptors leader alpha first sys →
  sv_ah si = sv_ah sj →
  sv_run si evsi si' oi → decided_vals evsi `prefix_of` (s_log sys i).*2 →
  sv_run sj evsj sj' oj → decided_vals evsj `prefix_of` (s_log sys j).*2 →
  (responses oi `prefix_of` responses oj ∨ responses oj `prefix_of` responses oi) ∧
  (length (decided_vals evsi) = length (decided_vals evsj) →
     sv_ah si' = sv_ah sj' ∧ responses oi = responses oj).
Proof.
  intros Hf Hr Ha Hi Pi Hj Pj. apply run_runs in Hi, Hj. unfold runs_app in *. rewrite Ha in Hi.
  assert (decided_vals evsi `prefix_of` decided_vals evsj ∨ decided_vals evsj `prefix_of` decided_vals evsi) as Hp.
  { assert (Inv acceptors Q first sys) as HI by by eapply inv_reachable.
    destruct (Inv_logs_prefix gm acceptors Q first sys i j HI) as [[l P]|[l P]]; apply (f_equal (fmap snd)) in P; rewrite fmap_app in P.
    - eapply prefix_weak_total; [|exact Pj]. rewrite P. by apply prefix_app_r.
    - eapply prefix_weak_total; [exact Pi|]. rewrite P. by apply prefix_app_r. }
  split.
  - destruct Hp as [P|P]; [left|right]; by eapply apply_prefix; [apply reqs_of_prefix| |].
  - intros Hl. assert (decided_vals evsi = decided_vals evsj) as E.
    { destruct Hp as [P|P]; [|symmetry]; by apply prefix_length_eq; [|rewrite Hl]. }
    rewrite E, Hj in Hi. by injection Hi as -> ->.
Qed.
End group.

(** * The replicated key-value store *)

Section kv.
Context (gob : gmap (list Z) (list Z) → bytes).

Lemma apply_execute_all gh reqs ts gh' rs :
  GetVal <$> reqs = MapRequest_Marshal <$> ts →
  apply_reqs (H := kvs_App gob) gh reqs = Ok (gh', rs) → execute_all gh ts = Ok gh' ∧ length rs = length ts.
Proof.
  revert gh ts rs. induction reqs as [|r reqs IH]; intros gh [|t ts] rs Hv; try done.
  { by intros [= <- <-]. }
  rewrite !fmap_cons in Hv. injection Hv as Hv1 Hv.
  change (r :: reqs) with ([r] ++ reqs). rewrite apply_app, apply_single. cbn [app_Execute kvs_App]. rewrite Hv1.
  unfold execute_all. cbn [foldM]. destruct (Execute gh (MapRequest_Marshal t)) as [[gh1 resp]| |]; [|done..].
  cbn [mbind res_bind mret res_ret]. destruct (apply_reqs (H := kvs_App gob) gh1 reqs) as [[gh2 rs2]| |] eqn:E; [|done..].
  intros [= <- <-]. destruct (IH gh1 ts rs2 Hv E) as [H1 H2]. split; [exact H1|]. cbn. by rewrite H2.
Qed.

(** C7: the service a replica offers: when its server executes the decided
    requests on the key-value store, the response to a read, decoded as the
    client does, is the value of the last write of the key decided before it
    that no later delete followed, or that there is none. *)
Theorem decided_read_answer (s s' : Server GoxosHandler) (evs : list SvEvent) (outs : list SOut)
    (ts : list MapRequest) (n : nat) (k : bytes) (r0 : MapResponse) :
  sv_ah s = NewHandler → sv_run (H := kvs_App gob) s evs s' outs →
  GetVal <$> reqs_of (decided_vals evs) = MapRequest_Marshal <$> ts → Forall request_ok ts →
  ts !! n = Some (mkMapRequest Read k []) →
  ∃ r, responses outs !! n = Some r ∧
    ∃ rest, MapResponse_Unmarshal r0 (rs_Val r) = Ok (match last_value k (take n ts) with
      | Some v => mkMapResponse Read v 1 []
      | None => mkMapResponse Read [] 0 []
      end, inl rest).
Proof.
  intros Hs Hr%run_runs Hv Hok Hn. unfold runs_app in Hr. rewrite Hs in Hr.
  set (reqs := reqs_of (decided_vals evs)) in *. clearbody reqs.
  assert (∃ q, reqs !! n = Some q ∧ GetVal q = MapRequest_Marshal (mkMapRequest Read k [])) as (q & Hq & Eq).
  { assert ((GetVal <$> reqs) !! n = Some (MapRequest_Marshal (mkMapRequest Read k []))) as Hl
      by (by rewrite Hv, list_lookup_fmap, Hn). apply list_lookup_fmap_Some in Hl as (q & E & ?). by exists q. }
  assert (len k ≤ maxAlloc) as Hk.
  { rewrite Forall_lookup in Hok. by destruct (Hok n _ Hn). }
  rewrite <- (take_drop_middle reqs n q Hq), apply_app in Hr.
  destruct (apply_reqs (H := kvs_App gob) NewHandler (take n reqs)) as [[gh1 rs1]| |] eqn:E1; [|done..].
  change (q :: drop (S n) reqs) with ([q] ++ drop (S n) reqs) in Hr.
  cbn [mbind res_bind] in Hr. rewrite apply_app, apply_single in Hr. cbn [app_Execute kvs_App mbind res_bind mret res_ret] in Hr. rewrite Eq in Hr.
  destruct (apply_execute_all NewHandler (take n reqs) (take n ts) gh1 rs1) as [Hx Hl]; [|done|].
  { by rewrite !fmap_take, Hv. }
  destruct (read_after (take n ts) k r0) as (gh & gh' & resp & H1 & H2 & _ & H3); [by apply Forall_take|done|].
  rewrite Hx in H1. injection H1 as <-. rewrite H2 in Hr. cbn [mbind res_bind] in Hr.
  destruct (apply_reqs (H := kvs_App gob) gh' (drop (S n) reqs)) as [[gh2 rs2]| |]; [|done..]. injection Hr as _ <-.
  exists (genRespForReq q resp). split; [|exact H3].
  rewrite lookup_app_r by (rewrite Hl, length_take; lia).
  rewrite Hl, length_take_le, Nat.sub_diag; [done|]. apply lookup_lt_Some in Hn. lia.
Qed.
End kv.

(** * Witnesses *)

(** The servers of replicas 0 and 1 in the final state of ReplicatedLog.v's
    run, each of which has also seen something else. *)
Definition rep_server (i : Z) : Server Z := NewServer (ex_id i) (ex_id 2) 3 2 0.
Definition rep_dcd (v : Value) : SvEvent := SvDecided v srv_net.
Definition rep_evs0 : list SvEvent := [SvReq (srv_req 5); rep_dcd (ex_val 7); SvBatchTimeout; rep_dcd (ex_val 8)].
Definition rep_evs1 : list SvEvent := [SvLeader (ex_id 1); rep_dcd (ex_val 7)].
Definition rep_end (s : Server Z) (evs : list SvEvent) : Server Z * list SOut :=
  match sv_exec (H := echo_App) s evs with Some p => p | None => (s, []) end.

Lemma server_refines_app_witness (p := rep_end (rep_server 0) rep_evs0) :
  sv_run (H := echo_App) (rep_server 0) rep_evs0 p.1 p.2 ∧
  apply_reqs (H := echo_App) 0 (Cr (ex_val 7) ++ Cr (ex_val 8)) = Ok (sv_ah p.1, responses p.2).
Proof.
  assert (sv_run (H := echo_App) (rep_server 0) rep_evs0 p.1 p.2) as Hr
    by (apply sv_exec_run; vm_compute; reflexivity).
  split; [exact Hr|]. exact (server_refines_app Z echo_App (rep_server 0) p.1 rep_evs0 p.2 Hr).
Defined.

Lemma replicas_answer_alike_witness (p := rep_end (rep_server 0) rep_evs0) (q := rep_end (rep_server 1) rep_evs1) :
  length (responses p.2) = 2%nat ∧ length (responses q.2) = 1%nat ∧
  (responses p.2 `prefix_of` responses q.2 ∨ responses q.2 `prefix_of` responses p.2).
Proof.
  split; [vm_compute; reflexivity|]. split; [vm_compute; reflexivity|].
  destruct ex_final_logs as [E0 E1].
  refine (proj1 (replicas_answer_alike (FG := ex_group) ex_gms ex_ids (Quorum ex_nodemap) (λ _, ex_id 2) 3 1 Z echo_App ex_final
    (ex_id 0) (ex_id 1) (rep_server 0) p.1 (rep_server 1) q.1 rep_evs0 rep_evs1 p.2 q.2 _ _ _ _ _ _ _));
    [lia|apply ex_final_reachable|done|apply sv_exec_run; vm_compute; reflexivity| |apply sv_exec_run; vm_compute; reflexivity|].
  - rewrite E0. exists []. reflexivity.
  - rewrite E1. exists []. reflexivity.
Defined.

(** A replica that executes a write and then a read of the same key. *)
Definition kv_gob (m : gmap (list Z) (list Z)) : bytes := [].
Definition kv_req (t : MapRequest) : Request := mkRequest (Some Request_EXEC) (Some "client"%string) (Some 1) (MapRequest_Marshal t).
Definition kv_ts : list MapRequest := [mkMapRequest Write [1; 2] [9]; mkMapRequest Read [1; 2] []].
Definition kv_server : Server GoxosHandler := NewServer (ex_id 0) (ex_id 0) 3 2 NewHandler.
Definition kv_evs : list SvEvent := [rep_dcd (mkValue App (kv_req <$> kv_ts) None)].

Lemma decided_read_answer_witness :
  ∃ s' outs r rest, sv_run (H := kvs_App kv_gob) kv_server kv_evs s' outs ∧ responses outs !! 1%nat = Some r ∧
    MapResponse_Unmarshal (mkMapResponse 0 [] 0 []) (rs_Val r) = Ok (mkMapResponse Read [9] 1 [], inl rest).
Proof.
  assert (∃ s' outs, sv_run (H := kvs_App kv_gob) kv_server kv_evs s' outs) as (s' & outs & Hr)
    by (do 2 eexists; apply sv_exec_run; vm_compute; reflexivity).
  destruct (decided_read_answer kv_gob kv_server s' kv_evs outs kv_ts 1 [1; 2] (mkMapResponse 0 [] 0 []))
    as (r & Hl & rest & Hx); [done|exact Hr|reflexivity| |reflexivity|].
  - repeat constructor; vm_compute; congruence.
  - exists s', outs, r, rest. split_and!; [exact Hr|exact Hl|]. rewrite Hx. reflexivity.
Defined.
