(* ===== verification/KvsState.v ===== *)
(** The state of the key-value store on its way to another replica
    (src/kvs/kvsd/state.go, handler.go, kvsd.go), and the application of
    src/bftpubsub, which has none. Package gob is a parameter; a replica that
    joined from another's state then answers as that one. *)
From S2P Require Import Prelude Grp PaxosTypes Kvs Server Replica.

Section gob.
(** [gob_decode] gives the map that was decoded into and the error. *)
Context (gob : kvstore → bytes) (gob_decode : bytes → kvstore → kvstore * option string).
Implicit Types gh : GoxosHandler.

Definition GetState gh (slotMarker : Z) : Z * bytes := (slotMarker, gob (kvmap gh)).
Definition SetState gh (state : bytes) : option string * GoxosHandler :=
  let '(m, err) := gob_decode state (kvmap gh) in (err, gh <| kvmap := m |>).

(** [file] is what reading the file gives. *)
Definition loadState gh (file : bytes + string) : option string * GoxosHandler :=
  match file with
  | inr err => (Some err, gh)
  | inl file =>
      let '(err, gh) := SetState gh file in
      match err with Some err => (Some err, gh) | None => (None, gh) end
  end.

(** The application that [start] begins with; a failure ends the process. *)
Definition initial_handler (load : option (bytes + string)) : res GoxosHandler :=
  match load with
  | None => mret NewHandler
  | Some file => match loadState NewHandler file with (None, gh) => mret gh | (Some _, _) => Panic end
  end.

(** The state that a server answers with. *)
Definition answered_state (outs : list SOut) : option AppState :=
  match outs with [AnswerState st] => Some st | _ => None end.

(** ** Stores that agree *)

(** Handlers that agree on the map may differ in what they executed last. *)
Definition same_store gh1 gh2 : Prop := kvmap gh1 = kvmap gh2.
#[export] Instance same_store_equiv : Equivalence same_store.
Proof. split; [done|by intros ??|]. intros ???; unfold same_store. congruence. Qed.

Definition kv_apply : GoxosHandler → list Request → res (GoxosHandler * list Response) := apply_reqs (H := kvs_App gob).

Lemma apply_alike reqs : ∀ gh1 gh2, same_store gh1 gh2 →
  match kv_apply gh1 reqs, kv_apply gh2 reqs with
  | Ok (gh1', rs1), Ok (gh2', rs2) => same_store gh1' gh2' ∧ rs1 = rs2
  | Panic, Panic => True
  | _, _ => False
  end.
Proof.
  unfold kv_apply. induction reqs as [|r reqs IH]; intros gh1 gh2 Hm; [done|].
  change (r :: reqs) with ([r] ++ reqs). rewrite !apply_app, !apply_single. cbn [app_Execute kvs_App].
  pose proof (Execute_deterministic gh1 gh2 (GetVal r) Hm) as Hd.
  destruct (Execute gh1 (GetVal r)) as [[gh1' resp1]| |], (Execute gh2 (GetVal r)) as [[gh2' resp2]| |]; try done.
  destruct Hd as [Hm' ->]. cbn [mbind res_bind]. specialize (IH gh1' gh2' Hm').
  destruct (apply_reqs (H := kvs_App gob) gh1' reqs) as [[a1 r1]| |], (apply_reqs (H := kvs_App gob) gh2' reqs) as [[a2 r2]| |]; try done. destruct IH as [? ->]. by split.
Qed.

Lemma apply_prefix_alike gh1 gh2 gh1' gh2' reqs1 reqs2 rs1 rs2 :
  same_store gh1 gh2 → reqs1 `prefix_of` reqs2 → kv_apply gh1 reqs1 = Ok (gh1', rs1) → kv_apply gh2 reqs2 = Ok (gh2', rs2) →
  rs1 `prefix_of` rs2 ∧ (reqs1 = reqs2 → same_store gh1' gh2' ∧ rs1 = rs2).
Proof.
  intros Hm [k ->] H1 H2. pose proof (apply_alike reqs1 gh1 gh2 Hm) as Ha. rewrite H1 in Ha. unfold kv_apply in *.
  rewrite apply_app in H2. destruct (apply_reqs (H := kvs_App gob) gh2 reqs1) as [[a2 r2]| |]; [|done..]. destruct Ha as [Hs ->]. cbn in H2.
  destruct (apply_reqs (H := kvs_App gob) a2 k) as [[a3 r3]| |] eqn:E3; [|done..]. injection H2 as <- <-. split; [by exists r3|].
  intros E. assert (k = []) as -> by (apply (app_inv_head reqs1); by rewrite app_nil_r, <- E).
  injection E3 as <- <-. by rewrite app_nil_r.
Qed.

(** ** A replica that joins *)

Hypothesis gob_roundtrip : ∀ m, gob_decode (gob m) ∅ = (m, None).

(** What a donor answers a state request with sets the new replica's handler to
    its map. *)
Lemma SetState_GetState gh slotMarker : ∃ gh', SetState NewHandler (GetState gh slotMarker).2 = (None, gh') ∧ same_store gh' gh.
Proof. unfold SetState, GetState. cbn. rewrite gob_roundtrip. by eexists. Qed.

End gob.

(** * The publish-subscribe application (src/bftpubsub/handler.go) *)

Definition pubsub_Execute (req : bytes) : bytes := req.
Definition pubsub_GetState (slotMarker : Z) : Z * bytes := (0, []).
Definition pubsub_SetState (state : bytes) : option string := None.
Definition pubsub_App : AppHandler unit :=
  {| app_Execute _ req := mret (tt, pubsub_Execute req); app_GetState _ := pubsub_GetState |}.

(** It answers a state request with marker zero, so that a replica that joins
    starts over with the first slot. *)
Theorem pubsub_joins_at_one s st id leader alpha :
  answered_state (handleAppStateReq (H := pubsub_App) s) = Some st →
  sv_firstSlot (NewStandbyServer id leader alpha tt (as_SlotMarker st)) = 1.
Proof. intros [= <-]. done. Qed.

(** * Examples *)

Definition ex_gob (m : kvstore) : bytes := [Z.pos (encode m)].
Definition ex_gob_decode (b : bytes) (m : kvstore) : kvstore * option string :=
  match b with
  | [Z.pos p] => match decode p with Some m => (m, None) | None => (m, Some "gob"%string) end
  | _ => (m, Some "gob"%string)
  end.
Lemma ex_gob_roundtrip m : ex_gob_decode (ex_gob m) ∅ = (m, None).
Proof. unfold ex_gob, ex_gob_decode. by rewrite decode_encode. Qed.

Definition join_donor : Server GoxosHandler :=
  match sv_exec (H := kvs_App ex_gob) kv_server kv_evs with Some p => p.1 | None => kv_server end.
Definition join_handler : GoxosHandler := NewHandler <| kvmap := kvmap (sv_ah join_donor) |>.
Definition join_evs : list SvEvent := [rep_dcd (mkValue App [kv_req (mkMapRequest Read [1; 2] [])] None)].

Lemma pubsub_joins_at_one_witness :
  sv_firstSlot (NewStandbyServer (ex_id 1) (ex_id 0) 3 tt 0) = 1.
Proof.
  apply (pubsub_joins_at_one (NewServer (ex_id 0) (ex_id 0) 3 2 tt) (mkAppState 0 []) (ex_id 1) (ex_id 0) 3). reflexivity.
Defined.
