(* ===== verification/Bcast.v ===== *)
(** What the two broadcast packages have in common (src/authenticatedbc and
    src/reliablebc hold a copy each): message authentication codes and the key
    of every pair of replicas (authmanager.go), and the sliding window in which
    the actors store their rounds (roundstorage.go, astorage.go, lstorage.go).

    HMAC and SHA-1 are those of Go's standard library. *)
From S2P Require Import Prelude Grp PaxosTypes.

(** * SHA-1 and HMAC *)

(** [n] bytes of [x], the most significant first. *)
Fixpoint be_bytes (n : nat) (x : Z) : bytes :=
  match n with O => [] | S n => Z.land (Z.shiftr x (8 * Z.of_nat n)) 255 :: be_bytes n x end.
Fixpoint be_word (bs : bytes) (acc : Z) : Z :=
  match bs with [] => acc | b :: bs => be_word bs (acc * 256 + b) end.
(** The low 32 bits. *)
Definition w32 (x : Z) : Z := Z.land x 4294967295.
Definition rotl (n x : Z) : Z := w32 (Z.lor (Z.shiftl x n) (Z.shiftr x (32 - n))).

(** The message, a one bit, zeros to 56 bytes modulo 64, and its bit length. *)
Definition sha1_pad (msg : bytes) : bytes :=
  msg ++ [128] ++ replicate (Z.to_nat ((55 - len msg) `mod` 64)) 0 ++ be_bytes 8 (u64 (8 * len msg)).

Fixpoint chunks (fuel : nat) (n : nat) (bs : bytes) : list bytes :=
  match fuel, bs with
  | S fuel, _ :: _ => take n bs :: chunks fuel n (drop n bs)
  | _, _ => []
  end.

(** The schedule, last word first. *)
Fixpoint sha1_extend (n : nat) (ws : list Z) : list Z :=
  match n with
  | O => ws
  | S n => sha1_extend n
      (rotl 1 (Z.lxor (Z.lxor (nth 2 ws 0) (nth 7 ws 0)) (Z.lxor (nth 13 ws 0) (nth 15 ws 0))) :: ws)
  end.

Definition sha1_f (t b c d : Z) : Z * Z :=
  if bool_decide (t < 20) then (Z.lor (Z.land b c) (Z.land (Z.lxor b 4294967295) d), 1518500249)
  else if bool_decide (t < 40) then (Z.lxor (Z.lxor b c) d, 1859775393)
  else if bool_decide (t < 60) then (Z.lor (Z.lor (Z.land b c) (Z.land b d)) (Z.land c d), 2400959708)
  else (Z.lxor (Z.lxor b c) d, 3395469782).

Fixpoint sha1_rounds (t : Z) (ws : list Z) (h : Z * Z * Z * Z * Z) : Z * Z * Z * Z * Z :=
  match ws with
  | [] => h
  | w :: ws =>
      let '(a, b, c, d, e) := h in
      let '(f, k) := sha1_f t b c d in
      sha1_rounds (t + 1) ws (w32 (rotl 5 a + f + e + k + w), a, rotl 30 b, c, d)
  end.

Definition sha1_block (h : Z * Z * Z * Z * Z) (block : bytes) : Z * Z * Z * Z * Z :=
  let ws := (λ c, be_word c 0) <$> chunks 16 4 block in
  let '(a0, b0, c0, d0, e0) := h in
  let '(a, b, c, d, e) := sha1_rounds 0 (rev (sha1_extend 64 (rev ws))) h in
  (w32 (a0 + a), w32 (b0 + b), w32 (c0 + c), w32 (d0 + d), w32 (e0 + e)).

Definition sha1 (msg : bytes) : bytes :=
  let p := sha1_pad msg in
  let '(a, b, c, d, e) :=
    foldl sha1_block (1732584193, 4023233417, 2562383102, 271733878, 3285377520) (chunks (length p) 64 p) in
  be_bytes 4 a ++ be_bytes 4 b ++ be_bytes 4 c ++ be_bytes 4 d ++ be_bytes 4 e.

Definition hmac_sha1 (key msg : bytes) : bytes :=
  let key := if bool_decide (64 < len key) then sha1 key else key in
  let key := key ++ replicate (64 - length key) 0 in
  sha1 ((Z.lxor 92 <$> key) ++ sha1 ((Z.lxor 54 <$> key) ++ msg)).

(** The test vectors of FIPS 180 and RFC 2202. *)
Example sha1_abc : sha1 (str_bytes "abc") = be_bytes 20 0xa9993e364706816aba3e25717850c26c9cd0d89d.
Proof. vm_compute. reflexivity. Qed.
Example sha1_empty : sha1 [] = be_bytes 20 0xda39a3ee5e6b4b0d3255bfef95601890afd80709.
Proof. vm_compute. reflexivity. Qed.
Example hmac_jefe : hmac_sha1 (str_bytes "Jefe") (str_bytes "what do ya want for nothing?") =
  be_bytes 20 0xeffcdf6ae5eb2fa2d27416d5f184df9c259a7c79.
Proof. vm_compute. reflexivity. Qed.

(** * The authentication manager (authmanager.go) *)

Record AuthManager := mkAuthManager { am_ID : ID; am_Keys : gmap Z bytes }.

(** [binary.Write] in little-endian order. *)
Definition hashToBytes (hash : Z) : bytes := reverse (be_bytes 4 hash).

(** [strconv.AppendInt(value, int64(rnd), 10)]. *)
Definition mac_input (value : bytes) (rnd : Z) : bytes := value ++ str_bytes (pretty (i64 rnd)).

(** A peer without a key is a map miss: the nil slice. *)
Definition generateMAC (au : AuthManager) (destID : ID) (value : bytes) (rnd : Z) : bytes :=
  if bool_decide (PxInt destID = PxInt (am_ID au)) then []
  else hmac_sha1 (default [] (am_Keys au !! PxInt destID)) (mac_input value rnd).

Definition checkMAC (au : AuthManager) (senderID : ID) (received value : bytes) (rnd : Z) : bool :=
  bool_decide (received = generateMAC au senderID value rnd).

(** * The window of rounds (roundstorage.go) *)

(** The [Inhabited] instance of a round type is its zero value. *)
Record Storage (A : Type) := mkStorage { st_rounds : list A; st_min : Z; st_length : Z }.
Arguments mkStorage {_}.
Arguments st_rounds {_}. Arguments st_min {_}. Arguments st_length {_}.
#[export] Instance eta_Storage A : Eta (Storage A) := λ r, mkStorage (st_rounds r) (st_min r) (st_length r).

Section storage.
Context {A : Type} `{Inhabited A}.
Implicit Types ls : Storage A.

Definition NewStorage (length : Z) : Storage A := mkStorage (replicate (Z.to_nat length) inhabitant) 0 length.

Definition reSlice ls : Storage A :=
  let i := st_length ls `div` 3 in
  ls <| st_rounds := drop (Z.to_nat i) (st_rounds ls) ++ replicate (Z.to_nat i) inhabitant |>
     <| st_min ::= λ m, u64 (m + i) |>.

(** The storage after [Get] and the index of the round it points to. *)
Definition Get ls (rnd : Z) : res (Storage A * Z) :=
  let ls := if bool_decide (rnd >= u64 (st_min ls + st_length ls)) then reSlice ls else ls in
  let i := u64 (rnd - st_min ls) in
  _ ← slice_get (st_rounds ls) i;
  mret (ls, i).

Definition IsValid ls (rnd : Z) : bool := bool_decide (rnd >= st_min ls).

(** Reading and writing through the pointer. *)
Definition st_read ls (i : Z) : A := default inhabitant (st_rounds ls !! Z.to_nat i).
Definition st_write ls (i : Z) (a : A) : Storage A := ls <| st_rounds ::= <[Z.to_nat i := a]> |>.

(** ** The window as a function from round numbers *)

Definition storage_wf ls : Prop :=
  len (st_rounds ls) = st_length ls ∧ 3 ≤ st_length ls < 2 ^ 61 ∧ 0 ≤ st_min ls < 2 ^ 62.

Definition in_window ls (rnd : Z) : Prop := st_min ls ≤ rnd < st_min ls + st_length ls.
#[export] Instance in_window_dec ls rnd : Decision (in_window ls rnd).
Proof. unfold in_window. apply _. Defined.

Definition round_of ls (rnd : Z) : A :=
  if decide (in_window ls rnd) then st_read ls (rnd - st_min ls) else inhabitant.

Lemma NewStorage_wf length : 3 ≤ length < 2 ^ 61 → storage_wf (NewStorage length).
Proof. intros. unfold storage_wf, NewStorage. cbn. rewrite length_replicate. lia. Qed.

Lemma st_read_zero (l : list A) i : (∀ k a, l !! k = Some a → a = inhabitant) → default inhabitant (l !! i) = inhabitant.
Proof. intros Hl. destruct (l !! i) eqn:E; [|done]. by eapply Hl. Qed.

Lemma round_of_new length rnd : round_of (NewStorage length) rnd = inhabitant.
Proof.
  unfold round_of, st_read, NewStorage. cbn. case_decide; [|done].
  apply st_read_zero. by intros k a [-> _]%lookup_replicate.
Qed.

Lemma reSlice_spec ls :
  storage_wf ls → st_min ls + st_length ls `div` 3 < 2 ^ 62 →
  storage_wf (reSlice ls) ∧ st_length (reSlice ls) = st_length ls ∧
  st_min (reSlice ls) = st_min ls + st_length ls `div` 3 ∧
  ∀ r, st_min (reSlice ls) ≤ r → round_of (reSlice ls) r = round_of ls r.
Proof.
  intros (Hl & Hlen & Hmin) Hb. pose proof (Z.div_pos (st_length ls) 3). pose proof (Z.div_lt (st_length ls) 3).
  assert (st_min (reSlice ls) = st_min ls + st_length ls `div` 3) as E by (cbn; apply u64_small; lia).
  split_and!; [split_and!; rewrite ?E; cbn; rewrite ?length_app, ?length_drop, ?length_replicate; lia|done|done|].
  intros r Hr. unfold round_of, st_read, in_window. rewrite E in *. cbn [reSlice st_length st_rounds update eta eta_Storage].
  set (k := st_length ls `div` 3) in *. destruct (decide (r < st_min ls + st_length ls)) as [Hi|Hi].
  - rewrite !decide_True by lia. f_equal. rewrite lookup_app_l by (rewrite length_drop; lia).
    rewrite lookup_drop. f_equal. lia.
  - rewrite (decide_False (P := st_min ls ≤ r < _)) by lia. case_decide; [|done].
    rewrite lookup_app_r by (rewrite length_drop; lia). apply st_read_zero. by intros ? ? [-> _]%lookup_replicate.
Qed.

Lemma slice_get_panic (l : list A) i : len l ≤ i → slice_get l i = Panic.
Proof. intros. unfold slice_get. case_decide; [|done]. by rewrite lookup_ge_None_2 by lia. Qed.

(** The storage a call of [Get] looks the round up in. *)
Definition slid ls (rnd : Z) : Storage A := if decide (rnd < st_min ls + st_length ls) then ls else reSlice ls.

Lemma slid_spec ls rnd :
  storage_wf ls → 0 ≤ rnd < 2 ^ 62 →
  storage_wf (slid ls rnd) ∧ st_length (slid ls rnd) = st_length ls ∧ st_min ls ≤ st_min (slid ls rnd) ∧
  ∀ r, st_min (slid ls rnd) ≤ r → round_of (slid ls rnd) r = round_of ls r.
Proof.
  intros Hw Hr. unfold slid. case_decide; [done|].
  pose proof Hw as (Hl & Hlen & Hmin).
  assert (0 ≤ st_length ls `div` 3 < st_length ls) by (split; [apply Z.div_pos|apply Z.div_lt]; lia).
  destruct (reSlice_spec ls Hw) as (R1 & R2 & R3 & R4); [lia|]. split_and!; try done. lia.
Qed.

Lemma Get_slid ls rnd :
  storage_wf ls → 0 ≤ rnd < 2 ^ 62 →
  Get ls rnd = if decide (in_window (slid ls rnd) rnd) then Ok (slid ls rnd, rnd - st_min (slid ls rnd)) else Panic.
Proof.
  intros Hw Hr. pose proof Hw as (Hl & Hlen & Hmin). destruct (slid_spec ls rnd Hw Hr) as ((Hl' & _ & Hmin') & E & _ & _).
  assert ((if bool_decide (rnd >= u64 (st_min ls + st_length ls)) then reSlice ls else ls) = slid ls rnd) as Es.
  { unfold slid. rewrite (u64_small (st_min ls + st_length ls)) by lia. case_bool_decide; case_decide; done || lia. }
  unfold Get. cbv zeta. rewrite Es. clear Es. unfold in_window. case_decide as Hi.
  - rewrite u64_small by lia. destruct (slice_get_total (st_rounds (slid ls rnd)) (rnd - st_min (slid ls rnd))) as [a ->]; [lia|done].
  - rewrite slice_get_panic; [done|]. destruct (decide (st_min (slid ls rnd) ≤ rnd)).
    + rewrite u64_small; lia.
    + unfold u64. rewrite <- (Z_mod_plus_full _ 1), Z.mod_small; lia.
Qed.

(** The window of [ls'] is that of [ls], perhaps moved up. *)
Record win_ext ls ls' : Prop := {
  we_wf : storage_wf ls';
  we_length : st_length ls' = st_length ls;
  we_min : st_min ls ≤ st_min ls';
  we_same : ∀ r, st_min ls' ≤ r → round_of ls' r = round_of ls r;
}.

Lemma win_ext_refl ls : storage_wf ls → win_ext ls ls.
Proof. by split. Qed.
Lemma win_ext_trans ls1 ls2 ls3 : win_ext ls1 ls2 → win_ext ls2 ls3 → win_ext ls1 ls3.
Proof.
  intros [W1 L1 M1 S1] [W2 L2 M2 S2]. split; [done|congruence|lia|]. intros r Hr. rewrite S2, S1; [done|lia|lia].
Qed.

Lemma Get_Ok ls rnd ls' i :
  storage_wf ls → 0 ≤ rnd < 2 ^ 62 → Get ls rnd = Ok (ls', i) →
  win_ext ls ls' ∧ in_window ls' rnd ∧ i = rnd - st_min ls'.
Proof.
  intros Hw Hr. rewrite Get_slid by done. case_decide as Hi; [|done]. intros [= <- <-].
  destruct (slid_spec ls rnd Hw Hr) as (R1 & R2 & R3 & R4). by split_and!.
Qed.

(** A round in the window is found where it is. *)
Lemma Get_in_window ls rnd :
  storage_wf ls → 0 ≤ rnd < 2 ^ 62 → in_window ls rnd → Get ls rnd = Ok (ls, rnd - st_min ls).
Proof.
  intros Hw Hr Hi. rewrite Get_slid by done. assert (slid ls rnd = ls) as -> by (unfold slid, in_window in *; by rewrite decide_True by lia).
  by rewrite decide_True.
Qed.

Lemma Get_total ls rnd :
  storage_wf ls → 0 ≤ rnd < 2 ^ 62 →
  is_ok (Get ls rnd) = true ↔ st_min ls ≤ rnd < st_min ls + st_length ls + st_length ls `div` 3.
Proof.
  intros Hw Hr. rewrite Get_slid by done. pose proof Hw as (Hl & Hlen & Hmin).
  assert (0 ≤ st_length ls `div` 3 < st_length ls) by (split; [apply Z.div_pos|apply Z.div_lt]; lia).
  assert (in_window (slid ls rnd) rnd ↔ st_min ls ≤ rnd < st_min ls + st_length ls + st_length ls `div` 3) as <-.
  { unfold in_window, slid. case_decide; [lia|]. destruct (reSlice_spec ls Hw) as (_ & -> & -> & _); lia. }
  by case_decide.
Qed.

Lemma read_round_of ls rnd : in_window ls rnd → st_read ls (rnd - st_min ls) = round_of ls rnd.
Proof. intros. unfold round_of. by rewrite decide_True. Qed.

Lemma write_wf ls i a : storage_wf ls → storage_wf (st_write ls i a).
Proof. intros (W1 & W2 & W3). unfold storage_wf, st_write. cbn. by rewrite length_insert. Qed.

Lemma round_of_write ls rnd a r :
  storage_wf ls → in_window ls rnd →
  round_of (st_write ls (rnd - st_min ls) a) r = if decide (r = rnd) then a else round_of ls r.
Proof.
  intros (Hl & _) Hi. unfold round_of, st_read, st_write. cbn [st_rounds st_min update eta eta_Storage].
  assert (∀ x, in_window (ls <| st_rounds ::= <[Z.to_nat (rnd - st_min ls):=a]> |>) x ↔ in_window ls x) as Hx by done.
  destruct (decide (r = rnd)) as [->|Hne].
  - rewrite decide_True by by rewrite Hx. unfold in_window in Hi. by rewrite list_lookup_insert_eq by lia.
  - rewrite (decide_ext _ _ _ _ (Hx r)). case_decide as Hr; [|done]. unfold in_window in Hi, Hr.
    by rewrite list_lookup_insert_ne by lia.
Qed.
End storage.

(** C19: the window of rounds: [Get] moves the window up by a third at most once,
    so it panics exactly for the rounds below the window and for those more
    than a third above it; otherwise it returns the round that was stored, and
    every round that stays in the window is unchanged. *)
Theorem storage_window (A : Type) (I : Inhabited A) (ls : Storage A) (rnd : Z) :
  storage_wf ls → 0 ≤ rnd < 2 ^ 62 →
  (is_ok (Get ls rnd) = true ↔ st_min ls ≤ rnd < st_min ls + st_length ls + st_length ls `div` 3) ∧
  ∀ ls' i, Get ls rnd = Ok (ls', i) →
    storage_wf ls' ∧ st_read ls' i = round_of ls rnd ∧ ∀ r, st_min ls' ≤ r → round_of ls' r = round_of ls r.
Proof.
  intros Hw Hr. split; [by apply Get_total|]. intros ls' i (We & Hi & ->)%Get_Ok; [|done|done].
  rewrite read_round_of by done. split; [apply We|]. split; [|apply We]. apply We, Hi.
Qed.

(** A window of six rounds that moves up for round 7, and cannot reach 8. *)
Definition window6 : Storage Z := mkStorage [10; 11; 12; 13; 14; 15] 0 6.
Lemma storage_window_witness :
  Get window6 7 = Ok (mkStorage [12; 13; 14; 15; 1; 1] 2 6, 5) ∧ is_ok (Get window6 8) = false ∧
  st_read (mkStorage [12; 13; 14; 15; 1; 1] 2 6) 5 = round_of window6 7.
Proof.
  assert (storage_wf window6) as Hw by (repeat split; cbn; lia).
  split; [vm_compute; reflexivity|]. split; [vm_compute; reflexivity|].
  apply (storage_window Z _ window6 7 Hw ltac:(lia)). vm_compute. reflexivity.
Defined.
