(* ===== verification/GoStrings.v ===== *)
(** The parts of Go's packages strings and strconv that the configuration and
    the key files are read with: [Split], [TrimSpace], [ToLower], [Atoi],
    [ParseBool], and decimal output ([pretty] of stdpp, for the verb [%d]).
    White space and letters are those of ASCII. *)
From Stdlib Require Import Ascii.
From stdpp Require Import pretty.
From S2P Require Import Prelude.


Definition is_space (c : ascii) : bool :=
  let n := nat_of_ascii c in bool_decide (9 <= n <= 13)%nat || bool_decide (n = 32)%nat.

(** * strings *)

(** [strings.Split] with a separator of one character. *)
Fixpoint split (sep : ascii) (s : string) : list string :=
  match s with
  | EmptyString => [""]
  | String c s =>
      if bool_decide (c = sep) then "" :: split sep s
      else match split sep s with
           | w :: ws => String c w :: ws
           | [] => [String c ""]
           end
  end.

Fixpoint trim_left (s : string) : string :=
  match s with
  | EmptyString => ""
  | String c s' => if is_space c then trim_left s' else s
  end.
Fixpoint trim_right (s : string) : string :=
  match s with
  | EmptyString => ""
  | String c s' => match trim_right s' with EmptyString => if is_space c then "" else String c "" | t => String c t end
  end.
Definition TrimSpace (s : string) : string := trim_right (trim_left s).

Definition to_lower_char (c : ascii) : ascii :=
  let n := nat_of_ascii c in if bool_decide (65 <= n <= 90)%nat then ascii_of_nat (n + 32) else c.
Fixpoint ToLower (s : string) : string :=
  match s with EmptyString => "" | String c s => String (to_lower_char c) (ToLower s) end.

(** * strconv *)

Definition digit_val (c : ascii) : option Z :=
  let n := nat_of_ascii c in if bool_decide (48 <= n <= 57)%nat then Some (Z.of_nat n - 48) else None.

Inductive UintRes := UOk (n : Z) | USyntax | URange.

(** The loop of [ParseUint] in base 10. *)
Fixpoint parse_digits (s : string) (n : Z) : UintRes :=
  match s with
  | EmptyString => UOk n
  | String c s =>
      match digit_val c with
      | None => USyntax
      | Some v => if bool_decide (n * 10 + v >= 2 ^ 64) then URange else parse_digits s (n * 10 + v)
      end
  end.
Definition ParseUint (s : string) : UintRes :=
  match s with EmptyString => USyntax | _ => parse_digits s 0 end.

(** [strconv.Atoi]: a value, which a range error has too, and whether there is
    an error. *)
Definition Atoi (s : string) : Z * bool :=
  let '(neg, digits) :=
    match s with
    | String c s' => if bool_decide (c = "+"%char) then (false, s') else if bool_decide (c = "-"%char) then (true, s') else (false, s)
    | EmptyString => (false, s)
    end in
  match ParseUint digits with
  | USyntax => (0, true)
  | URange => (if neg : bool then - 2 ^ 63 else 2 ^ 63 - 1, true)
  | UOk un =>
      if negb neg && bool_decide (un >= 2 ^ 63) then (2 ^ 63 - 1, true)
      else if neg && bool_decide (un > 2 ^ 63) then (- 2 ^ 63, true)
      else (if neg then - un else un, false)
  end.

Definition ParseBool (s : string) : option bool :=
  if bool_decide (s ∈ ["1"; "t"; "T"; "true"; "TRUE"; "True"]) then Some true
  else if bool_decide (s ∈ ["0"; "f"; "F"; "false"; "FALSE"; "False"]) then Some false
  else None.

(** * Characters of a string *)

(** [lacks c s]: the character [c] is not in [s]. *)
Fixpoint lacks (c : ascii) (s : string) : Prop :=
  match s with EmptyString => True | String d s => d ≠ c ∧ lacks c s end.
#[export] Instance lacks_dec c s : Decision (lacks c s).
Proof. induction s; cbn; apply _. Defined.

Lemma str_app_cons c a b : String c a +:+ b = String c (a +:+ b).
Proof. done. Qed.
Lemma lacks_app c a b : lacks c (a +:+ b) ↔ lacks c a ∧ lacks c b.
Proof. induction a as [|d a IH]; [naive_solver|]. rewrite str_app_cons. cbn [lacks]. rewrite IH. naive_solver. Qed.

(** * Split *)

Lemma split_not_nil sep s : split sep s ≠ [].
Proof. destruct s as [|c s]; cbn; [done|]. case_bool_decide; [done|]. by destruct (split sep s). Qed.

Lemma split_lacks sep s : lacks sep s → split sep s = [s].
Proof. induction s as [|c s IH]; [done|]. cbn. intros [Hc Hs]. by rewrite bool_decide_false, IH by done. Qed.

Lemma split_app sep a b : lacks sep a → split sep (a +:+ String sep b) = a :: split sep b.
Proof.
  induction a as [|c a IH]; [intros _; change (split sep (String sep b) = "" :: split sep b); cbn [split]; by rewrite bool_decide_true by done|].
  intros [Hc Ha]. rewrite str_app_cons. cbn [split]. rewrite bool_decide_false by done. by rewrite IH.
Qed.

(** [strings.Join] with a separator of one character. *)
Definition join (sep : ascii) (ws : list string) : string := String.concat (String sep "") ws.

Lemma join_cons sep w ws : ws ≠ [] → join sep (w :: ws) = w +:+ String sep (join sep ws).
Proof. by destruct ws. Qed.

Lemma split_join sep ws : ws ≠ [] → Forall (lacks sep) ws → split sep (join sep ws) = ws.
Proof.
  intros Hn Hl. induction Hl as [|w ws Hw Hl IH]; [done|]. destruct ws as [|w' ws]; [by apply split_lacks|].
  rewrite join_cons by done. rewrite split_app by done. by rewrite IH.
Qed.

(** * TrimSpace *)

(** A string without white space at its ends. *)
Definition trimmed (s : string) : Prop := TrimSpace s = s.

Lemma trim_right_app a b : trim_right b ≠ "" → trim_right (a +:+ b) = a +:+ trim_right b.
Proof.
  intros Hb. induction a as [|c a IH]; [done|]. rewrite !str_app_cons. cbn [trim_right]. rewrite IH.
  destruct a; [|done]. change ("" +:+ trim_right b) with (trim_right b). by destruct (trim_right b).
Qed.

Lemma TrimSpace_space c s : is_space c = true → TrimSpace (String c s) = TrimSpace s.
Proof. intros Hc. unfold TrimSpace. cbn. by rewrite Hc. Qed.

Lemma trim_left_nonspace c s : is_space c = false → trim_left (String c s) = String c s.
Proof. intros Hc. cbn. by rewrite Hc. Qed.

(** * Numbers *)

Lemma digit_val_pretty x : (x < 10)%N → digit_val (pretty_N_char x) = Some (Z.of_N x).
Proof.
  intros Hx. assert (x = 0 ∨ x = 1 ∨ x = 2 ∨ x = 3 ∨ x = 4 ∨ x = 5 ∨ x = 6 ∨ x = 7 ∨ x = 8 ∨ x = 9)%N as Hc by lia.
  repeat destruct Hc as [->|Hc]; try reflexivity. by rewrite Hc.
Qed.

Lemma parse_digits_cons x s n : (x < 10)%N → n * 10 + Z.of_N x < 2 ^ 64 →
  parse_digits (String (pretty_N_char x) s) n = parse_digits s (n * 10 + Z.of_N x).
Proof. intros Hx Hn. cbn [parse_digits]. rewrite digit_val_pretty by done. by rewrite bool_decide_false by lia. Qed.

Lemma parse_pretty_go x s : (Z.of_N x < 2 ^ 64) → parse_digits (pretty_N_go x s) 0 = parse_digits s (Z.of_N x).
Proof.
  revert s. induction (N.lt_wf_0 x) as [x _ IH]; intros s Hx.
  destruct (decide (x = 0)%N) as [->|Hn]; [by rewrite pretty_N_go_0|].
  rewrite pretty_N_go_step by lia. pose proof (N.div_mod x 10). pose proof (N.mod_lt x 10).
  assert (x `div` 10 < x)%N by (apply N.div_lt; lia).
  rewrite IH by lia. rewrite parse_digits_cons by lia. f_equal. lia.
Qed.

Lemma pretty_go_nonempty x s : (0 < x)%N ∨ s ≠ "" → pretty_N_go x s ≠ "".
Proof.
  revert s. induction (N.lt_wf_0 x) as [x _ IH]; intros s Hx.
  destruct (decide (x = 0)%N) as [->|Hn]; [rewrite pretty_N_go_0; destruct Hx; [lia|done]|].
  rewrite pretty_N_go_step by lia. apply IH; [apply N.div_lt; lia|by right].
Qed.

Lemma ParseUint_pretty (x : N) : Z.of_N x < 2 ^ 64 → ParseUint (pretty x) = UOk (Z.of_N x).
Proof.
  intros Hx. unfold pretty, pretty_N. case_decide as H0; [by subst|].
  pose proof (pretty_go_nonempty x "" ltac:(left; lia)) as Hne. unfold ParseUint.
  destruct (pretty_N_go x "") as [|c s] eqn:E; [done|]. rewrite <- E. by rewrite parse_pretty_go.
Qed.

Lemma is_digit_pretty_char c x : digit_val c = None → pretty_N_char x ≠ c.
Proof. intros Hc <-. unfold pretty_N_char in Hc. by repeat case_match. Qed.

Lemma lacks_pretty_go c x s : digit_val c = None → lacks c s → lacks c (pretty_N_go x s).
Proof.
  intros Hc. revert s. induction (N.lt_wf_0 x) as [x _ IH]; intros s Hs.
  destruct (decide (x = 0)%N) as [->|Hn]; [by rewrite pretty_N_go_0|].
  rewrite pretty_N_go_step by lia. apply IH; [apply N.div_lt; lia|]. split; [by apply is_digit_pretty_char|done].
Qed.
Lemma lacks_pretty_N c (x : N) : digit_val c = None → lacks c (pretty x).
Proof.
  intros Hc. unfold pretty, pretty_N. case_decide; [|by apply lacks_pretty_go]. cbn. split; [|done]. intros <-. by vm_compute in Hc.
Qed.
Lemma lacks_pretty c (z : Z) : digit_val c = None → c ≠ "-"%char → lacks c (pretty z).
Proof.
  intros Hc Hm. destruct z as [|p|p]; cbn.
  - split; [|done]. intros <-. by vm_compute in Hc.
  - by apply lacks_pretty_N.
  - split; [done|]. by apply lacks_pretty_N.
Qed.
Lemma lacks_pretty_nonneg c (z : Z) : digit_val c = None → 0 <= z → lacks c (pretty z).
Proof.
  intros Hc Hz. destruct z as [|p|p]; [|by apply lacks_pretty_N|lia]. cbn. split; [|done]. intros <-. by vm_compute in Hc.
Qed.

(** Decimal output is read back. *)
Lemma Atoi_pretty z : - 2 ^ 63 <= z < 2 ^ 63 → Atoi (pretty z) = (z, false).
Proof.
  intros Hz. destruct z as [|p|p].
  - reflexivity.
  - change (pretty (Zpos p)) with (pretty (Npos p)).
    pose proof (lacks_pretty_N "+"%char (Npos p) eq_refl) as Hp. pose proof (lacks_pretty_N "-"%char (Npos p) eq_refl) as Hm.
    pose proof (ParseUint_pretty (Npos p) ltac:(lia)) as Hu. unfold Atoi.
    destruct (pretty (Npos p)) as [|c s]; [done|]. cbn in Hp, Hm. rewrite !bool_decide_false by naive_solver.
    rewrite Hu. cbn [negb andb]. by rewrite bool_decide_false by lia.
  - change (pretty (Zneg p)) with (String "-" (pretty (Npos p))). unfold Atoi.
    rewrite bool_decide_false, bool_decide_true by done. rewrite ParseUint_pretty by lia. cbn [negb andb].
    rewrite bool_decide_false by lia. done.
Qed.
