(* ===== verification/Keys.v ===== *)
(** The keys of the broadcast protocols (src/authenticatedbc/keymanager.go, of
    which src/reliablebc holds a copy): a key for every pair of nodes, the JSON
    file that holds them, and the keys that a node takes from it, with the
    constructor of the authentication manager that uses them.

    JSON is a parameter, a pair of functions of which the theorems assume that
    maps of strings of letters, digits and hyphens are read back. A file is its
    contents, or nothing when it cannot be read; [rand] is what [rand.Read]
    yields in the iteration for a pair of nodes. *)
From Stdlib Require Import Ascii.
From S2P Require Import Prelude Grp PaxosTypes Bcast GoStrings.

(** * Hexadecimal (encoding/hex, as in Go 1.3) *)

Definition hextable : list ascii := String.list_ascii_of_string "0123456789abcdef".
Definition hex_char (z : Z) : ascii := nth (Z.to_nat z) hextable "0"%char.
Fixpoint hex_EncodeToString (b : bytes) : string :=
  match b with
  | [] => ""
  | x :: b => String (hex_char (x `div` 16)) (String (hex_char (x `mod` 16)) (hex_EncodeToString b))
  end.

Definition fromHexChar (c : ascii) : option Z :=
  let n := Z.of_nat (nat_of_ascii c) in
  if bool_decide (48 <= n <= 57) then Some (n - 48)
  else if bool_decide (97 <= n <= 102) then Some (n - 97 + 10)
  else if bool_decide (65 <= n <= 70) then Some (n - 65 + 10)
  else None.
(** [None] is an error, with which the slice returned is nil. *)
Fixpoint hex_DecodeString (s : string) : option bytes :=
  match s with
  | EmptyString => Some []
  | String _ EmptyString => None
  | String c (String d s) =>
      a ← fromHexChar c; b ← fromHexChar d; rest ← hex_DecodeString s; Some (16 * a + b :: rest)
  end.

Lemma fromHexChar_hex_char z : 0 <= z < 16 → fromHexChar (hex_char z) = Some z.
Proof.
  intros Hz. assert (z ∈ seqZ 0 16) as Hin by (apply elem_of_seqZ; lia). revert z Hz Hin.
  assert (Forall (λ z, fromHexChar (hex_char z) = Some z) (seqZ 0 16)) as Ha by (repeat constructor).
  intros z _ Hin. by apply (proj1 (Forall_forall _ _) Ha).
Qed.
Lemma hex_roundtrip b : Forall (λ x, 0 <= x < 256) b → hex_DecodeString (hex_EncodeToString b) = Some b.
Proof.
  induction 1 as [|x b Hx _ IH]; [done|]. cbn [hex_EncodeToString hex_DecodeString].
  pose proof (Z.div_mod x 16). pose proof (Z.mod_pos_bound x 16). assert (0 <= x `div` 16 < 16) by (split; [apply Z.div_pos; lia|apply Z.div_lt_upper_bound; lia]).
  rewrite !fromHexChar_hex_char by lia. cbn. rewrite IH. cbn. do 2 f_equal. lia.
Qed.

(** * Generating keys *)

(** [fmt.Sprintf("%d%s%d", i, "-", j)] *)
Definition key_name (i j : Z) : string := pretty i +:+ "-" +:+ pretty j.

(** The body of the loops; [None] when the function has returned an error. *)
Definition gen_key (keyStrength : Z) (rand : Z → Z → option bytes) (i : Z) (st : option (gmap string bytes)) (j : Z)
    : res (option (gmap string bytes)) :=
  match st with
  | None => mret None
  | Some keys =>
      if bool_decide (keyStrength < 0) then Panic
      else match rand i j with
           | None => mret None
           | Some key => mret (Some (<[key_name i j := key]> keys))
           end
  end.
Definition generateKeys (nodes keyStrength : Z) (rand : Z → Z → option bytes) : res (option (gmap string bytes)) :=
  foldM (λ st i, foldM (gen_key keyStrength rand i) st (range (i + 1) nodes)) (Some ∅) (range 0 (nodes - 1)).

Section keymanager.
Context {RO : RangeOrder} {RL : RangeOrderLaws RO}.
Context (json_Marshal : gmap string string → option string) (json_Unmarshal : string → option (gmap string string)).

(** The contents of the file, when no error is returned; [created], [written]
    and [closed] tell what the file system does. *)
Definition writeJSON (keys : gmap string bytes) (created written closed : bool) : option string :=
  if negb created then None
  else
    let store := range_collect 0 (λ _ v, Some (hex_EncodeToString v)) keys ∅ in
    b ← json_Marshal store;
    if negb written then None else if negb closed then None else Some b.

(** The error that the loop leaves is that of its last iteration. *)
Definition readJSON (file : option string) : option (gmap string bytes) :=
  buf ← file;
  store ← json_Unmarshal buf;
  let '(keys, err) := foldl (λ '(keys, _) '(k, v), (<[k := default [] (hex_DecodeString v)]> keys, bool_decide (hex_DecodeString v = None)))
                        (∅ : gmap string bytes, false) (range_order 0 store) in
  if err : bool then None else Some keys.

Definition key_step (id : ID) (st : option (gmap Z bytes)) (kv : string * bytes) : res (option (gmap Z bytes)) :=
  match st with
  | None => mret None
  | Some keys =>
      let '(k, v) := kv in
      let sl := split "-"%char k in
      s0 ← slice_get sl 0;
      let '(a, _) := Atoi s0 in
      s1 ← slice_get sl 1;
      let '(b, err) := Atoi s1 in
      if err : bool then mret None
      else if bool_decide (a = PxInt id) then mret (Some (<[b := v]> keys))
      else if bool_decide (b = PxInt id) then mret (Some (<[a := v]> keys))
      else mret (Some keys)
  end.

(** The keys and whether there is an error. *)
Definition KeysByID (id : ID) (file : option string) : res (gmap Z bytes * bool) :=
  let allKeys := readJSON file in
  st ← foldM (key_step id) (Some ∅) (range_order 0 (default ∅ allKeys));
  match st with
  | None => mret (∅, true)
  | Some keys => mret (keys, bool_decide (allKeys = None))
  end.

(** Errors are logged and the keys used as they are (authmanager.go). *)
Definition NewAuthManager (id : ID) (file : option string) : res AuthManager :=
  '(keys, _) ← KeysByID id file; mret (mkAuthManager id keys).

(** * Key names *)

Lemma split_key_name i j : 0 <= i → 0 <= j → split "-"%char (key_name i j) = [pretty i; pretty j].
Proof.
  intros Hi Hj. unfold key_name. change ("-" +:+ pretty j) with (String "-" (pretty j)).
  rewrite split_app by (by apply lacks_pretty_nonneg). by rewrite split_lacks by (by apply lacks_pretty_nonneg).
Qed.
Lemma key_name_inj i j i' j' : 0 <= i → 0 <= j → 0 <= i' → 0 <= j' → key_name i j = key_name i' j' → i = i' ∧ j = j'.
Proof.
  intros ? ? ? ? E. apply (f_equal (split "-"%char)) in E. rewrite !split_key_name in E by done.
  injection E as E1 E2. apply (inj pretty) in E1, E2. done.
Qed.

Lemma key_step_name id keys i j v : 0 <= i < 2 ^ 63 → 0 <= j < 2 ^ 63 →
  key_step id (Some keys) (key_name i j, v) =
    Ok (Some (if bool_decide (i = PxInt id) then <[j := v]> keys else if bool_decide (j = PxInt id) then <[i := v]> keys else keys)).
Proof.
  intros Hi Hj. unfold key_step. rewrite split_key_name by lia. cbv zeta.
  change (slice_get [pretty i; pretty j] 0) with (Ok (pretty i)). change (slice_get [pretty i; pretty j] 1) with (Ok (pretty j)). cbn [mbind res_bind].
  rewrite (Atoi_pretty i), (Atoi_pretty j) by lia. by repeat case_bool_decide.
Qed.

(** * What the generator produces *)

Lemma foldM_bind {A B S} (f : A → S → B → res S) (g : A → list B) (l : list A) s :
  foldM (λ s a, foldM (f a) s (g a)) s l = foldM (λ s '(a, b), f a s b) s (l ≫= λ a, (λ b, (a, b)) <$> g a).
Proof.
  revert s. induction l as [|a l IH]; intros s; [done|]. cbn. rewrite foldM_app.
  assert (foldM (λ s '(a, b), f a s b) s ((λ b, (a, b)) <$> g a) = foldM (f a) s (g a)) as ->.
  { generalize (g a) as bs. intros bs. revert s. induction bs as [|b bs IHb]; intros s; [done|]. cbn. destruct (f a s b); cbn; [apply IHb|done..]. }
  destruct (foldM (f a) s (g a)); cbn; [apply IH|done..].
Qed.

Definition pairs (nodes : Z) : list (Z * Z) := range 0 (nodes - 1) ≫= λ i, (λ j, (i, j)) <$> range (i + 1) nodes.
Lemma elem_of_pairs nodes i j : (i, j) ∈ pairs nodes ↔ 0 <= i < j ∧ j < nodes.
Proof.
  unfold pairs. rewrite list_elem_of_bind. split.
  - intros (k & (j' & [= -> ->] & Hj)%list_elem_of_fmap & Hk). apply elem_of_range in Hj, Hk. lia.
  - intros H. exists i. split; [|apply elem_of_range; lia]. apply list_elem_of_fmap. exists j. split; [done|]. apply elem_of_range. lia.
Qed.

Lemma generateKeys_spec nodes keyStrength rand keys : generateKeys nodes keyStrength rand = Ok (Some keys) →
  ∀ k v, keys !! k = Some v ↔ ∃ i j, 0 <= i < j ∧ j < nodes ∧ k = key_name i j ∧ rand i j = Some v.
Proof.
  unfold generateKeys. rewrite (foldM_bind (gen_key keyStrength rand)). fold (pairs nodes). intros Hr k v.
  assert (match Some keys with None => True | Some m => ∀ k v, m !! k = Some v ↔ ∃ i j, (i, j) ∈ pairs nodes ∧ k = key_name i j ∧ rand i j = Some v end) as Hm.
  { refine (foldM_inv (λ pre st, match st with None => True | Some m => ∀ k v, m !! k = Some v ↔ ∃ i j, (i, j) ∈ pre ∧ k = key_name i j ∧ rand i j = Some v end)
      (λ s '(a, b), gen_key keyStrength rand a s b) (pairs nodes) _ (Some ∅) (Some keys) _ Hr).
    - intros pre [i j] post st st' El Hst Hs. destruct st as [m|]; [|by injection Hs as <-]. cbn in Hs. case_bool_decide; [done|].
      destruct (rand i j) as [key|] eqn:Hk; [|by injection Hs as <-]. injection Hs as <-. intros k1 v1.
      assert (∀ i' j', (i', j') ∈ pre ++ [(i, j)] → 0 <= i' < j') as Hp.
      { intros i' j' Hin. assert ((i', j') ∈ pairs nodes) as Hx%elem_of_pairs by (rewrite El, elem_of_app in *; set_solver). lia. }
      rewrite lookup_insert_Some, Hst. split.
      + intros [[<- <-]|[Hne (i' & j' & Hin & -> & Hv)]]; [exists i, j|exists i', j']; (split; [|done]); set_solver.
      + intros (i' & j' & Hin & -> & Hv). destruct (decide ((i', j') = (i, j))) as [[= -> ->]|Hne].
        * left. split; [done|congruence].
        * right. split; [|exists i', j'; split; [set_solver|done]].
          intros (-> & ->)%key_name_inj; [done|..]; (destruct (Hp i' j' Hin)||idtac); pose proof (Hp i j ltac:(set_solver)); lia.
    - intros k1 v1. rewrite lookup_empty. split; [done|]. intros (? & ? & Hin & _). by apply elem_of_nil in Hin. }
  cbn in Hm. rewrite Hm. split; intros (i & j & H1 & H2); exists i, j.
  - apply elem_of_pairs in H1. naive_solver.
  - rewrite elem_of_pairs. naive_solver.
Qed.

(** * The file *)

(** What the documentation of encoding/json promises is needed for such strings
    only. *)
Definition plain_char (c : ascii) : bool := bool_decide (c ∈ "-"%char :: hextable).
Definition plain (s : string) : Prop := Forall (λ c, plain_char c = true) (String.list_ascii_of_string s).
Definition json_law : Prop := ∀ (m : gmap string string) b,
  (∀ k v, m !! k = Some v → plain k ∧ plain v) → json_Marshal m = Some b → json_Unmarshal b = Some m.

Lemma plain_cons c s : plain_char c = true → plain s → plain (String c s).
Proof. intros. by apply Forall_cons. Qed.
Lemma plain_app a b : plain a → plain b → plain (a +:+ b).
Proof. intros Ha Hb. induction a as [|c a IH]; [done|]. apply Forall_cons in Ha as [Hc Ha]. rewrite str_app_cons. apply plain_cons; auto. Qed.
Lemma plain_hex_char z : plain_char (hex_char z) = true.
Proof.
  apply bool_decide_eq_true. right. unfold hex_char. destruct (nth_in_or_default (Z.to_nat z) hextable "0"%char) as [Hin| ->].
  - by apply list_elem_of_In.
  - apply (bool_decide_unpack _). by vm_compute.
Qed.
Lemma plain_hex b : plain (hex_EncodeToString b).
Proof. induction b as [|x b IH]; [constructor|]. cbn [hex_EncodeToString]. do 2 (apply plain_cons; [apply plain_hex_char|]). done. Qed.
Lemma plain_pretty_go x s : plain s → plain (pretty_N_go x s).
Proof.
  revert s. induction (N.lt_wf_0 x) as [x _ IH]; intros s Hs. destruct (decide (x = 0)%N) as [->|Hn]; [by rewrite pretty_N_go_0|].
  rewrite pretty_N_go_step by lia. apply IH; [apply N.div_lt; lia|]. apply plain_cons; [|done].
  unfold pretty_N_char. by repeat case_match.
Qed.
Lemma plain_pretty_N (x : N) : plain (pretty x).
Proof. unfold pretty, pretty_N. case_decide; [repeat constructor|]. apply plain_pretty_go. constructor. Qed.
Lemma plain_pretty z : 0 <= z → plain (pretty z).
Proof. intros Hz. destruct z as [|p|p]; [repeat constructor|apply plain_pretty_N|lia]. Qed.
Lemma plain_key_name i j : 0 <= i → 0 <= j → plain (key_name i j).
Proof. intros. unfold key_name. apply plain_app; [by apply plain_pretty|]. apply plain_cons; [done|]. by apply plain_pretty. Qed.

(** The loop of [readJSON], when every key can be decoded. *)
Lemma read_loop (dec : string → option bytes) (l : list (string * string)) keys :
  (∀ k v, (k, v) ∈ l → dec v ≠ None) →
  foldl (λ '(keys, _) '(k, v), (<[k := default [] (dec v)]> keys, bool_decide (dec v = None))) (keys : gmap string bytes, false) l =
    (foldl (λ acc '(k, v), match Some (default [] (dec v)) with Some b => <[k := b]> acc | None => acc end) keys l, false).
Proof.
  revert keys. induction l as [|[k v] l IH]; intros keys Hl; [done|]. cbn [foldl].
  rewrite (bool_decide_false (dec v = None)) by (apply (Hl k); constructor). apply IH. intros. eapply Hl. by constructor.
Qed.

Lemma readJSON_writeJSON keys b : json_law →
  (∀ k v, keys !! k = Some v → plain k ∧ Forall (λ x, 0 <= x < 256) v) →
  writeJSON keys true true true = Some b → readJSON (Some b) = Some keys.
Proof.
  intros Hj Hk Hw. unfold writeJSON in Hw. cbn [negb] in Hw. apply bind_Some in Hw as (b' & Hm & [= ->]).
  set (store := range_collect 0 (λ _ v, Some (hex_EncodeToString v)) keys ∅) in *.
  assert (∀ k, store !! k = hex_EncodeToString <$> keys !! k) as Hs.
  { intros k. unfold store. rewrite lookup_range_collect. by destruct (keys !! k). }
  assert (∀ k v, store !! k = Some v → ∃ x, keys !! k = Some x ∧ v = hex_EncodeToString x ∧ hex_DecodeString v = Some x) as Hd.
  { intros k v Hv. rewrite Hs in Hv. apply fmap_Some in Hv as (x & Hx & ->). exists x. split_and!; [done..|]. apply hex_roundtrip. by eapply Hk. }
  apply Hj in Hm; [|intros k v Hv; destruct (Hd k v Hv) as (x & Hx & -> & _); split; [by eapply Hk|apply plain_hex]].
  unfold readJSON. cbn [mbind option_bind]. rewrite Hm. cbn [mbind option_bind].
  rewrite read_loop.
  - f_equal. apply map_eq. intros k.
    change (range_collect 0 (λ _ v, Some (default [] (hex_DecodeString v))) store ∅ !! k = keys !! k).
    rewrite lookup_range_collect. destruct (store !! k) as [v|] eqn:Hv.
    + destruct (Hd k v Hv) as (x & -> & _ & Hx). cbn. by rewrite Hx.
    + cbn. rewrite Hs in Hv. by apply fmap_None in Hv.
  - intros k v Hin%elem_of_range_order. destruct (Hd k v Hin) as (x & _ & _ & ->). done.
Qed.

(** * The keys of a node *)

(** The key of a pair, whichever of the two asks. *)
Definition pair_key (rand : Z → Z → option bytes) (i j : Z) : option bytes := rand (Z.min i j) (Z.max i j).

Lemma key_steps id rand nodes (l : list (string * bytes)) m0 :
  nodes <= 2 ^ 63 → 0 <= PxInt id →
  (∀ k v, (k, v) ∈ l → ∃ i j, 0 <= i < j ∧ j < nodes ∧ k = key_name i j ∧ rand i j = Some v) →
  (∀ b v, m0 !! b = Some v → 0 <= b < nodes ∧ b ≠ PxInt id ∧ pair_key rand (PxInt id) b = Some v) →
  ∃ m, foldM (key_step id) (Some m0) l = Ok (Some m) ∧
    (∀ b v, m !! b = Some v → 0 <= b < nodes ∧ b ≠ PxInt id ∧ pair_key rand (PxInt id) b = Some v) ∧
    (∀ b, is_Some (m0 !! b) → is_Some (m !! b)) ∧
    ∀ i j v, 0 <= i < j → j < nodes → (key_name i j, v) ∈ l → (i = PxInt id → is_Some (m !! j)) ∧ (j = PxInt id → is_Some (m !! i)).
Proof.
  intros Hn Hid. revert m0. induction l as [|[k v] l IH]; intros m0 Hl Hm0.
  { exists m0. split_and!; [done..|]. intros i j v _ _ Hin. by apply elem_of_nil in Hin. }
  destruct (Hl k v) as (i & j & Hij & Hj & -> & Hv); [constructor|]. cbn [foldM]. rewrite key_step_name by lia. cbn [mbind res_bind].
  set (m1 := if bool_decide (i = PxInt id) then _ else _).
  destruct (IH m1) as (m & Hm & H1 & H2 & H3).
  - intros k1 v1 Hin. apply Hl. by constructor.
  - intros b w. unfold m1, pair_key. repeat case_bool_decide; rewrite ?lookup_insert_Some; intros Hb; try (by apply Hm0).
    + destruct Hb as [[<- <-]|[_ Hb]]; [|by apply Hm0]. subst. split_and!; [lia..|]. by rewrite Z.min_l, Z.max_r by lia.
    + destruct Hb as [[<- <-]|[_ Hb]]; [|by apply Hm0]. subst. split_and!; [lia..|]. by rewrite Z.min_r, Z.max_l by lia.
  - exists m. split_and!; [done..| |].
    + intros b Hb. apply H2. unfold m1. repeat case_bool_decide; rewrite ?lookup_insert_is_Some'; auto.
    + intros i' j' v' Hij' Hj' [[= E ->]|Hin]%elem_of_cons; [|by eapply H3].
      apply key_name_inj in E as [-> ->]; [|lia..].
      split; intros E; apply H2; unfold m1.
      * rewrite bool_decide_true by done. rewrite lookup_insert_is_Some'. by left.
      * rewrite bool_decide_false by lia. rewrite bool_decide_true by done. rewrite lookup_insert_is_Some'. by left.
Qed.

Lemma KeysByID_generated nodes keyStrength rand keys file id :
  json_law → nodes <= 2 ^ 63 → (∀ i j key, rand i j = Some key → Forall (λ x, 0 <= x < 256) key) →
  generateKeys nodes keyStrength rand = Ok (Some keys) → writeJSON keys true true true = Some file → 0 <= PxInt id < nodes →
  ∃ m, KeysByID id (Some file) = Ok (m, false) ∧
    ∀ b, m !! b = if decide (0 <= b < nodes ∧ b ≠ PxInt id) then pair_key rand (PxInt id) b else None.
Proof.
  intros Hj Hn Hb Hg Hw Hid. pose proof (generateKeys_spec _ _ _ _ Hg) as Hk.
  assert (readJSON (Some file) = Some keys) as Hr.
  { apply readJSON_writeJSON; [done| |done]. intros k v (i & j & ? & ? & -> & Hv)%Hk. split; [apply plain_key_name; lia|by eapply Hb]. }
  destruct (key_steps id rand nodes (range_order 0 keys) ∅) as (m & Hm & H1 & _ & H3); [done|lia| |by intros|].
  { intros k v Hin%elem_of_range_order. by apply Hk. }
  exists m. split; [unfold KeysByID; rewrite Hr; change (default ∅ (Some keys)) with keys; rewrite Hm; done|].
  intros b. case_decide as Hbn.
  - destruct (pair_key rand (PxInt id) b) as [v|] eqn:Hv.
    + assert (is_Some (m !! b)) as [w Hw'].
      { destruct (Z_lt_ge_dec (PxInt id) b).
        - apply (H3 (PxInt id) b v); [lia..| |done]. apply elem_of_range_order, Hk. exists (PxInt id), b. split_and!; [lia..|done|].
          unfold pair_key in Hv. by rewrite Z.min_l, Z.max_r in Hv by lia.
        - apply (H3 b (PxInt id) v); [lia..| |done]. apply elem_of_range_order, Hk. exists b, (PxInt id). split_and!; [lia..|done|].
          unfold pair_key in Hv. by rewrite Z.min_r, Z.max_l in Hv by lia. }
      rewrite Hw'. destruct (H1 b w Hw') as (_ & _ & E). congruence.
    + destruct (m !! b) as [w|] eqn:Hw'; [|done]. destruct (H1 b w Hw') as (_ & _ & E). congruence.
  - destruct (m !! b) as [w|] eqn:Hw'; [|done]. destruct (H1 b w Hw') as (? & ? & _). exfalso. by apply Hbn.
Qed.

(** C35: Every node of a group with a generated key file gets the key of each of its
    pairs, so that what one node authenticates for another the other accepts. *)
Theorem generated_keys_verify nodes keyStrength rand keys file (i j : ID) ai value rnd :
  json_law → nodes <= 2 ^ 63 → (∀ i j key, rand i j = Some key → Forall (λ x, 0 <= x < 256) key) →
  generateKeys nodes keyStrength rand = Ok (Some keys) → writeJSON keys true true true = Some file →
  0 <= PxInt i < nodes → 0 <= PxInt j < nodes →
  NewAuthManager i (Some file) = Ok ai →
  ∃ aj, NewAuthManager j (Some file) = Ok aj ∧ am_Keys ai !! PxInt j = am_Keys aj !! PxInt i ∧
    (PxInt i ≠ PxInt j → am_Keys ai !! PxInt j = pair_key rand (PxInt i) (PxInt j)) ∧
    checkMAC aj i (generateMAC ai j value rnd) value rnd = true.
Proof.
  intros Hj Hn Hb Hg Hw Hi Hjj Hai. unfold NewAuthManager in *.
  destruct (KeysByID_generated nodes keyStrength rand keys file i) as (mi & Hmi & Hli); [done..|].
  destruct (KeysByID_generated nodes keyStrength rand keys file j) as (mj & Hmj & Hlj); [done..|].
  rewrite Hmi in Hai. injection Hai as <-. rewrite Hmj. exists (mkAuthManager j mj). split; [done|]. cbn [am_Keys].
  assert (mi !! PxInt j = mj !! PxInt i) as E.
  { rewrite Hli, Hlj. unfold pair_key. rewrite (Z.min_comm (PxInt j)), (Z.max_comm (PxInt j)). repeat case_decide; naive_solver. }
  split; [done|]. split; [intros Hne; rewrite Hli; by rewrite decide_True|].
  unfold checkMAC, generateMAC. cbn [am_ID am_Keys]. rewrite E. apply bool_decide_eq_true.
  destruct (decide (PxInt i = PxInt j)); [by rewrite !bool_decide_true|by rewrite !bool_decide_false].
Qed.
End keymanager.

(** * What goes wrong unnoticed *)

Section errors.
Context {RO : RangeOrder} {RL : RangeOrderLaws RO} (json_Unmarshal : string → option (gmap string string)).

(** Without a key file every message is authenticated with the empty key, which
    anyone can do. *)
Theorem missing_keys_are_empty id j value rnd :
  ∃ au, NewAuthManager json_Unmarshal id None = Ok au ∧ KeysByID json_Unmarshal id None = Ok (∅, true) ∧
    (PxInt j ≠ PxInt id → generateMAC au j value rnd = hmac_sha1 [] (mac_input value rnd)).
Proof.
  assert (range_order 0 (∅ : gmap string bytes) = []) as He.
  { apply Permutation_nil_r. rewrite range_order_perm. by rewrite map_to_list_empty. }
  assert (KeysByID json_Unmarshal id None = Ok (∅, true)) as Hk by (unfold KeysByID; cbn; by rewrite He).
  exists (mkAuthManager id ∅). split; [unfold NewAuthManager; by rewrite Hk|]. split; [done|].
  intros Hne. unfold generateMAC. cbn [am_ID am_Keys]. rewrite bool_decide_false by done. by rewrite lookup_empty.
Qed.

(** A key's name needs a hyphen, or the program panics; an error in its first
    number is lost with the second one, and the key becomes one of node 0. *)
Theorem key_name_errors id keys a j v :
  lacks "-"%char a → Atoi a = (0, true) → 0 <= j < 2 ^ 63 →
  key_step id (Some keys) (a, v) = Panic ∧
  (PxInt id = 0 → key_step id (Some keys) (a +:+ "-" +:+ pretty j, v) = Ok (Some (<[j := v]> keys))).
Proof.
  intros Ha He Hj. split.
  - unfold key_step. rewrite split_lacks by done. cbv zeta. change (slice_get [a] 0) with (Ok a). change (slice_get [a] 1) with (@Panic string).
    cbn [mbind res_bind]. by rewrite He.
  - intros H0. unfold key_step. change ("-" +:+ pretty j) with (String "-" (pretty j)). rewrite split_app by done.
    rewrite split_lacks by (apply lacks_pretty_nonneg; [done|lia]). cbv zeta.
    change (slice_get [a; pretty j] 0) with (Ok a). change (slice_get [a; pretty j] 1) with (Ok (pretty j)). cbn [mbind res_bind].
    rewrite He, (Atoi_pretty j) by lia. by rewrite bool_decide_true.
Qed.
End errors.

(** * Examples *)

(** Four nodes; JSON as a numbering of the maps of strings. *)
Fixpoint pos_string (p : positive) : string :=
  match p with xH => "" | xO p => String "0" (pos_string p) | xI p => String "1" (pos_string p) end.
Fixpoint string_pos (s : string) : positive :=
  match s with EmptyString => xH | String c s => if bool_decide (c = "0"%char) then xO (string_pos s) else xI (string_pos s) end.
Definition ex_Marshal (m : gmap string string) : option string := Some (pos_string (encode m)).
Definition ex_Unmarshal (s : string) : option (gmap string string) := decode (string_pos s).
Lemma ex_json_law : json_law ex_Marshal ex_Unmarshal.
Proof.
  intros m b _ [= <-]. unfold ex_Unmarshal.
  assert (∀ p, string_pos (pos_string p) = p) as -> by (intros p; induction p as [p IH|p IH|]; [change (xI (string_pos (pos_string p)) = xI p); by rewrite IH|change (xO (string_pos (pos_string p)) = xO p); by rewrite IH|done]).
  apply decode_encode.
Qed.
Definition ex_rand (i j : Z) : option bytes := Some [i; j; 16 * i + j].

Lemma key_name_errors_witness :
  key_step (ex_id 0) (Some ∅) ("x", [7]) = Panic ∧
  key_step (ex_id 0) (Some ∅) ("x-1", [7]) = Ok (Some {[ 1 := [7] ]}).
Proof.
  destruct (key_name_errors (ex_id 0) ∅ "x" 1 [7]) as [H1 H2]; [by vm_compute|reflexivity|lia|].
  split; [exact H1|]. exact (H2 eq_refl).
Defined.

Definition ex_keys : gmap string bytes := match generateKeys 3 3 ex_rand with Ok (Some keys) => keys | _ => ∅ end.
Definition ex_file : string := default "" (writeJSON ex_Marshal ex_keys true true true).

Lemma generated_keys_verify_witness : ∃ a0 a2,
  NewAuthManager ex_Unmarshal (ex_id 0) (Some ex_file) = Ok a0 ∧ NewAuthManager ex_Unmarshal (ex_id 2) (Some ex_file) = Ok a2 ∧
  am_Keys a0 !! 2 = am_Keys a2 !! 0 ∧ am_Keys a0 !! 2 = Some [0; 2; 2] ∧
  checkMAC a2 (ex_id 0) (generateMAC a0 (ex_id 2) [1; 2] 5) [1; 2] 5 = true.
Proof.
  assert (∃ a0, NewAuthManager ex_Unmarshal (ex_id 0) (Some ex_file) = Ok a0) as [a0 H0] by (eexists; vm_compute; reflexivity).
  destruct (generated_keys_verify ex_Marshal ex_Unmarshal 3 3
    (λ i j, if bool_decide (0 <= i < 3 ∧ 0 <= j < 3) then ex_rand i j else None) ex_keys ex_file (ex_id 0) (ex_id 2) a0 [1; 2] 5
    ex_json_law) as (a2 & H2 & Ek & Ep & Hc).
  - lia.
  - intros i j key. case_bool_decide; [|done]. intros [= <-]. repeat (apply Forall_cons; split; [lia|]). constructor.
  - vm_compute. reflexivity.
  - vm_compute. reflexivity.
  - cbn. lia.
  - cbn. lia.
  - exact H0.
  - exists a0, a2. split; [exact H0|]. split; [exact H2|]. split; [exact Ek|]. split; [|exact Hc].
    refine (eq_trans (Ep _) _); [cbn; lia|vm_compute; reflexivity].
Defined.
