(* ===== verification/Config.v ===== *)
(** Configuration: the values of a replica (src/config/config.go, defaults.go),
    the INI files that they are read from (src/kvs/common/ini_parser.go), and
    the configuration that a running replica sends to a new one
    (src/config/transfer_wrapper.go).

    A file is its contents. [time.ParseDuration], whose results on overflow and
    fractions differ between the versions of Go, is a parameter. *)
From Stdlib Require Import Ascii.
From S2P Require Import Prelude Grp GoStrings RingReplacer.

(** * Values (config.go) *)

Record Config := mkConfig { values : gmap string string }.
#[export] Instance eta_Config : Eta Config := λ r, mkConfig (values r).

Definition NewConfig : Config := mkConfig ∅.
Definition newConfigFromValues (vs : gmap string string) : Config := mkConfig vs.
Definition Config_Set (c : Config) (key value : string) : Config := c <| values ::= <[key := value]> |>.

Definition GetString (c : Config) (key defaultVal : string) : string :=
  match values c !! key with None => defaultVal | Some cfgValue => cfgValue end.

Definition GetInt (c : Config) (key : string) (defaultVal : Z) : Z :=
  match values c !! key with
  | None => defaultVal
  | Some cfgValue => let '(n, err) := Atoi cfgValue in if err : bool then defaultVal else n
  end.

Definition GetDuration (ParseDuration : string → option Z) (c : Config) (key : string) (defaultVal : Z) : Z :=
  match values c !! key with
  | None => defaultVal
  | Some cfgValue => match ParseDuration cfgValue with None => defaultVal | Some d => d end
  end.

Definition GetBool (c : Config) (key : string) (defaultVal : bool) : bool :=
  match values c !! key with
  | None => defaultVal
  | Some cfgValue => match ParseBool cfgValue with None => defaultVal | Some b => b end
  end.

(** An element of the value of [nodes]. *)
Definition node_entry (key node : string) : (ID * Node) + string :=
  let node := TrimSpace node in
  match split ":" node with
  | [p0; p1; p2; p3] =>
      let '(id, err) := Atoi p0 in
      if err : bool
      then inr ("Could not understand `" +:+ node +:+ "` in `" +:+ key +:+ "` config (id format not integer). Should be in the format [id:hostname:paxos-port:client-port], ...")
      else inl (NewID (i8 id) 0, NewNode p1 p2 p3 true true true)
  | _ => inr ("Could not understand `" +:+ node +:+ "` in `" +:+ key +:+ "` config. Should be in the format [id:hostname:paxos-port:client-port], ...")
  end.
Definition add_entry (key : string) (st : gmap ID Node + string) (node : string) : gmap ID Node + string :=
  match st with
  | inr e => inr e
  | inl m => match node_entry key node with inl (id, n) => inl (<[id := n]> m) | inr e => inr e end
  end.

Definition GetNodeMap {RO : RangeOrder} (c : Config) (key : string) : res (NodeMap + string) :=
  let nodesCfg := GetString c key "" in
  if bool_decide (nodesCfg = "")
  then mret (inr ("Config `" +:+ key +:+ "` need to be set! Should be in the format [id:hostname:paxos-port:client-port], ..."))
  else match foldl (add_entry key) (inl ∅) (split "," nodesCfg) with
       | inr e => mret (inr e)
       | inl nodeMap => nm ← NewNodeMap nodeMap; mret (inl nm)
       end.

Definition list_entry (key node : string) : Node + string :=
  let node := TrimSpace node in
  match split ":" node with
  | [p0; p1; p2] => inl (NewNode p0 p1 p2 true true true)
  | _ => inr ("Could not understand `" +:+ node +:+ "` in `" +:+ key +:+ "` config. Should be in the format [hostname:paxos-port:client-port], ...")
  end.
Definition GetNodeList (c : Config) (key : string) : list Node + string :=
  let nodesCfg := GetString c key "" in
  if bool_decide (nodesCfg = "") then inl []
  else foldl (λ st node, match st with
                         | inr e => inr e
                         | inl l => match list_entry key node with inl n => inl (l ++ [n]) | inr e => inr e end
                         end) (inl []) (split "," nodesCfg).

Definition CloneToKeyValueMap {RO : RangeOrder} (c : Config) : gmap string string :=
  range_collect 0 (λ _ v, Some v) (values c) ∅.

(** The node map of a server, which panics without one (src/server/init.go). *)
Definition initNodeMap {RO : RangeOrder} (c : Config) : res NodeMap :=
  r ← GetNodeMap c "nodes"; match r with inl nm => mret nm | inr _ => Panic end.

(** ** Defaults (defaults.go) *)

Definition DefNodes : string := "".
Definition DefProtocol : string := "MultiPaxos".
Definition DefAlpha : Z := 3.
Definition DefBatchMaxSize : Z := 1.
Definition DefFailureHandlingType : string := "None".
Definition DefNodeInitReplicaProvider : string := "Disabled".
Definition DefNodeInitStandbys : string := "".
Definition DefActivationTimeout : Z := 3000.
Definition DefLRStrategy : Z := 2.
Definition DefConfigKeysPath : string := "config-keys.json".
Definition DefNrOfPublications : Z := 100.
Definition DefPublicationPayloadSize : Z := 32.

(** ** What a running replica sends to a new one (transfer_wrapper.go) *)

(** RingReplacer.v has the part of it that makes the node map. *)

Record TransferWrapper := mkTransferWrapper {
  cw_ID : ID; cw_NodeMap : gmap ID Node; cw_ConfigMap : gmap string string; cw_NrOfNodes : Z; cw_NrOfAcceptors : Z }.

Definition GenerateNodeMapAndConfig {RO : RangeOrder} (tw : TransferWrapper) : res ((NodeMap * Config) + string) :=
  let conf := newConfigFromValues (cw_ConfigMap tw) in
  let fhType := GetString conf "failureHandlingType" DefFailureHandlingType in
  if bool_decide (ToLower fhType ∈ ["reconfiguration"; "areconfiguration"]) then
    nm ← NewNodeMap (cw_NodeMap tw); mret (inl (nm, conf))
  else if bool_decide (ToLower fhType = "livereplacement") then
    match cw_NodeMap tw !! cw_ID tw with
    | None => mret (inr "cannot genereate node map andconfig, provided node map did notcontain replacer node")
    | Some node =>
        let n := u64 (Z.of_nat (size (cw_NodeMap tw))) in
        nm ← NewNodeMapFromSingleNode (cw_ID tw) node n n; mret (inl (nm, conf))
    end
  else mret (inr ("cannot genereate node map and config forfailurehandling " +:+ fhType)).

(** * INI files (kvs/common/ini_parser.go) *)

Definition File : Type := gmap string (gmap string string).

Record ErrSyntax := mkErrSyntax { es_Line : Z; es_Source : string }.
Definition ErrSyntax_Error (e : ErrSyntax) : string :=
  "invalid INI syntax on line " +:+ pretty (es_Line e) +:+ ": " +:+ es_Source e.

(** [f.Section(name)]: the section, created if it is not there. *)
Definition File_Section (f : File) (name : string) : gmap string string * File :=
  match f !! name with Some s => (s, f) | None => (∅, <[name := ∅]> f) end.
Definition File_Get (f : File) (section key : string) : option string := f !! section ≫= λ s, s !! key.

(** The matches of [assignRegex] (a key that is not empty, up to the first
    equals sign, and the rest) and [sectionRegex] (what is between brackets at
    both ends) in a line without line feeds. *)
Fixpoint cut (sep : ascii) (s : string) : option (string * string) :=
  match s with
  | EmptyString => None
  | String c s => if bool_decide (c = sep) then Some ("", s) else '(a, b) ← cut sep s; Some (String c a, b)
  end.
Definition match_assign (line : string) : option (string * string) :=
  '(k, v) ← cut "=" line; if bool_decide (k = "") then None else Some (k, v).
Fixpoint strip_last (c : ascii) (s : string) : option string :=
  match s with
  | EmptyString => None
  | String d EmptyString => if bool_decide (d = c) then Some "" else None
  | String d s => t ← strip_last c s; Some (String d t)
  end.
Definition match_section (line : string) : option string :=
  match line with String c rest => if bool_decide (c = "["%char) then strip_last "]" rest else None | EmptyString => None end.

(** The loop of [parseFile] over the lines; what was read before an error stays
    in the file. *)
Fixpoint parse_lines (lines : list string) (lineNum : Z) (section : string) (file : File) : File * option ErrSyntax :=
  match lines with
  | [] => (file, None)
  | line :: lines =>
      let lineNum := lineNum + 1 in
      let line := TrimSpace line in
      match line with
      | EmptyString => parse_lines lines lineNum section file
      | String c _ =>
          if bool_decide (c = ";"%char) || bool_decide (c = "#"%char) then parse_lines lines lineNum section file
          else match match_assign line with
               | Some (key, val) =>
                   let '(s, file) := File_Section file section in
                   parse_lines lines lineNum section (<[section := <[TrimSpace key := TrimSpace val]> s]> file)
               | None =>
                   match match_section line with
                   | Some name => let section := TrimSpace name in parse_lines lines lineNum section (File_Section file section).2
                   | None => (file, Some (mkErrSyntax lineNum line))
                   end
               end
      end
  end.
Definition line_feed : ascii := ascii_of_nat 10.
Definition parseFile (content : string) (file : File) : File * option ErrSyntax :=
  parse_lines (split line_feed content) 0 "" file.
(** A file that cannot be opened leaves the result empty. *)
Definition LoadFile (content : option string) : File * option ErrSyntax :=
  match content with Some s => parseFile s ∅ | None => (∅, None) end.

(** The configuration of a replica: the section goxos (src/kvs/kvsd/kvsd.go);
    an error is logged. *)
Definition start_config {RO : RangeOrder} (content : option string) : Config :=
  let iniconfig := (LoadFile content).1 in
  foldl (λ c '(k, v), Config_Set c k v) NewConfig (range_order 0 (File_Section iniconfig "goxos").1).

(** * Printed entries are read back *)

Definition no_edge_space (s : string) : Prop := trim_left s = s ∧ trim_right s = s.

Lemma trim_left_length s : (String.length (trim_left s) <= String.length s)%nat.
Proof. induction s as [|c s IH]; cbn; [lia|]. destruct (is_space c); cbn; lia. Qed.
Lemma trim_left_head c s : trim_left (String c s) = String c s → is_space c = false.
Proof.
  cbn. destruct (is_space c); [|done]. intros E. pose proof (trim_left_length s) as Hl. rewrite E in Hl. cbn in Hl. lia.
Qed.
Lemma no_edge_trim s : no_edge_space s → TrimSpace s = s.
Proof. intros [Hl Hr]. unfold TrimSpace. by rewrite Hl. Qed.
Lemma trim_right_snoc s c : is_space c = false → trim_right (s +:+ String c "") = s +:+ String c "".
Proof.
  intros Hc. assert (trim_right (String c "") = String c "") as E by (cbn; by rewrite Hc).
  rewrite trim_right_app; rewrite E; done.
Qed.

(** Strings that do not end in white space. *)
Definition closed (s : string) : Prop := trim_right s = s ∧ s ≠ "".
Lemma closed_cons c s : closed s → closed (String c s).
Proof. intros [Hr Hn]. split; [|done]. cbn. rewrite Hr. by destruct s. Qed.
Lemma closed_app a s : closed s → closed (a +:+ s).
Proof. intros Hs. induction a as [|c a IH]; [done|]. rewrite str_app_cons. by apply closed_cons. Qed.

Record entry := mkEntry { en_id : Z; en_host : string; en_pp : string; en_cp : string }.
Definition entry_node (e : entry) : ID * Node := (NewID (en_id e) 0, NewNode (en_host e) (en_pp e) (en_cp e) true true true).
Definition print_entry (e : entry) : string :=
  join ":" [pretty (en_id e); en_host e; en_pp e; en_cp e].
Record entry_ok (e : entry) : Prop := {
  eo_id : 0 <= en_id e < 128;
  eo_colon : lacks ":" (en_host e) ∧ lacks ":" (en_pp e) ∧ lacks ":" (en_cp e);
  eo_comma : lacks "," (en_host e) ∧ lacks "," (en_pp e) ∧ lacks "," (en_cp e);
  eo_end : closed (en_cp e);
}.
(** The format that the documentation gives, with a blank after every comma. *)
Definition print_nodes (es : list entry) : string :=
  match es with [] => "" | e :: es => join "," (print_entry e :: ((λ e, String " " (print_entry e)) <$> es)) end.

Lemma pretty_digit z : 0 <= z → ∃ c s, pretty z = String c s ∧ is_space c = false.
Proof.
  intros Hz. destruct (pretty z) as [|c s] eqn:E.
  { assert (Atoi (pretty 0) = Atoi "") as Hx by (destruct z as [|p|p]; [by rewrite <- E| |lia];
      change (pretty (Zpos p)) with (pretty (Npos p)) in E; unfold pretty, pretty_N in E; case_decide; [done|];
      by destruct (pretty_go_nonempty (Npos p) "" ltac:(left; lia))). by vm_compute in Hx. }
  exists c, s. split; [done|].
  assert (∀ d, is_space d = true → lacks d (pretty z)) as Hl.
  { intros d Hd. apply lacks_pretty_nonneg; [|done]. unfold is_space in Hd. unfold digit_val.
    apply orb_true_iff in Hd. rewrite !bool_decide_eq_true in Hd. rewrite bool_decide_false; [done|lia]. }
  destruct (is_space c) eqn:Hc; [|done]. specialize (Hl c Hc). rewrite E in Hl. by destruct Hl.
Qed.

Lemma print_entry_parts e : print_entry e = pretty (en_id e) +:+ String ":" (en_host e +:+ String ":" (en_pp e +:+ String ":" (en_cp e))).
Proof. done. Qed.

Lemma print_entry_trim e : entry_ok e → TrimSpace (print_entry e) = print_entry e ∧ print_entry e ≠ "" ∧ lacks "," (print_entry e).
Proof.
  intros [Hid _ (C1 & C2 & C3) Hcl]. rewrite print_entry_parts.
  destruct (pretty_digit (en_id e)) as (c & s & E & Hc); [lia|]. split_and!.
  - unfold TrimSpace. rewrite E, str_app_cons, trim_left_nonspace by done.
    by repeat (apply closed_app || apply closed_cons || done).
  - by rewrite E.
  - rewrite lacks_app. cbn [lacks]. rewrite lacks_app. cbn [lacks]. rewrite lacks_app. cbn [lacks]. split_and!; try done.
    apply lacks_pretty_nonneg; [done|lia].
Qed.

Lemma node_entry_print key e : entry_ok e → node_entry key (print_entry e) = inl (entry_node e) ∧
  node_entry key (String " " (print_entry e)) = inl (entry_node e).
Proof.
  intros He. destruct (print_entry_trim e He) as (Ht & _).
  assert (∀ s, TrimSpace s = print_entry e → node_entry key s = inl (entry_node e)) as Hx.
  { intros s Hs. unfold node_entry. rewrite Hs. unfold print_entry. destruct He as [Hid (C1 & C2 & C3) _ _].
    rewrite split_join; [|done|].
    - rewrite Atoi_pretty by lia. by rewrite i8_small by lia.
    - repeat (apply Forall_cons; split; [done || (apply lacks_pretty_nonneg; [done|lia])|]). constructor. }
  split; apply Hx; [done|]. by rewrite TrimSpace_space.
Qed.

Definition entries_map (es : list entry) : gmap ID Node := list_to_map (entry_node <$> es).

Lemma add_entries key es (ws : list string) m :
  Forall entry_ok es → NoDup (en_id <$> es) → (∀ e, e ∈ es → m !! (entry_node e).1 = None) →
  Forall2 (λ e w, w = print_entry e ∨ w = String " " (print_entry e)) es ws →
  foldl (add_entry key) (inl m) ws = inl (entries_map es ∪ m).
Proof.
  intros Hok Hnd Hm Hw. revert m Hok Hnd Hm. induction Hw as [|e w es ws Hew Hw IH]; intros m Hok Hnd Hm.
  { cbn. by rewrite (left_id_L ∅ (∪)). }
  apply Forall_cons in Hok as [He Hok]. cbn in Hnd. apply NoDup_cons in Hnd as [Hin Hnd]. cbn [foldl].
  assert (add_entry key (inl m) w = inl (<[(entry_node e).1 := (entry_node e).2]> m)) as ->.
  { unfold add_entry. destruct (node_entry_print key e He) as [E1 E2]. by destruct Hew as [->| ->]; rewrite ?E1, ?E2. }
  rewrite IH; [|done..|].
  - f_equal. unfold entries_map. cbn [fmap list_fmap list_to_map foldr]. rewrite <- insert_union_r.
    + cbn. by rewrite insert_union_l.
    + apply not_elem_of_list_to_map_1. rewrite <- list_fmap_compose. intros (e' & E & He')%list_elem_of_fmap.
      apply Hin, list_elem_of_fmap. exists e'. split; [|done]. by injection E.
  - intros e' He'. rewrite lookup_insert_ne; [apply Hm; by constructor|]. intros E. apply Hin, list_elem_of_fmap. exists e'.
    split; [|done]. by injection E.
Qed.

Lemma split_print_nodes es : es ≠ [] → Forall entry_ok es →
  print_nodes es ≠ "" ∧ Forall2 (λ e w, w = print_entry e ∨ w = String " " (print_entry e)) es (split "," (print_nodes es)).
Proof.
  intros Hn Hok. destruct es as [|e es]; [done|]. apply Forall_cons in Hok as [He Hok].
  destruct (print_entry_trim e He) as (_ & Hne & Hl). unfold print_nodes. split.
  - destruct es as [|e' es]; [done|]. cbn [fmap list_fmap]. rewrite join_cons by done. by destruct (print_entry e).
  - rewrite split_join; [|done|].
    + constructor; [by left|]. clear. induction es; constructor; [by right|done].
    + apply Forall_cons. split; [done|]. apply Forall_fmap. eapply Forall_impl; [done|]. intros e' He'. cbn. split; [done|].
      by destruct (print_entry_trim e' He') as (_ & _ & ?).
Qed.

Lemma size_list_to_map {K A} `{Countable K} (l : list (K * A)) : NoDup l.*1 → size (list_to_map l : gmap K A) = length l.
Proof.
  induction l as [|[k a] l IH]; intros Hnd; [done|]. cbn in *. apply NoDup_cons in Hnd as [Hk Hnd].
  rewrite map_size_insert_None; [by rewrite IH|]. by apply not_elem_of_list_to_map_1.
Qed.

(** The nodes that a value lists, with distinct identifiers from 0 on, are the
    node map. *)
Lemma GetNodeMap_print {RO : RangeOrder} {RL : RangeOrderLaws RO} c key es :
  es ≠ [] → Forall entry_ok es → NoDup (en_id <$> es) → (∀ e, e ∈ es → en_id e < len es) → len es <= 127 →
  values c !! key = Some (print_nodes es) →
  ∃ nm, GetNodeMap c key = Ok (inl nm) ∧ nodemap_wf nm ∧ nodes nm = entries_map es ∧ nrOfNodes nm = len es.
Proof.
  intros Hn Hok Hnd Hd Hlen Hv. destruct (split_print_nodes es Hn Hok) as [Hne Hsp].
  assert (NoDup (entry_node <$> es).*1) as Hnd'.
  { rewrite <- list_fmap_compose. apply (NoDup_fmap_1 PxID). rewrite <- list_fmap_compose. exact Hnd. }
  assert (Z.of_nat (size (entries_map es)) = len es) as Hs by (unfold entries_map; by rewrite size_list_to_map, length_fmap).
  assert (∀ id n, entries_map es !! id = Some n → ∃ e, e ∈ es ∧ entry_node e = (id, n)) as Hin.
  { intros id n (e & Hx & He)%elem_of_list_to_map_2%list_elem_of_fmap. by exists e. }
  destruct (NewNodeMap_Ok (entries_map es)) as (nm & Hrun & Hwf & Hnodes & Hnr & _).
  - lia.
  - rewrite Hs. split.
    + intros id n (e & He & [= <- <-])%Hin. cbn. rewrite Forall_forall in Hok. destruct (Hok e He) as [Hid _ _ _]. specialize (Hd e He). lia.
    + intros id1 id2 n1 n2 (e1 & He1 & [= <- <-])%Hin (e2 & He2 & [= <- <-])%Hin E. cbn in E. by rewrite E.
  - exists nm. split_and!; [|done..|by rewrite Hnr]. unfold GetNodeMap, GetString. rewrite Hv, bool_decide_false by done.
    rewrite (add_entries key es (split "," (print_nodes es)) ∅) by (done || (intros; apply lookup_empty)).
    rewrite (right_id_L ∅ (∪)). by rewrite Hrun.
Qed.


(** * INI files are read back *)

Inductive IniLine :=
| LBlank
| LComment (hash : bool) (text : string)
| LSection (name : string)
| LAssign (key val : string).

Definition print_line (l : IniLine) : string :=
  match l with
  | LBlank => ""
  | LComment hash text => String (if hash then "#" else ";")%char text
  | LSection name => "[" +:+ name +:+ "]"
  | LAssign key val => key +:+ "=" +:+ val
  end.

(** Names, keys and values have no line feed and no white space at their ends;
    names and keys have no equals sign, and a key does not look like a comment. *)
Definition plain_text (s : string) : Prop := no_edge_space s ∧ lacks line_feed s.
Definition line_ok (l : IniLine) : Prop :=
  match l with
  | LBlank => True
  | LComment _ text => lacks line_feed text
  | LSection name => plain_text name ∧ lacks "=" name
  | LAssign key val => plain_text key ∧ plain_text val ∧ lacks "=" key ∧ key ≠ "" ∧
      ∀ s, key ≠ String ";" s ∧ key ≠ String "#" s
  end.

(** What the lines mean: the current section and the file after them. *)
Definition apply_line (st : string * File) (l : IniLine) : string * File :=
  match l with
  | LBlank | LComment _ _ => st
  | LSection name => (name, (File_Section st.2 name).2)
  | LAssign key val => (st.1, <[st.1 := <[key := val]> (File_Section st.2 st.1).1]> st.2)
  end.

Lemma cut_app sep a b : lacks sep a → cut sep (a +:+ String sep b) = Some (a, b).
Proof.
  induction a as [|c a IH]; intros Ha.
  - change (cut sep (String sep b) = Some ("", b)). cbn [cut]. by rewrite bool_decide_true.
  - destruct Ha as [Hc Ha]. rewrite str_app_cons. cbn [cut]. rewrite bool_decide_false by done. by rewrite (IH Ha).
Qed.
Lemma cut_lacks sep a : lacks sep a → cut sep a = None.
Proof. induction a as [|c a IH]; [done|]. intros [Hc Ha]. cbn [cut]. rewrite bool_decide_false by done. by rewrite (IH Ha). Qed.
Lemma strip_last_app c a : strip_last c (a +:+ String c "") = Some a.
Proof.
  induction a as [|d a IH].
  - change (strip_last c (String c "") = Some ""). cbn. by rewrite bool_decide_true.
  - rewrite str_app_cons. destruct (a +:+ String c "") as [|d' s] eqn:E; [by destruct a|].
    cbn [strip_last] in *. by rewrite IH.
Qed.

Lemma head_nonspace s : s ≠ "" → trim_left s = s → ∃ c t, s = String c t ∧ is_space c = false.
Proof. destruct s as [|c t]; [done|]. intros _ E. exists c, t. split; [done|]. by eapply trim_left_head. Qed.

(** The character that decides what a line is: not white space and not the start
    of a comment. *)
Definition starts_text (s : string) : Prop := ∃ c t, s = String c t ∧ c ≠ ";"%char ∧ c ≠ "#"%char.

Lemma parse_lines_text line lines n section file : TrimSpace line = line → starts_text line →
  parse_lines (line :: lines) n section file =
    match match_assign line with
    | Some (key, val) => parse_lines lines (n + 1) section (<[section := <[TrimSpace key := TrimSpace val]> (File_Section file section).1]> (File_Section file section).2)
    | None => match match_section line with
              | Some name => parse_lines lines (n + 1) (TrimSpace name) (File_Section file (TrimSpace name)).2
              | None => (file, Some (mkErrSyntax (n + 1) line))
              end
    end.
Proof.
  intros Ht (c & t & -> & H1 & H2). cbn [parse_lines]. rewrite Ht. rewrite !bool_decide_false by done. cbn [orb].
  destruct (match_assign (String c t)) as [[key val]|]; [|done]. by destruct (File_Section file section).
Qed.

Lemma insert_File_Section (file : File) section (x : gmap string string) : <[section := x]> (File_Section file section).2 = <[section := x]> file.
Proof. unfold File_Section. destruct (file !! section); [done|]. exact (insert_insert_eq (M := gmap string) file section x ∅). Qed.

Lemma parse_line_ok l lines n section file : line_ok l →
  parse_lines (print_line l :: lines) n section file =
    parse_lines lines (n + 1) (apply_line (section, file) l).1 (apply_line (section, file) l).2.
Proof.
  intros Hl. destruct l as [|hash text|name|key val]; cbn [print_line apply_line fst snd].
  - done.
  - assert (∃ t, TrimSpace (String (if hash then "#" else ";")%char text) = String (if hash then "#" else ";")%char t) as [t Ht].
    { unfold TrimSpace. rewrite trim_left_nonspace by (by destruct hash). cbn [trim_right].
      destruct (trim_right text) eqn:E; [|by eexists]. exists "". by destruct hash. }
    cbn [parse_lines]. rewrite Ht. by destruct hash.
  - destruct Hl as [[Hn _] He]. rewrite parse_lines_text.
    + unfold match_assign. assert (lacks "=" ("[" +:+ name +:+ "]")) as Hc by (rewrite !lacks_app; by split_and!).
      rewrite (cut_lacks _ _ Hc). cbn [mbind option_bind].
      change (match_section ("[" +:+ name +:+ "]")) with (strip_last "]" (name +:+ String "]" "")). rewrite strip_last_app. by rewrite (no_edge_trim name Hn).
    + unfold TrimSpace. change ("[" +:+ name +:+ "]") with (String "[" (name +:+ String "]" "")).
      rewrite trim_left_nonspace by done. rewrite <- str_app_cons. by apply trim_right_snoc.
    + exists "["%char, (name +:+ "]"). done.
  - destruct Hl as ([Hk _] & [Hv _] & He & Hne & Hc). destruct (head_nonspace key Hne (proj1 Hk)) as (c & t & Ek & Hsp).
    change (key +:+ "=" +:+ val) with (key +:+ String "=" val). rewrite parse_lines_text.
    + unfold match_assign. rewrite cut_app by done. cbn [mbind option_bind]. rewrite bool_decide_false by done.
      by rewrite (no_edge_trim key Hk), (no_edge_trim val Hv), insert_File_Section.
    + unfold TrimSpace. rewrite Ek, str_app_cons, trim_left_nonspace by done. rewrite <- str_app_cons.
      assert (closed (String "=" val)) as Hcl.
      { destruct (decide (val = "")) as [->|Hvn]; [by split|]. apply closed_cons. split; [apply Hv|done]. }
      by apply closed_app.
    + rewrite Ek. exists c, (t +:+ String "=" val). split; [done|]. destruct (Hc t) as [C1 C2]. rewrite Ek in C1, C2. split; congruence.
Qed.

Lemma parse_lines_ok ls rest n section file : Forall line_ok ls →
  parse_lines ((print_line <$> ls) ++ rest) n section file =
    parse_lines rest (n + len ls) (foldl apply_line (section, file) ls).1 (foldl apply_line (section, file) ls).2.
Proof.
  intros Hok. revert n section file. induction Hok as [|l ls Hl Hok IH]; intros n section file; [cbn; f_equal; lia|].
  cbn [fmap list_fmap app foldl]. rewrite parse_line_ok by done. rewrite IH.
  destruct (apply_line (section, file) l). cbn [fst snd length]. f_equal; lia.
Qed.

Lemma print_line_feed l : line_ok l → lacks line_feed (print_line l).
Proof.
  destruct l as [|hash text|name|key val]; cbn [print_line line_ok].
  - done.
  - intros Ht. split; [by destruct hash|done].
  - intros [[_ Hn] _]. rewrite !lacks_app. by split_and!.
  - intros ([_ Hk] & [_ Hv] & _). rewrite !lacks_app. by split_and!.
Qed.

(** An INI file is read as what its lines say; from a malformed line on nothing
    is read, and the error names the line. *)
Theorem ini_roundtrip ls bad rest file :
  ls ≠ [] → Forall line_ok ls →
  parseFile (join line_feed (print_line <$> ls)) file = ((foldl apply_line ("", file) ls).2, None) ∧
  (lacks line_feed bad → Forall (lacks line_feed) rest → TrimSpace bad = bad → starts_text bad →
   match_assign bad = None → match_section bad = None →
   parseFile (join line_feed ((print_line <$> ls) ++ bad :: rest)) file =
     ((foldl apply_line ("", file) ls).2, Some (mkErrSyntax (len ls + 1) bad))).
Proof.
  intros Hn Hok. assert (Forall (lacks line_feed) (print_line <$> ls)) as Hf.
  { apply Forall_fmap. eapply Forall_impl; [done|]. intros l. apply print_line_feed. }
  unfold parseFile. split.
  - rewrite split_join by (done || by destruct ls). rewrite <- (app_nil_r (print_line <$> ls)), parse_lines_ok by done. done.
  - intros Hb Hr Ht Hs Ha Hm. rewrite split_join; [|by destruct ls|apply Forall_app; split; [done|by constructor]].
    rewrite parse_lines_ok by done. rewrite parse_lines_text by done. by rewrite Ha, Hm, Z.add_0_l.
Qed.

(** * The configuration of a replica *)

Section start.
Context {RO : RangeOrder} {RL : RangeOrderLaws RO}.

Lemma start_config_values content : values (start_config content) = (File_Section (LoadFile content).1 "goxos").1.
Proof.
  unfold start_config. set (s := (File_Section _ _).1).
  assert (∀ (l : list (string * string)) c, values (foldl (λ c '(k, v), Config_Set c k v) c l) =
    foldl (λ acc '(k, v), match Some v with Some b => <[k := b]> acc | None => acc end) (values c) l) as Hl.
  { intros l. induction l as [|[k v] l IH]; intros c; [done|]. cbn [foldl]. by rewrite IH. }
  rewrite Hl. apply map_eq. intros k.
  change (range_collect 0 (λ _ v, Some v) s (values NewConfig) !! k = s !! k).
  rewrite lookup_range_collect. cbn. by destruct (s !! k).
Qed.

Lemma start_config_lookup ls s : ls ≠ [] → Forall line_ok ls →
  (foldl apply_line ("", ∅) ls).2 !! "goxos" = Some s →
  values (start_config (Some (join line_feed (print_line <$> ls)))) = s.
Proof.
  intros Hn Hok Hs. rewrite start_config_values. unfold LoadFile.
  destruct (ini_roundtrip ls "" [] ∅ Hn Hok) as [-> _]. unfold File_Section. cbn [fst snd]. by rewrite Hs.
Qed.


(** The other values: what is not set or cannot be read has its default. *)
Theorem config_defaults ParseDuration c key (dn : Z) db :
  (values c !! key = None ∨ (∃ v, values c !! key = Some v ∧ (Atoi v).2 = true ∧ ParseDuration v = None ∧ ParseBool v = None)) →
  GetInt c key dn = dn ∧ GetDuration ParseDuration c key dn = dn ∧ GetBool c key db = db.
Proof.
  unfold GetInt, GetDuration, GetBool. intros [->|(v & -> & Ha & -> & ->)]; [done|]. destruct (Atoi v). cbn in Ha. by rewrite Ha.
Qed.

(** An integer that is written in decimal is read, as far as 64 bits go. *)
Theorem config_int c key d n : - 2 ^ 63 <= n < 2 ^ 63 → GetInt (Config_Set c key (pretty n)) key d = n.
Proof. intros Hn. unfold GetInt, Config_Set. cbn. rewrite lookup_insert_eq. by rewrite Atoi_pretty. Qed.

(** ** The configuration of a new replica *)

Lemma transfer_nodemap tw :
  (λ r, match r with inl (nm, _) => Some nm | inr _ => None end) <$> GenerateNodeMapAndConfig tw =
    RingReplacer.GenerateNodeMapAndConfig (ToLower (GetString (newConfigFromValues (cw_ConfigMap tw)) "failureHandlingType" DefFailureHandlingType))
      (mkTW (cw_ID tw) (cw_NodeMap tw)).
Proof.
  unfold GenerateNodeMapAndConfig, RingReplacer.GenerateNodeMapAndConfig. set (fh := ToLower _). cbn [tw_ID tw_NodeMap].
  assert (bool_decide (fh ∈ ["reconfiguration"; "areconfiguration"]) = bool_decide (fh = "reconfiguration") || bool_decide (fh = "areconfiguration")) as ->.
  { apply eq_bool_prop_intro. rewrite orb_True, !bool_decide_spec, !elem_of_cons, elem_of_nil. tauto. }
  destruct (_ || _).
  - by destruct (NewNodeMap (cw_NodeMap tw)).
  - case_bool_decide; [|done]. destruct (cw_NodeMap tw !! cw_ID tw); [|done]. cbn. by destruct (NewNodeMapFromSingleNode _ _ _ _).
Qed.

(** What a replica that asks for reconfiguration sends makes the new replica's
    node map; with live replacement that holds the new replica only, with the
    counts of the whole group. *)
Theorem transferred_nodemap tw nm c :
  GenerateNodeMapAndConfig tw = Ok (inl (nm, c)) →
  Z.of_nat (size (cw_NodeMap tw)) <= 127 → px_ok (Z.of_nat (size (cw_NodeMap tw))) (cw_NodeMap tw) →
  nodemap_wf nm ∧ values c = cw_ConfigMap tw ∧ nrOfNodes nm = Z.of_nat (size (cw_NodeMap tw)) ∧
  if bool_decide (ToLower (GetString c "failureHandlingType" DefFailureHandlingType) = "livereplacement")
  then ∃ n, cw_NodeMap tw !! cw_ID tw = Some n ∧ nodes nm = {[ cw_ID tw := n ]}
  else nodes nm = cw_NodeMap tw.
Proof.
  intros Hg Hs Hpx. unfold GenerateNodeMapAndConfig in Hg. case_bool_decide as H1.
  - apply bind_Ok in Hg as (nm' & Hnm & Hg). injection Hg as <- <-.
    destruct (NewNodeMap_Ok _ Hs Hpx) as (nm & Hrun & Hwf & Hn & Hnr & _). rewrite Hrun in Hnm. injection Hnm as <-.
    split_and!; [done..|]. rewrite bool_decide_false; [done|]. cbn [newConfigFromValues]. intros E. rewrite E in H1.
    repeat (apply elem_of_cons in H1 as [H1|H1]; [discriminate|]). by apply elem_of_nil in H1.
  - case_bool_decide as H2; [|done]. destruct (cw_NodeMap tw !! cw_ID tw) as [node|] eqn:Hn; [|done].
    apply bind_Ok in Hg as (nm' & Hnm & Hg). injection Hg as <- <-. rewrite u64_small in Hnm by lia.
    assert (0 <= PxID (cw_ID tw) < Z.of_nat (size (cw_NodeMap tw))) as Hid by (destruct Hpx as [Hpx _]; by eapply Hpx).
    destruct (NewNodeMapWithCount_Ok {[ cw_ID tw := node ]} (Z.of_nat (size (cw_NodeMap tw))) (Z.of_nat (size (cw_NodeMap tw)))) as (nm & Hrun & Hwf & Hnodes & Hnr & _).
    + lia.
    + lia.
    + split.
      * intros id n [<- _]%lookup_singleton_Some. done.
      * by intros id1 id2 n1 n2 [<- _]%lookup_singleton_Some [<- _]%lookup_singleton_Some.
    + unfold NewNodeMapFromSingleNode in Hnm. rewrite Hrun in Hnm. injection Hnm as <-. split_and!; [done..|].
      rewrite bool_decide_true by done. by exists node.
Qed.
End start.

(** * Examples *)

Definition ex_entries : list entry := [mkEntry 0 "10.0.0.1" "8090" "8080"; mkEntry 1 "10.0.0.2" "8090" "8080"; mkEntry 2 "pitter3" "8091" "8081"].
Definition ex_lines : list IniLine :=
  [LComment true " three replicas"; LBlank; LSection "goxos"; LAssign "nodes" (print_nodes ex_entries); LAssign "protocol" "MultiPaxos";
   LSection "client"; LAssign "nodes" ""].

Lemma ex_lines_ok : Forall line_ok ex_lines.
Proof. repeat (apply Forall_cons; split; [vm_compute; repeat split; congruence|]). constructor. Qed.
Lemma ex_entries_ok : Forall entry_ok ex_entries.
Proof. repeat (apply Forall_cons; split; [split; vm_compute; repeat split; congruence|]). constructor. Qed.


Lemma ini_roundtrip_witness :
  parseFile (join line_feed ((print_line <$> ex_lines) ++ ["oops"])) ∅ = ((foldl apply_line ("", ∅) ex_lines).2, Some (mkErrSyntax 8 "oops")).
Proof.
  destruct (ini_roundtrip ex_lines "oops" [] ∅) as [_ Hb]; [done|exact ex_lines_ok|].
  apply Hb; [by vm_compute|constructor|reflexivity| |reflexivity..]. exists "o"%char, "ops". done.
Defined.

Lemma config_defaults_witness : GetInt (Config_Set NewConfig "alpha" "3x") "alpha" DefAlpha = 3.
Proof. apply (config_defaults (λ _, None) (Config_Set NewConfig "alpha" "3x") "alpha" DefAlpha true). right. exists "3x". split_and!; vm_compute; reflexivity. Defined.

Lemma config_int_witness : GetInt (Config_Set NewConfig "alpha" (pretty (-12))) "alpha" DefAlpha = -12.
Proof. apply (config_int NewConfig "alpha" DefAlpha (-12)). lia. Defined.

(** Identifiers are cut to eight bits, and a section's name with an equals sign
    is an assignment. *)
Example node_ids_wrap : node_entry "nodes" "258:h:1:2" = node_entry "nodes" "2:h:1:2".
Proof. vm_compute. reflexivity. Qed.
Example section_as_assignment : parseFile "[a=b]" ∅ = ({[ "" := {[ "[a" := "b]" ]} ]}, None).
Proof. vm_compute. reflexivity. Qed.
