(* ===== verification/NodeInit.v ===== *)
(** Package nodeinit (src/nodeinit) and the standby replica (src/goxos_standby.go):
    how a running replica finds a machine for a new one, and how it hands the
    machine the configuration and the application's state.

    [init_step] is what one goroutine of a standby replica does between two of
    its blocking operations: the goroutine of each connection
    ([handleConnection]), and the main one ([Standby]). The state of the
    listener is read and written under its mutex, except by the negative
    response. What the network does comes with the event. *)
From S2P Require Import Prelude Grp PaxosTypes GoStrings RingReplacer Config.

Definition defaultActivationPort : string := "10000".

(** * The listener (init_listener.go) *)

Inductive InitState := Preinit | Listening | Responding | Transfering | Initialized | Activated | Stopped.
#[export] Instance InitState_eq_dec : EqDecision InitState.
Proof. solve_decision. Defined.
Definition InitState_String (s : InitState) : string :=
  match s with
  | Preinit => "Pre-init" | Listening => "Listening" | Responding => "Responding" | Transfering => "Transfering"
  | Initialized => "Initialized" | Activated => "Activated" | Stopped => "Stopped"
  end.

Record InitData := mkInitData { in_ID : ID; in_Config : Config.TransferWrapper; in_AppState : AppState }.

(** Where the goroutine of a connection is: waiting for the request, about to
    refuse, waiting for the data, offering it to the main goroutine, waiting
    for its result, about to report it, or returned. *)
Inductive HandlerPc :=
| HRequest | HNack | HData | HOffer (d : InitData) | HResult (d : InitData) | HReport (err : option string) | HReturned.

(** Where [Standby] is: waiting for data, at work on the data of a connection,
    returned with an error, panicked, or initialised. *)
Inductive StandbyPc :=
| SWait | SApply (d : InitData) (c : nat) | SAborted (err : string) | SPanicked | SInitialized (d : InitData) (nm : NodeMap) (conf : Config).

(** [sb_open]: the socket accepts connections. *)
Record Standby := mkStandby { sb_state : InitState; sb_handlers : list HandlerPc; sb_pc : StandbyPc; sb_open : bool }.
#[export] Instance eta_Standby : Eta Standby := λ r, mkStandby (sb_state r) (sb_handlers r) (sb_pc r) (sb_open r).

(** [NewInitListener], then [Start]. *)
Definition NewInitListener : Standby := mkStandby Preinit [] SWait true.
Definition setState (s : Standby) (st : InitState) : Standby := s <| sb_state := st |>.
Definition canWaitForInitData (st : InitState) : bool :=
  negb (bool_decide (st = Initialized) || bool_decide (st = Activated) || bool_decide (st = Stopped)).

(** The check of [WaitForInitData]. *)
Definition WaitForInitData (s : Standby) : Standby :=
  if canWaitForInitData (sb_state s) then s <| sb_pc := SWait |>
  else s <| sb_pc := SAborted ("Initialization abort on event: receiving initialization data failed, reason: can't wait for init data due to current state (" +:+ InitState_String (sb_state s) +:+ ")") |>.
Definition SetActivated (s : Standby) : option string * Standby :=
  if bool_decide (sb_state s ≠ Initialized)
  then (Some ("could not set activated due to current state (" +:+ InitState_String (sb_state s) +:+ ")"), s)
  else (None, setState s Activated).

(** [StandbyReplica.Standby] up to its first receive. *)
Definition standby_start : Standby := WaitForInitData (setState NewInitListener Listening).

Inductive InitOut :=
| InitResponse (c : nat) (ack : bool) (st : InitState)
| TransferResponse (c : nat) (success : bool) (errorString : string).

Inductive InitEvent :=
| EvConnect                                      (* a connection is accepted *)
| EvRequest (c : nat) (decoded encoded : bool)   (* the request, and the positive response *)
| EvNack (c : nat) (encoded : bool)
| EvData (c : nat) (d : option InitData)
| EvOffer (c : nat)                              (* configAndStateChan *)
| EvApply (err : option string)                  (* ah.SetState, then ApplyStateResult *)
| EvReport (c : nat) (encoded : bool)
| EvStop.

Section standby.
Context {RO : RangeOrder}.
Implicit Types s : Standby.

Definition set_pc s (c : nat) (pc : HandlerPc) : Standby := s <| sb_handlers ::= <[c := pc]> |>.

Definition handle_request s (c : nat) (decoded encoded : bool) : Standby * list InitOut :=
  if negb decoded then (set_pc s c HReturned, [])
  else if bool_decide (sb_state s = Listening) then
    let s := setState s Responding in
    if encoded then (set_pc (setState s Transfering) c HData, [InitResponse c true (sb_state s)])
    else (set_pc (setState s Listening) c HReturned, [])
  else (set_pc s c HNack, []).

(** The replica handles failures in a way that a new replica can be started for. *)
Definition startable (conf : Config) : bool :=
  bool_decide (ToLower (GetString conf "failureHandlingType" DefFailureHandlingType) ∈ ["livereplacement"; "reconfiguration"; "areconfiguration"]).

(** The rest of [Standby] for the data of connection [c]; [err] is the error of
    [SetState]. A panic ends the process. *)
Definition apply_data s (d : InitData) (c : nat) (err : option string) : Standby :=
  match err with
  | Some e => set_pc (s <| sb_pc := SAborted ("Initialization abort on event: setting application state failed, reason: " +:+ e) |>) c
                (HReport (Some ("Initialization abort on event: setting application state failed, reason: " +:+ e)))
  | None =>
      match Config.GenerateNodeMapAndConfig (in_Config d) with
      | Ok (inl (nm, conf)) =>
          if startable conf then set_pc (s <| sb_pc := SInitialized d nm conf |>) c (HReport None)
          else s <| sb_pc := SAborted ("cannot init new node with failurehandling " +:+ GetString conf "failureHandlingType" DefFailureHandlingType) |>
      | _ => s <| sb_pc := SPanicked |>
      end
  end.

Definition report s (c : nat) (err : option string) (encoded : bool) : Standby * list InitOut :=
  match err with
  | Some e => (set_pc (setState s Listening) c HReturned, if encoded then [TransferResponse c false e] else [])
  | None => (set_pc (setState s Initialized) c HReturned, if encoded then [TransferResponse c true ""] else [])
  end.

Definition panicked s : bool := match sb_pc s with SPanicked => true | _ => false end.
Definition init_step s (ev : InitEvent) : option (Standby * list InitOut) :=
  if panicked s then None else
  match ev with
  | EvConnect => if sb_open s then Some (s <| sb_handlers ::= λ hs, hs ++ [HRequest] |>, []) else None
  | EvRequest c decoded encoded =>
      match sb_handlers s !! c with Some HRequest => Some (handle_request s c decoded encoded) | _ => None end
  | EvNack c encoded =>
      match sb_handlers s !! c with
      | Some HNack => Some (set_pc s c HReturned, if encoded then [InitResponse c false (sb_state s)] else [])
      | _ => None
      end
  | EvData c d =>
      match sb_handlers s !! c with
      | Some HData => Some (match d with Some d => set_pc s c (HOffer d) | None => set_pc (setState s Listening) c HReturned end, [])
      | _ => None
      end
  | EvOffer c =>
      match sb_handlers s !! c, sb_pc s with
      | Some (HOffer d), SWait => Some (set_pc (s <| sb_pc := SApply d c |>) c (HResult d), [])
      | _, _ => None
      end
  | EvApply err =>
      match sb_pc s with SApply d c => Some (apply_data s d c err, []) | _ => None end
  | EvReport c encoded =>
      match sb_handlers s !! c with Some (HReport err) => Some (report s c err encoded) | _ => None end
  | EvStop => Some ((setState s Stopped) <| sb_open := false |>, [])
  end.

Fixpoint init_run s (evs : list InitEvent) : option (Standby * list InitOut) :=
  match evs with
  | [] => Some (s, [])
  | ev :: evs => '(s1, o1) ← init_step s ev; '(s2, o2) ← init_run s1 evs; Some (s2, o1 ++ o2)
  end.

(** * The invariant *)

Definition busy (pc : HandlerPc) : bool :=
  match pc with HData | HOffer _ | HResult _ | HReport _ => true | _ => false end.

(** At most one connection is being served, and then the state says so; the main
    goroutine works on its data. *)
Record standby_inv s : Prop := {
  si_one : ∀ c c' pc pc', sb_handlers s !! c = Some pc → sb_handlers s !! c' = Some pc' → busy pc = true → busy pc' = true → c = c';
  si_state : (∃ c pc, sb_handlers s !! c = Some pc ∧ busy pc = true) ↔ sb_state s = Transfering;
  si_states : sb_state s = Listening ∨ sb_state s = Transfering ∨ sb_state s = Initialized;
  si_apply : ∀ d c, sb_pc s = SApply d c → sb_handlers s !! c = Some (HResult d);
  si_init : sb_state s = Initialized → ∃ d nm conf, sb_pc s = SInitialized d nm conf;
  si_report : ∀ c, sb_handlers s !! c = Some (HReport None) → ∃ d nm conf, sb_pc s = SInitialized d nm conf;
  si_done : ∀ d nm conf, sb_pc s = SInitialized d nm conf → sb_state s = Initialized ∨ ∃ c, sb_handlers s !! c = Some (HReport None);
}.

Lemma standby_start_inv : standby_inv standby_start.
Proof. split; try done; [|by left]. split; [intros (? & ? & ? & _); done|done]. Qed.

(** One connection's goroutine moves on. *)
Lemma served_update s s' c pc pc' :
  standby_inv s → sb_handlers s !! c = Some pc → sb_handlers s' = <[c := pc']> (sb_handlers s) →
  (busy pc' = true → busy pc = false → sb_state s ≠ Transfering) →
  (sb_state s' = Transfering ↔ busy pc' = true ∨ (sb_state s = Transfering ∧ busy pc = false)) →
  (∀ c c' pc pc', sb_handlers s' !! c = Some pc → sb_handlers s' !! c' = Some pc' → busy pc = true → busy pc' = true → c = c') ∧
  ((∃ c pc, sb_handlers s' !! c = Some pc ∧ busy pc = true) ↔ sb_state s' = Transfering).
Proof.
  intros [H1 H2 _ _ _ _ _] Hc Eh Hb Hst. pose proof (lookup_lt_Some _ _ _ Hc) as Hlt.
  assert (∀ d pd, sb_handlers s' !! d = Some pd ↔ (d = c ∧ pd = pc') ∨ (d ≠ c ∧ sb_handlers s !! d = Some pd)) as Hl.
  { intros d pd. rewrite Eh. destruct (decide (d = c)) as [->|Hd].
    - rewrite list_lookup_insert_eq by done. naive_solver.
    - rewrite list_lookup_insert_ne by done. naive_solver. }
  assert (∀ d pd, d ≠ c → sb_handlers s !! d = Some pd → busy pd = true → busy pc' = true → False) as Hno.
  { intros d pd Hd Hsd Hbd Hb'. destruct (busy pc) eqn:Hbc; [by apply Hd, (H1 d c pd pc)|].
    apply (Hb Hb' eq_refl), H2. by exists d, pd. }
  split.
  - intros d d' pd pd' [[-> ->]|[Hd Hsd]]%Hl [[-> ->]|[Hd' Hsd']]%Hl Hbd Hbd'; [done|exfalso; by eapply Hno..|by eapply H1].
  - rewrite Hst. split.
    + intros (d & pd & [[-> ->]|[Hd Hsd]]%Hl & Hbd); [by left|]. right.
      assert (sb_state s = Transfering) as E by (apply H2; by exists d, pd). split; [done|].
      destruct (busy pc) eqn:Hbc; [|done]. exfalso. by apply Hd, (H1 d c pd pc).
    + intros [Hb'|[E Hbc]]; [exists c, pc'; rewrite Hl; auto|].
      apply H2 in E as (d & pd & Hsd & Hbd). exists d, pd. split; [|done]. rewrite Hl. right. split; [|done]. intros ->. congruence.
Qed.

(** A move of a connection's goroutine that leaves the main one alone. *)
Lemma inv_move s c pc pc' st :
  standby_inv s → sb_handlers s !! c = Some pc →
  (∀ d, pc ≠ HResult d) → pc' ≠ HReport None → (pc = HReport None → st = Initialized) →
  (busy pc' = true → busy pc = false → sb_state s ≠ Transfering) →
  (st = Transfering ↔ busy pc' = true ∨ (sb_state s = Transfering ∧ busy pc = false)) →
  (st = sb_state s ∨ st = Transfering ∧ sb_state s ≠ Initialized ∨ st = Listening ∧ sb_state s ≠ Initialized ∨ st = Initialized ∧ pc = HReport None) →
  standby_inv (set_pc (setState s st) c pc').
Proof.
  intros HI Hc Hr Hp Hrep Hb Hst Hcase. pose proof HI as [_ _ H3 H4 H5 H6 H7]. pose proof (lookup_lt_Some _ _ _ Hc) as Hlt.
  destruct (served_update s (set_pc (setState s st) c pc') c pc pc' HI Hc eq_refl Hb Hst) as [U1 U2].
  split; [exact U1|exact U2|..]; cbn.
  - naive_solver.
  - intros d c0 E. rewrite list_lookup_insert_ne; [by apply H4|]. intros ->. rewrite (H4 d c0 E) in Hc. injection Hc as <-. by eapply Hr.
  - intros E. destruct Hcase as [->|[[-> _]|[[-> _]|[_ ->]]]]; [by apply H5|done..|by eapply H6].
  - intros c0. destruct (decide (c0 = c)) as [->|Hne]; [rewrite list_lookup_insert_eq by done; by intros [= ->]|].
    rewrite list_lookup_insert_ne by done. apply H6.
  - intros d nm conf E. destruct (H7 d nm conf E) as [E'|[c0 Hc0]].
    + left. destruct Hcase as [->|[[_ ?]|[[_ ?]|[-> _]]]]; done.
    + destruct (decide (c0 = c)) as [->|Hne].
      * rewrite Hc in Hc0. injection Hc0 as ->. left. by apply Hrep.
      * right. exists c0. by rewrite list_lookup_insert_ne.
Qed.

Lemma setState_same s : setState s (sb_state s) = s.
Proof. by destruct s. Qed.
Lemma inv_not_init s c pc : standby_inv s → sb_handlers s !! c = Some pc → busy pc = true → sb_state s = Transfering.
Proof. intros HI Hc Hb. apply (si_state _ HI). by exists c, pc. Qed.

Lemma init_step_inv s ev s' o : ev ≠ EvStop → standby_inv s → init_step s ev = Some (s', o) → standby_inv s'.
Proof.
  intros Hns HI Hs. pose proof HI as [H1 H2 H3 H4 H5 H6 H7]. unfold init_step in Hs. destruct (panicked s); [done|].
  destruct ev as [|c dec enc|c enc|c od|c|err|c enc|]; [..|done].
  - destruct (sb_open s); [|done]. injection Hs as <- _. assert (∀ d pd, busy pd = true ∨ (∃ x, pd = HResult x) → (sb_handlers s ++ [HRequest]) !! d = Some pd → sb_handlers s !! d = Some pd) as Hl.
    { intros d pd Hp [Hd|[_ Hd]]%lookup_app_Some; [done|]. apply list_lookup_singleton_Some in Hd as [_ <-]. naive_solver. }
    split; cbn; [| |done| |done| |].
    + intros c c' pc pc' Hc Hc' Hb Hb'. apply (H1 c c' pc pc'); auto.
    + rewrite <- H2. split; intros (c & pc & Hc & Hb); exists c, pc; (split; [|done]); [by apply Hl; auto|by apply lookup_app_l_Some].
    + intros d c Hd. apply lookup_app_l_Some. by apply H4.
    + intros c Hc. apply (H6 c). apply Hl; auto.
    + intros d nm conf Hd. destruct (H7 d nm conf Hd) as [?|[c Hc]]; [by left|right; exists c; by apply lookup_app_l_Some].
  - destruct (sb_handlers s !! c) as [[]|] eqn:Hc; try done. injection Hs as Hs. unfold handle_request in Hs. destruct dec; cbn [negb] in Hs.
    + case_bool_decide as Hl; [destruct enc|]; injection Hs as <- _.
      * apply (inv_move s c HRequest HData Transfering HI Hc); try done; rewrite Hl; naive_solver.
      * apply (inv_move s c HRequest HReturned Listening HI Hc); try done; rewrite Hl; naive_solver.
      * rewrite <- (setState_same s). apply (inv_move s c HRequest HNack (sb_state s) HI Hc); try done; naive_solver.
    + injection Hs as <- _. rewrite <- (setState_same s). apply (inv_move s c HRequest HReturned (sb_state s) HI Hc); try done; naive_solver.
  - destruct (sb_handlers s !! c) as [[]|] eqn:Hc; try done. injection Hs as <- _.
    rewrite <- (setState_same s). apply (inv_move s c HNack HReturned (sb_state s) HI Hc); try done; naive_solver.
  - destruct (sb_handlers s !! c) as [[]|] eqn:Hc; try done. pose proof (inv_not_init s c HData HI Hc eq_refl) as Ht. injection Hs as <- _. destruct od as [d|].
    + rewrite <- (setState_same s). apply (inv_move s c HData (HOffer d) (sb_state s) HI Hc); try done; naive_solver.
    + apply (inv_move s c HData HReturned Listening HI Hc); try done; rewrite Ht; naive_solver.
  - destruct (sb_handlers s !! c) as [[| | |d| | |]|] eqn:Hc; try done. destruct (sb_pc s) eqn:Hp; try done. injection Hs as <- _.
    pose proof (inv_not_init s c _ HI Hc eq_refl) as Ht. pose proof (lookup_lt_Some _ _ _ Hc) as Hlt.
    destruct (served_update s (set_pc (s <| sb_pc := SApply d c |>) c (HResult d)) c (HOffer d) (HResult d) HI Hc eq_refl) as [U1 U2]; [done|cbn; naive_solver|].
    split; [exact U1|exact U2|..]; cbn; [by right; left| | |by intros c0; destruct (decide (c0 = c)) as [->|Hne];
      [rewrite list_lookup_insert_eq by done|rewrite list_lookup_insert_ne by done; intros (? & ? & ? & ?)%H6; congruence]|done].
    + intros d' c' [= <- <-]. by rewrite list_lookup_insert_eq.
    + congruence.
  - destruct (sb_pc s) as [|d c| | |] eqn:Hp; try done. injection Hs as <- _. pose proof (H4 d c eq_refl) as Hc. pose proof (lookup_lt_Some _ _ _ Hc) as Hlt.
    pose proof (inv_not_init s c _ HI Hc eq_refl) as Ht.
    assert (∀ pc err', (∀ d' c', pc ≠ SApply d' c') → (err' = None → ∃ d nm conf, pc = SInitialized d nm conf) → (∀ d nm conf, pc = SInitialized d nm conf → err' = None) →
      standby_inv (set_pc (s <| sb_pc := pc |>) c (HReport err'))) as Hx.
    { intros pc err' Hna He Hi. destruct (served_update s (set_pc (s <| sb_pc := pc |>) c (HReport err')) c (HResult d) (HReport err') HI Hc eq_refl) as [U1 U2]; [done|cbn; naive_solver|].
      split; [exact U1|exact U2|..]; cbn; [by right; left|by intros ? ? ?%Hna|congruence| |].
      - intros c0. destruct (decide (c0 = c)) as [->|Hne]; [rewrite list_lookup_insert_eq by done; intros [= ->]; by apply He|].
        rewrite list_lookup_insert_ne by done. intros (? & ? & ? & ?)%H6. congruence.
      - intros d' nm conf E. right. exists c. rewrite list_lookup_insert_eq by done. by rewrite (Hi d' nm conf E). }
    unfold apply_data. destruct err as [e|]; [apply Hx; naive_solver|].
    destruct (Config.GenerateNodeMapAndConfig (in_Config d)) as [[[nm conf]|e]| |]; [destruct (startable conf); [apply Hx; naive_solver|]|..];
      (split; cbn; [exact H1|exact H2|exact H3|done|congruence| |done]; intros c0 (? & ? & ? & ?)%H6; congruence).
  - destruct (sb_handlers s !! c) as [[]|] eqn:Hc; try done. pose proof (inv_not_init s c _ HI Hc eq_refl) as Ht. injection Hs as Hs.
    unfold report in Hs. destruct err as [e|]; injection Hs as <- _.
    + apply (inv_move s c (HReport (Some e)) HReturned Listening HI Hc); try done; rewrite Ht; naive_solver.
    + apply (inv_move s c (HReport None) HReturned Initialized HI Hc); try done; rewrite Ht; naive_solver.
Qed.

(** * Initialisation happens once *)

Definition is_success (o : InitOut) : bool := match o with TransferResponse _ ok _ => ok | _ => false end.
Definition successes (outs : list InitOut) : nat := length (filter (λ o, is_success o = true) outs).

Lemma successes_app o1 o2 : successes (o1 ++ o2) = (successes o1 + successes o2)%nat.
Proof. unfold successes. by rewrite filter_app, length_app. Qed.

(** A report of success makes the state, which then stays. *)
Lemma init_step_success s ev s' o : ev ≠ EvStop → standby_inv s → init_step s ev = Some (s', o) →
  (sb_state s = Initialized → sb_state s' = Initialized ∧ successes o = 0%nat) ∧
  (successes o <= 1)%nat ∧ ((0 < successes o)%nat → sb_state s' = Initialized).
Proof.
  intros Hns HI Hs. unfold init_step in Hs. destruct (panicked s); [done|].
  assert (∀ c pc, sb_handlers s !! c = Some pc → busy pc = true → sb_state s ≠ Initialized) as Hb
    by (intros c pc Hc Hb E; rewrite (inv_not_init s c pc HI Hc Hb) in E; done).
  assert (sb_state s' = sb_state s → o = [] → (sb_state s = Initialized → sb_state s' = Initialized ∧ successes o = 0%nat) ∧
    (successes o <= 1)%nat ∧ ((0 < successes o)%nat → sb_state s' = Initialized)) as Hsame.
  { intros E ->. split_and!; [by rewrite E|by vm_compute; lia|intros Hx; by vm_compute in Hx; lia]. }
  destruct ev as [|c dec enc|c enc|c od|c|err|c enc|]; [..|done].
  - destruct (sb_open s); [|done]. injection Hs as <- <-. by apply Hsame.
  - destruct (sb_handlers s !! c) as [[]|] eqn:Hc; try done. injection Hs as Hs. unfold handle_request in Hs.
    destruct dec; cbn [negb] in Hs; [|injection Hs as <- <-; by apply Hsame].
    case_bool_decide as Hl; [|injection Hs as <- <-; by apply Hsame].
    destruct enc; injection Hs as <- <-; (split; [by rewrite Hl|]); (split; [vm_compute; lia|intros Hx; vm_compute in Hx; lia]).
  - destruct (sb_handlers s !! c) as [[]|] eqn:Hc; try done. injection Hs as <- <-.
    destruct enc; [|by apply Hsame]. split; [done|]. split; [vm_compute; lia|intros Hx; vm_compute in Hx; lia].
  - destruct (sb_handlers s !! c) as [[]|] eqn:Hc; try done. injection Hs as <- <-.
    split; [intros E; by destruct (Hb c _ Hc eq_refl)|]. split; [vm_compute; lia|intros Hx; vm_compute in Hx; lia].
  - destruct (sb_handlers s !! c) as [[]|] eqn:Hc; try done. destruct (sb_pc s); try done. injection Hs as <- <-. by apply Hsame.
  - destruct (sb_pc s) as [|d c| | |] eqn:Hp; try done. injection Hs as <- <-. apply Hsame; [|done].
    unfold apply_data. destruct err; [done|]. destruct (Config.GenerateNodeMapAndConfig (in_Config d)) as [[[nm conf]|]| |]; [destruct (startable conf)|..]; done.
  - destruct (sb_handlers s !! c) as [[]|] eqn:Hc; try done. injection Hs as Hs. unfold report in Hs.
    destruct err as [e|]; injection Hs as <- <-; (split; [intros E; by destruct (Hb c _ Hc eq_refl)|]); destruct enc;
      (split; [vm_compute; lia|try done; intros Hx; vm_compute in Hx; lia]).
Qed.

Lemma init_run_inv s evs s' outs : EvStop ∉ evs → standby_inv s → init_run s evs = Some (s', outs) →
  standby_inv s' ∧ (successes outs <= 1)%nat ∧
  (sb_state s = Initialized → sb_state s' = Initialized ∧ successes outs = 0%nat) ∧
  ((0 < successes outs)%nat → sb_state s' = Initialized).
Proof.
  revert s outs. induction evs as [|ev evs IH]; intros s outs Hns HI Hr; cbn in Hr.
  { injection Hr as <- <-. split_and!; [done|by vm_compute; lia|done|intros Hx; by vm_compute in Hx; lia]. }
  apply bind_Some in Hr as ([s1 o1] & H1 & Hr). apply bind_Some in Hr as ([s2 o2] & H2 & Hr). injection Hr as <- <-.
  apply not_elem_of_cons in Hns as [Hev Hns].
  pose proof (init_step_inv s ev s1 o1 (not_eq_sym Hev) HI H1) as HI1.
  destruct (init_step_success s ev s1 o1 (not_eq_sym Hev) HI H1) as (A1 & A2 & A3).
  destruct (IH s1 o2 Hns HI1 H2) as (B1 & B2 & B3 & B4). rewrite successes_app. split_and!; [done|..].
  - destruct (decide (0 < successes o1)%nat) as [Hp|]; [|lia]. destruct (B3 (A3 Hp)). lia.
  - intros E. destruct (A1 E) as [E1 Z1]. destruct (B3 E1). split; [done|lia].
  - intros Hp. destruct (decide (0 < successes o1)%nat) as [Hp1|]; [by apply B3, A3|]. apply B4. lia.
Qed.


Definition waits_main (pc : HandlerPc) : bool := match pc with HOffer _ | HResult _ => true | _ => false end.

(** After an error nobody receives from the connections any more, and nobody
    answers them: one that offers its data, or waits for the result, does so for
    ever. *)
Lemma aborted_stays evs s s' outs e :
  sb_pc s = SAborted e → init_run s evs = Some (s', outs) → sb_pc s' = SAborted e ∧
  (∀ c pc, waits_main pc = true → sb_handlers s !! c = Some pc → sb_handlers s' !! c = Some pc).
Proof.
  revert s outs. induction evs as [|ev evs IH]; intros s outs Hp Hr; cbn in Hr; [by injection Hr as <- _|].
  apply bind_Some in Hr as ([s1 o1] & H1 & Hr). apply bind_Some in Hr as ([s2 o2] & H2 & Hr). injection Hr as -> _.
  assert (sb_pc s1 = SAborted e ∧ ∀ c pc, waits_main pc = true → sb_handlers s !! c = Some pc → sb_handlers s1 !! c = Some pc) as [Hp1 Hh1];
    [|destruct (IH s1 o2 Hp1 H2); split; auto].
  unfold init_step in H1. destruct (panicked s); [done|].
  assert (∀ t c pc pc', sb_handlers t = sb_handlers s → sb_handlers s !! c = Some pc → waits_main pc = false →
    ∀ c0 pc0, waits_main pc0 = true → sb_handlers s !! c0 = Some pc0 → sb_handlers (set_pc t c pc') !! c0 = Some pc0) as Hset.
  { intros t c pc pc' E Hc Hn c0 pc0 Hw H0. cbn. rewrite E. rewrite list_lookup_insert_ne; [done|]. intros ->. congruence. }
  destruct ev as [|c dec enc|c enc|c od|c|err|c enc|].
  - destruct (sb_open s); [|done]. injection H1 as <- _. split; [done|]. intros c pc _ Hc. by apply lookup_app_l_Some.
  - destruct (sb_handlers s !! c) as [[]|] eqn:Hc; try done. injection H1 as H1. unfold handle_request in H1. destruct dec; cbn [negb] in H1;
      [case_bool_decide; [destruct enc|]|]; injection H1 as <- _; (split; [exact Hp|by eapply Hset; [..|exact Hc|]]).
  - destruct (sb_handlers s !! c) as [[]|] eqn:Hc; try done. injection H1 as <- _. split; [exact Hp|by eapply Hset; [..|exact Hc|]].
  - destruct (sb_handlers s !! c) as [[]|] eqn:Hc; try done. injection H1 as <- _. destruct od; (split; [exact Hp|by eapply Hset; [..|exact Hc|]]).
  - destruct (sb_handlers s !! c) as [[]|] eqn:Hc; try done. by rewrite Hp in H1.
  - by rewrite Hp in H1.
  - destruct (sb_handlers s !! c) as [[]|] eqn:Hc; try done. injection H1 as H1. unfold report in H1. destruct err; injection H1 as <- _; (split; [exact Hp|by eapply Hset; [..|exact Hc|]]).
  - injection H1 as <- _. by split.
Qed.

(** The last error of [Standby] is never reached: a configuration with another
    failure handling makes the replica panic before. *)
Theorem unstartable_panics s d c :
  (∀ nm conf, Config.GenerateNodeMapAndConfig (in_Config d) = Ok (inl (nm, conf)) → startable conf = true) ∧
  (startable (newConfigFromValues (cw_ConfigMap (in_Config d))) = false → panicked (apply_data s d c None) = true).
Proof.
  assert (∀ nm conf, Config.GenerateNodeMapAndConfig (in_Config d) = Ok (inl (nm, conf)) → startable conf = true ∧ conf = newConfigFromValues (cw_ConfigMap (in_Config d))) as H.
  { intros nm conf Hg. unfold Config.GenerateNodeMapAndConfig in Hg. unfold startable. case_bool_decide as H1.
    - apply bind_Ok in Hg as (nm' & _ & [= _ <-]). split; [|done]. apply bool_decide_true. by apply elem_of_cons; right.
    - case_bool_decide as H2; [|done]. destruct (cw_NodeMap _ !! _); [|done]. apply bind_Ok in Hg as (nm' & _ & [= _ <-]).
      split; [|done]. apply bool_decide_true. rewrite H2. by apply elem_of_cons; left. }
  split; [intros nm conf Hg; by apply (H nm conf Hg)|]. intros Hst. unfold apply_data.
  destruct (Config.GenerateNodeMapAndConfig (in_Config d)) as [[[nm conf]|]| |]; [|done..].
  destruct (H nm conf eq_refl) as [-> _]. destruct (H nm conf eq_refl) as [E ->]. congruence.
Qed.
End standby.

(** * The other side (init_node.go) *)

Inductive InitErr := InitConnect | InitSend | InitReceive | InitRefused (st : InitState) | InitFailed (reason : string).

(** [iresp] and [tresp] are the responses received. *)
Definition InitNode (connected sentReq : bool) (iresp : option (bool * InitState)) (sentData : bool)
    (tresp : option (bool * string)) : option InitErr :=
  if negb connected then Some InitConnect
  else if negb sentReq then Some InitSend
  else match iresp with
       | None => Some InitReceive
       | Some (ack, st) =>
           if negb ack then Some (InitRefused st)
           else if negb sentData then Some InitSend
           else match tresp with
                | None => Some InitReceive
                | Some (success, errorString) => if negb success then Some (InitFailed errorString) else None
                end
       end.

(** * Machines for new replicas (kvs_provider.go, mock_provider.go, noop_provider.go, get.go) *)

Record KvsReplicaProvider := mkKvsProvider { kp_counter : Z; kp_standbys : list Node }.

Definition NewKvsReplicaProvider (startc : Z) (standbys : list Node) : res KvsReplicaProvider :=
  if decide (len standbys = 0) then Panic else Ok (mkKvsProvider (Z.rem (Z.quot startc 2) (len standbys)) standbys).

Definition KvsGetReplica (krp : KvsReplicaProvider) : res ((Node + string) * KvsReplicaProvider) :=
  if bool_decide (len (kp_standbys krp) = 0) then mret (inr "no replica available", krp)
  else
    replica ← slice_get (kp_standbys krp) (kp_counter krp);
    let c := Z.to_nat (kp_counter krp) in
    if bool_decide (kp_counter krp = len (kp_standbys krp) - 1)
    then mret (inl replica, mkKvsProvider 0 (take c (kp_standbys krp)))
    else mret (inl replica, mkKvsProvider (kp_counter krp) (take c (kp_standbys krp) ++ drop (S c) (kp_standbys krp))).

Inductive ReplicaProvider := Noop | Mock | Kvs (p : KvsReplicaProvider).

Definition GetReplica (rp : ReplicaProvider) : res ((Node + string) * ReplicaProvider) :=
  match rp with
  | Noop => mret (inr "peplica provider disabled, no available replica", rp)
  | Mock => mret (inl (NewNode "127.0.0.1" "9020" "9021" true true true), rp)
  | Kvs p => '(r, p) ← KvsGetReplica p; mret (r, Kvs p)
  end.

(** The provider is made by the first call and shared by all modules. *)
Definition GetReplicaProvider (rp : option ReplicaProvider) (pid : Z) (cfg : Config) : res ReplicaProvider :=
  match rp with
  | Some rp => mret rp
  | None =>
      let provider := TrimSpace (ToLower (GetString cfg "nodeInitReplicaProvider" DefNodeInitReplicaProvider)) in
      if bool_decide (provider = "mock") then mret Mock
      else if bool_decide (provider = "kvs") then
        let standbys := match GetNodeList cfg "nodeInitStandbys" with inl l => l | inr _ => [] end in
        p ← NewKvsReplicaProvider pid standbys; mret (Kvs p)
      else mret Noop
  end.

(** The first [n] answers. *)
Fixpoint kvs_replicas (n : nat) (krp : KvsReplicaProvider) : res (list (Node + string) * KvsReplicaProvider) :=
  match n with
  | O => mret ([], krp)
  | S n => '(r, krp) ← KvsGetReplica krp; '(rs, krp) ← kvs_replicas n krp; mret (r :: rs, krp)
  end.

Lemma kvs_replicas_app n k krp rs krp' :
  kvs_replicas n krp = Ok (rs, krp') → kvs_replicas (n + k) krp = ('(rs', krp) ← kvs_replicas k krp'; mret (rs ++ rs', krp)).
Proof.
  revert krp rs. induction n as [|n IH]; intros krp rs Hr; cbn in Hr.
  - injection Hr as <- <-. cbn. by destruct (kvs_replicas k krp) as [[]| |].
  - apply bind_Ok in Hr as ([r k1] & E1 & Hr). apply bind_Ok in Hr as ([rs1 k2] & E2 & Hr). injection Hr as <- <-.
    cbn [Nat.add kvs_replicas]. rewrite E1. cbn. rewrite (IH k1 rs1 E2). by destruct (kvs_replicas k k2) as [[]| |].
Qed.

(** From the counter on: the machines up to the end. *)
Lemma kvs_replicas_end pre post : post ≠ [] →
  kvs_replicas (length post) (mkKvsProvider (len pre) (pre ++ post)) = Ok (inl <$> post, mkKvsProvider 0 pre).
Proof.
  induction post as [|x post IH]; intros Hn; [done|]. cbn [length kvs_replicas]. unfold KvsGetReplica at 1. cbn [kp_standbys kp_counter].
  rewrite bool_decide_false by (rewrite length_app; cbn; lia).
  assert (slice_get (pre ++ x :: post) (len pre) = Ok x) as ->.
  { apply slice_get_Ok. split; [lia|]. by rewrite Nat2Z.id, list_lookup_middle. }
  cbn [mbind res_bind]. rewrite Nat2Z.id. rewrite take_app_length. destruct post as [|y post].
  - rewrite bool_decide_true by (rewrite length_app; cbn; lia). done.
  - rewrite bool_decide_false by (rewrite length_app; cbn; lia). cbn [mret res_ret mbind res_bind].
    replace (drop (S (length pre)) (pre ++ x :: y :: post)) with (y :: post); [by rewrite IH|].
    rewrite drop_app_ge by lia. by replace (S (length pre) - length pre)%nat with 1%nat by lia.
Qed.

(** Every machine is handed out once, from the one the counter is at, around the
    list; then there is an error. *)
Theorem standbys_handed_out startc standbys krp :
  0 <= startc → NewKvsReplicaProvider startc standbys = Ok krp →
  let c := Z.to_nat (kp_counter krp) in
  ∃ krp', kvs_replicas (length standbys) krp = Ok (inl <$> (drop c standbys ++ take c standbys), krp') ∧
    KvsGetReplica krp' = Ok (inr "no replica available", krp').
Proof.
  intros Hs Hn. unfold NewKvsReplicaProvider in Hn. case_decide as H0; [done|]. injection Hn as <-. cbn [kp_counter].
  set (k := Z.rem (Z.quot startc 2) (len standbys)). assert (0 <= k < len standbys) as Hk.
  { apply Z.rem_bound_pos; [apply Z.quot_pos; lia|lia]. }
  set (c := Z.to_nat k). assert (k = len (take c standbys)) as Ek by (rewrite length_take; lia).
  assert (drop c standbys ≠ []) as Hd by (intros E; apply (f_equal length) in E; rewrite length_drop in E; cbn in E; lia).
  pose proof (kvs_replicas_end (take c standbys) (drop c standbys) Hd) as H1. rewrite take_drop, <- Ek in H1.
  assert (length standbys = length (drop c standbys) + length (take c standbys))%nat as -> by (rewrite length_drop, length_take; lia).
  rewrite (kvs_replicas_app _ _ _ _ _ H1). destruct (decide (take c standbys = [])) as [Et|Et].
  - rewrite Et. cbn. exists (mkKvsProvider 0 []). split; [|done]. by rewrite !app_nil_r.
  - pose proof (kvs_replicas_end [] (take c standbys) Et) as H2. change (mkKvsProvider (len []) ([] ++ take c standbys)) with (mkKvsProvider 0 (take c standbys)) in H2. cbn. rewrite H2. cbn. exists (mkKvsProvider 0 []).
    split; [by rewrite fmap_app|done].
Qed.

(** Without machines in the configuration the constructor divides by zero. *)
Theorem no_standbys_panics pid cfg :
  TrimSpace (ToLower (GetString cfg "nodeInitReplicaProvider" DefNodeInitReplicaProvider)) = "kvs" →
  (∀ l, GetNodeList cfg "nodeInitStandbys" = inl l → l = []) → GetReplicaProvider None pid cfg = Panic.
Proof.
  intros Hp Hl. unfold GetReplicaProvider. rewrite Hp. rewrite bool_decide_false, bool_decide_true by done.
  destruct (GetNodeList cfg "nodeInitStandbys") as [l|e] eqn:E; [by rewrite (Hl l eq_refl)|done].
Qed.

(** * Examples *)

Definition ex_data : InitData :=
  mkInitData (ex_id 2) (mkTransferWrapper (ex_id 2) ex_nodes {[ "failureHandlingType" := "Reconfiguration" ]} 3 3) (mkAppState 7 []).
Definition ex_init_events : list InitEvent :=
  [EvConnect; EvConnect; EvRequest 1 true true; EvRequest 0 true true; EvData 1 (Some ex_data); EvNack 0 true; EvOffer 1; EvApply None;
   EvReport 1 true; EvConnect; EvRequest 2 true true; EvNack 2 true].
Definition ex_init_run := default (standby_start, []) (init_run standby_start ex_init_events).


(** A listener that was stopped listens again when the data of a connection
    fails to arrive. *)
Example stopped_listens_again :
  (λ p, sb_state p.1) <$> init_run standby_start [EvConnect; EvRequest 0 true true; EvStop; EvData 0 None] = Some Listening.
Proof. vm_compute. reflexivity. Qed.

Lemma aborted_stays_witness :
  let s := (default (standby_start, []) (init_run standby_start
    [EvConnect; EvRequest 0 true true; EvData 0 (Some ex_data); EvOffer 0; EvApply (Some "gob"); EvReport 0 true;
     EvConnect; EvRequest 1 true true; EvData 1 (Some ex_data)])).1 in
  let s' := (default (s, []) (init_run s [EvConnect])).1 in sb_handlers s' !! 1%nat = Some (HOffer ex_data).
Proof.
  intros s s'. destruct (aborted_stays [EvConnect] s s' (default (s, []) (init_run s [EvConnect])).2
    "Initialization abort on event: setting application state failed, reason: gob") as [_ Hh]; [vm_compute; reflexivity..|].
  apply Hh; vm_compute; reflexivity.
Defined.

Definition ex_unstartable : InitData :=
  mkInitData (ex_id 2) (mkTransferWrapper (ex_id 2) ex_nodes {[ "failureHandlingType" := " Reconfiguration" ]} 3 3) (mkAppState 7 []).
Example spaces_panic :
  (λ p, panicked p.1) <$> init_run standby_start [EvConnect; EvRequest 0 true true; EvData 0 (Some ex_unstartable); EvOffer 0; EvApply None] = Some true.
Proof. vm_compute. reflexivity. Qed.

Definition ex_standbys : list Node := [NewNode "a" "1" "2" true true true; NewNode "b" "1" "2" true true true; NewNode "c" "1" "2" true true true].
Lemma standbys_handed_out_witness : ∃ krp', kvs_replicas 3 (mkKvsProvider 1 ex_standbys) =
  Ok (inl <$> [NewNode "b" "1" "2" true true true; NewNode "c" "1" "2" true true true; NewNode "a" "1" "2" true true true], krp').
Proof.
  destruct (standbys_handed_out 2 ex_standbys (mkKvsProvider 1 ex_standbys)) as (krp' & Hr & _); [lia|vm_compute; reflexivity|].
  exists krp'. exact Hr.
Defined.

Lemma no_standbys_panics_witness : GetReplicaProvider None 0 (Config_Set NewConfig "nodeInitReplicaProvider" " Kvs") = Panic.
Proof. apply (no_standbys_panics 0 (Config_Set NewConfig "nodeInitReplicaProvider" " Kvs")); [vm_compute; reflexivity|]. vm_compute. by intros l [= <-]. Defined.
