(* ===== verification/Modules.v ===== *)
(** How a replica is put together, started and stopped (src/server/init.go,
    start.go, stop.go, server.go, standby_server.go), and the replica that
    applications use (src/goxos.go, goxos_standby.go).

    Of a module the state says whether it exists, whether its goroutine runs,
    and how its [Start] and [Stop] report to the wait group that [Stop] waits
    for. A goroutine that runs takes its stop signal; the constructors return,
    and the sockets can be opened. A dereference of nil and [glog.Fatal] end the
    process, as a panic does. *)
From S2P Require Import Prelude Grp PaxosTypes GoStrings RingReplacer Config NodeInit.

(** * Settings *)

Inductive Protocol := MultiPaxos | ParallelPaxos | FastPaxos | BatchPaxos | AuthenticatedBC | ReliableBC | UnknownProtocol.
#[export] Instance Protocol_eq_dec : EqDecision Protocol.
Proof. solve_decision. Defined.
Definition protocol_case (p : string) : Protocol :=
  if bool_decide (p = "multipaxos") then MultiPaxos
  else if bool_decide (p = "parallelpaxos") then ParallelPaxos
  else if bool_decide (p = "fastpaxos") then FastPaxos
  else if bool_decide (p = "batchpaxos") then BatchPaxos
  else if bool_decide (p = "authenticatedbc") then AuthenticatedBC
  else if bool_decide (p = "reliablebc") then ReliableBC
  else UnknownProtocol.
Definition protocol (c : Config) : Protocol := protocol_case (TrimSpace (ToLower (GetString c "protocol" DefProtocol))).
Definition broadcast_protocol (p : Protocol) : bool := match p with AuthenticatedBC | ReliableBC => true | _ => false end.

(** "none" and what is not understood are the same. *)
Inductive FailureHandling := NoHandling | LiveReplacement | Reconfiguration | AReconfiguration.
#[export] Instance FailureHandling_eq_dec : EqDecision FailureHandling.
Proof. solve_decision. Defined.
Definition handling_case (t : string) : FailureHandling :=
  if bool_decide (t = "livereplacement") then LiveReplacement
  else if bool_decide (t = "reconfiguration") then Reconfiguration
  else if bool_decide (t = "areconfiguration") then AReconfiguration
  else NoHandling.
Definition fhType (c : Config) : string := GetString c "failureHandlingType" DefFailureHandlingType.
(** As [initFailureHandling] reads it, and as everything else does. *)
Definition trimmed_handling (c : Config) : FailureHandling := handling_case (TrimSpace (ToLower (fhType c))).
Definition handling (c : Config) : FailureHandling := handling_case (ToLower (fhType c)).

(** * The modules of a server *)

Inductive Submodule :=
| grpmgr | dmx | snd | hbem | fd | ld | prop | acc | lrn | clientHandler | ringReplacer | replacementHandler | reconfigHandler | aReconfHandler.
#[export] Instance Submodule_eq_dec : EqDecision Submodule.
Proof. solve_decision. Defined.

(** [Loop]: [Start] runs a goroutine that reports when [Stop] has told it to.
    [MultiProposer]: the same if it is startable. [Role]: [Stop] does so only if
    it runs. [Processors]: [Stop] itself reports if it runs. [Reports]: [Stop]
    reports. [Publisher]: [Start] reports, and runs a goroutine on one node.
    [Ring]: a [Loop] that subscribes to the failure detector. [Mock]: nothing. *)
Inductive Kind :=
| Loop | MultiProposer (startable : bool) | Role (startable : bool) | Processors (startable : bool) | Reports
| Publisher (first : bool) | Ring (hasFd : bool) | Mock.

Inductive Action :=
| AStart (m : Submodule) | AInitialConnect | AWaitForActivation | AWaitForFirstSlot | AWaitForJoin | AWaitForValidActivation | ARun.

(** What the Paxos actors are created with. *)
Record Pack := mkPack { pp_RunProp : bool; pp_RunAcc : bool; pp_RunLrn : bool; pp_FirstSlot : Z; pp_NextExpectedDcd : Z }.

Record Server := mkServer {
  s_id : ID; s_config : Config; s_nodes : NodeMap; s_replacer : bool; s_localAru : Z; s_firstSlot : Z;
  s_lrEnabled : bool; s_arEnabled : bool;
  s_rp : option ReplicaProvider;            (* of package nodeinit *)
  s_mods : list (Submodule * Kind);         (* the latest first *)
  s_running : list (Submodule * bool);      (* so here *)
  s_pack : option Pack;
  s_wg : nat;                               (* subModulesStopSync *)
  s_run : bool;                             (* run's goroutine *)
  s_stuck : bool;                           (* stop waits for ever *)
  s_log : list Action }.
#[export] Instance eta_Server : Eta Server := λ r,
  mkServer (s_id r) (s_config r) (s_nodes r) (s_replacer r) (s_localAru r) (s_firstSlot r) (s_lrEnabled r) (s_arEnabled r)
    (s_rp r) (s_mods r) (s_running r) (s_pack r) (s_wg r) (s_run r) (s_stuck r) (s_log r).

Fixpoint latest {A} (m : Submodule) (l : list (Submodule * A)) : option A :=
  match l with [] => None | (m', x) :: l => if decide (m' = m) then Some x else latest m l end.
Definition module_of (m : Submodule) (s : Server) : option Kind := latest m (s_mods s).
Definition is_running (m : Submodule) (s : Server) : bool := match latest m (s_running s) with Some b => b | None => false end.

Section modules.
Context {RO : RangeOrder}.
Implicit Types s : Server.

(** [NewServer] and [NewStandbyServer]; [rp] is what the process has already. *)
Definition NewServer (id : ID) (c : Config) (rp : option ReplicaProvider) : res Server :=
  nm ← initNodeMap c;
  mret (mkServer id c nm false 0 1 false false rp [] [] None 0 false false []).
Definition NewStandbyServer (id : ID) (nm : NodeMap) (c : Config) (slotMarker : Z) (rp : option ReplicaProvider) : Server :=
  mkServer id c nm (match handling c with LiveReplacement | AReconfiguration => true | _ => false end) slotMarker (u64 (slotMarker + 1))
    false false rp [] [] None 0 false false [].

(** ** Initialisation (init.go) *)

Definition new_module (m : Submodule) (k : Kind) s : Server :=
  s <| s_mods ::= cons (m, k) |> <| s_running ::= cons (m, false) |>.
Definition exists_module (m : Submodule) s : bool := match module_of m s with Some _ => true | None => false end.
(** A use of the module in a constructor. *)
Definition uses (m : Submodule) s : res unit := if exists_module m s then mret () else Panic.

Definition initGroupManager s : res Server :=
  mret (new_module grpmgr Loop s
    <| s_lrEnabled := bool_decide (handling (s_config s) = LiveReplacement) |> <| s_arEnabled := bool_decide (handling (s_config s) = AReconfiguration) |>).
Definition initNetwork s : res Server :=
  let '(_, found) := LookupNode (s_nodes s) (s_id s) in
  if negb found then Panic else mret (new_module snd Loop (new_module dmx Reports s)).
Definition initLiveness s : res Server :=
  if broadcast_protocol (protocol (s_config s)) then mret s
  else mret (new_module ld Loop (new_module fd Loop (new_module hbem Loop s))).

Definition paxos_modules s (p a l : Kind) : Server := new_module lrn l (new_module acc a (new_module prop p s)).

(** The publisher of the broadcast protocols. *)
Definition publishes (id : ID) : bool := bool_decide (PxID id = 0).

Definition initPaxos s : res Server :=
  let '(node, exists_) := LookupNode (s_nodes s) (s_id s) in
  if negb exists_ then Panic else
  let s := s <| s_pack := Some (mkPack (Proposer node) (Acceptor node) (Learner node) (s_firstSlot s) (u64 (s_localAru s + 1))) |> in
  match protocol (s_config s) with
  | MultiPaxos => uses ld s;; mret (paxos_modules s (MultiProposer (Proposer node)) (Role (Acceptor node)) (Role (Learner node)))
  | ParallelPaxos =>
      if s_lrEnabled s || s_arEnabled s then Panic else
      uses ld s;; mret (paxos_modules s (Processors true) (Processors (Acceptor node && Learner node)) (Processors (Acceptor node && Learner node)))
  | FastPaxos => Panic
  | BatchPaxos => uses ld s;; mret (paxos_modules s Reports Loop Reports)
  | AuthenticatedBC => mret (paxos_modules s (Publisher (publishes (s_id s))) Loop Loop)
  | ReliableBC => mret (paxos_modules s (Publisher (publishes (s_id s))) (Role true) Loop)
  | UnknownProtocol => Panic
  end.

Definition initRingReplacer s : res Server :=
  rp ← GetReplicaProvider (s_rp s) (PxID (s_id s)) (s_config s);
  mret (new_module ringReplacer (Ring (exists_module fd s)) (s <| s_rp := Some rp |>)).

Definition initFailureHandling s : res Server :=
  match trimmed_handling (s_config s) with
  | NoHandling => mret s
  | LiveReplacement => mret (new_module replacementHandler Loop s)
  | Reconfiguration =>
      uses ld s;; rp ← GetReplicaProvider (s_rp s) 0 (s_config s); mret (new_module reconfigHandler Loop (s <| s_rp := Some rp |>))
  | AReconfiguration =>
      uses ld s;; rp ← GetReplicaProvider (s_rp s) 0 (s_config s); mret (new_module aReconfHandler Loop (s <| s_rp := Some rp |>))
  end.

Definition initClientHandler s : res Server :=
  if broadcast_protocol (protocol (s_config s)) then mret (new_module clientHandler Mock s)
  else
    let '(_, found) := LookupNode (s_nodes s) (s_id s) in
    if negb found then Panic else uses ld s;; mret (new_module clientHandler Loop s).

Definition InitModules s : res Server :=
  s ← initGroupManager s; s ← initNetwork s; s ← initLiveness s; s ← initPaxos s; s ← initRingReplacer s; s ← initFailureHandling s; initClientHandler s.
Definition InitModulesReconfig s : res Server :=
  s ← initGroupManager s; s ← initNetwork s; s ← initLiveness s; s ← initRingReplacer s; s ← initFailureHandling s; initClientHandler s.

(** ** Start (start.go, standby_server.go) *)

Definition act (a : Action) s : Server := s <| s_log ::= λ l, l ++ [a] |>.
Definition wg_Done s : res Server := match s_wg s with O => Panic | S n => mret (s <| s_wg := n |>) end.
Definition launch (m : Submodule) (startable : bool) s : Server := if startable then s <| s_running ::= cons (m, true) |> else s.

(** [subModulesStopSync.Add(1)] and the module's [Start]. *)
Definition start_module (m : Submodule) s : res Server :=
  match module_of m s with
  | None => Panic
  | Some k =>
      let s := act (AStart m) (s <| s_wg ::= S |>) in
      match k with
      | Loop => mret (launch m true s)
      | MultiProposer st | Role st | Processors st => mret (launch m st s)
      | Reports | Mock => mret s
      | Publisher first => wg_Done (launch m first s)
      | Ring hasFd => if hasFd then mret (launch m true s) else Panic
      end
  end.

Definition grpmgrStart s : res Server := start_module grpmgr s.
Definition networkStart (doInitialConnect : bool) s : res Server :=
  s ← start_module dmx s; start_module snd (if doInitialConnect then act AInitialConnect s else s).
Definition paxosStart s : res Server := s ← start_module prop s; s ← start_module acc s; start_module lrn s.
Definition startHbEmitter s : res Server := start_module hbem s.
Definition startFdAndLd s : res Server := s ← start_module fd s; start_module ld s.
Definition livenessStart s : res Server :=
  if broadcast_protocol (protocol (s_config s)) then mret s else s ← startHbEmitter s; startFdAndLd s.
Definition clientHandlerStart s : res Server := start_module clientHandler s.
Definition failureHandlingStart s : res Server :=
  match handling (s_config s) with
  | NoHandling => mret s
  | LiveReplacement => start_module replacementHandler s
  | Reconfiguration => start_module reconfigHandler s
  | AReconfiguration => start_module aReconfHandler s
  end.
Definition ringReplacerStart s : res Server := start_module ringReplacer s.
Definition go_run s : Server := act ARun (s <| s_run := true |>).

Definition Start s : res Server :=
  s ← grpmgrStart s; s ← networkStart true s; s ← paxosStart s; s ← clientHandlerStart s; s ← ringReplacerStart s;
  s ← failureHandlingStart s; s ← livenessStart s; mret (go_run s).

(** The waits, once they are over. *)
Definition waitForActivation s : res Server :=
  s ← failureHandlingStart s; uses replacementHandler s;; mret (act AWaitForActivation s).
Definition StartReplacer s : res Server :=
  s ← grpmgrStart s; s ← networkStart false s; s ← startHbEmitter s; s ← waitForActivation s; s ← paxosStart s;
  s ← clientHandlerStart s; s ← startFdAndLd s; mret (go_run s).

(** [fs] is the first slot that is received. *)
Definition StartReconfig (fs : Z) s : res Server :=
  s ← grpmgrStart s; s ← networkStart false s; s ← ringReplacerStart s; s ← failureHandlingStart s;
  uses reconfigHandler s;;
  s ← initPaxos (act AWaitForFirstSlot s <| s_firstSlot := fs |>);
  s ← paxosStart s;
  s ← startHbEmitter (act AWaitForJoin s); s ← clientHandlerStart s; s ← startFdAndLd s; mret (go_run s).

Definition StartAReconfig s : res Server :=
  s ← grpmgrStart s; s ← networkStart false s; s ← startHbEmitter s; s ← failureHandlingStart s;
  uses aReconfHandler s;;
  s ← paxosStart (act AWaitForValidActivation s); s ← clientHandlerStart s; s ← startFdAndLd s; mret (go_run s).

(** ** Stop (stop.go) *)

Definition ErrShutdownTimeout : string := "stopping goxos submodules timed out (waited 500ms)".

(** A running goroutine ends and reports. *)
Definition finish (m : Submodule) s : res Server := wg_Done (s <| s_running ::= cons (m, false) |>).

Definition stop_module (m : Submodule) s : res Server :=
  if s_stuck s then mret s else
  match module_of m s with
  | None => Panic
  | Some k =>
      match k with
      | Loop | Ring _ => if is_running m s then finish m s else mret (s <| s_stuck := true |>)
      | MultiProposer st => if st then if is_running m s then finish m s else mret (s <| s_stuck := true |>) else mret s
      | Role _ | Processors _ => if is_running m s then finish m s else mret s
      | Reports => wg_Done s
      | Publisher _ => if is_running m s then mret (s <| s_running ::= cons (m, false) |>) else mret s
      | Mock => mret s
      end
  end.

Definition networkStop s : res Server := s ← stop_module dmx s; stop_module snd s.
Definition paxosStop s : res Server := s ← stop_module prop s; s ← stop_module acc s; stop_module lrn s.
Definition livenessStop s : res Server :=
  if broadcast_protocol (protocol (s_config s)) then mret s
  else s ← stop_module hbem s; s ← stop_module fd s; stop_module ld s.
Definition failureHandlingStop s : res Server :=
  match handling (s_config s) with
  | NoHandling => mret s
  | LiveReplacement => stop_module replacementHandler s
  | Reconfiguration => stop_module reconfigHandler s
  | AReconfiguration => stop_module aReconfHandler s
  end.
Definition stop s : res Server :=
  s ← stop_module grpmgr s; s ← networkStop s; s ← paxosStop s; s ← livenessStop s; s ← stop_module clientHandler s; failureHandlingStop s.

(** Without the event loop nobody takes the signal. *)
Definition Server_Stop s : res (option string * Server) :=
  if negb (s_run s) then Diverge
  else s ← stop s; mret (if bool_decide (s_wg s = 0%nat ∧ s_stuck s = false) then None else Some ErrShutdownTimeout, s <| s_run := false |>).

(** The rest of [StandbyReplica.Standby]: the server of a new replica;
    [fs] is the first slot that a reconfiguration gives it. *)
Definition standby_server (d : InitData) (nm : NodeMap) (c : Config) (rp : option ReplicaProvider) (fs : Z) : res Server :=
  let s := NewStandbyServer (in_ID d) nm c (st_SlotMarker (in_AppState d)) rp in
  match handling c with
  | LiveReplacement => s ← InitModules s; StartReplacer s
  | Reconfiguration => s ← InitModulesReconfig s; StartReconfig fs s
  | AReconfiguration => s ← InitModules s; StartAReconfig s
  | NoHandling => Panic
  end.

(** * The replica of an application (goxos.go) *)

Definition ErrNodeNotInitialized : string := "goxos node must be initialized before started".
Definition ErrCanNotStartAlreadyRunningNode : string := "can't start already running Goxos node".
Definition ErrCanNotStopNonRunningNode : string := "can't stop non-runnning Goxos node".
Definition ErrMethodUnavailable : string := "method unavailable for a Goxos replacer/reconfig node".

Record Replica := mkReplica { r_started : bool; r_id : ID; r_config : Config; r_initialized : bool; r_server : option Server; r_rp : option ReplicaProvider }.
#[export] Instance eta_Replica : Eta Replica := λ r, mkReplica (r_started r) (r_id r) (r_config r) (r_initialized r) (r_server r) (r_rp r).

Definition NewReplica (id : Z) (c : Config) : Replica := mkReplica false (NewIDFromInt (i8 id) 0) c false None None.
Definition Replica_Init (r : Replica) : res Replica :=
  s ← NewServer (r_id r) (r_config r) (r_rp r); mret (r <| r_server := Some s |> <| r_initialized := true |>).
Definition Replica_Start (r : Replica) : res (option string * Replica) :=
  if negb (r_initialized r) then mret (Some ErrNodeNotInitialized, r)
  else if r_started r then mret (Some ErrCanNotStartAlreadyRunningNode, r)
  else match r_server r with
       | None => Panic
       | Some s =>
           s ← InitModules s; s ← Start s;
           mret (None, r <| r_server := Some s |> <| r_rp := s_rp s |> <| r_started := true |>)
       end.
Definition Replica_Stop (r : Replica) : res (option string * Replica) :=
  if negb (r_started r) then mret (Some ErrCanNotStopNonRunningNode, r)
  else match r_server r with
       | None => Panic
       | Some s => '(e, s) ← Server_Stop s; mret (e, r <| r_server := Some s |> <| r_started := false |>)
       end.

(** A standby replica is started by [Standby] only. *)
Definition StandbyReplica_Init (r : Replica) : option string * Replica := (Some ErrMethodUnavailable, r).
Definition StandbyReplica_Start (r : Replica) : option string * Replica := (Some ErrMethodUnavailable, r).

Inductive Call := CInit | CStart | CStop.
Definition call (c : Call) (r : Replica) : res (option string * Replica) :=
  match c with CInit => r ← Replica_Init r; mret (None, r) | CStart => Replica_Start r | CStop => Replica_Stop r end.
Fixpoint calls (cs : list Call) (r : Replica) : res (list (option string) * Replica) :=
  match cs with
  | [] => mret ([], r)
  | c :: cs => '(e, r) ← call c r; '(es, r) ← calls cs r; mret (e :: es, r)
  end.
End modules.

(** * Starting and stopping *)

Section start_stop.
Context {RO : RangeOrder}.
Implicit Types s : Server.

Lemma handling_trim c : handling c ≠ NoHandling → trimmed_handling c = handling c.
Proof.
  unfold trimmed_handling, handling. set (t := ToLower (fhType c)). clearbody t. unfold handling_case at 1. intros H.
  repeat (case_bool_decide; [subst; vm_compute; reflexivity|]). done.
Qed.

(** The protocols that can be started, with the kinds of failure handling that
    go with them. *)
Definition supported (c : Config) : bool :=
  match protocol c with
  | MultiPaxos | BatchPaxos => true
  | ParallelPaxos => match handling c with NoHandling | Reconfiguration => true | _ => false end
  | _ => false
  end.

(** The actors that are started on a node that does not have the role. *)
Definition without_role (p : Protocol) (n : Node) : nat :=
  match p with
  | MultiPaxos => (if Proposer n then 0 else 1) + (if Acceptor n then 0 else 1) + (if Learner n then 0 else 1)
  | ParallelPaxos => if Acceptor n && Learner n then 0 else 2
  | _ => 0
  end.

Definition handler (h : FailureHandling) : list Submodule :=
  match h with NoHandling => [] | LiveReplacement => [replacementHandler] | Reconfiguration => [reconfigHandler] | AReconfiguration => [aReconfHandler] end.

Definition start_order (h : FailureHandling) : list Action :=
  [AStart grpmgr; AStart dmx; AInitialConnect; AStart snd; AStart prop; AStart acc; AStart lrn; AStart clientHandler; AStart ringReplacer] ++
  (AStart <$> handler h) ++ [AStart hbem; AStart fd; AStart ld; ARun].

(** A server that is not running. *)
Record idle s (n : Node) : Prop := {
  id_run : s_run s = false;
  id_stuck : s_stuck s = false;
  id_node : LookupNode (s_nodes s) (s_id s) = (n, true);
  id_supported : supported (s_config s) = true;
  id_running : ∀ m, is_running m s = true → m = ringReplacer;
}.

Lemma provider_again rp pid c : GetReplicaProvider (Some rp) pid c = Ok rp.
Proof. done. Qed.

Ltac crunch := repeat (progress lazy -[protocol handling trimmed_handling GetReplicaProvider LookupNode Proposer Acceptor Learner app u64 Z.add PxID publishes] ||
  match goal with
  | H : protocol _ = _ |- _ => rewrite H
  | H : handling _ = _ |- _ => rewrite H
  | H : trimmed_handling _ = _ |- _ => rewrite H
  | H : LookupNode _ _ = _ |- _ => rewrite H
  | H : GetReplicaProvider _ _ _ = _ |- _ => rewrite H
  | H : Proposer _ = _ |- _ => rewrite H
  | H : publishes _ = _ |- _ => rewrite H
  | H : Acceptor _ = _ |- _ => rewrite H
  | H : Learner _ = _ |- _ => rewrite H
  end || rewrite provider_again).

Lemma run_step {A B} (m : res A) a (f : A → res B) r : m = Ok a → f a = r → (m ≫= f) = r.
Proof. by intros ->. Qed.
Lemma run_panic {A B} (m : res A) (f : A → res B) : m = Panic → (m ≫= f) = Panic.
Proof. by intros ->. Qed.
Ltac steps := repeat (eapply run_step; [crunch; reflexivity|cbv beta]); crunch; reflexivity.

Lemma start_stop_once s n rp :
  idle s n → GetReplicaProvider (s_rp s) (PxID (s_id s)) (s_config s) = Ok rp →
  ∃ s1 s2, (s' ← InitModules s; Start s') = Ok s1 ∧ s_log s1 = s_log s ++ start_order (handling (s_config s)) ∧
    Server_Stop s1 = Ok (Some ErrShutdownTimeout, s2) ∧ s_wg s2 = S (without_role (protocol (s_config s)) n + s_wg s) ∧
    is_running ringReplacer s2 = true ∧ idle s2 n ∧ s_rp s2 = Some rp ∧ s_id s2 = s_id s ∧ s_config s2 = s_config s ∧ s_log s2 = s_log s1 ∧ s_rp s1 = Some rp.
Proof.
  intros [H1 H2 H3 H4 H5] Hp. destruct s as [id conf nm rep aru fs lr ar rp0 mods running pk wg run stuck log]. cbn in *. subst run stuck.
  assert (handling conf = NoHandling ∨ trimmed_handling conf = handling conf) as Ht
    by (destruct (decide (handling conf = NoHandling)); [by left|right; by apply handling_trim]).
  assert (∀ r, r = true ∨ r = false) as Hb by (intros []; auto).
  destruct (protocol conf) eqn:Ep; unfold supported in H4; rewrite Ep in H4; try discriminate H4;
  [destruct (Hb (Proposer n)) as [EP|EP], (Hb (Acceptor n)) as [EA|EA], (Hb (Learner n)) as [EL|EL]
  |destruct (Hb (Acceptor n)) as [EA|EA]; [destruct (Hb (Learner n)) as [EL|EL]|]|];
  destruct (handling conf) eqn:Eh; try discriminate H4; destruct (trimmed_handling conf) eqn:Et; try (destruct Ht as [Ht|Ht]; discriminate Ht).
  all: eexists _, _; split; [eapply run_step; [unfold InitModules; steps|cbv beta; unfold Start; steps]|].
  all: split; [crunch; rewrite <- !app_assoc; reflexivity|].
  all: split; [unfold Server_Stop; cbn [s_run negb]; eapply run_step; [unfold stop; steps|]; crunch; reflexivity|].
  all: split; [crunch; reflexivity|].
  all: split; [reflexivity|].
  all: split; [|repeat split; reflexivity].
  all: split; [reflexivity|reflexivity|exact H3|unfold supported; cbn [s_config]; by rewrite Ep, ?Eh|].
  all: intros []; lazy -[latest]; intros Hr; try discriminate Hr; try reflexivity; exact (H5 _ Hr).
Qed.

(** The server of a replica, started and stopped again and again. *)
Fixpoint cycles (k : nat) s : res (list (option string) * Server) :=
  match k with
  | O => mret ([], s)
  | S k => s ← InitModules s; s ← Start s; '(e, s) ← Server_Stop s; '(es, s) ← cycles k s; mret (e :: es, s)
  end.

(** Starting a server succeeds, in an order that depends on the handling of
    failures only, and stopping it stops every module but the ring replacer:
    [Stop] returns an error each time, and each time leaves behind the ring
    replacer and the actors that the node has no role for. *)
Theorem every_stop_times_out k s n rp :
  idle s n → GetReplicaProvider (s_rp s) (PxID (s_id s)) (s_config s) = Ok rp →
  ∃ s', cycles k s = Ok (replicate k (Some ErrShutdownTimeout), s') ∧ idle s' n ∧
    s_wg s' = (k * S (without_role (protocol (s_config s)) n) + s_wg s)%nat ∧
    s_log s' = s_log s ++ concat (replicate k (start_order (handling (s_config s)))).
Proof.
  revert s rp. induction k as [|k IH]; intros s rp Hs Hp; [exists s; rewrite app_nil_r; repeat split; by apply Hs|].
  destruct (start_stop_once s n rp Hs Hp) as (s1 & s2 & H1 & H2 & H3 & H4 & _ & H6 & H7 & H8 & H9 & H10 & _).
  destruct (IH s2 rp H6) as (s3 & R1 & R2 & R3 & R4); [by rewrite H7|]. exists s3. cbn [cycles].
  apply bind_Ok in H1 as (s0 & E0 & E1). rewrite E0. cbn [mbind res_bind]. rewrite E1. cbn [mbind res_bind]. rewrite H3. cbn [mbind res_bind].
  rewrite R1. cbn [mbind res_bind mret res_ret replicate concat]. split_and!; [done|done|rewrite R3, H4, H9; lia|].
  by rewrite R4, H9, H10, H2, <- app_assoc.
Qed.

(** ** The server of a new replica *)

Definition standby_order (h : FailureHandling) : list Action :=
  [AStart grpmgr; AStart dmx; AStart snd] ++
  match h with
  | LiveReplacement => [AStart hbem; AStart replacementHandler; AWaitForActivation; AStart prop; AStart acc; AStart lrn]
  | Reconfiguration => [AStart ringReplacer; AStart reconfigHandler; AWaitForFirstSlot; AStart prop; AStart acc; AStart lrn; AWaitForJoin; AStart hbem]
  | _ => [AStart hbem; AStart aReconfHandler; AWaitForValidActivation; AStart prop; AStart acc; AStart lrn]
  end ++ [AStart clientHandler; AStart fd; AStart ld; ARun].

(** C39: A new replica takes part in Paxos only when its handler says so, with
    reconfiguration from the slot that it was given; and it can be stopped
    without an error exactly if it has all roles and no ring replacer. *)
Theorem standby_starts d nm c rp rp' fs n :
  protocol c = MultiPaxos → handling c ≠ NoHandling → LookupNode nm (in_ID d) = (n, true) →
  GetReplicaProvider rp (PxID (in_ID d)) c = Ok rp' →
  let first := if decide (handling c = Reconfiguration) then fs else u64 (st_SlotMarker (in_AppState d) + 1) in
  ∃ s1 s2 e, standby_server d nm c rp fs = Ok s1 ∧ s_log s1 = standby_order (handling c) ∧
    s_pack s1 = Some (mkPack (Proposer n) (Acceptor n) (Learner n) first (u64 (st_SlotMarker (in_AppState d) + 1))) ∧
    Server_Stop s1 = Ok (e, s2) ∧
    (e = None ↔ (handling c ≠ Reconfiguration ∧ Proposer n = true ∧ Acceptor n = true ∧ Learner n = true)).
Proof.
  intros Ep Hn Hl Hp first. pose proof (handling_trim c Hn) as Et. subst first.
  destruct d as [id tw [sm st]]. cbn [in_ID in_AppState st_SlotMarker] in *.
  assert (∀ r, r = true ∨ r = false) as Hb by (intros []; auto).
  destruct (handling c) eqn:Eh; [done|..];
    destruct (Hb (Proposer n)) as [EP|EP], (Hb (Acceptor n)) as [EA|EA], (Hb (Learner n)) as [EL|EL].
  all: eexists _, _, _; split; [unfold standby_server; rewrite Eh; cbv zeta; eapply run_step;
    [first [unfold InitModules; steps|unfold InitModulesReconfig; steps]|cbv beta; first [unfold StartReplacer; steps|unfold StartReconfig; steps|unfold StartAReconfig; steps]]|].
  all: split; [reflexivity|]. all: split; [rewrite ?EP, ?EA, ?EL; reflexivity|].
  all: split; [unfold Server_Stop; cbn [s_run negb]; eapply run_step; [unfold stop; steps|]; crunch; reflexivity|].
  all: rewrite ?EP, ?EA, ?EL; split; [try discriminate; intros _; by repeat split|intros (H1 & H2 & H3 & H4); try discriminate; try reflexivity; by destruct H1].
Qed.

(** ** The broadcast protocols *)

(** A server of a broadcast protocol does not start: it has no failure detector
    for the ring replacer. *)
Theorem broadcast_panics id c rp s n rp' :
  broadcast_protocol (protocol c) = true → NewServer id c rp = Ok s →
  LookupNode (s_nodes s) id = (n, true) → GetReplicaProvider rp (PxID id) c = Ok rp' →
  (s' ← InitModules s; Start s') = Panic.
Proof.
  intros Hbc Hn Hl Hp. apply bind_Ok in Hn as (nm & _ & [= <-]). cbn [s_nodes] in Hl.
  destruct (protocol c) eqn:Ep; try discriminate Hbc; clear Hbc; destruct (handling c) eqn:Eh;
    destruct (trimmed_handling c) eqn:Et; destruct (publishes id) eqn:EP;
    (first [eapply run_step; [unfold InitModules; steps|cbv beta; unfold Start]|apply run_panic; unfold InitModules]);
    repeat (eapply run_step; [crunch; reflexivity|cbv beta]); apply run_panic; crunch; reflexivity.
Qed.

(** ** The calls of an application *)

(** What the calls return by the flags alone; it is an error to initialise a
    running replica, that no call reports. *)
Fixpoint promised (initialized started : bool) (cs : list Call) : option (list (option string)) :=
  match cs with
  | [] => Some []
  | CInit :: cs => if started then None else cons None <$> promised true false cs
  | CStart :: cs =>
      if negb initialized then cons (Some ErrNodeNotInitialized) <$> promised initialized started cs
      else if started then cons (Some ErrCanNotStartAlreadyRunningNode) <$> promised initialized started cs
      else cons None <$> promised true true cs
  | CStop :: cs =>
      if started then cons (Some ErrShutdownTimeout) <$> promised initialized false cs
      else cons (Some ErrCanNotStopNonRunningNode) <$> promised initialized started cs
  end.

(** What a replica's flags say of its server. *)
Definition server_as (n : Node) (id : ID) (c : Config) (started : bool) (s : Server) : Prop :=
  if started
  then ∃ s' rp, Server_Stop s = Ok (Some ErrShutdownTimeout, s') ∧ idle s' n ∧ s_rp s' = Some rp ∧ s_id s' = id ∧ s_config s' = c
  else idle s n ∧ s_id s = id ∧ s_config s = c ∧ is_ok (GetReplicaProvider (s_rp s) (PxID id) c) = true.
Record replica_as (n : Node) (initialized started : bool) (r : Replica) : Prop := {
  ra_initialized : r_initialized r = initialized;
  ra_started : r_started r = started;
  ra_server : initialized = true → ∃ s, r_server r = Some s ∧ server_as n (r_id r) (r_config r) started s;
  ra_order : started = true → initialized = true;
  ra_nodes : ∃ nm, initNodeMap (r_config r) = Ok nm ∧ LookupNode nm (r_id r) = (n, true);
  ra_supported : supported (r_config r) = true;
  ra_provider : is_ok (GetReplicaProvider (r_rp r) (PxID (r_id r)) (r_config r)) = true;
}.

Lemma is_ok_Ok {A} (m : res A) : is_ok m = true → ∃ x, m = Ok x.
Proof. destruct m; naive_solver. Qed.

Lemma call_Init n i r : replica_as n i false r → ∃ r', call CInit r = Ok (None, r') ∧ replica_as n true false r'.
Proof.
  intros [H1 H2 H3 H4 (nm & H5 & H5') H6 H7]. unfold call, Replica_Init, NewServer. rewrite H5. cbn. eexists. split; [done|].
  split; cbn; [done|done| |done|by exists nm|done|done]. intros _. eexists. split; [done|]. split; [|by split_and!]. by split.
Qed.
Lemma call_Start n r : replica_as n true false r → ∃ r', call CStart r = Ok (None, r') ∧ replica_as n true true r'.
Proof.
  intros [H1 H2 H3 H4 H5 H6 H7]. destruct (H3 eq_refl) as (s & Hs & Hi & Hid & Hc & (rp & Hp)%is_ok_Ok).
  destruct (start_stop_once s n rp Hi) as (s1 & s2 & E1 & _ & E3 & _ & _ & E6 & E7 & E8 & E9 & _ & E10); [by rewrite Hid, Hc|].
  unfold call, Replica_Start. rewrite H1, H2, Hs. cbn [negb]. apply bind_Ok in E1 as (s0 & E0 & E1). rewrite E0. cbn [mbind res_bind]. rewrite E1.
  cbn. eexists. split; [done|]. split; cbn; [done|done| |done|done|done|].
  - intros _. exists s1. split; [done|]. exists s2, rp. rewrite E8, E9. by split_and!.
  - by rewrite E10.
Qed.
Lemma call_Stop n r : replica_as n true true r → ∃ r', call CStop r = Ok (Some ErrShutdownTimeout, r') ∧ replica_as n true false r'.
Proof.
  intros [H1 H2 H3 H4 H5 H6 H7]. destruct (H3 eq_refl) as (s & Hs & s' & rp & Es & Hi & Hrp & Hid & Hc).
  unfold call, Replica_Stop. rewrite H2, Hs. cbn [negb]. rewrite Es. cbn. eexists. split; [done|]. split; cbn; [done|done| |done|done|done|done].
  intros _. exists s'. split; [done|]. split_and!; [done..|]. by rewrite Hrp.
Qed.

Lemma calls_as n cs i b r out : replica_as n i b r → promised i b cs = Some out →
  ∃ r', calls cs r = Ok (out, r').
Proof.
  revert i b r out. induction cs as [|c cs IH]; intros i b r out Hr Ho; cbn in Ho; [injection Ho as <-; by exists r|].
  assert (∀ e i' b' r1, call c r = Ok (e, r1) → replica_as n i' b' r1 → (cons e <$> promised i' b' cs) = Some out → ∃ r', calls (c :: cs) r = Ok (out, r')) as Hstep.
  { intros e i' b' r1 E1 Hr1 (out' & Ho' & ->)%fmap_Some. destruct (IH i' b' r1 out' Hr1 Ho') as [r' E2]. exists r'. cbn [calls]. rewrite E1. cbn. by rewrite E2. }
  pose proof Hr as [H1 H2 _ H4 _ _ _]. destruct c.
  - destruct b; [done|]. destruct (call_Init n i r Hr) as (r1 & E1 & Hr1). by eapply Hstep.
  - destruct i; cbn [negb] in Ho; [destruct b|].
    + eapply Hstep; [unfold call, Replica_Start; rewrite H1, H2; reflexivity|exact Hr|exact Ho].
    + destruct (call_Start n r Hr) as (r1 & E1 & Hr1). by eapply Hstep.
    + eapply Hstep; [unfold call, Replica_Start; rewrite H1; reflexivity|exact Hr|exact Ho].
  - destruct b; [|eapply Hstep; [unfold call, Replica_Stop; rewrite H2; reflexivity|exact Hr|exact Ho]].
    assert (i = true) as -> by auto. destruct (call_Stop n r Hr) as (r1 & E1 & Hr1). by eapply Hstep.
Qed.


(** A replica that is initialised while it runs cannot be stopped: [Stop] waits
    for the event loop of the new server. *)
Theorem init_while_running_blocks n r : replica_as n true true r →
  ∃ r', call CInit r = Ok (None, r') ∧ call CStop r' = Diverge.
Proof.
  intros [H1 H2 _ _ (nm & H5 & _) _ _]. unfold call, Replica_Init, NewServer. rewrite H5. cbn. eexists. split; [done|].
  unfold Replica_Stop. cbn. by rewrite H2.
Qed.
End start_stop.

(** * Examples *)

Definition ex_conf (protocol_ handling_ : string) : Config :=
  Config_Set (Config_Set (Config_Set NewConfig "nodes" "0:a:1:2,1:b:1:2,2:c:1:2") "protocol" protocol_) "failureHandlingType" handling_.

Definition ex_run_server (protocol_ handling_ : string) : Server :=
  match NewServer (NewIDFromInt 1 0) (ex_conf protocol_ handling_) None with
  | Ok s => s
  | _ => NewStandbyServer (NewIDFromInt 1 0) (mkNodeMap ∅ [] 0 0 0 [] [] [] []) NewConfig 0 None
  end.
Definition ex_run_node : Node := NewNode "b" "1" "2" true true true.
Lemma ex_idle : idle (ex_run_server " MultiPaxos" "reconfiguration") ex_run_node.
Proof. split; [vm_compute; reflexivity..|]. intros m H. vm_compute in H. discriminate H. Qed.

Lemma every_stop_times_out_witness :
  ∃ s', cycles 2 (ex_run_server " MultiPaxos" "reconfiguration") = Ok ([Some ErrShutdownTimeout; Some ErrShutdownTimeout], s') ∧ s_wg s' = 2%nat.
Proof.
  destruct (every_stop_times_out 2 _ ex_run_node Noop ex_idle) as (s' & H1 & _ & H2 & _); [vm_compute; reflexivity|].
  exists s'. split; [exact H1|]. rewrite H2. vm_compute. reflexivity.
Defined.

Lemma standby_starts_witness :
  let c := ex_conf "MultiPaxos" "LiveReplacement" in
  let s := ex_run_server "MultiPaxos" "none" in
  ∃ s1 s2, standby_server (mkInitData (s_id s) (mkTransferWrapper (s_id s) ∅ ∅ 3 3) (mkAppState 9 [])) (s_nodes s) c None 0 = Ok s1 ∧
    s_log s1 = standby_order LiveReplacement ∧ Server_Stop s1 = Ok (None, s2).
Proof.
  intros c s.
  destruct (standby_starts (mkInitData (s_id s) (mkTransferWrapper (s_id s) ∅ ∅ 3 3) (mkAppState 9 [])) (s_nodes s) c None Noop 0 ex_run_node)
    as (s1 & s2 & e & H1 & H2 & _ & H4 & H5); [vm_compute; reflexivity|by vm_compute|vm_compute; reflexivity..|].
  exists s1, s2. split; [exact H1|]. split; [exact H2|]. assert (e = None) as E by (apply H5; split; [by vm_compute|repeat split; reflexivity]).
  rewrite <- E. exact H4.
Defined.

Lemma broadcast_panics_witness : (s' ← InitModules (ex_run_server "ReliableBC" "none"); Start s') = Panic.
Proof. apply (broadcast_panics (NewIDFromInt 1 0) (ex_conf "ReliableBC" "none") None _ ex_run_node Noop); vm_compute; reflexivity. Defined.

Definition ex_calls : list Call := [CStart; CInit; CStop; CStart; CStart; CStop; CStart].

(** With spaces around it, a handling of failures is initialised and not
    started: its handler exists and the group manager does not know of it. *)
Example spaces_not_started :
  (λ s, (exists_module replacementHandler s, is_running replacementHandler s, s_lrEnabled s)) <$>
    (s ← InitModules (ex_run_server "MultiPaxos" " LiveReplacement"); Start s) = Ok (true, false, false).
Proof. vm_compute. reflexivity. Qed.
