(* ===== verification/AuthBC.v ===== *)
(** Authenticated broadcast (src/authenticatedbc): a publisher sends numbered
    values, every acceptor forwards the hash of the value it received to all
    learners, and a learner that holds more than [2f] forwards with one hash
    asks its own acceptor for the value and delivers it. *)
From S2P Require Import Prelude Grp PaxosTypes Bcast.

(** * Messages (msg.go) *)

Record Publish := mkPublish { pb_ID : ID; pb_Rnd : Z; pb_Val : Value; pb_Hmac : bytes }.
Record Forward := mkForward { fw_ID : ID; fw_Hash : Z; fw_Rnd : Z; fw_Hmac : bytes }.
#[export] Instance Forward_eq_dec : EqDecision Forward.
Proof. solve_decision. Defined.
Record DcdRnd := mkDcdRnd { dr_Rnd : Z }.
Record ValReq := mkValReq { vq_Rnd : Z }.
Record ValResp := mkValResp { vp_Rnd : Z; vp_Val : Value }.

Inductive AMsg :=
| MPublish (m : Publish) | MForward (m : Forward) | MDcdRnd (m : DcdRnd)
| MValReq (m : ValReq) | MValResp (m : ValResp).

(** A packet for the sender, or a value for the server. *)
Inductive AOut :=
| ASend (dest : ID) (m : AMsg)
| ADecided (v : Value).

(** * Rounds (roundstorage.go) *)

Record Round := mkRound {
  rd_RndID : Z; rd_Forwards : gmap ID Forward; rd_Decided : bool; rd_SntReq : bool; rd_Learned : bool; rd_Val : Value }.
#[export] Instance eta_Round : Eta Round := λ r,
  mkRound (rd_RndID r) (rd_Forwards r) (rd_Decided r) (rd_SntReq r) (rd_Learned r) (rd_Val r).
#[export] Instance Round_inhabited : Inhabited Round := populate (mkRound 0 ∅ false false false zero_Value).

(** [(alpha + 10) * 3] in uint arithmetic. *)
Definition storage_length (alpha : Z) : Z := u64 (u64 (u64 alpha + 10) * 3).

(** * The acceptor (authacceptor.go) *)

Record AuthAcceptor := mkAuthAcceptor {
  aa_id : ID; aa_rounds : Storage Round; aa_actors : list ID; aa_authmgr : AuthManager }.
#[export] Instance eta_AuthAcceptor : Eta AuthAcceptor := λ r,
  mkAuthAcceptor (aa_id r) (aa_rounds r) (aa_actors r) (aa_authmgr r).

Definition NewAuthAcceptor (id : ID) (alpha : Z) (actors : list ID) (keys : gmap Z bytes) : AuthAcceptor :=
  mkAuthAcceptor id (NewStorage (storage_length alpha)) actors (mkAuthManager id keys).

Section acceptor.
Implicit Types aa : AuthAcceptor.

Definition createForward aa (msg : Publish) : res Forward :=
  hash ← Value_Hash (pb_Val msg);
  mret (mkForward (aa_id aa) hash (pb_Rnd msg) []).

Definition handlePublish aa (msg : Publish) : res (AuthAcceptor * option Forward) :=
  hash ← Value_Hash (pb_Val msg);
  if negb (checkMAC (aa_authmgr aa) (pb_ID msg) (pb_Hmac msg) (hashToBytes hash) (pb_Rnd msg)) then mret (aa, None)
  else
    '(ls, i) ← Get (aa_rounds aa) (pb_Rnd msg);
    let aa := aa <| aa_rounds := ls |> in
    if negb (IsValid ls (pb_Rnd msg)) then mret (aa, None)
    else
      let round := (st_read ls i) <| rd_RndID := pb_Rnd msg |> <| rd_Val := pb_Val msg |> in
      let aa := aa <| aa_rounds := st_write ls i round |> in
      forward ← createForward aa msg;
      mret (aa, Some forward).

Definition sendForward aa (msg : Forward) : list AOut :=
  (λ id, ASend id (MForward (mkForward (aa_id aa) (fw_Hash msg) (fw_Rnd msg)
     (generateMAC (aa_authmgr aa) id (hashToBytes (fw_Hash msg)) (fw_Rnd msg))))) <$> aa_actors aa.

(** The test of [&Get(rnd).Val] against nil never holds. *)
Definition getValue aa (rnd : Z) : res (AuthAcceptor * Value) :=
  '(ls, _) ← Get (aa_rounds aa) rnd;
  '(ls, i) ← Get ls rnd;
  mret (aa <| aa_rounds := ls |>, rd_Val (st_read ls i)).

Definition sendVal aa (rnd : Z) : res (AuthAcceptor * list AOut) :=
  '(aa, val) ← getValue aa rnd;
  mret (aa, [ASend (aa_id aa) (MValResp (mkValResp rnd val))]).
End acceptor.

Inductive AAEvent := AAPublish (m : Publish) | AAValReq (m : ValReq).

Definition aa_step (aa : AuthAcceptor) (ev : AAEvent) : res (AuthAcceptor * list AOut) :=
  match ev with
  | AAPublish publish =>
      '(aa, forward) ← handlePublish aa publish;
      mret (aa, match forward with Some f => sendForward aa f | None => [] end)
  | AAValReq reqRnd => sendVal aa (vq_Rnd reqRnd)
  end.

(** * The learner (authlearner.go) *)

Record AuthLearner := mkAuthLearner {
  al_id : ID; al_nAcceptors : Z; al_nFaulty : Z; al_rounds : Storage Round; al_maxlearned : Z; al_alpha : Z;
  al_actors : list ID; al_authmgr : AuthManager }.
#[export] Instance eta_AuthLearner : Eta AuthLearner := λ r,
  mkAuthLearner (al_id r) (al_nAcceptors r) (al_nFaulty r) (al_rounds r) (al_maxlearned r) (al_alpha r)
    (al_actors r) (al_authmgr r).

Definition NewAuthLearner (id : ID) (nAcceptors alpha : Z) (actors : list ID) (keys : gmap Z bytes) : AuthLearner :=
  mkAuthLearner id nAcceptors (u64 (nAcceptors - 1) `div` 3) (NewStorage (storage_length alpha)) 0 (u64 alpha)
    actors (mkAuthManager id keys).

Section learner.
Context {RO : RangeOrder}.
Implicit Types l : AuthLearner.

(** [forwardcount]: how many forwards carry each hash. *)
Definition forwardcount (forwards : gmap ID Forward) : gmap Z Z :=
  foldl (λ m (p : ID * Forward), <[fw_Hash p.2 := u64 (default 0 (m !! fw_Hash p.2) + 1)]> m) ∅
    (range_order 0 forwards).
Definition compareForwards l (forwards : gmap ID Forward) : bool :=
  existsb (λ p, bool_decide (p.2 > u64 (2 * al_nFaulty l))) (range_order 1 (forwardcount forwards)).

(** The round of a forward, initialised on the first one. *)
Definition init_round (rnd : Round) (id : Z) : Round :=
  if bool_decide (size (rd_Forwards rnd) = 0%nat) then
    rnd <| rd_RndID := id |> <| rd_Forwards := ∅ |> <| rd_Decided := false |> <| rd_SntReq := false |>
        <| rd_Learned := false |>
  else rnd.

Definition sendValReq l (rnd : Z) : list AOut := [ASend (al_id l) (MValReq (mkValReq rnd))].

Definition handleForward l (msg : Forward) : res (AuthLearner * list AOut * bool) :=
  if negb (checkMAC (al_authmgr l) (fw_ID msg) (fw_Hmac msg) (hashToBytes (fw_Hash msg)) (fw_Rnd msg)) then
    mret (l, [], false)
  else if negb (IsValid (al_rounds l) (fw_Rnd msg)) then mret (l, [], false)
  else
    '(ls, i) ← Get (al_rounds l) (fw_Rnd msg);
    let rnd := init_round (st_read ls i) (fw_Rnd msg) in
    let store rnd := l <| al_rounds := st_write ls i rnd |> in
    if rd_Decided rnd then mret (store rnd, [], false)
    else if bool_decide (is_Some (rd_Forwards rnd !! fw_ID msg)) then mret (store rnd, [], false)
    else
      let rnd := rnd <| rd_Forwards ::= <[fw_ID msg := msg]> |> in
      let rnd := rnd <| rd_Decided := compareForwards l (rd_Forwards rnd) |> in
      if rd_Decided rnd && negb (rd_SntReq rnd) then
        mret (store (rnd <| rd_SntReq := true |>), sendValReq l (fw_Rnd msg), true)
      else mret (store rnd, [], true).

Definition storeVal l (resp : ValResp) : res AuthLearner :=
  if negb (IsValid (al_rounds l) (vp_Rnd resp)) then mret l
  else
    '(ls, i) ← Get (al_rounds l) (vp_Rnd resp);
    let ls := st_write ls i ((st_read ls i) <| rd_Val := vp_Val resp |>) in
    '(ls, i) ← Get ls (vp_Rnd resp);
    mret (l <| al_rounds := st_write ls i ((st_read ls i) <| rd_Learned := true |>) |>).

(** The loop ends at the first round that is not learned; every round above
    the window is not, so one more step than the window is long is enough. *)
Fixpoint decided_loop (fuel : nat) l (rnd : Z) (outs : list AOut) : res (AuthLearner * list AOut) :=
  match fuel with
  | O => Diverge
  | S fuel =>
      '(ls, i) ← Get (al_rounds l) rnd;
      let l := l <| al_rounds := ls |> in
      if rd_Learned (st_read ls i) then
        '(ls, i) ← Get (al_rounds l) rnd;
        let l := l <| al_rounds := ls |> in
        dest ← slice_get (al_actors l) 0;
        let outs := outs ++ [ADecided (rd_Val (st_read ls i)); ASend dest (MDcdRnd (mkDcdRnd (al_maxlearned l)))] in
        decided_loop fuel (l <| al_maxlearned ::= λ n, u64 (n + 1) |>) (u64 (rnd + 1)) outs
      else mret (l, outs)
  end.

Definition decided_fuel l : nat := S (S (length (st_rounds (al_rounds l)))).

Definition sendDecided l (rnd : Z) : res (AuthLearner * list AOut) :=
  if bool_decide (u64 (al_maxlearned l + al_alpha l) < rnd) then
    let l := l <| al_maxlearned ::= λ n, u64 (n + 1) |> in
    decided_loop (decided_fuel l) l rnd []
  else if bool_decide (u64 (al_maxlearned l + 1) ≠ rnd) then mret (l, [])
  else decided_loop (decided_fuel l) l rnd [].

Inductive ALEvent := ALForward (m : Forward) | ALValResp (m : ValResp).

Definition al_step l (ev : ALEvent) : res (AuthLearner * list AOut) :=
  match ev with
  | ALForward cmsg => '(l, outs, _) ← handleForward l cmsg; mret (l, outs)
  | ALValResp valresp => l ← storeVal l valresp; sendDecided l (vp_Rnd valresp)
  end.
End learner.

(** * The publisher (authpublisher.go) *)

(** [failedReplicas] is a variable of the package; one process has one
    publisher. *)
Record AuthPublisher := mkAuthPublisher {
  ap_id : ID; ap_alpha : Z; ap_currentRnd : Z; ap_maxdecided : Z; ap_prevmaxdecided : Z; ap_decided : gmap Z Z;
  ap_actors : list ID; ap_authmgr : AuthManager; ap_nAcceptors : Z; ap_queue : list Value; ap_failedReplicas : Z }.
#[export] Instance eta_AuthPublisher : Eta AuthPublisher := λ r,
  mkAuthPublisher (ap_id r) (ap_alpha r) (ap_currentRnd r) (ap_maxdecided r) (ap_prevmaxdecided r) (ap_decided r)
    (ap_actors r) (ap_authmgr r) (ap_nAcceptors r) (ap_queue r) (ap_failedReplicas r).

Definition NewAuthPublisher (id : ID) (nAcceptors alpha : Z) (actors : list ID) (keys : gmap Z bytes) : AuthPublisher :=
  mkAuthPublisher id (u64 alpha) 0 0 0 ∅ actors (mkAuthManager id keys) nAcceptors [] 0.

Section publisher.
Implicit Types p : AuthPublisher.

(** The value of one random payload; every request has the same id and the
    same sequence number. *)
Definition generated (b : bytes) : Value :=
  mkValue App [mkRequest (Some Request_EXEC) (Some "GenericReq"%string) (Some 0) b] None.
Definition generateRequests p (payloads : list bytes) : AuthPublisher :=
  p <| ap_queue ::= λ q, q ++ (generated <$> payloads) |>.

Definition sendPublish p (rnd : Z) (val : Value) : res (list AOut) :=
  foldM (λ outs id,
    hash ← Value_Hash val;
    mret (outs ++ [ASend id (MPublish (mkPublish (ap_id p) rnd val
      (generateMAC (ap_authmgr p) id (hashToBytes hash) rnd)))])) [] (ap_actors p).

Fixpoint publish_loop p (to : Z) (queue : list Value) (current : Z) (outs : list AOut) : res (list Value * Z * list AOut) :=
  match queue with
  | val :: queue' =>
      if bool_decide (current < to) then
        o ← sendPublish p current val;
        publish_loop p to queue' (u64 (current + 1)) (outs ++ o)
      else Ok (queue, current, outs)
  | [] => Ok ([], current, outs)
  end.

Definition genPublish p : res (AuthPublisher * list AOut) :=
  '(queue, current, outs) ← publish_loop p (u64 (ap_maxdecided p + ap_alpha p)) (ap_queue p) (ap_currentRnd p) [];
  mret (p <| ap_queue := queue |> <| ap_currentRnd := current |>, outs).

(** The loop starts with the values generated and the first publications. *)
Definition pub_start p (payloads : list bytes) : res (AuthPublisher * list AOut) :=
  genPublish (generateRequests p payloads).

Inductive APEvent := APDcdRnd (m : DcdRnd) | APTick.

Definition ap_step p (ev : APEvent) : res (AuthPublisher * list AOut) :=
  match ev with
  | APDcdRnd drnd =>
      if bool_decide (dr_Rnd drnd > ap_maxdecided p) then
        let n := u64 (default 0 (ap_decided p !! dr_Rnd drnd) + 1) in
        let p := p <| ap_decided ::= <[dr_Rnd drnd := n]> |> in
        let p := if bool_decide (n >= u64 (ap_nAcceptors p - ap_failedReplicas p))
                 then p <| ap_maxdecided := dr_Rnd drnd |> else p in
        genPublish p
      else Ok (p, [])
  | APTick =>
      '(p, outs) ← (if bool_decide (ap_maxdecided p = ap_prevmaxdecided p) && bool_decide (ap_queue p ≠ [])
                    then genPublish (p <| ap_maxdecided ::= λ n, u64 (n + 1) |>
                                       <| ap_failedReplicas ::= λ n, u64 (n + 1) |>)
                    else Ok (p, []));
      mret (p <| ap_prevmaxdecided := ap_maxdecided p |>, outs)
  end.
End publisher.
