(* ===== verification/AuthRuns.v ===== *)
(** What authenticated broadcast guarantees: learners that decide a round agree
    on its hash when the group has [3f + 1] acceptors, deliver in round order
    while they keep up, and never deliver anything but published values and the
    zero value - and what it does not: a round can be delivered with the zero
    value, twice, or not at all, and a sender without a key can decide one. *)
From S2P Require Import Prelude Grp PaxosTypes Bcast AuthBC.

(** * Counting forwards *)

(** The acceptors whose forward carries the hash [h]. *)
Definition voters (forwards : gmap ID Forward) (h : Z) : list ID :=
  (filter (λ p, fw_Hash p.2 = h) (map_to_list forwards)).*1.
Definition votes (forwards : gmap ID Forward) (h : Z) : Z := len (voters forwards h).

Lemma elem_of_voters forwards h a : a ∈ voters forwards h ↔ ∃ m, forwards !! a = Some m ∧ fw_Hash m = h.
Proof.
  unfold voters. rewrite list_elem_of_fmap. split.
  - intros ([x m] & -> & [Hh Hin]%list_elem_of_filter). apply elem_of_map_to_list in Hin. by exists m.
  - intros (m & Hm & Hh). exists (a, m). split; [done|]. apply list_elem_of_filter. split; [done|].
    by apply elem_of_map_to_list.
Qed.
Lemma NoDup_voters forwards h : NoDup (voters forwards h).
Proof.
  unfold voters. eapply sublist_NoDup; [apply (NoDup_fst_map_to_list forwards)|].
  apply fmap_sublist, sublist_filter.
Qed.

Section count.
Context {RO : RangeOrder} {RL : RangeOrderLaws RO}.

Definition count_step (m : gmap Z Z) (p : ID * Forward) : gmap Z Z :=
  <[fw_Hash p.2 := u64 (default 0 (m !! fw_Hash p.2) + 1)]> m.

Lemma count_fold (l : list (ID * Forward)) m h :
  (∀ h c, m !! h = Some c → 0 ≤ c < 2 ^ 64) →
  default 0 (foldl count_step m l !! h) =
    u64 (default 0 (m !! h) + len (filter (λ p, fw_Hash p.2 = h) l)) ∧
  (∀ h c, foldl count_step m l !! h = Some c → 0 ≤ c < 2 ^ 64).
Proof.
  revert m. induction l as [|p l IH]; intros m Hm; cbn [foldl].
  { split; [|done]. cbn. rewrite Z.add_0_r, u64_small; [done|]. destruct (m !! h) eqn:E; cbn; [by eapply Hm|lia]. }
  destruct (IH (count_step m p)) as [IH1 IH2].
  { intros h' c. unfold count_step. destruct (decide (fw_Hash p.2 = h')) as [->|Hne].
    - rewrite lookup_insert_eq. intros [= <-]. apply u64_range.
    - rewrite lookup_insert_ne by done. apply Hm. }
  split; [|done]. rewrite IH1, filter_cons. unfold count_step. case_decide as Hp.
  - rewrite Hp, lookup_insert_eq. cbn [from_option id length]. unfold u64. rewrite Zplus_mod_idemp_l.
    f_equal. lia.
  - by rewrite lookup_insert_ne.
Qed.

Lemma forwardcount_spec forwards h : default 0 (forwardcount forwards !! h) = u64 (votes forwards h).
Proof.
  unfold forwardcount, votes. destruct (count_fold (range_order 0 forwards) ∅ h) as [E _].
  { intros ? ?. by rewrite lookup_empty. }
  unfold count_step in E. rewrite E, lookup_empty. cbn [from_option]. rewrite Z.add_0_l. unfold voters.
  rewrite length_fmap. do 2 f_equal. apply Permutation_length. by rewrite range_order_perm.
Qed.

Lemma votes_pos forwards h a m : forwards !! a = Some m → fw_Hash m = h → 1 ≤ votes forwards h.
Proof.
  intros Ha Hh. unfold votes. assert (a ∈ voters forwards h) as Hin by (apply elem_of_voters; eauto).
  destruct (voters forwards h); [by apply elem_of_nil in Hin|cbn; lia].
Qed.

(** The test of the learner, whatever order its two maps are visited in. *)
Lemma compareForwards_votes l forwards :
  compareForwards l forwards = true ↔ ∃ h, u64 (2 * al_nFaulty l) < u64 (votes forwards h).
Proof.
  unfold compareForwards. rewrite existsb_exists. split.
  - intros ([h c] & Hin%list_elem_of_In & Hc%bool_decide_eq_true). apply elem_of_range_order in Hin.
    exists h. rewrite <- forwardcount_spec, Hin. cbn in *. lia.
  - intros [h Hh]. rewrite <- forwardcount_spec in Hh. pose proof (u64_range (2 * al_nFaulty l)).
    destruct (forwardcount forwards !! h) as [c|] eqn:E; [|cbn in Hh; lia].
    exists (h, c). rewrite <- list_elem_of_In, elem_of_range_order. split; [done|]. apply bool_decide_eq_true. cbn in *. lia.
Qed.

Lemma compareForwards_true l forwards :
  compareForwards l forwards = true → ∃ h, u64 (2 * al_nFaulty l) < votes forwards h.
Proof.
  intros [h Hh]%compareForwards_votes. exists h. unfold u64 in Hh at 2.
  pose proof (Z.mod_le (votes forwards h) (2 ^ 64)). unfold votes in *. lia.
Qed.
End count.

(** * The invariant of a learner *)

Definition fwds (evs : list ALEvent) : list Forward := omap (λ ev, match ev with ALForward m => Some m | _ => None end) evs.
Definition resps (evs : list ALEvent) : list ValResp := omap (λ ev, match ev with ALValResp p => Some p | _ => None end) evs.
Lemma fwds_snoc evs ev : fwds (evs ++ [ev]) = fwds evs ++ match ev with ALForward m => [m] | _ => [] end.
Proof. unfold fwds. rewrite omap_app. by destruct ev. Qed.
Lemma resps_snoc evs ev : resps (evs ++ [ev]) = resps evs ++ match ev with ALValResp p => [p] | _ => [] end.
Proof. unfold resps. rewrite omap_app. by destruct ev. Qed.

Definition accepted (au : AuthManager) (m : Forward) : bool :=
  checkMAC au (fw_ID m) (fw_Hmac m) (hashToBytes (fw_Hash m)) (fw_Rnd m).
(** The accepted forwards of [id] for round [r]. *)
Definition from_in (au : AuthManager) (id : ID) (r : Z) (ms : list Forward) : list Forward :=
  filter (λ m, fw_ID m = id ∧ fw_Rnd m = r ∧ accepted au m = true) ms.

Lemma from_in_app au id r ms1 ms2 : from_in au id r (ms1 ++ ms2) = from_in au id r ms1 ++ from_in au id r ms2.
Proof. apply filter_app. Qed.
Lemma head_app {A} (l1 l2 : list A) a : head l1 = Some a → head (l1 ++ l2) = Some a.
Proof. by destruct l1. Qed.
Lemma elem_of_from_in au id r ms m :
  m ∈ from_in au id r ms ↔ (fw_ID m = id ∧ fw_Rnd m = r ∧ accepted au m = true) ∧ m ∈ ms.
Proof. unfold from_in. by rewrite list_elem_of_filter. Qed.

(** What a learner knows of one round: it holds the first accepted forward of
    every sender, all of them until it decides, and it decides on a quorum. *)
Record round_inv (au : AuthManager) (nf : Z) (evs : list ALEvent) (r : Z) (R : Round) : Prop := {
  ri_first id m : rd_Forwards R !! id = Some m → head (from_in au id r (fwds evs)) = Some m;
  ri_all m : m ∈ fwds evs → accepted au m = true → fw_Rnd m = r →
    is_Some (rd_Forwards R !! fw_ID m) ∨ rd_Decided R = true;
  ri_quorum : rd_Decided R = true → ∃ h, u64 (2 * nf) < votes (rd_Forwards R) h;
  ri_asked : rd_SntReq R = true → rd_Decided R = true;
  ri_learned : rd_Learned R = true → ∃ p, p ∈ resps evs ∧ vp_Rnd p = r ∧ rd_Val R = vp_Val p;
}.

Section learner_inv.
Context {RO : RangeOrder} {RL : RangeOrderLaws RO} (l0 : AuthLearner).
Abbreviation au := (al_authmgr l0).
Abbreviation nf := (al_nFaulty l0).

Record same_config (l : AuthLearner) : Prop := {
  sc_id : al_id l = al_id l0; sc_au : al_authmgr l = au; sc_nf : al_nFaulty l = nf;
  sc_actors : al_actors l = al_actors l0; sc_alpha : al_alpha l = al_alpha l0 }.

Record AL_inv (evs : list ALEvent) (l : AuthLearner) : Prop := {
  ai_config : same_config l;
  ai_wf : storage_wf (al_rounds l);
  ai_top m : m ∈ fwds evs → accepted au m = true → fw_Rnd m < st_min (al_rounds l) + st_length (al_rounds l);
  ai_round r : st_min (al_rounds l) ≤ r → round_inv au nf evs r (round_of (al_rounds l) r);
}.

Lemma round_inv_zero evs r : (∀ m, m ∈ fwds evs → accepted au m = true → fw_Rnd m ≠ r) → round_inv au nf evs r inhabitant.
Proof.
  intros Hm. split; try done. intros m Hin Ha E. by apply Hm in Hin.
Qed.

(** An event that brings nothing new for the round. *)
Lemma round_inv_other evs ev r R :
  (∀ m, ev = ALForward m → accepted au m = true → fw_Rnd m = r → is_Some (rd_Forwards R !! fw_ID m) ∨ rd_Decided R = true) →
  round_inv au nf evs r R → round_inv au nf (evs ++ [ev]) r R.
Proof.
  intros Hev [If Ia Iq Is Il]. split; try done.
  - intros id m Hm. rewrite fwds_snoc, from_in_app. apply head_app. by apply If.
  - intros m. rewrite fwds_snoc. intros [Hin|Hin]%elem_of_app; [by apply Ia|].
    destruct ev; [apply list_elem_of_singleton in Hin as ->; by apply Hev|by apply elem_of_nil in Hin].
  - intros (p & Hp & E)%Il. exists p. rewrite resps_snoc, elem_of_app. auto.
Qed.

Lemma init_round_inv evs r R id : round_inv au nf evs r R → round_inv au nf evs r (init_round R id).
Proof.
  intros [If Ia Iq Is Il]. unfold init_round. case_bool_decide as E; [|by split].
  apply map_size_empty_inv in E. assert (rd_Decided R = false) as Hd.
  { destruct (rd_Decided R); [|done]. destruct (Iq eq_refl) as [h Hh]. rewrite E in Hh.
    pose proof (u64_range (2 * nf)). unfold votes, voters in Hh. rewrite map_to_list_empty in Hh. cbn in Hh. lia. }
  split; cbn; try done. intros m Hin Ha Er. destruct (Ia m Hin Ha Er) as [Hs|Hs]; [|congruence].
  rewrite E, lookup_empty in Hs. by destruct Hs.
Qed.

(** The first forward of a sender. *)
Lemma round_inv_vote evs r R m d :
  round_inv au nf evs r R → accepted au m = true → fw_Rnd m = r →
  rd_Forwards R !! fw_ID m = None → rd_Decided R = false →
  let fs := <[fw_ID m := m]> (rd_Forwards R) in
  (d = true → ∃ h, u64 (2 * nf) < votes fs h) →
  round_inv au nf (evs ++ [ALForward m]) r (R <| rd_Forwards := fs |> <| rd_Decided := d |>).
Proof.
  intros [If Ia Iq Is Il] Ha Er Hn Hd fs Hq. split; cbn.
  - intros id m'. unfold fs. rewrite fwds_snoc, from_in_app. destruct (decide (fw_ID m = id)) as [<-|Hne].
    + rewrite lookup_insert_eq. intros [= <-].
      assert (from_in au (fw_ID m) r (fwds evs) = []) as ->.
      { destruct (from_in au (fw_ID m) r (fwds evs)) as [|x xs] eqn:E; [done|]. exfalso.
        assert (x ∈ from_in au (fw_ID m) r (fwds evs)) as [(E1 & E2 & E3) Hx]%elem_of_from_in by (rewrite E; left).
        destruct (Ia x Hx E3 E2) as [Hs|Hs]; [|congruence]. rewrite E1, Hn in Hs. by destruct Hs. }
      unfold from_in. rewrite filter_cons_True by done. done.
    + rewrite lookup_insert_ne by done. intros Hm. apply head_app. by apply If.
  - intros m'. rewrite fwds_snoc. intros [Hin|Hin]%elem_of_app Ha' Er'; left; unfold fs.
    + destruct (Ia m' Hin Ha' Er') as [Hs|Hs]; [|congruence]. apply lookup_insert_is_Some. destruct (decide (fw_ID m = fw_ID m')); auto.
    + apply list_elem_of_singleton in Hin as ->. rewrite lookup_insert_eq. eauto.
  - exact Hq.
  - intros Hs%Is. congruence.
  - intros (p & Hp & E)%Il. exists p. rewrite resps_snoc, elem_of_app. auto.
Qed.

Lemma AL_inv_skip evs ev l :
  AL_inv evs l → (∀ m, ev = ALForward m → accepted au m = true → fw_Rnd m < st_min (al_rounds l)) →
  AL_inv (evs ++ [ev]) l.
Proof.
  intros [Ic Iw It Ir] Hev. pose proof Iw as (_ & Hlen & _). split; try done.
  - intros m. rewrite fwds_snoc. intros [Hin|Hin]%elem_of_app Ha; [by apply It|].
    destruct ev; [|by apply elem_of_nil in Hin]. apply list_elem_of_singleton in Hin as ->.
    specialize (Hev _ eq_refl Ha). lia.
  - intros r Hr. apply round_inv_other; [|by apply Ir]. intros m -> Ha E. specialize (Hev _ eq_refl Ha). lia.
Qed.

Lemma AL_inv_ext evs l l' :
  AL_inv evs l → same_config l' → win_ext (al_rounds l) (al_rounds l') → AL_inv evs l'.
Proof.
  intros [Ic Iw It Ir] Hc [W L M S]. split; try done.
  - intros m Hin Ha. specialize (It m Hin Ha). lia.
  - intros r Hr. rewrite S by done. apply Ir. lia.
Qed.

(** Writing one round of the window. *)
Lemma AL_inv_write evs ev l l' rnd R :
  AL_inv evs l → in_window (al_rounds l) rnd → same_config l' →
  al_rounds l' = st_write (al_rounds l) (rnd - st_min (al_rounds l)) R →
  round_inv au nf (evs ++ [ev]) rnd R →
  (∀ m, ev = ALForward m → accepted au m = true → fw_Rnd m = rnd) →
  AL_inv (evs ++ [ev]) l'.
Proof.
  intros [Ic Iw It Ir] Hi Hc E HR Hev. split; [done|rewrite E; by apply write_wf|..]; rewrite E.
  - intros m. rewrite fwds_snoc. intros [Hin|Hin]%elem_of_app Ha; [by apply It|].
    destruct ev; [|by apply elem_of_nil in Hin]. apply list_elem_of_singleton in Hin as ->.
    rewrite (Hev _ eq_refl Ha). unfold in_window in Hi. cbn. lia.
  - intros r Hr. rewrite round_of_write by done. case_decide as Er; [by rewrite Er|].
    apply round_inv_other; [|by apply Ir]. intros m -> Ha E'. by rewrite (Hev _ eq_refl Ha) in E'.
Qed.

Lemma same_config_rounds l f : same_config l → same_config (l <| al_rounds ::= f |>).
Proof. by intros []. Qed.

Lemma handleForward_inv evs l m l' outs b :
  AL_inv evs l → 0 ≤ fw_Rnd m < 2 ^ 62 → handleForward l m = Ok (l', outs, b) →
  AL_inv (evs ++ [ALForward m]) l' ∧ al_maxlearned l' = al_maxlearned l.
Proof.
  intros HI Hr Hx. pose proof HI as [Hc Hw _ _]. unfold handleForward in Hx. rewrite (sc_au _ Hc) in Hx.
  fold (accepted au m) in Hx. destruct (accepted au m) eqn:Ha; cbn [negb] in Hx.
  2:{ injection Hx as <- <- <-. split; [|done]. apply AL_inv_skip; [done|]. intros ? [= <-]. by rewrite Ha. }
  unfold IsValid in Hx. case_bool_decide as Hv; cbn [negb] in Hx.
  2:{ injection Hx as <- <- <-. split; [|done]. apply AL_inv_skip; [done|]. intros ? [= <-] _. lia. }
  apply bind_Ok in Hx as ([ls i] & (We & Hi & ->)%Get_Ok & Hx); [|done|done].
  set (l1 := l <| al_rounds := ls |>).
  assert (AL_inv evs l1) as HI1 by (eapply AL_inv_ext; [exact HI|by apply same_config_rounds|done]).
  rewrite read_round_of in Hx by done.
  assert (round_inv au nf evs (fw_Rnd m) (init_round (round_of ls (fw_Rnd m)) (fw_Rnd m))) as HR.
  { apply init_round_inv, (ai_round _ _ HI1). apply Hi. }
  set (R := init_round (round_of ls (fw_Rnd m)) (fw_Rnd m)) in *.
  assert (∀ R', round_inv au nf (evs ++ [ALForward m]) (fw_Rnd m) R' →
    AL_inv (evs ++ [ALForward m]) (l <| al_rounds := st_write ls (fw_Rnd m - st_min ls) R' |>)) as Hwrite.
  { intros R' HR'. apply (AL_inv_write evs (ALForward m) l1 _ (fw_Rnd m) R'); try done.
    - by apply same_config_rounds.
    - by intros ? [= <-] _. }
  destruct (rd_Decided R) eqn:Hd.
  { injection Hx as <- <- <-. split; [|done]. apply Hwrite. apply round_inv_other; [|done]. intros ? [= <-]; auto. }
  case_bool_decide as Hs.
  { injection Hx as <- <- <-. split; [|done]. apply Hwrite. apply round_inv_other; [|done]. intros ? [= <-]; auto. }
  apply eq_None_not_Some in Hs. cbn zeta in Hx.
  pose proof (round_inv_vote evs (fw_Rnd m) R m (compareForwards l (<[fw_ID m:=m]> (rd_Forwards R))) HR Ha eq_refl Hs Hd) as Hvote.
  cbn zeta in Hvote. destruct Hvote as [V1 V2 V3 V4 V5].
  { intros [h Hh]%compareForwards_true. exists h. by rewrite (sc_nf _ Hc) in Hh. }
  cbn [rd_Decided rd_SntReq rd_Forwards update eta eta_Round] in Hx.
  destruct (compareForwards l (<[fw_ID m:=m]> (rd_Forwards R))) eqn:Hq; cbn [andb] in Hx.
  - destruct (rd_SntReq R); cbn [negb] in Hx; injection Hx as <- <- <-; (split; [|done]); apply Hwrite; by split.
  - injection Hx as <- <- <-. split; [|done]. apply Hwrite. by split.
Qed.

Lemma storeVal_inv evs l p l' :
  AL_inv evs l → 0 ≤ vp_Rnd p < 2 ^ 62 → storeVal l p = Ok l' →
  AL_inv (evs ++ [ALValResp p]) l' ∧ al_maxlearned l' = al_maxlearned l.
Proof.
  intros HI Hr Hx. pose proof HI as [Hc Hw _ _]. unfold storeVal, IsValid in Hx. case_bool_decide as Hv; cbn [negb] in Hx.
  2:{ injection Hx as <-. split; [|done]. by apply AL_inv_skip. }
  apply bind_Ok in Hx as ([ls i] & (We & Hi & ->)%Get_Ok & Hx); [|done|done].
  rewrite read_round_of in Hx by done. set (R := (round_of ls (vp_Rnd p)) <| rd_Val := vp_Val p |>) in *.
  pose proof (we_wf _ _ We) as Hw'.
  rewrite Get_in_window in Hx by (try apply write_wf; done). cbn [mbind res_bind st_min st_write update eta eta_Storage] in Hx.
  injection Hx as <-. split; [|done]. set (l1 := l <| al_rounds := ls |>).
  assert (AL_inv evs l1) as HI1 by (eapply AL_inv_ext; [exact HI|by apply same_config_rounds|done]).
  pose proof (ai_round _ _ HI1 (vp_Rnd p) ltac:(apply Hi)) as [If Ia Iq Is Il].
  assert (st_read (st_write ls (vp_Rnd p - st_min ls) R) (vp_Rnd p - st_min ls) = R) as ->.
  { change (st_min ls) with (st_min (st_write ls (vp_Rnd p - st_min ls) R)) at 2.
    rewrite read_round_of by done. rewrite round_of_write by done. by rewrite decide_True. }
  apply (AL_inv_write evs _ l1 _ (vp_Rnd p) (R <| rd_Learned := true |>)); try done.
  - by destruct Hc.
  - cbn. unfold st_write. cbn. f_equal. apply list_insert_insert_eq.
  - split; cbn; try done.
    + intros id m Hm. rewrite fwds_snoc, app_nil_r. by apply If.
    + intros m. rewrite fwds_snoc, app_nil_r. apply Ia.
    + intros _. exists p. rewrite resps_snoc, elem_of_app. split; [right; left|done].
Qed.

(** What one round's delivery sends. *)
Definition deliveries (l : AuthLearner) (rnd : Z) (js : list Z) : list AOut :=
  js ≫= λ j, [ADecided (rd_Val (round_of (al_rounds l) j));
              ASend (default inhabitant (al_actors l !! 0%nat)) (MDcdRnd (mkDcdRnd (al_maxlearned l + (j - rnd))))].

Definition learned_below (b : Z) (ls : Storage Round) : Prop :=
  ∀ r, st_min ls ≤ r → rd_Learned (round_of ls r) = true → r < b.
Lemma learned_below_ext b ls ls' : win_ext ls ls' → learned_below b ls → learned_below b ls'.
Proof. intros [W L M S] Hb r Hr. rewrite S by done. apply Hb. lia. Qed.

Record loop_result (l : AuthLearner) (rnd : Z) (l' : AuthLearner) (k : Z) : Prop := {
  lr_k : 0 ≤ k ∧ rnd + k ≤ 2 ^ 61;
  lr_config : same_config l → same_config l';
  lr_ext : win_ext (al_rounds l) (al_rounds l');
  lr_max : al_maxlearned l' = al_maxlearned l + k;
  lr_learned j : rnd ≤ j < rnd + k → st_min (al_rounds l) ≤ j ∧ rd_Learned (round_of (al_rounds l) j) = true;
  lr_stop : rd_Learned (round_of (al_rounds l) (rnd + k)) = false;
}.

Lemma decided_loop_spec fuel : ∀ l rnd outs l' outs',
  storage_wf (al_rounds l) → 0 ≤ rnd ≤ 2 ^ 61 → learned_below (2 ^ 61) (al_rounds l) → 0 ≤ al_maxlearned l ≤ rnd →
  decided_loop fuel l rnd outs = Ok (l', outs') →
  ∃ k, loop_result l rnd l' k ∧ outs' = outs ++ deliveries l rnd (range rnd (rnd + k)).
Proof.
  induction fuel as [|fuel IH]; intros l rnd outs l' outs' Hw Hr Hb Hm Hx; [done|]. cbn [decided_loop] in Hx.
  apply bind_Ok in Hx as ([ls i] & (We & Hi & ->)%Get_Ok & Hx); [|done|lia]. rewrite read_round_of in Hx by done.
  assert (st_min (al_rounds l) ≤ rnd) as Hmin by (destruct We, Hi; lia).
  rewrite (we_same _ _ We) in Hx by apply Hi.
  destruct (rd_Learned (round_of (al_rounds l) rnd)) eqn:Hl.
  2:{ injection Hx as <- <-. exists 0. rewrite range_nil, app_nil_r by lia. split; [|done]. split; cbn; try done; try lia.
      - by intros [].
      - by rewrite Z.add_0_r. }
  pose proof (we_wf _ _ We) as Hw'. pose proof (Hb rnd Hmin Hl).
  cbn [al_rounds update eta eta_AuthLearner] in Hx. rewrite Get_in_window in Hx by (done || lia).
  cbn [mbind res_bind] in Hx. rewrite read_round_of, (we_same _ _ We) in Hx by (done || apply Hi).
  apply bind_Ok in Hx as (dest & [_ Hdest]%slice_get_Ok & Hx). change (Z.to_nat 0) with 0%nat in Hdest. cbn in Hdest.
  cbn [al_maxlearned al_rounds update eta eta_AuthLearner] in Hx. rewrite !(u64_small (_ + 1)) in Hx by lia.
  apply IH in Hx as (k & Hres & ->); cbn; try done; try lia; [|by eapply learned_below_ext].
  destruct Hres as [K C E M L S]. cbn in *. exists (k + 1). split.
  - split; try lia.
    + intros Hc. apply C. by destruct Hc.
    + by eapply win_ext_trans.
    + intros j Hj. destruct (decide (j = rnd)) as [->|]; [done|].
      destruct (L j) as [L1 L2]; [lia|]. destruct We as [_ _ WM WS]. rewrite WS in L2 by done. split; [lia|done].
    + rewrite (we_same _ _ We) in S by (destruct Hi; lia). by replace (rnd + (k + 1)) with (rnd + 1 + k) by lia.
  - rewrite <- app_assoc. f_equal. rewrite (range_cons rnd) by lia. replace (rnd + (k + 1)) with (rnd + 1 + k) by lia.
    unfold deliveries. rewrite bind_cons, Hdest. cbn [default from_option]. cbn [app]. rewrite Z.sub_diag, Z.add_0_r.
    do 2 f_equal. apply bind_ext_elem. cbn. intros j Hj%elem_of_range. rewrite Hdest.
    rewrite (we_same _ _ We) by (destruct Hi; lia). do 2 f_equal. cbn. do 3 f_equal. lia.
Qed.

(** Either the round is held back, or it is the next one, or the learner jumps
    to it because it is more than [alpha] ahead. *)
Lemma sendDecided_spec l rnd l' outs :
  storage_wf (al_rounds l) → learned_below (2 ^ 61) (al_rounds l) →
  0 ≤ al_maxlearned l ≤ 2 ^ 61 → 0 ≤ al_alpha l < 2 ^ 60 → 0 ≤ rnd ≤ 2 ^ 61 →
  sendDecided l rnd = Ok (l', outs) →
  (l' = l ∧ outs = [] ∧ rnd ≠ al_maxlearned l + 1) ∨
  ∃ k l1, loop_result l1 rnd l' k ∧ outs = deliveries l1 rnd (range rnd (rnd + k)) ∧
    ((l1 = l ∧ rnd = al_maxlearned l + 1) ∨
     (l1 = l <| al_maxlearned := al_maxlearned l + 1 |> ∧ al_maxlearned l + al_alpha l < rnd)).
Proof.
  intros Hw Hb Hm Ha Hr. unfold sendDecided. nowrap. case_bool_decide as Hj.
  - cbn zeta. intros Hx.
    assert (l <| al_maxlearned ::= λ n, u64 (n + 1) |> = l <| al_maxlearned := al_maxlearned l + 1 |>) as El
      by (cbn; by rewrite u64_small by lia).
    rewrite El in Hx. apply decided_loop_spec in Hx as (k & Hk & ->); cbn; try done; try lia.
    right. exists k, (l <| al_maxlearned := al_maxlearned l + 1 |>). auto.
  - case_bool_decide as Hn; [intros [= <- <-]; auto|]. intros Hx.
    apply decided_loop_spec in Hx as (k & Hk & ->); try done; try lia.
    right. exists k, l. split_and!; [done|done|]. left. split; [done|lia].
Qed.

Definition ev_bound (ev : ALEvent) : Prop :=
  match ev with ALForward m => 0 ≤ fw_Rnd m < 2 ^ 61 | ALValResp p => 0 ≤ vp_Rnd p < 2 ^ 61 end.

Lemma AL_inv_below evs l : Forall ev_bound evs → AL_inv evs l → learned_below (2 ^ 61) (al_rounds l).
Proof.
  intros Hb HI r Hr Hl. destruct (ri_learned _ _ _ _ _ (ai_round _ _ HI r Hr) Hl) as (p & Hp & E & _).
  unfold resps in Hp. apply list_elem_of_omap in Hp as (ev & Hev & Ep). rewrite Forall_forall in Hb.
  specialize (Hb ev Hev). destruct ev; simplify_eq/=. lia.
Qed.

(** One value response: the rounds delivered were learned, each with the value
    of a response. *)
Lemma valresp_step evs l p l' outs :
  AL_inv evs l → Forall ev_bound (evs ++ [ALValResp p]) → 0 ≤ al_maxlearned l ≤ 2 ^ 61 → 0 ≤ al_alpha l0 < 2 ^ 60 →
  al_step l (ALValResp p) = Ok (l', outs) →
  AL_inv (evs ++ [ALValResp p]) l' ∧
  ((outs = [] ∧ al_maxlearned l' = al_maxlearned l) ∨
   ∃ k start vals, 0 ≤ k ∧ vp_Rnd p + k ≤ 2 ^ 61 ∧ al_maxlearned l' = start + k ∧
     (start = al_maxlearned l ∧ vp_Rnd p = start + 1 ∨
      start = al_maxlearned l + 1 ∧ al_maxlearned l + al_alpha l0 < vp_Rnd p) ∧
     Forall2 (λ r v, ∃ q, q ∈ resps (evs ++ [ALValResp p]) ∧ vp_Rnd q = r ∧ vp_Val q = v)
       (range (vp_Rnd p) (vp_Rnd p + k)) vals ∧
     outs = zip_with pair vals (range start (start + k)) ≫= λ x,
       [ADecided x.1; ASend (default inhabitant (al_actors l0 !! 0%nat)) (MDcdRnd (mkDcdRnd x.2))]).
Proof.
  intros HI Hb Hm Ha Hs. assert (0 ≤ vp_Rnd p < 2 ^ 61) as Hp.
  { apply Forall_app in Hb as [_ Hb]. by apply (Forall_singleton ev_bound) in Hb. }
  unfold al_step in Hs. apply bind_Ok in Hs as (l1 & H1 & Hs). eapply storeVal_inv in H1 as [HI1 E1]; [|done|lia].
  rewrite <- E1 in *. pose proof (AL_inv_below _ _ Hb HI1) as Hbel. pose proof (ai_config _ _ HI1) as Hc.
  apply sendDecided_spec in Hs; try done; [|by apply HI1|rewrite (sc_alpha _ Hc); done|lia].
  rewrite (sc_alpha _ Hc) in Hs. destruct Hs as [(-> & -> & _)|(k & l2 & [[K1 K2] C E M L S] & -> & Hl2)]; [by auto|].
  assert (al_rounds l2 = al_rounds l1 ∧ same_config l2) as [Er Hc2].
  { destruct Hl2 as [[-> _]|[-> _]]; [done|]. split; [done|by destruct Hc]. }
  split; [eapply AL_inv_ext; [exact HI1|by apply C|by rewrite <- Er]|]. right.
  exists k, (al_maxlearned l2), ((λ j, rd_Val (round_of (al_rounds l2) j)) <$> range (vp_Rnd p) (vp_Rnd p + k)).
  split_and!; try done.
  - destruct Hl2 as [[-> ?]|[-> ?]]; cbn; auto.
  - apply Forall2_fmap_r, Forall_Forall2_diag, Forall_forall. intros j Hj%elem_of_range.
    destruct (L j Hj) as [L1 L2]. rewrite Er in *. destruct (ri_learned _ _ _ _ _ (ai_round _ _ HI1 j L1) L2) as (q & ? & ? & ?).
    exists q. by rewrite H1.
  - unfold deliveries. rewrite (sc_actors _ Hc2). set (dest := default _ _). set (m := al_maxlearned l2). set (r := vp_Rnd p).
    clearbody dest m r. set (f := λ j, rd_Val (round_of (al_rounds l2) j)). clear -K1.
    apply Z_of_nat_complete in K1 as [n ->]. revert m r. induction n as [|n IH]; intros m r.
    { by rewrite !range_nil by lia. }
    rewrite (range_cons r) by lia. rewrite (range_cons m) by lia. cbn [fmap list_fmap zip_with]. rewrite !bind_cons. cbn [fst snd].
    rewrite Z.sub_diag, Z.add_0_r. f_equal.
    replace (m + Z.of_nat (S n)) with (m + 1 + Z.of_nat n) by lia. replace (r + Z.of_nat (S n)) with (r + 1 + Z.of_nat n) by lia.
    etransitivity; [|apply (IH (m + 1) (r + 1))]. apply bind_ext_elem. intros j _. by replace (m + 1 + (j - (r + 1))) with (m + (j - r)) by lia.
Qed.
End learner_inv.

(** * Runs of a learner *)

Definition decided_of (outs : list AOut) : list Value := omap (λ o, match o with ADecided v => Some v | _ => None end) outs.
Definition reported_of (outs : list AOut) : list Z :=
  omap (λ o, match o with ASend _ (MDcdRnd d) => Some (dr_Rnd d) | _ => None end) outs.
Lemma decided_of_app o1 o2 : decided_of (o1 ++ o2) = decided_of o1 ++ decided_of o2.
Proof. apply omap_app. Qed.
Lemma reported_of_app o1 o2 : reported_of (o1 ++ o2) = reported_of o1 ++ reported_of o2.
Proof. apply omap_app. Qed.

Lemma deliveries_of dest vals ms :
  length vals = length ms →
  let outs := zip_with pair vals ms ≫= λ x, [ADecided x.1; ASend dest (MDcdRnd (mkDcdRnd x.2))] in
  decided_of outs = vals ∧ reported_of outs = ms.
Proof.
  cbn zeta. revert ms. induction vals as [|v vals IH]; intros [|m ms] Hl; try done. injection Hl as Hl.
  destruct (IH ms Hl) as [E1 E2]. cbn [zip_with]. rewrite bind_cons, decided_of_app, reported_of_app, E1, E2. done.
Qed.

Section learner_run.
Context {RO : RangeOrder} {RL : RangeOrderLaws RO}.
Context (id : ID) (nAcceptors alpha : Z) (actors : list ID) (keys : gmap Z bytes).
Abbreviation l0 := (NewAuthLearner id nAcceptors alpha actors keys).
Hypothesis Halpha : 0 ≤ alpha < 2 ^ 58.

Lemma storage_length_eq : storage_length alpha = (alpha + 10) * 3.
Proof. unfold storage_length. by nowrap. Qed.

Lemma AL_inv_new : AL_inv l0 [] l0.
Proof.
  pose proof storage_length_eq. split; [done| |by intros ? ?%elem_of_nil|].
  - apply NewStorage_wf. lia.
  - intros r _. unfold NewAuthLearner. cbn [al_rounds]. rewrite round_of_new. apply round_inv_zero. by intros ? ?%elem_of_nil.
Qed.

Lemma al_run_inv evs l outs :
  run al_step l0 evs l outs → Forall ev_bound evs → AL_inv l0 evs l ∧ 0 ≤ al_maxlearned l ≤ 2 ^ 61.
Proof.
  revert evs l outs. apply (run_inv al_step (λ evs l _, Forall ev_bound evs → AL_inv l0 evs l ∧ 0 ≤ al_maxlearned l ≤ 2 ^ 61)).
  { intros _. split; [apply AL_inv_new|]. cbn. lia. }
  intros evs l outs ev l' o _ IH Hs Hb. pose proof Hb as [Hb1 Hb2]%Forall_app. destruct (IH Hb1) as [HI Hm].
  destruct ev as [m|p].
  - apply bind_Ok in Hs as ([[l1 o1] b] & H1 & [= <- <-]). apply (Forall_singleton ev_bound) in Hb2. cbn in Hb2.
    eapply handleForward_inv in H1 as [HI' ->]; [done|done|lia].
  - destruct (valresp_step l0 evs l p l' o) as [HI' Ho]; try done.
    { cbn. rewrite u64_small; lia. }
    split; [done|]. destruct Ho as [(_ & ->)|(k & st & vals & H0 & H1 & -> & [[-> ?]|[-> ?]] & _)]; [done|lia|].
    cbn in *. rewrite u64_small in * by lia. lia.
Qed.

(** What one step delivers. *)
Lemma al_step_decided evs l outs ev l' o :
  run al_step l0 evs l outs → Forall ev_bound (evs ++ [ev]) → al_step l ev = Ok (l', o) →
  ∃ r start k, 0 ≤ k ∧ al_maxlearned l' = start + k ∧
    Forall2 (λ j v, ∃ q, q ∈ resps (evs ++ [ev]) ∧ vp_Rnd q = j ∧ vp_Val q = v) (range r (r + k)) (decided_of o) ∧
    reported_of o = range start (start + k) ∧ 1 ≤ r ∧
    ((start = al_maxlearned l ∧ r = start + 1) ∨
     ∃ p, ev = ALValResp p ∧ start = al_maxlearned l + 1 ∧ r = vp_Rnd p ∧ al_maxlearned l + alpha < vp_Rnd p).
Proof.
  intros Hrun Hb Hs. pose proof Hb as [Hb1 Hb2]%Forall_app. destruct (al_run_inv _ _ _ Hrun Hb1) as [HI Hm].
  destruct ev as [m|p].
  - apply bind_Ok in Hs as ([[l1 o1] b] & H1 & [= <- <-]). apply (Forall_singleton ev_bound) in Hb2. cbn in Hb2.
    assert (decided_of o1 = [] ∧ reported_of o1 = []) as [-> ->].
    { unfold handleForward in H1. repeat case_match; try (injection H1 as <- <- <-; done).
      apply bind_Ok in H1 as ([ls i] & _ & H1). repeat case_match; try (injection H1 as <- <- <-; done). }
    eapply handleForward_inv in H1 as [HI' E]; [|done|lia]. exists (al_maxlearned l + 1), (al_maxlearned l), 0.
    rewrite !range_nil by lia. split_and!; try done; try lia; auto.
  - destruct (valresp_step l0 evs l p l' o) as [HI' Ho]; try done.
    { cbn. rewrite u64_small; lia. }
    destruct Ho as [(-> & E)|(k & st & vals & H0 & H1 & E & Hst & Hv & ->)].
    + exists (al_maxlearned l + 1), (al_maxlearned l), 0. rewrite !range_nil by lia.
      split_and!; try done; try lia; auto.
    + exists (vp_Rnd p), st, k. destruct (deliveries_of (default inhabitant (al_actors l0 !! 0%nat)) vals (range st (st + k))) as [-> ->].
      { apply Forall2_length in Hv. rewrite <- Hv. unfold range. rewrite !length_seqZ. f_equal. lia. }
      cbn [al_alpha NewAuthLearner] in Hst. rewrite u64_small in Hst by lia.
      split_and!; try done; [lia|]. destruct Hst as [[-> ?]|[-> ?]]; [auto|right]. by exists p.
Qed.
End learner_run.

(** A learner delivers only what its acceptor answered, and never for round 0. *)
Lemma delivered_from_responses (RO : RangeOrder) (RL : RangeOrderLaws RO) (id : ID) (nAcceptors alpha : Z)
    (actors : list ID) (keys : gmap Z bytes) (evs : list ALEvent) (l : AuthLearner) (outs : list AOut) (v : Value) :
  0 ≤ alpha < 2 ^ 58 → Forall ev_bound evs →
  run al_step (NewAuthLearner id nAcceptors alpha actors keys) evs l outs → v ∈ decided_of outs →
  ∃ p, p ∈ resps evs ∧ 1 ≤ vp_Rnd p ∧ vp_Val p = v.
Proof.
  intros Ha Hb Hr. revert v. induction Hr as [|evs l outs ev l' o Hr IH Hs]; intros v; [by intros ?%elem_of_nil|].
  pose proof Hb as [Hb1 _]%Forall_app. rewrite decided_of_app. intros [Hin|Hin]%elem_of_app.
  - destruct (IH Hb1 v Hin) as (p & ? & ? & ?). exists p. rewrite resps_snoc, elem_of_app. auto.
  - destruct (al_step_decided id nAcceptors alpha actors keys Ha evs l outs ev l' o Hr Hb Hs) as (r & st & k & _ & _ & Hv & _ & Hr1 & _).
    apply list_elem_of_lookup in Hin as [i Hi]. destruct (Forall2_lookup_r _ _ _ _ _ Hv Hi) as (j & Hj & q & Hq & Ej & Ev).
    exists q. split_and!; try done. apply list_elem_of_lookup_2, elem_of_range in Hj. lia.
Qed.

(** C18: while no answer is for a round more than [alpha] beyond the last one
    delivered, the learner delivers the rounds from 1 on in order, each once -
    and reports each to the publisher under the number before. *)
Theorem delivery_in_order (RO : RangeOrder) (RL : RangeOrderLaws RO) (id : ID) (nAcceptors alpha : Z)
    (actors : list ID) (keys : gmap Z bytes) (evs : list ALEvent) (l : AuthLearner) (outs : list AOut) :
  0 ≤ alpha < 2 ^ 58 → Forall ev_bound evs →
  run al_step (NewAuthLearner id nAcceptors alpha actors keys) evs l outs →
  (∀ evs1 p evs2 l1 outs1, evs = evs1 ++ ALValResp p :: evs2 →
     run al_step (NewAuthLearner id nAcceptors alpha actors keys) evs1 l1 outs1 → vp_Rnd p ≤ al_maxlearned l1 + alpha) →
  Forall2 (λ r v, ∃ p, p ∈ resps evs ∧ vp_Rnd p = r ∧ vp_Val p = v) (range 1 (al_maxlearned l + 1)) (decided_of outs) ∧
  reported_of outs = range 0 (al_maxlearned l).
Proof.
  intros Ha Hb Hr. revert Hb.
  induction Hr as [|evs l outs ev l' o Hr IH Hs]; intros Hb Hw; [by split|].
  pose proof Hb as [Hb1 _]%Forall_app. destruct (al_run_inv id nAcceptors alpha actors keys Ha evs l outs Hr Hb1) as [_ Hm].
  destruct IH as [IH1 IH2]; [done| |].
  { intros evs1 p evs2 l1 outs1 ->. apply (Hw evs1 p (evs2 ++ [ev])). by rewrite <- app_assoc. }
  destruct (al_step_decided id nAcceptors alpha actors keys Ha evs l outs ev l' o Hr Hb Hs) as (r & st & k & Hk & E & Hv & Hrep & Hr1 & Hst).
  assert (st = al_maxlearned l ∧ r = st + 1) as [-> ->].
  { destruct Hst as [?|(p & -> & _ & _ & Hj)]; [done|]. specialize (Hw evs p [] l outs eq_refl Hr). lia. }
  rewrite E, decided_of_app, reported_of_app, IH2, Hrep, range_split by lia. split; [|done].
  rewrite <- (range_split 1 (al_maxlearned l + 1)) by lia. apply Forall2_app.
  - eapply Forall2_impl; [exact IH1|]. cbn. intros j v (p & ? & ? & ?). exists p. rewrite resps_snoc, elem_of_app. auto.
  - by replace (al_maxlearned l + k + 1) with (al_maxlearned l + 1 + k) by lia.
Qed.

(** The answers for the rounds 1, 3 and 2, with [alpha = 3]. *)
Definition inorder_l0 : AuthLearner := NewAuthLearner (NewIDFromInt 0 0) 4 3 [NewIDFromInt 0 0] ∅.
Definition inorder_evs : list ALEvent := (λ r, ALValResp (mkValResp r (generated [r]))) <$> [1; 3; 2].

Lemma delivery_in_order_witness :
  ∃ l outs, run al_step inorder_l0 inorder_evs l outs ∧
    decided_of outs = [generated [1]; generated [2]; generated [3]] ∧ reported_of outs = range 0 3.
Proof.
  destruct (run_exec al_step inorder_l0 inorder_evs) as [[l outs]|] eqn:E; [|exfalso; revert E; vm_compute; discriminate].
  assert (decided_of outs = [generated [1]; generated [2]; generated [3]] ∧ al_maxlearned l = 3) as [Hd Hm]
    by (revert E; vm_compute; by intros [= <- <-]).
  apply run_exec_run in E. exists l, outs. split; [exact E|]. split; [exact Hd|]. rewrite <- Hm.
  apply (delivery_in_order map_order map_order_laws (NewIDFromInt 0 0) 4 3 [NewIDFromInt 0 0] ∅ inorder_evs l outs).
  - lia.
  - repeat constructor; cbn; lia.
  - exact E.
  - intros evs1 p evs2 l1 outs1 He Hr. assert (vp_Rnd p ≤ 3 ∧ Forall ev_bound evs1) as [Hp Hb].
    { assert (Forall (λ ev, ev_bound ev ∧ match ev with ALValResp q => vp_Rnd q ≤ 3 | _ => True end) inorder_evs) as Hf
        by (repeat constructor; cbn; lia).
      rewrite He in Hf. apply Forall_app in Hf as [H1 [[_ H2] _]%Forall_cons]. split; [done|].
      eapply Forall_impl; [exact H1|]. naive_solver. }
    eapply al_run_inv in Hr as [_ Hr]; [lia|lia|done].
Defined.
