(* ===== verification/AuthSafety.v ===== *)
(** Agreement in authenticated broadcast: with [3f + 1] acceptors of which [f]
    may be faulty, learners that decide a round agree on the hash; with six
    acceptors they need not; and a sender that is no member and holds no key
    can make a learner decide. *)
From S2P Require Import Prelude Grp PaxosTypes Bcast AuthBC AuthRuns.

(** * What an acceptor forwards *)

Definition sent_to (b : ID) (outs : list AOut) : list Forward :=
  omap (λ o, match o with ASend d (MForward m) => if decide (d = b) then Some m else None | _ => None end) outs.
Lemma sent_to_app b o1 o2 : sent_to b (o1 ++ o2) = sent_to b o1 ++ sent_to b o2.
Proof. apply omap_app. Qed.

(** The hash of the first forward for a round. *)
Definition first_hash (r : Z) (ms : list Forward) : option Z := fw_Hash <$> head (filter (λ m, fw_Rnd m = r) ms).
Lemma first_hash_app r ms1 ms2 :
  first_hash r (ms1 ++ ms2) = match first_hash r ms1 with Some h => Some h | None => first_hash r ms2 end.
Proof. unfold first_hash. rewrite filter_app. by destruct (filter _ ms1). Qed.

Lemma sent_to_sendForward b aa f :
  (∀ m, m ∈ sent_to b (sendForward aa f) → fw_ID m = aa_id aa ∧ fw_Hash m = fw_Hash f ∧ fw_Rnd m = fw_Rnd f) ∧
  (b ∈ aa_actors aa → sent_to b (sendForward aa f) ≠ []).
Proof.
  unfold sendForward, sent_to. split.
  - intros m (o & Ho & Em)%list_elem_of_omap. apply list_elem_of_fmap in Ho as (d & -> & _).
    case_decide; [|done]. by injection Em as <-.
  - intros Hb E. apply list_elem_of_lookup in Hb as [i Hi].
    assert (∀ (l : list ID) (g : ID → AOut) (k : AOut → option Forward) x y, x ∈ l → k (g x) = Some y → omap k (g <$> l) ≠ []) as Hne.
    { intros l g k x y Hx Hy. induction Hx as [|x z l Hx IH]; cbn; [by rewrite Hy|]. destruct (k (g z)); [done|auto]. }
    eapply (Hne (aa_actors aa)); [by eapply list_elem_of_lookup_2| |exact E]. cbn. by rewrite decide_True.
Qed.

Lemma first_hash_uniform r h r' ms :
  (∀ m, m ∈ ms → fw_Hash m = h ∧ fw_Rnd m = r') → ms ≠ [] → first_hash r ms = if decide (r' = r) then Some h else None.
Proof.
  intros Hm Hne. unfold first_hash. destruct ms as [|m ms]; [done|]. destruct (Hm m) as [E1 E2]; [left|].
  destruct (decide (r' = r)) as [<-|Hr].
  - rewrite filter_cons_True by done. cbn. by rewrite E1.
  - assert (filter (λ m, fw_Rnd m = r) (m :: ms) = []) as ->; [|done].
    destruct (filter _ _) as [|x xs] eqn:E; [done|]. assert (x ∈ filter (λ m, fw_Rnd m = r) (m :: ms)) as [Hx Hin]%list_elem_of_filter by (rewrite E; left).
    destruct (Hm x Hin). congruence.
Qed.

(** All learners of the group see the same first hash of a round from an
    acceptor that runs the code. *)
Lemma acceptor_first_hash aa0 evs aa outs :
  run aa_step aa0 evs aa outs →
  aa_id aa = aa_id aa0 ∧ aa_actors aa = aa_actors aa0 ∧
  ∀ r b1 b2, b1 ∈ aa_actors aa0 → b2 ∈ aa_actors aa0 →
    first_hash r (sent_to b1 outs) = first_hash r (sent_to b2 outs).
Proof.
  revert evs aa outs. apply (run_inv aa_step (λ _ aa outs, aa_id aa = aa_id aa0 ∧ aa_actors aa = aa_actors aa0 ∧
    ∀ r b1 b2, b1 ∈ aa_actors aa0 → b2 ∈ aa_actors aa0 → first_hash r (sent_to b1 outs) = first_hash r (sent_to b2 outs))).
  { done. }
  intros evs aa outs ev aa' o _ (E1 & E2 & IH) Hs.
  assert (aa_id aa' = aa_id aa ∧ aa_actors aa' = aa_actors aa ∧
    ((∃ f, o = sendForward aa' f) ∨ ∀ b, sent_to b o = [])) as (F1 & F2 & Ho).
  { destruct ev as [m|q]; cbn [aa_step] in Hs.
    - apply bind_Ok in Hs as ([a1 fo] & H1 & [= <- <-]). unfold handlePublish in H1.
      apply bind_Ok in H1 as (h & _ & H1). case_match; [injection H1 as <- <-; auto|].
      apply bind_Ok in H1 as ([ls i] & _ & H1). cbn zeta in H1. case_match; [injection H1 as <- <-; auto|].
      apply bind_Ok in H1 as (fw & _ & [= <- <-]). split_and!; [done|done|]. left. by exists fw.
    - unfold sendVal, getValue in Hs. apply bind_Ok in Hs as ([a1 v] & H1 & [= <- <-]).
      apply bind_Ok in H1 as ([ls i] & _ & H1). apply bind_Ok in H1 as ([ls' i'] & _ & [= <- <-]). auto. }
  rewrite F1, F2. split_and!; [done|done|]. intros r b1 b2 Hb1 Hb2. rewrite !sent_to_app, !first_hash_app, (IH r b1 b2) by done.
  destruct (first_hash r (sent_to b2 outs)); [done|]. destruct Ho as [[f ->]|Ho]; [|by rewrite !Ho].
  destruct (sent_to_sendForward b1 aa' f) as [S1 N1], (sent_to_sendForward b2 aa' f) as [S2 N2].
  rewrite (first_hash_uniform r (fw_Hash f) (fw_Rnd f) (sent_to b1 _)), (first_hash_uniform r (fw_Hash f) (fw_Rnd f) (sent_to b2 _)); try done.
  - intros m Hm. by apply S2.
  - apply N2. by rewrite F2, E2.
  - intros m Hm. by apply S1.
  - apply N1. by rewrite F2, E2.
Qed.

(** * Agreement on the hash *)

Section agreement.
Context {RO : RangeOrder} {RL : RangeOrderLaws RO}.
Context (alpha : Z) (actors : list ID) (keys : ID → gmap Z bytes).
Context (faulty : list ID) (sent : ID → list AOut).

(** The run of a learner [b] that follows the code: it accepts forwards from
    members only, and those of an acceptor that is not faulty are, in order,
    what that acceptor sent it. *)
Record learner_run (b : ID) (evs : list ALEvent) (l : AuthLearner) : Prop := {
  lrn_run : ∃ outs, run al_step (NewAuthLearner b (len actors) alpha actors (keys b)) evs l outs;
  lrn_bound : Forall ev_bound evs;
  lrn_members m : m ∈ fwds evs → accepted (mkAuthManager b (keys b)) m = true → fw_ID m ∈ actors;
  lrn_links a : a ∈ actors → a ∉ faulty →
    filter (λ m, fw_ID m = a ∧ accepted (mkAuthManager b (keys b)) m = true) (fwds evs) `prefix_of` sent_to b (sent a);
}.

(** The acceptors that are not faulty follow the code. *)
Definition acceptors_run : Prop :=
  ∀ a, a ∈ actors → a ∉ faulty → ∃ evs aa, run aa_step (NewAuthAcceptor a alpha actors (keys a)) evs aa (sent a).

(** The acceptors that are not faulty send all learners the same hash first. *)
Definition uniform_hashes : Prop :=
  ∀ a r b1 b2, a ∈ actors → a ∉ faulty → b1 ∈ actors → b2 ∈ actors → first_hash r (sent_to b1 (sent a)) = first_hash r (sent_to b2 (sent a)).

Lemma acceptors_run_uniform : acceptors_run → uniform_hashes.
Proof.
  intros Hacc a r b1 b2 Hin Ha B1 B2. destruct (Hacc a Hin Ha) as (evs & aa & Hr). apply acceptor_first_hash in Hr as (_ & _ & Hsame). by apply Hsame.
Qed.

(** More than [2f] forwards with the hash, for a decided round. *)
Definition certified (l : AuthLearner) (r h : Z) : Prop :=
  rd_Decided (round_of (al_rounds l) r) = true ∧
  2 * ((len actors - 1) `div` 3) < votes (rd_Forwards (round_of (al_rounds l) r)) h.

Hypothesis Halpha : 0 ≤ alpha < 2 ^ 58.
Hypothesis Hacts : 1 ≤ len actors < 2 ^ 60.

Lemma nFaulty_eq b : al_nFaulty (NewAuthLearner b (len actors) alpha actors (keys b)) = (len actors - 1) `div` 3.
Proof. cbn. by rewrite u64_small by lia. Qed.

Lemma learner_round b evs l r :
  learner_run b evs l → rd_Decided (round_of (al_rounds l) r) = true →
  round_inv (mkAuthManager b (keys b)) ((len actors - 1) `div` 3) evs r (round_of (al_rounds l) r).
Proof.
  intros [[outs Hr] Hb _ _] Hd. eapply al_run_inv in Hr as [HI _]; [|done|done].
  rewrite <- (nFaulty_eq b). apply (ai_round _ _ _ HI). unfold round_of in Hd. case_decide as Hi; [apply Hi|done].
Qed.

Lemma decided_certified b evs l r :
  learner_run b evs l → rd_Decided (round_of (al_rounds l) r) = true → ∃ h, certified l r h.
Proof.
  intros Hl Hd. destruct (ri_quorum _ _ _ _ _ (learner_round _ _ _ _ Hl Hd) Hd) as [h Hh]. exists h. split; [done|].
  rewrite u64_small in Hh; [done|]. pose proof (Z.div_pos (len actors - 1) 3). pose proof (Z.div_le_upper_bound (len actors - 1) 3 (2 ^ 60)). lia.
Qed.

Lemma voters_members b evs l r h a :
  learner_run b evs l → rd_Decided (round_of (al_rounds l) r) = true →
  a ∈ voters (rd_Forwards (round_of (al_rounds l) r)) h →
  a ∈ actors ∧ (a ∉ faulty → first_hash r (sent_to b (sent a)) = Some h ∧ sent_to b (sent a) ≠ []).
Proof.
  intros Hl Hd (m & Hm & Hh)%elem_of_voters. pose proof (ri_first _ _ _ _ _ (learner_round _ _ _ _ Hl Hd) _ _ Hm) as Hf.
  destruct Hl as [_ _ Hmem Hlink].
  assert (m ∈ from_in (mkAuthManager b (keys b)) a r (fwds evs)) as [(Ea & Er & Hacc) Hin]%elem_of_from_in.
  { destruct (from_in _ a r _) as [|x xs]; [done|]. injection Hf as ->. left. }
  split; [rewrite <- Ea; by apply Hmem|]. intros Hc.
  destruct (Hlink a) as [rest Hrest]; [rewrite <- Ea; by apply Hmem|done|]. rewrite Hrest, first_hash_app.
  set (F := filter (λ m, fw_ID m = a ∧ accepted (mkAuthManager b (keys b)) m = true) (fwds evs)) in *.
  assert (first_hash r F = Some h) as ->.
  { unfold first_hash, F. rewrite list_filter_filter.
    rewrite (filter_ext_elem _ (λ m, fw_ID m = a ∧ fw_Rnd m = r ∧ accepted (mkAuthManager b (keys b)) m = true)); [|naive_solver].
    fold (from_in (mkAuthManager b (keys b)) a r (fwds evs)). rewrite Hf. cbn. by rewrite Hh. }
  split; [done|]. assert (m ∈ F) as Hin' by (apply list_elem_of_filter; done). intros E. apply app_nil in E as [E _].
  rewrite E in Hin'. by apply elem_of_nil in Hin'.
Qed.

Hypothesis Hnodup : NoDup actors.
Hypothesis Hfaulty : len faulty ≤ (len actors - 1) `div` 3.

Lemma certified_agree b1 evs1 l1 b2 evs2 l2 r h1 h2 :
  len actors ≤ 3 * ((len actors - 1) `div` 3) + 1 → uniform_hashes →
  learner_run b1 evs1 l1 → learner_run b2 evs2 l2 → b1 ∈ actors → b2 ∈ actors →
  certified l1 r h1 → certified l2 r h2 → h1 = h2.
Proof.
  intros Hn Hacc L1 L2 B1 B2 [D1 C1] [D2 C2]. unfold votes in C1, C2.
  pose proof (λ a, voters_members _ _ _ r h1 a L1 D1) as M1. pose proof (λ a, voters_members _ _ _ r h2 a L2 D2) as M2.
  set (V1 := voters _ h1) in *. set (V2 := voters _ h2) in *.
  assert (NoDup V1) as N1 by apply NoDup_voters. assert (NoDup V2) as N2 by apply NoDup_voters.
  assert (length V1 ≤ length (filter (.∉ faulty) V1) + length faulty)%nat as Hc.
  { pose proof (filter_app_complement (.∈ faulty) V1) as P%Permutation_length. rewrite length_app in P.
    assert (length (filter (.∈ faulty) V1) ≤ length faulty)%nat as Hle; [|rewrite <- P; unfold not in *; lia].
    apply submseteq_length, NoDup_submseteq; [by apply NoDup_filter|]. by intros x [Hx _]%list_elem_of_filter. }
  destruct (quorum_overlap actors (filter (.∉ faulty) V1) V2) as (a & [Ha Ha1]%list_elem_of_filter & Ha2).
  - by apply NoDup_filter.
  - done.
  - intros x [_ Hx]%list_elem_of_filter. by apply M1.
  - intros x Hx. by apply M2.
  - lia.
  - destruct (M1 a Ha1) as [Hin H1], (M2 a Ha2) as [_ H2]. destruct (H1 Ha) as [E1 _], (H2 Ha) as [E2 _].
    specialize (Hacc a r b1 b2 Hin Ha B1 B2). congruence.
Qed.

(** Learners that decide hold quorums for one hash, if correct acceptors do not
    tell them different ones. *)
Lemma uniform_agreement b1 evs1 l1 b2 evs2 l2 r :
  len actors ≤ 3 * ((len actors - 1) `div` 3) + 1 → uniform_hashes → b1 ∈ actors → b2 ∈ actors →
  learner_run b1 evs1 l1 → learner_run b2 evs2 l2 →
  rd_Decided (round_of (al_rounds l1) r) = true → rd_Decided (round_of (al_rounds l2) r) = true →
  ∃ h, certified l1 r h ∧ certified l2 r h ∧ ∀ h', certified l1 r h' ∨ certified l2 r h' → h' = h.
Proof.
  intros H3 Hacc B1 B2 L1 L2 D1 D2. destruct (decided_certified b1 evs1 l1 r L1 D1) as [h1 C1], (decided_certified b2 evs2 l2 r L2 D2) as [h2 C2].
  assert (h1 = h2) as <- by exact (certified_agree b1 evs1 l1 b2 evs2 l2 r h1 h2 H3 Hacc L1 L2 B1 B2 C1 C2).
  exists h1. split_and!; [done|done|]. intros h' [C|C].
  - exact (certified_agree b1 evs1 l1 b2 evs2 l2 r h' h1 H3 Hacc L1 L2 B1 B2 C C2).
  - exact (certified_agree b2 evs2 l2 b1 evs1 l1 r h' h1 H3 Hacc L2 L1 B2 B1 C C1).
Qed.
End agreement.


(** * Concrete groups *)

Definition bc_id (n : Z) : ID := NewIDFromInt n 0.
Definition bc_key (i j : Z) : bytes := [Z.min i j; Z.max i j].
Definition bc_keys (id : ID) : gmap Z bytes :=
  list_to_map ((λ j, (j, bc_key (PxInt id) j)) <$> filter (λ j, j ≠ PxInt id) (range 0 8)).
Definition bc_actors (n : Z) : list ID := bc_id <$> range 0 n.
Definition bc_val (n : Z) : Value := generated [n].

(** What the publisher, replica 0, sends replica [i]. *)
Definition bc_publish (i r : Z) (v : Value) : Publish :=
  mkPublish (bc_id 0) r v
    match Value_Hash v with
    | Ok h => generateMAC (mkAuthManager (bc_id 0) (bc_keys (bc_id 0))) (bc_id i) (hashToBytes h) r
    | _ => []
    end.
Definition bc_sent (n : Z) (v : Z → Value) (a : ID) : list AOut :=
  match run_exec aa_step (NewAuthAcceptor a 3 (bc_actors n) (bc_keys a)) [AAPublish (bc_publish (PxInt a) 1 (v (PxInt a)))] with
  | Some (_, outs) => outs
  | None => []
  end.
(** A learner that hears some of the acceptors. *)
Definition bc_evs (n : Z) (v : Z → Value) (b : Z) (from : list Z) : list ALEvent :=
  ALForward <$> (from ≫= λ a, sent_to (bc_id b) (bc_sent n v (bc_id a))).
Definition bc_learner (n b : Z) (evs : list ALEvent) : AuthLearner :=
  let l0 := NewAuthLearner (bc_id b) (len (bc_actors n)) 3 (bc_actors n) (bc_keys (bc_id b)) in
  match run_exec al_step l0 evs with Some (l, _) => l | None => l0 end.

Definition bc_check (n b : Z) (sent : ID → list AOut) (evs : list ALEvent) : bool :=
  let au := mkAuthManager (bc_id b) (bc_keys (bc_id b)) in
  is_ok match run_exec al_step (NewAuthLearner (bc_id b) (len (bc_actors n)) 3 (bc_actors n) (bc_keys (bc_id b))) evs with
        | Some _ => Ok tt | None => Panic end &&
  forallb (λ m, bool_decide (0 ≤ fw_Rnd m < 2 ^ 61) && bool_decide (fw_ID m ∈ bc_actors n)) (fwds evs) &&
  forallb (λ ev, match ev with ALForward _ => true | _ => false end) evs &&
  forallb (λ a, bool_decide (filter (λ m, fw_ID m = a ∧ accepted au m = true) (fwds evs) `prefix_of` sent_to (bc_id b) (sent a)))
    (bc_actors n).

Lemma bc_check_run n b sent faulty evs :
  bc_check n b sent evs = true → learner_run 3 (bc_actors n) bc_keys faulty sent (bc_id b) evs (bc_learner n b evs).
Proof.
  unfold bc_check, bc_learner. cbn zeta. intros [[[H1 H2]%andb_true_iff H3]%andb_true_iff H4]%andb_true_iff.
  rewrite forallb_forall in H2, H3, H4. split.
  - destruct (run_exec _ _ evs) as [[l outs]|] eqn:E; [|done]. exists outs. by apply run_exec_run.
  - apply Forall_forall. intros ev Hev. pose proof (H3 ev ltac:(by apply list_elem_of_In)) as Hf. destruct ev as [m|]; [|done].
    assert (m ∈ fwds evs) as Hm by (apply list_elem_of_omap; eauto).
    apply list_elem_of_In in Hm. apply H2, andb_true_iff in Hm as [Hm _]. by apply bool_decide_eq_true in Hm.
  - intros m Hm _. apply list_elem_of_In in Hm. apply H2, andb_true_iff in Hm as [_ Hm]. by apply bool_decide_eq_true in Hm.
  - intros a Ha _. apply list_elem_of_In in Ha. apply H4 in Ha. by apply bool_decide_eq_true in Ha.
Qed.

Lemma bc_acceptors_run n v :
  forallb (λ a, match run_exec aa_step (NewAuthAcceptor a 3 (bc_actors n) (bc_keys a)) [AAPublish (bc_publish (PxInt a) 1 (v (PxInt a)))]
                with Some _ => true | None => false end) (bc_actors n) = true →
  acceptors_run 3 (bc_actors n) bc_keys [] (bc_sent n v).
Proof.
  intros Hf a Ha _. rewrite forallb_forall in Hf. apply list_elem_of_In, Hf in Ha. unfold bc_sent.
  destruct (run_exec _ _ _) as [[aa outs]|] eqn:E; [|done]. eexists _, aa. by apply run_exec_run.
Qed.


(** The quorum of [2f + 1] is too small when the group has more than [3f + 1]
    acceptors: in a group of six, whose acceptors all follow the code, a
    publisher that sends two values makes two learners decide on different
    hashes. *)
Theorem hash_disagreement_six :
  ∃ sent evs1 evs2 l1 l2 h1 h2,
    acceptors_run 3 (bc_actors 6) bc_keys [] sent ∧
    learner_run 3 (bc_actors 6) bc_keys [] sent (bc_id 1) evs1 l1 ∧
    learner_run 3 (bc_actors 6) bc_keys [] sent (bc_id 4) evs2 l2 ∧
    certified (bc_actors 6) l1 1 h1 ∧ certified (bc_actors 6) l2 1 h2 ∧ h1 ≠ h2.
Proof.
  set (v := λ i, if bool_decide (i < 3) then bc_val 7 else bc_val 8).
  exists (bc_sent 6 v), (bc_evs 6 v 1 [0; 1; 2]), (bc_evs 6 v 4 [3; 4; 5]).
  exists (bc_learner 6 1 (bc_evs 6 v 1 [0; 1; 2])), (bc_learner 6 4 (bc_evs 6 v 4 [3; 4; 5])).
  exists (match Value_Hash (bc_val 7) with Ok h => h | _ => 0 end), (match Value_Hash (bc_val 8) with Ok h => h | _ => 0 end).
  split_and!.
  - apply bc_acceptors_run. vm_compute. reflexivity.
  - apply bc_check_run. vm_compute. reflexivity.
  - apply bc_check_run. vm_compute. reflexivity.
  - split; vm_compute; reflexivity.
  - split; vm_compute; reflexivity.
  - vm_compute. discriminate.
Qed.

(** * A sender without a key *)

Section outsider.
Context {RO : RangeOrder} {RL : RangeOrderLaws RO}.
Context (id : ID) (n alpha : Z) (actors : list ID) (keys : gmap Z bytes) (px h r : Z) (mac : bytes).
Hypothesis Halpha : 0 ≤ alpha < 2 ^ 58.
Hypothesis Hn : 1 ≤ n < 2 ^ 60.
Hypothesis Hkey : keys !! px = None.
Hypothesis Hpx : px ≠ PxInt id.
Hypothesis Hr : 0 ≤ r < storage_length alpha.
Hypothesis Hmac : mac = hmac_sha1 [] (mac_input (hashToBytes h) r).
Abbreviation l0 := (NewAuthLearner id n alpha actors keys).

(** The forwards of one made-up replica under the epochs 0, 1, 2, ...; the key
    of the MAC is empty. *)
Definition forged (i : Z) : Forward := mkForward (mkID px i) h r mac.

Lemma forged_accepted i : accepted (al_authmgr l0) (forged i) = true.
Proof.
  unfold accepted, checkMAC, generateMAC. cbn [fw_ID fw_Hmac fw_Hash fw_Rnd forged al_authmgr NewAuthLearner am_ID am_Keys PxInt PxID].
  rewrite (bool_decide_eq_false_2 (px = _)) by done. rewrite Hkey. apply bool_decide_eq_true_2. exact Hmac.
Qed.

Definition forged_round (k : Z) (R : Round) : Prop :=
  rd_Decided R = false ∧ rd_SntReq R = false ∧
  ∀ x m, rd_Forwards R !! x = Some m ↔ ∃ i, 0 ≤ i < k ∧ x = mkID px i ∧ m = forged i.

Lemma forged_votes k fs :
  0 ≤ k → (∀ x m, fs !! x = Some m ↔ ∃ i, 0 ≤ i < k ∧ x = mkID px i ∧ m = forged i) →
  votes fs h = k ∧ ∀ h', h' ≠ h → votes fs h' = 0.
Proof.
  intros Hk Hfs. split.
  - unfold votes. assert (voters fs h ≡ₚ (λ i, mkID px i) <$> range 0 k) as ->.
    { apply NoDup_Permutation; [apply NoDup_voters| |].
      - apply NoDup_fmap_2; [by intros ? ? [=]|apply NoDup_seqZ].
      - intros x. rewrite elem_of_voters, list_elem_of_fmap. setoid_rewrite Hfs. setoid_rewrite elem_of_range. split.
        + intros (m & (i & Hi & -> & ->) & _). by exists i.
        + intros (i & -> & Hi). exists (forged i). split; [by exists i|done]. }
    rewrite length_fmap. unfold range. rewrite length_seqZ. lia.
  - intros h' Hne. unfold votes. destruct (voters fs h') as [|x xs] eqn:E; [done|].
    assert (x ∈ voters fs h') as (m & (i & _ & _ & ->)%Hfs & Hh)%elem_of_voters by (rewrite E; left). done.
Qed.

Lemma quorum_small : 0 ≤ 2 * al_nFaulty l0 < 2 ^ 61.
Proof.
  cbn. rewrite u64_small by lia. pose proof (Z.div_pos (n - 1) 3). pose proof (Z.div_le_upper_bound (n - 1) 3 (2 ^ 59)). lia.
Qed.

Lemma init_forged k R x : 0 ≤ k → (k = 0 → R = inhabitant) → forged_round k R → forged_round k (init_round R x).
Proof.
  intros Hk H0 (Hd & Hs & Hf). unfold init_round. case_bool_decide as E; [|by split_and!].
  apply map_size_empty_inv in E. split_and!; [done|done|]. intros y m. rewrite <- Hf, E. done.
Qed.

Lemma forged_step l k :
  0 ≤ k ≤ 2 * al_nFaulty l0 → same_config l0 l → storage_wf (al_rounds l) → in_window (al_rounds l) r →
  (k = 0 → round_of (al_rounds l) r = inhabitant) → forged_round k (round_of (al_rounds l) r) →
  ∃ l', al_step l (ALForward (forged k)) =
      Ok (l', if decide (k = 2 * al_nFaulty l0) then [ASend id (MValReq (mkValReq r))] else []) ∧
    same_config l0 l' ∧ storage_wf (al_rounds l') ∧ in_window (al_rounds l') r ∧
    rd_Decided (round_of (al_rounds l') r) = bool_decide (k = 2 * al_nFaulty l0) ∧
    (k < 2 * al_nFaulty l0 → forged_round (k + 1) (round_of (al_rounds l') r)).
Proof.
  intros Hk Hc Hw Hi H0 Hf. pose proof quorum_small as Hq. pose proof storage_length_eq alpha Halpha as Hlen.
  apply (init_forged k _ r) in Hf as (Hd & Hs & Hfs); [|lia|done].
  set (R := init_round (round_of (al_rounds l) r) r) in *.
  set (fs := <[mkID px k := forged k]> (rd_Forwards R)).
  assert (∀ x m, fs !! x = Some m ↔ ∃ i, 0 ≤ i < k + 1 ∧ x = mkID px i ∧ m = forged i) as Hfs'.
  { intros x m. unfold fs. destruct (decide (mkID px k = x)) as [<-|Hne].
    - rewrite lookup_insert_eq. split; [intros [= <-]; exists k; split; [lia|done]|]. intros (i & _ & [= ->] & ->). done.
    - rewrite lookup_insert_ne by done. rewrite Hfs. split; intros (i & ? & -> & ->); exists i; (split; [|done]); [lia|].
      assert (i ≠ k) by (intros ->; done). lia. }
  destruct (forged_votes (k + 1) fs) as [V1 V2]; [lia|exact Hfs'|].
  assert (compareForwards l fs = bool_decide (k = 2 * al_nFaulty l0)) as Hcmp.
  { apply eq_true_iff_eq. rewrite compareForwards_votes, bool_decide_eq_true, (sc_nf _ _ Hc). rewrite (u64_small (2 * _)) by lia. split.
    - intros [h' Hh]. destruct (decide (h' = h)) as [->|Hne].
      + rewrite V1, u64_small in Hh by lia. lia.
      + rewrite V2, u64_small in Hh by (done || lia). lia.
    - intros ->. exists h. rewrite V1, u64_small; lia. }
  pose proof (forged_accepted k) as Hacc. assert (fw_Rnd (forged k) = r ∧ fw_ID (forged k) = mkID px k) as [Er Ei] by done.
  remember (forged k) as m eqn:Em. unfold al_step, handleForward. rewrite (sc_au _ _ Hc). unfold accepted in Hacc. rewrite Hacc, Er, Ei.
  cbn [negb]. unfold IsValid. rewrite bool_decide_eq_true_2 by (destruct Hi; lia). cbn [negb].
  rewrite Get_in_window by (done || lia). cbn [mbind res_bind]. rewrite read_round_of by done. fold R. rewrite Hd.
  assert (rd_Forwards R !! mkID px k = None) as Hnone.
  { destruct (rd_Forwards R !! mkID px k) eqn:E; [|done]. apply Hfs in E as (i & ? & [= ->] & _). lia. }
  rewrite Hnone, bool_decide_eq_false_2 by by intros [].
  cbn [rd_Forwards rd_Decided rd_SntReq update eta eta_Round]. fold fs. rewrite Hcmp, Hs.
  assert (∀ R', round_of (st_write (al_rounds l) (r - st_min (al_rounds l)) R') r = R') as Hrd
    by (intros R'; rewrite round_of_write by done; by rewrite decide_True).
  assert (∀ R', storage_wf (st_write (al_rounds l) (r - st_min (al_rounds l)) R')) as Hwf by (intros; by apply write_wf).
  pose proof (sc_id _ _ Hc) as Hid. cbn in Hid. case_bool_decide as Hkq; cbn [andb negb mbind res_bind mret res_ret].
  - rewrite decide_True by done. eexists. split; [unfold sendValReq; by rewrite Hid|]. cbn [al_rounds update eta eta_AuthLearner].
    rewrite Hrd. split_and!; try done; [by destruct Hc|lia].
  - rewrite decide_False by done. eexists. split; [done|]. cbn [al_rounds update eta eta_AuthLearner].
    rewrite Hrd. split_and!; try done. by destruct Hc.
Qed.

Lemma forged_run (k : nat) :
  Z.of_nat k ≤ 2 * al_nFaulty l0 →
  ∃ l, run al_step l0 (ALForward <$> (forged <$> range 0 (Z.of_nat k))) l [] ∧ same_config l0 l ∧ storage_wf (al_rounds l) ∧
    in_window (al_rounds l) r ∧ (Z.of_nat k = 0 → round_of (al_rounds l) r = inhabitant) ∧
    forged_round (Z.of_nat k) (round_of (al_rounds l) r).
Proof.
  pose proof storage_length_eq alpha Halpha as Hlen. induction k as [|k IH]; intros Hk.
  - exists l0. assert (round_of (al_rounds l0) r = inhabitant) as Hz by apply round_of_new. rewrite Hz.
    assert (storage_wf (al_rounds l0)) by (apply NewStorage_wf; lia). assert (in_window (al_rounds l0) r) by (split; cbn; lia).
    split; [rewrite range_nil by lia; exact (run_nil al_step l0)|]. split_and!; try done. split_and!; try done.
    intros x m. cbn. rewrite lookup_empty. split; [done|]. intros (i & ? & _). lia.
  - destruct IH as (l & Hrun & Hc & Hw & Hi & H0 & Hf); [lia|].
    destruct (forged_step l (Z.of_nat k)) as (l' & Hs & Hc' & Hw' & Hi' & _ & Hf'); try done; [lia|].
    rewrite decide_False in Hs by lia. exists l'. replace (Z.of_nat (S k)) with (Z.of_nat k + 1) by lia. split_and!; try done.
    + rewrite range_snoc by lia. rewrite !fmap_app. apply (run_snoc al_step l0 _ l [] _ l' []); done.
    + lia.
    + apply Hf'. lia.
Qed.

Lemma forged_decides :
  ∃ l, run al_step l0 (ALForward <$> (forged <$> range 0 (2 * al_nFaulty l0 + 1))) l [ASend id (MValReq (mkValReq r))] ∧
    rd_Decided (round_of (al_rounds l) r) = true.
Proof.
  pose proof quorum_small as Hq. destruct (forged_run (Z.to_nat (2 * al_nFaulty l0))) as (l & Hrun & Hc & Hw & Hi & H0 & Hf); [lia|].
  rewrite Z2Nat.id in * by lia. destruct (forged_step l (2 * al_nFaulty l0)) as (l' & Hs & _ & _ & _ & Hd & _); try done; [lia|].
  exists l'. rewrite Hd, bool_decide_eq_true_2 by done. split; [|done].
  rewrite range_snoc by lia. rewrite !fmap_app. apply (run_snoc al_step l0 _ l [] _ l' [ASend id (MValReq (mkValReq r))]); [done|].
  cbn [fmap list_fmap]. by rewrite Hs, decide_True.
Qed.
End outsider.

(** A sender that is no member of the group and holds no key decides rounds:
    the MAC of a replica the learner has no key for is computed with the empty
    key, and votes are counted per identifier, epoch included, so [2f + 1]
    forwards from one made-up replica make any learner decide any hash. *)
Theorem outsider_decides (RO : RangeOrder) (RL : RangeOrderLaws RO) (id : ID) (n alpha : Z) (actors : list ID)
    (keys : gmap Z bytes) (px h r : Z) :
  0 ≤ alpha < 2 ^ 58 → 1 ≤ n < 2 ^ 60 → keys !! px = None → px ≠ PxInt id → 0 ≤ r < storage_length alpha →
  let l0 := NewAuthLearner id n alpha actors keys in
  let mac := hmac_sha1 [] (mac_input (hashToBytes h) r) in
  ∃ l, run al_step l0 (ALForward <$> (forged px h r mac <$> range 0 (2 * al_nFaulty l0 + 1))) l [ASend id (MValReq (mkValReq r))] ∧
    rd_Decided (round_of (al_rounds l) r) = true.
Proof. intros Ha Hn Hk Hp Hr l0 mac. by apply forged_decides. Qed.

Lemma outsider_decides_witness (l0 := NewAuthLearner (bc_id 1) 4 3 (bc_actors 4) (bc_keys (bc_id 1)))
    (mac := hmac_sha1 [] (mac_input (hashToBytes 77) 2)) :
  al_nFaulty l0 = 1 ∧
  ∃ l, run al_step l0 (ALForward <$> (forged 100 77 2 mac <$> range 0 3)) l [ASend (bc_id 1) (MValReq (mkValReq 2))] ∧
    rd_Decided (round_of (al_rounds l) 2) = true.
Proof.
  split; [reflexivity|].
  apply (outsider_decides map_order map_order_laws (bc_id 1) 4 3 (bc_actors 4) (bc_keys (bc_id 1)) 100 77 2);
    [lia|lia|vm_compute; reflexivity|discriminate|vm_compute; split; [discriminate|reflexivity]].
Defined.
