(* ===== verification/AuthSystem.v ===== *)
(** Authenticated broadcast as a whole (src/authenticatedbc/create.go): what the
    publisher sends, and the system of a publisher that follows the code and
    the acceptors and learners of all replicas, over a network that delivers
    packets at any time, in any order and any number of times. *)
From stdpp Require Import functions.
From S2P Require Import Prelude Grp PaxosTypes Bcast AuthBC AuthRuns AuthSafety.

(** * The publisher *)

(** What the publisher sent to [b]: rounds and values. *)
Definition published_to (b : ID) (outs : list AOut) : list (Z * Value) :=
  omap (λ o, match o with ASend d (MPublish m) => if decide (d = b) then Some (pb_Rnd m, pb_Val m) else None | _ => None end) outs.
Lemma published_to_app b o1 o2 : published_to b (o1 ++ o2) = published_to b o1 ++ published_to b o2.
Proof. apply omap_app. Qed.

(** Round [r] carries the [r]-th value generated. *)
Definition numbered (vals : list Value) (lo hi : Z) : list (Z * Value) :=
  (λ r, (r, default zero_Value (vals !! Z.to_nat r))) <$> range lo hi.

Section publisher.
Context (p0 : AuthPublisher) (vals : list Value).

Record pub_inv (p : AuthPublisher) (outs : list AOut) : Prop := {
  pi_actors : ap_actors p = ap_actors p0;
  pi_alpha : ap_alpha p = ap_alpha p0;
  pi_range : 0 ≤ ap_currentRnd p ≤ len vals;
  pi_queue : ap_queue p = drop (Z.to_nat (ap_currentRnd p)) vals;
  pi_sent b : b ∈ ap_actors p0 → published_to b outs = numbered vals 0 (ap_currentRnd p);
  pi_publishes d m : ASend d m ∈ outs → ∃ q, m = MPublish q ∧ 0 ≤ pb_Rnd q < len vals ∧ vals !! Z.to_nat (pb_Rnd q) = Some (pb_Val q);
}.

Hypothesis Hactors : NoDup (ap_actors p0).
Hypothesis Hvals : Forall (λ v, Vt v = App) vals.
Hypothesis Hlen : len vals < 2 ^ 61.

Lemma Value_Hash_App v : Vt v = App → ∃ h, Value_Hash v = Ok h.
Proof. intros E. unfold Value_Hash. rewrite bool_decide_eq_false_2 by (rewrite E; naive_solver). eauto. Qed.

Lemma sendPublish_spec p rnd v outs :
  sendPublish p rnd v = Ok outs → NoDup (ap_actors p) →
  (∀ b, b ∈ ap_actors p → published_to b outs = [(rnd, v)]) ∧
  (∀ d m, ASend d m ∈ outs → ∃ q, m = MPublish q ∧ pb_Rnd q = rnd ∧ pb_Val q = v).
Proof.
  unfold sendPublish. intros Hs Hnd.
  set (P := λ (pre : list ID) (outs : list AOut), (∀ b, b ∉ pre → published_to b outs = []) ∧
    (NoDup pre → ∀ b, b ∈ pre → published_to b outs = [(rnd, v)]) ∧
    (∀ d m, ASend d m ∈ outs → ∃ q, m = MPublish q ∧ pb_Rnd q = rnd ∧ pb_Val q = v)).
  enough (P (ap_actors p) outs) as (_ & H1 & H2) by (split; [by apply H1|done]).
  revert Hs. eapply (foldM_inv P).
  2:{ split; [done|]. split; [by intros _ b ?%elem_of_nil|by intros d m ?%elem_of_nil]. }
  intros pre a post o o' _ (H1 & H2 & H3) (h & _ & [= <-])%bind_Ok. split_and!.
  - intros b [Hb Ha]%not_elem_of_app. rewrite published_to_app, H1 by done. cbn. rewrite decide_False; [done|].
    intros ->. apply Ha. left.
  - intros (Nd & Hna & _)%NoDup_app b Hb. rewrite published_to_app. apply elem_of_app in Hb as [Hb|Hb].
    + rewrite H2 by done. cbn. rewrite decide_False; [done|]. intros ->. apply (Hna _ Hb). left.
    + apply list_elem_of_singleton in Hb as ->. rewrite H1 by (intros Hx; apply (Hna _ Hx); left). cbn. by rewrite decide_True.
  - intros d m [Hin|Hin]%elem_of_app; [by eapply H3|]. apply list_elem_of_singleton in Hin. injection Hin as -> ->. eauto.
Qed.

Lemma sendPublish_total p rnd v : Vt v = App → ∃ outs, sendPublish p rnd v = Ok outs.
Proof.
  intros [h Hh]%Value_Hash_App. apply foldM_returns. intros outs id. rewrite Hh. cbn. eauto.
Qed.

Lemma publish_loop_spec p to cur outs0 outs :
  ap_actors p = ap_actors p0 → 0 ≤ cur ≤ len vals → (∃ c, pub_inv c outs0 ∧ ap_currentRnd c = cur) →
  ∃ cur' outs', publish_loop p to (drop (Z.to_nat cur) vals) cur outs = Ok (drop (Z.to_nat cur') vals, cur', outs ++ outs') ∧
    cur ≤ cur' ≤ len vals ∧ (cur' = cur ∨ cur' ≤ to) ∧ (cur' = len vals ∨ to ≤ cur') ∧
    (∀ b, b ∈ ap_actors p0 → published_to b (outs0 ++ outs') = numbered vals 0 cur') ∧
    (∀ d m, ASend d m ∈ outs0 ++ outs' → ∃ q, m = MPublish q ∧ 0 ≤ pb_Rnd q < len vals ∧ vals !! Z.to_nat (pb_Rnd q) = Some (pb_Val q)).
Proof.
  intros Hp Hcur (c & [_ _ _ _ Hs Hm] & <-). set (cur := ap_currentRnd c) in *. clearbody cur. clear c.
  remember (drop (Z.to_nat cur) vals) as queue eqn:Hq. revert cur outs outs0 Hq Hcur Hs Hm.
  induction queue as [|v queue IH]; intros cur outs outs0 Hq Hcur Hs Hm; cbn [publish_loop].
  { exists cur, []. rewrite Hq, !app_nil_r. split_and!; try done; try lia.
    left. assert (length (drop (Z.to_nat cur) vals) = 0%nat) as E by by rewrite <- Hq. rewrite length_drop in E. lia. }
  assert (vals !! Z.to_nat cur = Some v) as Hv.
  { rewrite <- (Nat.add_0_r (Z.to_nat cur)), <- lookup_drop, <- Hq. done. }
  assert (cur < len vals) as Hlt by (apply lookup_lt_Some in Hv; lia).
  case_bool_decide as Hto.
  - rewrite Forall_lookup in Hvals. destruct (sendPublish_total p cur v (Hvals _ _ Hv)) as [o Ho]. rewrite Ho. cbn [mbind res_bind].
    apply sendPublish_spec in Ho as [S1 S2]; [|by rewrite Hp]. rewrite Hp in S1. rewrite u64_small by lia.
    destruct (IH (cur + 1) (outs ++ o) (outs0 ++ o)) as (cur' & outs' & E & R1 & R2 & R3 & R4 & R5).
    + change queue with (drop 1 (v :: queue)). rewrite Hq, drop_drop. f_equal. lia.
    + lia.
    + intros b Hb. rewrite published_to_app, Hs, S1 by done. unfold numbered. rewrite range_snoc, fmap_app by lia. cbn. by rewrite Hv.
    + intros d m [?|Hin]%elem_of_app; [by eapply Hm|]. destruct (S2 d m Hin) as (q & -> & <- & <-). exists q. split_and!; try done; lia.
    + exists cur', (o ++ outs'). rewrite <- !app_assoc in *. split_and!; try done; try lia.
  - exists cur, []. rewrite Hq, !app_nil_r. split_and!; try done; try lia.
Qed.

Lemma genPublish_spec p outs :
  pub_inv p outs → ∃ p' o, genPublish p = Ok (p', o) ∧ pub_inv p' (outs ++ o) ∧
    ap_maxdecided p' = ap_maxdecided p ∧
    (ap_currentRnd p' = ap_currentRnd p ∨ ap_currentRnd p' ≤ u64 (ap_maxdecided p + ap_alpha p)).
Proof.
  intros HI. pose proof HI as [Ia Il Ir Iq Is Ip]. unfold genPublish. rewrite Iq.
  destruct (publish_loop_spec p (u64 (ap_maxdecided p + ap_alpha p)) (ap_currentRnd p) outs []) as
    (cur' & o & -> & R1 & R2 & _ & R4 & R5); [done|done|by exists p|].
  cbn [mbind res_bind mret res_ret app]. do 2 eexists. split; [done|]. split_and!; [|done|done]. split; cbn; done || lia.
Qed.

(** The state matters to the invariant only through four fields. *)
Lemma pub_inv_fields p q outs :
  pub_inv p outs → ap_actors q = ap_actors p → ap_alpha q = ap_alpha p → ap_currentRnd q = ap_currentRnd p →
  ap_queue q = ap_queue p → pub_inv q outs.
Proof. intros [Ia Il Ir Iq Is Ip] E1 E2 E3 E4. split; rewrite ?E1, ?E2, ?E3, ?E4; done. Qed.

Definition ap_bound (ev : APEvent) : Prop := match ev with APDcdRnd d => 0 ≤ dr_Rnd d < 2 ^ 60 | APTick => True end.

(** Every event is handled, and moves [maxdecided] by one or to the round
    reported. *)
Lemma ap_step_spec p outs ev :
  pub_inv p outs → ∃ p' o, ap_step p ev = Ok (p', o) ∧ pub_inv p' (outs ++ o) ∧
    (ap_maxdecided p' = ap_maxdecided p ∨ ap_maxdecided p' = u64 (ap_maxdecided p + 1) ∨
     ∃ d, ev = APDcdRnd d ∧ ap_maxdecided p' = dr_Rnd d ∧ ap_maxdecided p < dr_Rnd d) ∧
    (ap_currentRnd p' = ap_currentRnd p ∨ ap_currentRnd p' ≤ u64 (ap_maxdecided p' + ap_alpha p)).
Proof.
  intros HI. pose proof HI as [Ia Il Ir Iq Is Ip]. destruct ev as [d|]; cbn [ap_step].
  - case_bool_decide as Hd; [|exists p, []; rewrite app_nil_r; auto 6].
    set (q := p <| ap_decided ::= _ |>). set (q' := if bool_decide (_ >= _) then _ else q).
    assert (pub_inv q' outs) as HI' by (unfold q'; case_match; by eapply pub_inv_fields).
    destruct (genPublish_spec q' outs HI') as (p' & o & -> & H1 & H2 & H3). exists p', o.
    assert (ap_currentRnd q' = ap_currentRnd p ∧ ap_alpha q' = ap_alpha p) as [E1 E2] by (unfold q'; by case_match).
    rewrite E1, E2, <- H2 in H3. split_and!; try done. rewrite H2. unfold q'. case_match; [right; right|by left]. exists d. split_and!; [done|done|lia].
  - destruct (bool_decide (ap_maxdecided p = ap_prevmaxdecided p) && bool_decide (ap_queue p ≠ [])).
    + set (q := p <| ap_maxdecided ::= _ |> <| ap_failedReplicas ::= _ |>).
      assert (pub_inv q outs) as HI' by by eapply pub_inv_fields.
      destruct (genPublish_spec q outs HI') as (p' & o & -> & H1 & H2 & H3). cbn [mbind res_bind mret res_ret].
      eexists _, o. split; [done|]. split_and!; [by eapply pub_inv_fields| |].
      * right. left. exact H2.
      * cbn. rewrite H2. exact H3.
    + cbn [mbind res_bind mret res_ret]. eexists _, []. split; [done|]. rewrite app_nil_r.
      split_and!; [by eapply pub_inv_fields|by left|by left].
Qed.

Lemma ap_run_spec p1 o1 evs p outs :
  pub_inv p1 o1 → run ap_step p1 evs p outs → pub_inv p (o1 ++ outs).
Proof.
  intros H1 Hr. induction Hr as [|evs s outs ev s' o _ IH Hs]; [by rewrite app_nil_r|].
  destruct (ap_step_spec s (o1 ++ outs) ev IH) as (p' & o' & E & HI & _). rewrite Hs in E.
  apply Ok_inj, pair_equal_spec in E as [<- <-]. by rewrite (assoc_L (++)).
Qed.
End publisher.

Section start.
Context (id : ID) (n alpha : Z) (actors : list ID) (keys : gmap Z bytes) (payloads : list bytes).
Abbreviation p0 := (NewAuthPublisher id n alpha actors keys).
Abbreviation vals := (generated <$> payloads).
Hypothesis Hactors : NoDup actors.
Hypothesis Hlen : len payloads < 2 ^ 60.

Lemma generated_App : Forall (λ v, Vt v = App) vals.
Proof. apply Forall_fmap, Forall_forall. done. Qed.

Lemma pub_start_spec :
  ∃ p o, pub_start p0 payloads = Ok (p, o) ∧ pub_inv p0 vals p o ∧ ap_maxdecided p = 0 ∧
    (ap_currentRnd p = 0 ∨ ap_currentRnd p ≤ u64 (0 + ap_alpha p0)).
Proof.
  unfold pub_start. apply (genPublish_spec p0 vals Hactors generated_App ltac:(rewrite length_fmap; lia) (generateRequests p0 payloads) []).
  split; cbn; try done; try lia. by intros ? ? ?%elem_of_nil.
Qed.
End start.

(** The publisher sends every acceptor the values generated, in order and
    each once, as rounds 0, 1, 2, ..., and is never more than [alpha] rounds
    beyond the highest round it takes as decided. *)
Theorem publisher_order (id : ID) (n alpha : Z) (actors : list ID) (keys : gmap Z bytes) (payloads : list bytes)
    (p1 p : AuthPublisher) (o1 outs : list AOut) (evs : list APEvent) :
  NoDup actors → 0 ≤ alpha < 2 ^ 60 → len payloads < 2 ^ 60 → len evs < 2 ^ 60 → Forall ap_bound evs →
  pub_start (NewAuthPublisher id n alpha actors keys) payloads = Ok (p1, o1) → run ap_step p1 evs p outs →
  (∀ b, b ∈ actors → published_to b (o1 ++ outs) = numbered (generated <$> payloads) 0 (ap_currentRnd p)) ∧
  ap_currentRnd p ≤ ap_maxdecided p + alpha.
Proof.
  intros Hnd Ha Hl Hn Hb Hs Hr. destruct (pub_start_spec id n alpha actors keys payloads Hnd Hl) as (p1' & o1' & E & HI & M & Hc).
  rewrite Hs in E. apply Ok_inj, pair_equal_spec in E as [<- <-]. cbn [ap_alpha NewAuthPublisher] in Hc. rewrite !u64_small in Hc by (rewrite ?u64_small; lia).
  set (p0 := NewAuthPublisher id n alpha actors keys) in *.
  assert (ap_alpha p0 = alpha) as Ea by (cbn; apply u64_small; lia).
  pose proof (ap_run_spec p0 (generated <$> payloads) Hnd (generated_App payloads) ltac:(rewrite length_fmap; lia) p1 o1) as Hspec.
  split; [by apply (Hspec evs p outs HI Hr)|].
  cut (0 ≤ ap_maxdecided p ≤ 2 ^ 60 + len evs ∧ ap_currentRnd p ≤ ap_maxdecided p + alpha); [by intros [_ ?]|].
  revert Hn Hb. induction Hr as [|evs s outs ev s' o Hr IH Hst]; intros Hn Hb; [cbn in *; lia|].
  apply Forall_app in Hb as [Hb Hb1]. rewrite length_app in Hn. cbn in Hn. destruct IH as [IH1 IH2]; [lia|done|].
  destruct (ap_step_spec p0 (generated <$> payloads) Hnd (generated_App payloads) ltac:(rewrite length_fmap; lia) s (o1 ++ outs) ev)
    as (p' & o' & E & HI' & Hm & Hcur); [by apply (Hspec evs s outs HI)|].
  rewrite Hst in E. apply Ok_inj, pair_equal_spec in E as [<- <-]. rewrite length_app. cbn [length].
  assert (ap_alpha s = alpha) as Es by (rewrite <- Ea; eapply (pi_alpha p0 (generated <$> payloads)), (Hspec evs s outs HI Hr)).
  apply (Forall_singleton ap_bound) in Hb1. rewrite Es in Hcur. rewrite u64_small in Hm by lia.
  assert (0 ≤ ap_maxdecided s' ≤ 2 ^ 60 + (len evs + 1) ∧ ap_maxdecided s ≤ ap_maxdecided s') as Hmm.
  { destruct Hm as [->|[->|(d & -> & -> & ?)]]; cbn in Hb1; lia. }
  rewrite u64_small in Hcur by lia. lia.
Qed.

(** * The system (create.go) *)

Record BSys := mkBSys {
  bs_pub : AuthPublisher;
  bs_accs : ID → AuthAcceptor;
  bs_lrns : ID → AuthLearner;
  bs_net : list (ID * AMsg);               (* every packet sent so far *)
  bs_decided : ID → list Value;            (* what each learner delivered *)
}.
#[export] Instance eta_BSys : Eta BSys := λ r, mkBSys (bs_pub r) (bs_accs r) (bs_lrns r) (bs_net r) (bs_decided r).

Definition packets (outs : list AOut) : list (ID * AMsg) :=
  omap (λ o, match o with ASend d m => Some (d, m) | _ => None end) outs.

(** A packet that was sent is handled by the actor it is for. *)
Inductive Packet :=
| PAcc (d : ID) (ev : AAEvent)
| PLrn (d : ID) (ev : ALEvent)
| PPub (ev : APEvent).
Definition packet_sent (net : list (ID * AMsg)) (p : Packet) : Prop :=
  match p with
  | PAcc d (AAPublish m) => (d, MPublish m) ∈ net
  | PAcc d (AAValReq m) => (d, MValReq m) ∈ net
  | PLrn d (ALForward m) => (d, MForward m) ∈ net
  | PLrn d (ALValResp m) => (d, MValResp m) ∈ net
  | PPub (APDcdRnd m) => ∃ d, (d, MDcdRnd m) ∈ net
  | PPub APTick => True
  end.

Section system.
Context {RO : RangeOrder} {RL : RangeOrderLaws RO}.

Definition bs_next (s : BSys) (p : Packet) : res BSys :=
  match p with
  | PAcc d ev =>
      '(aa, outs) ← aa_step (bs_accs s d) ev;
      mret (s <| bs_accs ::= <[d := aa]> |> <| bs_net ::= λ net, net ++ packets outs |>)
  | PLrn d ev =>
      '(l, outs) ← al_step (bs_lrns s d) ev;
      mret (s <| bs_lrns ::= <[d := l]> |> <| bs_net ::= λ net, net ++ packets outs |>
              <| bs_decided ::= λ dec, <[d := dec d ++ decided_of outs]> dec |>)
  | PPub ev =>
      '(p, outs) ← ap_step (bs_pub s) ev;
      mret (s <| bs_pub := p |> <| bs_net ::= λ net, net ++ packets outs |>)
  end.
Definition bs_step (s s' : BSys) : Prop := ∃ p, packet_sent (bs_net s) p ∧ bs_next s p = Ok s'.

Context (n alpha : Z) (actors : list ID) (keys : ID → gmap Z bytes) (pub : ID) (payloads : list bytes).
Abbreviation vals := (generated <$> payloads).

(** The actors as they are created, and the publisher after its first
    publications. *)
Definition bs_init (s : BSys) : Prop :=
  ∃ p outs, pub_start (NewAuthPublisher pub n alpha actors (keys pub)) payloads = Ok (p, outs) ∧
    s = mkBSys p (λ a, NewAuthAcceptor a alpha actors (keys a)) (λ b, NewAuthLearner b n alpha actors (keys b))
          (packets outs) (λ _, []).
Definition bs_reachable (s : BSys) : Prop := ∃ s0, bs_init s0 ∧ rtc bs_step s0 s.

Hypothesis Halpha : 0 ≤ alpha < 2 ^ 58.
Hypothesis Hactors : NoDup actors.
Hypothesis Hlen : len payloads < 2 ^ 60.

Definition ok_round (r : Z) : Prop := 0 ≤ r < len payloads.
(** A value that may be stored for the round. *)
Definition ok_val (r : Z) (v : Value) : Prop := v = zero_Value ∨ vals !! Z.to_nat r = Some v.
Definition ok_msg (m : AMsg) : Prop :=
  match m with
  | MPublish q => ok_round (pb_Rnd q) ∧ vals !! Z.to_nat (pb_Rnd q) = Some (pb_Val q)
  | MForward f => ok_round (fw_Rnd f)
  | MValReq q => ok_round (vq_Rnd q)
  | MValResp q => ok_round (vp_Rnd q) ∧ ok_val (vp_Rnd q) (vp_Val q)
  | MDcdRnd _ => True
  end.
Definition ok_outs (outs : list AOut) : Prop := ∀ d m, ASend d m ∈ outs → ok_msg m.

Definition acc_inv (aa : AuthAcceptor) : Prop :=
  storage_wf (aa_rounds aa) ∧
  ∀ r, st_min (aa_rounds aa) ≤ r → ok_val r (rd_Val (round_of (aa_rounds aa) r)).

Record BInv (s : BSys) : Prop := {
  bi_pub : ∃ outs, pub_inv (NewAuthPublisher pub n alpha actors (keys pub)) vals (bs_pub s) outs;
  bi_net d m : (d, m) ∈ bs_net s → ok_msg m;
  bi_acc d : acc_inv (bs_accs s d);
  bi_lrn d : ∃ evs outs, run al_step (NewAuthLearner d n alpha actors (keys d)) evs (bs_lrns s d) outs ∧
    Forall ev_bound evs ∧ bs_decided s d = decided_of outs ∧ ∀ p, p ∈ resps evs → ok_val (vp_Rnd p) (vp_Val p);
}.

Lemma elem_of_packets d m outs : (d, m) ∈ packets outs ↔ ASend d m ∈ outs.
Proof.
  unfold packets. rewrite list_elem_of_omap. split; [intros ([] & Hin & [= <- <-])|intros Hin; eexists; split]; done.
Qed.

Lemma ok_round_bound r : ok_round r → 0 ≤ r < 2 ^ 60.
Proof. unfold ok_round. lia. Qed.

Lemma aa_step_inv aa ev aa' outs :
  acc_inv aa → ok_msg match ev with AAPublish m => MPublish m | AAValReq m => MValReq m end →
  aa_step aa ev = Ok (aa', outs) → acc_inv aa' ∧ ok_outs outs.
Proof.
  intros [Hw Hv] Hm Hs. destruct ev as [m|q]; cbn [aa_step ok_msg] in *.
  - destruct Hm as [Hr Hval]. pose proof (ok_round_bound _ Hr). apply bind_Ok in Hs as ([a1 fo] & H1 & [= <- <-]).
    unfold handlePublish in H1. apply bind_Ok in H1 as (h & Hh & H1). case_match; [injection H1 as <- <-; split; [done|by intros ? ? ?%elem_of_nil]|].
    apply bind_Ok in H1 as ([ls i] & (We & Hi & ->)%Get_Ok & H1); [|done|lia]. cbn zeta in H1.
    pose proof We as [Hw' _ _ Hsame].
    assert (∀ ls', win_ext (aa_rounds aa) ls' → ∀ r, st_min ls' ≤ r → ok_val r (rd_Val (round_of ls' r))) as Hext.
    { intros ls' [_ _ WM WS] r Hge. rewrite WS by done. apply Hv. lia. }
    case_match; [injection H1 as <- <-; split; [split; [done|by apply Hext]|by intros ? ? ?%elem_of_nil]|].
    apply bind_Ok in H1 as (f & Hf & [= <- <-]). apply bind_Ok in Hf as (h' & _ & [= <-]). split.
    + split; [by apply write_wf|]. intros r Hge. cbn [aa_rounds update eta eta_AuthAcceptor] in Hge |- *.
      rewrite round_of_write by done. case_decide as E; [right; rewrite E; exact Hval|]. by apply Hext.
    + intros d mm (x & [= _ ->] & _)%list_elem_of_fmap. exact Hr.
  - pose proof (ok_round_bound _ Hm). unfold sendVal, getValue in Hs. apply bind_Ok in Hs as ([a1 v] & H1 & [= <- <-]).
    apply bind_Ok in H1 as ([ls i] & (We & _)%Get_Ok & H1); [|done|lia].
    apply bind_Ok in H1 as ([ls2 i2] & (We2 & Hi & ->)%Get_Ok & [= <- <-]); [|by apply We|lia].
    pose proof (win_ext_trans _ _ _ We We2) as [W3 _ M3 S3].
    assert (∀ r, st_min ls2 ≤ r → ok_val r (rd_Val (round_of ls2 r))) as Hext by (intros r Hge; rewrite S3 by done; apply Hv; lia).
    split; [by split|]. intros d mm [= _ ->]%list_elem_of_singleton. split; [done|]. cbn. rewrite read_round_of by done. apply Hext, Hi.
Qed.

Lemma al_step_outs l ev l' outs :
  match ev with ALForward m => ok_round (fw_Rnd m) | ALValResp _ => True end →
  al_step l ev = Ok (l', outs) → ok_outs outs.
Proof.
  intros Hok Hs d m Hin. destruct ev as [f|p]; cbn [al_step] in Hs.
  - apply bind_Ok in Hs as ([[l1 o1] b] & H1 & [= <- <-]). unfold handleForward in H1.
    assert (o1 = [] ∨ o1 = sendValReq l (fw_Rnd f)) as [->| ->].
    { repeat case_match; try (injection H1 as <- <- <-; by left). apply bind_Ok in H1 as ([ls i] & _ & H1). cbn zeta in H1.
      repeat case_match; injection H1 as <- <- <-; auto. }
    + by apply elem_of_nil in Hin.
    + apply list_elem_of_singleton in Hin as [= _ ->]. exact Hok.
  - apply bind_Ok in Hs as (l1 & _ & Hs). unfold sendDecided in Hs.
    assert (∀ fuel l rnd o l' o', decided_loop fuel l rnd o = Ok (l', o') →
      (∀ d m, ASend d m ∈ o → ok_msg m) → ∀ d m, ASend d m ∈ o' → ok_msg m) as Hloop.
    { induction fuel as [|fuel IH]; intros l2 rnd o l2' o' Hl Ho; [done|]. cbn [decided_loop] in Hl.
      apply bind_Ok in Hl as ([ls i] & _ & Hl). cbn zeta in Hl. case_match; [|injection Hl as <- <-; exact Ho].
      apply bind_Ok in Hl as ([ls2 i2] & _ & Hl). cbn zeta in Hl. apply bind_Ok in Hl as (dest & _ & Hl).
      eapply IH; [exact Hl|]. intros d' m' [?|[?|[= _ ->]%list_elem_of_singleton]%elem_of_cons]%elem_of_app; [by eapply Ho|done|done]. }
    repeat case_match; try (injection Hs as <- <-; by apply elem_of_nil in Hin); (eapply Hloop; [exact Hs| |exact Hin]); by intros ? ? ?%elem_of_nil.
Qed.

Lemma BInv_step s s' : BInv s → bs_step s s' → BInv s'.
Proof.
  intros HI (p & Hsent & Hn). pose proof HI as [[po Ip] In Ia Il]. destruct p as [d ev|d ev|ev]; cbn [bs_next] in Hn.
  - apply bind_Ok in Hn as ([aa outs] & Hs & [= <-]).
    apply aa_step_inv in Hs as [Haa Ho]; [|by apply Ia|].
    2:{ destruct ev; cbn [packet_sent] in Hsent; by apply In in Hsent. }
    split; cbn; [by exists po| | |done].
    + intros d' m [Hin|Hin]%elem_of_app; [by eapply In|]. apply elem_of_packets in Hin. by eapply Ho.
    + intros d'. destruct (decide (d' = d)) as [->|]; [by rewrite fn_lookup_insert|by rewrite fn_lookup_insert_ne].
  - apply bind_Ok in Hn as ([l outs] & Hs & [= <-]).
    assert (ok_outs outs) as Ho.
    { eapply al_step_outs; [|exact Hs]. destruct ev; [|done]. cbn [packet_sent] in Hsent. by apply In in Hsent. }
    split; cbn; [by exists po| |done|].
    + intros d' m [Hin|Hin]%elem_of_app; [by eapply In|]. apply elem_of_packets in Hin. by eapply Ho.
    + intros d'. destruct (decide (d' = d)) as [->|]; [rewrite !fn_lookup_insert|by rewrite !fn_lookup_insert_ne].
      destruct (Il d) as (evs & o & Hr & Hb & Hd & Hp). exists (evs ++ [ev]), (o ++ outs). split_and!.
      * by eapply run_snoc.
      * apply Forall_app. split; [done|]. apply (Forall_singleton ev_bound).
        destruct ev as [f|q]; cbn [packet_sent] in Hsent; apply In in Hsent; cbn in Hsent |- *; unfold ok_round in Hsent; lia.
      * by rewrite decided_of_app, Hd.
      * intros q. rewrite resps_snoc. intros [Hq|Hq]%elem_of_app; [by apply Hp|].
        destruct ev as [f|q']; [by apply elem_of_nil in Hq|]. apply list_elem_of_singleton in Hq as ->.
        cbn [packet_sent] in Hsent. apply In in Hsent. apply Hsent.
  - apply bind_Ok in Hn as ([q outs] & Hs & [= <-]).
    destruct (ap_step_spec (NewAuthPublisher pub n alpha actors (keys pub)) vals Hactors (generated_App payloads)
      ltac:(rewrite length_fmap; lia) (bs_pub s) po ev Ip) as (q' & o' & E & HI' & _).
    rewrite Hs in E. apply Ok_inj, pair_equal_spec in E as [<- <-]. split; cbn; [by eexists| |done|done].
    intros d' m [Hin|Hin]%elem_of_app; [by eapply In|]. apply elem_of_packets in Hin.
    destruct (pi_publishes _ _ _ _ HI' d' m) as (x & -> & Hx & Hv); [rewrite elem_of_app; by right|]. rewrite length_fmap in Hx. done.
Qed.

Lemma BInv_reachable s : bs_reachable s → BInv s.
Proof.
  intros (s0 & (p & outs & Hs & ->) & Hrtc).
  assert (BInv (mkBSys p (λ a, NewAuthAcceptor a alpha actors (keys a)) (λ b, NewAuthLearner b n alpha actors (keys b)) (packets outs) (λ _, []))) as H0.
  { destruct (pub_start_spec pub n alpha actors (keys pub) payloads Hactors Hlen) as (p' & o' & E & HI & _).
    rewrite Hs in E. apply Ok_inj, pair_equal_spec in E as [<- <-]. split; cbn.
    - by eexists.
    - intros d m Hin%elem_of_packets. destruct (pi_publishes _ _ _ _ HI d m Hin) as (x & -> & Hx & Hv). rewrite length_fmap in Hx. done.
    - intros d. pose proof (storage_length_eq alpha Halpha). split; [apply NewStorage_wf; lia|].
      intros r _. cbn. rewrite round_of_new. by left.
    - intros d. exists [], []. split_and!; try done; [constructor|by intros ? ?%elem_of_nil]. }
  clear Hs. induction Hrtc as [s|s1 s2 s3 Hst _ IH]; [done|]. apply IH. by eapply BInv_step.
Qed.
End system.

(** What a learner delivers, in any reachable state of a group whose
    publisher follows the code, is one of the values published for the rounds
    from 1 on, or the zero value; the value of round 0 is never delivered. *)
Theorem delivered_published (RO : RangeOrder) (RL : RangeOrderLaws RO) (n alpha : Z) (actors : list ID)
    (keys : ID → gmap Z bytes) (pub : ID) (payloads : list bytes) (s : BSys) (d : ID) (v : Value) :
  0 ≤ alpha < 2 ^ 58 → NoDup actors → len payloads < 2 ^ 60 →
  bs_reachable n alpha actors keys pub payloads s → v ∈ bs_decided s d →
  v = zero_Value ∨ ∃ r b, 1 ≤ r ∧ payloads !! Z.to_nat r = Some b ∧ v = generated b.
Proof.
  intros Ha Hnd Hl Hr Hv. destruct (bi_lrn _ _ _ _ _ _ _ (BInv_reachable n alpha actors keys pub payloads Ha Hnd Hl s Hr) d)
    as (evs & outs & Hrun & Hb & Ed & Hp). rewrite Ed in Hv.
  destruct (delivered_from_responses RO RL d n alpha actors (keys d) evs (bs_lrns s d) outs v Ha Hb Hrun Hv) as (p & Hin & H1 & <-).
  destruct (Hp p Hin) as [->|E]; [by left|right]. apply list_lookup_fmap_Some in E as (b & -> & E). by exists (vp_Rnd p), b.
Qed.

(** * Executable runs *)

Section exec.
Context {RO : RangeOrder}.

Definition dispatch (x : ID * AMsg) : Packet :=
  match x with
  | (d, MPublish m) => PAcc d (AAPublish m)
  | (d, MValReq m) => PAcc d (AAValReq m)
  | (d, MForward m) => PLrn d (ALForward m)
  | (d, MValResp m) => PLrn d (ALValResp m)
  | (_, MDcdRnd m) => PPub (APDcdRnd m)
  end.

(** Delivers the packets with the given positions, one after the other. *)
Fixpoint bs_exec (s : BSys) (ks : list nat) : option BSys :=
  match ks with
  | [] => Some s
  | i :: ks =>
      match bs_net s !! i with
      | Some x => match bs_next s (dispatch x) with Ok s' => bs_exec s' ks | _ => None end
      | None => None
      end
  end.

Lemma bs_exec_rtc s ks s' : bs_exec s ks = Some s' → rtc bs_step s s'.
Proof.
  revert s. induction ks as [|i ks IH]; intros s; cbn [bs_exec]; [by intros [= ->]|].
  destruct (bs_net s !! i) as [x|] eqn:Ex; [|done]. destruct (bs_next s (dispatch x)) as [s1| |] eqn:E; [|done..].
  intros H. eapply rtc_l; [|by apply IH]. exists (dispatch x). split; [|done].
  apply list_elem_of_lookup_2 in Ex. destruct x as [d []]; cbn; eauto.
Qed.
End exec.

Definition bc_payloads : list bytes := [[10]; [11]].
Definition bc_start : BSys :=
  match pub_start (NewAuthPublisher (bc_id 0) 4 3 (bc_actors 4) (bc_keys (bc_id 0))) bc_payloads with
  | Ok (p, outs) => mkBSys p (λ a, NewAuthAcceptor a 3 (bc_actors 4) (bc_keys a))
                      (λ b, NewAuthLearner b 4 3 (bc_actors 4) (bc_keys b)) (packets outs) (λ _, [])
  | _ => mkBSys (NewAuthPublisher (bc_id 0) 4 3 (bc_actors 4) (bc_keys (bc_id 0))) (λ a, NewAuthAcceptor a 3 [] ∅)
           (λ b, NewAuthLearner b 4 3 [] ∅) [] (λ _, [])
  end.
(** The acceptors 0, 1 and 2 forward round 1; the learners 0 and 3 hear all
    three and ask their acceptors. Acceptor 3 has not heard the publisher. *)
Definition bc_script : list nat := [4; 5; 6; 8; 12; 16; 11; 15; 19; 20; 21; 22; 23]%nat.
Definition bc_end : BSys := default bc_start (bs_exec bc_start bc_script).

Lemma bc_start_init : bs_init 4 3 (bc_actors 4) bc_keys (bc_id 0) bc_payloads bc_start.
Proof.
  destruct (pub_start_spec (bc_id 0) 4 3 (bc_actors 4) (bc_keys (bc_id 0)) bc_payloads) as (p & outs & E & _).
  - apply (bool_decide_eq_true_1 _). vm_compute. reflexivity.
  - cbn. lia.
  - exists p, outs. split; [done|]. unfold bc_start. by rewrite E.
Qed.

Lemma bc_end_reachable : bs_reachable 4 3 (bc_actors 4) bc_keys (bc_id 0) bc_payloads bc_end.
Proof.
  exists bc_start. split; [apply bc_start_init|]. apply (bs_exec_rtc _ bc_script). unfold bc_end.
  assert (match bs_exec bc_start bc_script with Some _ => true | None => false end = true) as Hx by (vm_compute; reflexivity).
  by destruct (bs_exec bc_start bc_script).
Qed.

Lemma bc_end_decided : bs_decided bc_end (bc_id 0) = [generated [11]] ∧ bs_decided bc_end (bc_id 3) = [zero_Value].
Proof. vm_compute. split; reflexivity. Qed.

(** Agreement on values does not hold, even without a fault: the learner asks
    its own acceptor for the value of a decided round, and an acceptor that the
    publication has not reached yet answers the zero value, which the learner
    delivers as the value of the round. *)
Theorem learners_disagree :
  ∃ s, bs_reachable 4 3 (bc_actors 4) bc_keys (bc_id 0) bc_payloads s ∧
    bs_decided s (bc_id 0) = [generated [11]] ∧ bs_decided s (bc_id 3) = [zero_Value].
Proof. exists bc_end. split; [apply bc_end_reachable|apply bc_end_decided]. Qed.

Lemma delivered_published_witness :
  generated [11] ∈ bs_decided bc_end (bc_id 0) ∧
  (generated [11] = zero_Value ∨ ∃ r b, 1 ≤ r ∧ bc_payloads !! Z.to_nat r = Some b ∧ generated [11] = generated b).
Proof.
  assert (generated [11] ∈ bs_decided bc_end (bc_id 0)) as Hin by (destruct bc_end_decided as [-> _]; left).
  split; [exact Hin|].
  apply (delivered_published map_order map_order_laws 4 3 (bc_actors 4) bc_keys (bc_id 0) bc_payloads bc_end (bc_id 0));
    [lia|apply (bool_decide_eq_true_1 _); vm_compute; reflexivity|cbn; lia|apply bc_end_reachable|exact Hin].
Defined.

(** The publisher of the group after two reports of round 1 and a tick. *)
Lemma publisher_order_witness :
  ∃ p1 o1 p outs, pub_start (NewAuthPublisher (bc_id 0) 4 3 (bc_actors 4) (bc_keys (bc_id 0))) bc_payloads = Ok (p1, o1) ∧
    run ap_step p1 [APDcdRnd (mkDcdRnd 1); APTick; APDcdRnd (mkDcdRnd 1)] p outs ∧
    published_to (bc_id 2) (o1 ++ outs) = [(0, generated [10]); (1, generated [11])] ∧ ap_currentRnd p ≤ ap_maxdecided p + 3.
Proof.
  destruct (pub_start _ _) as [[p1 o1]| |] eqn:E; [|exfalso; revert E; vm_compute; discriminate..].
  destruct (run_exec ap_step p1 [APDcdRnd (mkDcdRnd 1); APTick; APDcdRnd (mkDcdRnd 1)]) as [[p outs]|] eqn:Ex.
  2:{ exfalso. revert Ex. injection E as <- <-. vm_compute. discriminate. }
  assert (ap_currentRnd p = 2) as Ec by (injection E as <- <-; revert Ex; vm_compute; by intros [= <- <-]).
  apply run_exec_run in Ex. exists p1, o1, p, outs. split; [done|]. split; [exact Ex|].
  destruct (publisher_order (bc_id 0) 4 3 (bc_actors 4) (bc_keys (bc_id 0)) bc_payloads p1 p o1 outs
    [APDcdRnd (mkDcdRnd 1); APTick; APDcdRnd (mkDcdRnd 1)]) as [H1 H2].
  - apply (bool_decide_eq_true_1 _). vm_compute. reflexivity.
  - lia.
  - cbn. lia.
  - cbn. lia.
  - repeat constructor; cbn; lia.
  - exact E.
  - exact Ex.
  - split; [|exact H2]. rewrite (H1 (bc_id 2)); [by rewrite Ec|]. apply (bool_decide_eq_true_1 _). vm_compute. reflexivity.
Defined.
