(* ===== verification/RelBC.v ===== *)
(** Reliable broadcast (src/reliablebc): as authenticated broadcast, but the
    acceptors first agree on the hash of a round with prepares and commits. An
    acceptor commits when it has more than [2f] prepares, or more than [f]
    commits, with one hash; a learner decides with more than [2f] commits.

    The package has its own copies of the learner and the publisher, which only
    differ from those of authenticated broadcast in names: a commit is to its
    learner what a forward is there. *)
From S2P Require Import Prelude Grp PaxosTypes Bcast AuthBC.

(** * Messages (msg.go) *)

(** Prepares, commits to acceptors and commits to learners are structs with the
    same four fields, those of a forward. *)
Definition RPrepare : Type := Forward.
Definition CommitA : Type := Forward.
Definition Commit : Type := Forward.

(** Commits to learners and values are packets as in authenticated broadcast. *)
Inductive ROut :=
| RSendPrepare (dest : ID) (m : RPrepare)
| RSendCommitA (dest : ID) (m : CommitA)
| RSend (o : AOut).

(** * Rounds (astorage.go) *)

Record AcceptorRound := mkAcceptorRound {
  ac_RndID : Z; ac_Prepares : gmap ID Forward; ac_Commits : gmap ID Forward; ac_SentPrepare : bool; ac_SentCommit : bool; ac_Value : Value }.
#[export] Instance eta_AcceptorRound : Eta AcceptorRound := λ r,
  mkAcceptorRound (ac_RndID r) (ac_Prepares r) (ac_Commits r) (ac_SentPrepare r) (ac_SentCommit r) (ac_Value r).
#[export] Instance AcceptorRound_inhabited : Inhabited AcceptorRound := populate (mkAcceptorRound 0 ∅ ∅ false false zero_Value).

(** * The acceptor (relbcacceptor.go) *)

Record RelAcceptor := mkRelAcceptor {
  ra_id : ID; ra_nAcceptors : Z; ra_nFaulty : Z; ra_rounds : Storage AcceptorRound; ra_actors : list ID; ra_authmgr : AuthManager }.
#[export] Instance eta_RelAcceptor : Eta RelAcceptor := λ r,
  mkRelAcceptor (ra_id r) (ra_nAcceptors r) (ra_nFaulty r) (ra_rounds r) (ra_actors r) (ra_authmgr r).

Definition NewRelAcceptor (id : ID) (nAcceptors alpha : Z) (actors : list ID) (keys : gmap Z bytes) : RelAcceptor :=
  mkRelAcceptor id nAcceptors (u64 (nAcceptors - 1) `div` 3) (NewStorage (u64 (u64 (alpha + 10) * 3))) actors (mkAuthManager id keys).

Section acceptor.
Context {RO : RangeOrder}.
Implicit Types ra : RelAcceptor.

(** ** Publications *)

Definition createPrepare ra (msg : Publish) : res RPrepare :=
  hash ← Value_Hash (pb_Val msg);
  mret (mkForward (ra_id ra) hash (pb_Rnd msg) []).

Definition rel_handlePublish ra (msg : Publish) : res (RelAcceptor * option RPrepare) :=
  hash ← Value_Hash (pb_Val msg);
  if negb (checkMAC (ra_authmgr ra) (pb_ID msg) (pb_Hmac msg) (hashToBytes hash) (pb_Rnd msg)) then mret (ra, None)
  else if negb (IsValid (ra_rounds ra) (pb_Rnd msg)) then mret (ra, None)
  else
    '(ls, i) ← Get (ra_rounds ra) (pb_Rnd msg);
    let rnd := (st_read ls i) <| ac_RndID := pb_Rnd msg |> <| ac_Value := pb_Val msg |> in
    let ra := ra <| ra_rounds := st_write ls i rnd |> in
    if ac_SentPrepare rnd then mret (ra, None)
    else prepare ← createPrepare ra msg; mret (ra, Some prepare).

(** ** Prepares *)

(** Whether one hash has more than [n] messages; which one is not said. *)
Definition more_than (n : Z) (msgs : gmap ID Forward) : bool :=
  existsb (λ p, bool_decide (p.2 > n)) (range_order 1 (forwardcount msgs)).
Definition comparePrepares ra (prepares : gmap ID Forward) : bool := more_than (u64 (2 * ra_nFaulty ra)) prepares.
Definition compareCommits ra (commits : gmap ID Forward) : bool := more_than (ra_nFaulty ra) commits.

(** The first message of a round initialises it. *)
Definition open_ar_round (rnd : AcceptorRound) (id : Z) : AcceptorRound :=
  if bool_decide (size (ac_Prepares rnd) = 0%nat) && bool_decide (size (ac_Commits rnd) = 0%nat) then
    rnd <| ac_RndID := id |> <| ac_Prepares := ∅ |> <| ac_Commits := ∅ |> <| ac_SentPrepare := false |> <| ac_SentCommit := false |>
  else rnd.

Definition createCommit ra (rnd hash : Z) : Commit := mkForward (ra_id ra) hash rnd [].

(** The prepare that was not sent yet, and the commit. *)
Definition rel_answer ra (rnd : AcceptorRound) (msg : Forward) : option RPrepare * option Commit :=
  (if negb (ac_SentPrepare rnd) then Some (mkForward (ra_id ra) (fw_Hash msg) (fw_Rnd msg) []) else None,
   Some (createCommit ra (fw_Rnd msg) (fw_Hash msg))).

Definition rel_handlePrepare ra (msg : RPrepare) : res (RelAcceptor * (option RPrepare * option Commit)) :=
  if negb (checkMAC (ra_authmgr ra) (fw_ID msg) (fw_Hmac msg) (hashToBytes (fw_Hash msg)) (fw_Rnd msg)) then mret (ra, (None, None))
  else if negb (IsValid (ra_rounds ra) (fw_Rnd msg)) then mret (ra, (None, None))
  else
    '(ls, i) ← Get (ra_rounds ra) (fw_Rnd msg);
    let rnd := open_ar_round (st_read ls i) (fw_Rnd msg) in
    let store rnd := ra <| ra_rounds := st_write ls i rnd |> in
    if ac_SentCommit rnd then mret (store rnd, (None, None))
    else if bool_decide (is_Some (ac_Prepares rnd !! fw_ID msg)) then mret (store rnd, (None, None))
    else
      let rnd := rnd <| ac_Prepares ::= <[fw_ID msg := msg]> |> in
      mret (store rnd, if comparePrepares ra (ac_Prepares rnd) then rel_answer ra rnd msg else (None, None)).

(** The message with the code for each receiver. *)
Definition sealed ra (id : ID) (msg : Forward) : Forward :=
  mkForward (ra_id ra) (fw_Hash msg) (fw_Rnd msg) (generateMAC (ra_authmgr ra) id (hashToBytes (fw_Hash msg)) (fw_Rnd msg)).

(** The acceptor handles its own message at once and drops the answer. *)
Definition sendPrepare ra (msg : RPrepare) : res (RelAcceptor * list ROut) :=
  '(ra, outs) ← foldM (λ '(ra, outs) id,
      if bool_decide (id = ra_id ra) then '(ra, _) ← rel_handlePrepare ra msg; mret (ra, outs)
      else mret (ra, outs ++ [RSendPrepare id (sealed ra id msg)])) (ra, []) (ra_actors ra);
  '(ls, i) ← Get (ra_rounds ra) (fw_Rnd msg);
  mret (ra <| ra_rounds := st_write ls i ((st_read ls i) <| ac_SentPrepare := true |>) |>, outs).

(** ** Commits *)

Definition rel_handleCommit ra (msg : CommitA) : res (RelAcceptor * (option RPrepare * option Commit)) :=
  if negb (checkMAC (ra_authmgr ra) (fw_ID msg) (fw_Hmac msg) (hashToBytes (fw_Hash msg)) (fw_Rnd msg)) then mret (ra, (None, None))
  else if negb (IsValid (ra_rounds ra) (fw_Rnd msg)) then mret (ra, (None, None))
  else
    '(ls, i) ← Get (ra_rounds ra) (fw_Rnd msg);
    let rnd := open_ar_round (st_read ls i) (fw_Rnd msg) in
    let store rnd := ra <| ra_rounds := st_write ls i rnd |> in
    if ac_SentCommit rnd then mret (store rnd, (None, None))
    else if bool_decide (is_Some (ac_Commits rnd !! fw_ID msg)) then mret (store rnd, (None, None))
    else
      let rnd := rnd <| ac_Commits ::= <[fw_ID msg := msg]> |> in
      mret (store rnd, if compareCommits ra (ac_Commits rnd) then rel_answer ra rnd msg else (None, None)).

Definition sendCommit ra (msg : Commit) : res (RelAcceptor * list ROut) :=
  '(ra, outs) ← foldM (λ '(ra, outs) id,
      if bool_decide (id = ra_id ra) then
        '(ra, _) ← rel_handleCommit ra (sealed ra id msg);
        mret (ra, outs ++ [RSend (ASend id (MForward (sealed ra id msg)))])
      else mret (ra, outs ++ [RSendCommitA id (sealed ra id msg); RSend (ASend id (MForward (sealed ra id msg)))])) (ra, []) (ra_actors ra);
  '(ls, i) ← Get (ra_rounds ra) (fw_Rnd msg);
  mret (ra <| ra_rounds := st_write ls i ((st_read ls i) <| ac_SentCommit := true |>) |>, outs).

(** ** Values *)

Definition getRndValue ra (rnd : Z) : res (RelAcceptor * Value) :=
  if negb (IsValid (ra_rounds ra) rnd) then mret (ra, zero_Value)
  else '(ls, i) ← Get (ra_rounds ra) rnd; mret (ra <| ra_rounds := ls |>, ac_Value (st_read ls i)).

Definition rel_sendVal ra (rnd : Z) : res (RelAcceptor * list ROut) :=
  '(ra, val) ← getRndValue ra rnd;
  mret (ra, [RSend (ASend (ra_id ra) (MValResp (mkValResp rnd val)))]).

(** ** The event loop *)

Inductive RAEvent :=
| RAPublish (m : Publish) | RAPrepare (m : RPrepare) | RACommit (m : CommitA) | RAValReq (m : ValReq).

Definition opt_send (send : RelAcceptor → Forward → res (RelAcceptor * list ROut)) ra (msg : option Forward) : res (RelAcceptor * list ROut) :=
  match msg with Some msg => send ra msg | None => mret (ra, []) end.

(** A prepare goes out before the commit. *)
Definition send_answer ra (ans : option RPrepare * option Commit) : res (RelAcceptor * list ROut) :=
  '(ra, o1) ← opt_send sendPrepare ra ans.1;
  '(ra, o2) ← opt_send sendCommit ra ans.2;
  mret (ra, o1 ++ o2).

Definition ra_step ra (ev : RAEvent) : res (RelAcceptor * list ROut) :=
  match ev with
  | RAPublish publish => '(ra, prepare) ← rel_handlePublish ra publish; opt_send sendPrepare ra prepare
  | RAPrepare pmsg => '(ra, ans) ← rel_handlePrepare ra pmsg; send_answer ra ans
  | RACommit cmsg => '(ra, ans) ← rel_handleCommit ra cmsg; send_answer ra ans
  | RAValReq reqRnd => rel_sendVal ra (vq_Rnd reqRnd)
  end.

(** * The learner and the publisher (relbclearner.go, relbcpublisher.go) *)

Definition RelLearner : Type := AuthLearner.
Definition NewRelLearner : ID → Z → Z → list ID → gmap Z bytes → RelLearner := NewAuthLearner.
Definition rl_handleCommit (l : RelLearner) (msg : Commit) : res (RelLearner * list AOut * bool) := handleForward l msg.
Definition rl_compareCommits (l : RelLearner) (commits : gmap ID Commit) : bool := compareForwards l commits.
Definition rl_storeVal (l : RelLearner) (resp : ValResp) : res RelLearner := storeVal l resp.
Definition rl_sendDecided (l : RelLearner) (rnd : Z) : res (RelLearner * list AOut) := sendDecided l rnd.
Definition rl_step (l : RelLearner) (ev : ALEvent) : res (RelLearner * list AOut) := al_step l ev.

Definition RelPublisher : Type := AuthPublisher.
Definition NewRelPublisher : ID → Z → Z → list ID → gmap Z bytes → RelPublisher := NewAuthPublisher.
Definition rp_generateRequests (p : RelPublisher) (payloads : list bytes) : RelPublisher := generateRequests p payloads.
Definition rp_genPublish (p : RelPublisher) : res (RelPublisher * list AOut) := genPublish p.
Definition rp_sendPublish (p : RelPublisher) (rnd : Z) (val : Value) : res (list AOut) := sendPublish p rnd val.
Definition rp_step (p : RelPublisher) (ev : APEvent) : res (RelPublisher * list AOut) := ap_step p ev.
End acceptor.
