(* ===== verification/RelRuns.v ===== *)
(** Runs of reliable broadcast: an acceptor sends every learner at most one
    commit for a round, so that learners agree on the hash of a round as in
    authenticated broadcast; and the hash need not be that of the value. *)
From S2P Require Import Prelude Grp PaxosTypes Bcast AuthBC AuthRuns AuthSafety RelBC.

Definition learner_outs (outs : list ROut) : list AOut := omap (λ o, match o with RSend o => Some o | _ => None end) outs.
Lemma learner_outs_app o1 o2 : learner_outs (o1 ++ o2) = learner_outs o1 ++ learner_outs o2.
Proof. apply omap_app. Qed.
(** The commits an acceptor sends to the learner of [b]. *)
Definition commits_to (b : ID) (outs : list ROut) : list Commit := sent_to b (learner_outs outs).
Lemma commits_to_app b o1 o2 : commits_to b (o1 ++ o2) = commits_to b o1 ++ commits_to b o2.
Proof. unfold commits_to. by rewrite learner_outs_app, sent_to_app. Qed.

Section runs.
Context {RO : RangeOrder} {RL : RangeOrderLaws RO}.
Implicit Types ra : RelAcceptor.

(** * One commit for a round *)

Definition opened (rnd : AcceptorRound) : Prop := ac_Prepares rnd ≠ ∅ ∨ ac_Commits rnd ≠ ∅.
Definition closed (rnd : AcceptorRound) : Prop := opened rnd ∧ ac_SentCommit rnd = true.

(** A round stays open and, once its commit is sent, closed. *)
Definition keeps (r1 r2 : AcceptorRound) : Prop := (opened r1 → opened r2) ∧ (closed r1 → closed r2).

(** What every operation of the acceptor does to its rounds. *)
Record ra_ext ra ra' : Prop := {
  re_id : ra_id ra' = ra_id ra;
  re_actors : ra_actors ra' = ra_actors ra;
  re_wf : storage_wf (ra_rounds ra');
  re_min : st_min (ra_rounds ra) ≤ st_min (ra_rounds ra');
  re_rounds r : st_min (ra_rounds ra') ≤ r → keeps (round_of (ra_rounds ra) r) (round_of (ra_rounds ra') r);
}.

Lemma keeps_refl R : keeps R R.
Proof. done. Qed.
Lemma keeps_trans R1 R2 R3 : keeps R1 R2 → keeps R2 R3 → keeps R1 R3.
Proof. intros [] []. split; auto. Qed.
Lemma ra_ext_refl ra : storage_wf (ra_rounds ra) → ra_ext ra ra.
Proof. by split. Qed.
Lemma ra_ext_trans ra1 ra2 ra3 : ra_ext ra1 ra2 → ra_ext ra2 ra3 → ra_ext ra1 ra3.
Proof.
  intros [I1 A1 W1 M1 R1] [I2 A2 W2 M2 R2]. split; [congruence|congruence|done|lia|].
  intros r Hr. eapply keeps_trans; [apply R1; lia|by apply R2].
Qed.

Lemma size_not_empty (m : gmap ID Forward) : bool_decide (size m = 0%nat) = true ↔ m = ∅.
Proof. rewrite bool_decide_eq_true. apply map_size_empty_iff. Qed.

Lemma open_round_spec R id : let R' := open_ar_round R id in
  keeps R R' ∧ ac_Value R' = ac_Value R ∧ (opened R → R' = R) ∧ (¬ opened R → ac_SentCommit R' = false).
Proof.
  cbv zeta. unfold open_ar_round, keeps, closed, opened. destruct (bool_decide _ && bool_decide _) eqn:E.
  - apply andb_true_iff in E as [E1%size_not_empty E2%size_not_empty]. cbn. rewrite E1, E2. naive_solver.
  - assert (ac_Prepares R ≠ ∅ ∨ ac_Commits R ≠ ∅) as Ho.
    { destruct (decide (ac_Prepares R = ∅)) as [E1|]; [|by left]. destruct (decide (ac_Commits R = ∅)) as [E2|]; [|by right].
      apply (proj2 (size_not_empty _)) in E1, E2. rewrite E1, E2 in E. done. }
    split_and!; auto. done.
Qed.

(** Writing a round that keeps the old one. *)
Lemma ra_ext_write ra ls i rnd R : storage_wf (ra_rounds ra) → 0 ≤ rnd < 2 ^ 62 → Get (ra_rounds ra) rnd = Ok (ls, i) → keeps (st_read ls i) R →
  let ra' := ra <| ra_rounds := st_write ls i R |> in
  ra_ext ra ra' ∧ in_window (ra_rounds ra') rnd ∧ round_of (ra_rounds ra') rnd = R ∧ st_read ls i = round_of (ra_rounds ra) rnd.
Proof.
  cbv zeta. intros Hw Hr (We & Hi & ->)%Get_Ok Hk; [|done|done]. destruct We as [W1 W2 W3 W4]. rewrite read_round_of in * by done.
  cbn [ra_rounds update eta eta_RelAcceptor ra_id ra_actors].
  split; [|split; [done|split; [rewrite round_of_write by done; by rewrite decide_True|apply W4, Hi]]].
  split; [done|done|by apply write_wf|done|]. intros r Hmin. cbn [ra_rounds]. rewrite round_of_write by done.
  case_decide as Hd; [subst|]; [|rewrite <- (W4 r) by done; done]. by rewrite <- (W4 rnd) by apply Hi.
Qed.

(** A message that leads to a commit finds the round open and without one. *)
Definition handled ra (msg : Forward) ra' (ans : option RPrepare * option Commit) : Prop :=
  ra_ext ra ra' ∧ (ans = (None, None) ∨
    let R := round_of (ra_rounds ra') (fw_Rnd msg) in
    in_window (ra_rounds ra') (fw_Rnd msg) ∧ opened R ∧ ac_SentCommit R = false ∧ ans = rel_answer ra R msg).

Lemma handle_store ra msg ls i R (f : AcceptorRound → AcceptorRound) : storage_wf (ra_rounds ra) → 0 ≤ fw_Rnd msg < 2 ^ 62 →
  Get (ra_rounds ra) (fw_Rnd msg) = Ok (ls, i) → R = open_ar_round (st_read ls i) (fw_Rnd msg) →
  handled ra msg (ra <| ra_rounds := st_write ls i R |>) (None, None) ∧
  (ac_SentCommit R = false → opened (f R) → ac_SentCommit (f R) = ac_SentCommit R → ac_SentPrepare (f R) = ac_SentPrepare R →
   ∀ ans, ans = (None, None) ∨ ans = rel_answer ra (f R) msg → handled ra msg (ra <| ra_rounds := st_write ls i (f R) |>) ans).
Proof.
  intros Hw Hr Hg ->. set (R := open_ar_round (st_read ls i) (fw_Rnd msg)). pose proof (open_round_spec (st_read ls i) (fw_Rnd msg)) as (Hk & _ & _ & _). fold R in Hk.
  split; [split; [by apply (ra_ext_write _ _ _ (fw_Rnd msg))|by left]|].
  intros Hc Ho Es Ep ans Hans.
  assert (keeps R (f R)) as Hk' by (split; [done|]; intros [_ ?]; congruence).
  destruct (ra_ext_write ra ls i (fw_Rnd msg) (f R) Hw Hr Hg) as (Hext & Hin & Hrd & _); [by eapply keeps_trans|].
  split; [done|]. destruct Hans as [->| ->]; [by left|right]. cbv zeta. rewrite Hrd. split_and!; try done. congruence.
Qed.

Lemma rel_handlePrepare_spec ra msg ra' ans : storage_wf (ra_rounds ra) → 0 ≤ fw_Rnd msg < 2 ^ 62 →
  rel_handlePrepare ra msg = Ok (ra', ans) → handled ra msg ra' ans.
Proof.
  intros Hw Hr. unfold rel_handlePrepare. destruct (checkMAC _ _ _ _ _); cbn [negb]; [|intros [= <- <-]; split; [by apply ra_ext_refl|by left]].
  destruct (IsValid _ _); cbn [negb]; [|intros [= <- <-]; split; [by apply ra_ext_refl|by left]].
  intros ([ls i] & Hg & Hrun)%bind_Ok. cbv zeta in Hrun. set (R := open_ar_round (st_read ls i) (fw_Rnd msg)) in *.
  destruct (handle_store ra msg ls i R (λ R, R <| ac_Prepares ::= <[fw_ID msg := msg]> |>) Hw Hr Hg eq_refl) as [H1 H2].
  destruct (ac_SentCommit R) eqn:Ec; [by injection Hrun as <- <-|]. destruct (bool_decide _); [by injection Hrun as <- <-|].
  injection Hrun as <- <-. apply H2; try done; [left; apply insert_non_empty|]. destruct (comparePrepares _ _); auto.
Qed.

Lemma handleCommit_spec ra msg ra' ans : storage_wf (ra_rounds ra) → 0 ≤ fw_Rnd msg < 2 ^ 62 →
  rel_handleCommit ra msg = Ok (ra', ans) → handled ra msg ra' ans.
Proof.
  intros Hw Hr. unfold rel_handleCommit. destruct (checkMAC _ _ _ _ _); cbn [negb]; [|intros [= <- <-]; split; [by apply ra_ext_refl|by left]].
  destruct (IsValid _ _); cbn [negb]; [|intros [= <- <-]; split; [by apply ra_ext_refl|by left]].
  intros ([ls i] & Hg & Hrun)%bind_Ok. cbv zeta in Hrun. set (R := open_ar_round (st_read ls i) (fw_Rnd msg)) in *.
  destruct (handle_store ra msg ls i R (λ R, R <| ac_Commits ::= <[fw_ID msg := msg]> |>) Hw Hr Hg eq_refl) as [H1 H2].
  destruct (ac_SentCommit R) eqn:Ec; [by injection Hrun as <- <-|]. destruct (bool_decide _); [by injection Hrun as <- <-|].
  injection Hrun as <- <-. apply H2; try done; [right; apply insert_non_empty|]. destruct (compareCommits _ _); auto.
Qed.

Lemma rel_handlePublish_spec ra msg ra' p : storage_wf (ra_rounds ra) → 0 ≤ pb_Rnd msg < 2 ^ 62 →
  rel_handlePublish ra msg = Ok (ra', p) → ra_ext ra ra' ∧ ∀ m, p = Some m → fw_Rnd m = pb_Rnd msg.
Proof.
  intros Hw Hr. unfold rel_handlePublish. intros (h & _ & Hrun)%bind_Ok.
  destruct (checkMAC _ _ _ _ _); cbn [negb] in Hrun; [|injection Hrun as <- <-; split; [by apply ra_ext_refl|done]].
  destruct (IsValid _ _); cbn [negb] in Hrun; [|injection Hrun as <- <-; split; [by apply ra_ext_refl|done]].
  apply bind_Ok in Hrun as ([ls i] & Hg & Hrun). cbv zeta in Hrun.
  set (R := (st_read ls i) <| ac_RndID := pb_Rnd msg |> <| ac_Value := pb_Val msg |>) in *.
  destruct (ra_ext_write ra ls i (pb_Rnd msg) R Hw Hr Hg) as (Hext & _); [done|].
  destruct (ac_SentPrepare R); [by injection Hrun as <- <-|]. apply bind_Ok in Hrun as (f & Hf & [= <- <-]).
  split; [done|]. intros m [= ->]. unfold createPrepare in Hf. by apply bind_Ok in Hf as (h' & _ & [= <-]).
Qed.

(** The last write of the two sends. *)
Lemma ra_ext_mark ra rnd ls i (f : AcceptorRound → AcceptorRound) : storage_wf (ra_rounds ra) → 0 ≤ rnd < 2 ^ 62 →
  Get (ra_rounds ra) rnd = Ok (ls, i) → (∀ R, keeps R (f R)) →
  let ra' := ra <| ra_rounds := st_write ls i (f (st_read ls i)) |> in
  ra_ext ra ra' ∧ in_window (ra_rounds ra') rnd ∧ round_of (ra_rounds ra') rnd = f (round_of (ra_rounds ra) rnd).
Proof.
  intros Hw Hr Hg Hk. destruct (ra_ext_write ra ls i rnd (f (st_read ls i)) Hw Hr Hg (Hk _)) as (? & ? & ? & E). cbv zeta. split_and!; try done. by rewrite <- E.
Qed.

Lemma sendPrepare_spec ra msg ra' outs : storage_wf (ra_rounds ra) → 0 ≤ fw_Rnd msg < 2 ^ 62 →
  sendPrepare ra msg = Ok (ra', outs) → ra_ext ra ra' ∧ in_window (ra_rounds ra') (fw_Rnd msg) ∧ ∀ b, commits_to b outs = [].
Proof.
  intros Hw Hr. unfold sendPrepare. intros ([ra1 o1] & H1 & Hrun)%bind_Ok.
  assert (ra_ext ra ra1 ∧ ∀ b, commits_to b o1 = []) as [Hext Hno].
  { change (ra_ext ra (ra1, o1).1 ∧ ∀ b, commits_to b (ra1, o1).2 = []). revert H1.
    apply foldM_inv with (P := λ _ st, ra_ext ra st.1 ∧ ∀ b, commits_to b st.2 = []); [|split; [by apply ra_ext_refl|done]].
    intros pre id post [r o] st' _ [He Ho] Hs. cbn [fst snd] in *. destruct (bool_decide _).
    - apply bind_Ok in Hs as ([r' ans] & Hh & [= <-]). apply rel_handlePrepare_spec in Hh as [Hh _]; [|apply He|done].
      split; [by eapply ra_ext_trans|done].
    - injection Hs as <-. split; [done|]. intros b. cbn [snd]. rewrite commits_to_app, Ho. done. }
  apply bind_Ok in Hrun as ([ls i] & Hg & [= <- <-]).
  destruct (ra_ext_mark ra1 (fw_Rnd msg) ls i (λ R, R <| ac_SentPrepare := true |>)) as (He & Hi & _); [apply Hext|done|done|done|].
  split; [by eapply ra_ext_trans|done].
Qed.

Lemma commits_to_own b (o : list ROut) id m :
  commits_to b (o ++ [RSend (ASend id (MForward m))]) = commits_to b o ++ if decide (id = b) then [m] else [].
Proof. rewrite commits_to_app. f_equal. unfold commits_to, sent_to, learner_outs. cbn. by case_decide. Qed.

Lemma sendCommit_spec ra msg ra' outs : storage_wf (ra_rounds ra) → 0 ≤ fw_Rnd msg < 2 ^ 62 → NoDup (ra_actors ra) →
  in_window (ra_rounds ra) (fw_Rnd msg) → opened (round_of (ra_rounds ra) (fw_Rnd msg)) → sendCommit ra msg = Ok (ra', outs) →
  ra_ext ra ra' ∧ closed (round_of (ra_rounds ra') (fw_Rnd msg)) ∧ in_window (ra_rounds ra') (fw_Rnd msg) ∧
  ∀ b, ∃ mac, commits_to b outs = if decide (b ∈ ra_actors ra) then [mkForward (ra_id ra) (fw_Hash msg) (fw_Rnd msg) mac] else [].
Proof.
  intros Hw Hr Hnd Hi Ho. unfold sendCommit. intros ([ra1 o1] & H1 & Hrun)%bind_Ok.
  assert (ra_ext ra ra1 ∧ ∀ b, ∃ mac, commits_to b o1 = if decide (b ∈ ra_actors ra) then [mkForward (ra_id ra) (fw_Hash msg) (fw_Rnd msg) mac] else []) as [Hext Hout].
  { set (P := λ (pre : list ID) (st : RelAcceptor * list ROut), ra_ext ra st.1 ∧
      ∀ b, ∃ mac, commits_to b st.2 = if decide (b ∈ pre) then [mkForward (ra_id ra) (fw_Hash msg) (fw_Rnd msg) mac] else []).
    change (P (ra_actors ra) (ra1, o1)). revert H1. apply foldM_inv; unfold P; clear P;
      [|split; [by apply ra_ext_refl|by exists []]].
    intros pre id post [r o] st' Hpre [He Hc] Hs. cbn [fst snd] in *.
    assert (id ∉ pre) as Hnin by (rewrite Hpre, NoDup_app in Hnd; destruct Hnd as (_ & Hd & _); intros Hin; apply (Hd id Hin); left).
    assert (∃ r', st'.1 = r' ∧ ra_ext ra r' ∧ ∀ b, commits_to b st'.2 = commits_to b o ++ if decide (id = b) then [sealed r' id msg] else []) as (r' & E1 & He' & Hc').
    { destruct (bool_decide _).
      - apply bind_Ok in Hs as ([r' ans] & Hh & [= <-]). apply handleCommit_spec in Hh as [Hh _]; [|apply He|done].
        exists r'. split; [done|]. split; [by eapply ra_ext_trans|]. intros b. cbn [snd]. by rewrite commits_to_own.
      - injection Hs as <-. exists r. split; [done|]. split; [done|]. intros b. cbn [snd].
        change (o ++ [RSendCommitA id (sealed r id msg); RSend (ASend id (MForward (sealed r id msg)))]) with
          (o ++ [RSendCommitA id (sealed r id msg)] ++ [RSend (ASend id (MForward (sealed r id msg)))]).
        rewrite app_assoc, commits_to_own, commits_to_app. f_equal. by rewrite app_nil_r. }
    rewrite E1. split; [done|]. intros b. rewrite Hc'. destruct (Hc b) as [mac ->]. destruct (decide (id = b)) as [<-|Hne].
    - rewrite (decide_False (P := id ∈ pre)) by done. eexists. rewrite decide_True by set_solver. unfold sealed. by rewrite (re_id _ _ He').
    - exists mac. rewrite app_nil_r. by rewrite (decide_ext (b ∈ pre) (b ∈ pre ++ [id])) by set_solver. }
  apply bind_Ok in Hrun as ([ls i] & Hg & [= <- <-]).
  destruct (ra_ext_mark ra1 (fw_Rnd msg) ls i (λ R, R <| ac_SentCommit := true |>)) as (He2 & Hin2 & Hrd); [apply Hext|done|done|by split; [|intros []; split]|].
  split; [by eapply ra_ext_trans|]. split; [|split; [done|done]].
  match goal with |- closed ?R => assert (R = (round_of (ra_rounds ra1) (fw_Rnd msg)) <| ac_SentCommit := true |>) as -> by exact Hrd end.
  assert (st_min (ra_rounds ra1) ≤ fw_Rnd msg) as Hm by (etransitivity; [apply (re_min _ _ He2)|apply Hin2]).
  split; [|done]. exact (proj1 (re_rounds _ _ Hext _ Hm) Ho).
Qed.

(** The commits of a step: none, or one for every member. *)
Definition one_commit ra ra' (o : list ROut) (r h : Z) : Prop :=
  st_min (ra_rounds ra') ≤ r ∧ ¬ closed (round_of (ra_rounds ra) r) ∧ closed (round_of (ra_rounds ra') r) ∧
  ∀ b, ∃ mac, commits_to b o = if decide (b ∈ ra_actors ra) then [mkForward (ra_id ra) h r mac] else [].
Definition commit_step ra ra' (o : list ROut) : Prop := ra_ext ra ra' ∧ ((∀ b, commits_to b o = []) ∨ ∃ r h, one_commit ra ra' o r h).

Lemma send_answer_spec ra msg ra1 ans ra' o : 0 ≤ fw_Rnd msg < 2 ^ 62 → NoDup (ra_actors ra) →
  handled ra msg ra1 ans → send_answer ra1 ans = Ok (ra', o) → commit_step ra ra' o.
Proof.
  intros Hr Hnd [He [->|(Hi & Ho & Hc & ->)]] Hrun; [injection Hrun as <- <-; split; [done|by left]|].
  set (R := round_of (ra_rounds ra1) (fw_Rnd msg)) in *. unfold send_answer, rel_answer in Hrun. cbn [fst snd opt_send] in Hrun.
  apply bind_Ok in Hrun as ([ra2 o1] & H1 & Hrun). apply bind_Ok in Hrun as ([ra3 o2] & H2 & [= <- <-]).
  assert (ra_ext ra1 ra2 ∧ in_window (ra_rounds ra2) (fw_Rnd msg) ∧ ∀ b, commits_to b o1 = []) as (He1 & Hi1 & Hn1).
  { destruct (ac_SentPrepare R); cbn [negb opt_send] in H1; [injection H1 as <- <-; split; [apply ra_ext_refl, He|done]|].
    by apply sendPrepare_spec in H1 as (? & ? & ?); [|apply He|]. }
  apply sendCommit_spec in H2 as (He2 & Hcl & Hi2 & Hout); [|apply He1|done|by rewrite (re_actors _ _ He1), (re_actors _ _ He)|done|].
  2:{ exact (proj1 (re_rounds _ _ He1 _ (proj1 Hi1)) Ho). }
  split; [eapply ra_ext_trans; [exact He|by eapply ra_ext_trans]|]. right. exists (fw_Rnd msg), (fw_Hash msg). split_and!; [apply Hi2| |exact Hcl|].
  - intros Hold. pose proof (proj2 (re_rounds _ _ He _ (proj1 Hi)) Hold) as [_ ?]. unfold R in Hc. congruence.
  - intros b. destruct (Hout b) as [mac Hm]. exists mac. rewrite commits_to_app, Hn1, Hm. cbn [app createCommit fw_Hash fw_Rnd].
    by rewrite (re_actors _ _ He1), (re_actors _ _ He), (re_id _ _ He1), (re_id _ _ He).
Qed.

Definition ra_ev_rnd (ev : RAEvent) : Z :=
  match ev with RAPublish m => pb_Rnd m | RAPrepare m => fw_Rnd m | RACommit m => fw_Rnd m | RAValReq m => vq_Rnd m end.

Lemma ra_step_spec ra ev ra' o : storage_wf (ra_rounds ra) → 0 ≤ ra_ev_rnd ev < 2 ^ 62 → NoDup (ra_actors ra) →
  ra_step ra ev = Ok (ra', o) → commit_step ra ra' o.
Proof.
  intros Hw Hr Hnd. destruct ev as [m|m|m|q]; cbn [ra_step ra_ev_rnd] in *; intros Hrun.
  - apply bind_Ok in Hrun as ([ra1 p] & H1 & Hrun). apply rel_handlePublish_spec in H1 as [He Hp]; [|done..].
    destruct p as [p|]; cbn [opt_send] in Hrun; [|injection Hrun as <- <-; split; [done|by left]].
    apply sendPrepare_spec in Hrun as (He' & _ & Hno); [|apply He|by rewrite (Hp p)]. split; [by eapply ra_ext_trans|by left].
  - apply bind_Ok in Hrun as ([ra1 ans] & H1%rel_handlePrepare_spec & Hrun); [|done..]. by eapply send_answer_spec.
  - apply bind_Ok in Hrun as ([ra1 ans] & H1%handleCommit_spec & Hrun); [|done..]. by eapply send_answer_spec.
  - unfold rel_sendVal, getRndValue in Hrun. apply bind_Ok in Hrun as ([ra1 v] & H1 & [= <- <-]).
    split; [|by left]. destruct (IsValid _ _); cbn [negb] in H1; [|injection H1 as <- <-; by apply ra_ext_refl].
    apply bind_Ok in H1 as ([ls i] & Hg & [= <- <-]). apply Get_Ok in Hg as ([W1 W2 W3 W4] & _); [|done..].
    split; try done. intros r Hmin. cbn [ra_rounds update eta eta_RelAcceptor] in *. by rewrite W4.
Qed.

(** What is left of an acceptor's run: its configuration, and what it committed. *)
Record commits_inv ra0 ra (outs : list ROut) : Prop := {
  ci_id : ra_id ra = ra_id ra0;
  ci_actors : ra_actors ra = ra_actors ra0;
  ci_wf : storage_wf (ra_rounds ra);
  ci_closed b m : m ∈ commits_to b outs → st_min (ra_rounds ra) ≤ fw_Rnd m → closed (round_of (ra_rounds ra) (fw_Rnd m));
  ci_once b r : (length (filter (λ m, fw_Rnd m = r) (commits_to b outs)) ≤ 1)%nat;
  ci_same r b1 b2 : b1 ∈ ra_actors ra0 → b2 ∈ ra_actors ra0 → first_hash r (commits_to b1 outs) = first_hash r (commits_to b2 outs);
}.

Lemma commits_inv_step ra0 ra outs ev ra' o : commits_inv ra0 ra outs → 0 ≤ ra_ev_rnd ev < 2 ^ 62 → NoDup (ra_actors ra0) →
  ra_step ra ev = Ok (ra', o) → commits_inv ra0 ra' (outs ++ o).
Proof.
  intros [I1 I2 I3 I4 I5 I6] Hr Hnd Hs. apply ra_step_spec in Hs as [He Ho]; [|done|done|by rewrite I2]. pose proof He as [E1 E2 E3 E4 E5].
  assert (∀ b m, m ∈ commits_to b outs → st_min (ra_rounds ra') ≤ fw_Rnd m → closed (round_of (ra_rounds ra') (fw_Rnd m))) as Hcl.
  { intros b m Hm Hmin. apply (E5 _ Hmin). eapply I4; [done|lia]. }
  destruct Ho as [Hno|(r & h & Hmin & Hnc & Hc & Hout)].
  - split; try congruence; intros *; rewrite ?commits_to_app, ?Hno, ?app_nil_r; eauto.
  - assert (∀ b, filter (λ m, fw_Rnd m = r) (commits_to b outs) = []) as Hnone.
    { intros b. destruct (filter _ _) as [|m l] eqn:E; [done|]. exfalso.
      assert (m ∈ filter (λ m, fw_Rnd m = r) (commits_to b outs)) as [Hm Hin]%list_elem_of_filter by (rewrite E; left).
      apply Hnc. rewrite <- Hm in *. eapply I4; [done|lia]. }
    split; try congruence.
    + intros b m. rewrite commits_to_app. intros [Hm|Hm]%elem_of_app; [by apply (Hcl b)|]. intros _.
      destruct (Hout b) as [mac Hb]. rewrite Hb in Hm. case_decide; [|by apply elem_of_nil in Hm]. by apply list_elem_of_singleton in Hm as ->.
    + intros b r'. rewrite commits_to_app, filter_app, length_app. destruct (Hout b) as [mac ->].
      destruct (decide (r' = r)) as [->|Hne]; [rewrite Hnone; case_decide; cbn; [by rewrite decide_True|lia]|].
      specialize (I5 b r'). case_decide; [rewrite filter_cons_False by (cbn; congruence)|]; rewrite Nat.add_0_r; exact I5.
    + intros r' b1 b2 B1 B2. rewrite !commits_to_app, !first_hash_app, (I6 r' b1 b2) by done. destruct (first_hash r' (commits_to b2 outs)); [done|].
      destruct (Hout b1) as [m1 ->], (Hout b2) as [m2 ->]. rewrite I2, !decide_True by done. unfold first_hash.
      destruct (decide (r = r')); [by rewrite !filter_cons_True|by rewrite !filter_cons_False].
Qed.

Lemma new_acceptor_wf id n alpha actors keys : 0 ≤ alpha < 2 ^ 58 → storage_wf (ra_rounds (NewRelAcceptor id n alpha actors keys)).
Proof. intros Ha. apply NewStorage_wf. rewrite (u64_small (alpha + 10)), (u64_small ((alpha + 10) * 3)); lia. Qed.

Lemma commits_inv_run ra0 evs ra outs : storage_wf (ra_rounds ra0) → NoDup (ra_actors ra0) → Forall (λ ev, 0 ≤ ra_ev_rnd ev < 2 ^ 62) evs →
  run ra_step ra0 evs ra outs → commits_inv ra0 ra outs.
Proof.
  intros Hw Hnd Hf Hr. induction Hr as [|evs ra1 o1 ev ra2 o2 Hr IH Hs].
  - split; try done; [by intros b m ?%elem_of_nil|cbn; lia].
  - apply Forall_app in Hf as [Hf [Hev _]%Forall_cons]. by eapply commits_inv_step; [apply IH| | |].
Qed.
End runs.

(** C30: An acceptor that follows the code sends every learner at most one commit
    for a round, and all learners the same one. *)
Theorem one_commit_per_round (RO : RangeOrder) (RL : RangeOrderLaws RO) (id : ID) (n alpha : Z) (actors : list ID) (keys : gmap Z bytes)
    (evs : list RAEvent) (ra : RelAcceptor) (outs : list ROut) (r : Z) :
  0 ≤ alpha < 2 ^ 58 → NoDup actors → Forall (λ ev, 0 ≤ ra_ev_rnd ev < 2 ^ 62) evs →
  run ra_step (NewRelAcceptor id n alpha actors keys) evs ra outs →
  (∀ b, (length (filter (λ m, fw_Rnd m = r) (commits_to b outs)) ≤ 1)%nat) ∧
  ∀ b1 b2, b1 ∈ actors → b2 ∈ actors → first_hash r (commits_to b1 outs) = first_hash r (commits_to b2 outs).
Proof.
  intros Ha Hnd Hf Hr. apply commits_inv_run in Hr as [_ _ _ _ H1 H2]; [|by apply new_acceptor_wf|done|done].
  split; [intros b; apply H1|intros b1 b2; apply H2].
Qed.

(** * Agreement *)

(** The acceptors that are not faulty follow the code. *)
Definition rel_acceptors_run `{RangeOrder} (alpha : Z) (actors : list ID) (keys : ID → gmap Z bytes) (faulty : list ID) (sent : ID → list ROut) : Prop :=
  ∀ a, a ∈ actors → a ∉ faulty → ∃ evs ra, Forall (λ ev, 0 ≤ ra_ev_rnd ev < 2 ^ 62) evs ∧
    run ra_step (NewRelAcceptor a (len actors) alpha actors (keys a)) evs ra (sent a).


(** * Concrete groups *)

Definition rb_acceptor (i : Z) : RelAcceptor := NewRelAcceptor (bc_id i) 4 3 (bc_actors 4) (bc_keys (bc_id i)).
Definition rb_publish (i : Z) : RAEvent := RAPublish (bc_publish i 1 (bc_val 7)).
Definition rb_hash (n : Z) : Z := match Value_Hash (bc_val n) with Ok h => h | _ => 0 end.
Definition rb_prepares (b : Z) (outs : list ROut) : list RAEvent :=
  omap (λ o, match o with RSendPrepare d m => if decide (d = bc_id b) then Some (RAPrepare m) else None | _ => None end) outs.
Definition rb_commits (b : Z) (outs : list ROut) : list RAEvent :=
  omap (λ o, match o with RSendCommitA d m => if decide (d = bc_id b) then Some (RACommit m) else None | _ => None end) outs.
(** What replica 3, which does not follow the code, sends replica [i]: an honest code for another hash. *)
Definition rb_forged (i h : Z) : Forward :=
  mkForward (bc_id 3) h 1 (generateMAC (mkAuthManager (bc_id 3) (bc_keys (bc_id 3))) (bc_id i) (hashToBytes h) 1).

Definition rb_run (ra : RelAcceptor) (evs : list RAEvent) : RelAcceptor * list ROut := default (ra, []) (run_exec ra_step ra evs).

(** Replicas 1 and 2 prepare the published value. Replica 0 has their prepares
    when it gets the value; its own prepare completes the quorum, unnoticed.
    Replica 3 sends it a prepare for another hash, and replicas 1 and 2 a commit. *)
Definition rb_o1 : list ROut := (rb_run (rb_acceptor 1) [rb_publish 1]).2.
Definition rb_o2 : list ROut := (rb_run (rb_acceptor 2) [rb_publish 2]).2.
Definition rb_evs0 : list RAEvent := rb_prepares 0 rb_o1 ++ rb_prepares 0 rb_o2 ++ [rb_publish 0; RAPrepare (rb_forged 0 (rb_hash 8))].
Definition rb_o0 : list ROut := (rb_run (rb_acceptor 0) rb_evs0).2.
Definition rb_evs (i : Z) : list RAEvent := [rb_publish i] ++ rb_commits i rb_o0 ++ [RACommit (rb_forged i (rb_hash 8))].
Definition rb_sent (a : ID) : list ROut :=
  if bool_decide (a = bc_id 0) then rb_o0 else if bool_decide (a = bc_id 1) then (rb_run (rb_acceptor 1) (rb_evs 1)).2
  else if bool_decide (a = bc_id 2) then (rb_run (rb_acceptor 2) (rb_evs 2)).2 else [].
Definition rb_learner_evs (b : Z) : list ALEvent := ALForward <$> ([0; 1; 2] ≫= λ a, commits_to (bc_id b) (rb_sent (bc_id a))).
Definition rb_learner (b : Z) : RelLearner := bc_learner 4 b (rb_learner_evs b).

(** Where an acceptor's run ends that does. *)
Lemma rb_run_run ra evs : is_Some (run_exec ra_step ra evs) → run ra_step ra evs (rb_run ra evs).1 (rb_run ra evs).2.
Proof. intros [[ra' o] E]. unfold rb_run. rewrite E. by apply run_exec_run. Qed.

Lemma rb_acceptors_run : rel_acceptors_run 3 (bc_actors 4) bc_keys [bc_id 3] rb_sent.
Proof.
  assert (∀ i evs, is_Some (run_exec ra_step (rb_acceptor i) evs) → forallb (λ ev, bool_decide (0 ≤ ra_ev_rnd ev < 2 ^ 62)) evs = true →
    rb_sent (bc_id i) = (rb_run (rb_acceptor i) evs).2 →
    ∃ evs ra, Forall (λ ev, 0 ≤ ra_ev_rnd ev < 2 ^ 62) evs ∧ run ra_step (NewRelAcceptor (bc_id i) (len (bc_actors 4)) 3 (bc_actors 4) (bc_keys (bc_id i))) evs ra (rb_sent (bc_id i))) as Hgen.
  { intros i evs Hs Hb E. exists evs, (rb_run (rb_acceptor i) evs).1. split.
    - apply Forall_forall. intros ev Hev. rewrite forallb_forall in Hb. apply list_elem_of_In, Hb in Hev. by apply bool_decide_eq_true in Hev.
    - rewrite E. by apply rb_run_run. }
  intros a Ha Hn. assert (a = bc_id 0 ∨ a = bc_id 1 ∨ a = bc_id 2) as [->|[->| ->]].
  { change (bc_actors 4) with [bc_id 0; bc_id 1; bc_id 2; bc_id 3] in Ha. set_solver. }
  - apply (Hgen 0 rb_evs0); [vm_compute; by eexists|vm_compute; reflexivity..].
  - apply (Hgen 1 (rb_evs 1)); [vm_compute; by eexists|vm_compute; reflexivity..].
  - apply (Hgen 2 (rb_evs 2)); [vm_compute; by eexists|vm_compute; reflexivity..].
Qed.

Lemma rb_learner_run b : b = 1 ∨ b = 2 →
  learner_run 3 (bc_actors 4) bc_keys [bc_id 3] (λ a, learner_outs (rb_sent a)) (bc_id b) (rb_learner_evs b) (rb_learner b).
Proof. intros [->| ->]; apply bc_check_run; vm_compute; reflexivity. Qed.

(** One faulty acceptor of four makes every learner decide a hash that no one
    published: the publisher and three acceptors follow the code, but an
    acceptor whose own prepare completes the quorum drops the commit, and
    commits to whatever hash the next prepare has. *)
Theorem unpublished_hash :
  rel_acceptors_run 3 (bc_actors 4) bc_keys [bc_id 3] rb_sent ∧
  learner_run 3 (bc_actors 4) bc_keys [bc_id 3] (λ a, learner_outs (rb_sent a)) (bc_id 1) (rb_learner_evs 1) (rb_learner 1) ∧
  certified (bc_actors 4) (rb_learner 1) 1 (rb_hash 8) ∧ rb_hash 8 ≠ rb_hash 7.
Proof.
  split; [exact rb_acceptors_run|]. split; [apply rb_learner_run; by left|].
  split; [split; vm_compute; reflexivity|vm_compute; discriminate].
Qed.

(** * Witnesses *)

Lemma one_commit_per_round_witness :
  ∃ ra outs, run ra_step (rb_acceptor 0) rb_evs0 ra outs ∧ length (commits_to (bc_id 1) outs) = 1%nat ∧
    (length (filter (λ m : Commit, fw_Rnd m = 1%Z) (commits_to (bc_id 1) outs)) ≤ 1)%nat.
Proof.
  assert (run ra_step (rb_acceptor 0) rb_evs0 (rb_run (rb_acceptor 0) rb_evs0).1 (rb_run (rb_acceptor 0) rb_evs0).2) as Hr
    by (apply rb_run_run; vm_compute; by eexists).
  do 2 eexists. split; [exact Hr|]. split; [vm_compute; reflexivity|].
  refine (proj1 (one_commit_per_round map_order map_order_laws (bc_id 0) 4 3 (bc_actors 4) (bc_keys (bc_id 0)) rb_evs0 _ _ 1 _ _ _ Hr) (bc_id 1)).
  - lia.
  - apply (bool_decide_eq_true_1 _). vm_compute. reflexivity.
  - apply (bool_decide_eq_true_1 _). vm_compute. reflexivity.
Defined.

