(* ===== verification/ParallelLearner.v ===== *)
(** The learner of parallel Paxos (src/parallelpaxos/learner.go): [n] processors
    share the slots by their number modulo [n], and a token that goes round says
    which of them may deliver its next slot. *)
From S2P Require Import Prelude Grp PaxosTypes.

(** * State *)

(** The names carry a P where paxos/ has the same one. *)
Record PLearnerSlot := mkPLearnerSlot {
  pls_ID : SlotID; pls_Rnd : ProposerRound; pls_Learns : list (option Learn); pls_Votes : Z; pls_Learned : bool; pls_LearnedVal : Value }.
#[export] Instance eta_PLearnerSlot : Eta PLearnerSlot := λ r,
  mkPLearnerSlot (pls_ID r) (pls_Rnd r) (pls_Learns r) (pls_Votes r) (pls_Learned r) (pls_LearnedVal r).

(** A processor, with what waits in its two channels. *)
Record PLearnerSlotMap := mkLsm {
  lsm_id : Z; lsm_slots : gmap Z PLearnerSlot; lsm_token : bool; lsm_nextToDecide : Z;
  lsm_learnChan : list Learn; lsm_tokenChan : Z }.
#[export] Instance eta_PLearnerSlotMap : Eta PLearnerSlotMap := λ r,
  mkLsm (lsm_id r) (lsm_slots r) (lsm_token r) (lsm_nextToDecide r) (lsm_learnChan r) (lsm_tokenChan r).

Record ParallelLearner := mkPL { pl_processors : list PLearnerSlotMap; pl_firstLearn : bool }.
#[export] Instance eta_ParallelLearner : Eta ParallelLearner := λ r, mkPL (pl_processors r) (pl_firstLearn r).

Definition new_lsm (n i : Z) : PLearnerSlotMap := mkLsm i ∅ false (if bool_decide (i = 0) then n else i) [] 0.
Definition NewParallelLearner (n : Z) : ParallelLearner := mkPL (new_lsm n <$> range 0 n) true.

(** A delivery: the value for the server, and its slot for the proposer. *)
Definition Delivery : Type := SlotID * Value.

Section learner.
Context {G : Type} `{GroupManager G} (gm : G) (n : Z).
Implicit Types lsm : PLearnerSlotMap.

Definition new_plslot (id : SlotID) : PLearnerSlot := mkPLearnerSlot id ZeroRound [] 0 false zero_Value.
Definition pl_getSlot lsm (id : SlotID) : PLearnerSlot * PLearnerSlotMap :=
  match lsm_slots lsm !! id with
  | Some slot => (slot, lsm)
  | None => (new_plslot id, lsm <| lsm_slots ::= <[id := new_plslot id]> |>)
  end.
Definition put_plslot (id : SlotID) (slot : PLearnerSlot) lsm : PLearnerSlotMap := lsm <| lsm_slots ::= <[id := slot]> |>.

(** The delivery of the next slot; the token goes to the next processor. *)
Definition deliver_slot lsm (slot : PLearnerSlot) : PLearnerSlotMap * option Delivery :=
  (lsm <| lsm_nextToDecide ::= λ s, u64 (s + n) |> <| lsm_token := false |>, Some (pls_ID slot, pls_LearnedVal slot)).

Definition receiveNextToDecideToken lsm : PLearnerSlotMap * option Delivery :=
  let lsm := lsm <| lsm_token := true |> in
  let '(slot, lsm) := pl_getSlot lsm (lsm_nextToDecide lsm) in
  if pls_Learned slot then deliver_slot lsm slot else (lsm, None).

(** Storing a learn; the flag says that there is a quorum. *)
Definition add_learn (slot : PLearnerSlot) (learn : Learn) : res (PLearnerSlot * bool) :=
  if bool_decide (Compare (pls_Rnd slot) (lrn_Rnd learn) = 1) then Ok (slot, false)
  else
    let slot := if bool_decide (Compare (pls_Rnd slot) (lrn_Rnd learn) = -1)
                then slot <| pls_Rnd := lrn_Rnd learn |> <| pls_Learns := nils (gm_NrOfNodes gm) |> <| pls_Votes := 0 |>
                else slot in
    old ← slice_get (pls_Learns slot) (PxInt (lrn_ID learn));
    if bool_decide (old ≠ None) then mret (slot, false)
    else
      let slot := slot <| pls_Votes ::= λ v, u64 (v + 1) |> in
      learns ← slice_set (pls_Learns slot) (PxInt (lrn_ID learn)) (Some learn);
      let slot := slot <| pls_Learns := learns |> in
      mret (slot, negb (bool_decide (pls_Votes slot < gm_Quorum gm))).

Definition pl_handleLearn lsm (learn : Learn) : res (PLearnerSlotMap * option Delivery) :=
  let '(slot, lsm) := pl_getSlot lsm (lrn_Slot learn) in
  if pls_Learned slot then Ok (lsm, None)
  else
    '(slot, quorum) ← add_learn slot learn;
    if negb quorum then mret (put_plslot (lrn_Slot learn) slot lsm, None)
    else
      let slot := slot <| pls_Learned := true |> <| pls_LearnedVal := lrn_Val learn |> in
      let lsm := put_plslot (lrn_Slot learn) slot lsm in
      mret (if lsm_token lsm && bool_decide (pls_ID slot = lsm_nextToDecide lsm) then deliver_slot lsm slot else (lsm, None)).

(** * The goroutines *)

(** The first one hands learns to the processors, and the token to that of the
    first learn; each processor takes a learn or a token. *)
Inductive PLEvent :=
| PLArrive (learn : Learn)
| PLLearn (i : Z)
| PLToken (i : Z).

Definition on_proc (pl : ParallelLearner) (i : Z) (f : PLearnerSlotMap → PLearnerSlotMap) : res ParallelLearner :=
  lsm ← slice_get (pl_processors pl) i;
  ps ← slice_set (pl_processors pl) i (f lsm);
  mret (pl <| pl_processors := ps |>).

Definition give_token (pl : ParallelLearner) (i : Z) : res ParallelLearner := on_proc pl i (λ lsm, lsm <| lsm_tokenChan ::= λ k, k + 1 |>).

(** What a processor delivered, and the token for the next one. *)
Definition proc_done (pl : ParallelLearner) (i : Z) (r : PLearnerSlotMap * option Delivery) : res (ParallelLearner * list Delivery) :=
  pl ← on_proc pl i (λ _, r.1);
  match r.2 with
  | None => mret (pl, [])
  | Some d => pl ← give_token pl (Z.rem (i + 1) n); mret (pl, [d])
  end.

Definition pl_step (pl : ParallelLearner) (ev : PLEvent) : res (ParallelLearner * list Delivery) :=
  match ev with
  | PLArrive learn =>
      let i := Z.rem (i64 (lrn_Slot learn)) n in
      pl ← (if pl_firstLearn pl then pl ← give_token pl i; mret (pl <| pl_firstLearn := false |>) else Ok pl);
      pl ← on_proc pl i (λ lsm, lsm <| lsm_learnChan ::= λ q, q ++ [learn] |>);
      mret (pl, [])
  | PLLearn i =>
      lsm ← slice_get (pl_processors pl) i;
      match lsm_learnChan lsm with
      | [] => Diverge     (* the processor waits *)
      | learn :: q => r ← pl_handleLearn (lsm <| lsm_learnChan := q |>) learn; proc_done pl i r
      end
  | PLToken i =>
      lsm ← slice_get (pl_processors pl) i;
      if bool_decide (lsm_tokenChan lsm <= 0) then Diverge
      else proc_done pl i (receiveNextToDecideToken (lsm <| lsm_tokenChan ::= λ k, k - 1 |>))
  end.
End learner.

(** * The order of delivery *)

Section order.
Context {G : Type} `{GroupManager G} (gm : G) (n : Z).
Hypothesis Hn : 1 ≤ n.

(** The first slot of a processor; processor 0 has no slot 0. *)
Definition first_slot (i : Z) : Z := if bool_decide (i = 0) then n else i.

(** What processor [i] delivers next, after [d] deliveries that started with
    processor [k]. *)
Definition next_slot (k i d : Z) : Z :=
  first_slot i + n * (d `div` n + if bool_decide ((i - k) `mod` n < d `mod` n) then 1 else 0).

(** The [j]-th delivery. *)
Definition nth_slot (k j : Z) : Z := first_slot ((k + j) `mod` n) + n * (j `div` n).

Lemma sub_mod k j : ((k + j) `mod` n - k) `mod` n = j `mod` n.
Proof. rewrite Zminus_mod_idemp_l. f_equal. lia. Qed.

Lemma next_slot_nth k j : next_slot k ((k + j) `mod` n) j = nth_slot k j.
Proof. unfold next_slot, nth_slot. rewrite sub_mod, bool_decide_eq_false_2 by lia. lia. Qed.

Lemma div_mod_succ d : 0 ≤ d →
  (d `mod` n = n - 1 ∧ (d + 1) `mod` n = 0 ∧ (d + 1) `div` n = d `div` n + 1) ∨
  (d `mod` n < n - 1 ∧ (d + 1) `mod` n = d `mod` n + 1 ∧ (d + 1) `div` n = d `div` n).
Proof.
  intros Hd. pose proof (Z.div_mod d n) as E. pose proof (Z.mod_pos_bound d n) as B.
  destruct (decide (d `mod` n = n - 1)) as [Ee|Ne]; [left|right]; (split; [lia|]).
  - replace (d + 1) with (0 + (d `div` n + 1) * n) by lia. rewrite Z.mod_add, Z.div_add, Z.mod_0_l, Z.div_0_l by lia. lia.
  - replace (d + 1) with ((d `mod` n + 1) + (d `div` n) * n) by lia. rewrite Z.mod_add, Z.div_add, Z.mod_small, Z.div_small by lia. lia.
Qed.

Lemma next_slot_succ k i d : 0 ≤ i < n → 0 ≤ d →
  next_slot k i (d + 1) = next_slot k i d + if bool_decide (i = (k + d) `mod` n) then n else 0.
Proof.
  intros Hi Hd. unfold next_slot. pose proof (Z.mod_pos_bound (i - k) n) as Bo. pose proof (Z.mod_pos_bound d n) as Bd.
  assert (i = (k + d) `mod` n ↔ (i - k) `mod` n = d `mod` n) as Hiff.
  { split; [intros ->; apply sub_mod|]. intros E. rewrite <- (Z.mod_small i n) at 1 by lia.
    replace i with (k + (i - k)) at 1 by lia. rewrite <- Zplus_mod_idemp_r, E, Zplus_mod_idemp_r. done. }
  destruct (div_mod_succ d Hd) as [(E1 & E2 & E3)|(E1 & E2 & E3)]; rewrite E2, E3;
    repeat (case_bool_decide); try lia; rewrite Hiff in *; lia.
Qed.

(** When the first learn is one for slot 1, or another of its processor, the slots come in order. *)
Lemma nth_slot_one j : 0 ≤ j → nth_slot (1 `mod` n) j = j + 1.
Proof.
  intros Hj. unfold nth_slot, first_slot. rewrite Zplus_mod_idemp_l. pose proof (Z.div_mod j n) as E.
  replace (1 + j) with (j + 1) by lia.
  destruct (div_mod_succ j Hj) as [(E1 & E2 & E3)|(E1 & E2 & E3)]; rewrite E2.
  - rewrite bool_decide_eq_true_2 by done. lia.
  - pose proof (Z.mod_pos_bound j n). rewrite bool_decide_eq_false_2 by lia. lia.
Qed.

(** ** The invariant *)

Definition slots_wf (lsm : PLearnerSlotMap) : Prop := ∀ id s, lsm_slots lsm !! id = Some s → pls_ID s = id.

Record proc_ok (k d i : Z) (lsm : PLearnerSlotMap) : Prop := {
  po_slots : slots_wf lsm;
  po_next : lsm_nextToDecide lsm = next_slot k i d;
  po_token : (lsm_token lsm, lsm_tokenChan lsm) = (false, 0) ∨
    (i = (k + d) `mod` n ∧ ((lsm_token lsm, lsm_tokenChan lsm) = (true, 0) ∨ (lsm_token lsm, lsm_tokenChan lsm) = (false, 1)));
}.

Lemma pl_getSlot_wf lsm id slot lsm' : slots_wf lsm → pl_getSlot lsm id = (slot, lsm') →
  pls_ID slot = id ∧ slots_wf lsm' ∧ lsm_nextToDecide lsm' = lsm_nextToDecide lsm ∧ lsm_token lsm' = lsm_token lsm ∧ lsm_tokenChan lsm' = lsm_tokenChan lsm.
Proof.
  intros Hw. unfold pl_getSlot. destruct (lsm_slots lsm !! id) as [s|] eqn:E; intros [= <- <-]; [by split_and!; [by apply Hw|..]|].
  split_and!; try done. intros id' s'. cbn. intros [[<- <-]|[_ Hs]]%lookup_insert_Some; [done|by apply Hw].
Qed.

Lemma put_plslot_wf lsm id slot : slots_wf lsm → pls_ID slot = id → slots_wf (put_plslot id slot lsm).
Proof. intros Hw Hs id' s'. cbn. intros [[<- <-]|[_ ?]]%lookup_insert_Some; [done|by apply Hw]. Qed.

Lemma add_learn_ID slot learn slot' b : add_learn gm slot learn = Ok (slot', b) → pls_ID slot' = pls_ID slot.
Proof.
  unfold add_learn. destruct (bool_decide _); [by intros [= <- _]|]. intros (old & _ & Hrun)%bind_Ok.
  assert (∀ P : bool, pls_ID (if P then slot <| pls_Rnd := lrn_Rnd learn |> <| pls_Learns := nils (gm_NrOfNodes gm) |> <| pls_Votes := 0 |> else slot) = pls_ID slot) as Hid by by intros [].
  destruct (bool_decide (old ≠ None)); [injection Hrun as <- _; apply Hid|]. apply bind_Ok in Hrun as (ls & _ & [= <- _]). apply Hid.
Qed.

(** What a processor that handles a learn or a token does: it keeps its next
    slot and its token, or delivers that slot and passes the token on. *)
Definition proc_result (lsm : PLearnerSlotMap) (r : PLearnerSlotMap * option Delivery) : Prop :=
  slots_wf r.1 ∧ lsm_tokenChan r.1 = lsm_tokenChan lsm ∧
  match r.2 with
  | None => lsm_nextToDecide r.1 = lsm_nextToDecide lsm ∧ lsm_token r.1 = lsm_token lsm
  | Some d => d.1 = lsm_nextToDecide lsm ∧ lsm_token lsm = true ∧ lsm_nextToDecide r.1 = u64 (lsm_nextToDecide lsm + n) ∧ lsm_token r.1 = false
  end.

Lemma pl_handleLearn_result lsm learn r : slots_wf lsm → pl_handleLearn gm n lsm learn = Ok r → proc_result lsm r.
Proof.
  intros Hw. unfold pl_handleLearn. destruct (pl_getSlot lsm (lrn_Slot learn)) as [slot lsm1] eqn:Eg.
  apply pl_getSlot_wf in Eg as (Hid & Hw1 & E1 & E2 & E3); [|done].
  destruct (pls_Learned slot); [intros [= <-]; by split_and!|]. intros ([slot1 q] & Ha%add_learn_ID & Hrun)%bind_Ok.
  destruct q; cbn [negb] in Hrun; [|injection Hrun as <-; split_and!; [apply put_plslot_wf; [done|by rewrite Ha]|done..]].
  cbv zeta in Hrun. set (slot2 := slot1 <| pls_Learned := true |> <| pls_LearnedVal := lrn_Val learn |>) in *.
  assert (slots_wf (put_plslot (lrn_Slot learn) slot2 lsm1)) as Hw2 by (apply put_plslot_wf; [done|]; cbn; congruence).
  set (lsm2 := put_plslot (lrn_Slot learn) slot2 lsm1) in *.
  assert (lsm_nextToDecide lsm2 = lsm_nextToDecide lsm ∧ lsm_token lsm2 = lsm_token lsm ∧ lsm_tokenChan lsm2 = lsm_tokenChan lsm) as (F1 & F2 & F3) by done.
  clearbody lsm2. destruct (lsm_token lsm2 && bool_decide (pls_ID slot2 = lsm_nextToDecide lsm2)) eqn:Ed; injection Hrun as <-; [|by split_and!].
  apply andb_true_iff in Ed as [Et Ei%bool_decide_eq_true]. clearbody slot2. rewrite F1 in Ei. rewrite F2 in Et.
  unfold proc_result, deliver_slot. cbn [fst snd lsm_tokenChan lsm_nextToDecide lsm_token update eta eta_PLearnerSlotMap]. by rewrite F1.
Qed.

Lemma receive_result lsm : slots_wf lsm → lsm_token lsm = false →
  let r := receiveNextToDecideToken n lsm in proc_result (lsm <| lsm_token := true |>) r.
Proof.
  intros Hw Ht. unfold receiveNextToDecideToken. cbv zeta.
  destruct (pl_getSlot (lsm <| lsm_token := true |>) _) as [slot lsm1] eqn:Eg.
  apply pl_getSlot_wf in Eg as (Hid & Hw1 & E1 & E2 & E3); [|done].
  destruct (pls_Learned slot); [|by split_and!]. unfold proc_result, deliver_slot. cbn [fst snd lsm_tokenChan lsm_nextToDecide lsm_token update eta eta_PLearnerSlotMap]. cbn in E1. by rewrite E1.
Qed.

Lemma on_proc_Ok pl i f pl' : on_proc pl i f = Ok pl' →
  ∃ lsm, 0 ≤ i ∧ pl_processors pl !! Z.to_nat i = Some lsm ∧ pl_processors pl' = <[Z.to_nat i := f lsm]> (pl_processors pl) ∧ pl_firstLearn pl' = pl_firstLearn pl.
Proof.
  unfold on_proc. intros (lsm & [Hi Hl]%slice_get_Ok & Hrun)%bind_Ok. apply bind_Ok in Hrun as (ps & Hs & [= <-]).
  apply slice_set_Ok in Hs as (_ & ->). by exists lsm.
Qed.

(** All processors, after [d] deliveries that started with [k]. *)
Record order_inv (k d : Z) (pl : ParallelLearner) : Prop := {
  oi_len : len (pl_processors pl) = n;
  oi_proc i lsm : pl_processors pl !! Z.to_nat i = Some lsm → 0 ≤ i → proc_ok k d i lsm;
}.
(** Nothing has arrived yet. *)
Definition idle (pl : ParallelLearner) : Prop :=
  ∀ i lsm, pl_processors pl !! Z.to_nat i = Some lsm → 0 ≤ i → (lsm_token lsm, lsm_tokenChan lsm) = (false, 0) ∧ lsm_learnChan lsm = [].

Lemma on_proc_inv k d pl i f pl' : order_inv k d pl → on_proc pl i f = Ok pl' →
  (∀ lsm, proc_ok k d i lsm → proc_ok k d i (f lsm)) → order_inv k d pl'.
Proof.
  intros [Hl Hp] (lsm & Hi & Hlsm & E & _)%on_proc_Ok Hf. split; rewrite E; [by rewrite length_insert|].
  intros j lsmj Hj Hj0. destruct (decide (j = i)) as [->|Hne].
  - rewrite list_lookup_insert_eq in Hj by by eapply lookup_lt_Some. injection Hj as <-. apply Hf. by eapply Hp.
  - rewrite list_lookup_insert_ne in Hj by lia. by apply Hp.
Qed.

Lemma proc_index pl i lsm : len (pl_processors pl) = n → 0 ≤ i → pl_processors pl !! Z.to_nat i = Some lsm → 0 ≤ i < n.
Proof. intros Hl Hi Hlk%lookup_lt_Some. lia. Qed.

Lemma rem_succ_mod i : 0 ≤ i < n → Z.rem (i + 1) n = (i + 1) `mod` n.
Proof. intros Hi. by rewrite Z.rem_mod_nonneg by lia. Qed.

(** A processor has handled a message. *)
Lemma proc_done_inv k d pl i lsm r pl' outs : 0 ≤ k < n → 0 ≤ d → n * (d + 3) < 2 ^ 64 →
  order_inv k d pl → 0 ≤ i → pl_processors pl !! Z.to_nat i = Some lsm →
  (∀ tok, (lsm_token r.1, lsm_tokenChan r.1) = tok → r.2 = None → tok = (false, 0) ∨ (i = (k + d) `mod` n ∧ (tok = (true, 0) ∨ tok = (false, 1)))) →
  slots_wf r.1 →
  match r.2 with
  | None => lsm_nextToDecide r.1 = next_slot k i d
  | Some dv => dv.1 = next_slot k i d ∧ i = (k + d) `mod` n ∧ lsm_nextToDecide r.1 = u64 (next_slot k i d + n) ∧ (lsm_token r.1, lsm_tokenChan r.1) = (false, 0)
  end →
  proc_done n pl i r = Ok (pl', outs) →
  ∃ d', order_inv k d' pl' ∧ outs.*1 = nth_slot k <$> range d d' ∧ d ≤ d' ≤ d + 1.
Proof.
  intros Hk Hd Hb Hinv Hi Hlsm Htok Hw Hres. unfold proc_done. intros (pl1 & H1 & Hrun)%bind_Ok.
  pose proof (proc_index _ _ _ (oi_len _ _ _ Hinv) Hi Hlsm) as Hin.
  destruct r as [lsm' [dv|]]; cbn [fst snd] in *; cycle 1.
  { injection Hrun as <- <-. exists d. split; [|split; [by rewrite range_nil by lia|lia]].
    eapply on_proc_inv; [done|exact H1|]. intros ? _. split; [done|done|]. by apply Htok. }
  destruct Hres as (Es & Et & En & Etk). apply bind_Ok in Hrun as (pl2 & H2 & [= <- <-]). exists (d + 1).
  split; [|split; [|lia]].
  2:{ rewrite range_cons, range_nil by lia. cbn. by rewrite Es, Et, next_slot_nth. }
  apply on_proc_Ok in H1 as (l1 & _ & _ & E1 & _). apply on_proc_Ok in H2 as (l2 & _ & Hl2 & E2 & _).
  rewrite rem_succ_mod in * by done. assert ((i + 1) `mod` n = (k + (d + 1)) `mod` n) as Enext.
  { rewrite Et, Zplus_mod_idemp_l. f_equal. lia. }
  rewrite Enext in *. set (t := (k + (d + 1)) `mod` n) in *. assert (0 ≤ t < n) as Ht by (apply Z.mod_pos_bound; lia).
  assert (∀ j l, pl_processors pl1 !! Z.to_nat j = Some l → 0 ≤ j →
    slots_wf l ∧ lsm_nextToDecide l = next_slot k j (d + 1) ∧ (lsm_token l, lsm_tokenChan l) = (false, 0)) as Hall.
  { intros j l Hj Hj0. rewrite E1 in Hj. destruct (decide (j = i)) as [->|Hne].
    - rewrite list_lookup_insert_eq in Hj by by eapply lookup_lt_Some. injection Hj as <-. split; [done|]. split; [|done].
      rewrite next_slot_succ, bool_decide_eq_true_2 by done. rewrite En. apply u64_small.
      rewrite Et, next_slot_nth. unfold nth_slot, first_slot. pose proof (Z.mod_pos_bound (k + d) n).
      pose proof (Z.div_mod d n). pose proof (Z.mod_pos_bound d n). case_bool_decide; nia.
    - rewrite list_lookup_insert_ne in Hj by lia. apply (oi_proc _ _ _ Hinv) in Hj as Hok; [|done]. destruct Hok as [W1 W2 W3].
      pose proof (proc_index _ _ _ (oi_len _ _ _ Hinv) Hj0 Hj). split; [done|].
      rewrite next_slot_succ, bool_decide_eq_false_2 by (done || lia). split; [lia|]. destruct W3 as [?|[? _]]; [done|lia]. }
  split; [rewrite E2, E1, !length_insert; apply Hinv|].
  intros j l Hj Hj0. rewrite E2 in Hj. destruct (decide (j = t)) as [->|Hne].
  - rewrite list_lookup_insert_eq in Hj by by eapply lookup_lt_Some. injection Hj as <-. destruct (Hall _ _ Hl2) as (W1 & W2 & W3); [lia|].
    injection W3 as W3 W4. split; [done|done|]. right. split; [done|]. right. cbn. by rewrite W3, W4.
  - rewrite list_lookup_insert_ne in Hj by lia. destruct (Hall _ _ Hj Hj0) as (W1 & W2 & W3). split; [done|done|by left].
Qed.

Lemma pl_step_proc_inv k d pl ev pl' outs : 0 ≤ k < n → 0 ≤ d → n * (d + 3) < 2 ^ 64 → order_inv k d pl →
  match ev with PLArrive _ => False | _ => True end → pl_step gm n pl ev = Ok (pl', outs) →
  ∃ d', order_inv k d' pl' ∧ outs.*1 = nth_slot k <$> range d d' ∧ d ≤ d' ≤ d + 1.
Proof.
  intros Hk Hd Hb Hinv Hev Hs. destruct ev as [learn|i|i]; [done|..]; cbn [pl_step] in Hs;
    apply bind_Ok in Hs as (lsm & [Hi Hlsm]%slice_get_Ok & Hs); pose proof (oi_proc _ _ _ Hinv _ _ Hlsm Hi) as [W1 W2 W3].
  - destruct (lsm_learnChan lsm) as [|learn q]; [done|]. apply bind_Ok in Hs as (r & Hr & Hs).
    apply pl_handleLearn_result in Hr as (R1 & R2 & R3); [|done]. destruct r as [r1 r2].
    cbn [fst snd lsm_tokenChan lsm_nextToDecide lsm_token update eta eta_PLearnerSlotMap] in *.
    eapply proc_done_inv; [done..| | | |exact Hs]; [|done|]; cbn [fst snd].
    + intros tok <- ->. destruct R3 as [_ ->]. by rewrite R2.
    + destruct r2 as [dv|]; [|destruct R3; congruence]. destruct R3 as (E1 & E2 & E3 & E4). rewrite E1, E3, W2, R2, E4. rewrite E2 in W3.
      destruct W3 as [[=]|[-> [[= ->]|[=]]]]. done.
  - destruct (bool_decide _) eqn:Eb; [done|]. apply bool_decide_eq_false in Eb. destruct W3 as [[= ? ?]|[Et [[= Et1 Et2]|[= Et1 Et2]]]]; [lia..|].
    set (lsm1 := lsm <| lsm_tokenChan ::= λ k, k - 1 |>) in *.
    assert (lsm_tokenChan lsm1 = 0 ∧ lsm_nextToDecide lsm1 = lsm_nextToDecide lsm ∧ lsm_token lsm1 = false ∧ slots_wf lsm1) as (L1 & L2 & L3 & L4).
    { split_and!; try done. unfold lsm1. cbn. lia. }
    clearbody lsm1. pose proof (receive_result lsm1 L4 L3) as (R1 & R2 & R3).
    destruct (receiveNextToDecideToken n lsm1) as [r1 r2].
    cbn [fst snd lsm_tokenChan lsm_nextToDecide lsm_token update eta eta_PLearnerSlotMap] in *. rewrite L1 in R2. rewrite L2 in R3.
    eapply proc_done_inv; [done..| | | |exact Hs]; [|done|]; cbn [fst snd].
    + intros tok <- ->. destruct R3 as [_ ->]. right. rewrite R2. split; [done|by left].
    + destruct r2 as [dv|]; [|destruct R3; congruence]. destruct R3 as (E1 & E2 & E3 & E4). rewrite E1, E3, W2, R2, E4. done.
Qed.

(** A learn that arrives only waits; the first one starts the token. *)
Lemma pl_arrive_inv k d pl learn pl' outs : 0 ≤ k < n → 0 ≤ lrn_Slot learn < 2 ^ 63 → order_inv k d pl →
  (pl_firstLearn pl = true → d = 0 ∧ k = lrn_Slot learn `mod` n ∧ idle pl) →
  pl_step gm n pl (PLArrive learn) = Ok (pl', outs) → order_inv k d pl' ∧ outs = [] ∧ pl_firstLearn pl' = false.
Proof.
  intros Hk Hr Hinv Hfirst Hs. cbn [pl_step] in Hs. rewrite i64_small, Z.rem_mod_nonneg in Hs by lia.
  apply bind_Ok in Hs as (pl1 & H1 & Hs). apply bind_Ok in Hs as (pl2 & H2 & [= <- <-]).
  assert (order_inv k d pl1 ∧ pl_firstLearn pl1 = false) as [Hinv1 Hf1].
  { destruct (pl_firstLearn pl) eqn:Ef; [|by injection H1 as <-]. destruct (Hfirst eq_refl) as (-> & Ek & Hidle).
    apply bind_Ok in H1 as (pl0 & H0 & [= <-]). split; [|done].
    assert (order_inv k 0 pl0) as [? ?]; [|by split]. unfold give_token in H0. pose proof H0 as (l0 & Hi0 & Hl0 & _)%on_proc_Ok.
    destruct (Hidle _ _ Hl0 Hi0) as [Htk _]. destruct Hinv as [Hl Hp]. apply on_proc_Ok in H0 as (l0' & _ & Hl0' & E & _).
    rewrite Hl0 in Hl0'. injection Hl0' as <-. split; rewrite E; [by rewrite length_insert|].
    intros j lsmj Hj Hj0. destruct (decide (j = lrn_Slot learn `mod` n)) as [->|Hne].
    - rewrite list_lookup_insert_eq in Hj by by eapply lookup_lt_Some. injection Hj as <-. destruct (Hp _ _ Hl0 Hi0) as [W1 W2 W3].
      split; [done|done|]. right. rewrite <- Ek, Z.add_0_r, Z.mod_small by done. split; [done|]. right. injection Htk as E1 E2. cbn. by rewrite E1, E2.
    - rewrite list_lookup_insert_ne in Hj by lia. by apply Hp. }
  split; [|split; [done|]].
  - eapply on_proc_inv; [exact Hinv1|exact H2|]. by intros lsm [W1 W2 W3].
  - apply on_proc_Ok in H2 as (_ & _ & _ & _ & ->). done.
Qed.

Definition arrivals (evs : list PLEvent) : list Learn := omap (λ ev, match ev with PLArrive m => Some m | _ => None end) evs.
Lemma arrivals_app e1 e2 : arrivals (e1 ++ e2) = arrivals e1 ++ arrivals e2.
Proof. apply omap_app. Qed.

(** The state of a run, before and after the first learn. *)
Definition run_state (evs : list PLEvent) (pl : ParallelLearner) (outs : list Delivery) : Prop :=
  pl_firstLearn pl = bool_decide (arrivals evs = []) ∧
  match arrivals evs with
  | [] => outs = [] ∧ idle pl ∧ ∀ k, 0 ≤ k < n → order_inv k 0 pl
  | m :: _ => let k := lrn_Slot m `mod` n in order_inv k (len outs) pl ∧ outs.*1 = nth_slot k <$> range 0 (len outs)
  end.

Lemma new_order_inv k : 0 ≤ k < n → order_inv k 0 (NewParallelLearner n).
Proof.
  intros Hk. split; cbn; [rewrite length_fmap; rewrite length_range by lia; lia|].
  intros i lsm Hlk Hi. apply list_lookup_fmap_Some in Hlk as (x & -> & Hx). apply lookup_seqZ in Hx as [-> ?].
  split; [by intros id s; cbn; rewrite lookup_empty| |by left]. cbn. rewrite Z2Nat.id, Z.add_0_l by lia.
  unfold next_slot, first_slot. rewrite Z.div_0_l, Z.mod_0_l by lia. pose proof (Z.mod_pos_bound (i - k) n).
  rewrite (bool_decide_eq_false_2 ((i - k) `mod` n < 0)) by lia. lia.
Qed.

Lemma idle_new : idle (NewParallelLearner n).
Proof. intros i lsm Hlk _. cbn in Hlk. by apply list_lookup_fmap_Some in Hlk as (x & -> & _). Qed.

Lemma idle_step pl ev pl' outs : idle pl → pl_step gm n pl ev = Ok (pl', outs) → ∃ m, ev = PLArrive m.
Proof.
  intros Hid Hs. destruct ev as [m|i|i]; [by exists m|..]; cbn [pl_step] in Hs;
    apply bind_Ok in Hs as (lsm & [Hi Hlsm]%slice_get_Ok & Hs); destruct (Hid _ _ Hlsm Hi) as [[= Ht Hc] Hq].
  - by rewrite Hq in Hs.
  - by rewrite Hc in Hs.
Qed.

Lemma proc_done_first pl i r pl' outs : proc_done n pl i r = Ok (pl', outs) → pl_firstLearn pl' = pl_firstLearn pl.
Proof.
  unfold proc_done. intros (pl1 & (_ & _ & _ & _ & E1)%on_proc_Ok & Hrun)%bind_Ok. destruct r.2; [|by injection Hrun as <- _].
  apply bind_Ok in Hrun as (pl2 & (_ & _ & _ & _ & E2)%on_proc_Ok & [= <- _]). congruence.
Qed.

Lemma pl_step_first pl ev pl' outs : match ev with PLArrive _ => False | _ => True end → pl_step gm n pl ev = Ok (pl', outs) → pl_firstLearn pl' = pl_firstLearn pl.
Proof.
  intros Hev Hs. destruct ev as [m|i|i]; [done|..]; cbn [pl_step] in Hs; apply bind_Ok in Hs as (lsm & _ & Hs).
  - destruct (lsm_learnChan lsm); [done|]. apply bind_Ok in Hs as (r & _ & Hs). by eapply proc_done_first.
  - destruct (bool_decide _); [done|]. by eapply proc_done_first.
Qed.

Lemma pl_run_state evs pl outs : Forall (λ m, 0 ≤ lrn_Slot m < 2 ^ 63) (arrivals evs) → n * (len outs + 3) < 2 ^ 64 →
  run (pl_step gm n) (NewParallelLearner n) evs pl outs → run_state evs pl outs.
Proof.
  intros Hf Hb Hr. induction Hr as [|evs pl1 o1 ev pl2 o2 Hr IH Hs].
  - split; [done|]. cbn. split; [done|]. split; [apply idle_new|]. apply new_order_inv.
  - rewrite arrivals_app in Hf. apply Forall_app in Hf as [Hf Hev]. rewrite length_app in Hb.
    destruct (IH Hf) as [Hfirst Hst]; [nia|]. clear IH. unfold run_state. rewrite arrivals_app.
    destruct (arrivals evs) as [|m ms] eqn:Ea.
    + destruct Hst as (-> & Hid & Hinv). destruct (idle_step _ _ _ _ Hid Hs) as [m ->]. cbn in Hev. apply Forall_cons in Hev as [Hm _].
      assert (0 ≤ lrn_Slot m `mod` n < n) as Hk by (apply Z.mod_pos_bound; lia).
      destruct (pl_arrive_inv (lrn_Slot m `mod` n) 0 pl1 m pl2 o2 Hk Hm (Hinv _ Hk)) as (Hinv' & -> & Hff); [done|done|].
      cbn. by rewrite Hff.
    + destruct Hst as [Hinv Ho]. cbn [app]. rewrite (bool_decide_eq_false_2 (_ :: _ = [])) in * by done. cbv zeta. set (k := lrn_Slot m `mod` n) in *.
      assert (0 ≤ k < n) as Hk by (apply Z.mod_pos_bound; lia). rewrite length_app, Nat2Z.inj_add, fmap_app, Ho.
      assert ((∃ m', ev = PLArrive m') ∨ match ev with PLArrive _ => False | _ => True end) as [[m' ->]|Hna] by (destruct ev; eauto).
      * cbn in Hev. apply Forall_cons in Hev as [Hm _].
        destruct (pl_arrive_inv k (len o1) pl1 m' pl2 o2 Hk Hm Hinv) as (Hinv' & -> & Hff); [by rewrite Hfirst|done|].
        rewrite app_nil_r, Z.add_0_r. by split.
      * destruct (pl_step_proc_inv k (len o1) pl1 ev pl2 o2 Hk) as (d' & Hinv' & Ho2 & Hd); [lia|nia|done..|].
        split; [by rewrite (pl_step_first _ _ _ _ Hna Hs)|].
        assert (len o2 = d' - len o1) as Hlen.
        { assert (len o2.*1 = d' - len o1) as E; [|by rewrite length_fmap in E]. rewrite Ho2, length_fmap. apply length_range. lia. }
        rewrite Hlen. replace (len o1 + (d' - len o1)) with d' by lia. split; [done|].
        rewrite Ho2, <- fmap_app, range_split by lia. done.
Qed.
End order.

(** * What is delivered *)

Section values.
Context {G : Type} `{GroupManager G} (gm : G) (n : Z).
Hypothesis Hgm : 0 ≤ gm_NrOfNodes gm < 2 ^ 63.

(** A value that a quorum of replicas voted for in one round, as the learns say. *)
Definition voted (ms : list Learn) (slot : SlotID) (v : Value) : Prop :=
  ∃ (rnd : ProposerRound) (q : list Learn), q ⊆ ms ∧ gm_Quorum gm ≤ len q ∧ NoDup (PxInt ∘ lrn_ID <$> q) ∧
    (∀ m, m ∈ q → lrn_Slot m = slot ∧ lrn_Rnd m = rnd) ∧ ∃ m, m ∈ q ∧ lrn_Val m = v.

Record pslot_ok (ms : list Learn) (id : SlotID) (s : PLearnerSlot) : Prop := {
  so_id : pls_ID s = id;
  so_learns p m : pls_Learns s !! p = Some (Some m) → m ∈ ms ∧ lrn_Slot m = id ∧ lrn_Rnd m = pls_Rnd s ∧ PxInt (lrn_ID m) = Z.of_nat p;
  so_votes : pls_Votes s = Z.of_nat (count_some (pls_Learns s));
  so_len : len (pls_Learns s) ≤ gm_NrOfNodes gm;
  so_learned : pls_Learned s = true → voted ms id (pls_LearnedVal s);
}.
Definition values_ok (ms : list Learn) (lsm : PLearnerSlotMap) : Prop :=
  (∀ id s, lsm_slots lsm !! id = Some s → pslot_ok ms id s) ∧ lsm_learnChan lsm ⊆ ms.

Lemma voted_mono ms ms' slot v : ms ⊆ ms' → voted ms slot v → voted ms' slot v.
Proof. intros Hs (rnd & q & Hq & ?). exists rnd, q. split; [set_solver|done]. Qed.
Lemma pslot_ok_mono ms ms' id s : ms ⊆ ms' → pslot_ok ms id s → pslot_ok ms' id s.
Proof. intros Hs [H1 H2 H3 H4 H5]. split; [done| |done|done|intros; eapply voted_mono; eauto]. intros p m Hp. destruct (H2 p m Hp). split; [by apply Hs|done]. Qed.
Lemma values_ok_mono ms ms' lsm : ms ⊆ ms' → values_ok ms lsm → values_ok ms' lsm.
Proof. intros Hs [H1 H2]. split; [intros; eapply pslot_ok_mono; eauto|set_solver]. Qed.

Lemma new_pslot_ok ms id : pslot_ok ms id (new_plslot id).
Proof. split; try done. cbn. lia. Qed.

(** The learns of a slot, as a list. *)
Lemma collect_learns ms id s : pslot_ok ms id s → 
  ∃ q, q ⊆ ms ∧ len q = pls_Votes s ∧ NoDup (PxInt ∘ lrn_ID <$> q) ∧ (∀ m, m ∈ q ↔ Some m ∈ pls_Learns s) ∧ ∀ m, m ∈ q → lrn_Slot m = id ∧ lrn_Rnd m = pls_Rnd s.
Proof.
  intros [H1 H2 H3 H4 H5]. exists (omap (λ o, o) (pls_Learns s)).
  assert (∀ m, m ∈ omap (λ o, o) (pls_Learns s) ↔ Some m ∈ pls_Learns s) as Hin.
  { intros m. rewrite list_elem_of_omap. naive_solver. }
  split_and!; [| | |done|].
  - intros m (p & Hp)%Hin%list_elem_of_lookup. by apply (H2 p m).
  - rewrite H3. clear. induction (pls_Learns s) as [|[m|] l IH]; cbn in *; [done|rewrite !Nat2Z.inj_succ; by rewrite IH|done].
  - assert (∀ l k, (∀ p m, l !! p = Some (Some m) → PxInt (lrn_ID m) = k + Z.of_nat p) →
      NoDup (PxInt ∘ lrn_ID <$> omap (λ o, o) l) ∧ ∀ m, m ∈ omap (λ o, o) l → k ≤ PxInt (lrn_ID m)) as Hg.
    { clear. induction l as [|[m|] l IH]; intros k Hp; [split; [apply NoDup_nil_2|by intros ? ?%elem_of_nil]|..];
        destruct (IH (k + 1)) as [I1 I2]; try (intros p m' Hm'; specialize (Hp (S p) m' Hm'); lia).
      - cbn. specialize (Hp 0%nat m eq_refl). split.
        + apply NoDup_cons. split; [|done]. intros (m' & E & Hm')%list_elem_of_fmap. specialize (I2 m' Hm'). cbn in E. lia.
        + intros m' [->|Hm']%elem_of_cons; [lia|]. specialize (I2 m' Hm'). lia.
      - cbn. split; [done|]. intros m' Hm'. specialize (I2 m' Hm'). lia. }
    apply (Hg (pls_Learns s) 0). intros p m Hp. destruct (H2 p m Hp) as (_ & _ & _ & ->). lia.
  - intros m (p & Hp)%Hin%list_elem_of_lookup. destruct (H2 p m Hp) as (_ & ? & ? & _). done.
Qed.

Lemma add_learn_ok ms slot learn id slot' q : pslot_ok ms id slot → learn ∈ ms → lrn_Slot learn = id → pls_Learned slot = false →
  add_learn gm slot learn = Ok (slot', q) →
  pslot_ok ms id slot' ∧ pls_Learned slot' = false ∧ (q = true → gm_Quorum gm ≤ pls_Votes slot' ∧ Some learn ∈ pls_Learns slot').
Proof.
  intros Hok Hin Hs Hl. unfold add_learn. destruct (bool_decide_reflect (Compare (pls_Rnd slot) (lrn_Rnd learn) = 1)) as [|Hle]; [by intros [= <- <-]|].
  set (slot1 := if bool_decide (Compare (pls_Rnd slot) (lrn_Rnd learn) = -1) then _ else slot).
  assert (pslot_ok ms id slot1 ∧ pls_Rnd slot1 = lrn_Rnd learn ∧ pls_Learned slot1 = false) as ([H1 H2 H3 H4 H5] & Hr & Hl1).
  { unfold slot1. destruct (bool_decide_reflect (Compare (pls_Rnd slot) (lrn_Rnd learn) = -1)) as [|Hne].
    - split; [|done]. destruct Hok as [H1 H2 H3 H4 H5]. split; cbn; [done| |by rewrite count_some_nils|unfold nils; rewrite length_replicate; lia|congruence].
      intros p m Hp%nils_lookup. done.
    - split; [done|]. split; [|done]. by destruct (Compare_cases (pls_Rnd slot) (lrn_Rnd learn)) as [[? _]|[[? _]|[_ ?]]]. }
  clearbody slot1. intros (old & [Hp0 Hold]%slice_get_Ok & Hrun)%bind_Ok.
  destruct (bool_decide_reflect (old ≠ None)) as [|Hnone]; [by injection Hrun as <- <-|]. assert (old = None) as -> by (destruct old; [by destruct Hnone|done]).
  apply bind_Ok in Hrun as (ls & [Hb ->]%slice_set_Ok & [= <- <-]).
  assert (count_some (<[Z.to_nat (PxInt (lrn_ID learn)) := Some learn]> (pls_Learns slot1)) = S (count_some (pls_Learns slot1))) as Hc by by apply count_some_insert_None.
  pose proof (count_some_le (pls_Learns slot1)) as Hcl.
  assert (u64 (pls_Votes slot1 + 1) = Z.of_nat (S (count_some (pls_Learns slot1)))) as Hv by (rewrite H3, u64_small; lia).
  assert (Some learn ∈ <[Z.to_nat (PxInt (lrn_ID learn)) := Some learn]> (pls_Learns slot1)) as Hlearn.
  { apply list_elem_of_lookup. eexists. apply list_lookup_insert_eq. by apply lookup_lt_Some in Hold. }
  split_and!; [split; cbn|done|]; [done| | |by rewrite length_insert|congruence|].
  - intros p m. intros [(<- & [= <-] & _)|[_ Hp]]%list_lookup_insert_Some; [|by apply H2].
    split; [done|]. split; [done|]. split; [done|]. cbn in Hb. lia.
  - by rewrite Hv, Hc.
  - intros Hq. cbn. split; [|done]. apply negb_true_iff, bool_decide_eq_false in Hq. cbn in Hq. lia.
Qed.

Lemma pl_getSlot_ok ms lsm id slot lsm' : values_ok ms lsm → pl_getSlot lsm id = (slot, lsm') →
  pslot_ok ms id slot ∧ values_ok ms lsm' ∧ lsm_learnChan lsm' = lsm_learnChan lsm.
Proof.
  intros [Hv Hq]. unfold pl_getSlot. destruct (lsm_slots lsm !! id) as [s|] eqn:E; intros [= <- <-]; [by split_and!; [apply Hv|..]|].
  split; [apply new_pslot_ok|]. split; [|done]. split; [|done]. intros id' s'. cbn. intros [[<- <-]|[_ Hs]]%lookup_insert_Some; [apply new_pslot_ok|by apply Hv].
Qed.

Lemma put_plslot_ok ms lsm id slot : values_ok ms lsm → pslot_ok ms id slot → values_ok ms (put_plslot id slot lsm).
Proof. intros [Hv Hq] Hs. split; [|done]. intros id' s'. cbn. intros [[<- <-]|[_ ?]]%lookup_insert_Some; [done|by apply Hv]. Qed.

Definition good_result (ms : list Learn) (r : PLearnerSlotMap * option Delivery) : Prop :=
  values_ok ms r.1 ∧ ∀ d, r.2 = Some d → voted ms d.1 d.2.

Lemma deliver_slot_ok ms lsm id slot : values_ok ms lsm → pslot_ok ms id slot → pls_Learned slot = true → good_result ms (deliver_slot n lsm slot).
Proof. intros [Hv Hq] Hs Hl. split; [done|]. intros d [= <-]. cbn. rewrite (so_id _ _ _ Hs). by apply (so_learned _ _ _ Hs). Qed.

Lemma pl_handleLearn_ok ms lsm learn r : values_ok ms lsm → learn ∈ ms → pl_handleLearn gm n lsm learn = Ok r → good_result ms r.
Proof.
  intros Hw Hin. unfold pl_handleLearn. destruct (pl_getSlot lsm (lrn_Slot learn)) as [slot lsm1] eqn:Eg.
  apply (pl_getSlot_ok ms) in Eg as (Hs & Hw1 & _); [|done].
  destruct (pls_Learned slot) eqn:El; [intros [= <-]; by split|]. intros ([slot1 q] & Ha & Hrun)%bind_Ok.
  apply (add_learn_ok ms _ _ (lrn_Slot learn)) in Ha as (Hs1 & _ & Hq); [|done..].
  destruct q; cbn [negb] in Hrun; [|injection Hrun as <-; split; [by apply put_plslot_ok|done]]. destruct (Hq eq_refl) as [Hv Hlearn].
  cbv zeta in Hrun. set (slot2 := slot1 <| pls_Learned := true |> <| pls_LearnedVal := lrn_Val learn |>) in *.
  assert (pslot_ok ms (lrn_Slot learn) slot2) as Hs2.
  { destruct (collect_learns _ _ _ Hs1) as (ls & Q1 & Q2 & Q3 & Q4 & Q5). destruct Hs1 as [H1 H2 H3 H4 H5]. split; try done.
    intros _. exists (pls_Rnd slot1), ls. split_and!; [done|lia|done|done|]. exists learn. split; [by apply Q4|done]. }
  assert (pls_Learned slot2 = true) as Hl2 by done. clearbody slot2.
  pose proof (put_plslot_ok _ _ _ _ Hw1 Hs2) as Hw2. destruct (_ && _); injection Hrun as <-; [by eapply deliver_slot_ok|by split].
Qed.

Lemma receive_ok ms lsm : values_ok ms lsm → good_result ms (receiveNextToDecideToken n lsm).
Proof.
  intros Hw. unfold receiveNextToDecideToken. destruct (pl_getSlot _ _) as [slot lsm1] eqn:Eg. apply (pl_getSlot_ok ms) in Eg as (Hs & Hw1 & _); [|done].
  destruct (pls_Learned slot) eqn:El; [by eapply deliver_slot_ok|by split].
Qed.

Definition all_ok (ms : list Learn) (pl : ParallelLearner) : Prop := ∀ lsm, lsm ∈ pl_processors pl → values_ok ms lsm.

Lemma on_proc_ok ms pl i f pl' : all_ok ms pl → on_proc pl i f = Ok pl' → (∀ lsm, values_ok ms lsm → values_ok ms (f lsm)) → all_ok ms pl'.
Proof.
  intros Hall (lsm & Hi & Hlsm & E & _)%on_proc_Ok Hf l. rewrite E. intros [j Hj]%list_elem_of_lookup.
  apply list_lookup_insert_Some in Hj as [(_ & <- & _)|[_ Hj]]; [apply Hf, Hall; by eapply list_elem_of_lookup_2|apply Hall; by eapply list_elem_of_lookup_2].
Qed.

Lemma proc_done_ok ms pl i r pl' outs : all_ok ms pl → good_result ms r → proc_done n pl i r = Ok (pl', outs) →
  all_ok ms pl' ∧ ∀ d, d ∈ outs → voted ms d.1 d.2.
Proof.
  intros Hall [Hr Hd]. unfold proc_done. intros (pl1 & H1 & Hrun)%bind_Ok. apply (on_proc_ok ms) in H1; [|done..].
  destruct r.2 as [d|]; [|injection Hrun as <- <-; split; [done|by intros ? ?%elem_of_nil]].
  apply bind_Ok in Hrun as (pl2 & H2 & [= <- <-]). split; [by eapply on_proc_ok|]. intros d' ->%list_elem_of_singleton. by apply Hd.
Qed.

Lemma pl_step_ok ms pl ev pl' outs : all_ok ms pl → pl_step gm n pl ev = Ok (pl', outs) →
  let ms' := ms ++ arrivals [ev] in all_ok ms' pl' ∧ ∀ d, d ∈ outs → voted ms' d.1 d.2.
Proof.
  intros Hall Hs. cbv zeta. destruct ev as [learn|i|i]; cbn [pl_step arrivals omap list_omap] in *; rewrite ?app_nil_r.
  - apply bind_Ok in Hs as (pl1 & H1 & Hs). apply bind_Ok in Hs as (pl2 & H2 & [= <- <-]). split; [|by intros ? ?%elem_of_nil].
    assert (all_ok (ms ++ [learn]) pl) as Hall' by (intros l Hl; eapply values_ok_mono; [|by apply Hall]; set_solver).
    assert (all_ok (ms ++ [learn]) pl1) as Hall1.
    { destruct (pl_firstLearn pl); [|by injection H1 as <-]. apply bind_Ok in H1 as (pl0 & H0 & [= <-]). unfold give_token in H0.
      by apply (on_proc_ok (ms ++ [learn])) in H0. }
    eapply on_proc_ok; [done|exact H2|]. intros lsm [Hv Hq]. split; [done|]. cbn. set_solver.
  - apply bind_Ok in Hs as (lsm & [Hi Hlsm]%slice_get_Ok & Hs). assert (values_ok ms lsm) as [Hv Hq] by (apply Hall; by eapply list_elem_of_lookup_2).
    destruct (lsm_learnChan lsm) as [|learn q]; [done|]. apply bind_Ok in Hs as (r & Hr & Hs).
    eapply proc_done_ok; [done| |exact Hs]. eapply (pl_handleLearn_ok ms); [| |exact Hr]; [split; [done|]; cbn|]; set_solver.
  - apply bind_Ok in Hs as (lsm & [Hi Hlsm]%slice_get_Ok & Hs). destruct (bool_decide _); [done|].
    eapply proc_done_ok; [done| |exact Hs]. apply receive_ok. exact (Hall lsm (list_elem_of_lookup_2 _ _ _ Hlsm)).
Qed.
End values.


(** The order of delivery: the processors deliver in turn, each its own slots
    in order, and the turn starts with the processor of the first learn that
    arrived. The slots come in order from 1 on if this is the processor of slot 1. *)
Theorem parallel_delivery_order (G : Type) (GM : GroupManager G) (gm : G) (n : Z) (evs : list PLEvent) (pl : ParallelLearner) (outs : list Delivery) (first : Learn) :
  1 ≤ n → Forall (λ m, 0 ≤ lrn_Slot m < 2 ^ 63) (arrivals evs) → n * (len outs + 3) < 2 ^ 64 →
  run (pl_step gm n) (NewParallelLearner n) evs pl outs → head (arrivals evs) = Some first →
  outs.*1 = nth_slot n (lrn_Slot first `mod` n) <$> range 0 (len outs) ∧
  (lrn_Slot first `mod` n = 1 `mod` n → outs.*1 = range 1 (len outs + 1)).
Proof.
  intros Hn Hf Hb Hr Hh. destruct (pl_run_state gm n Hn evs pl outs Hf Hb Hr) as [_ Hst].
  destruct (arrivals evs) as [|m ms]; [done|]. injection Hh as ->. destruct Hst as [_ Ho]. split; [done|]. intros E. rewrite Ho, E.
  transitivity (Z.add 1 <$> range 0 (len outs)).
  - apply list_fmap_ext. intros j x Hx. apply list_elem_of_lookup_2, elem_of_range in Hx. rewrite nth_slot_one by lia. lia.
  - unfold range. rewrite fmap_add_seqZ. f_equal; lia.
Qed.

(** What a learner of parallel Paxos delivers for a slot was voted for by a
    quorum of replicas in one round, as the learns that arrived say. *)
Theorem parallel_delivered_voted (G : Type) (GM : GroupManager G) (gm : G) (n : Z) (evs : list PLEvent) (pl : ParallelLearner) (outs : list Delivery) :
  0 ≤ gm_NrOfNodes gm < 2 ^ 63 → run (pl_step gm n) (NewParallelLearner n) evs pl outs →
  ∀ slot v, (slot, v) ∈ outs → voted gm (arrivals evs) slot v.
Proof.
  intros Hgm Hr. enough (all_ok gm (arrivals evs) pl ∧ ∀ d, d ∈ outs → voted gm (arrivals evs) d.1 d.2) as [_ Ho] by (intros slot v Hd; by apply (Ho (slot, v))).
  induction Hr as [|evs pl1 o1 ev pl2 o2 Hr [IH1 IH2] Hs].
  - split; [|by intros ? ?%elem_of_nil]. intros lsm (i & -> & _)%list_elem_of_fmap. split; [|done]. intros id s. cbn. by rewrite lookup_empty.
  - apply (pl_step_ok gm n Hgm (arrivals evs)) in Hs as [H1 H2]; [|done]. rewrite arrivals_app. split; [done|].
    intros d [Hd|Hd]%elem_of_app; [|by apply H2]. apply (voted_mono gm Hgm (arrivals evs)); [set_solver|by apply IH2].
Qed.

(** * Two learners *)

(** Learns of replicas 0 and 1 for three slots, on three processors; each
    processor takes the token when it comes, and then what waits. *)
Definition pl_learns (slot : SlotID) : list Learn :=
  [mkLearn (ex_id 0) slot (ex_rnd 1 0) (ex_val slot) []; mkLearn (ex_id 1) slot (ex_rnd 1 0) (ex_val slot) []].
Definition pl_evs (slots : list SlotID) : list PLEvent :=
  (PLArrive <$> (slots ≫= pl_learns)) ++
  (slots ≫= λ s, [PLToken (s `mod` 3); PLLearn (s `mod` 3); PLLearn (s `mod` 3)]).
Definition pl_end (slots : list SlotID) : ParallelLearner * list Delivery :=
  default (NewParallelLearner 3, []) (run_exec (pl_step (ex_gm 0) 3) (NewParallelLearner 3) (pl_evs slots)).
Lemma pl_end_run slots : is_Some (run_exec (pl_step (ex_gm 0) 3) (NewParallelLearner 3) (pl_evs slots)) →
  run (pl_step (ex_gm 0) 3) (NewParallelLearner 3) (pl_evs slots) (pl_end slots).1 (pl_end slots).2.
Proof. intros [[pl o] E]. unfold pl_end. rewrite E. by apply run_exec_run. Qed.

(** Two learners that hear the same votes can deliver the same decisions in
    different orders: one that hears of slot 2 first delivers slot 1 after
    slots 2 and 3. *)
Theorem parallel_orders_differ :
  ∃ pl1 pl2 outs1 outs2,
    run (pl_step (ex_gm 0) 3) (NewParallelLearner 3) (pl_evs [1; 2; 3]) pl1 outs1 ∧
    run (pl_step (ex_gm 0) 3) (NewParallelLearner 3) (pl_evs [2; 3; 1]) pl2 outs2 ∧
    (∀ m, m ∈ arrivals (pl_evs [1; 2; 3]) ↔ m ∈ arrivals (pl_evs [2; 3; 1])) ∧
    outs1.*2 = [ex_val 1; ex_val 2; ex_val 3] ∧ outs2.*2 = [ex_val 2; ex_val 3; ex_val 1].
Proof.
  do 4 eexists. split; [apply pl_end_run; vm_compute; by eexists|]. split; [apply pl_end_run; vm_compute; by eexists|].
  split; [|split; vm_compute; reflexivity]. intros m. cbn. set_solver.
Qed.

Lemma parallel_delivery_order_witness :
  (pl_end [1; 2; 3]).2.*1 = range 1 4.
Proof.
  assert (run (pl_step (ex_gm 0) 3) (NewParallelLearner 3) (pl_evs [1; 2; 3]) (pl_end [1; 2; 3]).1 (pl_end [1; 2; 3]).2) as Hr
    by (apply pl_end_run; vm_compute; by eexists).
  assert (len (pl_end [1; 2; 3]).2 = 3) as Hl by (vm_compute; reflexivity).
  destruct (parallel_delivery_order GrpMgr _ (ex_gm 0) 3 (pl_evs [1; 2; 3]) (pl_end [1; 2; 3]).1 (pl_end [1; 2; 3]).2
    (mkLearn (ex_id 0) 1 (ex_rnd 1 0) (ex_val 1) [])) as [_ H].
  - lia.
  - apply (bool_decide_eq_true_1 _). vm_compute. reflexivity.
  - rewrite Hl. lia.
  - exact Hr.
  - vm_compute. reflexivity.
  - rewrite H, Hl; [reflexivity|]. vm_compute. reflexivity.
Defined.

Lemma parallel_delivered_voted_witness :
  run (pl_step (ex_gm 0) 3) (NewParallelLearner 3) (pl_evs [2; 3; 1]) (pl_end [2; 3; 1]).1 (pl_end [2; 3; 1]).2 ∧
  voted (ex_gm 0) (arrivals (pl_evs [2; 3; 1])) 1 (ex_val 1).
Proof.
  assert (run (pl_step (ex_gm 0) 3) (NewParallelLearner 3) (pl_evs [2; 3; 1]) (pl_end [2; 3; 1]).1 (pl_end [2; 3; 1]).2) as Hr
    by (apply pl_end_run; vm_compute; by eexists).
  split; [exact Hr|].
  apply (parallel_delivered_voted GrpMgr _ (ex_gm 0) 3 (pl_evs [2; 3; 1]) (pl_end [2; 3; 1]).1 (pl_end [2; 3; 1]).2).
  - vm_compute. split; [discriminate|reflexivity].
  - exact Hr.
  - assert ((pl_end [2; 3; 1]).2 = [(2, ex_val 2); (3, ex_val 3); (1, ex_val 1)]) as -> by (vm_compute; reflexivity).
    apply list_elem_of_lookup_2 with 2%nat. reflexivity.
Defined.
