(* ===== verification/ParallelAcceptor.v ===== *)
(** The acceptor of parallel Paxos (src/parallelpaxos/acceptor.go): several
    processors handle prepares under a write lock and accepts under a read lock,
    so that accepts interleave. A handler of an accept is a task that takes a
    step for each access to what the tasks share: the acceptor's round and the
    slot. (Go promises less: these accesses race.) *)
From S2P Require Import Prelude Grp PaxosTypes MultiAcceptor ParallelLearner.

(** Where the handler of an accept is. *)
Inductive AccPc :=
| PcRnd        (* compares the acceptor's round with that of the message *)
| PcVRnd       (* compares the slot's *)
| PcRaise      (* asks whether the acceptor's round is lower *)
| PcSetRnd | PcSetVRnd | PcSetVVal
| PcLearn.     (* broadcasts, with the acceptor's round *)
Record AccTask := mkAccTask { at_msg : Accept; at_pc : AccPc }.

Record ParallelAcceptor := mkPA { pa_id : ID; pa_lowSlot : SlotID; pa_processors : Z; pa_slots : AcceptorSlotMap; pa_tasks : list AccTask }.
#[export] Instance eta_ParallelAcceptor : Eta ParallelAcceptor := λ r, mkPA (pa_id r) (pa_lowSlot r) (pa_processors r) (pa_slots r) (pa_tasks r).

Definition NewParallelAcceptor (id : ID) (nextExpectedDcd : SlotID) (processors : Z) : ParallelAcceptor :=
  mkPA id nextExpectedDcd processors (NewAcceptorSlotMap <| asm_MaxSeen := nextExpectedDcd |>) [].

Inductive PAOut := PAPromise (dest : ID) (m : Promise) | PALearn (m : Learn).

Implicit Types a : ParallelAcceptor.

(** Under the write lock. *)
Definition pa_handlePrepare a (msg : Prepare) : res (ParallelAcceptor * list PAOut) :=
  if bool_decide (Compare (asm_Rnd (pa_slots a)) (prep_CRnd msg) >= 0) then Ok (a, [])
  else
    let a := a <| pa_slots ::= λ sm, sm <| asm_Rnd := prep_CRnd msg |> |> in
    let max := asm_MaxSeen (pa_slots a) in
    let accslots := promise_prefix (prep_Slot msg) max in
    idx ← upto (prep_Slot msg) max;
    let '(accslots, sm) := promise_loop idx (pa_slots a) accslots in
    mret (a <| pa_slots := sm |>, [PAPromise (prep_ID msg) (mkPromise (pa_id a) (asm_Rnd sm) accslots [])]).

(** The first part of [handleAccept]: the low slot and the slot's entry. *)
Definition pa_handleAccept a (msg : Accept) : ParallelAcceptor :=
  if bool_decide (acc_Slot msg < pa_lowSlot a) then a
  else
    let '(_, sm) := AcceptorSlotMap_GetSlot (pa_slots a) (acc_Slot msg) in
    a <| pa_slots := sm |> <| pa_tasks ::= λ ts, ts ++ [mkAccTask msg PcRnd] |>.

(** A write through the slot pointer. *)
Definition on_slot (id : SlotID) (f : AcceptorSlot → AcceptorSlot) (sm : AcceptorSlotMap) : AcceptorSlotMap :=
  put_aslot id (f (aslot sm id)) sm.

(** One access of a task; [None] when the handler returns. *)
Definition task_step (id : ID) (t : AccTask) (sm : AcceptorSlotMap) : AcceptorSlotMap * option AccPc * list PAOut :=
  let msg := at_msg t in
  match at_pc t with
  | PcRnd => (sm, if bool_decide (Compare (asm_Rnd sm) (acc_Rnd msg) = 1) then None else Some PcVRnd, [])
  | PcVRnd => (sm, if bool_decide (Compare (acc_Rnd msg) (as_VRnd (aslot sm (acc_Slot msg))) = 0) then None else Some PcRaise, [])
  | PcRaise => (sm, Some (if bool_decide (Compare (asm_Rnd sm) (acc_Rnd msg) = -1) then PcSetRnd else PcSetVRnd), [])
  | PcSetRnd => (sm <| asm_Rnd := acc_Rnd msg |>, Some PcSetVRnd, [])
  | PcSetVRnd => (on_slot (acc_Slot msg) (λ s, s <| as_VRnd := acc_Rnd msg |>) sm, Some PcSetVVal, [])
  | PcSetVVal => (on_slot (acc_Slot msg) (λ s, s <| as_VVal := acc_Val msg |>) sm, Some PcLearn, [])
  | PcLearn => (sm, None, [PALearn (mkLearn id (as_ID (aslot sm (acc_Slot msg))) (asm_Rnd sm) (acc_Val msg) [])])
  end.

Inductive PAEvent := PAPrepare (m : Prepare) | PAAccept (m : Accept) | PATask (k : nat).

(** A prepare waits for the tasks, and a message for a processor. *)
Definition pa_step a (ev : PAEvent) : res (ParallelAcceptor * list PAOut) :=
  match ev with
  | PAPrepare msg => if bool_decide (length (pa_tasks a) = 0%nat) && bool_decide (1 <= pa_processors a) then pa_handlePrepare a msg else Diverge
  | PAAccept msg => if bool_decide (len (pa_tasks a) < pa_processors a) then Ok (pa_handleAccept a msg, []) else Diverge
  | PATask k =>
      match pa_tasks a !! k with
      | None => Diverge
      | Some t =>
          let '(sm, pc, outs) := task_step (pa_id a) t (pa_slots a) in
          Ok (a <| pa_slots := sm |>
                <| pa_tasks ::= λ ts, match pc with Some pc => <[k := mkAccTask (at_msg t) pc]> ts | None => delete k ts end |>, outs)
      end
  end.

(** * One message at a time *)

(** The acceptor of MultiPaxos with the same state. *)
Definition as_multi a : MultiAcceptor :=
  {| a_id := pa_id a; a_startable := true; a_started := true; a_processing := true; a_leader := pa_id a; a_lowSlot := pa_lowSlot a;
     a_slots := pa_slots a; a_mode := AccRegular |}.

Lemma on_slot_twice sm id f g : on_slot id f (on_slot id g sm) = put_aslot id (f (g (aslot sm id))) sm.
Proof.
  unfold on_slot. rewrite aslot_put, decide_True by done. unfold put_aslot. destruct sm as [m r x].
  change (mkAcceptorSlotMap (<[id := f (g (aslot (mkAcceptorSlotMap m r x) id))]> (<[id := g (aslot (mkAcceptorSlotMap m r x) id)]> m)) r x =
    mkAcceptorSlotMap (<[id := f (g (aslot (mkAcceptorSlotMap m r x) id))]> m) r x). by rewrite insert_insert_eq.
Qed.
Lemma on_slot_Rnd sm id f : asm_Rnd (on_slot id f sm) = asm_Rnd sm.
Proof. done. Qed.

(** A task that is alone goes on. *)
Lemma task_alone a t pc sm outs : pa_tasks a = [t] → task_step (pa_id a) t (pa_slots a) = (sm, pc, outs) →
  pa_step a (PATask 0) = Ok (a <| pa_slots := sm |> <| pa_tasks := match pc with Some pc => [mkAccTask (at_msg t) pc] | None => [] end |>, outs).
Proof. intros Ht Hs. cbn [pa_step]. rewrite Ht. cbn [lookup list_lookup]. rewrite Hs. cbn. rewrite Ht. by destruct pc. Qed.

Lemma run_exec_cons a ev evs a1 o1 r : pa_step a ev = Ok (a1, o1) → run_exec pa_step a1 evs = Some r → run_exec pa_step a (ev :: evs) = Some (r.1, o1 ++ r.2).
Proof. intros H1 H2. cbn. rewrite H1. cbn. rewrite H2. by destruct r. Qed.

(** All steps of a task. *)
Fixpoint task_exec (n : nat) (id : ID) (t : AccTask) (sm : AcceptorSlotMap) : option (AcceptorSlotMap * list PAOut) :=
  match n with
  | O => None
  | S n =>
      let '(sm, pc, o) := task_step id t sm in
      match pc with None => Some (sm, o) | Some pc => (λ r, (r.1, o ++ r.2)) <$> task_exec n id (mkAccTask (at_msg t) pc) sm end
  end.

Lemma task_exec_run n : ∀ a t sm o, pa_tasks a = [t] → task_exec n (pa_id a) t (pa_slots a) = Some (sm, o) →
  ∃ k, run_exec pa_step a (replicate k (PATask 0)) = Some (a <| pa_slots := sm |> <| pa_tasks := [] |>, o).
Proof.
  induction n as [|n IH]; intros a t sm o Ht Hx; [done|]. cbn [task_exec] in Hx.
  destruct (task_step (pa_id a) t (pa_slots a)) as [[sm1 pc] o1] eqn:Es. pose proof (task_alone a t pc sm1 o1 Ht Es) as H1.
  destruct pc as [pc|]; cycle 1.
  { injection Hx as <- <-. exists 1%nat. cbn [replicate]. erewrite run_exec_cons; [|exact H1|done]. cbn [fst snd]. by rewrite app_nil_r. }
  apply fmap_Some in Hx as ([sm2 o2] & Hx & [= -> ->]). cbn [fst snd] in *.
  destruct (IH (a <| pa_slots := sm1 |> <| pa_tasks := [mkAccTask (at_msg t) pc] |>) (mkAccTask (at_msg t) pc) sm2 o2) as [k Hk]; [done|exact Hx|].
  exists (S k). cbn [replicate]. erewrite run_exec_cons; [|exact H1|exact Hk]. done.
Qed.

Lemma task_exec_accept id msg sm : let r := acc_Rnd msg in let slot := aslot sm (acc_Slot msg) in
  task_exec 7 id (mkAccTask msg PcRnd) sm = Some (
    if bool_decide (Compare (asm_Rnd sm) r = 1) || bool_decide (Compare r (as_VRnd slot) = 0) then (sm, [])
    else
      let sm := if bool_decide (Compare (asm_Rnd sm) r = -1) then sm <| asm_Rnd := r |> else sm in
      (put_aslot (acc_Slot msg) (slot <| as_VRnd := r |> <| as_VVal := acc_Val msg |>) sm,
       [PALearn (mkLearn id (as_ID slot) (asm_Rnd sm) (acc_Val msg) [])])).
Proof.
  cbv zeta. cbn [task_exec task_step at_pc at_msg]. destruct (bool_decide (Compare (asm_Rnd sm) (acc_Rnd msg) = 1)); cbn [orb]; [done|].
  cbn [task_exec task_step at_pc at_msg fmap option_fmap option_map]. destruct (bool_decide (Compare (acc_Rnd msg) _ = 0)); [done|].
  cbn [task_exec task_step at_pc at_msg fmap option_fmap option_map]. destruct (bool_decide (Compare (asm_Rnd sm) (acc_Rnd msg) = -1));
    cbn [task_exec task_step at_pc at_msg fmap option_fmap option_map fst snd app]; rewrite on_slot_twice, aslot_put, decide_True by done; done.
Qed.

(** C33: One message at a time, the acceptor of parallel Paxos is that of
    MultiPaxos: a prepare has the same effect and answer, and so has an accept
    whose steps are not interleaved with others. *)
Theorem alone_as_multi a (prepare : Prepare) (accept : Accept) :
  1 ≤ pa_processors a → pa_tasks a = [] →
  pa_step a (PAPrepare prepare) =
    ('(m, r) ← handlePrep (as_multi a) prepare;
     Ok (a <| pa_slots := a_slots m |>, match r with Some (promise, dest) => [PAPromise dest promise] | None => [] end)) ∧
  ∃ k, run_exec pa_step a (PAAccept accept :: replicate k (PATask 0)) =
    let '(m, r) := handleAcc (as_multi a) accept in
    Some (a <| pa_slots := a_slots m |>, match r with Some learn => [PALearn learn] | None => [] end).
Proof.
  intros Hp Ht. destruct a as [id low procs sm ts]. cbn in Hp, Ht. subst ts. split.
  - cbn [pa_step]. rewrite !bool_decide_eq_true_2 by done. cbn [andb]. unfold pa_handlePrepare, handlePrep, handle_prep_body.
    cbn [pa_slots pa_id as_multi a_slots a_id update eta eta_ParallelAcceptor eta_MultiAcceptor].
    destruct (bool_decide _); [done|]. destruct (upto _ _) as [idx| |]; [|done..]. cbn [mbind res_bind].
    destruct (promise_loop _ _ _) as [accslots sm']. done.
  - assert (∀ evs, run_exec pa_step (mkPA id low procs sm []) (PAAccept accept :: evs) =
      run_exec pa_step (pa_handleAccept (mkPA id low procs sm []) accept) evs) as Hstart.
    { intros evs. cbn [run_exec pa_step]. rewrite bool_decide_eq_true_2 by (cbn; lia). by destruct (run_exec _ _ evs) as [[]|]. }
    unfold pa_handleAccept, handleAcc, mark_processing in *. cbn [pa_lowSlot as_multi a_lowSlot a_processing negb] in *.
    destruct (bool_decide (acc_Slot accept < low)); [exists 0%nat; by rewrite Hstart|].
    unfold handle_acc_body. cbn [a_slots as_multi pa_slots] in *. destruct (AcceptorSlotMap_GetSlot sm (acc_Slot accept)) as [slot sm1] eqn:Eg.
    assert (slot = aslot sm1 (acc_Slot accept)) as ->.
    { unfold AcceptorSlotMap_GetSlot in Eg. by injection Eg as <- <-. }
    destruct (task_exec 7 id (mkAccTask accept PcRnd) sm1) as [[sm2 o]|] eqn:Ex; [|by rewrite task_exec_accept in Ex].
    destruct (task_exec_run 7 (mkPA id low procs sm1 [mkAccTask accept PcRnd]) (mkAccTask accept PcRnd) sm2 o eq_refl Ex) as [k Hk].
    exists k. rewrite Hstart. etransitivity; [exact Hk|]. rewrite task_exec_accept in Ex. cbn [a_slots a_id update eta eta_MultiAcceptor].
    destruct (bool_decide (Compare (asm_Rnd sm1) _ = 1) || _); [by injection Ex as <- <-|].
    cbv zeta in Ex. injection Ex as <- <-. by destruct (bool_decide (Compare (asm_Rnd sm1) _ = -1)).
Qed.

(** * Interleaved accepts *)

(** Every accept is handled after a prepare of its round or a later one. *)
Fixpoint promised a (evs : list PAEvent) : bool :=
  match evs with
  | [] => true
  | ev :: evs =>
      match ev with PAAccept m => bool_decide (Compare (asm_Rnd (pa_slots a)) (acc_Rnd m) >= 0) | _ => true end &&
      match pa_step a ev with Ok (a, _) => promised a evs | _ => true end
  end.

Definition slots_id (sm : AcceptorSlotMap) : Prop := ∀ j, as_ID (aslot sm j) = j.

(** A task past the first test has the acceptor's round. *)
Definition task_ok (ms : list Accept) (rnd : ProposerRound) (t : AccTask) : Prop :=
  at_msg t ∈ ms ∧ acc_Rnd (at_msg t) ≼ rnd ∧ (at_pc t ≠ PcRnd → acc_Rnd (at_msg t) = rnd) ∧ at_pc t ≠ PcSetRnd.
Record honest_inv (ms : list Accept) a : Prop := {
  hi_slots : slots_id (pa_slots a);
  hi_tasks : Forall (task_ok ms (asm_Rnd (pa_slots a))) (pa_tasks a);
}.
Definition honest_learn (ms : list Accept) (o : PAOut) : Prop :=
  match o with
  | PALearn l => ∃ m, m ∈ ms ∧ lrn_Slot l = acc_Slot m ∧ lrn_Rnd l = acc_Rnd m ∧ lrn_Val l = acc_Val m
  | PAPromise _ _ => True
  end.

Lemma promise_loop_slots idx : ∀ sm l, slots_id sm → slots_id (promise_loop idx sm l).2.
Proof.
  unfold promise_loop. induction idx as [|i idx IH]; intros sm l Hs; cbn [foldl]; [done|].
  get_slot. destruct (bool_decide _); apply IH; intros j; rewrite aslot_GetSlot; apply Hs.
Qed.

Lemma on_slot_id sm id f : slots_id sm → (∀ s, as_ID (f s) = as_ID s) → slots_id (on_slot id f sm).
Proof. intros Hs Hf j. unfold on_slot. rewrite aslot_put. case_decide as Hd; [|apply Hs]. by rewrite Hf, Hs. Qed.

Lemma task_step_honest ms id t sm sm' pc outs : slots_id sm → task_ok ms (asm_Rnd sm) t → task_step id t sm = (sm', pc, outs) →
  slots_id sm' ∧ asm_Rnd sm' = asm_Rnd sm ∧ Forall (honest_learn ms) outs ∧ ∀ pc', pc = Some pc' → task_ok ms (asm_Rnd sm) (mkAccTask (at_msg t) pc').
Proof.
  intros Hs (Hin & Hle & Heq & Hpc). destruct t as [m p]. cbn [at_msg at_pc] in *. unfold task_step, task_ok. cbn [at_msg at_pc].
  destruct p; try (specialize (Heq ltac:(done))); try done.
  - intros [= <- <- <-]. split_and!; [done..|]. intros pc'. destruct (bool_decide_reflect (Compare (asm_Rnd sm) (acc_Rnd m) = 1)) as [|Hc]; [done|].
    intros [= <-]. split_and!; [done|done| |done]. intros _.
    destruct (Compare_cases (asm_Rnd sm) (acc_Rnd m)) as [[? _]|[[_ Hlt]|[_ ?]]]; [done| |done]. by apply rle_not_rlt in Hle.
  - intros [= <- <- <-]. split_and!; [done..|]. by intros pc'; destruct (bool_decide _); [|intros [= <-]].
  - intros [= <- <- <-]. split_and!; [done..|]. assert (Compare (asm_Rnd sm) (acc_Rnd m) = 0) as -> by by apply Compare_eq.
    cbn. by intros pc' [= <-].
  - intros [= <- <- <-]. split_and!; [apply (on_slot_id sm (acc_Slot m) _ Hs); by intros|done|done|]. by intros pc' [= <-].
  - intros [= <- <- <-]. split_and!; [apply (on_slot_id sm (acc_Slot m) _ Hs); by intros|done|done|]. by intros pc' [= <-].
  - intros [= <- <- <-]. split_and!; [done|done| |done]. apply Forall_singleton. exists m. cbn. by rewrite Hs.
Qed.

(** Prepares change the round when no accept is handled, so the tasks' invariant holds of every run. *)
Lemma pa_step_honest ms a ev a' outs : honest_inv ms a → (∀ m, ev = PAAccept m → m ∈ ms ∧ acc_Rnd m ≼ asm_Rnd (pa_slots a)) →
  pa_step a ev = Ok (a', outs) → honest_inv ms a' ∧ Forall (honest_learn ms) outs.
Proof.
  intros [Hs Ht] Hev. destruct ev as [m|m|k]; cbn [pa_step].
  - destruct (bool_decide_reflect (length (pa_tasks a) = 0%nat)) as [H0|]; [|done]. destruct (bool_decide _); [|done]. cbn [andb].
    apply nil_length_inv in H0. unfold pa_handlePrepare. destruct (bool_decide _); [by intros [= <- <-]|].
    destruct (upto _ _) as [idx| |]; [|done..]. cbn [mbind res_bind]. destruct (promise_loop _ _ _) as [accslots sm] eqn:El. intros [= <- <-].
    split; [|by repeat constructor]. split; cbn; [|by rewrite H0]. change sm with (accslots, sm).2. rewrite <- El. by apply promise_loop_slots.
  - destruct (bool_decide _); [|done]. intros [= <- <-]. split; [|done]. destruct (Hev m eq_refl) as [Hin Hle]. unfold pa_handleAccept.
    destruct (bool_decide _); [done|]. get_slot. split; cbn.
    + intros j. rewrite aslot_GetSlot. apply Hs.
    + rewrite asm_Rnd_GetSlot. apply Forall_app; split; [exact Ht|]. apply Forall_singleton. by split_and!.
  - destruct (pa_tasks a !! k) as [t|] eqn:Ek; [|done]. destruct (task_step _ _ _) as [[sm pc] o] eqn:Es. intros [= <- <-].
    pose proof (Forall_lookup_1 _ _ _ _ Ht Ek) as Hok.
    destruct (task_step_honest ms _ t _ sm pc o Hs Hok Es) as (Hs' & Hrnd & Ho & Hpc). split; [|done]. split; cbn; [done|]. rewrite Hrnd.
    destruct pc as [pc|]; [apply Forall_insert; auto|]. by apply Forall_delete.
Qed.

(** The accepts of the events. *)
Definition accepts (evs : list PAEvent) : list Accept := omap (λ ev, match ev with PAAccept m => Some m | _ => None end) evs.

Lemma promised_run_honest ms evs : ∀ a a' outs, honest_inv ms a → promised a evs = true → accepts evs ⊆ ms →
  run_exec pa_step a evs = Some (a', outs) → Forall (honest_learn ms) outs.
Proof.
  induction evs as [|ev evs IH]; intros a a' outs Hi Hp Hms Hr; cbn [run_exec] in Hr; [by injection Hr as <- <-|].
  cbn [promised] in Hp. apply andb_true_iff in Hp as [Hev Hp]. destruct (pa_step a ev) as [[a1 o1]| |] eqn:Es; [|done..].
  apply fmap_Some in Hr as ([a2 o2] & Hr & [= -> ->]). cbn [fst snd].
  assert (accepts evs ⊆ ms) as Hms' by (destruct ev; set_solver).
  apply (pa_step_honest ms) in Es as [Hi' Ho]; [|done|].
  - apply Forall_app. split; [done|]. by eapply IH.
  - intros m ->. split; [set_solver|]. apply bool_decide_eq_true in Hev. by apply Compare_ge.
Qed.

(** If every accept comes after a prepare of its round or a later one, then
    however the handlers interleave a learn that the acceptor broadcasts has the
    slot, the round and the value of an accept that it got. *)
Theorem promised_learns_honest (id : ID) (low : SlotID) (processors : Z) (evs : list PAEvent) a' outs :
  promised (NewParallelAcceptor id low processors) evs = true →
  run pa_step (NewParallelAcceptor id low processors) evs a' outs →
  ∀ l, PALearn l ∈ outs → ∃ m, PAAccept m ∈ evs ∧ lrn_Slot l = acc_Slot m ∧ lrn_Rnd l = acc_Rnd m ∧ lrn_Val l = acc_Val m.
Proof.
  intros Hp Hr%run_run_exec l Hl.
  assert (honest_inv (accepts evs) (NewParallelAcceptor id low processors)) as Hi by (split; [intros j; reflexivity|constructor]).
  destruct (proj1 (Forall_forall _ _) (promised_run_honest _ _ _ _ _ Hi Hp ltac:(done) Hr) _ Hl) as (m & Hm & Heq).
  exists m. split; [|done]. apply list_elem_of_omap in Hm as ([] & ? & ?); simplify_eq. done.
Qed.

(** * A torn learn *)

Definition pa_new (i : Z) : ParallelAcceptor := NewParallelAcceptor (ex_id i) 0 2.
Definition pa_prep (leader : Z) : PAEvent := PAPrepare (mkPrepare (ex_id leader) (ex_rnd 2 leader) 0).
Definition pa_acc (leader : Z) : PAEvent := PAAccept (mkAccept (ex_id leader) 1 (ex_rnd 2 leader) (ex_val leader)).
Definition pa_lrn (i leader v : Z) : Learn := mkLearn (ex_id i) 1 (ex_rnd 2 leader) (ex_val v) [].
Definition pa_end (i : Z) (evs : list PAEvent) : ParallelAcceptor * list PAOut := default (pa_new i, []) (run_exec pa_step (pa_new i) evs).
Lemma pa_end_run i evs : is_Some (run_exec pa_step (pa_new i) evs) → run pa_step (pa_new i) evs (pa_end i evs).1 (pa_end i evs).2.
Proof. intros [[a o] E]. unfold pa_end. rewrite E. by apply run_exec_run. Qed.

(** The handler of the first leader's accept stops before its broadcast, that of
    the second leader's sets the acceptor's round, and the first one goes on. *)
Definition torn_evs : list PAEvent :=
  [pa_prep 0; pa_acc 0; pa_acc 1] ++ replicate 5 (PATask 0) ++ replicate 4 (PATask 1) ++ replicate 4 (PATask 0).
(** The other acceptors promise to both leaders. *)
Definition straight_evs : list PAEvent := [pa_prep 0; pa_prep 1; pa_acc 1] ++ replicate 6 (PATask 0).
Definition torn_learn_evs (ms : list Learn) : list PLEvent := (PLArrive <$> ms) ++ [PLToken 1; PLLearn 1; PLLearn 1].
Definition torn_end (ms : list Learn) : ParallelLearner * list Delivery :=
  default (NewParallelLearner 3, []) (run_exec (pl_step (ex_gm 0) 3) (NewParallelLearner 3) (torn_learn_evs ms)).
Lemma torn_end_run ms : is_Some (run_exec (pl_step (ex_gm 0) 3) (NewParallelLearner 3) (torn_learn_evs ms)) →
  run (pl_step (ex_gm 0) 3) (NewParallelLearner 3) (torn_learn_evs ms) (torn_end ms).1 (torn_end ms).2.
Proof. intros [[pl o] E]. unfold torn_end. rewrite E. by apply run_exec_run. Qed.

(** A torn learn splits the learners. Acceptors 1 and 2 promised to the
    second leader and vote for its value; the handlers of acceptor 0, which got
    the first leader's prepare only, interleave so that it broadcasts the first
    leader's value in the second leader's round. A learner that counts
    this vote after that of acceptor 1 delivers the first value, and one that
    counts the votes of acceptors 1 and 2 delivers the second. *)
Theorem torn_learn :
  ∃ a0 a1 a2 pl1 pl2 o0 o1 o2,
    run pa_step (pa_new 0) torn_evs a0 o0 ∧ PALearn (pa_lrn 0 1 0) ∈ o0 ∧
    run pa_step (pa_new 1) straight_evs a1 o1 ∧ PALearn (pa_lrn 1 1 1) ∈ o1 ∧
    run pa_step (pa_new 2) straight_evs a2 o2 ∧ PALearn (pa_lrn 2 1 1) ∈ o2 ∧
    run (pl_step (ex_gm 0) 3) (NewParallelLearner 3) (torn_learn_evs [pa_lrn 1 1 1; pa_lrn 0 1 0]) pl1 [(1, ex_val 0)] ∧
    run (pl_step (ex_gm 0) 3) (NewParallelLearner 3) (torn_learn_evs [pa_lrn 1 1 1; pa_lrn 2 1 1]) pl2 [(1, ex_val 1)].
Proof.
  exists (pa_end 0 torn_evs).1, (pa_end 1 straight_evs).1, (pa_end 2 straight_evs).1, (torn_end [pa_lrn 1 1 1; pa_lrn 0 1 0]).1,
    (torn_end [pa_lrn 1 1 1; pa_lrn 2 1 1]).1, (pa_end 0 torn_evs).2, (pa_end 1 straight_evs).2, (pa_end 2 straight_evs).2.
  split_and!.
  1,3,5: apply pa_end_run; vm_compute; by eexists.
  - apply list_elem_of_lookup_2 with 1%nat. vm_compute. reflexivity.
  - apply list_elem_of_lookup_2 with 2%nat. vm_compute. reflexivity.
  - apply list_elem_of_lookup_2 with 2%nat. vm_compute. reflexivity.
  - pose proof (torn_end_run [pa_lrn 1 1 1; pa_lrn 0 1 0] ltac:(vm_compute; by eexists)) as Hr.
    assert ((torn_end [pa_lrn 1 1 1; pa_lrn 0 1 0]).2 = [(1, ex_val 0)]) as E by (vm_compute; reflexivity). by rewrite E in Hr.
  - pose proof (torn_end_run [pa_lrn 1 1 1; pa_lrn 2 1 1] ltac:(vm_compute; by eexists)) as Hr.
    assert ((torn_end [pa_lrn 1 1 1; pa_lrn 2 1 1]).2 = [(1, ex_val 1)]) as E by (vm_compute; reflexivity). by rewrite E in Hr.
Qed.

Lemma alone_as_multi_witness :
  ∃ k, run_exec pa_step (pa_new 0) (pa_acc 0 :: replicate k (PATask 0)) =
    let '(m, r) := handleAcc (as_multi (pa_new 0)) (mkAccept (ex_id 0) 1 (ex_rnd 2 0) (ex_val 0)) in
    Some ((pa_new 0) <| pa_slots := a_slots m |>, match r with Some learn => [PALearn learn] | None => [] end).
Proof.
  apply (alone_as_multi (pa_new 0) (mkPrepare (ex_id 0) (ex_rnd 1 0) 0) (mkAccept (ex_id 0) 1 (ex_rnd 2 0) (ex_val 0))); [|reflexivity].
  vm_compute. discriminate.
Defined.

Lemma promised_learns_honest_witness :
  promised (pa_new 1) straight_evs = true ∧ PALearn (pa_lrn 1 1 1) ∈ (pa_end 1 straight_evs).2 ∧
  ∃ m, PAAccept m ∈ straight_evs ∧ 1 = acc_Slot m ∧ ex_rnd 2 1 = acc_Rnd m ∧ ex_val 1 = acc_Val m.
Proof.
  assert (promised (pa_new 1) straight_evs = true) as Hp by (vm_compute; reflexivity).
  assert (PALearn (pa_lrn 1 1 1) ∈ (pa_end 1 straight_evs).2) as Hl
    by (apply list_elem_of_lookup_2 with 2%nat; vm_compute; reflexivity).
  split; [exact Hp|]. split; [exact Hl|].
  apply (promised_learns_honest (ex_id 1) 0 2 straight_evs (pa_end 1 straight_evs).1 (pa_end 1 straight_evs).2 Hp
    (pa_end_run 1 straight_evs ltac:(vm_compute; by eexists)) _ Hl).
Defined.
