(* ===== verification/ParallelProposer.v ===== *)
(** The proposer of parallel Paxos (src/parallelpaxos/proposer.go,
    proposer_demuxer.go, proposer_processor.go): a demuxer runs phase 1 and
    shares the slots among [numProcessors] processors by their number, and the
    processors take the values from one queue. *)
From S2P Require Import Prelude Grp PaxosTypes ParallelLearner ParallelAcceptor.

(** * State *)

Record AduMsg := mkAduMsg { am_processor : Z; am_adu : Z }.
Record SendAcceptsMsg := mkSendAccepts { sa_upTo : Z; sa_crnd : ProposerRound }.
Record PProposerSlot := mkPSlot { psl_Decided : bool; psl_Proposal : option Accept }.
#[export] Instance eta_PProposerSlot : Eta PProposerSlot := λ r, mkPSlot (psl_Decided r) (psl_Proposal r).

(** What a processor does: it is in its select, or in the loop of [SendAccepts]
    before a slot, or it has an accept to broadcast. *)
Inductive Job := Idle | Sending (msg : SendAcceptsMsg) | Holding (msg : SendAcceptsMsg) (accept : Accept).

(** A processor, with the goroutines that wait to hand it a command. *)
Record ProposerProcessor := mkPP { pp_id : Z; pp_slots : gmap Z PProposerSlot; pp_adu : Z; pp_next : Z; pp_job : Job; pp_sendAccepts : list SendAcceptsMsg }.
#[export] Instance eta_ProposerProcessor : Eta ProposerProcessor := λ r, mkPP (pp_id r) (pp_slots r) (pp_adu r) (pp_next r) (pp_job r) (pp_sendAccepts r).

Record ParallelProposer := mkPPr {
  pr_id : ID; pr_leader : ID; pr_numProcessors : Z; pr_crnd : ProposerRound; pr_alpha : Z;
  pr_reqQueue : list Value; pr_reqQueueCap : Z; pr_reqQueueLength : Z;
  pr_phase1promises : list (option Promise); pr_phase1numPromises : Z; pr_phase1done : bool;
  pr_adu : Z; pr_aduInProcessor : list Z; pr_next : Z;
  pr_startable : bool; pr_started : bool;
  pr_processors : list ProposerProcessor;
  pr_advance : list AduMsg }.    (* the goroutines that wait to send on [advanceChan] *)
#[export] Instance eta_ParallelProposer : Eta ParallelProposer := λ r,
  mkPPr (pr_id r) (pr_leader r) (pr_numProcessors r) (pr_crnd r) (pr_alpha r) (pr_reqQueue r) (pr_reqQueueCap r) (pr_reqQueueLength r)
    (pr_phase1promises r) (pr_phase1numPromises r) (pr_phase1done r) (pr_adu r) (pr_aduInProcessor r) (pr_next r)
    (pr_startable r) (pr_started r) (pr_processors r) (pr_advance r).

Inductive PrOut := PrPrepare (m : Prepare) | PrAccept (m : Accept).

Inductive PrEvent :=
| PrTrust (id : ID)
| PrPromise (m : Promise)
| PrTick
| PrRequest (v : Value)
| PrDecided (slot : SlotID)
| PrAdvance (k : nat)            (* the [k]-th of the waiting senders *)
| PrCommand (i : Z) (k : nat)    (* processor [i] gets the [k]-th command that waits for it *)
| PrTake (i : Z)                 (* it looks at its next slot, and takes a value *)
| PrBcast (i : Z).

(** * The processors *)

Section processor.
Variable n : Z.     (* numProcessors *)
Implicit Types pp : ProposerProcessor.

(** The error is [None]. *)
Definition pr_getSlot (slotID : Z) pp : option (PProposerSlot * ProposerProcessor) :=
  if bool_decide (slotID `mod` n ≠ pp_id pp) then None
  else
    match pp_slots pp !! slotID with
    | Some slot => Some (slot, pp)
    | None => let slot := mkPSlot false None in Some (slot, pp <| pp_slots ::= <[slotID := slot]> |>)
    end.
Definition pr_put (slotID : Z) (slot : PProposerSlot) pp : ProposerProcessor := pp <| pp_slots ::= <[slotID := slot]> |>.

Definition process_accslot pp (accSlot : AcceptorSlot) : ProposerProcessor :=
  if bool_decide (as_ID accSlot <= pp_adu pp) then pp
  else
    match pr_getSlot (as_ID accSlot) pp with
    | None => pp
    | Some (slot, pp) =>
        let nil_or_ge := match psl_Proposal slot with None => true | Some old => bool_decide (Compare (acc_Rnd old) (as_VRnd accSlot) >= 0) end in
        if nil_or_ge
        then pr_put (as_ID accSlot) (slot <| psl_Proposal := Some (mkAccept (mkID 0 0) 0 (as_VRnd accSlot) (as_VVal accSlot)) |>) pp
        else pp
    end.
Definition ProcessPromises (promises : list (option Promise)) pp : ProposerProcessor :=
  foldl (λ pp promise, match promise with Some promise => foldl process_accslot pp (prom_AccSlots promise) | None => pp end) pp promises.

(** The loop of [HandleDecided] from [i] up. It reads the slot [slotID] every
    time, so that a second iteration means that [i] wrapped and that the loop
    runs through the 64 bits. *)
Fixpoint advance_adu_loop (fuel : nat) (i slotID : Z) pp (didAdvance : bool) : res (ProposerProcessor * bool) :=
  if bool_decide (slotID < i) then Ok (pp, didAdvance)
  else
    match fuel with
    | O => Diverge
    | S fuel =>
        match pr_getSlot slotID pp with
        | None => Panic     (* a nil slot *)
        | Some (slot, pp) => if psl_Decided slot then advance_adu_loop fuel (u64 (i + n)) slotID (pp <| pp_adu := slotID |>) true else Ok (pp, didAdvance)
        end
    end.

(** The message is for [advanceChan]. *)
Definition HandleDecided (slotID : Z) pp : res (ProposerProcessor * list AduMsg) :=
  match pr_getSlot slotID pp with
  | None => Ok (pp, [])
  | Some (slot, pp) =>
      let pp := pr_put slotID (slot <| psl_Decided := true |>) pp in
      if bool_decide (slotID = pp_id pp) then Ok (pp <| pp_adu := slotID |>, [mkAduMsg (pp_id pp) slotID])
      else if bool_decide (slotID = u64 (pp_adu pp + n)) then
        '(pp, didAdvance) ← advance_adu_loop 1 (u64 (pp_adu pp + n)) slotID pp false;
        mret (pp, if (didAdvance : bool) then [mkAduMsg (pp_id pp) (pp_adu pp)] else [])
      else Ok (pp, [])
  end.

(** One look at the loop's condition, with the value if there is one. *)
Definition send_step (proposerID : ID) pp (msg : SendAcceptsMsg) (reqQueue : list Value) : res (ProposerProcessor * list Value) :=
  if bool_decide (pp_next pp <= sa_upTo msg) then
    match reqQueue with
    | [] => Panic     (* commanded to send, but the queue was empty *)
    | v :: q => Ok (pp <| pp_job := Holding msg (mkAccept proposerID (pp_next pp) (sa_crnd msg) v) |>, q)
    end
  else Ok (pp <| pp_job := Idle |>, reqQueue).
Definition sent_step pp (msg : SendAcceptsMsg) : ProposerProcessor := pp <| pp_job := Sending msg |> <| pp_next ::= λ s, u64 (s + n) |>.
End processor.

(** * The demuxer *)

Section proposer.
Context {G : Type} `{GroupManager G} (gm : G).
Implicit Types p : ParallelProposer.

(** A channel of a negative size panics. *)
Definition NewParallelProposer (id leader : ID) (processors alpha : Z) (runProp : bool) : res ParallelProposer :=
  if bool_decide (i64 (alpha * 128) < 0) || bool_decide (processors < 0) then Panic
  else Ok {| pr_id := id; pr_leader := leader; pr_numProcessors := processors; pr_crnd := NewProposerRound id; pr_alpha := u64 alpha;
             pr_reqQueue := []; pr_reqQueueCap := i64 (alpha * 128); pr_reqQueueLength := 0;
             pr_phase1promises := []; pr_phase1numPromises := 0; pr_phase1done := false;
             pr_adu := 0; pr_aduInProcessor := replicate (Z.to_nat processors) 0; pr_next := 1;
             pr_startable := runProp; pr_started := false; pr_processors := []; pr_advance := [] |}.

(** The processor's [adu] is the highest multiple of the number of processors
    that is not above the proposer's. *)
Definition startProcessor p (id : Z) : ProposerProcessor :=
  let n := pr_numProcessors p in
  let adu := pr_adu p - pr_adu p `mod` n in
  mkPP id ∅ adu (if negb (bool_decide (adu = 0)) || (bool_decide (adu = 0) && bool_decide (id = 0)) then adu + n else id) Idle [].

(** The test of [startable] and [started] only writes to the log. *)
Definition Start p : ParallelProposer :=
  p <| pr_started := true |> <| pr_processors := startProcessor p <$> range 0 (pr_numProcessors p) |>.

Definition demuxerStartPhase1 p : ParallelProposer * list PrOut :=
  let p := p <| pr_phase1done := false |> <| pr_phase1numPromises := 0 |> <| pr_phase1promises := nils (gm_NrOfNodes gm) |> <| pr_crnd ::= Next |> in
  (p, [PrPrepare (mkPrepare (pr_id p) (pr_crnd p) (pr_adu p))]).

Definition demuxerHandleTrust p (id : ID) : ParallelProposer * list PrOut :=
  if bool_decide (pr_leader p = pr_id p) && bool_decide (pr_leader p = id) then (p, [])
  else
    let p := p <| pr_leader := id |> in
    if bool_decide (pr_leader p = pr_id p) then demuxerStartPhase1 p else (p, []).

Definition demuxerHandlePhaseTick p : ParallelProposer * list PrOut :=
  if bool_decide (pr_leader p ≠ pr_id p) || pr_phase1done p then (p, []) else demuxerStartPhase1 p.

Definition demuxerSignalToSendAccepts p : ParallelProposer :=
  let queued := u64 (pr_next p + pr_reqQueueLength p - 1) in
  let window := u64 (pr_adu p + pr_alpha p) in
  let upTo := if bool_decide (window < queued) then window else queued in
  let msg := mkSendAccepts upTo (pr_crnd p) in
  let p := p <| pr_processors ::= fmap (λ pp, pp <| pp_sendAccepts ::= λ q, q ++ [msg] |>) |> in
  let p := p <| pr_reqQueueLength ::= λ l, u64 (l - u64 (upTo - pr_next p)) |> in
  p <| pr_next ::= λ s, u64 (s + u64 (upTo - s)) |>.

(** It waits for every processor to have taken the promises; what they do to
    their slots in between does not depend on one another. *)
Definition demuxerFinishPhase1 p : res ParallelProposer :=
  if forallb (λ pp, match pp_job pp with Idle => true | _ => false end) (pr_processors p) then
    let p := p <| pr_processors ::= fmap (ProcessPromises (pr_numProcessors p) (pr_phase1promises p)) |> in
    mret (demuxerSignalToSendAccepts (p <| pr_phase1done := true |>))
  else Diverge.

Definition demuxerHandlePromise p (promise : Promise) : res ParallelProposer :=
  if pr_phase1done p then Ok p
  else if bool_decide (Compare (pr_crnd p) (prom_Rnd promise) ≠ 0) then Ok p
  else
    old ← slice_get (pr_phase1promises p) (PxInt (prom_ID promise));
    if bool_decide (old ≠ None) then mret p
    else
      ps ← slice_set (pr_phase1promises p) (PxInt (prom_ID promise)) (Some promise);
      let p := p <| pr_phase1promises := ps |> <| pr_phase1numPromises ::= λ c, u64 (c + 1) |> in
      if bool_decide (pr_phase1numPromises p >= gm_Quorum gm) then demuxerFinishPhase1 p else mret p.

Definition demuxerHandleNewRequest p (value : Value) : ParallelProposer :=
  if bool_decide (pr_leader p ≠ pr_id p) then p
  else if bool_decide (pr_reqQueueCap p <= len (pr_reqQueue p)) then p
  else
    let p := p <| pr_reqQueue ::= λ q, q ++ [value] |> <| pr_reqQueueLength ::= λ l, u64 (l + 1) |> in
    if bool_decide (pr_leader p = pr_id p) && pr_phase1done p then demuxerSignalToSendAccepts p else p.

Definition demuxerHandleAdvance p (msg : AduMsg) : res ParallelProposer :=
  old ← slice_get (pr_aduInProcessor p) (am_processor msg);
  let aduIncreased := forallb (λ adu, negb (bool_decide (adu < old))) (pr_aduInProcessor p) in
  adus ← slice_set (pr_aduInProcessor p) (am_processor msg) (am_adu msg);
  let p := p <| pr_aduInProcessor := adus |> in
  mret (if aduIncreased then
          let p := p <| pr_adu := am_adu msg |> in
          if bool_decide (pr_leader p = pr_id p) && pr_phase1done p then demuxerSignalToSendAccepts p else p
        else p).

(** * The steps *)

Definition pr_set (p : ParallelProposer) (i : Z) (pp : ProposerProcessor) : res ParallelProposer :=
  ps ← slice_set (pr_processors p) i pp; mret (p <| pr_processors := ps |>).

(** [Diverge] is a step that has to wait. *)
Definition pr_step p (ev : PrEvent) : res (ParallelProposer * list PrOut) :=
  match ev with
  | PrTrust id => Ok (demuxerHandleTrust p id)
  | PrTick => Ok (demuxerHandlePhaseTick p)
  | PrPromise m => p ← demuxerHandlePromise p m; mret (p, [])
  | PrRequest v => Ok (demuxerHandleNewRequest p v, [])
  | PrDecided slot =>
      if bool_decide (pr_numProcessors p = 0) then Panic
      else
        pp ← slice_get (pr_processors p) (slot `mod` pr_numProcessors p);
        match pp_job pp with
        | Idle =>
            '(pp, msgs) ← HandleDecided (pr_numProcessors p) slot pp;
            p ← pr_set p (slot `mod` pr_numProcessors p) pp; mret (p <| pr_advance ::= λ q, q ++ msgs |>, [])
        | _ => Diverge
        end
  | PrAdvance k =>
      match pr_advance p !! k with
      | None => Diverge
      | Some msg => p ← demuxerHandleAdvance (p <| pr_advance ::= delete k |>) msg; mret (p, [])
      end
  | PrCommand i k =>
      if bool_decide (0 <= i < len (pr_processors p)) then
        pp ← slice_get (pr_processors p) i;
        match pp_job pp, pp_sendAccepts pp !! k with
        | Idle, Some msg => p ← pr_set p i (pp <| pp_sendAccepts ::= delete k |> <| pp_job := Sending msg |>); mret (p, [])
        | _, _ => Diverge
        end
      else Diverge
  | PrTake i =>
      if bool_decide (0 <= i < len (pr_processors p)) then
        pp ← slice_get (pr_processors p) i;
        match pp_job pp with
        | Sending msg => '(pp, q) ← send_step (pr_id p) pp msg (pr_reqQueue p); p ← pr_set p i pp; mret (p <| pr_reqQueue := q |>, [])
        | _ => Diverge
        end
      else Diverge
  | PrBcast i =>
      if bool_decide (0 <= i < len (pr_processors p)) then
        pp ← slice_get (pr_processors p) i;
        match pp_job pp with
        | Holding msg accept => p ← pr_set p i (sent_step (pr_numProcessors p) pp msg); mret (p, [PrAccept accept])
        | _ => Diverge
        end
      else Diverge
  end.
End proposer.

(** * The work of the processors *)

Definition held1 (pp : ProposerProcessor) : option Accept := match pp_job pp with Holding _ a => Some a | _ => None end.
Definition held (ps : list ProposerProcessor) : list Accept := omap held1 ps.
Definition accepts_of (outs : list PrOut) : list Accept := omap (λ o, match o with PrAccept a => Some a | PrPrepare _ => None end) outs.
Definition requests (evs : list PrEvent) : list Value := omap (λ ev, match ev with PrRequest v => Some v | _ => None end) evs.

Section work.
Variable n : Z.
Hypothesis Hn : 1 ≤ n.
Implicit Types (ps : list ProposerProcessor) (pp : ProposerProcessor).

(** [e] values have been put in the queue. *)
Definition job_ok (e : Z) pp : Prop :=
  match pp_job pp with
  | Idle => True
  | Sending m => sa_upTo m ≤ e
  | Holding m a => sa_upTo m ≤ e ∧ acc_Slot a = pp_next pp ∧ pp_next pp ≤ e
  end.
Record proc_work (e : Z) (i : nat) pp : Prop := {
  pw_next : 1 ≤ pp_next pp;
  pw_mod : pp_next pp `mod` n = Z.of_nat i;
  pw_cmds : Forall (λ m, sa_upTo m ≤ e) (pp_sendAccepts pp);
  pw_job : job_ok e pp;
}.
Record work_ok (enq : list Value) ps (queue : list Value) (done : list Accept) : Prop := {
  wo_len : len ps = n;
  wo_proc : ∀ i pp, ps !! i = Some pp → proc_work (len enq) i pp;
  wo_perm : (acc_Val <$> done ++ held ps) ++ queue ≡ₚ enq;
  wo_nodup : NoDup (acc_Slot <$> done ++ held ps);
  wo_done : ∀ a, a ∈ done → 1 ≤ acc_Slot a ≤ len enq ∧ ∀ pp, ps !! Z.to_nat (acc_Slot a `mod` n) = Some pp → acc_Slot a < pp_next pp;
}.

Lemma held_lookup ps a : a ∈ held ps ↔ ∃ i pp, ps !! i = Some pp ∧ held1 pp = Some a.
Proof. unfold held. rewrite list_elem_of_omap. setoid_rewrite list_elem_of_lookup. naive_solver. Qed.

Lemma held_insert ps i pp pp' : ps !! i = Some pp →
  ∃ rest, held ps ≡ₚ option_list (held1 pp) ++ rest ∧ held (<[i:=pp']> ps) ≡ₚ option_list (held1 pp') ++ rest.
Proof.
  intros Hi. exists (held (take i ps) ++ held (drop (S i) ps)).
  assert (∀ x l1 l2, held (l1 ++ x :: l2) ≡ₚ option_list (held1 x) ++ held l1 ++ held l2) as Hc.
  { intros x l1 l2. unfold held. rewrite omap_app. cbn. destruct (held1 x); cbn; [by rewrite Permutation_middle|done]. }
  split; [rewrite <- (take_drop_middle ps i pp Hi) at 1|rewrite insert_take_drop by by eapply lookup_lt_Some]; apply Hc.
Qed.

(** What a held accept says of its slot. *)
Lemma held_slot enq ps queue done a : work_ok enq ps queue done → a ∈ held ps →
  1 ≤ acc_Slot a ≤ len enq ∧ ∀ pp, ps !! Z.to_nat (acc_Slot a `mod` n) = Some pp → held1 pp = Some a.
Proof.
  intros Hw (i & pp & Hi & Ha)%held_lookup. destruct (wo_proc _ _ _ _ Hw _ _ Hi) as [H1 H2 _ H4].
  unfold held1 in Ha. unfold job_ok in H4. destruct (pp_job pp) as [| |m b] eqn:Ej; simplify_eq. destruct H4 as (_ & Es & He).
  rewrite Es. split; [lia|]. intros pp' Hp'. rewrite H2, Nat2Z.id in Hp'. simplify_eq. unfold held1. by rewrite Ej.
Qed.

(** A step that at most adds commands. *)
Lemma work_ext enq ps ps' queue done :
  work_ok enq ps queue done →
  Forall2 (λ pp pp', pp_next pp' = pp_next pp ∧ pp_job pp' = pp_job pp ∧ Forall (λ m, m ∈ pp_sendAccepts pp ∨ sa_upTo m ≤ len enq) (pp_sendAccepts pp')) ps ps' →
  work_ok enq ps' queue done.
Proof.
  intros Hw Hps. assert (held ps' = held ps) as Eh.
  { clear Hw. unfold held. induction Hps as [|pp pp' ps ps' (_ & Ej & _) _ IH]; [done|]. cbn.
    assert (held1 pp' = held1 pp) as -> by (unfold held1; by rewrite Ej). by rewrite IH. }
  split; rewrite ?Eh; [|..|apply Hw|apply Hw|].
  - rewrite <- (wo_len _ _ _ _ Hw). f_equal. symmetry. by eapply Forall2_length.
  - intros i pp' Hi. destruct (Forall2_lookup_r _ _ _ _ _ Hps Hi) as (pp & Hp & En & Ej & Hs).
    destruct (wo_proc _ _ _ _ Hw _ _ Hp) as [H1 H2 H3 H4]. split; [by rewrite En..| |unfold job_ok in *; by rewrite Ej, En].
    eapply Forall_impl; [exact Hs|]. intros m [Hm|?]; [|done]. by eapply Forall_forall in H3.
  - intros a Ha. destruct (wo_done _ _ _ _ Hw a Ha) as [Hr Hd]. split; [done|]. intros pp' Hi.
    destruct (Forall2_lookup_r _ _ _ _ _ Hps Hi) as (pp & Hp & En & _). rewrite En. by apply Hd.
Qed.

(** Before a slot of its own, a processor finds a value. *)
Lemma queue_not_empty enq ps queue done i pp m : work_ok enq ps queue done → ps !! i = Some pp → pp_job pp = Sending m →
  pp_next pp ≤ sa_upTo m → queue ≠ [] ∧ pp_next pp ∉ acc_Slot <$> done ++ held ps.
Proof.
  intros Hw Hi Hj Hle. destruct (wo_proc _ _ _ _ Hw _ _ Hi) as [H1 H2 _ H4]. unfold job_ok in H4. rewrite Hj in H4.
  assert (pp_next pp ∉ acc_Slot <$> done ++ held ps) as Hnew.
  { intros (a & Es & Ha)%list_elem_of_fmap. rewrite elem_of_app in Ha. destruct Ha as [Ha|Ha].
    - destruct (wo_done _ _ _ _ Hw _ Ha) as [_ Hd]. specialize (Hd pp). rewrite <- Es, H2, Nat2Z.id in Hd. specialize (Hd Hi). lia.
    - destruct (held_slot _ _ _ _ _ Hw Ha) as [_ Hd]. specialize (Hd pp). rewrite <- Es, H2, Nat2Z.id in Hd. specialize (Hd Hi).
      unfold held1 in Hd. by rewrite Hj in Hd. }
  split; [|done]. intros ->. pose proof (Permutation_length (wo_perm _ _ _ _ Hw)) as Hl. rewrite app_nil_r, length_fmap in Hl.
  assert (pp_next pp :: (acc_Slot <$> done ++ held ps) ⊆+ range 1 (len enq + 1)) as Hsub.
  { apply NoDup_submseteq; [constructor; [done|apply Hw]|]. intros s. rewrite elem_of_cons, elem_of_range.
    intros [->|(a & -> & [Ha|Ha]%elem_of_app)%list_elem_of_fmap]; [lia| |].
    - destruct (wo_done _ _ _ _ Hw _ Ha) as [? _]. lia.
    - destruct (held_slot _ _ _ _ _ Hw Ha) as [? _]. lia. }
  apply submseteq_length in Hsub. cbn in Hsub. rewrite length_fmap in Hsub. unfold range in Hsub. rewrite length_seqZ in Hsub. lia.
Qed.

(** A step of one processor, which may take [extra] from the queue. *)
Lemma work_step enq ps queue done i pp pp' extra queue' done' : work_ok enq ps queue done → ps !! i = Some pp →
  proc_work (len enq) i pp' → pp_next pp ≤ pp_next pp' →
  done' ++ option_list (held1 pp') ≡ₚ extra ++ done ++ option_list (held1 pp) → (acc_Val <$> extra) ++ queue' = queue →
  NoDup (acc_Slot <$> extra ++ done ++ held ps) →
  (∀ a, a ∈ done' → a ∈ done ∨ held1 pp = Some a ∧ acc_Slot a < pp_next pp') →
  work_ok enq (<[i:=pp']> ps) queue' done'.
Proof.
  intros Hw Hi Hp Hmono Hacc Hq Hnd Hd. destruct (held_insert ps i pp pp' Hi) as (rest & H1 & H2).
  assert (done' ++ held (<[i:=pp']> ps) ≡ₚ extra ++ done ++ held ps) as Hall by (by rewrite H1, H2, !(assoc_L (++)), Hacc, !(assoc_L (++))).
  split.
  - rewrite length_insert. apply Hw.
  - intros j ppj [(<- & <- & _)|[_ Hj]]%list_lookup_insert_Some; [done|by apply (wo_proc _ _ _ _ Hw)].
  - rewrite Hall, <- (wo_perm _ _ _ _ Hw), <- Hq, fmap_app, (assoc_L (++)). f_equiv. apply Permutation_app_comm.
  - by rewrite Hall.
  - intros a Ha. destruct (Hd a Ha) as [Hold|[Hh Hlt]].
    + destruct (wo_done _ _ _ _ Hw a Hold) as [Hr Hlt]. split; [done|].
      intros ppj [(Ei & <- & _)|[_ Hj]]%list_lookup_insert_Some; [|by apply Hlt]. rewrite Ei in Hi. specialize (Hlt pp Hi). lia.
    + assert (a ∈ held ps) as Hin by (apply held_lookup; eauto). destruct (held_slot _ _ _ _ _ Hw Hin) as [Hr _]. split; [done|].
      destruct (wo_proc _ _ _ _ Hw _ _ Hi) as [_ Hm _ Hj]. unfold held1 in Hh. unfold job_ok in Hj. destruct (pp_job pp); simplify_eq.
      destruct Hj as (_ & Es & _). intros ppj. rewrite Es, Hm, Nat2Z.id, list_lookup_insert_eq by by eapply lookup_lt_Some.
      intros [= <-]. by rewrite <- Es.
Qed.

Lemma step_same enq ps queue done i pp pp' : work_ok enq ps queue done → ps !! i = Some pp →
  proc_work (len enq) i pp' → pp_next pp' = pp_next pp → held1 pp' = held1 pp → work_ok enq (<[i:=pp']> ps) queue done.
Proof.
  intros Hw Hi Hp En Eh. eapply (work_step _ _ _ _ _ _ pp' []); [exact Hw|exact Hi|done|by rewrite En|by rewrite Eh|done|apply Hw|by left].
Qed.

Lemma send_work enq ps queue done i pp m pid r : work_ok enq ps queue done → ps !! i = Some pp → pp_job pp = Sending m →
  send_step pid pp m queue = r → ∃ pp' queue', r = Ok (pp', queue') ∧ work_ok enq (<[i:=pp']> ps) queue' done.
Proof.
  intros Hw Hi Hj <-. unfold send_step. destruct (wo_proc _ _ _ _ Hw _ _ Hi) as [H1 H2 H3 H4]. unfold job_ok in H4. rewrite Hj in H4.
  destruct (bool_decide_reflect (pp_next pp <= sa_upTo m)) as [Hle|].
  - destruct (queue_not_empty _ _ _ _ _ _ _ Hw Hi Hj Hle) as [Hq Hnew]. destruct queue as [|v queue]; [done|]. do 2 eexists. split; [done|].
    eapply (work_step _ _ _ _ _ pp _ [mkAccept pid (pp_next pp) (sa_crnd m) v]); [exact Hw|exact Hi| |done| |done| |by left].
    + split; [done..|]. cbn. split_and!; [lia|done|lia].
    + unfold held1 at 2. rewrite Hj. cbn. rewrite app_nil_r. symmetry. apply Permutation_cons_append.
    + cbn. constructor; [done|apply Hw].
  - do 2 eexists. split; [done|]. eapply step_same; [exact Hw|exact Hi|by split|done|]. unfold held1. by rewrite Hj.
Qed.

Lemma sent_work enq ps queue done i pp m a : len enq + n < 2 ^ 64 → work_ok enq ps queue done → ps !! i = Some pp → pp_job pp = Holding m a →
  work_ok enq (<[i:=sent_step n pp m]> ps) queue (done ++ [a]).
Proof.
  intros Hb Hw Hi Hj. destruct (wo_proc _ _ _ _ Hw _ _ Hi) as [H1 H2 H3 H4]. unfold job_ok in H4. rewrite Hj in H4. destruct H4 as (Hu & Es & He).
  assert (pp_next (sent_step n pp m) = pp_next pp + n) as En by (cbn; nowrap; done).
  eapply (work_step _ _ _ _ _ pp _ []); [exact Hw|exact Hi| | | |done|apply Hw|].
  - split; [lia| |done|done]. rewrite En. rewrite <- H2. rewrite <- (Z.mul_1_l n) at 1. apply Z_mod_plus_full.
  - lia.
  - unfold held1. rewrite Hj. cbn. by rewrite app_nil_r.
  - intros b [Hb'|Hb']%elem_of_app; [by left|]. apply list_elem_of_singleton in Hb' as ->. right. unfold held1. rewrite Hj. split; [done|]. lia.
Qed.

(** A new value in the queue. *)
Lemma work_enqueue enq ps queue done v : work_ok enq ps queue done → work_ok (enq ++ [v]) ps (queue ++ [v]) done.
Proof.
  intros Hw. assert (len (enq ++ [v]) = len enq + 1) as El by (rewrite length_app; cbn; lia). split; rewrite ?El; [apply Hw| | |apply Hw|].
  - intros i pp Hi. destruct (wo_proc _ _ _ _ Hw _ _ Hi) as [H1 H2 H3 H4]. split; [done..| |].
    + eapply Forall_impl; [exact H3|]. cbn. lia.
    + unfold job_ok in *. destruct (pp_job pp); [done|lia|]. destruct H4 as (? & ? & ?). split_and!; [lia|done|lia].
  - by rewrite (assoc_L (++)), (wo_perm _ _ _ _ Hw).
  - intros a Ha. destruct (wo_done _ _ _ _ Hw a Ha) as [? ?]. split; [lia|done].
Qed.
End work.

(** What promises and decisions leave alone. *)
Definition keeps (pp pp' : ProposerProcessor) : Prop := pp_next pp' = pp_next pp ∧ pp_job pp' = pp_job pp ∧ pp_sendAccepts pp' = pp_sendAccepts pp.
Lemma work_kept_trans pp1 pp2 pp3 : keeps pp1 pp2 → keeps pp2 pp3 → keeps pp1 pp3.
Proof. intros (? & ? & ?) (? & ? & ?). split_and!; congruence. Qed.
Lemma getSlot_keeps n id pp slot pp' : pr_getSlot n id pp = Some (slot, pp') → keeps pp pp'.
Proof. unfold pr_getSlot. destruct (bool_decide _); [done|]. by destruct (pp_slots pp !! id); intros [= <- <-]. Qed.
Lemma process_accslot_keeps n pp s : keeps pp (process_accslot n pp s).
Proof.
  unfold process_accslot. destruct (bool_decide _); [done|]. destruct (pr_getSlot n (as_ID s) pp) as [[slot pp']|] eqn:E; [|done].
  apply getSlot_keeps in E. destruct (match psl_Proposal slot with Some _ => _ | None => _ end); [|done]. by apply (work_kept_trans _ pp').
Qed.
Lemma ProcessPromises_keeps n ps pp : keeps pp (ProcessPromises n ps pp).
Proof.
  unfold ProcessPromises. revert pp. induction ps as [|o ps IH]; intros pp; [done|]. cbn. eapply work_kept_trans; [|apply IH]. destruct o as [m|]; [|done].
  clear. revert pp. induction (prom_AccSlots m) as [|s l IH]; intros pp; [done|]. cbn. eapply work_kept_trans; [apply process_accslot_keeps|apply IH].
Qed.
Lemma advance_adu_loop_keeps n fuel : ∀ i id pp b pp' b', advance_adu_loop n fuel i id pp b = Ok (pp', b') → keeps pp pp'.
Proof.
  induction fuel as [|fuel IH]; intros i id pp b pp' b'; cbn; (destruct (bool_decide _); [by intros [= <- <-]|]); [done|].
  destruct (pr_getSlot n id pp) as [[slot pp1]|] eqn:E; [|done]. apply getSlot_keeps in E.
  destruct (psl_Decided slot); [|by intros [= <- <-]]. intros Hx%IH. eapply work_kept_trans; [exact E|]. by eapply work_kept_trans; [|exact Hx].
Qed.
Lemma HandleDecided_keeps n id pp pp' msgs : HandleDecided n id pp = Ok (pp', msgs) → keeps pp pp'.
Proof.
  unfold HandleDecided. destruct (pr_getSlot n id pp) as [[slot pp1]|] eqn:E; [|by intros [= <- <-]]. apply getSlot_keeps in E.
  destruct (bool_decide _); [by intros [= <- <-]|]. destruct (bool_decide _); [|by intros [= <- <-]].
  intros ([pp2 b] & Hx & Hr)%bind_Ok. injection Hr as <- _. apply advance_adu_loop_keeps in Hx. by eapply work_kept_trans; [exact E|].
Qed.

(** * The proposer's invariant *)

Section invariant.
Context {G : Type} `{GroupManager G} (gm : G) (n : Z).
Hypothesis Hn : 1 ≤ n.

Record prop_inv (enq : list Value) (p : ParallelProposer) (outs : list PrOut) : Prop := {
  pi_n : pr_numProcessors p = n;
  pi_queue : u64 (pr_next p + pr_reqQueueLength p - 1) = len enq;
  pi_work : work_ok n enq (pr_processors p) (pr_reqQueue p) (accepts_of outs);
}.

Lemma signal_inv enq p outs : prop_inv enq p outs → prop_inv enq (demuxerSignalToSendAccepts p) outs.
Proof.
  intros [H1 H2 H3]. unfold demuxerSignalToSendAccepts. rewrite H2.
  set (upTo := if bool_decide _ then _ else _). assert (upTo ≤ len enq) as Hu by (unfold upTo; case_bool_decide; lia). clearbody upTo.
  split; cbn; [done| |].
  - rewrite <- H2. unfold u64.
    rewrite <- (Zminus_mod_idemp_l (_ + _) 1), <- Zplus_mod_idemp_l, <- Zplus_mod_idemp_r.
    rewrite !Z.mod_mod by done. rewrite (Zplus_mod_idemp_r (upTo - pr_next p)), (Zminus_mod_idemp_r (pr_reqQueueLength p)).
    rewrite <- Zplus_mod, Zminus_mod_idemp_l. f_equal. lia.
  - eapply work_ext; [exact H3|]. apply Forall2_fmap_r, Forall2_same_length_lookup_2; [done|]. intros i pp pp' Hi Hi'. simplify_eq. cbn.
    split_and!; [done..|]. apply Forall_app. split; [|by apply Forall_singleton; right]. apply Forall_forall. by left.
Qed.

Lemma keeps_work enq ps ps' queue done : work_ok n enq ps queue done → Forall2 keeps ps ps' → work_ok n enq ps' queue done.
Proof.
  intros Hw Hk. eapply work_ext; [exact Hw|]. eapply Forall2_impl; [exact Hk|]. intros pp pp' (H1 & H2 & H3). rewrite H3. split_and!; [done..|].
  apply Forall_forall. by left.
Qed.

Lemma promise_inv enq p outs m p' : prop_inv enq p outs → demuxerHandlePromise gm p m = Ok p' → prop_inv enq p' outs.
Proof.
  intros Hi. unfold demuxerHandlePromise. destruct (pr_phase1done p); [by intros [= <-]|]. destruct (bool_decide _); [by intros [= <-]|].
  intros (old & _ & Hr)%bind_Ok. destruct (bool_decide (old ≠ None)); [by injection Hr as <-|]. apply bind_Ok in Hr as (ps & _ & Hr).
  destruct Hi as [H1 H2 H3]. destruct (bool_decide _); [|injection Hr as <-; by split].
  unfold demuxerFinishPhase1 in Hr. destruct (forallb _ _); [|done]. injection Hr as <-. apply signal_inv. split; cbn; [done..|].
  eapply keeps_work; [exact H3|]. apply Forall2_fmap_r, Forall2_same_length_lookup_2; [done|]. intros i pp pp' Hi Hi'. simplify_eq. apply ProcessPromises_keeps.
Qed.

Lemma request_inv enq p outs v : len enq + 1 < 2 ^ 64 → prop_inv enq p outs →
  ∃ e, e `sublist_of` [v] ∧ prop_inv (enq ++ e) (demuxerHandleNewRequest p v) outs.
Proof.
  intros Hb [H1 H2 H3]. unfold demuxerHandleNewRequest.
  destruct (bool_decide (pr_leader p ≠ _)); [exists []; rewrite app_nil_r; split; [apply sublist_nil_l|by split]|].
  destruct (bool_decide (pr_reqQueueCap p <= _)); [exists []; rewrite app_nil_r; split; [apply sublist_nil_l|by split]|].
  exists [v]. split; [done|]. assert (prop_inv (enq ++ [v]) (p <| pr_reqQueue ::= λ q, q ++ [v] |> <| pr_reqQueueLength ::= λ l, u64 (l + 1) |>) outs) as Hi.
  { split; cbn; [done| |by apply work_enqueue]. rewrite length_app. cbn. rewrite Nat2Z.inj_add. change (Z.of_nat 1) with 1.
    rewrite <- (u64_small (len enq + 1)) by lia. rewrite <- H2. unfold u64. rewrite Zplus_mod_idemp_l.
    rewrite <- (Zminus_mod_idemp_l (_ + _) 1), Zplus_mod_idemp_r, Zminus_mod_idemp_l. f_equal. lia. }
  cbn [pr_leader pr_id pr_phase1done update eta eta_ParallelProposer] in *. destruct (_ && _); [by apply signal_inv|done].
Qed.

Lemma adu_msg_inv enq p outs m p' : prop_inv enq p outs → demuxerHandleAdvance p m = Ok p' → prop_inv enq p' outs.
Proof.
  intros [H1 H2 H3]. unfold demuxerHandleAdvance. intros (old & _ & Hr)%bind_Ok. apply bind_Ok in Hr as (adus & _ & Hr). injection Hr as <-.
  destruct (forallb _ _); [|by split]. destruct (_ && _); [|by split]. apply signal_inv. by split.
Qed.

(** A processor's new state. *)
Lemma set_inv enq p outs outs' i pp pp' queue p' : prop_inv enq p outs → pr_processors p !! Z.to_nat i = Some pp →
  work_ok n enq (<[Z.to_nat i:=pp']> (pr_processors p)) queue (accepts_of outs') → pr_set p i pp' = Ok p' →
  prop_inv enq (p' <| pr_reqQueue := queue |>) outs' ∧ pr_reqQueue p' = pr_reqQueue p.
Proof.
  intros [H1 H2 H3] Hi Hw. unfold pr_set. intros (ps & Hps & Hr)%bind_Ok. injection Hr as <-. apply slice_set_Ok in Hps as [_ ->]. split; [by split|done].
Qed.

Lemma startPhase1_inv enq p outs p' o : prop_inv enq p outs → demuxerStartPhase1 gm p = (p', o) → prop_inv enq p' (outs ++ o).
Proof. intros [H1 H2 H3] [= <- <-]. split; [done..|]. unfold accepts_of. rewrite omap_app. cbn. rewrite app_nil_r. exact H3. Qed.

Lemma demuxer_inv enq p outs ev p' o : len enq + n < 2 ^ 64 → prop_inv enq p outs →
  match ev with PrTrust _ | PrTick | PrPromise _ | PrRequest _ | PrAdvance _ => True | _ => False end →
  pr_step gm p ev = Ok (p', o) → ∃ e, e `sublist_of` requests [ev] ∧ prop_inv (enq ++ e) p' (outs ++ o).
Proof.
  intros Hb Hi Hev. assert (∀ e q, prop_inv e q outs → prop_inv e q (outs ++ [])) as Hnil by (intros; by rewrite app_nil_r).
  destruct ev as [id|m| |v|slot|k|i k|i|i]; try done; cbn [pr_step].
  - intros [= Hx]. exists []. rewrite app_nil_r. split; [done|]. unfold demuxerHandleTrust in Hx.
    destruct (_ && _); [injection Hx as <- <-; by apply Hnil|].
    assert (prop_inv enq (p <| pr_leader := id |>) outs) as Hi' by (destruct Hi; by split).
    cbn [pr_leader pr_id update eta eta_ParallelProposer] in *. destruct (bool_decide _); [by eapply startPhase1_inv|injection Hx as <- <-; by apply Hnil].
  - intros (p1 & Hx & Hr)%bind_Ok. injection Hr as <- <-. exists []. rewrite app_nil_r. split; [done|]. apply Hnil. by eapply promise_inv.
  - intros [= Hx]. exists []. rewrite app_nil_r. split; [done|]. unfold demuxerHandlePhaseTick in Hx.
    destruct (_ || _); [injection Hx as <- <-; by apply Hnil|by eapply startPhase1_inv].
  - intros [= <- <-]. destruct (request_inv enq p outs v) as (e & He & Hi'); [lia|done|]. exists e. split; [done|by apply Hnil].
  - destruct (pr_advance p !! k) as [msg|]; [|done]. intros (p1 & Hx & Hr)%bind_Ok. injection Hr as <- <-.
    exists []. rewrite app_nil_r. split; [done|]. apply Hnil. eapply adu_msg_inv; [|exact Hx]. destruct Hi; by split.
Qed.

Lemma processor_inv enq p outs ev p' o : len enq + n < 2 ^ 64 → prop_inv enq p outs →
  match ev with PrDecided _ | PrCommand _ _ | PrTake _ | PrBcast _ => True | _ => False end →
  pr_step gm p ev = Ok (p', o) → prop_inv enq p' (outs ++ o).
Proof.
  intros Hb Hi Hev. destruct (pi_work _ _ _ Hi) as [Hl Hp _ _ _].
  assert (∀ i pp, slice_get (pr_processors p) i = Ok pp → pr_processors p !! Z.to_nat i = Some pp) as Hget by by intros i pp [_ ?]%slice_get_Ok.
  destruct ev as [id|m| |v|slot|k|i k|i|i]; try done; cbn [pr_step].
  - destruct (bool_decide _); [done|]. intros (pp & Hg%Hget & Hr)%bind_Ok. destruct (pp_job pp) eqn:Ej; [|done..].
    apply bind_Ok in Hr as ([pp' msgs] & (En & Ej' & Ec)%HandleDecided_keeps & Hr). apply bind_Ok in Hr as (p1 & Hs & Hr). injection Hr as <- <-.
    eapply (set_inv _ _ _ (outs ++ []) _ _ _ (pr_reqQueue p)) in Hs as [[H1 H2 H3] E]; [|done|exact Hg|].
    + cbn in H3. split; cbn; [done|done|]. by rewrite E.
    + rewrite app_nil_r. eapply step_same; [apply Hi|exact Hg| |done|unfold held1; by rewrite Ej'].
      destruct (Hp _ _ Hg) as [P1 P2 P3 P4]. split; rewrite ?En, ?Ec; [done..|]. unfold job_ok. by rewrite Ej', Ej.
  - destruct (bool_decide _); [|done]. intros (pp & Hg%Hget & Hr)%bind_Ok. destruct (pp_job pp) eqn:Ej; [|done..].
    destruct (pp_sendAccepts pp !! k) as [msg|] eqn:Ek; [|done]. apply bind_Ok in Hr as (p1 & Hs & Hr). injection Hr as <- <-.
    eapply (set_inv _ _ _ (outs ++ []) _ _ _ (pr_reqQueue p)) in Hs as [[H1 H2 H3] E]; [|done|exact Hg|].
    + cbn in H3. split; cbn; [done|done|]. by rewrite E.
    + rewrite app_nil_r. eapply step_same; [apply Hi|exact Hg| |done|unfold held1; by rewrite Ej].
      destruct (Hp _ _ Hg) as [P1 P2 P3 P4]. split; cbn; [done..|by apply Forall_delete|]. by eapply Forall_lookup_1 in P3.
  - destruct (bool_decide _); [|done]. intros (pp & Hg%Hget & Hr)%bind_Ok. destruct (pp_job pp) as [|m|] eqn:Ej; [done| |done].
    destruct (send_work n _ _ _ _ _ _ _ (pr_id p) _ (pi_work _ _ _ Hi) Hg Ej eq_refl) as (pp' & q & E & Hw). rewrite E in Hr.
    cbn [mbind res_bind] in Hr. apply bind_Ok in Hr as (p1 & Hs & Hr). injection Hr as <- <-.
    eapply (set_inv _ _ _ (outs ++ [])) in Hs as [Hs _]; [exact Hs|done|exact Hg|]. by rewrite app_nil_r.
  - destruct (bool_decide _); [|done]. intros (pp & Hg%Hget & Hr)%bind_Ok. destruct (pp_job pp) as [| |m a] eqn:Ej; [done..|].
    apply bind_Ok in Hr as (p1 & Hs & Hr). injection Hr as <- <-. rewrite (pi_n _ _ _ Hi) in Hs.
    eapply (set_inv _ _ _ (outs ++ [PrAccept a]) _ _ _ (pr_reqQueue p)) in Hs as [[H1 H2 H3] E]; [|done|exact Hg|].
    + cbn in H3. split; cbn; [done|done|]. by rewrite E.
    + unfold accepts_of. rewrite omap_app. apply sent_work; [done|done|apply Hi|done|done].
Qed.

Lemma start_inv id leader alpha runProp p : NewParallelProposer id leader n alpha runProp = Ok p → prop_inv [] (Start p) [].
Proof.
  unfold NewParallelProposer. destruct (_ || _); [done|]. intros [= <-]. split; [done..|].
  assert (∀ q l, held (startProcessor q <$> l) = []) as Hh by (intros q l; induction l as [|x l IH]; [done|exact IH]).
  split; cbn [Start accepts_of omap list_omap app pr_processors pr_reqQueue pr_numProcessors update eta eta_ParallelProposer].
  - rewrite length_fmap. unfold range. rewrite length_seqZ. lia.
  - intros i pp Hi. rewrite list_lookup_fmap in Hi. apply fmap_Some in Hi as (x & Hx & ->). unfold range in Hx. apply lookup_seqZ in Hx as [-> Hx].
    unfold startProcessor. cbn [pr_numProcessors pr_adu]. rewrite Z.mod_0_l by lia. cbn [Z.sub Z.add Z.opp].
    rewrite (bool_decide_eq_true_2 (0 = 0)) by done. cbn [negb orb andb].
    case_bool_decide; (split; cbn; [lia| |done|done]); [rewrite Z_mod_same_full; lia|rewrite Z.mod_small; lia].
  - by rewrite Hh.
  - rewrite Hh. constructor.
  - by intros a ?%elem_of_nil.
Qed.
End invariant.

Lemma run_prop_inv {G} `{GroupManager G} (gm : G) (n : Z) id leader alpha runProp p0 evs p outs : 1 ≤ n → len (requests evs) + n < 2 ^ 64 →
  NewParallelProposer id leader n alpha runProp = Ok p0 → run (pr_step gm) (Start p0) evs p outs →
  ∃ enq, enq `sublist_of` requests evs ∧ prop_inv n enq p outs.
Proof.
  intros Hn Hb Hnew Hr. induction Hr as [|evs p1 o1 ev p2 o2 Hr IH Hs]; [exists []; split; [done|by eapply start_inv]|].
  unfold requests in *. rewrite omap_app, length_app in *. destruct IH as (enq & Hsub & Hi); [lia|].
  assert (len enq + n < 2 ^ 64) as Hb' by (apply sublist_length in Hsub; lia).
  destruct (match ev with PrTrust _ | PrTick | PrPromise _ | PrRequest _ | PrAdvance _ => true | _ => false end) eqn:Eev.
  - destruct (demuxer_inv gm n Hn enq p1 o1 ev p2 o2) as (e & He & Hi'); [done..|by destruct ev|done|]. exists (enq ++ e). split; [by apply sublist_app|done].
  - assert (prop_inv n enq p2 (o1 ++ o2)) by (apply (processor_inv gm n Hn enq p1 o1 ev); [done..|by destruct ev|done]). exists enq. split; [by apply sublist_inserts_r|done].
Qed.

(** C31: The proposer of parallel Paxos proposes each value that it was asked to
    propose at most once, and no other value; no two accepts have the same slot,
    and the slots start at 1 and are at most as many as the requests. A
    processor that is told to send finds a value in the queue, however the
    processors interleave, so that [SendAccepts] does not panic. *)
Theorem values_proposed_once (G : Type) (GM : GroupManager G) (gm : G) (id leader : ID) (n alpha : Z) (runProp : bool) (p0 p : ParallelProposer)
    (evs : list PrEvent) (outs : list PrOut) :
  1 ≤ n → len (requests evs) + n < 2 ^ 64 →
  NewParallelProposer id leader n alpha runProp = Ok p0 → run (pr_step gm) (Start p0) evs p outs →
  (acc_Val <$> accepts_of outs) ⊆+ requests evs ∧
  NoDup (acc_Slot <$> accepts_of outs) ∧ (∀ a, a ∈ accepts_of outs → 1 ≤ acc_Slot a ≤ len (requests evs)) ∧
  ∀ i, pr_step gm p (PrTake i) ≠ Panic.
Proof.
  intros Hn Hb Hnew Hr. destruct (run_prop_inv _ _ _ _ _ _ _ _ _ _ Hn Hb Hnew Hr) as (enq & Hsub & [H1 H2 Hw]).
  pose proof (sublist_length _ _ Hsub) as Hlen. split_and!.
  - apply sublist_submseteq in Hsub. rewrite <- Hsub, <- (wo_perm _ _ _ _ _ Hw), fmap_app. apply submseteq_inserts_r, submseteq_inserts_r. done.
  - pose proof (wo_nodup _ _ _ _ _ Hw) as Hnd. rewrite fmap_app in Hnd. by apply NoDup_app in Hnd as [? _].
  - intros a Ha. destruct (wo_done _ _ _ _ _ Hw a Ha) as [? _]. lia.
  - intros i. cbn [pr_step]. destruct (bool_decide_reflect (0 <= i < len (pr_processors p))) as [Hi|]; [|done].
    destruct (slice_get_total (pr_processors p) i Hi) as [pp Hp]. rewrite Hp. cbn [mbind res_bind]. destruct (pp_job pp) as [|m|] eqn:Ej; [done| |done].
    apply slice_get_Ok in Hp as [_ Hp]. destruct (send_work n _ _ _ _ _ _ _ (pr_id p) _ Hw Hp Ej eq_refl) as (pp' & q & E & _). rewrite E.
    cbn [mbind res_bind]. unfold pr_set. destruct (slice_set_total (pr_processors p) i pp' Hi) as [ps Hps]. by rewrite Hps.
Qed.

(** * A change of leader *)

Definition pr_start (id leader : Z) : ParallelProposer :=
  match NewParallelProposer (ex_id id) (ex_id leader) 2 3 true with Ok p => Start p | _ => Start (mkPPr (ex_id id) (ex_id leader) 0 ZeroRound 0 [] 0 0 [] 0 false 0 [] 0 false false [] []) end.
Definition pr_end (id leader : Z) (evs : list PrEvent) : ParallelProposer * list PrOut :=
  default (pr_start id leader, []) (run_exec (pr_step (ex_gm id)) (pr_start id leader) evs).
(** Phase 1 with the promises of two acceptors, a request, and the accept that a processor sends for slot 1. *)
Definition pr_lead (first : PrEvent) (promises : list Promise) (v : Value) : list PrEvent :=
  [first] ++ (PrPromise <$> promises) ++ [PrRequest v; PrCommand 1 1; PrTake 1; PrBcast 1].

Definition ow_prepare (l : Z) : Prepare := mkPrepare (ex_id l) (ex_rnd 2 l) l.
Definition ow_accept (l : Z) : Accept := mkAccept (ex_id l) 1 (ex_rnd 2 l) (ex_val l).
(** The second leader's promises report the first one's accept. *)
Definition ow_promise (l i : Z) : Promise :=
  mkPromise (ex_id i) (ex_rnd 2 l) (if bool_decide (l = 0) then [] else [mkAcceptorSlot 1 (ex_rnd 2 0) (ex_val 0)]) [].
Definition ow_lead (l : Z) (first : PrEvent) : list PrEvent := pr_lead first (ow_promise l <$> [0; 1]) (ex_val l).
Definition ow_acceptor_evs : list PAEvent := [0; 1] ≫= λ l, [PAPrepare (ow_prepare l); PAAccept (ow_accept l)] ++ replicate 6 (PATask 0).
Definition ow_outs (i : Z) : list PAOut := [0; 1] ≫= λ l, [PAPromise (ex_id l) (ow_promise l i); PALearn (pa_lrn i l l)].

(** C32: A new leader of parallel Paxos overwrites a decision. Replica 0 leads,
    and acceptors 0 and 1 accept its value for slot 1, so that a learner with
    their learns delivers it. Replica 1, whose learner has told it that slot 1 is
    decided, becomes the leader: the promises that it gets report the value, but
    it proposes its own first request in slot 1. The acceptors accept this, and
    a learner with these learns only delivers the other value. *)
Theorem new_leader_overwrites :
  ∃ p0 p1 a0 a1 pl0 pl1,
    run (pr_step (ex_gm 0)) (pr_start 0 0) (ow_lead 0 PrTick) p0 [PrPrepare (ow_prepare 0); PrAccept (ow_accept 0)] ∧
    run (pr_step (ex_gm 1)) (pr_start 1 0) ([PrDecided 1; PrAdvance 0] ++ ow_lead 1 (PrTrust (ex_id 1))) p1
      [PrPrepare (ow_prepare 1); PrAccept (ow_accept 1)] ∧
    run pa_step (pa_new 0) ow_acceptor_evs a0 (ow_outs 0) ∧ run pa_step (pa_new 1) ow_acceptor_evs a1 (ow_outs 1) ∧
    run (pl_step (ex_gm 0) 3) (NewParallelLearner 3) (torn_learn_evs [pa_lrn 0 0 0; pa_lrn 1 0 0]) pl0 [(1, ex_val 0)] ∧
    run (pl_step (ex_gm 0) 3) (NewParallelLearner 3) (torn_learn_evs [pa_lrn 0 1 1; pa_lrn 1 1 1]) pl1 [(1, ex_val 1)].
Proof.
  exists (pr_end 0 0 (ow_lead 0 PrTick)).1, (pr_end 1 0 ([PrDecided 1; PrAdvance 0] ++ ow_lead 1 (PrTrust (ex_id 1)))).1,
    (pa_end 0 ow_acceptor_evs).1, (pa_end 1 ow_acceptor_evs).1, (torn_end [pa_lrn 0 0 0; pa_lrn 1 0 0]).1, (torn_end [pa_lrn 0 1 1; pa_lrn 1 1 1]).1.
  split_and!; apply run_exec_run; vm_compute; reflexivity.
Qed.

Lemma values_proposed_once_witness :
  NoDup (acc_Slot <$> accepts_of (pr_end 0 0 (ow_lead 0 PrTick)).2) ∧
  accepts_of (pr_end 0 0 (ow_lead 0 PrTick)).2 = [ow_accept 0].
Proof.
  assert (run (pr_step (ex_gm 0)) (pr_start 0 0) (ow_lead 0 PrTick) (pr_end 0 0 (ow_lead 0 PrTick)).1 (pr_end 0 0 (ow_lead 0 PrTick)).2) as Hr
    by (apply run_exec_run; vm_compute; reflexivity).
  split; [|vm_compute; reflexivity].
  destruct (NewParallelProposer (ex_id 0) (ex_id 0) 2 3 true) as [p0| |] eqn:Enew; [|vm_compute in Enew; discriminate Enew..].
  assert (pr_start 0 0 = Start p0) as Estart by (unfold pr_start; rewrite Enew; reflexivity). rewrite Estart in Hr.
  apply (values_proposed_once GrpMgr _ (ex_gm 0) (ex_id 0) (ex_id 0) 2 3 true p0 (pr_end 0 0 (ow_lead 0 PrTick)).1 (ow_lead 0 PrTick)
    (pr_end 0 0 (ow_lead 0 PrTick)).2); [lia|vm_compute; reflexivity|exact Enew|exact Hr].
Defined.
