(* ===== verification/ClientHandler.v ===== *)
(** A replica's client handler (src/client/srv_clienthandler_tcp.go and
    srv_clientconn.go): the handshake of new connections, redirects to the
    leader, the memory of each client's last reply, and what all of it means
    for how often a request is executed.

    The connection of a client is a pointer that the handler's map and the
    goroutine that serves it share; here connections are numbers and their
    [connected] flags a map. The protocol name is the one of the configuration,
    trimmed and in lower case. *)
From S2P Require Import Prelude Grp PaxosTypes Kvs Server Replica.

(** * State *)

Definition allowDirect : list string := ["fastpaxos"; "batchpaxos"]%string.

Record ClientHandlerTCP := mkCH {
  ch_id : ID; ch_leader : ID; ch_paxosType : string;
  ch_clients : gmap string nat; ch_replies : gmap string Response; ch_connected : gmap nat bool }.
#[export] Instance eta_ClientHandlerTCP : Eta ClientHandlerTCP := λ r,
  mkCH (ch_id r) (ch_leader r) (ch_paxosType r) (ch_clients r) (ch_replies r) (ch_connected r).

Definition NewClientHandlerTCP (id leader : ID) (paxosType : string) : ClientHandlerTCP :=
  mkCH id leader paxosType ∅ ∅ ∅.

(** What the handler sends: requests to the server, responses to connections
    (in the handshake, or queued by [WriteAsync]). *)
Inductive CHOut :=
| CHPropose (req : Request)
| CHQueue (req : Request)                  (* reqChan *)
| CHWrite (c : nat) (resp : Response)
| CHGreet (c : nat) (resp : Response)
| CHClose (c : nat).

Inductive CHEvent :=
| CHTrust (id : ID)
| CHRequest (req : Request)
| CHResponse (resp : Response)
| CHHold                                   (* a hold of the group manager, until its release *)
| CHAccept (c : nat) (hello : option Request) (written : bool)   (* greetClient: what read and write return *)
| CHRead (c : nat) (req : option Request)  (* the serving goroutine read a request, or an error *)
| CHWriteEOF (c : nat).                    (* writing a response failed with EOF *)

(** * Operations *)

Definition rs_GetId (r : Response) : string := default ""%string (rs_Id r).
Definition rs_GetSeq (r : Response) : Z := default 0 (rs_Seq r).

Definition genResp (rt : Z) (value : bytes) : Response := zero_Response <| rs_Type := Some rt |> <| rs_Val := value |>.
Definition genErrResp (rt ec : Z) (err : string) : Response :=
  zero_Response <| rs_Type := Some rt |> <| rs_ErrorCode := Some ec |> <| rs_ErrorDetail := Some err |>.

Section handler.
Context {G : Type} `{GroupManager G} (gm : G).
Implicit Types ch : ClientHandlerTCP.

Definition redirect ch : bool := bool_decide (ch_id ch ≠ ch_leader ch) && bool_decide (ch_paxosType ch ∉ allowDirect).

Definition getPaxosType ch : Z :=
  if bool_decide (ch_paxosType ch = "batchpaxos"%string) then 3
  else if bool_decide (ch_paxosType ch = "fastpaxos"%string) then 2
  else if bool_decide (ch_paxosType ch = "multipaxos"%string) then 1
  else 0.

Definition closeConn ch (c : nat) : ClientHandlerTCP := ch <| ch_connected ::= <[c := false]> |>.
Definition connected ch (c : nat) : bool := default false (ch_connected ch !! c).

(** The connection of a client, if it has one that is up. *)
Definition client_conn ch (id : string) : option nat :=
  c ← ch_clients ch !! id; if connected ch c then Some c else None.

Definition greetClient ch (c : nat) (hello : option Request) (written : bool) : ClientHandlerTCP * list CHOut :=
  match hello with
  | None => (ch, [CHClose c])
  | Some req =>
      if bool_decide (GetType req ≠ Request_HELLO) then (ch, [CHClose c])
      else
        let '(leader, found) := LookupNode (gm_NodeMap gm) (ch_leader ch) in
        if redirect ch && found then
          (ch, [CHGreet c (genErrResp Response_HELLO_RESP Response_REDIRECT (ClientAddr leader)); CHClose c])
        else if IsIDInvalid req then (ch, [CHClose c])
        else
          let resp := (genResp Response_HELLO_RESP []) <| rs_Protocol := Some (getPaxosType ch) |> in
          if written then
            (ch <| ch_connected ::= <[c := true]> |> <| ch_clients ::= <[GetId req := c]> |>, [CHGreet c resp])
          else (ch, [CHGreet c resp; CHClose c])
  end.

Definition ch_handleRequest ch (req : Request) : list CHOut :=
  if redirect ch then
    let '(leader, found) := LookupNode (gm_NodeMap gm) (ch_leader ch) in
    if negb found then []
    else
      match client_conn ch (GetId req) with
      | Some c => [CHWrite c (genErrResp Response_EXEC_RESP Response_REDIRECT (ClientAddr leader))]
      | None => []
      end
  else if bool_decide (GetType req ≠ Request_EXEC) then []
  else
    match ch_replies ch !! GetId req with
    | Some lastReply =>
        if bool_decide (GetSeq req = rs_GetSeq lastReply) then
          match client_conn ch (GetId req) with Some c => [CHWrite c lastReply] | None => [] end
        else [CHPropose req]
    | None => [CHPropose req]
    end.

Definition handleResponse ch (resp : Response) : ClientHandlerTCP * list CHOut :=
  match client_conn ch (rs_GetId resp) with
  | Some cc => (ch <| ch_replies ::= <[rs_GetId resp := resp]> |>, [CHWrite cc resp])
  | None => (ch, [])
  end.

(** After the hold is released. *)
Definition handleGrpHold ch : ClientHandlerTCP :=
  let leader := bool_decide (ch_id ch = ch_leader ch) in
  let ch := ch <| ch_id := gm_GetID gm |> in
  if leader then ch <| ch_leader := ch_id ch |> else ch.

(** One round of [Serve]: the connection is closed when the read fails or the
    identifier is invalid. *)
Definition Serve ch (c : nat) (req : option Request) : ClientHandlerTCP * list CHOut :=
  match req with
  | None => (closeConn ch c, [CHClose c])
  | Some req => if IsIDInvalid req then (closeConn ch c, [CHClose c]) else (ch, [CHQueue req])
  end.

Definition ch_step ch (ev : CHEvent) : res (ClientHandlerTCP * list CHOut) :=
  Ok match ev with
     | CHTrust id => (ch <| ch_leader := id |>, [])
     | CHRequest req => (ch, ch_handleRequest ch req)
     | CHResponse resp => handleResponse ch resp
     | CHHold => (handleGrpHold ch, [])
     | CHAccept c hello written => greetClient ch c hello written
     | CHRead c req => Serve ch c req
     | CHWriteEOF c => (closeConn ch c, [CHClose c])
     end.
End handler.

(** * Runs *)

Definition proposed (outs : list CHOut) : list Request := omap (λ o, match o with CHPropose r => Some r | _ => None end) outs.
Definition requested (evs : list CHEvent) : list Request := omap (λ ev, match ev with CHRequest r => Some r | _ => None end) evs.
Lemma proposed_app o1 o2 : proposed (o1 ++ o2) = proposed o1 ++ proposed o2.
Proof. apply omap_app. Qed.
Lemma requested_app e1 e2 : requested (e1 ++ e2) = requested e1 ++ requested e2.
Proof. apply omap_app. Qed.

(** The sequence numbers of a client's requests. *)
Definition seqs_of (id : string) (reqs : list Request) : list Z := GetSeq <$> filter (λ r, GetId r = id) reqs.
Lemma seqs_of_app id r1 r2 : seqs_of id (r1 ++ r2) = seqs_of id r1 ++ seqs_of id r2.
Proof. unfold seqs_of. by rewrite filter_app, fmap_app. Qed.
Lemma elem_of_seqs_of id reqs n : n ∈ seqs_of id reqs ↔ ∃ r, r ∈ reqs ∧ GetId r = id ∧ GetSeq r = n.
Proof.
  unfold seqs_of. rewrite list_elem_of_fmap. setoid_rewrite list_elem_of_filter. naive_solver.
Qed.

Section runs.
Context {G : Type} `{GroupManager G} (gm : G).
Implicit Types ch : ClientHandlerTCP.

Lemma client_conn_Some ch id c : client_conn ch id = Some c → ch_clients ch !! id = Some c.
Proof. unfold client_conn. destruct (ch_clients ch !! id); cbn; [case_match|]; naive_solver. Qed.

(** What a step proposes. *)
Lemma step_proposed ch ev ch' outs :
  ch_step gm ch ev = Ok (ch', outs) →
  proposed outs = [] ∨ ∃ req, ev = CHRequest req ∧ proposed outs = [req] ∧ GetType req = Request_EXEC ∧
    redirect ch = false ∧ ∀ r, ch_replies ch !! GetId req = Some r → GetSeq req ≠ rs_GetSeq r.
Proof.
  intros [= Hs]. destruct ev as [id|req|resp| |c hello w|c req|c].
  - injection Hs as <- <-. by left.
  - injection Hs as <- <-. unfold ch_handleRequest. destruct (redirect ch) eqn:Hr.
    { left. destruct (LookupNode _ _) as [leader found]. destruct found; [|done]. cbn [negb]. by case_match. }
    case_bool_decide as Ht; [by left|]. destruct (ch_replies ch !! GetId req) as [r|] eqn:El.
    + case_bool_decide as Hq; [left; by case_match|right]. exists req. split_and!; try done. intros r'. rewrite El. by intros [= <-].
    + right. exists req. split_and!; try done. intros r'. by rewrite El.
  - left. unfold handleResponse in Hs. case_match; by injection Hs as <- <-.
  - injection Hs as <- <-. by left.
  - left. unfold greetClient in Hs. repeat case_match; by injection Hs as <- <-.
  - left. unfold Serve in Hs. repeat case_match; by injection Hs as <- <-.
  - injection Hs as <- <-. by left.
Qed.

(** A client that repeats a request only once its reply is remembered. *)
Definition polite (id : string) ch0 (evs : list CHEvent) : Prop :=
  ∀ evs1 req evs2 ch outs, evs = evs1 ++ CHRequest req :: evs2 → run (ch_step gm) ch0 evs1 ch outs → GetId req = id →
    GetSeq req ∈ seqs_of id (requested evs1) → ∃ r, ch_replies ch !! id = Some r ∧ rs_GetSeq r = GetSeq req.

Lemma polite_proposed id ch0 evs ch outs :
  run (ch_step gm) ch0 evs ch outs → polite id ch0 evs →
  NoDup (seqs_of id (proposed outs)) ∧ ∀ n, n ∈ seqs_of id (proposed outs) → n ∈ seqs_of id (requested evs).
Proof.
  intros Hr. induction Hr as [|evs ch outs ev ch' o Hr IH Hs]; intros Hp; [split; [constructor|done]|].
  destruct IH as [Nd Sub].
  { intros evs1 req evs2 ch1 outs1 ->. apply (Hp evs1 req (evs2 ++ [ev])). by rewrite <- app_assoc. }
  rewrite proposed_app, requested_app, !seqs_of_app. apply step_proposed in Hs as [->|(req & -> & -> & _ & _ & Hq)].
  { rewrite app_nil_r. split; [done|]. intros n Hn. rewrite elem_of_app. left. by apply Sub. }
  change (requested [CHRequest req]) with [req].
  destruct (decide (GetId req = id)) as [E|Hne].
  - assert (seqs_of id [req] = [GetSeq req]) as Es by (unfold seqs_of; by rewrite filter_cons_True by done).
    rewrite Es. split.
    + apply NoDup_app. split_and!; [done| |apply NoDup_singleton]. intros n Hn ->%list_elem_of_singleton.
      destruct (Hp evs req [] ch outs eq_refl Hr E) as (r & Hl & Er); [by apply Sub|]. rewrite <- E in Hl.
      by apply (Hq r Hl).
    + intros n. rewrite !elem_of_app. naive_solver.
  - assert (seqs_of id [req] = []) as Es by (unfold seqs_of; by rewrite filter_cons_False by done).
    rewrite Es, !app_nil_r. done.
Qed.

(** Where the handler's maps come from. *)
Record ch_inv (evs : list CHEvent) ch : Prop := {
  chi_client id c : ch_clients ch !! id = Some c → ∃ req, CHAccept c (Some req) true ∈ evs ∧ GetId req = id ∧ GetType req = Request_HELLO;
  chi_reply id r : ch_replies ch !! id = Some r → CHResponse r ∈ evs ∧ rs_GetId r = id;
}.

(** A response a connection may be sent: a redirect, or one the server forwarded
    for the client that made the connection. *)
Definition answer_ok (evs : list CHEvent) (c : nat) (resp : Response) : Prop :=
  rs_ErrorCode resp = Some Response_REDIRECT ∨
  CHResponse resp ∈ evs ∧ ∃ req, CHAccept c (Some req) true ∈ evs ∧ GetId req = rs_GetId resp ∧ GetType req = Request_HELLO.

Lemma step_ch_inv evs ch ev ch' outs :
  ch_inv evs ch → ch_step gm ch ev = Ok (ch', outs) →
  ch_inv (evs ++ [ev]) ch' ∧ ∀ c resp, CHWrite c resp ∈ outs → answer_ok (evs ++ [ev]) c resp.
Proof.
  intros [Ic Ir] [= Hs].
  assert (ch_inv (evs ++ [ev]) ch) as HI.
  { split; [intros id c (req & ? & ? & ?)%Ic; exists req; rewrite elem_of_app; auto|].
    intros id r [? ?]%Ir. rewrite elem_of_app. auto. }
  assert (∀ f, ch_clients f = ch_clients ch → ch_replies f = ch_replies ch → ch_inv (evs ++ [ev]) f) as Hsame.
  { intros f E1 E2. split; rewrite ?E1, ?E2; apply HI. }
  destruct ev as [id|req|resp| |c hello w|c req|c].
  - injection Hs as <- <-. split; [by apply Hsame|by intros ? ? ?%elem_of_nil].
  - injection Hs as <- <-. split; [done|]. intros c resp. unfold ch_handleRequest. destruct (redirect ch).
    { destruct (LookupNode _ _) as [leader found]. destruct found; cbn [negb]; [|by intros ?%elem_of_nil].
      destruct (client_conn ch (GetId req)); [|by intros ?%elem_of_nil]. intros [= -> ->]%list_elem_of_singleton. by left. }
    case_bool_decide; [by intros ?%elem_of_nil|]. destruct (ch_replies ch !! GetId req) as [r|] eqn:El.
    + case_bool_decide; [|by intros ?%list_elem_of_singleton].
      destruct (client_conn ch (GetId req)) eqn:Ec; [|by intros ?%elem_of_nil]. intros [= -> ->]%list_elem_of_singleton.
      right. apply client_conn_Some in Ec. destruct (chi_reply _ _ HI _ _ El) as [? E], (chi_client _ _ HI _ _ Ec) as (q & ? & ? & ?).
      split; [done|]. exists q. by rewrite E.
    + by intros ?%list_elem_of_singleton.
  - unfold handleResponse in Hs. destruct (client_conn ch (rs_GetId resp)) as [cc|] eqn:Ec; injection Hs as <- <-.
    + apply client_conn_Some in Ec. split.
      * split; [apply HI|]. cbn. intros id r. destruct (decide (rs_GetId resp = id)) as [<-|].
        -- rewrite lookup_insert_eq. intros [= <-]. split; [|done]. rewrite elem_of_app. right. left.
        -- rewrite lookup_insert_ne by done. apply HI.
      * intros c r [= -> ->]%list_elem_of_singleton. right. split; [rewrite elem_of_app; right; left|].
        by destruct (chi_client _ _ HI _ _ Ec) as (q & ? & ? & ?); exists q.
    + split; [done|by intros ? ? ?%elem_of_nil].
  - injection Hs as <- <-. split; [apply Hsame; unfold handleGrpHold; by case_match|by intros ? ? ?%elem_of_nil].
  - unfold greetClient in Hs. destruct hello as [req|]; [|injection Hs as <- <-; split; [done|by intros ? ? ?%list_elem_of_singleton]].
    assert (∀ (l : list CHOut), Forall (λ o, match o with CHWrite _ _ => False | _ => True end) l →
      ∀ c' r', CHWrite c' r' ∈ l → answer_ok (evs ++ [CHAccept c (Some req) w]) c' r') as Hno.
    { intros l Hl c' r' Hin. rewrite Forall_forall in Hl. by apply Hl in Hin. }
    case_bool_decide as Ht; [injection Hs as <- <-; split; [done|apply Hno; by repeat constructor]|].
    destruct (LookupNode _ _) as [leader found]. destruct (redirect ch && found); [injection Hs as <- <-; split; [done|apply Hno; by repeat constructor]|].
    destruct (IsIDInvalid req); [injection Hs as <- <-; split; [done|apply Hno; by repeat constructor]|].
    destruct w; injection Hs as <- <-; (split; [|apply Hno; by repeat constructor]); [|done].
    split; [|apply HI]. cbn. intros id c'. destruct (decide (GetId req = id)) as [<-|].
    + rewrite lookup_insert_eq. intros [= <-]. exists req. split; [rewrite elem_of_app; right; left|done].
    + rewrite lookup_insert_ne by done. apply HI.
  - unfold Serve in Hs. repeat case_match; injection Hs as <- <-; (split; [by apply Hsame|by intros ? ? ?%list_elem_of_singleton]).
  - injection Hs as <- <-. split; [by apply Hsame|by intros ? ? ?%list_elem_of_singleton].
Qed.
End runs.

(** A client is told nothing but redirects and responses that the server
    forwarded for it: what is written to a connection carries the identifier
    with which that connection said hello. *)
Theorem client_answered_own (G : Type) (GM : GroupManager G) (gm : G) (id leader : ID) (paxosType : string)
    (evs : list CHEvent) (ch : ClientHandlerTCP) (outs : list CHOut) (c : nat) (resp : Response) :
  run (ch_step gm) (NewClientHandlerTCP id leader paxosType) evs ch outs → CHWrite c resp ∈ outs →
  rs_ErrorCode resp = Some Response_REDIRECT ∨
  CHResponse resp ∈ evs ∧ ∃ req, CHAccept c (Some req) true ∈ evs ∧ GetId req = rs_GetId resp ∧ GetType req = Request_HELLO.
Proof.
  intros Hr Hin. change (answer_ok evs c resp). cut (ch_inv evs ch ∧ ∀ c resp, CHWrite c resp ∈ outs → answer_ok evs c resp); [by intros [_ ?]; auto|].
  clear c resp Hin. induction Hr as [|evs ch outs ev ch' o Hr [HI Ha] Hs].
  { split; [by split|by intros ? ? ?%elem_of_nil]. }
  destruct (step_ch_inv gm evs ch ev ch' o HI Hs) as [HI' Ha']. split; [done|].
  intros c resp [Hin|Hin]%elem_of_app; [|by apply Ha']. destruct (Ha c resp Hin) as [?|(? & req & ? & ?)]; [by left|right].
  rewrite elem_of_app. split; [by left|]. exists req. rewrite elem_of_app. auto.
Qed.

(** At most once: for a client that repeats a request only once its reply is
    remembered, the handler passes every request on at most once, and the
    server puts it into at most one place of one value. *)
Theorem polite_client_once (G : Type) (GM : GroupManager G) (gm : G) (A : Type) (AH : AppHandler A)
    (ch0 ch : ClientHandlerTCP) (evs : list CHEvent) (outs : list CHOut) (id leader : ID) (alpha batchMaxSize : Z) (ah : A)
    (sevs : list SvEvent) (s : Server A) (souts : list SOut) (cid : string) :
  run (ch_step gm) ch0 evs ch outs → polite gm cid ch0 evs →
  1 ≤ batchMaxSize < 2 ^ 63 → sv_run (NewServer id leader alpha batchMaxSize ah) sevs s souts → received sevs = proposed outs →
  NoDup (seqs_of cid (mjoin (Cr <$> app_values souts) ++ pending s)).
Proof.
  intros Hr Hp Hm Hs Hrec. destruct (polite_proposed gm cid ch0 evs ch outs Hr Hp) as [Nd _].
  destruct (run_batch (NewServer id leader alpha batchMaxSize ah) sevs s souts) as [P _]; [|done|].
  - split; [cbn; nowrap; lia|]. split; [done|by left].
  - cbn [pending NewServer] in P. unfold seqs_of. rewrite P. rewrite Hrec. exact Nd.
Qed.

(** * Concrete runs *)

Definition cl_gm : GrpMgr := NewGrpMgr (ex_id 0) ex_nodemap false false.
Definition cl_cid : string := "goxos-client-0123456789abcde"%string.
Definition cl_hello : Request := mkRequest (Some Request_HELLO) (Some cl_cid) None [].
Definition cl_req (n : Z) : Request := mkRequest (Some Request_EXEC) (Some cl_cid) (Some n) [n].
Definition cl_resp (n : Z) : Response := genRespForReq (cl_req n) [n].
Definition cl_ch0 : ClientHandlerTCP := NewClientHandlerTCP (ex_id 0) (ex_id 0) "multipaxos".
Definition cl_sv0 : Server Z := NewServer (ex_id 0) (ex_id 0) 3 1 0.
Definition cl_val (n : Z) : Value := mkValue App [cl_req n] None.

(** The client says hello, sends a request, sends it again before it is
    answered, and is answered twice. *)
Definition cl_evs : list CHEvent :=
  [CHAccept 1 (Some cl_hello) true; CHRequest (cl_req 7); CHRequest (cl_req 7); CHResponse (cl_resp 7); CHResponse (cl_resp 7)].
Definition cl_sevs : list SvEvent :=
  [SvReq (cl_req 7); SvReq (cl_req 7); SvDecided (cl_val 7) srv_net; SvDecided (cl_val 7) srv_net].

(** Requests are not executed at most once: the handler remembers a request
    only when it is answered, so one that a client sends again before that is
    proposed twice, decided twice, and changes the application twice. *)
Theorem resend_executes_twice :
  ∃ ch outs s souts,
    run (ch_step cl_gm) cl_ch0 cl_evs ch outs ∧ requested cl_evs = [cl_req 7; cl_req 7] ∧
    sv_run (H := echo_App) cl_sv0 cl_sevs s souts ∧ received cl_sevs = proposed outs ∧
    decided_vals cl_sevs = app_values souts ∧
    omap (λ ev, match ev with CHResponse r => Some r | _ => None end) cl_evs = responses souts ∧
    sv_ah s = 2.
Proof.
  destruct (run_exec (ch_step cl_gm) cl_ch0 cl_evs) as [[ch outs]|] eqn:E; [|exfalso; revert E; vm_compute; discriminate].
  destruct (sv_exec (H := echo_App) cl_sv0 cl_sevs) as [[s souts]|] eqn:Es; [|exfalso; revert Es; vm_compute; discriminate].
  exists ch, outs, s, souts. split; [by apply run_exec_run|]. split; [reflexivity|]. split; [by apply sv_exec_run|].
  revert E Es. vm_compute. intros [= <- <-] [= <- <-]. split_and!; reflexivity.
Qed.

Lemma client_answered_own_witness :
  ∃ ch outs, run (ch_step cl_gm) cl_ch0 cl_evs ch outs ∧ CHWrite 1 (cl_resp 7) ∈ outs ∧
    (rs_ErrorCode (cl_resp 7) = Some Response_REDIRECT ∨
     CHResponse (cl_resp 7) ∈ cl_evs ∧
     ∃ req, CHAccept 1 (Some req) true ∈ cl_evs ∧ GetId req = rs_GetId (cl_resp 7) ∧ GetType req = Request_HELLO).
Proof.
  destruct (run_exec (ch_step cl_gm) cl_ch0 cl_evs) as [[ch outs]|] eqn:E; [|exfalso; revert E; vm_compute; discriminate].
  assert (CHWrite 1 (cl_resp 7) ∈ outs) as Hin by (revert E; vm_compute; intros [= <- <-]; repeat (left || right)).
  apply run_exec_run in E. exists ch, outs. split; [exact E|]. split; [exact Hin|].
  apply (client_answered_own GrpMgr _ cl_gm (ex_id 0) (ex_id 0) "multipaxos" cl_evs ch outs 1 (cl_resp 7)); [exact E|exact Hin].
Defined.

(** A client that waits for its reply, repeats the request, and sends the next. *)
Definition cl_polite : list CHEvent :=
  [CHAccept 1 (Some cl_hello) true; CHRequest (cl_req 7); CHResponse (cl_resp 7); CHRequest (cl_req 7); CHRequest (cl_req 8)].

Lemma cl_polite_ok : polite cl_gm cl_cid cl_ch0 cl_polite.
Proof.
  intros evs1 req evs2 ch outs He Hr _ Hseq.
  apply run_run_exec in Hr. unfold cl_polite in He.
  destruct evs1 as [|e1 [|e2 [|e3 [|e4 [|e5 evs1]]]]]; injection He; clear He; intros; subst; try done;
    try (by apply elem_of_nil in Hseq); try (by destruct evs1).
  - revert Hr. vm_compute. intros [= <- <-]. eexists. split; reflexivity.
  - vm_compute in Hseq. repeat (apply elem_of_cons in Hseq as [?|Hseq]; [done|]). by apply elem_of_nil in Hseq.
Qed.

Lemma polite_client_once_witness :
  ∃ ch outs s souts, run (ch_step cl_gm) cl_ch0 cl_polite ch outs ∧
    sv_run (H := echo_App) cl_sv0 [SvReq (cl_req 7); SvReq (cl_req 8)] s souts ∧
    seqs_of cl_cid (mjoin (Cr <$> app_values souts) ++ pending s) = [7; 8] ∧
    NoDup (seqs_of cl_cid (mjoin (Cr <$> app_values souts) ++ pending s)).
Proof.
  destruct (run_exec (ch_step cl_gm) cl_ch0 cl_polite) as [[ch outs]|] eqn:E; [|exfalso; revert E; vm_compute; discriminate].
  destruct (sv_exec (H := echo_App) cl_sv0 [SvReq (cl_req 7); SvReq (cl_req 8)]) as [[s souts]|] eqn:Es; [|exfalso; revert Es; vm_compute; discriminate].
  assert (received [SvReq (cl_req 7); SvReq (cl_req 8)] = proposed outs) as Hrec by (revert E; vm_compute; by intros [= <- <-]).
  assert (seqs_of cl_cid (mjoin (Cr <$> app_values souts) ++ pending s) = [7; 8]) as Hq by (revert Es; vm_compute; by intros [= <- <-]).
  apply run_exec_run in E. apply sv_exec_run in Es. exists ch, outs, s, souts. split_and!; [exact E|exact Es|exact Hq|].
  apply (polite_client_once GrpMgr _ cl_gm Z echo_App cl_ch0 ch cl_polite outs (ex_id 0) (ex_id 0) 3 1 0
    [SvReq (cl_req 7); SvReq (cl_req 8)] s souts cl_cid); [exact E|apply cl_polite_ok|lia|exact Es|exact Hrec].
Defined.
