(* ===== verification/ClientIO.v ===== *)
(** The client library's messages on a connection (src/client/ioutils.go), which
    replicas read in the same way, and its identifiers (id.go). *)
From S2P Require Import Prelude Grp PaxosTypes Bcast Server ClientHandler.

(** * Frames *)

Definition i32 (z : Z) : Z := let r := z `mod` 2 ^ 32 in if bool_decide (r < 2 ^ 31) then r else r - 2 ^ 32.

(** [binary.LittleEndian] *)
Fixpoint le_bytes (n : nat) (x : Z) : bytes :=
  match n with O => [] | S n => x `mod` 256 :: le_bytes n (x `div` 256) end.
Fixpoint le_word (bs : bytes) : Z :=
  match bs with [] => 0 | b :: bs => b + 256 * le_word bs end.

(** What reading finds: a message and the rest of the stream, or an error of the
    connection (the stream ends) or of the message. *)
Inductive ReadResult (M : Type) := ReadMsg (m : M) (rest : bytes) | ReadError (rest : bytes).
Arguments ReadMsg {M} m rest.
Arguments ReadError {M} rest.

Section frames.
(** goprotobuf's encoding of the message type. *)
Context {M : Type} (Marshal : M → option bytes) (Unmarshal : bytes → option M).

(** The bytes that a message adds to the stream; none when it has no encoding.
    A write that fails closes the stream. *)
Definition write (msg : M) : option bytes :=
  buffer ← Marshal msg; Some (le_bytes 4 (i32 (len buffer)) ++ buffer).

(** A slice of a negative size panics. *)
Definition read (stream : bytes) : res (ReadResult M) :=
  if bool_decide (len stream < 4) then Ok (ReadError [])
  else
    let size := i32 (le_word (take 4 stream)) in
    let stream := drop 4 stream in
    if bool_decide (size < 0) then Panic
    else if bool_decide (len stream < size) then Ok (ReadError [])
    else
      let rest := drop (Z.to_nat size) stream in
      Ok (match Unmarshal (take (Z.to_nat size) stream) with Some msg => ReadMsg msg rest | None => ReadError rest end).

(** A reader's loop, as long as it finds messages. *)
Fixpoint read_all (n : nat) (stream : bytes) : res (list M * bytes) :=
  match n with
  | O => Ok ([], stream)
  | S n =>
      r ← read stream;
      match r with
      | ReadMsg msg rest => '(ms, rest) ← read_all n rest; mret (msg :: ms, rest)
      | ReadError rest => mret ([], rest)
      end
  end.
End frames.

(** * Identifiers *)

Definition base64_table : string := "ABCDEFGHIJKLMNOPQRSTUVWXYZabcdefghijklmnopqrstuvwxyz0123456789+/".
Definition b64 (x : Z) : Ascii.ascii := default Ascii.zero (String.get (Z.to_nat x) base64_table).

(** [base64.StdEncoding.EncodeToString] *)
Fixpoint base64 (bs : bytes) : string :=
  match bs with
  | [] => ""
  | [a] => String (b64 (a `div` 4)) (String (b64 (a `mod` 4 * 16)) "==")
  | [a; b] => String (b64 (a `div` 4)) (String (b64 (a `mod` 4 * 16 + b `div` 16)) (String (b64 (b `mod` 16 * 4)) "="))
  | a :: b :: c :: bs =>
      String (b64 (a `div` 4)) (String (b64 (a `mod` 4 * 16 + b `div` 16))
        (String (b64 (b `mod` 16 * 4 + c `div` 64)) (String (b64 (c `mod` 64)) (base64 bs))))
  end.

Definition randbits : Z := 64.

(** What the system says of the host's name, the time and random bytes. *)
Definition generateID (hostname nowAsGob rb : option bytes) : option string :=
  hostname ← hostname;
  nowAsGob ← nowAsGob;
  rb ← rb;
  if bool_decide (len rb ≠ randbits `div` 8) then None
  else Some (base64 (sha1 (hostname ++ nowAsGob ++ rb))).

(** The first message of [exchangeID]. *)
Definition hello (id : string) : Request := mkRequest (Some Request_HELLO) (Some id) None [].

Example base64_rfc : base64 <$> (str_bytes <$> ["f"; "fo"; "foo"; "foob"]%string) = ["Zg=="; "Zm8="; "Zm9v"; "Zm9vYg=="]%string.
Proof. reflexivity. Qed.

(** * Round trip *)

Lemma length_le_bytes n x : length (le_bytes n x) = n.
Proof. revert x. induction n; intros x; cbn; auto. Qed.
Lemma le_word_bytes n x : le_word (le_bytes n x) = x `mod` 256 ^ Z.of_nat n.
Proof.
  revert x. induction n as [|n IH]; intros x; [cbn; by rewrite Z.mod_1_r|]. cbn [le_bytes le_word]. rewrite IH.
  replace (256 ^ Z.of_nat (S n)) with (256 * 256 ^ Z.of_nat n) by (rewrite Nat2Z.inj_succ, Z.pow_succ_r; lia).
  rewrite Z.rem_mul_r; lia.
Qed.
Lemma i32_small z : 0 ≤ z < 2 ^ 31 → i32 z = z.
Proof. intros. unfold i32. rewrite Z.mod_small by lia. by rewrite bool_decide_eq_true_2 by lia. Qed.

Section roundtrip.
Context {M : Type} (Marshal : M → option bytes) (Unmarshal : bytes → option M).
Hypothesis decode_encode : ∀ m b, Marshal m = Some b → Unmarshal b = Some m.

Lemma read_write msg b rest : Marshal msg = Some b → len b < 2 ^ 31 →
  ∃ s, write Marshal msg = Some s ∧ read Unmarshal (s ++ rest) = Ok (ReadMsg msg rest).
Proof.
  intros Hm Hl. exists (le_bytes 4 (len b) ++ b). unfold write. rewrite Hm. cbn [mbind option_bind]. rewrite i32_small by lia. split; [done|].
  unfold read. rewrite bool_decide_eq_false_2 by (rewrite !length_app, length_le_bytes; lia). rewrite <- (assoc_L (++)).
  rewrite take_app_length', drop_app_length' by (by rewrite length_le_bytes). rewrite le_word_bytes, Z.mod_small by lia. rewrite i32_small by lia.
  rewrite bool_decide_eq_false_2 by lia. rewrite bool_decide_eq_false_2 by (rewrite length_app; lia).
  rewrite Nat2Z.id, take_app_length, drop_app_length. by rewrite (decode_encode msg).
Qed.
End roundtrip.

(** C21: What is written to a connection is read from it: after any messages
    with encodings below 2 GB, a reader gets the same messages in the same order,
    and is left with what follows them. *)
Theorem frames_roundtrip (M : Type) (Marshal : M → option bytes) (Unmarshal : bytes → option M) (ms : list M) (ss : list bytes) (rest : bytes) :
  (∀ m b, Marshal m = Some b → Unmarshal b = Some m) →
  Forall (λ m, ∀ b, Marshal m = Some b → len b < 2 ^ 31) ms → mapM (write Marshal) ms = Some ss →
  read_all Unmarshal (length ms) (concat ss ++ rest) = Ok (ms, rest).
Proof.
  intros Hd Hms Hss. apply mapM_Some in Hss. induction Hss as [|m s ms ss Hs _ IH]; [done|]. apply Forall_cons in Hms as [Hm Hms].
  cbn [length read_all concat]. destruct (Marshal m) as [b|] eqn:Em; [|by unfold write in Hs; rewrite Em in Hs].
  destruct (read_write Marshal Unmarshal Hd m b (concat ss ++ rest) Em (Hm b eq_refl)) as (s' & Hs' & Hr).
  rewrite Hs in Hs'. injection Hs' as <-. rewrite <- (assoc_L (++)), Hr. cbn [mbind res_bind]. by rewrite IH.
Qed.

(** Any client can stop a replica: four bytes with the highest bit of the
    last one set are a negative size, for which [read] panics. *)
Theorem negative_size_panics (M : Type) (Unmarshal : bytes → option M) (a b c d : Z) (rest : bytes) :
  Forall (λ x, 0 ≤ x < 256) [a; b; c; d] → 128 ≤ d → read Unmarshal (a :: b :: c :: d :: rest) = Panic.
Proof.
  intros Hb Hd. rewrite !Forall_cons in Hb. cbn beta in Hb. destruct Hb as (Ha & Hb & Hc & Hd' & _). unfold read.
  rewrite bool_decide_eq_false_2 by (cbn; lia). cbn [take le_word]. rewrite bool_decide_eq_true_2; [done|].
  rewrite take_0. cbn [le_word]. unfold i32. rewrite Z.mod_small by lia. rewrite bool_decide_eq_false_2 by lia. lia.
Qed.

(** * Identifiers are accepted *)

Lemma length_base64 k bs : length bs = (3 * k)%nat ∨ length bs = (3 * k + 1)%nat ∨ length bs = (3 * k + 2)%nat →
  String.length (base64 bs) = if bool_decide (length bs = 3 * k)%nat then (4 * k)%nat else (4 * k + 4)%nat.
Proof.
  revert bs. induction k as [|k IH]; intros bs Hl.
  - destruct bs as [|a [|b [|c bs]]]; cbn in *; try lia; reflexivity.
  - destruct bs as [|a [|b [|c bs]]]; cbn [length] in Hl; try lia. specialize (IH bs ltac:(lia)). cbn [base64 String.length]. rewrite IH. cbn [length].
    repeat case_bool_decide; lia.
Qed.
Lemma length_be_bytes n x : length (be_bytes n x) = n.
Proof. revert x. induction n; intros x; cbn; auto. Qed.
Lemma length_sha1 msg : length (sha1 msg) = 20%nat.
Proof.
  unfold sha1. destruct (foldl sha1_block _ _) as [[[[a b] c] d] e]. by rewrite !length_app, !length_be_bytes.
Qed.

(** The identifier that a client generates passes the test of identifiers,
    so that a replica that does not redirect the client and can write to it
    accepts the connection, and remembers it under this identifier. *)
Theorem generated_id_accepted (G : Type) (GM : GroupManager G) (gm : G) (ch : ClientHandlerTCP) (c : nat) (hostname nowAsGob rb : option bytes) (id : string) :
  generateID hostname nowAsGob rb = Some id → redirect ch = false →
  IsIDInvalid (hello id) = false ∧
  let '(ch', outs) := greetClient gm ch c (Some (hello id)) true in
  client_conn ch' id = Some c ∧ outs = [CHGreet c ((genResp Response_HELLO_RESP []) <| rs_Protocol := Some (getPaxosType ch) |>)].
Proof.
  intros Hg Hr. assert (IsIDInvalid (hello id) = false) as Hv.
  { unfold generateID in Hg. destruct hostname as [x|], nowAsGob as [y|], rb as [z|]; try done. cbn in Hg. destruct (bool_decide _); [done|]. injection Hg as <-.
    assert (String.length (base64 (sha1 (x ++ y ++ z))) = 28%nat) as Hl.
    { rewrite (length_base64 6) by (rewrite length_sha1; lia). by rewrite length_sha1. }
    unfold IsIDInvalid. change (GetId (hello (base64 (sha1 (x ++ y ++ z))))) with (base64 (sha1 (x ++ y ++ z))). rewrite Hl. rewrite bool_decide_eq_false_2; [done|].
    intros E. rewrite E in Hl. done. }
  split; [done|]. unfold greetClient. change (bool_decide (GetType (hello id) ≠ Request_HELLO)) with false. cbv iota.
  destruct (LookupNode _ _) as [leader found]. rewrite Hr. cbn [andb]. rewrite Hv.
  split; [|done]. unfold client_conn, connected. cbn. rewrite lookup_insert_eq. cbn. by rewrite lookup_insert_eq.
Qed.

Lemma frames_roundtrip_witness :
  read_all (M := bytes) Some 2 (concat [le_bytes 4 3 ++ [7; 8; 9]; le_bytes 4 0] ++ [1; 2]) = Ok ([[7; 8; 9]; []], [1; 2]).
Proof.
  apply (frames_roundtrip bytes Some Some [[7; 8; 9]; []] [le_bytes 4 3 ++ [7; 8; 9]; le_bytes 4 0] [1; 2]).
  - intros m b [= ->]. reflexivity.
  - repeat constructor; intros b [= <-]; vm_compute; reflexivity.
  - vm_compute. reflexivity.
Defined.

Lemma negative_size_panics_witness : read (M := bytes) Some [255; 255; 255; 255] = Panic.
Proof. apply (negative_size_panics bytes Some 255 255 255 255 []); [repeat constructor; discriminate|lia]. Defined.

Definition id_ex : option string := generateID (Some (str_bytes "host")) (Some [1; 2; 3]) (Some [0; 1; 2; 3; 4; 5; 6; 7]).
Lemma generated_id_accepted_witness : IsIDInvalid (hello (default "" id_ex)) = false.
Proof.
  apply (generated_id_accepted GrpMgr _ (ex_gm 0) (NewClientHandlerTCP (ex_id 0) (ex_id 0) "multipaxos") 0
    (Some (str_bytes "host")) (Some [1; 2; 3]) (Some [0; 1; 2; 3; 4; 5; 6; 7])); vm_compute; reflexivity.
Defined.
