(* ===== verification/ClientDial.v ===== *)
(** The client library finds a replica (src/client/serviceconnection.go,
    replicaconn.go): it dials the configured nodes in turn, shakes hands, follows
    redirects, and for fast and batch Paxos connects to the other replicas. *)
From S2P Require Import Prelude Grp PaxosTypes Server ClientHandler.

(** A connection is known by its remote address. *)
Definition Conn : Type := string.

Record ReplicaConn := mkRC { rcn_nodes : list string; rcn_nextNodeToConnectTo : Z; rcn_conn : Conn }.
#[export] Instance eta_ReplicaConn : Eta ReplicaConn := λ r, mkRC (rcn_nodes r) (rcn_nextNodeToConnectTo r) (rcn_conn r).
Definition newReplicaConn (nodes : list string) : ReplicaConn := mkRC nodes 0 "".

(** What becomes of one dial: an error, or a connection with what [exchangeID]
    returns on it. *)
Inductive DialAnswer := DialError | Dialled (remote : Conn) (hsResp : option Response).

Inductive ServiceConn := ReplicaService | FastService (connections : list Conn) | BatchService (connections : list Conn).

Inductive DialOut := Dial (address : string) | CloseConn (conn : Conn).

Implicit Types (c : ReplicaConn) (env : list DialAnswer).

Definition rs_GetErrorCode (r : Response) : Z := default 0 (rs_ErrorCode r).
Definition rs_GetErrorDetail (r : Response) : string := default ""%string (rs_ErrorDetail r).
Definition rs_GetType (r : Response) : Z := default 0 (rs_Type r).
Definition rs_GetProtocol (r : Response) : Z := default 0 (rs_Protocol r).

(** The connection and its answer, or that no node can be contacted. After the
    answers of [env] the run goes on ([Diverge]). *)
Fixpoint tcpConnect (attempts : nat) c env : res (option (option Response) * ReplicaConn * list DialAnswer * list DialOut) :=
  match attempts with
  | O => Ok (None, c, env, [])
  | S attempts =>
      address ← slice_get (rcn_nodes c) (rcn_nextNodeToConnectTo c);
      let next := Z.rem (rcn_nextNodeToConnectTo c + 1) (len (rcn_nodes c)) in
      match env with
      | [] => Diverge
      | Dialled remote hsResp :: env =>
          mret (Some hsResp, c <| rcn_conn := remote |> <| rcn_nextNodeToConnectTo := next |>, env, [Dial address])
      | DialError :: env =>
          '(r, c, env, outs) ← tcpConnect attempts (c <| rcn_nextNodeToConnectTo := next |>) env;
          mret (r, c, env, Dial address :: outs)
      end
  end.

(** The caller closes a connection whose handshake failed. *)
Definition handshakeReq (hsResp : option Response) : option Response :=
  hsResp ← hsResp; if bool_decide (rs_GetType hsResp = Response_HELLO_RESP) then Some hsResp else None.

(** The appended list is local: only the index is returned. *)
Definition addNodeIfMissing (nodeList : list string) (possibleNewNode : string) : Z :=
  match list_find (λ n, n = possibleNewNode) nodeList with Some (i, _) => Z.of_nat i | None => len nodeList end.

Fixpoint connect_loop (connectedAdr : Conn) (nodes : list string) (connections : list Conn) env : res (option (list Conn) * list DialAnswer * list DialOut) :=
  match nodes with
  | [] => Ok (Some connections, env, [])
  | address :: nodes =>
      if bool_decide (address = connectedAdr) then connect_loop connectedAdr nodes connections env
      else
        match env with
        | [] => Diverge
        | DialError :: env => Ok (None, env, [Dial address])
        | Dialled remote hsResp :: env =>
            match handshakeReq hsResp with
            | None => Ok (None, env, [Dial address; CloseConn remote])
            | Some _ =>
                '(r, env, outs) ← connect_loop connectedAdr nodes (connections ++ [remote]) env;
                mret (r, env, Dial address :: outs)
            end
        end
  end.
Definition connectToRemaining c env : res (option (list Conn) * list DialAnswer * list DialOut) := connect_loop (rcn_conn c) (rcn_nodes c) [] env.

Definition checkPaxosType c (response : Response) env : res (option ServiceConn * list DialAnswer * list DialOut) :=
  let protocol := rs_GetProtocol response in
  if bool_decide (protocol = 1) then Ok (Some ReplicaService, env, [])
  else if bool_decide (protocol = 2) || bool_decide (protocol = 3) then
    r ← connectToRemaining c env;
    let '(connections, env, outs) := r in
    let new := if bool_decide (protocol = 2) then FastService else BatchService in
    Ok (match connections with Some cs => Some (new (cs ++ [rcn_conn c])) | None => None end, env, outs)
  else Ok (None, env, []).

Definition DefCycleListMax : Z := 3.

Section handshake.
Variable cycleListMax : Z.

(** [handshakeResp] calls [handshake] again after a redirect; every call takes
    an answer of [env], so that [fuel] above its length is enough. *)
Fixpoint handshake_loop (fuel : nat) c env : res (option ServiceConn * ReplicaConn * list DialOut) :=
  match fuel with
  | O => Diverge
  | S fuel =>
      '(r, c, env, outs) ← tcpConnect (Z.to_nat (len (rcn_nodes c) * cycleListMax)) c env;
      match r with
      | None => mret (None, c, outs)
      | Some hsResp =>
          match handshakeReq hsResp with
          | None => mret (None, c, outs ++ [CloseConn (rcn_conn c)])
          | Some hsResp =>
              if bool_decide (rs_GetErrorCode hsResp = 0) then
                '(s, _, outs') ← checkPaxosType c hsResp env; mret (s, c, outs ++ outs')
              else if bool_decide (rs_GetErrorCode hsResp = Response_REDIRECT) then
                let closed := rcn_conn c in
                '(s, c, outs') ← handshake_loop fuel (c <| rcn_nextNodeToConnectTo := addNodeIfMissing (rcn_nodes c) (rs_GetErrorDetail hsResp) |>) env;
                mret (s, c, outs ++ CloseConn closed :: outs')
              else mret (None, c, outs ++ [CloseConn (rcn_conn c)])
          end
      end
  end.
Definition handshake c env : res (option ServiceConn * ReplicaConn * list DialOut) := handshake_loop (S (length env)) c env.
End handshake.

(** * Which nodes are dialled *)

Definition dial_ok c : Prop := 0 ≤ rcn_nextNodeToConnectTo c < len (rcn_nodes c).

Lemma next_in_range c : dial_ok c →
  Z.rem (rcn_nextNodeToConnectTo c + 1) (len (rcn_nodes c)) = (rcn_nextNodeToConnectTo c + 1) `mod` len (rcn_nodes c) ∧
  0 ≤ (rcn_nextNodeToConnectTo c + 1) `mod` len (rcn_nodes c) < len (rcn_nodes c).
Proof. intros [? ?]. split; [apply Z.rem_mod_nonneg; lia|apply Z.mod_pos_bound; lia]. Qed.

(** The [i]-th node from the next one on. *)
Definition nth_node c (i : Z) : string := default "" (rcn_nodes c !! Z.to_nat ((rcn_nextNodeToConnectTo c + i) `mod` len (rcn_nodes c))).

Lemma nth_node_next c : dial_ok c → slice_get (rcn_nodes c) (rcn_nextNodeToConnectTo c) = Ok (nth_node c 0).
Proof.
  intros Hc. destruct (slice_get_total (rcn_nodes c) (rcn_nextNodeToConnectTo c) Hc) as [a Ha]. rewrite Ha. f_equal. apply slice_get_Ok in Ha as [_ Ha].
  unfold nth_node, dial_ok in *. rewrite Z.add_0_r, Z.mod_small by done. by rewrite Ha.
Qed.

Lemma tcpConnect_errors n : ∀ c env, dial_ok c →
  tcpConnect n c (replicate n DialError ++ env) =
    Ok (None, c <| rcn_nextNodeToConnectTo ::= λ next, (next + Z.of_nat n) `mod` len (rcn_nodes c) |>, env, (λ i, Dial (nth_node c (Z.of_nat i))) <$> seq 0 n).
Proof.
  induction n as [|n IH]; intros c env Hc.
  { cbn. destruct c as [nodes next conn]. unfold dial_ok in Hc. cbn in *. by rewrite Z.add_0_r, Z.mod_small by done. }
  destruct (next_in_range c Hc) as [Hrem Hr]. cbn [tcpConnect replicate app]. rewrite nth_node_next by done. cbn [mbind res_bind].
  rewrite Hrem, IH by done. cbn. f_equal. f_equal; [do 2 f_equal|].
  - destruct c as [nodes next conn]. unfold dial_ok in Hc. cbn in *. f_equal. rewrite Zplus_mod_idemp_l. f_equal. lia.
  - f_equal. rewrite <- fmap_S_seq, <- list_fmap_compose. apply list_fmap_ext. intros i j _. cbn. f_equal. unfold nth_node. cbn.
    rewrite Zplus_mod_idemp_l. do 4 f_equal. lia.
Qed.

(** When no node answers, the client has dialled every node in turn, from
    the next one on, [cycleListMax] times each, and gives up. *)
Theorem all_nodes_dialled (cycleListMax : Z) c : dial_ok c → 0 ≤ cycleListMax →
  let n := Z.to_nat (len (rcn_nodes c) * cycleListMax) in
  handshake cycleListMax c (replicate n DialError) = Ok (None, c, (λ i, Dial (nth_node c (Z.of_nat i))) <$> seq 0 n).
Proof.
  intros Hc Hm n. unfold handshake. cbn [handshake_loop]. fold n.
  replace (replicate n DialError) with (replicate n DialError ++ []) by apply app_nil_r. rewrite tcpConnect_errors by done.
  cbn [mbind res_bind mret res_ret]. do 3 f_equal. destruct c as [nodes next conn]. unfold dial_ok in Hc. cbn in *. f_equal.
  subst n. rewrite Z2Nat.id by lia. rewrite Z.mul_comm, Z_mod_plus_full, Z.mod_small; lia.
Qed.

Lemma tcpConnect_head n c env r c' env' outs address : slice_get (rcn_nodes c) (rcn_nextNodeToConnectTo c) = Ok address →
  tcpConnect (S n) c env = Ok (r, c', env', outs) → ∃ outs', outs = Dial address :: outs'.
Proof.
  intros Ha. cbn [tcpConnect]. rewrite Ha. cbn [mbind res_bind]. destruct env as [|[|remote hsResp] env]; [done| |].
  - intros ([[[r1 c1] env1] o1] & _ & Hr)%bind_Ok. injection Hr as _ _ _ <-. eauto.
  - intros Hr. injection Hr as _ _ _ <-. eauto.
Qed.

Section redirect.
Variable cycleListMax : Z.
Let attempts c : nat := Z.to_nat (len (rcn_nodes c) * cycleListMax).

Lemma handshake_head fuel c env s c' outs address n : attempts c = S n → slice_get (rcn_nodes c) (rcn_nextNodeToConnectTo c) = Ok address →
  handshake_loop cycleListMax fuel c env = Ok (s, c', outs) → ∃ outs', outs = Dial address :: outs'.
Proof.
  intros En Ha. destruct fuel as [|fuel]; [done|]. cbn [handshake_loop]. fold (attempts c). rewrite En. intros ([[[r c1] env1] o1] & Hx & Hr)%bind_Ok.
  destruct (tcpConnect_head _ _ _ _ _ _ _ _ Ha Hx) as [o ->].
  destruct r as [hsResp|]; [|injection Hr as _ _ <-; eauto]. destruct (handshakeReq hsResp) as [resp|]; [|injection Hr as _ _ <-; cbn; eauto].
  destruct (bool_decide _).
  - apply bind_Ok in Hr as ([[s1 env2] o2] & _ & Hr). injection Hr as _ _ <-. cbn. eauto.
  - destruct (bool_decide _); [|injection Hr as _ _ <-; cbn; eauto].
    apply bind_Ok in Hr as ([[s1 c2] o2] & _ & Hr). injection Hr as _ _ <-. cbn. eauto.
Qed.

Lemma handshake_redirected fuel c remote hsResp env n : attempts c = S n → dial_ok c →
  rs_GetType hsResp = Response_HELLO_RESP → rs_GetErrorCode hsResp = Response_REDIRECT →
  handshake_loop cycleListMax (S fuel) c (Dialled remote (Some hsResp) :: env) =
    ('(s, c', outs) ← handshake_loop cycleListMax fuel (mkRC (rcn_nodes c) (addNodeIfMissing (rcn_nodes c) (rs_GetErrorDetail hsResp)) remote) env;
     Ok (s, c', Dial (nth_node c 0) :: CloseConn remote :: outs)).
Proof.
  intros En Hc Ht He. cbn [handshake_loop]. fold (attempts c). rewrite En. cbn [tcpConnect]. rewrite nth_node_next by done.
  cbn [mbind res_bind mret res_ret]. unfold handshakeReq. cbn [mbind option_bind]. rewrite bool_decide_eq_true_2 by done. rewrite He.
  change (bool_decide (Response_REDIRECT = 0)) with false. by rewrite bool_decide_eq_true_2 by done.
Qed.
End redirect.

(** A redirect to a node that the client knows is followed: the node is
    dialled next. A redirect to any other node makes the client panic, since the
    node is not added to its list. *)
Theorem redirect_followed_or_panic (cycleListMax : Z) c (remote : Conn) (hsResp : Response) env : dial_ok c → 1 ≤ cycleListMax →
  rs_GetType hsResp = Response_HELLO_RESP → rs_GetErrorCode hsResp = Response_REDIRECT →
  (rs_GetErrorDetail hsResp ∈ rcn_nodes c → ∀ s c' outs, handshake cycleListMax c (Dialled remote (Some hsResp) :: env) = Ok (s, c', outs) →
     ∃ outs', outs = [Dial (nth_node c 0); CloseConn remote; Dial (rs_GetErrorDetail hsResp)] ++ outs') ∧
  (rs_GetErrorDetail hsResp ∉ rcn_nodes c → handshake cycleListMax c (Dialled remote (Some hsResp) :: env) = Panic).
Proof.
  intros Hc Hm Ht He. assert (∃ n, Z.to_nat (len (rcn_nodes c) * cycleListMax) = S n) as [n En].
  { unfold dial_ok in Hc. exists (Z.to_nat (len (rcn_nodes c) * cycleListMax - 1)). nia. }
  unfold handshake. cbn [length]. rewrite (handshake_redirected _ _ _ _ _ _ n) by done. unfold addNodeIfMissing.
  destruct (list_find _ (rcn_nodes c)) as [[i x]|] eqn:Ex.
  - apply list_find_Some in Ex as (Hi & -> & _). split; [|by intros []; eapply list_elem_of_lookup_2].
    intros _ s c' outs ([[s1 c1] o1] & Hx & Hr)%bind_Ok. injection Hr as _ _ <-.
    eapply (handshake_head _ _ _ _ _ _ _ (rs_GetErrorDetail hsResp) n) in Hx as [o ->]; [by exists o|exact En|].
    cbn. apply slice_get_Ok. rewrite Nat2Z.id. split; [lia|done].
  - apply list_find_None in Ex. split; [intros Hin; rewrite Forall_forall in Ex; by apply Ex in Hin|]. intros _.
    cbn [handshake_loop rcn_nodes]. rewrite En. cbn [tcpConnect rcn_nodes rcn_nextNodeToConnectTo]. unfold slice_get.
    rewrite decide_True by lia. rewrite Nat2Z.id. by rewrite lookup_ge_None_2 by done.
Qed.

Lemma all_nodes_dialled_witness : handshake 3 (newReplicaConn ["a"; "b"]) (replicate 6 DialError) =
  Ok (None, newReplicaConn ["a"; "b"], Dial <$> ["a"; "b"; "a"; "b"; "a"; "b"]%string).
Proof. apply (all_nodes_dialled 3 (newReplicaConn ["a"; "b"]%string)); [split; vm_compute; [discriminate|reflexivity]|lia]. Defined.

Definition dial_redirect (address : string) : Response := genErrResp Response_HELLO_RESP Response_REDIRECT address.
Lemma redirect_followed_or_panic_witness :
  handshake 3 (newReplicaConn ["a"; "b"]) [Dialled "a" (Some (dial_redirect "c"))] = Panic ∧
  is_Some (match handshake 3 (newReplicaConn ["a"; "b"; "c"]) [Dialled "a" (Some (dial_redirect "c")); Dialled "c" None] with Ok r => Some r | _ => None end).
Proof.
  split; [|vm_compute; by eexists].
  apply (redirect_followed_or_panic 3 (newReplicaConn ["a"; "b"]%string) "a" (dial_redirect "c") []).
  - split; vm_compute; [discriminate|reflexivity].
  - lia.
  - reflexivity.
  - reflexivity.
  - apply (bool_decide_eq_true_1 (¬ (_ ∈ _))). vm_compute. reflexivity.
Defined.
