(* ===== verification/ClientConn.v ===== *)
(** The connections of the client library (src/client/replicaconn.go,
    batchconnection.go, fastconnection.go, response.go): every request has a
    goroutine that writes it and a channel of one element for its answer, and
    other goroutines read the replicas' responses. *)
From S2P Require Import Prelude Grp PaxosTypes Server ClientHandler ClientDial.

(** The error is a time-out or that of a reconnection. *)
Inductive ResponseData := RValue (value : bytes) | RError.

Definition genReq (id : string) (seq : Z) (value : bytes) : Request := mkRequest (Some Request_EXEC) (Some id) (Some seq) value.
Definition HasError (r : Response) : bool := negb (bool_decide (rs_GetErrorCode r = 0)).

(** The [k]-th request's channel holds at most one element. *)
Definition chan_put (chans : list (option ResponseData)) (k : nat) (d : ResponseData) : option (list (option ResponseData)) :=
  match chans !! k with Some None => Some (<[k := Some d]> chans) | _ => None end.

(** * Batch and fast Paxos *)

Inductive ReadWorker := WReading | WDelivering (k : nat) (value : bytes) | WReturned.

(** The requests are numbered in the order of the calls; [respMap] gives the
    number for a sequence number. [trying] says whose goroutine still runs. *)
Record BatchConnection := mkBC {
  bcn_id : string; bcn_seq : Z; bcn_respMap : gmap Z nat; bcn_reqs : list Request; bcn_trying : list bool;
  bcn_chans : list (option ResponseData); bcn_workers : list ReadWorker }.
#[export] Instance eta_BatchConnection : Eta BatchConnection := λ r,
  mkBC (bcn_id r) (bcn_seq r) (bcn_respMap r) (bcn_reqs r) (bcn_trying r) (bcn_chans r) (bcn_workers r).

(** A worker for every connection. *)
Definition NewBatchConn (id : string) (replicaConnections : nat) : BatchConnection :=
  mkBC id 0 ∅ [] [] [] (replicate replicaConnections WReading).

Inductive CnOut :=
| CnWrite (req : Request)                     (* to every replica *)
| CnAnswer (k : nat) (d : ResponseData).      (* what the application receives *)

Inductive BcEvent :=
| BcSend (value : bytes)
| BcWrite (k : nat) (ok : bool)               (* the goroutine of a request writes it, again and again *)
| BcRead (i : nat) (response : option Response)
| BcDeliver (i : nat)
| BcTake (k : nat).

Section batch.
Implicit Types b : BatchConnection.

Definition bc_Send b (request : bytes) : BatchConnection :=
  let req := genReq (bcn_id b) (bcn_seq b) request in
  b <| bcn_seq ::= λ s, u32 (s + 1) |> <| bcn_respMap ::= <[GetSeq req := length (bcn_chans b)]> |>
    <| bcn_reqs ::= λ l, l ++ [req] |> <| bcn_trying ::= λ l, l ++ [true] |> <| bcn_chans ::= λ l, l ++ [None] |>.

(** What a worker does with what it reads. *)
Definition bc_read b (response : option Response) : ReadWorker :=
  match response with
  | None => WReading
  | Some response =>
      if HasError response then WReading
      else match bcn_respMap b !! rs_GetSeq response with Some k => WDelivering k (rs_Val response) | None => WReturned end
  end.

(** [Diverge] is a goroutine that has to wait. *)
Definition bc_step b (ev : BcEvent) : res (BatchConnection * list CnOut) :=
  match ev with
  | BcSend value => Ok (bc_Send b value, [])
  | BcWrite k ok =>
      match bcn_trying b !! k, bcn_reqs b !! k with
      | Some true, Some req => if ok : bool then Ok (b, [CnWrite req]) else Ok (b <| bcn_trying ::= <[k := false]> |>, [])
      | _, _ => Diverge
      end
  | BcRead i response =>
      match bcn_workers b !! i with
      | Some WReading => Ok (b <| bcn_workers ::= <[i := bc_read b response]> |>, [])
      | _ => Diverge
      end
  | BcDeliver i =>
      match bcn_workers b !! i with
      | Some (WDelivering k value) =>
          match chan_put (bcn_chans b) k (RValue value) with
          | Some chans => Ok (b <| bcn_chans := chans |> <| bcn_workers ::= <[i := WReading]> |>, [])
          | None => Diverge
          end
      | _ => Diverge
      end
  | BcTake k =>
      match bcn_chans b !! k with
      | Some (Some d) => Ok (b <| bcn_chans ::= <[k := None]> |>, [CnAnswer k d])
      | _ => Diverge
      end
  end.
End batch.

(** A fast connection has no mutex for its writes: [NewFastConn] leaves the
    pointer nil. *)
Definition NewFastConn_writeLock : option unit := None.
Definition writeToAllReplicas (writeLock : option unit) (request : Request) : res (list CnOut) :=
  match writeLock with None => Panic | Some _ => Ok [CnWrite request] end.

(** ** Answers belong to requests *)

Record bc_inv (evs : list BcEvent) (b : BatchConnection) (outs : list CnOut) : Prop := {
  bi_seq : bcn_seq b = len (bcn_chans b);
  bi_map : ∀ s k, bcn_respMap b !! s = Some k → s = Z.of_nat k;
  bi_data : ∀ k v, (bcn_chans b !! k = Some (Some (RValue v)) ∨ CnAnswer k (RValue v) ∈ outs ∨ WDelivering k v ∈ bcn_workers b) →
    ∃ i response, BcRead i (Some response) ∈ evs ∧ HasError response = false ∧ rs_GetSeq response = Z.of_nat k ∧ rs_Val response = v;
}.
Definition bc_sent (evs : list BcEvent) : list bytes := omap (λ ev, match ev with BcSend v => Some v | _ => None end) evs.


Lemma bc_step_inv evs b outs ev b' o : len (bcn_chans b) + 1 < 2 ^ 32 → bc_inv evs b outs → bc_step b ev = Ok (b', o) → bc_inv (evs ++ [ev]) b' (outs ++ o).
Proof.
  intros Hb [Hs Hm Hd] Hx.
  assert (∀ k v, (∃ i response, BcRead i (Some response) ∈ evs ∧ HasError response = false ∧ rs_GetSeq response = Z.of_nat k ∧ rs_Val response = v) →
    ∃ i response, BcRead i (Some response) ∈ evs ++ [ev] ∧ HasError response = false ∧ rs_GetSeq response = Z.of_nat k ∧ rs_Val response = v) as Hmono.
  { intros k v (i & r & ? & ?). exists i, r. split; [set_solver|done]. }
  destruct ev as [value|k ok|i response|i|k]; cbn [bc_step] in Hx.
  - injection Hx as <- <-. unfold bc_Send. split; cbn.
    + rewrite Hs, u32_small, length_app by lia. cbn. lia.
    + intros s k. rewrite lookup_insert_Some. intros [[<- <-]|[_ Hk]]; [done|by apply Hm].
    + intros k v Hk. apply Hmono, Hd. rewrite app_nil_r in Hk. destruct Hk as [Hk|Hk]; [|by right]. left.
      apply lookup_app_Some in Hk as [Hk|[_ Hk]]; [done|]. apply list_lookup_singleton_Some in Hk as [_ Hk]. done.
  - destruct (bcn_trying b !! k) as [[]|]; [|done..]. destruct (bcn_reqs b !! k) as [req|]; [|done].
    destruct ok; injection Hx as <- <-; (split; cbn; [done..|]; intros j v Hk; apply Hmono, Hd; set_solver).
  - destruct (bcn_workers b !! i) as [[]|] eqn:Ei; [|done..]. injection Hx as <- <-. split; cbn; [done..|]. intros k v Hk.
    rewrite app_nil_r in Hk. destruct Hk as [Hk|[Hk|Hk]]; [apply Hmono, Hd; auto|apply Hmono, Hd; auto|].
    apply list_elem_of_lookup in Hk as (j & Hj). apply list_lookup_insert_Some in Hj as [(<- & Hj & _)|[_ Hj]].
    + unfold bc_read in Hj. destruct response as [r|]; [|done]. destruct (HasError r) eqn:Er; [done|].
      destruct (bcn_respMap b !! rs_GetSeq r) as [k'|] eqn:Em; [|done]. injection Hj as -> <-. exists i, r. split_and!; [set_solver|done|by apply Hm|done].
    + apply Hmono, Hd. right. right. by eapply list_elem_of_lookup_2.
  - destruct (bcn_workers b !! i) as [[|k v|]|] eqn:Ei; [done| |done..]. unfold chan_put in Hx. destruct (bcn_chans b !! k) as [[|]|] eqn:Ek; [done| |done].
    injection Hx as <- <-. split; cbn; [by rewrite length_insert|done|]. intros j w Hj. rewrite app_nil_r in Hj. apply Hmono.
    destruct Hj as [Hj|[Hj|Hj]]; [|apply Hd; auto|].
    + apply list_lookup_insert_Some in Hj as [(<- & Hj & _)|[_ Hj]]; [|apply Hd; auto]. injection Hj as <-. apply Hd. right. right. by eapply list_elem_of_lookup_2.
    + apply Hd. right. right. apply list_elem_of_lookup in Hj as (l & Hl). apply list_lookup_insert_Some in Hl as [(_ & ? & _)|[_ Hl]]; [done|].
      by eapply list_elem_of_lookup_2.
  - destruct (bcn_chans b !! k) as [[d|]|] eqn:Ek; [|done..]. injection Hx as <- <-. split; cbn; [by rewrite length_insert|done|].
    intros j w Hj. apply Hmono. destruct Hj as [Hj|[Hj|Hj]]; [| |apply Hd; auto].
    + apply list_lookup_insert_Some in Hj as [(_ & ? & _)|[_ Hj]]; [done|]. apply Hd. auto.
    + apply elem_of_app in Hj as [Hj|Hj]; [apply Hd; auto|]. apply list_elem_of_singleton in Hj. injection Hj as -> <-. apply Hd. auto.
Qed.

(** What the application receives on the channel of its [k]-th request to a
    group that runs batch Paxos is the value of a response without error that
    has the sequence number of this request. *)
Theorem batch_answers_match (id : string) (n : nat) (evs : list BcEvent) b outs : len (bc_sent evs) + 1 < 2 ^ 32 →
  run bc_step (NewBatchConn id n) evs b outs →
  ∀ k v, CnAnswer k (RValue v) ∈ outs →
    ∃ i response, BcRead i (Some response) ∈ evs ∧ HasError response = false ∧ rs_GetSeq response = Z.of_nat k ∧ rs_Val response = v.
Proof.
  intros Hb Hr. enough (bc_inv evs b outs ∧ len (bcn_chans b) = len (bc_sent evs)) as [Hi _] by (intros k v Hk; apply Hi; auto).
  induction Hr as [|evs b1 o1 ev b2 o2 Hr IH Hs].
  { split; [|done]. split; [done|intros s k; cbn; by rewrite lookup_empty|]. intros k v [Hk|[Hk|Hk]]; [done|by apply elem_of_nil in Hk|].
    cbn in Hk. apply elem_of_replicate in Hk as [? _]. done. }
  unfold bc_sent in *. rewrite omap_app, length_app in *. destruct IH as [Hi Hl]; [lia|]. split.
  - eapply bc_step_inv; [|exact Hi|exact Hs]. lia.
  - rewrite Nat2Z.inj_add, <- Hl. clear -Hs. destruct ev as [value|k ok|i response|i|k]; cbn [bc_step] in Hs.
    + injection Hs as <- _. cbn. rewrite length_app. cbn. lia.
    + destruct (bcn_trying b1 !! k) as [[]|]; [|done..]. destruct (bcn_reqs b1 !! k); [|done]. destruct ok; injection Hs as <- _; cbn; lia.
    + destruct (bcn_workers b1 !! i) as [[]|]; [|done..]. injection Hs as <- _. cbn. lia.
    + destruct (bcn_workers b1 !! i) as [[|k v|]|]; [done| |done..]. unfold chan_put in Hs. destruct (bcn_chans b1 !! k) as [[|]|]; [done| |done].
      injection Hs as <- _. cbn. rewrite length_insert. lia.
    + destruct (bcn_chans b1 !! k) as [[d|]|]; [|done..]. injection Hs as <- _. cbn. rewrite length_insert. lia.
Qed.

(** ** The readers get stuck *)

Record wedged b : Prop := {
  wd_full : ∃ d, bcn_chans b !! 0%nat = Some (Some d);
  wd_empty : ∀ k d, bcn_chans b !! S k = Some d → d = None;
  wd_stuck : ∀ i w, bcn_workers b !! i = Some w → ∃ v, w = WDelivering 0 v;
}.

Lemma wedged_step b ev b' o : wedged b → ev ≠ BcTake 0 → bc_step b ev = Ok (b', o) → wedged b' ∧ ∀ k d, CnAnswer k d ∉ o.
Proof.
  intros [[d0 Hf] He Hw] Hne Hx. destruct ev as [value|k ok|i response|i|k]; cbn [bc_step] in Hx.
  - injection Hx as <- <-. split; [|set_solver]. split; cbn; [|  |done].
    + exists d0. by apply lookup_app_l_Some.
    + intros k d. rewrite lookup_app_Some. intros [Hk|[_ Hk]]; [by eapply He|]. by apply list_lookup_singleton_Some in Hk as [_ <-].
  - destruct (bcn_trying b !! k) as [[]|]; [|done..]. destruct (bcn_reqs b !! k); [|done]. destruct ok; injection Hx as <- <-; (split; [by split; eauto|set_solver]).
  - destruct (bcn_workers b !! i) as [w|] eqn:Ei; [|done]. destruct (Hw _ _ Ei) as [v ->]. done.
  - destruct (bcn_workers b !! i) as [w|] eqn:Ei; [|done]. destruct (Hw _ _ Ei) as [v ->]. unfold chan_put in Hx. by rewrite Hf in Hx.
  - destruct k as [|k]; [done|]. destruct (bcn_chans b !! S k) as [[d|]|] eqn:Ek; [|done..]. by specialize (He _ _ Ek).
Qed.

Lemma wedged_run b evs b' outs : wedged b → run bc_step b evs b' outs → BcTake 0 ∉ evs → wedged b' ∧ ∀ k d, CnAnswer k d ∉ outs.
Proof.
  intros Hw Hr. induction Hr as [|evs b1 o1 ev b2 o2 Hr IH Hs]; [split; [done|set_solver]|]. intros Hne. rewrite elem_of_app, list_elem_of_singleton in Hne.
  destruct IH as [H1 Ho]; [naive_solver|]. apply wedged_step in Hs as [H2 Ho']; [|done|naive_solver]. split; [done|]. intros k d. rewrite elem_of_app. naive_solver.
Qed.

Definition bc_resp : option Response := Some (zero_Response <| rs_Type := Some 2 |> <| rs_Seq := Some 0 |> <| rs_Val := [7] |>).
(** A request to three replicas; all answer it, and two answer it again when it
    is sent again, as it is after every time-out, answered or not. *)
Definition bc_evs : list BcEvent :=
  [BcSend [1]; BcWrite 0 true; BcRead 0 bc_resp; BcDeliver 0; BcTake 0; BcRead 1 bc_resp; BcDeliver 1; BcRead 2 bc_resp;
   BcWrite 0 true; BcRead 0 bc_resp; BcRead 1 bc_resp].
Definition bc_end : BatchConnection * list CnOut := default (NewBatchConn "c" 3, []) (run_exec bc_step (NewBatchConn "c" 3) bc_evs).
Lemma bc_end_run : run bc_step (NewBatchConn "c" 3) bc_evs bc_end.1 bc_end.2.
Proof. apply run_exec_run. vm_compute. reflexivity. Qed.

(** A client of a group that runs batch Paxos gets stuck on its first
    request: the application receives the answer, a second one fills the
    channel, and every goroutine that reads waits to put another one there.
    Whatever the application sends and the replicas answer afterwards, no other
    request is answered, unless it receives from the first channel again. *)
Theorem batch_client_wedges : ∃ b, run bc_step (NewBatchConn "c" 3) bc_evs b [CnWrite (genReq "c" 0 [1]); CnAnswer 0 (RValue [7]); CnWrite (genReq "c" 0 [1])] ∧
  ∀ evs b' outs, run bc_step b evs b' outs → BcTake 0 ∉ evs → ∀ k d, CnAnswer k d ∉ outs.
Proof.
  exists bc_end.1. split; [apply run_exec_run; vm_compute; reflexivity|]. intros evs b' outs Hr Hne. eapply wedged_run; [|exact Hr|exact Hne].
  assert (bcn_chans bc_end.1 = [Some (RValue [7])]) as Ec by (vm_compute; reflexivity).
  assert (bcn_workers bc_end.1 = [WDelivering 0 [7]; WDelivering 0 [7]; WDelivering 0 [7]]) as Ew by (vm_compute; reflexivity).
  split; rewrite ?Ec, ?Ew; [by eexists|by intros [|k]|]. intros i w Hi. apply list_elem_of_lookup_2 in Hi. set_solver.
Qed.

(** * MultiPaxos *)

(** The goroutine of a request ([trySend]): before a write, with an error for
    the channel, before [reqSent], in the select, or returned. [ts_deferred]
    says that the deferred deletion is registered. *)
Inductive TsPc := TsWrite | TsError | TsSignal | TsWait | TsReturned.
Record TrySend := mkTS { ts_req : Request; ts_pc : TsPc; ts_deferred : bool }.
#[export] Instance eta_TrySend : Eta TrySend := λ r, mkTS (ts_req r) (ts_pc r) (ts_deferred r).

(** The channels of a request, each with one element at most. *)
Record ResponseInfo := mkRI { ri_respChan : option ResponseData; ri_resend : bool; ri_gotResponse : bool }.
#[export] Instance eta_ResponseInfo : Eta ResponseInfo := λ r, mkRI (ri_respChan r) (ri_resend r) (ri_gotResponse r).

(** A goroutine that reads ([tryReceive]): before [reqSent], before a read, with
    a response for a request, with errors for the channels of the requests of
    [ks], or returned. There is one more of them after every reconnection, since
    the handshake starts one. *)
Inductive TrPc := TrWait | TrRead | TrResponse (k : nat) (value : bytes) | TrDeliver (k : nat) (value : bytes) | TrErrors (ks : list nat) | TrReturned.

#[export] Instance TrPc_eq_dec : EqDecision TrPc.
Proof. solve_decision. Defined.

Record MultiConn := mkMC {
  mc_id : string; mc_seq : Z; mc_respMap : gmap Z nat; mc_infos : list ResponseInfo; mc_senders : list TrySend; mc_reqSent : Z; mc_receivers : list TrPc }.
#[export] Instance eta_MultiConn : Eta MultiConn := λ r,
  mkMC (mc_id r) (mc_seq r) (mc_respMap r) (mc_infos r) (mc_senders r) (mc_reqSent r) (mc_receivers r).
Definition NewMultiConn (id : string) : MultiConn := mkMC id 0 ∅ [] [] 0 [TrWait].

(** What [reconnect] does: a new connection; nothing, without an error, while
    another goroutine reconnects; or an error. *)
Inductive Reconnect := Reconnected | Reconnecting | NotReconnected.

Inductive McEvent :=
| McSend (value : bytes)
| McWrite (k : nat) (ok : bool) (rc : Reconnect)   (* of the connection, and of [reconnect] after an error *)
| McError (k : nat) | McSignal (k : nat)
| McTimeout (k : nat) | McResend (k : nat) | McGot (k : nat)    (* the cases of the select *)
| McToken (i : nat)                                (* the goroutines that read *)
| McRead (i : nat) (response : option Response) (rc : Reconnect)
| McResponse (i : nat) | McDeliver (i : nat) | McErrors (i : nat)
| McTake (k : nat).

Section multi.
Context {RO : RangeOrder}.
Implicit Types m : MultiConn.

Definition reqSent_size : Z := 560.

Definition mc_Send m (request : bytes) : MultiConn :=
  let req := genReq (mc_id m) (mc_seq m) request in
  m <| mc_seq ::= λ s, u32 (s + 1) |> <| mc_respMap ::= <[GetSeq req := length (mc_infos m)]> |>
    <| mc_infos ::= λ l, l ++ [mkRI None false false] |> <| mc_senders ::= λ l, l ++ [mkTS req TsWrite false] |>.

Definition ts_goto (k : nat) (pc : TsPc) m : MultiConn := m <| mc_senders ::= alter (λ t, t <| ts_pc := pc |>) k |>.
Definition on_info (k : nat) (f : ResponseInfo → ResponseInfo) m : MultiConn := m <| mc_infos ::= alter f k |>.

Definition spawn (rc : Reconnect) m : MultiConn := match rc with Reconnected => m <| mc_receivers ::= λ rs, rs ++ [TrWait] |> | _ => m end.
Definition tr_goto (i : nat) (pc : TrPc) m : MultiConn := m <| mc_receivers ::= <[i := pc]> |>.

(** A goroutine returns, with its deferred call. *)
Definition ts_return (k : nat) (t : TrySend) m : MultiConn :=
  ts_goto k TsReturned (if ts_deferred t then m <| mc_respMap ::= delete (GetSeq (ts_req t)) |> else m).

(** A send on a full channel waits. *)
Definition put_answer (k : nat) (d : ResponseData) m : res MultiConn :=
  match mc_infos m !! k with
  | Some info => match ri_respChan info with None => Ok (on_info k (λ i, i <| ri_respChan := Some d |>) m) | Some _ => Diverge end
  | None => Diverge
  end.

Definition ts_step m (k : nat) (t : TrySend) (ev : McEvent) : res (MultiConn * list CnOut) :=
  match ev, ts_pc t with
  | McWrite _ ok rc, TsWrite =>
      if ok : bool then Ok (ts_goto k TsSignal m, [CnWrite (ts_req t)])
      else Ok (match rc with NotReconnected => ts_goto k TsError m | _ => spawn rc m end, [])
  | McError _, TsError => m ← put_answer k RError m; mret (ts_return k t m, [])
  | McSignal _, TsSignal =>
      if bool_decide (mc_reqSent m < reqSent_size)
      then Ok (ts_goto k TsWait (m <| mc_reqSent ::= λ n, n + 1 |> <| mc_senders ::= alter (λ t, t <| ts_deferred := true |>) k |>), [])
      else Diverge
  | McTimeout _, TsWait => Ok (ts_goto k TsError m, [])
  | McResend _, TsWait =>
      match mc_infos m !! k with
      | Some info => if ri_resend info then Ok (ts_goto k TsWrite (on_info k (λ i, i <| ri_resend := false |>) m), []) else Diverge
      | None => Diverge
      end
  | McGot _, TsWait =>
      match mc_infos m !! k with
      | Some info => if ri_gotResponse info then Ok (ts_return k t (on_info k (λ i, i <| ri_gotResponse := false |>) m), []) else Diverge
      | None => Diverge
      end
  | _, _ => Diverge
  end.

Definition tr_step m (i : nat) (pc : TrPc) (ev : McEvent) : res (MultiConn * list CnOut) :=
  match ev, pc with
  | McToken _, TrWait => if bool_decide (0 < mc_reqSent m) then Ok (tr_goto i TrRead (m <| mc_reqSent ::= λ n, n - 1 |>), []) else Diverge
  | McRead _ (Some r) _, TrRead =>
      Ok (tr_goto i (match mc_respMap m !! rs_GetSeq r with Some k => TrResponse k (rs_Val r) | None => TrWait end) m, [])
  | McRead _ None rc, TrRead =>
      let ks := (range_order 0 (mc_respMap m)).*2 in
      match rc with
      | NotReconnected => Ok (tr_goto i (TrErrors ks) m, [])
      | _ => Ok (tr_goto i TrWait (foldr (λ k, on_info k (λ i, i <| ri_resend := true |>)) (spawn rc m) ks), [])
      end
  | McResponse _, TrResponse k v => Ok (tr_goto i (TrDeliver k v) (on_info k (λ i, i <| ri_gotResponse := true |>) m), [])
  | McDeliver _, TrDeliver k v =>
      Ok (tr_goto i TrWait (on_info k (λ i, if ri_respChan i is Some _ then i else i <| ri_respChan := Some (RValue v) |>) m), [])
  | McErrors _, TrErrors [] => Ok (tr_goto i TrReturned m, [])
  | McErrors _, TrErrors (k :: ks) => m ← put_answer k RError m; mret (tr_goto i (TrErrors ks) m, [])
  | _, _ => Diverge
  end.

Definition mc_step m (ev : McEvent) : res (MultiConn * list CnOut) :=
  match ev with
  | McSend value => Ok (mc_Send m value, [])
  | McTake k =>
      match mc_infos m !! k with
      | Some info => match ri_respChan info with Some d => Ok (on_info k (λ i, i <| ri_respChan := None |>) m, [CnAnswer k d]) | None => Diverge end
      | None => Diverge
      end
  | McWrite k _ _ | McError k | McSignal k | McTimeout k | McResend k | McGot k =>
      match mc_senders m !! k with Some t => ts_step m k t ev | None => Diverge end
  | McToken i | McRead i _ _ | McResponse i | McDeliver i | McErrors i =>
      match mc_receivers m !! i with Some pc => tr_step m i pc ev | None => Diverge end
  end.
End multi.

(** ** Answers belong to requests, and no request ends without one *)

Section multi_runs.
Context {RO : RangeOrder}.
Implicit Types m : MultiConn.

Definition chan_of m (k : nat) : option ResponseData := mc_infos m !! k ≫= ri_respChan.
Definition got_of m (k : nat) : bool := default false (ri_gotResponse <$> mc_infos m !! k).
Definition returned m (k : nat) : Prop := ts_pc <$> mc_senders m !! k = Some TsReturned.
Definition in_hands m (k : nat) (v : bytes) : Prop := TrResponse k v ∈ mc_receivers m ∨ TrDeliver k v ∈ mc_receivers m.
Definition delivering m (k : nat) : Prop := ∃ v, TrDeliver k v ∈ mc_receivers m.
Definition mc_read_by (evs : list McEvent) (k : nat) (v : bytes) : Prop :=
  ∃ i response rc, McRead i (Some response) rc ∈ evs ∧ rs_GetSeq response = Z.of_nat k ∧ rs_Val response = v.
Definition mc_answered m (outs : list CnOut) (k : nat) : Prop := is_Some (chan_of m k) ∨ ∃ d, CnAnswer k d ∈ outs.

Record mc_inv (evs : list McEvent) m (outs : list CnOut) : Prop := {
  mi_len : length (mc_senders m) = length (mc_infos m);
  mi_seq : mc_seq m = len (mc_infos m);
  mi_map : ∀ s k, mc_respMap m !! s = Some k → s = Z.of_nat k;
  mi_data : ∀ k v, chan_of m k = Some (RValue v) ∨ CnAnswer k (RValue v) ∈ outs ∨ in_hands m k v → mc_read_by evs k v;
  mi_done : ∀ k, returned m k ∨ got_of m k = true → mc_answered m outs k ∨ delivering m k;
}.

Lemma mc_read_by_mono evs ev k v : mc_read_by evs k v → mc_read_by (evs ++ [ev]) k v.
Proof. intros (i & r & b & Hin & ?). exists i, r, b. split; [set_solver|done]. Qed.
Lemma mc_inv_event evs ev m outs : mc_inv evs m outs → mc_inv (evs ++ [ev]) m (outs ++ []).
Proof. intros [H1 H2 H3 H4 H5]. rewrite app_nil_r. split; [done..| |done]. intros j v Hj. by apply mc_read_by_mono, H4. Qed.

Lemma chan_on_info m k f j : chan_of (on_info k f m) j = if decide (j = k) then mc_infos m !! j ≫= (λ i, ri_respChan (f i)) else chan_of m j.
Proof. unfold chan_of, on_info. cbn. rewrite list_lookup_alter. repeat case_decide; subst; try done. by destruct (mc_infos m !! _). Qed.
Lemma got_on_info m k f j : got_of (on_info k f m) j = if decide (j = k) then default false (ri_gotResponse ∘ f <$> mc_infos m !! j) else got_of m j.
Proof. unfold got_of, on_info. cbn. rewrite list_lookup_alter. repeat case_decide; subst; try done. by destruct (mc_infos m !! _). Qed.
Lemma returned_goto m k pc j : returned (ts_goto k pc m) j → returned m j ∧ j ≠ k ∨ j = k ∧ pc = TsReturned ∧ (k < length (mc_senders m))%nat.
Proof.
  unfold returned, ts_goto. cbn. rewrite list_lookup_alter. case_decide as Hj; subst; [|auto].
  destruct (mc_senders m !! j) eqn:E; cbn; [|done]. intros [= ->]. right. by eapply lookup_lt_Some in E.
Qed.

(** A step that only moves goroutines. *)
Lemma mc_inv_frame evs ev m m' outs o : mc_inv evs m outs → length (mc_senders m') = length (mc_senders m) → length (mc_infos m') = length (mc_infos m) →
  mc_seq m' = mc_seq m → (∀ s k, mc_respMap m' !! s = Some k → mc_respMap m !! s = Some k) →
  (∀ k v, chan_of m' k = Some (RValue v) ∨ CnAnswer k (RValue v) ∈ o ∨ in_hands m' k v →
     chan_of m k = Some (RValue v) ∨ in_hands m k v ∨ mc_read_by [ev] k v) →
  (∀ k, returned m' k ∨ got_of m' k = true → (returned m k ∨ got_of m k = true) ∨ is_Some (chan_of m' k) ∨ delivering m' k) →
  (∀ k, mc_answered m [] k → mc_answered m' o k) → (∀ k, delivering m k → (k < length (mc_infos m))%nat → delivering m' k ∨ is_Some (chan_of m' k)) →
  mc_inv (evs ++ [ev]) m' (outs ++ o).
Proof.
  intros [H1 H2 H3 H4 H5] L1 L2 Es Em Hd Hr Ha Hv.
  assert (∀ k v, mc_read_by evs k v ∨ mc_read_by [ev] k v → mc_read_by (evs ++ [ev]) k v) as Hrb.
  { intros k v [(i & r & b & Hin & ?)|(i & r & b & Hin & ?)]; exists i, r, b; (split; [set_solver|done]). }
  split; [lia|congruence| | |].
  - intros s k Hk. by apply H3, Em.
  - intros k v Hk. apply Hrb. rewrite elem_of_app in Hk.
    assert (CnAnswer k (RValue v) ∈ outs ∨ (chan_of m k = Some (RValue v) ∨ in_hands m k v ∨ mc_read_by [ev] k v)) as [?|[?|[?|?]]]; [|left; apply H4; auto..|by right].
    destruct Hk as [Hk|[[Hk|Hk]|Hk]]; auto.
  - assert (∀ k, mc_answered m outs k → mc_answered m' (outs ++ o) k) as Hans.
    { intros k [Hk|[d Hk]]; [|right; exists d; set_solver]. destruct (Ha k) as [?|[d ?]]; [by left|by left|right; exists d; set_solver]. }
    intros k Hk. destruct (Hr k Hk) as [Hold|[Hs|Hs]]; [|by left; left|by right].
    assert (k < length (mc_infos m))%nat as Hlt.
    { destruct Hold as [Hold|Hold].
      - unfold returned in Hold. apply fmap_Some in Hold as (t & Ht & _). rewrite <- H1. by eapply lookup_lt_Some.
      - unfold got_of in Hold. destruct (mc_infos m !! k) eqn:E; [|done]. by eapply lookup_lt_Some. }
    destruct (H5 k Hold) as [?|Hv']; [left; auto|]. destruct (Hv k Hv' Hlt) as [?|?]; [by right|left; by left].
Qed.

Lemma length_on_info k f m : length (mc_infos (on_info k f m)) = length (mc_infos m).
Proof. unfold on_info. cbn. apply length_alter. Qed.
Lemma length_goto k pc m : length (mc_senders (ts_goto k pc m)) = length (mc_senders m).
Proof. unfold ts_goto. cbn. apply length_alter. Qed.

(** A goroutine of a request goes elsewhere than to its return. *)
Lemma goto_inv evs ev m outs o k pc : mc_inv evs m outs → pc ≠ TsReturned → (∀ j d, CnAnswer j d ∉ o) → mc_inv (evs ++ [ev]) (ts_goto k pc m) (outs ++ o).
Proof.
  intros Hi Hpc Ho. eapply mc_inv_frame; [exact Hi|apply length_goto|done|done|done| | | |].
  - intros j v [Hj|[Hj|Hj]]; [by left|by apply Ho in Hj|by right; left].
  - intros j [Hj|Hj]; [|by left; right]. apply returned_goto in Hj as [[Hj _]|(_ & Hj & _)]; [by left; left|done].
  - intros j [Hj|[d Hj]]; [by left|by apply elem_of_nil in Hj].
  - by left.
Qed.

(** It returns: the request is answered. *)
Lemma return_inv evs ev m outs k t : mc_inv evs m outs → mc_senders m !! k = Some t → mc_answered m outs k ∨ delivering m k →
  mc_inv (evs ++ [ev]) (ts_return k t m) (outs ++ []).
Proof.
  intros Hi Ht Ha. set (m1 := if ts_deferred t then m <| mc_respMap ::= delete (GetSeq (ts_req t)) |> else m).
  assert (mc_inv evs m1 outs) as Hi1.
  { unfold m1. destruct (ts_deferred t); [|done]. destruct Hi as [H1 H2 H3 H4 H5]. split; cbn; [done..| |done|done].
    intros s j. rewrite lookup_delete_Some. intros [_ Hj]. by apply H3. }
  assert (mc_answered m1 outs k ∨ delivering m1 k) as Ha1 by (unfold m1; by destruct (ts_deferred t)).
  change (ts_return k t m) with (ts_goto k TsReturned m1). clearbody m1. clear Hi Ha Ht. rewrite app_nil_r. destruct Hi1 as [H1 H2 H3 H4 H5]. split.
  - by rewrite length_goto.
  - done.
  - done.
  - intros j v Hj. by apply mc_read_by_mono, H4.
  - intros j [Hj|Hj]; [|by apply (H5 j); right]. apply returned_goto in Hj as [[Hj _]|(-> & _ & _)]; [by apply (H5 j); left|done].
Qed.

Lemma put_answer_inv evs ev m outs k d m' : mc_inv evs m outs → (∀ v, d ≠ RValue v) → put_answer k d m = Ok m' →
  mc_inv (evs ++ [ev]) m' (outs ++ []) ∧ mc_answered m' outs k ∧ mc_senders m' = mc_senders m ∧ mc_receivers m' = mc_receivers m.
Proof.
  intros Hi Hd. unfold put_answer. destruct (mc_infos m !! k) as [info|] eqn:Ek; [|done]. destruct (ri_respChan info) eqn:Ec; [done|]. intros [= <-].
  assert (∀ j, chan_of (on_info k (λ i, i <| ri_respChan := Some d |>) m) j = if decide (j = k) then Some d else chan_of m j) as Hch.
  { intros j. rewrite chan_on_info. case_decide; [|done]. subst. by rewrite Ek. }
  assert (∀ j, got_of (on_info k (λ i, i <| ri_respChan := Some d |>) m) j = got_of m j) as Hg.
  { intros j. rewrite got_on_info. case_decide; [|done]. subst. unfold got_of. by rewrite Ek. }
  split_and!; [|left; rewrite Hch, decide_True by done; by eexists|done|done].
  eapply mc_inv_frame; [exact Hi|done|apply length_on_info|done|done| | | |].
  - intros j v. rewrite Hch. intros [Hj|[Hj|Hj]]; [|by apply elem_of_nil in Hj|by right; left]. case_decide; [by injection Hj as ->; destruct (Hd v)|by left].
  - intros j. rewrite Hg. by left.
  - intros j [Hj|[? Hj]]; [left; rewrite Hch; case_decide; [by eexists|done]|by apply elem_of_nil in Hj].
  - by left.
Qed.

(** Flags other than that of a response. *)
Lemma flag_inv evs m outs k f : (∀ i, ri_respChan (f i) = ri_respChan i) → (∀ i, ri_gotResponse (f i) = true → ri_gotResponse i = true) →
  mc_inv evs m outs → mc_inv evs (on_info k f m) outs.
Proof.
  intros Hc Hg [H1 H2 H3 H4 H5].
  assert (∀ j, chan_of (on_info k f m) j = chan_of m j) as Ech.
  { intros j. rewrite chan_on_info. case_decide; [|done]. unfold chan_of. by destruct (mc_infos m !! j); cbn. }
  assert (∀ j, got_of (on_info k f m) j = true → got_of m j = true) as Eg.
  { intros j. rewrite got_on_info. case_decide; [|done]. unfold got_of. destruct (mc_infos m !! j); cbn; [apply Hg|done]. }
  split; [by rewrite length_on_info|by rewrite length_on_info|done| |].
  - intros j v. rewrite Ech. apply H4.
  - intros j Hj. unfold mc_answered. rewrite Ech. apply (H5 j). destruct Hj as [?|?%Eg]; auto.
Qed.

Lemma elem_goto {A} (l : list A) i x0 x y : l !! i = Some x0 → y ∈ l → y ≠ x0 → y ∈ <[i:=x]> l.
Proof.
  intros Hi [j Hj]%list_elem_of_lookup Hy. apply list_elem_of_lookup_2 with j. rewrite list_lookup_insert_ne; [done|]. intros ->. congruence.
Qed.
Lemma elem_goto_inv {A} (l : list A) i x y : y ∈ <[i:=x]> l → y = x ∨ y ∈ l.
Proof. intros [j [(_ & -> & _)|[_ Hj]]%list_lookup_insert_Some]%list_elem_of_lookup; [by left|right; by eapply list_elem_of_lookup_2]. Qed.

(** A receiver that has nothing to deliver goes elsewhere. *)
Lemma receiver_inv evs ev m outs i pc0 pc : mc_inv evs m outs → mc_receivers m !! i = Some pc0 → (∀ k v, pc0 ≠ TrDeliver k v) →
  (∀ k v, pc = TrResponse k v ∨ pc = TrDeliver k v → mc_read_by (evs ++ [ev]) k v) →
  mc_inv (evs ++ [ev]) (tr_goto i pc m) (outs ++ []).
Proof.
  intros [H1 H2 H3 H4 H5] Ei Hn Hpc. rewrite app_nil_r. split; [done..| |].
  - intros k v [Hk|[Hk|Hk]]; [by apply mc_read_by_mono, H4; auto..|]. unfold in_hands, tr_goto in Hk. cbn in Hk.
    destruct Hk as [Hk|Hk]; (apply elem_goto_inv in Hk as [Hk|Hk]; [apply Hpc; auto|apply mc_read_by_mono, H4; right; right; unfold in_hands; auto]).
  - intros k Hk. destruct (H5 k Hk) as [?|[v Hv]]; [by left|]. right. exists v. unfold tr_goto. cbn. eapply elem_goto; [exact Ei|done|done].
Qed.

Lemma spawn_inv evs m outs rc : mc_inv evs m outs → mc_inv evs (spawn rc m) outs.
Proof.
  destruct rc; [|done..]. intros [H1 H2 H3 H4 H5]. split; [done..| |].
  - intros k v [Hk|[Hk|Hk]]; [apply H4; auto..|]. apply H4. right. right. unfold in_hands in *. cbn in Hk. rewrite !elem_of_app, !list_elem_of_singleton in Hk.
    naive_solver.
  - intros k Hk. destruct (H5 k Hk) as [?|[v Hv]]; [by left|]. right. exists v. cbn. rewrite elem_of_app. by left.
Qed.

Lemma ts_step_inv evs m outs k t ev m' o : mc_inv evs m outs → mc_senders m !! k = Some t → ts_step m k t ev = Ok (m', o) →
  mc_inv (evs ++ [ev]) m' (outs ++ o).
Proof.
  intros Hi Ht. unfold ts_step. destruct ev as [|j ok rc|j|j|j|j|j| | | | | |], (ts_pc t) eqn:Ep; try done.
  - destruct ok; intros [= <- <-]; [apply goto_inv; [done|done|set_solver]|].
    destruct rc; [apply mc_inv_event; by apply (spawn_inv _ _ _ Reconnected)|by apply mc_inv_event|apply goto_inv; [done|done|set_solver]].
  - intros (m1 & Hp & Hr)%bind_Ok. injection Hr as <- <-.
    destruct (put_answer_inv evs (McError j) m outs k RError m1 Hi ltac:(done) Hp) as (Hi1 & Ha & Es & Er). rewrite app_nil_r in Hi1.
    assert (mc_inv evs m1 outs) as Hi2.
    { destruct Hi1 as [H1 H2 H3 H4 H5]. split; [done..| |done]. intros i v Hv. destruct (H4 i v Hv) as (l & r & b & Hin & ?). exists l, r, b. split; [set_solver|done]. }
    apply return_inv; [done|by rewrite Es|by left].
  - destruct (bool_decide _); [|done]. intros [= <- <-]. apply goto_inv; [|done|set_solver].
    destruct Hi as [H1 H2 H3 H4 H5]. split; cbn; [by rewrite length_alter|done..|]. intros i [Hr|Hg]; [|by apply (H5 i); right]. apply (H5 i). left.
    unfold returned in *. cbn in Hr. rewrite list_lookup_alter in Hr. case_decide; subst; [|done]. rewrite Ht in *. cbn in *. done.
  - intros [= <- <-]. apply goto_inv; [done|done|set_solver].
  - destruct (mc_infos m !! k) as [info|]; [|done]. destruct (ri_resend info); [|done]. intros [= <- <-]. apply goto_inv; [|done|set_solver]. by apply flag_inv.
  - destruct (mc_infos m !! k) as [info|] eqn:Ek; [|done]. destruct (ri_gotResponse info) eqn:Eg; [|done]. intros [= <- <-].
    apply return_inv; [by apply flag_inv|done|]. destruct (mi_done _ _ _ Hi k) as [Ha|Hv]; [right; unfold got_of; by rewrite Ek| |by right].
    left. unfold mc_answered in *. rewrite chan_on_info, decide_True, Ek by done. cbn. unfold chan_of in Ha. by rewrite Ek in Ha.
Qed.

(** A receiver passes a response to the channels of its request. *)
Lemma pass_inv evs ev m outs i pc0 k f pc : mc_inv evs m outs → mc_receivers m !! i = Some pc0 →
  (∀ r v, ri_respChan (f r) = Some (RValue v) → ri_respChan r = Some (RValue v) ∨ in_hands m k v) →
  (∀ r, ri_gotResponse (f r) = true → ri_gotResponse r = true ∨ ∃ v, pc = TrDeliver k v) →
  (∀ r, is_Some (ri_respChan r) → is_Some (ri_respChan (f r))) →
  (∀ j v, pc = TrResponse j v ∨ pc = TrDeliver j v → in_hands m j v) →
  (∀ j v, pc0 = TrDeliver j v → j = k ∧ ∀ r, is_Some (ri_respChan (f r))) →
  mc_inv (evs ++ [ev]) (tr_goto i pc (on_info k f m)) (outs ++ []).
Proof.
  intros Hi Ei C1 C2 C3 C4 C5. set (m' := tr_goto i pc (on_info k f m)).
  assert (∀ j, chan_of m' j = if decide (j = k) then mc_infos m !! j ≫= (λ r, ri_respChan (f r)) else chan_of m j) as Ec by exact (chan_on_info m k f).
  assert (∀ j, got_of m' j = if decide (j = k) then default false (ri_gotResponse ∘ f <$> mc_infos m !! j) else got_of m j) as Eg by exact (got_on_info m k f).
  eapply mc_inv_frame; [exact Hi|done|apply length_on_info|done|done| | | |].
  - intros j v [Hj|[Hj|Hj]]; [|by apply elem_of_nil in Hj|right; left].
    + rewrite Ec in Hj. case_decide; [|by left]. subst. unfold chan_of. destruct (mc_infos m !! k) as [r|]; [|done]. apply C1 in Hj as [Hj|Hj]; [by left|by right; left].
    + destruct Hj as [Hj|Hj]; (apply elem_goto_inv in Hj as [Hj|Hj]; [apply C4; auto|unfold in_hands; auto]).
  - intros j [Hj|Hj]; [by left; left|]. rewrite Eg in Hj. case_decide; [|by left; right]. subst. unfold got_of.
    destruct (mc_infos m !! k) as [r|]; [|done]. apply C2 in Hj as [Hj|[v ->]]; [by left; right|right; right]. exists v.
    apply list_elem_of_lookup_2 with i. unfold m', tr_goto. cbn. apply list_lookup_insert_eq. by eapply lookup_lt_Some.
  - intros j [Hj|[d Hj]]; [|by apply elem_of_nil in Hj]. left. rewrite Ec. case_decide; [|done]. subst. unfold chan_of in Hj.
    destruct (mc_infos m !! k) as [r|]; [by apply C3|by destruct Hj].
  - intros j [v Hj] Hlt. destruct (decide (pc0 = TrDeliver j v)) as [->|Hne].
    + right. destruct (C5 j v eq_refl) as [-> Hs]. rewrite Ec, decide_True by done. destruct (lookup_lt_is_Some_2 _ _ Hlt) as [r ->]. apply Hs.
    + left. exists v. unfold m', tr_goto. cbn. eapply elem_goto; [exact Ei|exact Hj|done].
Qed.

Lemma resend_all_inv evs m outs ks : mc_inv evs m outs →
  let m' := foldr (λ k, on_info k (λ i, i <| ri_resend := true |>)) m ks in mc_inv evs m' outs ∧ mc_receivers m' = mc_receivers m.
Proof. intros Hi. induction ks as [|k ks [IH1 IH2]]; [done|]. split; [by apply flag_inv|exact IH2]. Qed.

Lemma tr_step_inv evs m outs i pc ev m' o : mc_inv evs m outs → mc_receivers m !! i = Some pc → tr_step m i pc ev = Ok (m', o) → mc_inv (evs ++ [ev]) m' (outs ++ o).
Proof.
  intros Hi Ei. unfold tr_step. destruct ev as [|j ok rc|j|j|j|j|j|j|j response rc|j|j|j|j], pc as [| |k v|k v|l|]; try done.
  all: try (destruct l as [|k0 ks]; [|try done]).
  all: try (destruct response; [|destruct rc]; done).
  - destruct (bool_decide _); [|done]. intros [= <- <-]. eapply receiver_inv; [|exact Ei|done|by intros k v [|]]. destruct Hi; by split.
  - destruct response as [r|].
    + intros [= <- <-]. eapply receiver_inv; [exact Hi|exact Ei|done|]. intros k v. destruct (mc_respMap m !! rs_GetSeq r) as [k'|] eqn:Em; [|by intros [|]].
      intros [Hk|Hk]; [|done]. injection Hk as -> <-. exists j, r, rc. split_and!; [set_solver|by apply (mi_map _ _ _ Hi)|done].
    + assert (∀ rc', mc_inv (evs ++ [McRead j None rc]) (tr_goto i TrWait (foldr (λ k, on_info k (λ i, i <| ri_resend := true |>)) (spawn rc' m) (range_order 0 (mc_respMap m)).*2)) (outs ++ [])) as Hre.
      { intros rc'. destruct (resend_all_inv evs (spawn rc' m) outs (range_order 0 (mc_respMap m)).*2 (spawn_inv _ _ _ _ Hi)) as [Hi1 Er1].
        eapply receiver_inv; [exact Hi1| | |by intros k v [|]]; [rewrite Er1; destruct rc'; [by apply lookup_app_l_Some|exact Ei..]|done]. }
      destruct rc; intros [= <- <-]; [apply (Hre Reconnected)|apply (Hre Reconnecting)|]. eapply receiver_inv; [exact Hi|exact Ei|done|by intros k v [|]].
  - intros [= <- <-]. eapply pass_inv; [exact Hi|exact Ei|cbn; auto|cbn; eauto|done| |done].
    intros j' w [Hj|Hj]; [done|]. injection Hj as <- <-. left. by eapply list_elem_of_lookup_2.
  - intros [= <- <-]. eapply pass_inv; [exact Hi|exact Ei| | | | |].
    + intros r w. destruct (ri_respChan r) eqn:E; [rewrite E; by left|]. intros [= <-]. right. right. by eapply list_elem_of_lookup_2.
    + intros r. destruct (ri_respChan r); by left.
    + intros r. destruct (ri_respChan r) eqn:E; [by rewrite E|by eexists].
    + by intros j' w [|].
    + intros j' w [= <- <-]. split; [done|]. intros r. destruct (ri_respChan r) eqn:E; [rewrite E|]; by eexists.
  - intros [= <- <-]. eapply receiver_inv; [exact Hi|exact Ei|done|by intros k v [|]].
  - intros (m1 & Hp & Hr)%bind_Ok. injection Hr as <- <-.
    destruct (put_answer_inv evs (McErrors j) m outs k0 RError m1 Hi ltac:(done) Hp) as (Hi1 & Ha & Es & Er1). rewrite app_nil_r in *.
    destruct Hi1 as [H1 H2 H3 H4 H5]. split; [done..| |].
    + intros j' w [Hj|[Hj|[Hj|Hj]]]; [by apply H4; auto..| |]; (apply elem_goto_inv in Hj as [Hj|Hj]; [done|apply H4; right; right; unfold in_hands; auto]).
    + intros j' Hj. destruct (H5 j' Hj) as [?|[w Hw]]; [by left|]. right. exists w. unfold tr_goto. cbn. rewrite Er1 in *. eapply elem_goto; [exact Ei|exact Hw|done].
Qed.

Lemma send_inv evs m outs value : len (mc_infos m) + 1 < 2 ^ 32 → mc_inv evs m outs → mc_inv (evs ++ [McSend value]) (mc_Send m value) (outs ++ []).
Proof.
  intros Hb [H1 H2 H3 H4 H5]. rewrite app_nil_r. unfold mc_Send.
  assert (∀ j, (mc_infos m ++ [mkRI None false false]) !! j ≫= ri_respChan = chan_of m j) as Ec.
  { intros j. unfold chan_of. rewrite lookup_app. destruct (mc_infos m !! j); [done|]. by destruct (j - _)%nat as [|[]]. }
  split; cbn [mc_senders mc_infos mc_seq mc_respMap mc_receivers update eta eta_MultiConn].
  - rewrite !length_app, H1. done.
  - rewrite H2, u32_small, length_app by lia. cbn [length]. lia.
  - intros s k. rewrite lookup_insert_Some. intros [[<- <-]|[_ Hk]]; [done|by apply H3].
  - intros k v Hk. apply mc_read_by_mono, H4. destruct Hk as [Hk|Hk]; [|by right]. left. by rewrite <- Ec.
  - intros k Hk. destruct (H5 k) as [[Ha|Ha]|Ha]; [|left; left|left; by right|by right].
    + destruct Hk as [Hk|Hk].
      * left. unfold returned in *. cbn in Hk. apply fmap_Some in Hk as (t & Ht & Hk).
        apply lookup_app_Some in Ht as [Ht|[_ Ht]]; [by rewrite Ht; cbn; rewrite <- Hk|]. apply list_lookup_singleton_Some in Ht as [_ <-]. done.
      * right. unfold got_of in *. cbn in Hk. rewrite lookup_app in Hk. destruct (mc_infos m !! k); [done|]. by destruct (k - _)%nat as [|[]].
    + unfold chan_of at 1. cbn. by rewrite Ec.
Qed.

Lemma take_inv evs m outs k info d : mc_inv evs m outs → mc_infos m !! k = Some info → ri_respChan info = Some d →
  mc_inv (evs ++ [McTake k]) (on_info k (λ i, i <| ri_respChan := None |>) m) (outs ++ [CnAnswer k d]).
Proof.
  intros Hi Ek Ed. assert (chan_of m k = Some d) as Eck by (unfold chan_of; by rewrite Ek).
  assert (∀ j, chan_of (on_info k (λ i, i <| ri_respChan := None |>) m) j = if decide (j = k) then None else chan_of m j) as Ec.
  { intros j. rewrite chan_on_info. case_decide; [|done]. subst. by rewrite Ek. }
  assert (∀ j, got_of (on_info k (λ i, i <| ri_respChan := None |>) m) j = got_of m j) as Eg.
  { intros j. rewrite got_on_info. case_decide; [|done]. subst. unfold got_of. by rewrite Ek. }
  eapply mc_inv_frame; [exact Hi|done|apply length_on_info|done|done| | | |].
  - intros j v. rewrite Ec. intros [Hj|[Hj|Hj]]; [by case_decide; [|left]| |by right; left]. apply list_elem_of_singleton in Hj. injection Hj as -> <-. by left.
  - intros j. rewrite Eg. by left.
  - intros j [Hj|[? Hj]]; [|by apply elem_of_nil in Hj]. unfold mc_answered. rewrite Ec. case_decide; [subst; right; exists d; set_solver|by left].
  - by left.
Qed.

Lemma mc_step_inv evs m outs ev m' o : len (mc_infos m) + 1 < 2 ^ 32 → mc_inv evs m outs → mc_step m ev = Ok (m', o) →
  mc_inv (evs ++ [ev]) m' (outs ++ o).
Proof.
  intros Hb Hi Hs. destruct ev as [value|k ok rc|k|k|k|k|k|i|i response rc|i|i|i|k]; cbn [mc_step] in Hs.
  all: try (destruct (mc_receivers m !! i) as [pc|] eqn:Ei; [by eapply tr_step_inv|done]).
  all: try (destruct (mc_senders m !! k) as [t|] eqn:Et; [by eapply ts_step_inv|done]).
  - injection Hs as <- <-. by apply send_inv.
  - destruct (mc_infos m !! k) as [info|] eqn:Ek; [|done]. destruct (ri_respChan info) as [d|] eqn:Ed; [|done]. injection Hs as <- <-. by eapply take_inv.
Qed.

Definition mc_sent (evs : list McEvent) : list bytes := omap (λ ev, match ev with McSend v => Some v | _ => None end) evs.

Lemma put_answer_len k d m m' : put_answer k d m = Ok m' → length (mc_infos m') = length (mc_infos m).
Proof. unfold put_answer. destruct (mc_infos m !! k) as [i|]; [|done]. destruct (ri_respChan i); [done|]. intros [= <-]. apply length_on_info. Qed.
Lemma ts_return_len k t m : length (mc_infos (ts_return k t m)) = length (mc_infos m).
Proof. unfold ts_return. by destruct (ts_deferred t). Qed.
Lemma resend_all_len ks m : length (mc_infos (foldr (λ k, on_info k (λ i, i <| ri_resend := true |>)) m ks)) = length (mc_infos m).
Proof. induction ks as [|k ks IH]; [done|]. cbn [foldr]. by rewrite length_on_info. Qed.

Lemma mc_step_len m ev m' o : mc_step m ev = Ok (m', o) → length (mc_infos m') = (length (mc_infos m) + length (mc_sent [ev]))%nat.
Proof.
  assert (∀ k t, ts_step m k t ev = Ok (m', o) → length (mc_infos m') = length (mc_infos m)) as Hts.
  { intros k t. unfold ts_step. destruct ev as [|j ok rc|j|j|j|j|j| | | | | |], (ts_pc t); try done.
    - destruct ok; [|destruct rc]; by intros [= <- _].
    - intros (m1 & Hp%put_answer_len & Hr)%bind_Ok. injection Hr as <- _. by rewrite ts_return_len.
    - destruct (bool_decide _); [|done]. by intros [= <- _].
    - by intros [= <- _].
    - destruct (mc_infos m !! k) as [i|]; [|done]. destruct (ri_resend i); [|done]. intros [= <- _]. apply length_on_info.
    - destruct (mc_infos m !! k) as [i|]; [|done]. destruct (ri_gotResponse i); [|done]. intros [= <- _]. rewrite ts_return_len. apply length_on_info. }
  assert (∀ i pc, tr_step m i pc ev = Ok (m', o) → length (mc_infos m') = length (mc_infos m)) as Htr.
  { intros i pc. unfold tr_step. destruct ev as [|j ok rc|j|j|j|j|j|j|j response rc|j|j|j|j], pc as [| |k v|k v|l|]; try done.
    all: try (destruct response; [|destruct rc]; done).
    - destruct (bool_decide _); [|done]. by intros [= <- _].
    - destruct response; [by intros [= <- _]|]. destruct rc; intros [= <- _]; [apply (resend_all_len _ (spawn Reconnected m))|apply (resend_all_len _ m)|done].
    - intros [= <- _]. apply length_on_info.
    - intros [= <- _]. apply length_on_info.
    - destruct l as [|k ks]; [by intros [= <- _]|]. intros (m1 & Hp%put_answer_len & Hr)%bind_Ok. by injection Hr as <- _. }
  destruct ev as [value|k ok rc|k|k|k|k|k|i|i response rc|i|i|i|k]; cbn [mc_step mc_sent omap list_omap length]; rewrite ?Nat.add_0_r.
  all: try (destruct (mc_receivers m !! i) as [pc|]; [apply Htr|done]).
  all: try (destruct (mc_senders m !! k) as [t|]; [apply Hts|done]).
  - intros [= <- _]. cbn. by rewrite length_app.
  - destruct (mc_infos m !! k) as [i|]; [|done]. destruct (ri_respChan i); [|done]. intros [= <- _]. apply length_on_info.
Qed.

Lemma mc_run_inv id evs m outs : len (mc_sent evs) + 1 < 2 ^ 32 → run mc_step (NewMultiConn id) evs m outs →
  mc_inv evs m outs ∧ length (mc_infos m) = length (mc_sent evs).
Proof.
  intros Hb Hr. induction Hr as [|evs m1 o1 ev m2 o2 Hr IH Hs].
  - split; [|done]. split; [done|done|intros s k; cbn; by rewrite lookup_empty| |].
    + intros k v [Hk|[Hk|[Hk|Hk]]]; [done|by apply elem_of_nil in Hk|by apply list_elem_of_singleton in Hk..].
    + intros k [Hk|Hk]; [|done]. unfold returned in Hk. done.
  - unfold mc_sent in *. rewrite omap_app, length_app in *. destruct IH as [Hi Hl]; [lia|]. pose proof (mc_step_len _ _ _ _ Hs) as Hl2. unfold mc_sent in Hl2.
    split; [|lia]. eapply mc_step_inv; [|exact Hi|exact Hs]. lia.
Qed.
End multi_runs.

(** C20: What the application receives on the channel of its [k]-th request is an
    error, or the value of a response with the sequence number of this request.
    And no request is forgotten: when its goroutine has returned, an answer was
    received, or is in the channel, or one that reads is about to put an answer
    there. *)
Theorem requests_answered (RO : RangeOrder) (id : string) (evs : list McEvent) m outs : len (mc_sent evs) + 1 < 2 ^ 32 →
  run mc_step (NewMultiConn id) evs m outs →
  (∀ k v, CnAnswer k (RValue v) ∈ outs → mc_read_by evs k v) ∧
  (∀ k, returned m k → (∃ d, CnAnswer k d ∈ outs) ∨ is_Some (chan_of m k) ∨ delivering m k).
Proof.
  intros Hb Hr. destruct (mc_run_inv id evs m outs Hb Hr) as [[_ _ _ H4 H5] _]. split.
  - intros k v Hk. apply H4. auto.
  - intros k Hk. destruct (H5 k (or_introl Hk)) as [[?|?]|?]; auto.
Qed.

(** ** A redirect instead of an answer *)

Definition rd_req : Request := genReq cl_cid 0 [1].
(** The replica that the client is connected to hears of another leader. *)
Definition rd_handler : list CHEvent := [CHAccept 1 (Some cl_hello) true; CHTrust (ex_id 1); CHRequest rd_req].
Definition rd_resp : Response := genErrResp Response_EXEC_RESP Response_REDIRECT (ClientAddr ex_node).
Definition rd_evs : list McEvent :=
  [McSend [1]; McWrite 0 true Reconnected; McSignal 0; McToken 0; McRead 0 (Some rd_resp) Reconnected; McResponse 0; McDeliver 0; McTake 0; McGot 0].

(** The first request of a client can be answered with an empty value though
    no replica executes it: a replica that is no longer the leader answers it
    with a redirect, which has no sequence number; the client takes this for 0,
    and passes the value on without a look at the error code. *)
Theorem redirect_answers_first_request :
  (∃ ch outs, run (ch_step cl_gm) cl_ch0 rd_handler ch outs ∧ CHWrite 1 rd_resp ∈ outs ∧ proposed outs = []) ∧
  ∃ m, run mc_step (NewMultiConn cl_cid) rd_evs m [CnWrite rd_req; CnAnswer 0 (RValue [])] ∧ returned m 0.
Proof.
  split.
  - set (r := default (cl_ch0, []) (run_exec (ch_step cl_gm) cl_ch0 rd_handler)). exists r.1, r.2.
    split; [apply run_exec_run; vm_compute; reflexivity|]. split; [|vm_compute; reflexivity].
    apply list_elem_of_lookup_2 with 1%nat. vm_compute. reflexivity.
  - exists (default (NewMultiConn cl_cid, []) (run_exec mc_step (NewMultiConn cl_cid) rd_evs)).1.
    split; [apply run_exec_run; vm_compute; reflexivity|vm_compute; reflexivity].
Qed.

Lemma batch_answers_match_witness : ∃ i response,
  BcRead i (Some response) ∈ bc_evs ∧ HasError response = false ∧ rs_GetSeq response = Z.of_nat 0 ∧ rs_Val response = [7].
Proof.
  apply (batch_answers_match "c" 3 bc_evs bc_end.1 bc_end.2); [vm_compute; reflexivity|exact bc_end_run|].
  apply list_elem_of_lookup_2 with 1%nat. vm_compute. reflexivity.
Defined.

Definition mc_ex_resp : Response := genRespForReq rd_req [7].
Definition mc_ex_evs : list McEvent :=
  [McSend [1]; McWrite 0 true Reconnected; McSignal 0; McToken 0; McRead 0 (Some mc_ex_resp) Reconnected; McResponse 0; McGot 0; McDeliver 0; McTake 0].
Definition mc_ex_end : MultiConn * list CnOut := default (NewMultiConn cl_cid, []) (run_exec mc_step (NewMultiConn cl_cid) mc_ex_evs).
Lemma requests_answered_witness : mc_read_by mc_ex_evs 0 [7] ∧ returned mc_ex_end.1 0.
Proof.
  assert (run mc_step (NewMultiConn cl_cid) mc_ex_evs mc_ex_end.1 mc_ex_end.2) as Hr by (apply run_exec_run; vm_compute; reflexivity).
  split; [|vm_compute; reflexivity].
  apply (requests_answered map_order cl_cid mc_ex_evs mc_ex_end.1 mc_ex_end.2); [vm_compute; reflexivity|exact Hr|].
  apply list_elem_of_lookup_2 with 1%nat. vm_compute. reflexivity.
Defined.
