(* ===== verification/ConnManager.v ===== *)
(** The rest of client/: the connection manager (src/client/connmanager.go),
    which keeps one active connection to a member of the group, and how requests
    and responses are printed (src/client/msgutils.go).

    [dial n m] is what the [n]-th dial, to member [m], gives: a connection or an
    error. *)
From S2P Require Import Prelude PaxosTypes Bcast Keys Config Server ClientHandler ClientDial ClientConn.

(** * Membership identifiers *)

Definition MembID (members : list string) : bytes := sha1 (mjoin (str_bytes <$> members)).
Definition MembIDEqual (aID bID : bytes) : bool := bool_decide (aID = bID).

(** * The connection manager *)

Record connManager := mkCM { cm_membID : bytes; cm_members : gmap string (option nat); cm_activeConn : string; cm_conf : Config }.
#[export] Instance eta_connManager : Eta connManager := λ r, mkCM (cm_membID r) (cm_members r) (cm_activeConn r) (cm_conf r).

Definition no_conns (members : list string) : gmap string (option nat) := foldl (λ m member, <[member := None]> m) ∅ members.
Definition newConnManager (members : list string) (c : Config) : connManager := mkCM (MembID members) (no_conns members) "" c.

Section cm.
Context {RO : RangeOrder} (dial : nat → string → option nat).
Implicit Types cm : connManager.

Definition Members (k : nat) cm : list string := (range_order k (cm_members cm)).*1.
Definition Size cm : Z := Z.of_nat (size (cm_members cm)).
(** The connections that are closed. *)
Definition Close cm : list nat := omap snd (range_order 0 (cm_members cm)).

(** One round over the members from the [n]-th dial on. *)
Fixpoint connect_round cm (n : nat) (members : list string) : nat * option connManager :=
  match members with
  | [] => (n, None)
  | member :: members =>
      match dial n member with
      | Some conn => (S n, Some (cm <| cm_members ::= <[member := Some conn]> |> <| cm_activeConn := member |>))
      | None => connect_round cm (S n) members
      end
  end.
Fixpoint connect_rounds cm (n : nat) (rounds : nat) : nat * option connManager :=
  match rounds with
  | O => (n, None)
  | S rounds =>
      match connect_round cm n (Members n cm) with
      | (n, Some cm) => (n, Some cm)
      | (n, None) => connect_rounds cm n rounds
      end
  end.
Definition errConnect : string := "failed connecting to any member nodes".
(** With the number of the next dial. *)
Definition connect cm (n : nat) : nat * (option string * connManager) :=
  match connect_rounds cm n (Z.to_nat (GetInt (cm_conf cm) "cycleListMax" DefCycleListMax)) with
  | (n, Some cm) => (n, (None, cm))
  | (n, None) => (n, (Some errConnect, cm))
  end.

Definition update cm (n : nat) (members : list string) : nat * connManager :=
  let newMembers := no_conns members in
  let foundActive := bool_decide (is_Some (newMembers !! cm_activeConn cm)) in
  let newMembers := if foundActive then <[cm_activeConn cm := mjoin (cm_members cm !! cm_activeConn cm)]> newMembers else newMembers in
  let cm := cm <| cm_members := newMembers |> <| cm_membID := MembID members |> in
  if foundActive then (n, cm) else let '(n, (_, cm)) := connect cm n in (n, cm).

(** ** What it does *)

Lemma lookup_no_conns members m : no_conns members !! m = if decide (m ∈ members) then Some None else None.
Proof.
  unfold no_conns. induction members as [|x l IH] using rev_ind; [done|]. rewrite foldl_app. cbn.
  destruct (decide (m = x)) as [->|Hne].
  - rewrite lookup_insert_eq, decide_True; [done|]. apply elem_of_app. right. by apply elem_of_cons; left.
  - rewrite lookup_insert_ne, IH by done. destruct (decide (m ∈ l)) as [H|H].
    + rewrite decide_True; [done|]. by apply elem_of_app; left.
    + rewrite decide_False; [done|]. rewrite elem_of_app, elem_of_cons, elem_of_nil. naive_solver.
Qed.

(** What a successful connect leaves. *)
Definition connected_to cm (m : string) (conn : nat) cm' : Prop :=
  cm' = cm <| cm_members ::= <[m := Some conn]> |> <| cm_activeConn := m |>.

Lemma connect_round_spec cm members : ∀ n,
  match connect_round cm n members with
  | (n', Some cm') => ∃ m conn k, (n <= k < n')%nat ∧ n' = S k ∧ m ∈ members ∧ dial k m = Some conn ∧ connected_to cm m conn cm' ∧ (n' <= n + length members)%nat
  | (n', None) => n' = (n + length members)%nat ∧ ∀ i m, members !! i = Some m → dial (n + i)%nat m = None
  end.
Proof.
  induction members as [|m l IH]; intros n; cbn [connect_round]; [split; [cbn; lia|done]|].
  destruct (dial n m) as [conn|] eqn:Hd.
  - exists m, conn, n. split_and!; [lia|lia|done|by apply elem_of_cons; left|done|done|cbn; lia].
  - specialize (IH (S n)). destruct (connect_round cm (S n) l) as [n' [cm'|]].
    + destruct IH as (m' & conn & k & Hk & E & Hin & H1 & H2 & H3). exists m', conn, k. split_and!; [lia|lia|done|by apply elem_of_cons; right|done|done|cbn; lia].
    + destruct IH as [-> H]. split; [cbn; lia|]. intros [|i] m' Hi; [injection Hi as <-; by rewrite Nat.add_0_r|].
      rewrite Nat.add_succ_r. by apply (H i).
Qed.

Context {RL : RangeOrderLaws RO}.

Lemma Members_spec k cm m : m ∈ Members k cm ↔ is_Some (cm_members cm !! m).
Proof.
  unfold Members. rewrite (range_order_perm k (cm_members cm)). rewrite list_elem_of_fmap. split.
  - intros ([m' c] & -> & Hin%elem_of_map_to_list). by exists c.
  - intros [c Hc]. exists (m, c). split; [done|]. by apply elem_of_map_to_list.
Qed.
Lemma length_Members k cm : length (Members k cm) = size (cm_members cm).
Proof. unfold Members. rewrite (range_order_perm k (cm_members cm)), length_fmap. by rewrite length_map_to_list. Qed.

(** [connect] makes the last member it dials the active one, which it is a
    member before; it changes nothing if every dial of every round fails, and
    never dials more often than the rounds allow. *)
Theorem connect_spec cm n :
  let rounds := Z.to_nat (GetInt (cm_conf cm) "cycleListMax" DefCycleListMax) in
  match connect cm n with
  | (n', (None, cm')) => ∃ m conn k, n' = S k ∧ (n <= k)%nat ∧ is_Some (cm_members cm !! m) ∧ dial k m = Some conn ∧ connected_to cm m conn cm' ∧
      (n' <= n + rounds * size (cm_members cm))%nat
  | (n', (Some e, cm')) => e = errConnect ∧ cm' = cm ∧ n' = (n + rounds * size (cm_members cm))%nat
  end.
Proof.
  intros rounds. unfold connect. fold rounds. generalize rounds. clear rounds. intros rounds.
  assert (match connect_rounds cm n rounds with
    | (n', Some cm') => ∃ m conn k, n' = S k ∧ (n <= k)%nat ∧ is_Some (cm_members cm !! m) ∧ dial k m = Some conn ∧ connected_to cm m conn cm' ∧ (n' <= n + rounds * size (cm_members cm))%nat
    | (n', None) => n' = (n + rounds * size (cm_members cm))%nat
    end) as H; [|destruct (connect_rounds cm n rounds) as [n' [cm'|]]; done].
  revert n. induction rounds as [|r IH]; intros n; cbn [connect_rounds]; [lia|].
  pose proof (connect_round_spec cm (Members n cm) n) as Hr. rewrite length_Members in Hr.
  destruct (connect_round cm n (Members n cm)) as [n1 [cm1|]].
  - destruct Hr as (m & conn & k & Hk & E & Hin & H1 & H2 & H3). exists m, conn, k. apply Members_spec in Hin. split_and!; try done; lia.
  - destruct Hr as [-> _]. specialize (IH (n + size (cm_members cm))%nat). destruct (connect_rounds _ _ _) as [n' [cm'|]].
    + destruct IH as (m & conn & k & H1 & H2 & H3 & H4 & H5 & H6). exists m, conn, k. split_and!; try done; lia.
    + lia.
Qed.

(** The members are those of the last update, whatever was dialled. *)
Theorem update_members cm n members m :
  is_Some (cm_members (update cm n members).2 !! m) ↔ m ∈ members.
Proof.
  unfold update. assert (is_Some (no_conns members !! m) ↔ m ∈ members) as Hm.
  { rewrite lookup_no_conns. case_decide; split; try done; by intros []. }
  case_bool_decide as Ha.
  - cbn. destruct (decide (m = cm_activeConn cm)) as [->|Hne]; [rewrite lookup_insert_eq|by rewrite lookup_insert_ne].
    split; [intros _; by apply Hm|done].
  - set (cm1 := _ <| cm_membID := _ |>). pose proof (connect_spec cm1 n) as Hc. cbn zeta in Hc. destruct (connect cm1 n) as [n' [[e|] cm']]; cbn [snd].
    + by destruct Hc as (_ & -> & _).
    + destruct Hc as (m' & conn & k & _ & _ & Hin & _ & -> & _). cbn in Hin |- *.
      destruct (decide (m = m')) as [->|Hne]; [rewrite lookup_insert_eq|by rewrite lookup_insert_ne]. rewrite <- Hm. done.
Qed.

(** After an update without a connection to any member, another one that brings
    the last active member back does not connect to it, nor to any other. *)
Theorem update_stale_active cm n members1 members2 :
  cm_activeConn cm ∉ members1 → cm_activeConn cm ∈ members2 → (∀ k m, dial k m = None) →
  let cm1 := (update cm n members1).2 in let n1 := (update cm n members1).1 in
  update cm1 n1 members2 = (n1, cm1 <| cm_members := no_conns members2 |> <| cm_membID := MembID members2 |>).
Proof.
  intros H1 H2 Hd cm1 n1. assert (cm_activeConn cm1 = cm_activeConn cm ∧ cm_members cm1 = no_conns members1) as [Ea Em].
  { unfold cm1, update. rewrite bool_decide_false by (rewrite lookup_no_conns, decide_False by done; by intros []).
    set (cm0 := _ <| cm_membID := _ |>). pose proof (connect_spec cm0 n) as Hc. cbn zeta in Hc.
    destruct (connect cm0 n) as [n' [[e|] cm']]; cbn [snd]; [by destruct Hc as (_ & -> & _)|].
    destruct Hc as (m' & conn & k & _ & _ & _ & Hx & _). by rewrite Hd in Hx. }
  unfold update. rewrite Ea, Em. rewrite bool_decide_true by (rewrite lookup_no_conns, decide_True by done; by eexists).
  f_equal. rewrite (lookup_no_conns members1), decide_False by done. cbn. f_equal. apply insert_id. by rewrite lookup_no_conns, decide_True.
Qed.

(** The connections that an update forgets, without closing them. *)
Theorem update_forgets cm n members m conn :
  cm_members cm !! m = Some (Some conn) → m ≠ cm_activeConn cm → (∀ k m', dial k m' ≠ Some conn) →
  ∀ m', cm_members (update cm n members).2 !! m' ≠ Some (Some conn) ∨ m' = cm_activeConn cm.
Proof.
  intros Hm Hne Hd m'. destruct (decide (m' = cm_activeConn cm)) as [|Ha]; [by right|left]. unfold update. case_bool_decide as Hb.
  - cbn. rewrite lookup_insert_ne, lookup_no_conns by done. by case_decide.
  - set (cm0 := _ <| cm_membID := _ |>). pose proof (connect_spec cm0 n) as Hc. cbn zeta in Hc. destruct (connect cm0 n) as [n' [[e|] cm']]; cbn [snd].
    + destruct Hc as (_ & -> & _). cbn. rewrite lookup_no_conns. by case_decide.
    + destruct Hc as (m1 & c1 & k & _ & _ & _ & Hx & -> & _). cbn. destruct (decide (m' = m1)) as [->|]; [rewrite lookup_insert_eq; intros [= ->]; by eapply Hd|].
      rewrite lookup_insert_ne, lookup_no_conns by done. by case_decide.
Qed.
End cm.

(** Identifiers do not depend on where one member's name ends and the next
    begins; but they depend on the order. *)
Theorem MembID_joined l1 l2 : mjoin (str_bytes <$> l1) = mjoin (str_bytes <$> l2) → MembIDEqual (MembID l1) (MembID l2) = true.
Proof. intros E. unfold MembID. rewrite E. by apply bool_decide_true. Qed.
Example MembID_confused : MembIDEqual (MembID ["h:80"; "90"]) (MembID ["h:8"; "090"]) = true ∧ MembIDEqual (MembID ["a"; "b"]) (MembID ["b"; "a"]) = false.
Proof. split; vm_compute; reflexivity. Qed.

(** * Printing (msgutils.go) *)

(** [%x] of an unsigned 32-bit integer. *)
Fixpoint hex_digits (fuel : nat) (z : Z) (s : string) : string :=
  match fuel with
  | O => s
  | S fuel => let s := String (hex_char (z `mod` 16)) s in if bool_decide (z `div` 16 = 0) then s else hex_digits fuel (z `div` 16) s
  end.
Definition hex_u32 (z : Z) : string := hex_digits 8 z "".
Definition Response_Error_String (e : Z) : string :=
  if bool_decide (e = 0) then "NONE" else if bool_decide (e = 1) then "REDIRECT" else if bool_decide (e = 2) then "INVALID_ID"
  else if bool_decide (e = 3) then "MISSING_ID" else if bool_decide (e = 4) then "MISSING_TAG" else if bool_decide (e = 5) then "MISSING_VAL"
  else if bool_decide (e = 6) then "OLD_CMD" else if bool_decide (e = 15) then "OTHER" else pretty e.

Definition Request_SimpleString (r : Request) : string := "request from " +:+ GetId r +:+ " with seq " +:+ pretty (GetSeq r).
Definition Request_FullString (r : Request) : string := Request_SimpleString r +:+ " and value hash " +:+ hex_u32 (Request_Hash r).
Definition Response_SimpleString (r : Response) : string :=
  if negb (HasError r) then "response to " +:+ rs_GetId r +:+ " with seq " +:+ pretty (rs_GetSeq r)
  else "response to " +:+ rs_GetId r +:+ " with seq " +:+ pretty (rs_GetSeq r) +:+ " and error code " +:+ Response_Error_String (rs_GetErrorCode r).
Definition Response_FullString (r : Response) : string :=
  if negb (HasError r) then Response_SimpleString r +:+ ", value hash " +:+ hex_u32 (fnv_Write fnv_offset32 (rs_Val r))
  else Response_SimpleString r +:+ ", error detail: " +:+ rs_GetErrorDetail r.

Example prints :
  Request_FullString (mkRequest (Some Request_EXEC) (Some "c"%string) (Some 7) [97]) = "request from c with seq 7 and value hash e40c292c" ∧
  Response_FullString (mkResponse (Some Response_EXEC_RESP) (Some "c"%string) (Some 7) [] None (Some Response_REDIRECT) (Some "h:1"%string)) =
    "response to c with seq 7 and error code REDIRECT, error detail: h:1".
Proof. split; vm_compute; reflexivity. Qed.
